(* ===== verification/_CoqProject ===== *)
-Q . S2P
Prelude.v
External.v
OnionWire.v
OnionReplay.v
OnionCircuit.v
OnionFragment.v
Core.v
Protocol.v
FileSystem.v
Storage.v
Identity.v
Merkle.v
Consensus.v
Ledger.v
Finality.v
Compute.v
Wasm.v
State.v
StateSync.v
Auth.v
Network.v
Server.v
P2p.v
Metadata.v
Schema.v
Node.v
NodeAccess.v
NodeTasks.v
NodeReplies.v
NodeRestart.v
NodeClient.v
NodeTransfer.v
NodeService.v
NodeExecution.v
NodeGossip.v
FrontEnd.v
ImageDemo.v
