(* ===== verification/Prelude.v ===== *)
(** * A verification library for the peerless compute framework

    Peerless is a peer-to-peer compute framework in Rust: nodes hold
    content-addressed data, execute WebAssembly tasks for each other, record
    what they executed in a hash-chained ledger, admit each other by signed
    memberships, and reach each other over libp2p or through onion circuits.

    ** Parts of the program and the files that model them

    Paths are under src/crates/.

    - [Prelude]: results with their notation, bytes, machine integers, slices
      and the tactics every file uses.
    - [External]: interfaces (classes of operations with their documented laws)
      of third-party code: SHA-256, hex, serde_json, libp2p keys,
      ChaCha20-Poly1305, X25519, HKDF.  Module [Toy] instantiates each of them
      with an executable model, which the witnesses evaluate.
    - [OnionWire], [OnionReplay], [OnionCircuit], [OnionFragment]:
      peerless-onion-protocol/src/lib.rs.  Codecs of setup requests, responses
      and cells; the 128-bit replay window; key agreement, sealing and opening
      of layers; fragmentation and bounded reassembly.
    - [Core]: peerless-core/src/lib.rs.  Identifiers, tasks, policies.
    - [Protocol], [Identity]: peerless-protocol/src/lib.rs and
      peerless-identity/src/lib.rs.  Signed envelopes and execution records;
      the key file of a node.
    - [FileSystem]: the [std::fs] calls the sources make, over a tree of files,
      directories and symbolic links in which any call can fail; a world keeps
      the history of its trees, so a statement about the history covers a crash
      between any two calls.
    - [Storage]: peerless-storage/src/lib.rs.  Bounded reads, atomic
      replacement and creation, the content-addressed store.
    - [Merkle], [Consensus], [Ledger]: peerless-ledger/src/lib.rs.  Merkle
      trees with audit proofs; events, blocks, memberships, invitations and the
      two consensus engines behind the class [ConsensusEngine]; the chain on
      disk.  [Finality]: when the Byzantine engine finalises a block, and the
      block of the feature demonstration (peerless-cli/src/e2e.rs).
    - [Compute]: peerless-compute/src/lib.rs and wasm.rs.  Output verification,
      eligibility, scheduling, reputation, the execution ABIs; the runtime is
      the class [Wasmtime].  [Wasm]: the part of WebAssembly that the component
      shipped with the program uses, as data with a fuel-metered evaluator, and
      the class [Runs] of runtimes that follow it.
    - [State]: peerless-state/src/lib.rs.  Mutable documents; the class
      [Automerge].  [StateSync]: replicas that merge each other's snapshots.
    - [Auth]: peerless-anonymous-auth/src/lib.rs.  Blind issuance and
      redemption of short-lived tokens; the class [PrivacyPass].
    - [Network], [Server], [P2p]: peerless-network/src/lib.rs and p2p.rs.  RPC
      frames and LAN announcements; the accept loop of the RPC server with a
      thread for every connection, whose reads wait for bytes to arrive and
      whose concurrent calls of the handler are programs of lock sections, in
      any interleaving; and the command and event loop of the libp2p endpoint
      as a state machine; the class [Libp2p].
    - [Metadata], [Schema]: peerless-node/src/metadata.rs.  The four tables and
      their statements; opening, creating and migrating them.
    - [Node]: peerless-node/src/lib.rs, server side: the fixed part of a
      node as the record [Config], the fields behind locks as [Inner], the
      dispatcher [handle] and every handler it calls.  [NodeAccess],
      [NodeTasks], [NodeReplies] and [NodeRestart] prove what the dispatcher
      guarantees.
    - [NodeClient]: peerless-node/src/lib.rs, client side, against peers that
      answer anything.  [NodeTransfer], [NodeExecution], [NodeGossip] compose
      the client with the server, or with untrusted peers.
    - [NodeService]: peerless-node/src/lib.rs, opening, builder,
      listeners and statistics.
    - [FrontEnd], [ImageDemo]: peerless-cli/src/main.rs and
      peerless-browser/src/lib.rs.  The commands that form and run a network,
      each a process of its own over the data directory, the browser's
      bootstrap check, and the image demonstration: its WebAssembly component
      instruction by instruction and the loop that has the images processed.

    A node calls downwards: [Node] uses [Ledger], [State], [Compute], [Storage]
    and [Metadata]; [Ledger], [State], [Identity] and [P2p] persist through
    [Storage]; [Storage] runs on [FileSystem].  Client theorems are proved
    against the interfaces, so they hold for every hash function, signature
    scheme, serialiser, runtime and swarm with the documented laws.

    ** What the theorems show

    - Crash safety: an interrupted write leaves the old or the new file
      ([atomic_replace_crash_safe]); a ledger to which a block of its own
      network is appended reopens as it was or with the block
      ([ledger_append_crash_safe]), and only as a hash chain
      ([opened_ledger_is_chain]); state updates are not lost while no query
      whether a file exists fails ([state_updates_never_lost]), and identities
      never change ([identity_never_changes]); completed results survive a
      restart whose file-system calls succeed ([results_survive_restart]) and a
      database of an older version is migrated without losing a row
      ([schema_migration]).
    - Convergence: replicas that merged snapshots of the same changes, their own
      included, in any order hold the same changes ([replicas_converge]).
    - Agreement and audit: two quorums certify the same block
      ([bft_agreement]); a block that the leader and all but [f]
      members approve becomes final and is accepted everywhere ([bft_progress]); Merkle and audit proofs prove inclusion
      ([merkle_proof_sound], [audit_proof_exact]); gossip only ever extends the
      local ledger by certified blocks ([gossip_extends_ledger]).
    - Onion transport: delivery, key agreement, no replay, exact codecs,
      reassembly and its bounds ([onion_stream_delivery], [setup_keys_agree],
      [hop_receiver_no_replay], [replay_window_refines_set],
      [setup_codec_exact], [fragments_reassemble], [reassembler_bounded]).
    - Access: revocation, request budgets, tokens, listeners
      ([revocation_enforced], [request_budget_bounded],
      [redeemed_at_most_once], [issuance_authorised_and_bounded],
      [listeners_require_membership],
      [enrolment_survives_restart], [replies_well_typed]).
    - Resources: uploads stay within their limits whatever requests arrive
      ([uploads_bounded], [replication_within_policy]), and executions under
      every interleaving of the lock sections ([executions_bounded]), but for a
      commit after the lease or the deadline of a running task
      ([late_commit_overcommits]).
    - End to end: what is uploaded is stored ([upload_stores_content]); an
      executor that follows the protocol gives the client the output of the
      component it asked for ([honest_execution_correct]), which for the
      shipped resizing component is the half-size image
      ([resize_component_correct]); and what a client
      accepts from untrusted executors is vouched for
      ([sharded_execution_vouched], [verified_execution_agrees],
      [results_are_genuine]).
    - Network: frames, connections and commands ([rpc_exact],
      [connections_isolated], [commands_answered_once],
      [relay_private_confined]).
    - Statements that hold up to a collision of SHA-256 name the two inputs that
      collide, which the definitions hash themselves ([paths_collide],
      [blocks_collide]).
    - Behaviour the code does not intend, on concrete inputs:
      [short_messages_exhaust_reassembler], [late_commit_overcommits],
      [mixed_networks_block_restart], [failed_query_loses_updates],
      [failed_query_forgets_membership].

    ** Bounds and fuel

    - The temporary-name loop of the atomic writers ends when a name is free or
      a call fails: [temporary_fuel] (scripted faults + size of the tree + 1)
      is proved enough by [atomic_replace_succeeds].
    - [merkle_loop] and [proof_loop] halve a level per turn; the number of
      leaves is enough.  [chunks] consumes its list; the length is enough.
    - [resolve] follows at most 40 links, Linux's limit.
    - [generate_key] makes the source's 100 attempts.
    - [exec] of [Wasm] counts the turns of the loops; the proofs about the
      resizing component give the exact number, and [resize_cost_bound] that
      the component needs less than a three-hundredth of a task's fuel.
    - Integers are [Z] with the source's checks written out; checked,
      saturating and wrapping operations are separate definitions.

    ** Not modelled, and why

    - The feature demonstration (e2e.rs) beyond the block it finalises: a
      script of calls that are modelled, with sleeps and retries in between;
      starting the nodes of the image demonstration and its evidence file; the
      text layout of what the commands print, QR rendering, and the wasm32 half
      of the browser node: input, output and generated bindings only.
    - Accessors, [Debug] implementations and the API handles of [Peerless] that
      only forward to operations that are modelled.
    - SQLite itself: a statement is one step that can fail and then changes
      nothing.
    - Sockets and timeouts: a connection is a byte stream that may
      break after any byte.  [executions_bounded] and [connections_isolated]
      interleave the lock sections of concurrent requests; the other theorems
      about sequences of requests handle one after the other, and the threads
      of a client's wave run one after the other.
    - The insides of libp2p, wasmtime, Automerge, privacypass and OpenSSL:
      parameters with laws.
    - Durability beyond rename order: [sync_all] can fail but has no effect on
      the tree. *)

From Stdlib Require Export ZArith Lia Bool.
From Stdlib Require Import Strings.Byte.
From Stdlib Require String.
From stdpp Require Export base gmap sets list strings.

#[global] Open Scope Z_scope.
Set Default Proof Using "Type".

(** ** Results *)

(** Rust's [Result<A, E>]. *)
Inductive result (A E : Type) : Type :=
| Ok (a : A)
| Err (e : E).
Arguments Ok {A E} a.
Arguments Err {A E} e.

#[export] Instance result_eq_dec {A E} `{EqDecision A, EqDecision E} :
  EqDecision (result A E).
Proof. solve_decision. Defined.

Definition rbind {A B E} (m : result A E) (k : A → result B E) : result B E :=
  match m with Ok a => k a | Err e => Err e end.

Definition rmap_err {A E F} (f : E → F) (m : result A E) : result A F :=
  match m with Ok a => Ok a | Err e => Err (f e) end.

Definition ok_or {A E} (o : option A) (e : E) : result A E :=
  match o with Some a => Ok a | None => Err e end.

(** [if cond { return Err(e) }]. *)
Definition fail_if {E} (cond : bool) (e : E) : result unit E :=
  if cond then Err e else Ok tt.

Definition is_ok {A E} (m : result A E) : bool :=
  match m with Ok _ => true | Err _ => false end.

Declare Scope result_scope.
Delimit Scope result_scope with result.
Notation "'let?' x := e 'in' k" := (rbind e (fun x => k))
  (at level 10, x binder, e at level 100, k at level 200,
   format "'[v' 'let?'  x  :=  e  'in' '/' k ']'") : result_scope.
Notation "e ';?' k" := (rbind e (fun _ => k))
  (at level 100, k at level 200, right associativity) : result_scope.
#[global] Open Scope result_scope.

(** Collects the results of a traversal, stopping at the first error. *)
Fixpoint collect {A E} (l : list (result A E)) : result (list A) E :=
  match l with
  | [] => Ok []
  | x :: l => let? a := x in let? r := collect l in Ok (a :: r)
  end.

Lemma rbind_ok {A B E} (m : result A E) (k : A → result B E) b :
  rbind m k = Ok b ↔ ∃ a, m = Ok a ∧ k a = Ok b.
Proof. destruct m; simpl; naive_solver. Qed.

Lemma rbind_err {A B E} (m : result A E) (k : A → result B E) e :
  rbind m k = Err e ↔ m = Err e ∨ ∃ a, m = Ok a ∧ k a = Err e.
Proof. destruct m; simpl; naive_solver. Qed.

Lemma Ok_inj {A E} (a b : A) : @Ok A E a = Ok b → a = b.
Proof. by intros [=]. Qed.

Lemma fail_if_ok {E} b (e : E) u : fail_if b e = Ok u ↔ b = false.
Proof. destruct u, b; simpl; naive_solver. Qed.

Lemma fail_if_err {E} b (e e' : E) : fail_if b e = Err e' ↔ b = true ∧ e = e'.
Proof. destruct b; simpl; naive_solver. Qed.

Lemma ok_or_ok {A E} (o : option A) (e : E) a : ok_or o e = Ok a ↔ o = Some a.
Proof. destruct o; simpl; naive_solver. Qed.

Lemma rmap_err_ok {A E F} (f : E → F) (m : result A E) a :
  rmap_err f m = Ok a ↔ m = Ok a.
Proof. destruct m; simpl; naive_solver. Qed.

Lemma collect_ok_map {A B E} (f : A → result B E) (g : A → B) (l : list A) :
  (∀ x, x ∈ l → f x = Ok (g x)) → collect (f <$> l) = Ok (g <$> l).
Proof.
  induction l as [|x l IH]; intros Hl; [done|]. csimpl.
  rewrite (Hl x) by set_solver. simpl. by rewrite IH by set_solver.
Qed.

Lemma collect_ok {A E} (l : list (result A E)) r :
  collect l = Ok r ↔ l = Ok <$> r.
Proof.
  revert r. induction l as [|x l IH]; intros r; simpl.
  { destruct r; naive_solver. }
  rewrite rbind_ok. setoid_rewrite rbind_ok. setoid_rewrite IH.
  destruct r; naive_solver.
Qed.

(** Inverts a chain of successful binds in the hypotheses. *)
Ltac inv_ok :=
  repeat match goal with
  | H : rbind _ _ = Ok _ |- _ =>
      let a := fresh "a" in let E := fresh "E" in
      apply rbind_ok in H as [a [E H]]; cbv beta zeta in H
  | H : fail_if _ _ = Ok _ |- _ => apply fail_if_ok in H
  | H : ok_or _ _ = Ok _ |- _ => apply ok_or_ok in H
  | H : rmap_err _ _ = Ok _ |- _ => apply rmap_err_ok in H
  | H : Ok _ = Ok _ |- _ => injection H as H
  | H : (_, _) = (_, _) |- _ => injection H as H
  | H : Err _ = Ok _ |- _ => discriminate H
  | H : Ok _ = Err _ |- _ => discriminate H
  | a : unit |- _ => destruct a
  end.

(** Splits boolean conjunctions and disjunctions and reflects comparisons. *)
Ltac breflect :=
  repeat match goal with
  | H : _ && _ = true |- _ => apply andb_true_iff in H as [??]
  | H : _ || _ = false |- _ => apply orb_false_iff in H as [??]
  | H : negb _ = true |- _ => apply negb_true_iff in H
  | H : negb _ = false |- _ => apply negb_false_iff in H
  | H : bool_decide _ = true |- _ => apply bool_decide_eq_true in H
  | H : bool_decide _ = false |- _ => apply bool_decide_eq_false in H
  | H : (_ <? _) = true |- _ => apply Z.ltb_lt in H
  | H : (_ <? _) = false |- _ => apply Z.ltb_ge in H
  | H : (_ <=? _) = true |- _ => apply Z.leb_le in H
  | H : (_ <=? _) = false |- _ => apply Z.leb_gt in H
  | H : (_ =? _) = true |- _ => apply Z.eqb_eq in H
  | H : (_ =? _) = false |- _ => apply Z.eqb_neq in H
  | H : (_ <? _)%nat = true |- _ => apply Nat.ltb_lt in H
  | H : (_ <? _)%nat = false |- _ => apply Nat.ltb_ge in H
  | H : (_ <=? _)%nat = true |- _ => apply Nat.leb_le in H
  | H : (_ <=? _)%nat = false |- _ => apply Nat.leb_gt in H
  | H : (_ =? _)%nat = true |- _ => apply Nat.eqb_eq in H
  | H : (_ =? _)%nat = false |- _ => apply Nat.eqb_neq in H
  | H : ¬ (_ ≠ _) |- _ => apply dec_stable in H
  end.

(** ** Unsigned machine integers *)

Definition U8_MAX : Z := 2 ^ 8 - 1.
Definition U16_MAX : Z := 2 ^ 16 - 1.
Definition U32_MAX : Z := 2 ^ 32 - 1.
Definition U64_MAX : Z := 2 ^ 64 - 1.

Definition in_u8 (z : Z) : Prop := 0 ≤ z ≤ U8_MAX.
Definition in_u16 (z : Z) : Prop := 0 ≤ z ≤ U16_MAX.
Definition in_u32 (z : Z) : Prop := 0 ≤ z ≤ U32_MAX.
Definition in_u64 (z : Z) : Prop := 0 ≤ z ≤ U64_MAX.

(** [u64::checked_add], [checked_mul], and the saturating operations; [usize]
    is 64 bits wide on the supported targets. *)
Definition checked_add (a b : Z) : option Z :=
  if a + b <=? U64_MAX then Some (a + b) else None.
Definition checked_mul (a b : Z) : option Z :=
  if a * b <=? U64_MAX then Some (a * b) else None.
Definition saturating_add (a b : Z) : Z := Z.min (a + b) U64_MAX.
Definition saturating_mul (a b : Z) : Z := Z.min (a * b) U64_MAX.
Definition saturating_sub (a b : Z) : Z := Z.max 0 (a - b).

Lemma checked_add_Some a b c :
  checked_add a b = Some c ↔ c = a + b ∧ a + b ≤ U64_MAX.
Proof. unfold checked_add. destruct (Z.leb_spec (a + b) U64_MAX); naive_solver lia. Qed.

Lemma checked_mul_Some a b c :
  checked_mul a b = Some c ↔ c = a * b ∧ a * b ≤ U64_MAX.
Proof. unfold checked_mul. destruct (Z.leb_spec (a * b) U64_MAX); naive_solver lia. Qed.

(** ** Bytes *)

Abbreviation byte := Byte.byte.
Abbreviation bytes := (list Byte.byte).

#[export] Instance byte_eq_dec : EqDecision byte := Byte.byte_eq_dec.
#[export] Instance byte_countable : Countable byte :=
  inj_countable Byte.to_N Byte.of_N Byte.of_to_N.

(** The value of a [u8], and truncation of an integer to a [u8] ([as u8]). *)
Definition byte_to_Z (b : byte) : Z := Z.of_N (Byte.to_N b).
Definition byte_of_Z (z : Z) : byte := default x00 (Byte.of_N (Z.to_N (z mod 256))).

Lemma byte_to_Z_range b : 0 ≤ byte_to_Z b < 256.
Proof. unfold byte_to_Z. pose proof (Byte.to_N_bounded b). lia. Qed.

Lemma byte_to_of_Z z : byte_to_Z (byte_of_Z z) = z mod 256.
Proof.
  unfold byte_to_Z, byte_of_Z. pose proof (Z.mod_pos_bound z 256).
  destruct (Byte.of_N _) as [b|] eqn:E; simpl.
  - apply Byte.to_of_N in E. rewrite E. lia.
  - apply Byte.of_N_None_iff in E. lia.
Qed.

Lemma byte_to_of_Z_small z : 0 ≤ z < 256 → byte_to_Z (byte_of_Z z) = z.
Proof. intros. rewrite byte_to_of_Z. by apply Z.mod_small. Qed.

#[export] Instance byte_to_Z_inj : Inj (=) (=) byte_to_Z.
Proof.
  intros b1 b2 H. unfold byte_to_Z in H.
  assert (Byte.to_N b1 = Byte.to_N b2) as E by lia.
  pose proof (Byte.of_to_N b1). pose proof (Byte.of_to_N b2). congruence.
Qed.

Lemma byte_of_to_Z b : byte_of_Z (byte_to_Z b) = b.
Proof.
  apply byte_to_Z_inj. rewrite byte_to_of_Z. apply Z.mod_small, byte_to_Z_range.
Qed.

Lemma byte_of_Z_mod z : byte_of_Z (z mod 256) = byte_of_Z z.
Proof. apply byte_to_Z_inj. rewrite !byte_to_of_Z. by rewrite Z.mod_mod. Qed.

(** The bytes of a string literal. *)
Definition str_bytes (s : string) : bytes := String.list_byte_of_string s.

(** [to_be_bytes] of an [n]-byte unsigned integer, and [from_be_bytes]. *)
Fixpoint be_bytes (n : nat) (z : Z) : bytes :=
  match n with
  | O => []
  | S n => byte_of_Z (z / 256 ^ Z.of_nat n) :: be_bytes n z
  end.

Fixpoint be_val (l : bytes) : Z :=
  match l with
  | [] => 0
  | b :: l => byte_to_Z b * 256 ^ Z.of_nat (length l) + be_val l
  end.

Lemma length_be_bytes n z : length (be_bytes n z) = n.
Proof. induction n; simpl; congruence. Qed.

Lemma be_val_range l : 0 ≤ be_val l < 256 ^ Z.of_nat (length l).
Proof.
  induction l as [|b l IH]; simpl; [lia|].
  pose proof (byte_to_Z_range b).
  rewrite Nat2Z.inj_succ, Z.pow_succ_r by lia. nia.
Qed.

Lemma be_val_be_bytes_mod n z : be_val (be_bytes n z) = z mod 256 ^ Z.of_nat n.
Proof.
  induction n as [|n IH]; simpl; [by rewrite Z.mod_1_r|].
  rewrite length_be_bytes, IH, byte_to_of_Z.
  rewrite Nat2Z.inj_succ, Z.pow_succ_r by lia.
  rewrite (Z.mul_comm 256), Z.rem_mul_r by lia. lia.
Qed.

Lemma be_val_be_bytes n z : 0 ≤ z < 256 ^ Z.of_nat n → be_val (be_bytes n z) = z.
Proof. intros. rewrite be_val_be_bytes_mod. by apply Z.mod_small. Qed.

Lemma be_bytes_mod n z : be_bytes n (z mod 256 ^ Z.of_nat n) = be_bytes n z.
Proof.
  assert (∀ m, (n ≤ m)%nat → be_bytes n (z mod 256 ^ Z.of_nat m) = be_bytes n z) as Hm;
    [|by apply Hm].
  induction n as [|n IH]; intros m Hm; simpl; [done|]. f_equal; [|apply IH; lia].
  rewrite <- (byte_of_Z_mod (z / _)), <- byte_of_Z_mod. f_equal.
  replace (Z.of_nat m) with (Z.of_nat n + (1 + Z.of_nat (m - S n))) by lia.
  rewrite Z.pow_add_r, Z.rem_mul_r by lia.
  rewrite (Z.mul_comm (256 ^ _)), Z.div_add by lia.
  rewrite (Z.div_small (z mod _)) by (apply Z.mod_pos_bound; lia). simpl.
  rewrite Z.pow_add_r by lia. rewrite Z.pow_1_r, Z.rem_mul_r by lia.
  rewrite Z.add_0_l, (Z.mul_comm 256), Z.mod_add by lia. by rewrite Z.mod_mod by lia.
Qed.

Lemma be_bytes_be_val l : be_bytes (length l) (be_val l) = l.
Proof.
  induction l as [|b l IH]; simpl; [done|].
  pose proof (be_val_range l) as Hl. f_equal.
  - rewrite Z.div_add_l by lia. rewrite Z.div_small by lia.
    by rewrite Z.add_0_r, byte_of_to_Z.
  - rewrite <- (be_bytes_mod (length l) (_ + _)).
    by rewrite Z.add_comm, Z.mod_add, be_bytes_mod by lia.
Qed.

Lemma be_bytes_be_val' n l : length l = n → be_bytes n (be_val l) = l.
Proof. intros <-. apply be_bytes_be_val. Qed.

(** ** Fixed-offset buffers *)

(** [&l[a..b]]. *)
Definition slice {A} (a b : nat) (l : list A) : list A := take (b - a) (drop a l).

(** [dst[off..off + src.len()].copy_from_slice(src)]; the code only uses it in
    range. *)
Definition copy_at {A} (off : nat) (src dst : list A) : list A :=
  take off dst ++ src ++ drop (off + length src) dst.

(** [bytes[i]] of a buffer whose length is known to exceed [i]. *)
Definition byte_at (i : nat) (l : bytes) : byte := default x00 (l !! i).

Definition zeros (n : nat) : bytes := replicate n x00.

(** [l.iter().any(|byte| *byte != 0)]. *)
Definition any_nonzero (l : bytes) : bool := existsb (λ b, bool_decide (b ≠ x00)) l.

Section buffers.
Context {A : Type}.
Implicit Types l src dst : list A.

Lemma length_slice a b l : (b ≤ length l)%nat → length (slice a b l) = (b - a)%nat.
Proof. intros. unfold slice. rewrite length_take, length_drop. lia. Qed.

Lemma lookup_slice a b l i :
  slice a b l !! i = if decide (i < b - a)%nat then l !! (a + i)%nat else None.
Proof. unfold slice. rewrite lookup_take. case_decide; [by rewrite lookup_drop|done]. Qed.

Lemma length_copy_at off src dst :
  (off + length src ≤ length dst)%nat → length (copy_at off src dst) = length dst.
Proof.
  intros. unfold copy_at. rewrite !length_app, length_take, length_drop. lia.
Qed.

Lemma lookup_copy_at off src dst i :
  (off + length src ≤ length dst)%nat →
  copy_at off src dst !! i =
    if decide (off ≤ i < off + length src)%nat then src !! (i - off)%nat else dst !! i.
Proof.
  intros Hl. unfold copy_at. case_decide as Hi.
  - rewrite lookup_app_r by (rewrite length_take; lia).
    rewrite length_take, Nat.min_l by lia. by rewrite lookup_app_l by lia.
  - destruct (decide (i < off)%nat).
    + rewrite lookup_app_l by (rewrite length_take; lia). by rewrite lookup_take_lt.
    + rewrite lookup_app_r by (rewrite length_take; lia).
      rewrite length_take, Nat.min_l by lia.
      rewrite lookup_app_r by lia. rewrite lookup_drop. f_equal. lia.
Qed.

Lemma slice_copy_at_eq off src dst b :
  (off + length src ≤ length dst)%nat → b = (off + length src)%nat →
  slice off b (copy_at off src dst) = src.
Proof.
  intros Hl ->. apply list_eq. intros i. rewrite lookup_slice.
  replace (off + length src - off)%nat with (length src) by lia. case_decide.
  - rewrite lookup_copy_at by done. rewrite decide_True by lia. f_equal. lia.
  - symmetry. apply lookup_ge_None. lia.
Qed.

Lemma slice_copy_at_ne off src dst a b :
  (off + length src ≤ length dst)%nat → (b ≤ off ∨ off + length src ≤ a)%nat →
  slice a b (copy_at off src dst) = slice a b dst.
Proof.
  intros Hl Hd. apply list_eq. intros i. rewrite !lookup_slice. case_decide; [|done].
  rewrite lookup_copy_at by done. by rewrite decide_False by lia.
Qed.

Lemma lookup_copy_at_ne off src dst i :
  (off + length src ≤ length dst)%nat → (i < off ∨ off + length src ≤ i)%nat →
  copy_at off src dst !! i = dst !! i.
Proof. intros. rewrite lookup_copy_at by done. by rewrite decide_False by lia. Qed.

Lemma drop_copy_at_ne off src dst a :
  (off + length src ≤ a)%nat → (off + length src ≤ length dst)%nat →
  drop a (copy_at off src dst) = drop a dst.
Proof.
  intros. apply list_eq. intros i. rewrite !lookup_drop. by apply lookup_copy_at_ne; lia.
Qed.

(** The same facts with the buffer size named, so that they chain through a
    sequence of copies into one buffer. *)
Lemma length_copy_at' n off src dst :
  length dst = n → (off + length src ≤ n)%nat → length (copy_at off src dst) = n.
Proof. intros <-. apply length_copy_at. Qed.

Lemma slice_copy_at_eq' n off src dst b :
  length dst = n → (off + length src ≤ n)%nat → b = (off + length src)%nat →
  slice off b (copy_at off src dst) = src.
Proof. intros <-. apply slice_copy_at_eq. Qed.

Lemma slice_copy_at_ne' n off src dst a b :
  length dst = n → (off + length src ≤ n)%nat → (b ≤ off ∨ off + length src ≤ a)%nat →
  slice a b (copy_at off src dst) = slice a b dst.
Proof. intros <-. apply slice_copy_at_ne. Qed.

Lemma drop_copy_at_ne' n off src dst a :
  length dst = n → (off + length src ≤ n)%nat → (off + length src ≤ a)%nat →
  drop a (copy_at off src dst) = drop a dst.
Proof. intros <- ??. by apply drop_copy_at_ne. Qed.

Lemma lookup_copy_at' n off src dst i :
  length dst = n → (off + length src ≤ n)%nat →
  copy_at off src dst !! i =
    if decide (off ≤ i < off + length src)%nat then src !! (i - off)%nat else dst !! i.
Proof. intros <-. apply lookup_copy_at. Qed.

Lemma slice_app_l a b l1 l2 : (b ≤ length l1)%nat → slice a b (l1 ++ l2) = slice a b l1.
Proof.
  intros. apply list_eq. intros i. rewrite !lookup_slice. case_decide; [|done].
  by rewrite lookup_app_l by lia.
Qed.

Lemma slice_app_exact l1 l2 l3 a b :
  a = length l1 → b = (length l1 + length l2)%nat → slice a b (l1 ++ l2 ++ l3) = l2.
Proof.
  intros -> ->. unfold slice. rewrite drop_app_length.
  replace (_ + _ - _)%nat with (length l2) by lia. apply take_app_length.
Qed.

(** A buffer is determined by its parts. *)
Lemma slice_join a b c l :
  (a ≤ b ≤ c)%nat → slice a b l ++ slice b c l = slice a c l.
Proof.
  intros. unfold slice. replace (c - a)%nat with (b - a + (c - b))%nat by lia.
  rewrite <- take_take_drop, drop_drop.
  by replace (a + (b - a))%nat with b by lia.
Qed.

Lemma slice_0 b l : slice 0 b l = take b l.
Proof. unfold slice. by rewrite drop_0, Nat.sub_0_r. Qed.

Lemma slice_drop a b l : length l = b → slice a b l = drop a l.
Proof. intros <-. unfold slice. apply take_ge. rewrite length_drop. lia. Qed.

End buffers.

Lemma byte_at_slice i l : (i < length l)%nat → slice i (S i) l = [byte_at i l].
Proof.
  intros Hi. apply lookup_lt_is_Some in Hi as [b Hb]. unfold byte_at. rewrite Hb.
  unfold slice. replace (S i - i)%nat with 1%nat by lia.
  by rewrite (drop_S _ _ _ Hb).
Qed.

Lemma any_nonzero_false l : any_nonzero l = false ↔ l = zeros (length l).
Proof.
  unfold any_nonzero, zeros. induction l as [|b l IH]; simpl; [done|].
  rewrite orb_false_iff, bool_decide_eq_false, IH.
  split; [intros [Hb ->]|intros [= -> ->]].
  - rewrite length_replicate. f_equal. by apply dec_stable.
  - rewrite length_replicate. naive_solver.
Qed.

Lemma any_nonzero_zeros n : any_nonzero (zeros n) = false.
Proof. apply any_nonzero_false. unfold zeros. by rewrite length_replicate. Qed.

Lemma length_zeros n : length (zeros n) = n.
Proof. apply length_replicate. Qed.

Lemma byte_at_of_slice i l b : slice i (S i) l = [b] → byte_at i l = b.
Proof.
  intros H. assert (slice i (S i) l !! 0%nat = Some b) as E by by rewrite H.
  rewrite lookup_slice in E. case_decide; [|lia].
  unfold byte_at. rewrite Nat.add_0_r in E. by rewrite E.
Qed.

Lemma slice_zeros a b n : (b ≤ n)%nat → slice a b (zeros n) = zeros (b - a).
Proof.
  intros. unfold slice, zeros. rewrite drop_replicate, take_replicate. f_equal. lia.
Qed.

Lemma drop_zeros a n : drop a (zeros n) = zeros (n - a).
Proof. apply drop_replicate. Qed.

(** Side conditions about a chain of copies into a buffer of known size. *)
Ltac buf_len :=
  repeat apply length_copy_at';
  rewrite ?length_be_bytes, ?length_zeros; simpl length; try reflexivity; try lia.

(** Reads back one field of such a buffer. *)
Ltac buf_slice n :=
  repeat first
    [ rewrite (slice_copy_at_eq' n) by buf_len
    | rewrite (slice_copy_at_ne' n) by buf_len ].

#[global] Arguments slice : simpl never.
#[global] Arguments copy_at : simpl never.
#[global] Arguments byte_at : simpl never.
#[global] Arguments zeros : simpl never.
#[global] Arguments be_bytes : simpl never.
#[global] Arguments be_val : simpl never.
#[global] Arguments any_nonzero : simpl never.

(** ** Chunks *)

(** [l.chunks(n)] for [n > 0]; the fuel is the length of the list, which every
    chunk shortens. *)
Fixpoint chunks_aux {A} (fuel n : nat) (l : list A) : list (list A) :=
  match fuel with
  | O => []
  | S fuel =>
      match l with
      | [] => []
      | _ => take n l :: chunks_aux fuel n (drop n l)
      end
  end.

Definition chunks {A} (n : nat) (l : list A) : list (list A) := chunks_aux (length l) n l.

(** [usize::div_ceil]. *)
Definition div_ceil (a b : Z) : Z := a / b + (if a mod b =? 0 then 0 else 1).

Lemma div_ceil_le a b c : 0 < b → 0 ≤ a → (div_ceil a b ≤ c ↔ a ≤ b * c).
Proof.
  intros Hb Ha. unfold div_ceil. pose proof (Z.div_mod a b).
  pose proof (Z.mod_pos_bound a b). destruct (Z.eqb_spec (a mod b) 0); nia.
Qed.

Section chunks.
Context {A : Type}.
Implicit Types l : list A.

Lemma chunks_aux_fuel f1 f2 n l :
  (0 < n)%nat → (length l ≤ f1)%nat → (length l ≤ f2)%nat →
  chunks_aux f1 n l = chunks_aux f2 n l.
Proof.
  intros Hn. revert f2 l. induction f1 as [|f1 IH]; intros [|f2] [|x l]; simpl; try done; try lia.
  intros. f_equal. apply IH; rewrite length_drop; simpl; lia.
Qed.

Lemma chunks_cons n l :
  (0 < n)%nat → l ≠ [] → chunks n l = take n l :: chunks n (drop n l).
Proof.
  intros Hn Hl. unfold chunks. destruct l as [|x l]; [done|]. simpl. f_equal.
  apply chunks_aux_fuel; [done| |]; rewrite length_drop; simpl; lia.
Qed.

(** Induction following the chunking of a list. *)
Lemma chunks_ind n (P : list A → Prop) :
  (0 < n)%nat → P [] → (∀ l, l ≠ [] → P (drop n l) → P l) → ∀ l, P l.
Proof.
  intros Hn H0 HS l. remember (length l) as k eqn:Hk.
  revert l Hk. induction k as [k IH] using lt_wf_ind. intros l ->.
  destruct (decide (l = [])) as [->|Hl]; [done|]. apply HS; [done|].
  eapply IH; [|done]. destruct l; [done|]. rewrite length_drop. simpl. lia.
Qed.

Lemma concat_chunks n l : (0 < n)%nat → concat (chunks n l) = l.
Proof.
  intros Hn. revert l. apply (chunks_ind n); [done|done|]. intros l Hl IH.
  rewrite chunks_cons by done. simpl. rewrite IH. apply take_drop.
Qed.

Lemma length_chunks n l :
  (0 < n)%nat → Z.of_nat (length (chunks n l)) = div_ceil (Z.of_nat (length l)) (Z.of_nat n).
Proof.
  intros Hn. revert l. apply (chunks_ind n); [done|done|]. intros l Hl IH.
  rewrite chunks_cons by done. simpl length. rewrite Nat2Z.inj_succ, IH, length_drop.
  assert (0 < length l)%nat by (destruct l; simpl; [done|lia]).
  destruct (decide (n ≤ length l)%nat).
  - rewrite Nat2Z.inj_sub by done. unfold div_ceil.
    remember (Z.of_nat (length l) - Z.of_nat n) as x eqn:Hx.
    replace (Z.of_nat (length l)) with (x + 1 * Z.of_nat n) by lia.
    rewrite Z.div_add, Z.mod_add by lia. destruct (_ =? _); lia.
  - replace (length l - n)%nat with 0%nat by lia. unfold div_ceil. change (Z.of_nat 0) with 0. rewrite Z.mod_0_l, Z.div_0_l by lia.
    rewrite (Z.mod_small (Z.of_nat (length l))), (Z.div_small (Z.of_nat (length l))) by lia.
    rewrite (proj2 (Z.eqb_neq (Z.of_nat (length l)) 0)) by lia. done.
Qed.

Lemma chunks_bounds n l c :
  (0 < n)%nat → c ∈ chunks n l → (0 < length c ≤ n)%nat.
Proof.
  intros Hn. revert l. apply (chunks_ind n (λ l, c ∈ chunks n l → _));
    [done|by intros ?%not_elem_of_nil|].
  intros l Hl IH.
  rewrite chunks_cons by done. rewrite elem_of_cons. intros [->|?]; [|auto].
  rewrite length_take. destruct l; simpl; [done|lia].
Qed.

End chunks.

(** Distinct lists of one length differ at some position. *)
Lemma list_difference_at {A} `{EqDecision A} (l1 l2 : list A) :
  length l1 = length l2 → l1 ≠ l2 →
  ∃ i x y, l1 !! i = Some x ∧ l2 !! i = Some y ∧ x ≠ y.
Proof.
  revert l2. induction l1 as [|a l1 IH]; intros [|b l2] Hl Hne; [done..|].
  destruct (decide (a = b)) as [->|Hab]; [|by exists 0%nat, a, b].
  destruct (IH l2) as (i&x&y&Hi); [by injection Hl|congruence|]. by exists (S i), x, y.
Qed.

Lemma NoDup_omap_inj {A B} (f : A → option B) (l : list A) :
  (∀ x y z, f x = Some z → f y = Some z → x = y) → NoDup l → NoDup (omap f l).
Proof.
  intros Hf. induction 1 as [|x l Hx Hl IH]; csimpl; [constructor|].
  destruct (f x) as [z|] eqn:E; [|done]. constructor; [|done].
  rewrite list_elem_of_omap. intros (y&Hy&Ey). by rewrite (Hf x y z E Ey) in Hx.
Qed.

(** ** Strings *)

Lemma str_length_app (s t : string) : String.length (s +:+ t) = (String.length s + String.length t)%nat.
Proof. induction s as [|a s IH]; [done|]. simpl. by rewrite IH. Qed.

#[export] Instance str_app_assoc : Assoc (=) String.append.
Proof.
  intros s t u. induction s as [|a s IH]; [done|].
  change (String a (s +:+ (t +:+ u)) = String a ((s +:+ t) +:+ u)). by rewrite IH.
Qed.

Lemma str_app_inj_r (s1 s2 t : string) : s1 +:+ t = s2 +:+ t → s1 = s2.
Proof.
  revert s2. induction s1 as [|a s1 IH]; intros [|b s2] E; [done|..].
  1,2: apply (f_equal String.length) in E; rewrite !str_length_app in E; cbn in E; lia.
  injection E as -> E. f_equal. by apply IH.
Qed.

Lemma str_substring_all (s : string) : String.substring 0 (String.length s) s = s.
Proof. induction s as [|a s IH]; [done|]. simpl. by rewrite IH. Qed.

Lemma str_split_at (k : nat) (s : string) :
  (k ≤ String.length s)%nat →
  String.substring 0 k s +:+ String.substring k (String.length s - k) s = s.
Proof.
  revert k. induction s as [|a s IH]; intros [|k] Hk; [done|simpl in Hk; lia|..].
  - rewrite Nat.sub_0_r. apply (str_substring_all (String a s)).
  - change (String a (String.substring 0 k s +:+ String.substring k (String.length s - k) s)
            = String a s).
    f_equal. apply IH. simpl in Hk. lia.
Qed.

Lemma str_length_substring (a k : nat) (s : string) :
  (a + k ≤ String.length s)%nat → String.length (String.substring a k s) = k.
Proof.
  revert a k. induction s as [|c s IH]; intros [|a] [|k] Hk; simpl in *; try lia; try done.
  - f_equal. by apply (IH 0%nat), le_S_n.
  - apply IH. lia.
  - apply IH. lia.
Qed.

(** ** Hexadecimal *)

Definition nibble (z : Z) : Ascii.ascii :=
  Ascii.ascii_of_nat (Z.to_nat (if z <? 10 then 48 + z else 87 + z)).

Definition nibble_val (c : Ascii.ascii) : option Z :=
  let n := Z.of_nat (Ascii.nat_of_ascii c) in
  if (48 <=? n) && (n <=? 57) then Some (n - 48)
  else if (97 <=? n) && (n <=? 102) then Some (n - 87)
  else if (65 <=? n) && (n <=? 70) then Some (n - 55)
  else None.

(** [format!("{byte:02x}")] of every byte of a string. *)
Fixpoint hex_string (b : bytes) : string :=
  match b with
  | [] => EmptyString
  | x :: b =>
      String (nibble (byte_to_Z x / 16)) (String (nibble (byte_to_Z x mod 16)) (hex_string b))
  end.

Lemma nibble_val_nibble z : 0 ≤ z < 16 → nibble_val (nibble z) = Some z.
Proof.
  intros Hz. assert (z ∈ seqZ 0 16) as H by (apply elem_of_seqZ; lia).
  clear Hz. revert z H. apply (Forall_forall (λ z, nibble_val (nibble z) = Some z)).
  by repeat constructor.
Qed.

Lemma length_hex_string b : String.length (hex_string b) = (2 * length b)%nat.
Proof. induction b; simpl in *; lia. Qed.

(** ** Lexicographic order of byte strings *)

Fixpoint bytes_leb (a b : bytes) : bool :=
  match a, b with
  | [], _ => true
  | _ :: _, [] => false
  | x :: a, y :: b =>
      if byte_to_Z x <? byte_to_Z y then true
      else if byte_to_Z x =? byte_to_Z y then bytes_leb a b else false
  end.

Definition bytes_le (a b : bytes) : Prop := bytes_leb a b = true.
#[export] Instance bytes_le_dec : RelDecision bytes_le.
Proof. intros a b. unfold bytes_le. apply _. Defined.

Lemma bytes_le_cons x y a b :
  bytes_le (x :: a) (y :: b) ↔
  byte_to_Z x < byte_to_Z y ∨ (x = y ∧ bytes_le a b).
Proof.
  unfold bytes_le. cbn [bytes_leb].
  destruct (Z.ltb_spec (byte_to_Z x) (byte_to_Z y)); [naive_solver|].
  destruct (Z.eqb_spec (byte_to_Z x) (byte_to_Z y)) as [E|E].
  - apply (inj byte_to_Z) in E as ->. naive_solver lia.
  - split; [done|]. intros [|[-> _]]; [lia|done].
Qed.

#[export] Instance bytes_le_refl : Reflexive bytes_le.
Proof. intros a. induction a; [done|]. apply bytes_le_cons. auto. Qed.

#[export] Instance bytes_le_trans : Transitive bytes_le.
Proof.
  intros a. induction a as [|x a IH]; intros [|y b] [|z c] H1 H2; try done.
  rewrite bytes_le_cons in *. destruct H1 as [|[-> ?]], H2 as [|[-> ?]]; eauto with lia.
Qed.

#[export] Instance bytes_le_antisymm : AntiSymm (=) bytes_le.
Proof.
  intros a. induction a as [|x a IH]; intros [|y b] H1 H2; try done.
  rewrite bytes_le_cons in *. destruct H1 as [|[-> ?]], H2 as [|[? ?]]; try (subst; lia).
  f_equal. auto.
Qed.

#[export] Instance bytes_le_total : Total bytes_le.
Proof.
  intros a. induction a as [|x a IH]; intros [|y b]; [by left..|by right|].
  rewrite !bytes_le_cons. destruct (Z.lt_trichotomy (byte_to_Z x) (byte_to_Z y)) as [|[E|]]; auto.
  apply (inj byte_to_Z) in E as ->. destruct (IH b); auto.
Qed.

#[export] Instance str_bytes_inj : Inj (=) (=) str_bytes.
Proof.
  intros s1 s2 E. apply (f_equal String.string_of_list_byte) in E.
  unfold str_bytes in E. by rewrite !String.string_of_list_byte_of_string in E.
Qed.

Definition str_le (s t : string) : Prop := bytes_le (str_bytes s) (str_bytes t).
#[export] Instance str_le_dec : RelDecision str_le := λ s t, bytes_le_dec _ _.
#[export] Instance str_le_total : Total str_le.
Proof. intros s t. apply (total bytes_le). Qed.
#[export] Instance str_le_trans : Transitive str_le.
Proof. intros s t u. apply (transitivity (R := bytes_le)). Qed.
#[export] Instance str_le_antisymm : AntiSymm (=) str_le.
Proof. intros s t H1 H2. by apply (inj str_bytes), (anti_symm bytes_le). Qed.
