(* ===== verification/External.v ===== *)
(** Interfaces of the third-party code the peerless sources call: SHA-256, the
    [hex] crate, [serde_json], libp2p keys, ChaCha20-Poly1305, X25519 and HKDF.
    Each class carries the operations with the laws their documentation gives;
    module [Toy] instantiates every class with a small executable model, so
    that the theorems proved against the interfaces can be evaluated. *)

From S2P Require Import Prelude.
From Stdlib Require Import Strings.Byte.
From Stdlib Require Import Ascii.

(** SHA-256, a function to 32-byte digests. *)
Class Sha256 := {
  sha256 : bytes → bytes;
  sha256_length m : length (sha256 m) = 32%nat;
}.

(** Two distinct messages with one digest. *)
Definition collision `{Sha256} (x y : bytes) : Prop := x ≠ y ∧ sha256 x = sha256 y.

(** The [hex] crate: lower-case encoding, decoding of either case. *)
Class Hex := {
  hex_encode : bytes → string;
  hex_decode : string → option bytes;
  hex_decode_encode b : hex_decode (hex_encode b) = Some b;
  hex_encode_length b : String.length (hex_encode b) = (2 * length b)%nat;
}.

(** [serde_json::to_vec], [to_vec_pretty] and [from_slice] at one type. *)
Class Json (A : Type) := {
  to_vec : A → option bytes;
  to_vec_pretty : A → option bytes;
  from_slice : bytes → option A;
}.

(** What the code relies on for a type whose values JSON represents exactly. *)
Class JsonLaws (A : Type) `{Json A} := {
  json_roundtrip (a : A) b : to_vec a = Some b → from_slice b = Some a;
  json_pretty_roundtrip (a : A) b : to_vec_pretty a = Some b → from_slice b = Some a;
}.

(** libp2p identities: protobuf-encoded public keys, Ed25519 signatures, and
    the peer identifier of a key. *)
Class Keys := {
  Keypair : Type;
  PublicKey : Type;
  public : Keypair → PublicKey;
  encode_protobuf : PublicKey → bytes;
  try_decode_protobuf : bytes → option PublicKey;
  keypair_sign : Keypair → bytes → option bytes;
  public_verify : PublicKey → bytes → bytes → bool;
  to_peer_id : PublicKey → bytes;
  decode_encode_protobuf pk : try_decode_protobuf (encode_protobuf pk) = Some pk;
  sign_verify kp m s : keypair_sign kp m = Some s → public_verify (public kp) m s = true;
}.

(** Detached ChaCha20-Poly1305.  [aead_open] recomputes the tag, so it accepts
    exactly the outputs of [aead_seal]. *)
Class Aead := {
  aead_seal : bytes → bytes → bytes → bytes → option (bytes * bytes);
  aead_open : bytes → bytes → bytes → bytes → bytes → option bytes;
  aead_seal_total key nonce aad p :
    Z.of_nat (length p) < 2 ^ 36 → is_Some (aead_seal key nonce aad p);
  aead_seal_length key nonce aad p c t :
    aead_seal key nonce aad p = Some (c, t) → length c = length p ∧ length t = 16%nat;
  aead_open_seal key nonce aad p c t :
    aead_seal key nonce aad p = Some (c, t) → aead_open key nonce aad c t = Some p;
  aead_open_inv key nonce aad p c t :
    aead_open key nonce aad c t = Some p → aead_seal key nonce aad p = Some (c, t);
}.

(** X25519 key agreement. *)
Class X25519 := {
  x_secret : Type;
  x_public : x_secret → bytes;
  x_dh : x_secret → bytes → bytes;
  x_contributory : bytes → bool;
  x_public_length s : length (x_public s) = 32%nat;
  x_dh_length s p : length (x_dh s p) = 32%nat;
  x_dh_comm a b : x_dh a (x_public b) = x_dh b (x_public a);
}.

(** [Hkdf::<Sha256>::new(Some(salt), ikm).expand(info, &mut out)], which fails
    only beyond 255 blocks of output. *)
Class Hkdf := {
  hkdf_expand : bytes → bytes → bytes → nat → option bytes;
  hkdf_expand_total salt ikm info n :
    (n ≤ 255 * 32)%nat → is_Some (hkdf_expand salt ikm info n);
  hkdf_expand_length salt ikm info n out :
    hkdf_expand salt ikm info n = Some out → length out = n;
}.

(** ** Executable instances *)

Module Toy.

Definition pad (n : nat) (m : bytes) : bytes := take n (m ++ zeros n).

Lemma length_pad n m : length (pad n m) = n.
Proof. unfold pad. rewrite length_take, length_app, length_zeros. lia. Qed.

(** A digest that mixes the length and every byte of the message. *)
Definition digest32 (m : bytes) : bytes :=
  be_bytes 32 (foldl (λ acc b, Z.land (acc * 257 + byte_to_Z b + 1) 0xFFFFFFFFFF) 0 m).

Lemma length_digest32 m : length (digest32 m) = 32%nat.
Proof. apply length_be_bytes. Qed.

#[export] Instance toy_sha256 : Sha256 :=
  {| sha256 := digest32; sha256_length := length_digest32 |}.

Definition toy_hex_encode (b : bytes) : string := hex_string b.

Fixpoint toy_hex_decode (s : string) : option bytes :=
  match s with
  | EmptyString => Some []
  | String a (String b s) =>
      h ← nibble_val a; l ← nibble_val b; r ← toy_hex_decode s;
      Some (byte_of_Z (16 * h + l) :: r)
  | _ => None
  end.

Lemma toy_hex_decode_encode b : toy_hex_decode (toy_hex_encode b) = Some b.
Proof.
  unfold toy_hex_encode. induction b as [|x b IH]; simpl; [done|]. pose proof (byte_to_Z_range x).
  rewrite (nibble_val_nibble (_ `div` _)), (nibble_val_nibble (_ `mod` _)); simpl.
  - rewrite IH. simpl. do 2 f_equal. rewrite <- (Z.div_mod _ 16) by lia. apply byte_of_to_Z.
  - apply Z.mod_pos_bound; lia.
  - split; [apply Z.div_pos; lia|apply Z.div_lt_upper_bound; lia].
Qed.

Lemma toy_hex_encode_length b : String.length (toy_hex_encode b) = (2 * length b)%nat.
Proof. apply length_hex_string. Qed.

#[export] Instance toy_hex : Hex :=
  {| hex_encode := toy_hex_encode; hex_decode := toy_hex_decode;
     hex_decode_encode := toy_hex_decode_encode; hex_encode_length := toy_hex_encode_length |}.

(** Keys are byte strings behind a one-byte tag; a signature is the public key
    followed by the message. *)
Definition toy_decode_key (b : bytes) : option bytes :=
  match b with x01 :: pk => Some pk | _ => None end.

Program Definition toy_keys : Keys := {|
  Keypair := bytes; PublicKey := bytes;
  public kp := kp;
  encode_protobuf pk := x01 :: pk;
  try_decode_protobuf := toy_decode_key;
  keypair_sign kp m := Some (kp ++ m);
  public_verify pk m s := bool_decide (s = pk ++ m);
  to_peer_id pk := pk;
|}.
Next Obligation. done. Qed.
Next Obligation. simpl. intros ??? [= <-]. by apply bool_decide_eq_true. Qed.
#[export] Existing Instance toy_keys.

Definition toy_tag (key nonce aad p : bytes) : bytes :=
  take 16 (digest32 (key ++ nonce ++ aad ++ p)).

Lemma length_toy_tag key nonce aad p : length (toy_tag key nonce aad p) = 16%nat.
Proof. unfold toy_tag. by rewrite length_take, length_digest32. Qed.

(** A cipher that leaves the plaintext as it is and authenticates it. *)
Program Definition toy_aead : Aead := {|
  aead_seal key nonce aad p := Some (p, toy_tag key nonce aad p);
  aead_open key nonce aad c t :=
    if bool_decide (t = toy_tag key nonce aad c) then Some c else None;
|}.
Next Obligation. intros. by eexists. Qed.
Next Obligation. simpl. intros ???? ?? [= <- <-]. by rewrite length_toy_tag. Qed.
Next Obligation. simpl. intros ???? ?? [= <- <-]. by rewrite bool_decide_eq_true_2. Qed.
Next Obligation. intros ???? ??. simpl. case_bool_decide; naive_solver. Qed.
#[export] Existing Instance toy_aead.

(** Agreement in the additive group modulo [2 ^ 256]. *)
Program Definition toy_x25519 : X25519 := {|
  x_secret := Z;
  x_public s := be_bytes 32 s;
  x_dh s p := be_bytes 32 (s + be_val p);
  x_contributory shared := any_nonzero shared;
|}.
Next Obligation. intros. apply length_be_bytes. Qed.
Next Obligation. intros. apply length_be_bytes. Qed.
Next Obligation.
  intros a b. cbn beta. rewrite !be_val_be_bytes_mod.
  rewrite <- be_bytes_mod, <- (be_bytes_mod _ (b + _)). f_equal.
  rewrite !Zplus_mod_idemp_r. f_equal. lia.
Qed.
#[export] Existing Instance toy_x25519.

Definition toy_secret (z : Z) : x_secret := z.

Program Definition toy_hkdf : Hkdf := {|
  hkdf_expand salt ikm info n :=
    if bool_decide (n ≤ 255 * 32)%nat then Some (pad n (digest32 (salt ++ ikm ++ info)))
    else None;
|}.
Next Obligation. intros. simpl. by rewrite bool_decide_eq_true_2. Qed.
Next Obligation.
  intros ????? H. simpl in H. case_bool_decide; [|done].
  injection H as <-. apply length_pad.
Qed.
#[export] Existing Instance toy_hkdf.

(** A JSON stand-in for any countable type: the bits of its code, eight to a
    byte, ended by a set bit. *)
Fixpoint pos_bits (p : positive) : list bool :=
  match p with xH => [true] | xO p => false :: pos_bits p | xI p => true :: pos_bits p end.

Fixpoint bits_pos (l : list bool) : option positive :=
  match l with
  | [] => None
  | b :: l => match bits_pos l with
              | Some p => Some (if b then xI p else xO p)
              | None => if b then Some xH else None
              end
  end.

Definition pack_bits (l : list bool) : byte :=
  let b i := default false (l !! i) in
  Byte.of_bits (b 0, (b 1, (b 2, (b 3, (b 4, (b 5, (b 6, b 7)))))))%nat.
Definition unpack_byte (x : byte) : list bool :=
  let '(b0, (b1, (b2, (b3, (b4, (b5, (b6, b7))))))) := Byte.to_bits x in [b0; b1; b2; b3; b4; b5; b6; b7].

Definition bits_of_pos (p : positive) : bytes := pack_bits <$> chunks 8 (pos_bits p).
Definition pos_of_bits (b : bytes) : option positive := bits_pos (concat (unpack_byte <$> b)).

Lemma unpack_pack l : (length l ≤ 8)%nat → unpack_byte (pack_bits l) = l ++ replicate (8 - length l) false.
Proof.
  intros Hl. unfold unpack_byte, pack_bits. rewrite Byte.to_bits_of_bits.
  do 9 (destruct l as [|? l]; [done|]). cbn in Hl. lia.
Qed.

Lemma unpack_chunks l : ∃ k, concat (unpack_byte <$> (pack_bits <$> chunks 8 l)) = l ++ replicate k false.
Proof.
  revert l. apply (chunks_ind 8); [lia|by exists 0%nat|]. intros l Hl [k IH].
  rewrite chunks_cons by (done || lia). cbn [fmap list_fmap concat].
  rewrite IH, unpack_pack by (rewrite length_take; lia).
  destruct (Nat.le_gt_cases (length l) 8).
  - exists (8 - length l + k)%nat. rewrite take_ge, drop_ge by lia. by rewrite replicate_add, <- app_assoc.
  - exists k. rewrite length_take, Nat.min_l, Nat.sub_diag by lia. by rewrite app_nil_r, app_assoc, take_drop.
Qed.

Lemma bits_pos_end k : bits_pos (replicate k false) = None.
Proof. induction k as [|k IH]; [done|]. cbn. by rewrite IH. Qed.

Lemma pos_of_bits_of_pos p : pos_of_bits (bits_of_pos p) = Some p.
Proof.
  unfold pos_of_bits, bits_of_pos. destruct (unpack_chunks (pos_bits p)) as [k ->].
  induction p as [p IH|p IH|]; cbn; rewrite ?IH, ?bits_pos_end; done.
Qed.

Definition countable_json {A} `{Countable A} : Json A := {|
  to_vec a := Some (bits_of_pos (stdpp.countable.encode a));
  to_vec_pretty a := Some (bits_of_pos (stdpp.countable.encode a));
  from_slice b := pos_of_bits b ≫= stdpp.countable.decode;
|}.

Lemma countable_json_laws {A} `{Countable A} : @JsonLaws A countable_json.
Proof.
  assert (∀ a : A, from_slice (Json := countable_json) (bits_of_pos (stdpp.countable.encode a)) = Some a)
    as Hrt by (intros a; simpl; rewrite pos_of_bits_of_pos; apply decode_encode).
  split; intros a b [= <-]; apply Hrt.
Qed.

End Toy.
