(* ===== verification/OnionWire.v ===== *)
(** Onion wire formats: protocol constants, errors, cell types, and the
    fixed-offset codecs of setup requests, setup responses and cell headers
    (crates/peerless-onion-protocol/src/lib.rs).  The theorems show that every
    codec is a bijection between well-formed values and accepted buffers. *)

From S2P Require Import Prelude.
From Stdlib Require Import Strings.Byte.

(** ** Constants *)

Definition PROTOCOL_VERSION : Z := 1.
Definition SETUP_REQUEST_SIZE : nat := 128.
Definition SETUP_RESPONSE_SIZE : nat := 160.
Definition CELL_SIZE : nat := 1024.
Definition MAX_HOPS : nat := 3.
Definition SETUP_MAGIC : bytes := [x50; x4c; x53; x31].
Definition RESPONSE_MAGIC : bytes := [x50; x4c; x52; x31].
Definition CELL_MAGIC : bytes := [x50; x4c; x43; x31].
Definition SETUP_FIELDS_SIZE : nat := 104.
Definition RESPONSE_FIELDS_SIZE : nat := 152.
Definition CELL_HEADER_SIZE : nat := 50.
Definition TAG_SIZE : nat := 16.
Definition LAYER_HEADER_SIZE : nat := 3.
Definition MAX_LAYER_DATA : nat := CELL_SIZE - CELL_HEADER_SIZE - TAG_SIZE - LAYER_HEADER_SIZE.

(** ** Errors and enumerations *)

Inductive OnionError :=
| UnsupportedVersion | InvalidEncoding | Expired | TranscriptMismatch
| KeyAgreementFailed | AuthenticationFailed | WrongScope | Replay
| OutOfWindow | HopLimit | PayloadTooLarge | FragmentCapacity.

#[export] Instance OnionError_eq_dec : EqDecision OnionError.
Proof. solve_decision. Defined.

Inductive Direction := Forward | Reverse.

#[export] Instance Direction_eq_dec : EqDecision Direction.
Proof. solve_decision. Defined.

Definition Direction_as_u8 (d : Direction) : byte :=
  match d with Forward => x01 | Reverse => x02 end.

Definition Direction_try_from (value : byte) : result Direction OnionError :=
  match value with
  | x01 => Ok Forward
  | x02 => Ok Reverse
  | _ => Err InvalidEncoding
  end.

Inductive CellType := Setup | Data | Padding | Response | Rotation | Teardown.

#[export] Instance CellType_eq_dec : EqDecision CellType.
Proof. solve_decision. Defined.

Definition CellType_as_u8 (c : CellType) : byte :=
  match c with
  | Setup => x01 | Data => x02 | Padding => x03
  | Response => x04 | Rotation => x05 | Teardown => x06
  end.

Definition CellType_try_from (value : byte) : result CellType OnionError :=
  match value with
  | x01 => Ok Setup
  | x02 => Ok Data
  | x03 => Ok Padding
  | x04 => Ok Response
  | x05 => Ok Rotation
  | x06 => Ok Teardown
  | _ => Err InvalidEncoding
  end.

Lemma Direction_try_from_ok b d : Direction_try_from b = Ok d ↔ b = Direction_as_u8 d.
Proof. split; [destruct b; simpl; intros [= <-]; done|intros ->; by destruct d]. Qed.

Lemma CellType_try_from_ok b c : CellType_try_from b = Ok c ↔ b = CellType_as_u8 c.
Proof. split; [destruct b; simpl; intros [= <-]; done|intros ->; by destruct c]. Qed.

(** ** Payload capacity *)

Definition max_payload_for_hops (hops : nat) : result nat OnionError :=
  if (hops =? 0)%nat || (MAX_HOPS <? hops)%nat then Err HopLimit
  else
    let layer_overhead := (CELL_HEADER_SIZE + TAG_SIZE + LAYER_HEADER_SIZE)%nat in
    let taken := ((hops - 1) * layer_overhead)%nat in
    if (taken <=? MAX_LAYER_DATA)%nat then Ok (MAX_LAYER_DATA - taken)%nat
    else Err PayloadTooLarge.

(** ** Setup context *)

Record SetupContext := mkSetupContext {
  circuit_id : bytes;
  hop : Z;
  epoch : Z;
  expires_at : Z;
}.

#[export] Instance SetupContext_eq_dec : EqDecision SetupContext.
Proof. solve_decision. Defined.

(** The ranges of the Rust field types. *)
Definition SetupContext_wf (c : SetupContext) : Prop :=
  length (circuit_id c) = 16%nat ∧ in_u8 (hop c) ∧ in_u64 (epoch c) ∧ in_u64 (expires_at c).

Definition SetupContext_validate (c : SetupContext) (now : Z) : result unit OnionError :=
  if (Z.of_nat MAX_HOPS <=? hop c) || (expires_at c <=? now) then
    Err (if expires_at c <=? now then Expired else HopLimit)
  else Ok tt.

(** ** Setup messages *)

Record ParsedSetupRequest := mkParsedSetupRequest {
  req_context : SetupContext;
  req_initiator_public : bytes;
  req_relay_public : bytes;
}.

Record ParsedSetupResponse := mkParsedSetupResponse {
  resp_context : SetupContext;
  resp_initiator_public : bytes;
  resp_responder_public : bytes;
  resp_relay_public : bytes;
  resp_confirmation : bytes;
}.

Definition encode_setup_request (context : SetupContext)
    (initiator_public relay_public : bytes) : bytes :=
  let b := zeros SETUP_REQUEST_SIZE in
  let b := copy_at 0 SETUP_MAGIC b in
  let b := copy_at 4 (be_bytes 2 PROTOCOL_VERSION) b in
  let b := copy_at 6 [byte_of_Z (hop context)] b in
  let b := copy_at 8 (circuit_id context) b in
  let b := copy_at 24 (be_bytes 8 (epoch context)) b in
  let b := copy_at 32 (be_bytes 8 (expires_at context)) b in
  let b := copy_at 40 initiator_public b in
  copy_at 72 relay_public b.

Definition parse_setup_request (b : bytes) : result ParsedSetupRequest OnionError :=
  fail_if (bool_decide (slice 0 4 b ≠ SETUP_MAGIC)
           || bool_decide (byte_at 7 b ≠ x00)
           || any_nonzero (drop SETUP_FIELDS_SIZE b)) InvalidEncoding ;?
  fail_if (negb (be_val (slice 4 6 b) =? PROTOCOL_VERSION)) UnsupportedVersion ;?
  Ok {| req_context :=
          {| circuit_id := slice 8 24 b;
             hop := byte_to_Z (byte_at 6 b);
             epoch := be_val (slice 24 32 b);
             expires_at := be_val (slice 32 40 b) |};
        req_initiator_public := slice 40 72 b;
        req_relay_public := slice 72 104 b |}.

(** [SetupRequest::from_bytes]: the length check, then the parser. *)
Definition SetupRequest_from_bytes (b : bytes) : result bytes OnionError :=
  fail_if (negb (length b =? SETUP_REQUEST_SIZE)%nat) InvalidEncoding ;?
  (let? _ := parse_setup_request b in Ok b).

Definition encode_setup_response (context : SetupContext)
    (initiator_public responder_public relay_public confirmation : bytes) : bytes :=
  let b := zeros SETUP_RESPONSE_SIZE in
  let b := copy_at 0 RESPONSE_MAGIC b in
  let b := copy_at 4 (be_bytes 2 PROTOCOL_VERSION) b in
  let b := copy_at 6 [byte_of_Z (hop context)] b in
  let b := copy_at 8 (circuit_id context) b in
  let b := copy_at 24 (be_bytes 8 (epoch context)) b in
  let b := copy_at 32 (be_bytes 8 (expires_at context)) b in
  let b := copy_at 40 initiator_public b in
  let b := copy_at 72 responder_public b in
  let b := copy_at 104 relay_public b in
  copy_at 136 confirmation b.

Definition parse_setup_response (b : bytes) : result ParsedSetupResponse OnionError :=
  fail_if (bool_decide (slice 0 4 b ≠ RESPONSE_MAGIC)
           || bool_decide (byte_at 7 b ≠ x00)
           || any_nonzero (drop RESPONSE_FIELDS_SIZE b)) InvalidEncoding ;?
  fail_if (negb (be_val (slice 4 6 b) =? PROTOCOL_VERSION)) UnsupportedVersion ;?
  Ok {| resp_context :=
          {| circuit_id := slice 8 24 b;
             hop := byte_to_Z (byte_at 6 b);
             epoch := be_val (slice 24 32 b);
             expires_at := be_val (slice 32 40 b) |};
        resp_initiator_public := slice 40 72 b;
        resp_responder_public := slice 72 104 b;
        resp_relay_public := slice 104 136 b;
        resp_confirmation := slice 136 152 b |}.

Definition SetupResponse_from_bytes (b : bytes) : result bytes OnionError :=
  fail_if (negb (length b =? SETUP_RESPONSE_SIZE)%nat) InvalidEncoding ;?
  (let? _ := parse_setup_response b in Ok b).

(** ** Cell header *)

Record CellHeader := mkCellHeader {
  hdr_direction : Direction;
  hdr_circuit_id : bytes;
  hdr_epoch : Z;
  hdr_expires_at : Z;
  hdr_sequence : Z;
  hdr_ciphertext_len : nat;
}.

(** Key material of one hop; the zeroizing wrappers are transparent here. *)
Record HopKeys := mkHopKeys {
  key_circuit_id : bytes;
  key_hop : Z;
  key_epoch : Z;
  key_expires_at : Z;
  forward_key : bytes;
  reverse_key : bytes;
  forward_nonce_prefix : bytes;
  reverse_nonce_prefix : bytes;
}.

#[export] Instance HopKeys_eq_dec : EqDecision HopKeys.
Proof. solve_decision. Defined.

Definition HopKeys_wf (k : HopKeys) : Prop :=
  length (key_circuit_id k) = 16%nat ∧ in_u8 (key_hop k) ∧ in_u64 (key_epoch k) ∧
  in_u64 (key_expires_at k) ∧ length (forward_key k) = 32%nat ∧
  length (reverse_key k) = 32%nat ∧ length (forward_nonce_prefix k) = 4%nat ∧
  length (reverse_nonce_prefix k) = 4%nat.

Definition encode_cell_header (keys : HopKeys) (direction : Direction)
    (sequence : Z) (ciphertext_len : nat) : bytes :=
  let h := zeros CELL_HEADER_SIZE in
  let h := copy_at 0 CELL_MAGIC h in
  let h := copy_at 4 (be_bytes 2 PROTOCOL_VERSION) h in
  let h := copy_at 6 [x01] h in
  let h := copy_at 7 [Direction_as_u8 direction] h in
  let h := copy_at 8 (key_circuit_id keys) h in
  let h := copy_at 24 (be_bytes 8 (key_epoch keys)) h in
  let h := copy_at 32 (be_bytes 8 (key_expires_at keys)) h in
  let h := copy_at 40 (be_bytes 8 sequence) h in
  copy_at 48 (be_bytes 2 (Z.of_nat ciphertext_len)) h.

Definition parse_cell_header (b : bytes) : result CellHeader OnionError :=
  fail_if (bool_decide (slice 0 4 b ≠ CELL_MAGIC) || bool_decide (byte_at 6 b ≠ x01))
    InvalidEncoding ;?
  fail_if (negb (be_val (slice 4 6 b) =? PROTOCOL_VERSION)) UnsupportedVersion ;?
  let ciphertext_len := Z.to_nat (be_val (slice 48 50 b)) in
  let compact_len := (CELL_HEADER_SIZE + ciphertext_len)%nat in
  fail_if ((ciphertext_len <? TAG_SIZE + LAYER_HEADER_SIZE)%nat
           || (CELL_SIZE <? compact_len)%nat
           || any_nonzero (drop compact_len b)) InvalidEncoding ;?
  (let? direction := Direction_try_from (byte_at 7 b) in
  Ok {| hdr_direction := direction;
        hdr_circuit_id := slice 8 24 b;
        hdr_epoch := be_val (slice 24 32 b);
        hdr_expires_at := be_val (slice 32 40 b);
        hdr_sequence := be_val (slice 40 48 b);
        hdr_ciphertext_len := ciphertext_len |}).

(** ** Codec lemmas *)

Lemma in_u64_pow z : in_u64 z → 0 ≤ z < 256 ^ Z.of_nat 8.
Proof. unfold in_u64, U64_MAX. lia. Qed.

Lemma version_bytes : be_val (be_bytes 2 PROTOCOL_VERSION) = PROTOCOL_VERSION.
Proof. reflexivity. Qed.

(** Exposes the numeric sizes to [lia]. *)
Ltac onion_sizes :=
  unfold SETUP_REQUEST_SIZE, SETUP_RESPONSE_SIZE, SETUP_FIELDS_SIZE, RESPONSE_FIELDS_SIZE,
    MAX_LAYER_DATA, CELL_SIZE, CELL_HEADER_SIZE, TAG_SIZE, LAYER_HEADER_SIZE, MAX_HOPS in *.

Lemma length_encode_setup_request c i r :
  SetupContext_wf c → length i = 32%nat → length r = 32%nat →
  length (encode_setup_request c i r) = SETUP_REQUEST_SIZE.
Proof.
  intros (?&?&?&?) ??. unfold encode_setup_request. cbv zeta. onion_sizes. buf_len.
Qed.

(** The parser reads back what the encoder wrote. *)
Lemma parse_encode_setup_request c i r :
  SetupContext_wf c → length i = 32%nat → length r = 32%nat →
  parse_setup_request (encode_setup_request c i r) = Ok (mkParsedSetupRequest c i r).
Proof.
  intros (Hc&Hh&He&Hx) Hi Hr. unfold parse_setup_request, encode_setup_request.
  cbv zeta. onion_sizes. destruct c as [cid h e x]; cbn [hop circuit_id epoch expires_at] in *.
  rewrite (byte_at_of_slice 7 _ x00), (byte_at_of_slice 6 _ (byte_of_Z h));
    [|buf_slice 128%nat; reflexivity..].
  rewrite !(drop_copy_at_ne' 128), drop_zeros, any_nonzero_zeros by buf_len.
  buf_slice 128%nat. rewrite version_bytes.
  rewrite !be_val_be_bytes, byte_to_of_Z_small
    by first [by apply in_u64_pow|unfold in_u8, U8_MAX in *; lia].
  reflexivity.
Qed.

Lemma length_encode_setup_response c i s r t :
  SetupContext_wf c → length i = 32%nat → length s = 32%nat → length r = 32%nat →
  length t = 16%nat → length (encode_setup_response c i s r t) = SETUP_RESPONSE_SIZE.
Proof.
  intros (?&?&?&?) ????. unfold encode_setup_response. cbv zeta. onion_sizes. buf_len.
Qed.

Lemma parse_encode_setup_response c i s r t :
  SetupContext_wf c → length i = 32%nat → length s = 32%nat → length r = 32%nat →
  length t = 16%nat →
  parse_setup_response (encode_setup_response c i s r t) =
    Ok (mkParsedSetupResponse c i s r t).
Proof.
  intros (Hc&Hh&He&Hx) Hi Hs Hr Ht. unfold parse_setup_response, encode_setup_response.
  cbv zeta. onion_sizes. destruct c as [cid h e x]; cbn [hop circuit_id epoch expires_at] in *.
  rewrite (byte_at_of_slice 7 _ x00), (byte_at_of_slice 6 _ (byte_of_Z h));
    [|buf_slice 160%nat; reflexivity..].
  rewrite !(drop_copy_at_ne' 160), drop_zeros, any_nonzero_zeros by buf_len.
  buf_slice 160%nat. rewrite version_bytes.
  rewrite !be_val_be_bytes, byte_to_of_Z_small
    by first [by apply in_u64_pow|unfold in_u8, U8_MAX in *; lia].
  reflexivity.
Qed.

(** A buffer is rebuilt by writing its own slices back: each position is either
    in the slice copied last or decided by the earlier copies. *)
Lemma copy_own_slice {A} n off b (l d : list A) i :
  (n ≤ length l)%nat → length d = n → (off ≤ b ≤ n)%nat →
  (copy_at off (slice off b l) d !! i = l !! i) ↔ (off ≤ i < b)%nat ∨ d !! i = l !! i.
Proof.
  intros Hl Hd Hb. assert (length (slice off b l) = (b - off)%nat) as Hs
    by (apply length_slice; lia).
  rewrite (lookup_copy_at' n) by (rewrite ?Hs; lia). rewrite Hs.
  case_decide as Hi.
  - rewrite lookup_slice, decide_True by lia.
    replace (off + (i - off))%nat with i by lia. naive_solver lia.
  - naive_solver lia.
Qed.

Lemma zero_padding_lookup n k (b : bytes) i :
  length b = n → any_nonzero (drop k b) = false → (k ≤ i)%nat → zeros n !! i = b !! i.
Proof.
  intros Hb Hz Hi. apply any_nonzero_false in Hz.
  destruct (decide (i < n)%nat).
  - unfold zeros. rewrite lookup_replicate_2 by done.
    assert (drop k b !! (i - k)%nat = Some x00) as E.
    { rewrite Hz, length_drop. apply lookup_replicate_2. lia. }
    rewrite lookup_drop in E. rewrite <- E. f_equal. lia.
  - rewrite !lookup_ge_None_2; rewrite ?length_zeros; [done|lia..].
Qed.

Lemma zero_byte_lookup n k (b : bytes) :
  length b = n → (k < n)%nat → byte_at k b = x00 → zeros n !! k = b !! k.
Proof.
  intros Hb Hk H0. unfold byte_at in H0. unfold zeros. rewrite lookup_replicate_2 by done.
  destruct (b !! k) eqn:E; simpl in *; [congruence|].
  apply lookup_ge_None in E. lia.
Qed.

(** Peels the copies of a re-encoded buffer [b] of size [n] at position [i]. *)
Ltac peel_copies n :=
  repeat (apply (copy_own_slice n);
          [lia|repeat apply length_copy_at'; rewrite ?length_slice, ?length_zeros by lia; lia
          |lia|];
          match goal with |- ?P ∨ _ => destruct (decide P); [by left|right] end).

Lemma version_slice b :
  length (slice 4 6 b) = 2%nat → be_val (slice 4 6 b) = PROTOCOL_VERSION →
  be_bytes 2 PROTOCOL_VERSION = slice 4 6 b.
Proof. intros Hl <-. by apply be_bytes_be_val'. Qed.

(** The encoder rebuilds exactly the buffers the parser accepts. *)
Lemma encode_parse_setup_request b p :
  length b = SETUP_REQUEST_SIZE → parse_setup_request b = Ok p →
  encode_setup_request (req_context p) (req_initiator_public p) (req_relay_public p) = b.
Proof.
  intros Hb Hp. unfold parse_setup_request in Hp. onion_sizes. inv_ok. breflect. subst p.
  unfold encode_setup_request. cbv zeta. onion_sizes.
  cbn [req_context req_initiator_public req_relay_public hop circuit_id epoch expires_at].
  rewrite (version_slice b), <- H by (done || (rewrite length_slice; lia)).
  rewrite !be_bytes_be_val', byte_of_to_Z, <- byte_at_slice by (rewrite ?length_slice; lia).
  apply list_eq. intros i. peel_copies 128%nat.
  destruct (decide (i = 7%nat)) as [->|]; [by apply zero_byte_lookup; [|lia|]|].
  apply (zero_padding_lookup _ 104); [done..|lia].
Qed.

Lemma encode_parse_setup_response b p :
  length b = SETUP_RESPONSE_SIZE → parse_setup_response b = Ok p →
  encode_setup_response (resp_context p) (resp_initiator_public p)
    (resp_responder_public p) (resp_relay_public p) (resp_confirmation p) = b.
Proof.
  intros Hb Hp. unfold parse_setup_response in Hp. onion_sizes. inv_ok. breflect. subst p.
  unfold encode_setup_response. cbv zeta. onion_sizes.
  cbn [resp_context resp_initiator_public resp_responder_public resp_relay_public
       resp_confirmation hop circuit_id epoch expires_at].
  rewrite (version_slice b), <- H by (done || (rewrite length_slice; lia)).
  rewrite !be_bytes_be_val', byte_of_to_Z, <- byte_at_slice by (rewrite ?length_slice; lia).
  apply list_eq. intros i. peel_copies 160%nat.
  destruct (decide (i = 7%nat)) as [->|]; [by apply zero_byte_lookup; [|lia|]|].
  apply (zero_padding_lookup _ 152); [done..|lia].
Qed.

Lemma be_val_slice_u64 (b : bytes) i :
  (i + 8 ≤ length b)%nat → in_u64 (be_val (slice i (i + 8) b)).
Proof.
  intros Hb. pose proof (be_val_range (slice i (i + 8) b)) as Hr.
  rewrite length_slice in Hr by lia. replace (i + 8 - i)%nat with 8%nat in Hr by lia.
  unfold in_u64, U64_MAX. lia.
Qed.

Lemma byte_to_Z_u8 b : in_u8 (byte_to_Z b).
Proof. pose proof (byte_to_Z_range b). unfold in_u8, U8_MAX. lia. Qed.

Definition setup_request_wf (p : ParsedSetupRequest) : Prop :=
  SetupContext_wf (req_context p) ∧ length (req_initiator_public p) = 32%nat ∧
  length (req_relay_public p) = 32%nat.

Definition setup_response_wf (p : ParsedSetupResponse) : Prop :=
  SetupContext_wf (resp_context p) ∧ length (resp_initiator_public p) = 32%nat ∧
  length (resp_responder_public p) = 32%nat ∧ length (resp_relay_public p) = 32%nat ∧
  length (resp_confirmation p) = 16%nat.

Lemma parse_setup_request_wf b p :
  length b = SETUP_REQUEST_SIZE → parse_setup_request b = Ok p → setup_request_wf p.
Proof.
  intros Hb Hp. unfold parse_setup_request in Hp. onion_sizes. inv_ok. subst p.
  repeat split; cbn; rewrite ?length_slice by lia; try apply byte_to_Z_u8; try lia;
    apply (be_val_slice_u64 b); lia.
Qed.

Lemma parse_setup_response_wf b p :
  length b = SETUP_RESPONSE_SIZE → parse_setup_response b = Ok p → setup_response_wf p.
Proof.
  intros Hb Hp. unfold parse_setup_response in Hp. onion_sizes. inv_ok. subst p.
  repeat split; cbn; rewrite ?length_slice by lia; try apply byte_to_Z_u8; try lia;
    apply (be_val_slice_u64 b); lia.
Qed.

(** *** Cell headers *)

Lemma length_encode_cell_header keys d s n :
  HopKeys_wf keys → length (encode_cell_header keys d s n) = CELL_HEADER_SIZE.
Proof.
  intros (?&_). unfold encode_cell_header. cbv zeta. onion_sizes. buf_len.
Qed.

(** The parsed header of a padded cell. *)
Lemma parse_encode_cell_header keys d s ct :
  HopKeys_wf keys → in_u64 s →
  (TAG_SIZE + LAYER_HEADER_SIZE ≤ length ct ≤ CELL_SIZE - CELL_HEADER_SIZE)%nat →
  parse_cell_header (encode_cell_header keys d s (length ct) ++ ct
                     ++ zeros (CELL_SIZE - CELL_HEADER_SIZE - length ct)) =
    Ok (mkCellHeader d (key_circuit_id keys) (key_epoch keys) (key_expires_at keys) s (length ct)).
Proof.
  intros Hk Hs Hn. pose proof (length_encode_cell_header keys d s (length ct) Hk) as Hlen.
  destruct Hk as (Hc&_&He&Hx&_). unfold parse_cell_header.
  assert (∀ i, (i < 50)%nat → byte_at i (encode_cell_header keys d s (length ct) ++ ct
            ++ zeros (CELL_SIZE - CELL_HEADER_SIZE - length ct))
            = byte_at i (encode_cell_header keys d s (length ct))) as Hat.
  { intros i Hi. unfold byte_at. by rewrite lookup_app_l by (onion_sizes; lia). }
  rewrite !Hat by lia. rewrite !slice_app_l by (onion_sizes; lia).
  assert (be_val (slice 48 50 (encode_cell_header keys d s (length ct))) = Z.of_nat (length ct)) as Hct.
  { unfold encode_cell_header. cbv zeta. onion_sizes. buf_slice 50%nat.
    apply be_val_be_bytes. simpl Z.of_nat. lia. }
  rewrite Hct, Nat2Z.id.
  assert (drop (CELL_HEADER_SIZE + length ct) (encode_cell_header keys d s (length ct) ++ ct
           ++ zeros (CELL_SIZE - CELL_HEADER_SIZE - length ct))
          = zeros (CELL_SIZE - CELL_HEADER_SIZE - length ct)) as ->.
  { rewrite <- drop_drop, <- Hlen, drop_app_length. apply drop_app_length. }
  rewrite any_nonzero_zeros.
  rewrite (proj2 (Nat.ltb_ge _ _)), (proj2 (Nat.ltb_ge _ _)) by (onion_sizes; lia).
  unfold encode_cell_header. cbv zeta. onion_sizes.
  rewrite (byte_at_of_slice 7 _ (Direction_as_u8 d)), (byte_at_of_slice 6 _ x01);
    [|buf_slice 50%nat; reflexivity..].
  buf_slice 50%nat. rewrite version_bytes, (proj2 (Direction_try_from_ok _ d)) by done.
  rewrite !be_val_be_bytes by by apply in_u64_pow.
  reflexivity.
Qed.

(** Writing back the ten header slices of a buffer yields its first 50 bytes. *)
Lemma rebuild_prefix (b : bytes) :
  length b = 1024%nat →
  slice 0 50 b =
    copy_at 48 (slice 48 50 b) (copy_at 40 (slice 40 48 b) (copy_at 32 (slice 32 40 b)
      (copy_at 24 (slice 24 32 b) (copy_at 8 (slice 8 24 b) (copy_at 7 (slice 7 8 b)
        (copy_at 6 (slice 6 7 b) (copy_at 4 (slice 4 6 b)
          (copy_at 0 (slice 0 4 b) (zeros 50))))))))).
Proof.
  intros Hb. apply list_eq. intros i. rewrite lookup_slice. case_decide; symmetry.
  - simpl Nat.add. peel_copies 50%nat. lia.
  - apply lookup_ge_None. erewrite (length_copy_at' 50); [lia| |].
    + repeat apply length_copy_at'; rewrite ?length_slice, ?length_zeros by lia; lia.
    + rewrite length_slice by lia. lia.
Qed.

(** An accepted cell starts with the header its fields encode to and ends in
    zero padding. *)
Lemma parse_cell_header_inv b h :
  length b = CELL_SIZE → parse_cell_header b = Ok h →
  (TAG_SIZE + LAYER_HEADER_SIZE ≤ hdr_ciphertext_len h ≤ CELL_SIZE - CELL_HEADER_SIZE)%nat ∧
  drop (CELL_HEADER_SIZE + hdr_ciphertext_len h) b
    = zeros (CELL_SIZE - CELL_HEADER_SIZE - hdr_ciphertext_len h) ∧
  in_u64 (hdr_sequence h) ∧
  ∀ keys, key_circuit_id keys = hdr_circuit_id h → key_epoch keys = hdr_epoch h →
    key_expires_at keys = hdr_expires_at h →
    take CELL_HEADER_SIZE b =
      encode_cell_header keys (hdr_direction h) (hdr_sequence h) (hdr_ciphertext_len h).
Proof.
  intros Hb Hp. unfold parse_cell_header in Hp. inv_ok. breflect. subst h.
  cbn [hdr_direction hdr_circuit_id hdr_epoch hdr_expires_at hdr_sequence hdr_ciphertext_len].
  apply any_nonzero_false in H0. rewrite length_drop, Hb in H0.
  pose proof (be_val_range (slice 48 50 b)) as Hct.
  assert (length (slice 48 50 b) = 2%nat) as Hsl by (rewrite length_slice; onion_sizes; lia).
  split; [onion_sizes; lia|]. split; [rewrite H0; f_equal; onion_sizes; lia|].
  split; [apply (be_val_slice_u64 b 40); onion_sizes; lia|].
  intros keys Hc He Hx. unfold encode_cell_header. cbv zeta. rewrite Hc, He, Hx.
  apply Direction_try_from_ok in E2. rewrite <- E2, <- H3, <- H2.
  rewrite Z2Nat.id by lia. onion_sizes.
  rewrite <- !(byte_at_slice _ b), (version_slice b) by (done || (rewrite ?length_slice; lia)).
  rewrite !be_bytes_be_val' by (rewrite ?length_slice; lia).
  rewrite <- slice_0. by apply rebuild_prefix.
Qed.

(** ** Properties *)

(** C35: the setup codecs are exact: a buffer of the fixed size is accepted if
    and only if it is the encoding of a well-formed request (or response), and
    then the parser returns that value.  Accepted buffers are therefore
    canonical. *)
Theorem setup_codec_exact b c p r :
  length b = SETUP_REQUEST_SIZE → length c = SETUP_RESPONSE_SIZE →
  (parse_setup_request b = Ok p ↔
     setup_request_wf p ∧
     b = encode_setup_request (req_context p) (req_initiator_public p) (req_relay_public p)) ∧
  (parse_setup_response c = Ok r ↔
     setup_response_wf r ∧
     c = encode_setup_response (resp_context r) (resp_initiator_public r)
           (resp_responder_public r) (resp_relay_public r) (resp_confirmation r)).
Proof.
  intros Hb Hc. split; split.
  - intros Hp. split; [by eapply parse_setup_request_wf|].
    symmetry. by apply encode_parse_setup_request.
  - intros [(?&?&?) ->]. rewrite parse_encode_setup_request by done. by destruct p.
  - intros Hp. split; [by eapply parse_setup_response_wf|].
    symmetry. by apply encode_parse_setup_response.
  - intros [(?&?&?&?&?) ->]. rewrite parse_encode_setup_response by done. by destruct r.
Qed.

Definition sample_context : SetupContext := mkSetupContext (replicate 16 x11) 2 7 9999.

Lemma setup_codec_exact_witness :
  let p := mkParsedSetupRequest sample_context (replicate 32 x22) (replicate 32 x55) in
  let b := encode_setup_request sample_context (replicate 32 x22) (replicate 32 x55) in
  let r := mkParsedSetupResponse sample_context (replicate 32 x22) (replicate 32 x33)
             (replicate 32 x55) (replicate 16 x77) in
  let c := encode_setup_response sample_context (replicate 32 x22) (replicate 32 x33)
             (replicate 32 x55) (replicate 16 x77) in
  parse_setup_request b = Ok p ∧ parse_setup_response c = Ok r.
Proof.
  intros p b r c. destruct (setup_codec_exact b c p r) as [Hreq Hresp]; [by vm_compute..|].
  split; [apply Hreq|apply Hresp]; by vm_compute.
Defined.
