(* ===== verification/OnionReplay.v ===== *)
(** The anti-replay window of an onion hop ([ReplayWindow] in
    crates/peerless-onion-protocol/src/lib.rs): a 128-bit bitmap behind the
    highest accepted sequence number.  The window refines an abstract set of
    accepted sequence numbers; from that refinement follow at-most-once
    acceptance and the exact shape of the acceptance region. *)

From S2P Require Import Prelude OnionWire.

Definition MAX_FUTURE_SEQUENCE_JUMP : Z := 64.
Definition REPLAY_WINDOW_BITS : Z := 128.

Record ReplayWindow := mkReplayWindow {
  highest : option Z;
  bitmap : Z;
}.

Definition ReplayWindow_default : ReplayWindow := mkReplayWindow None 0.

(** [x << n] on [u128] for [n < 128]. *)
Definition u128_shl (x n : Z) : Z := Z.shiftl x n mod 2 ^ 128.

Definition ReplayWindow_check (w : ReplayWindow) (sequence : Z) : result unit OnionError :=
  match highest w with
  | None => if sequence =? 0 then Ok tt else Err OutOfWindow
  | Some h =>
      if h <? sequence then
        if sequence - h <=? MAX_FUTURE_SEQUENCE_JUMP then Ok tt else Err OutOfWindow
      else
        let distance := h - sequence in
        if REPLAY_WINDOW_BITS <=? distance then Err OutOfWindow
        else if negb (Z.land (bitmap w) (u128_shl 1 distance) =? 0) then Err Replay
        else Ok tt
  end.

Definition ReplayWindow_commit (w : ReplayWindow) (sequence : Z) : ReplayWindow :=
  match highest w with
  | None => mkReplayWindow (Some sequence) 1
  | Some h =>
      if h <? sequence then
        let shift := sequence - h in
        mkReplayWindow (Some sequence)
          (if REPLAY_WINDOW_BITS <=? shift then 1 else Z.lor (u128_shl (bitmap w) shift) 1)
      else mkReplayWindow (Some h) (Z.lor (bitmap w) (u128_shl 1 (h - sequence)))
  end.

(** One delivery as [open_layer] performs it: the check guards the commit. *)
Definition ReplayWindow_accept (w : ReplayWindow) (sequence : Z) : result ReplayWindow OnionError :=
  ReplayWindow_check w sequence ;? Ok (ReplayWindow_commit w sequence).

(** A run over attempted sequence numbers; returns the final window and the
    accepted numbers in order. *)
Fixpoint ReplayWindow_run (w : ReplayWindow) (attempts : list Z) : ReplayWindow * list Z :=
  match attempts with
  | [] => (w, [])
  | s :: attempts =>
      match ReplayWindow_accept w s with
      | Ok w' => let '(wf, acc) := ReplayWindow_run w' attempts in (wf, s :: acc)
      | Err _ => ReplayWindow_run w attempts
      end
  end.

(** ** Abstract specification *)

(** [accepts S s]: the specified verdict on [s] after accepting exactly [S]. *)
Definition accepts (S : gset Z) (s : Z) : Prop :=
  (S = ∅ ∧ s = 0) ∨
  (∃ h, h ∈ S ∧ (∀ x, x ∈ S → x ≤ h) ∧
     ((h < s ∧ s ≤ h + MAX_FUTURE_SEQUENCE_JUMP) ∨
      (s ≤ h ∧ h - s < REPLAY_WINDOW_BITS ∧ s ∉ S))).

(** The representation invariant: the bitmap is the characteristic function of
    the accepted set below the highest number. *)
Definition window_repr (w : ReplayWindow) (S : gset Z) : Prop :=
  match highest w with
  | None => S = ∅ ∧ bitmap w = 0
  | Some h =>
      h ∈ S ∧ (∀ x, x ∈ S → 0 ≤ x ≤ h) ∧ 0 ≤ bitmap w < 2 ^ 128 ∧
      ∀ i, 0 ≤ i < REPLAY_WINDOW_BITS → (Z.testbit (bitmap w) i = true ↔ h - i ∈ S)
  end.

(** ** Bit-level lemmas *)

Lemma testbit_u128_shl x n i :
  0 ≤ n → 0 ≤ i < 128 → Z.testbit (u128_shl x n) i = Z.testbit x (i - n).
Proof.
  intros Hn Hi. unfold u128_shl. rewrite Z.mod_pow2_bits_low by lia.
  apply Z.shiftl_spec. lia.
Qed.

Lemma u128_shl_range x n : 0 ≤ u128_shl x n < 2 ^ 128.
Proof. apply Z.mod_pos_bound. lia. Qed.

Lemma lor_u128_range x y : 0 ≤ x < 2 ^ 128 → 0 ≤ y < 2 ^ 128 → 0 ≤ Z.lor x y < 2 ^ 128.
Proof.
  intros Hx Hy. split; [apply Z.lor_nonneg; lia|].
  destruct (decide (Z.lor x y = 0)) as [->|Hn]; [lia|].
  assert (0 < Z.lor x y) by (pose proof (proj2 (Z.lor_nonneg x y)); lia).
  apply Z.log2_lt_pow2; [done|]. rewrite Z.log2_lor by lia.
  apply Z.max_lub_lt; [destruct (decide (x = 0)) as [->|]|destruct (decide (y = 0)) as [->|]];
    simpl; try lia; apply Z.log2_lt_pow2; lia.
Qed.

Lemma testbit_1 i : Z.testbit 1 i = true ↔ i = 0.
Proof.
  destruct (decide (i = 0)) as [->|]; [done|].
  destruct (decide (i < 0)); [rewrite Z.testbit_neg_r by lia; naive_solver|].
  rewrite (Z.bits_above_log2 1 i) by (simpl; lia). naive_solver.
Qed.

Lemma land_bit_zero x d :
  0 ≤ d < 128 → Z.land x (u128_shl 1 d) = 0 ↔ Z.testbit x d = false.
Proof.
  intros Hd. unfold u128_shl. rewrite Z.mod_small, Z.shiftl_1_l.
  2:{ rewrite Z.shiftl_1_l. split; [lia|]. apply Z.pow_lt_mono_r; lia. }
  split; intros H.
  - assert (Z.testbit (Z.land x (2 ^ d)) d = false) as Hb by (rewrite H; apply Z.bits_0).
    rewrite Z.land_spec, Z.pow2_bits_true, andb_true_r in Hb by lia. done.
  - apply Z.bits_inj'. intros i Hi. rewrite Z.land_spec, Z.bits_0, Z.pow2_bits_eqb by lia.
    destruct (Z.eqb_spec d i) as [->|]; [by rewrite H|by rewrite andb_false_r].
Qed.

(** ** Refinement lemmas *)

Lemma window_repr_default : window_repr ReplayWindow_default ∅.
Proof. done. Qed.

(** The concrete check decides the abstract verdict. *)
Lemma check_accepts w S s :
  window_repr w S → 0 ≤ s → (ReplayWindow_check w s = Ok tt ↔ accepts S s).
Proof.
  unfold window_repr, ReplayWindow_check, accepts. destruct (highest w) as [h|].
  - intros (Hh&Hmax&Hr&Hbits) Hs.
    assert (∀ h', h' ∈ S → (∀ x, x ∈ S → x ≤ h') → h' = h) as Huniq.
    { intros h' Hin Hm. pose proof (Hm _ Hh). pose proof (Hmax _ Hin). lia. }
    destruct (Z.ltb_spec h s).
    + destruct (Z.leb_spec (s - h) MAX_FUTURE_SEQUENCE_JUMP); split; intros HH; try done.
      * right. exists h. naive_solver lia.
      * destruct HH as [[-> _]|(h'&Hin&Hm&HH)]; [set_solver|].
        rewrite (Huniq h' Hin Hm) in HH. unfold MAX_FUTURE_SEQUENCE_JUMP in *. lia.
    + destruct (Z.leb_spec REPLAY_WINDOW_BITS (h - s)).
      * split; [done|]. intros [[-> _]|(h'&Hin&Hm&HH)]; [set_solver|].
        rewrite (Huniq h' Hin Hm) in HH. lia.
      * unfold REPLAY_WINDOW_BITS in *. specialize (Hbits (h - s)).
        replace (h - (h - s)) with s in Hbits by lia.
        pose proof (land_bit_zero (bitmap w) (h - s)) as Hl.
        destruct (Z.eqb_spec (Z.land (bitmap w) (u128_shl 1 (h - s))) 0) as [E|E]; simpl.
        -- split; [|done]. intros _. right. exists h. split_and!; [done|naive_solver|].
           right. split_and!; [lia|lia|]. intros Hin. apply Hbits in Hin; [|lia].
           apply Hl in E; [|lia]. congruence.
        -- split; [done|]. intros [[-> _]|(h'&Hin&Hm&HH)]; [set_solver|].
           rewrite (Huniq h' Hin Hm) in HH. destruct HH as [?|(_&_&Hni)]; [lia|].
           destruct (Z.testbit (bitmap w) (h - s)) eqn:T; [naive_solver lia|].
           exfalso. apply E, Hl; [lia|done].
  - intros [-> Hb] Hs. destruct (Z.eqb_spec s 0); split; naive_solver set_solver.
Qed.

Lemma commit_first s : window_repr (mkReplayWindow (Some s) 1) {[s]} ↔ 0 ≤ s.
Proof.
  unfold window_repr; simpl. split; [set_solver|]. intros Hs.
  split_and!; [set_solver|set_solver by lia|lia|lia|].
  intros i Hi. rewrite testbit_1. set_solver by lia.
Qed.

(** Advancing past the highest number shifts the bitmap. *)
Lemma commit_advance w S h s :
  highest w = Some h → window_repr w S → h < s →
  window_repr (ReplayWindow_commit w s) ({[s]} ∪ S).
Proof.
  intros Hw HR Hs. unfold window_repr in HR. rewrite Hw in HR.
  destruct HR as (Hh&Hmax&Hr&Hbits). unfold ReplayWindow_commit, window_repr. rewrite Hw.
  rewrite (proj2 (Z.ltb_lt _ _)) by done. simpl.
  pose proof (Hmax _ Hh). unfold REPLAY_WINDOW_BITS in *.
  split_and!; [set_solver| | | |].
  - intros x [->%elem_of_singleton|Hx]%elem_of_union; [lia|]. apply Hmax in Hx. lia.
  - destruct (_ <=? _); [lia|]. apply lor_u128_range; [apply u128_shl_range|lia].
  - destruct (_ <=? _); [lia|]. apply lor_u128_range; [apply u128_shl_range|lia].
  - intros i Hi. rewrite elem_of_union, elem_of_singleton.
    destruct (Z.leb_spec 128 (s - h)).
    + rewrite testbit_1. split; [lia|]. intros [?|Hx]; [lia|]. apply Hmax in Hx. lia.
    + rewrite Z.lor_spec, orb_true_iff, testbit_1, testbit_u128_shl by lia.
      destruct (decide (i < s - h)).
      * rewrite Z.testbit_neg_r by lia. split; [intros [?|?]; [done|lia]|].
        intros [?|Hx]; [lia|]. apply Hmax in Hx. lia.
      * rewrite Hbits by lia. replace (h - (i - (s - h))) with (s - i) by lia.
        naive_solver lia.
Qed.

(** Filling a hole below the highest number sets its bit. *)
Lemma commit_fill w S h s :
  highest w = Some h → window_repr w S → 0 ≤ s ≤ h → h - s < REPLAY_WINDOW_BITS →
  window_repr (ReplayWindow_commit w s) ({[s]} ∪ S).
Proof.
  intros Hw HR Hs Hd. unfold window_repr in HR. rewrite Hw in HR.
  destruct HR as (Hh&Hmax&Hr&Hbits). unfold ReplayWindow_commit, window_repr. rewrite Hw.
  rewrite (proj2 (Z.ltb_ge _ _)) by lia. simpl. unfold REPLAY_WINDOW_BITS in *.
  split_and!; [set_solver| | | |].
  - intros x [->%elem_of_singleton|Hx]%elem_of_union; [lia|]. by apply Hmax.
  - apply lor_u128_range; [lia|apply u128_shl_range].
  - apply lor_u128_range; [lia|apply u128_shl_range].
  - intros i Hi. rewrite elem_of_union, elem_of_singleton.
    rewrite Z.lor_spec, orb_true_iff, testbit_u128_shl, testbit_1, Hbits by lia.
    naive_solver lia.
Qed.

Lemma commit_repr w S s :
  window_repr w S → 0 ≤ s → ReplayWindow_check w s = Ok tt →
  window_repr (ReplayWindow_commit w s) ({[s]} ∪ S).
Proof.
  intros HR Hs Hc. destruct (highest w) as [h|] eqn:Hw.
  - unfold ReplayWindow_check in Hc. rewrite Hw in Hc.
    destruct (Z.ltb_spec h s); [by eapply commit_advance|].
    destruct (Z.leb_spec REPLAY_WINDOW_BITS (h - s)); [done|].
    by eapply commit_fill.
  - unfold window_repr in HR. rewrite Hw in HR. destruct HR as [-> _].
    unfold ReplayWindow_commit. rewrite Hw, (right_id_L ∅ (∪)). by apply commit_first.
Qed.

Lemma accept_repr w S s w' :
  window_repr w S → 0 ≤ s → ReplayWindow_accept w s = Ok w' →
  accepts S s ∧ s ∉ S ∧ window_repr w' ({[s]} ∪ S).
Proof.
  intros HR Hs Ha. unfold ReplayWindow_accept in Ha. inv_ok. subst w'.
  assert (accepts S s) as Hacc by by apply (check_accepts w).
  split; [done|]. split; [|by apply commit_repr].
  destruct Hacc as [[-> _]|(h&_&Hm&[[? _]|(_&_&?)])]; [set_solver| |done].
  intros Hin. apply Hm in Hin. lia.
Qed.

Lemma run_repr attempts : ∀ w S wf acc,
  window_repr w S → Forall (λ s, 0 ≤ s) attempts →
  ReplayWindow_run w attempts = (wf, acc) →
  NoDup acc ∧ (∀ s, s ∈ acc → s ∉ S) ∧ window_repr wf (list_to_set acc ∪ S).
Proof.
  induction attempts as [|s attempts IH]; intros w S wf acc HR Hpos Hrun; simpl in Hrun.
  { injection Hrun as <- <-. split_and!; [constructor|set_solver|].
    simpl. by rewrite (left_id_L ∅ (∪)). }
  apply Forall_cons in Hpos as [Hs Hpos].
  destruct (ReplayWindow_accept w s) as [w'|e] eqn:Ha; [|by eapply IH].
  destruct (ReplayWindow_run w' attempts) as [wf' acc'] eqn:Hr. injection Hrun as <- <-.
  destruct (accept_repr _ _ _ _ HR Hs Ha) as (_&Hni&HR').
  destruct (IH _ _ _ _ HR' Hpos Hr) as (Hnd&Hfresh&HRf). split_and!.
  - constructor; [|done]. intros Hin. apply (Hfresh s); set_solver.
  - intros x. rewrite elem_of_cons. intros [->|Hx]; [done|]. specialize (Hfresh x Hx). set_solver.
  - simpl. by replace ({[s]} ∪ list_to_set acc' ∪ S) with (list_to_set acc' ∪ ({[s]} ∪ S)) by set_solver.
Qed.

(** ** Properties *)

(** At-most-once acceptance.  Over any schedule of attempted sequence
    numbers (duplicated, reordered, replayed at will) starting from a fresh
    window, no sequence number is accepted twice. *)
Theorem replay_window_at_most_once attempts wf acc :
  Forall (λ s, 0 ≤ s) attempts →
  ReplayWindow_run ReplayWindow_default attempts = (wf, acc) → NoDup acc.
Proof. intros Hp Hr. by destruct (run_repr _ _ _ _ _ window_repr_default Hp Hr). Qed.

(** C21: The window refines the abstract set of accepted numbers: after any run,
    the bitmap verdict on the next number equals the specified verdict
    (sequence zero first, at most 64 ahead of the highest, at most 127 behind
    it and not accepted before). *)
Theorem replay_window_refines_set attempts wf acc s :
  Forall (λ s, 0 ≤ s) attempts → 0 ≤ s →
  ReplayWindow_run ReplayWindow_default attempts = (wf, acc) →
  ReplayWindow_check wf s = Ok tt ↔ accepts (list_to_set acc) s.
Proof.
  intros Hp Hs Hr. destruct (run_repr _ _ _ _ _ window_repr_default Hp Hr) as (_&_&HR).
  rewrite (right_id_L ∅ (∪)) in HR. by apply check_accepts.
Qed.

Definition sample_attempts : list Z := [1; 0; 0; 2; 1; 1; 67; 66; 0; 130; 194; 2; 67].

Lemma replay_window_at_most_once_witness :
  NoDup (snd (ReplayWindow_run ReplayWindow_default sample_attempts)).
Proof.
  apply (replay_window_at_most_once sample_attempts
           (fst (ReplayWindow_run ReplayWindow_default sample_attempts))).
  - repeat constructor; lia.
  - by destruct (ReplayWindow_run _ _).
Defined.

Lemma replay_window_refines_set_witness :
  snd (ReplayWindow_run ReplayWindow_default sample_attempts) = [0; 2; 1; 66; 130; 194; 67] ∧
  accepts (list_to_set [0; 2; 1; 66; 130; 194; 67]) 68.
Proof.
  split; [by vm_compute|].
  apply (replay_window_refines_set sample_attempts
           (fst (ReplayWindow_run ReplayWindow_default sample_attempts)));
    [repeat constructor; lia|lia|by vm_compute|by vm_compute].
Defined.
