(* ===== verification/OnionCircuit.v ===== *)
(** Onion circuits: the per-hop key agreement, layered sealing of cells by the
    circuit owner, and the stateful per-hop opening and wrapping of layers
    (crates/peerless-onion-protocol/src/lib.rs).  Cryptographic primitives are
    the interfaces of [External]. *)

From S2P Require Import Prelude External OnionWire OnionReplay.
From Stdlib Require Import Strings.Byte.


(** A cell on the wire, always [CELL_SIZE] bytes. *)
Abbreviation WireCell := bytes.

Inductive OpenedLayer :=
| OpenedForward (cell : WireCell)
| Terminal (cell_type : CellType) (payload : bytes).

Definition WireCell_from_bytes (v : bytes) : result WireCell OnionError :=
  fail_if (negb (length v =? CELL_SIZE)%nat) InvalidEncoding ;?
  (let? _ := parse_cell_header v in Ok v).

Definition WireCell_from_compact (compact : bytes) : result WireCell OnionError :=
  fail_if ((CELL_SIZE <? length compact)%nat
           || (length compact <? CELL_HEADER_SIZE + TAG_SIZE + LAYER_HEADER_SIZE)%nat)
    InvalidEncoding ;?
  let v := copy_at 0 compact (zeros CELL_SIZE) in
  (let? _ := parse_cell_header v in Ok v).

Definition WireCell_compact (cell : WireCell) : result bytes OnionError :=
  let? header := parse_cell_header cell in
  Ok (take (CELL_HEADER_SIZE + hdr_ciphertext_len header) cell).

Definition HopKeys_key_and_nonce (keys : HopKeys) (direction : Direction) (sequence : Z) :
    bytes * bytes :=
  let '(key, prefix) :=
    match direction with
    | Forward => (forward_key keys, forward_nonce_prefix keys)
    | Reverse => (reverse_key keys, reverse_nonce_prefix keys)
    end in
  let nonce := zeros 12 in
  let nonce := copy_at 0 prefix nonce in
  let nonce := copy_at 4 (be_bytes 8 sequence) nonce in
  (key, nonce).

Section circuit.
Context `{!Sha256, !Hkdf, !Aead, !X25519}.

(** ** Key agreement *)

Definition setup_transcript (context : SetupContext)
    (initiator_public responder_public relay_public : bytes) : bytes :=
  str_bytes "peerless/onion/setup/v1" ++ be_bytes 2 PROTOCOL_VERSION ++ circuit_id context
  ++ [byte_of_Z (hop context)] ++ be_bytes 8 (epoch context)
  ++ be_bytes 8 (expires_at context) ++ initiator_public ++ responder_public ++ relay_public.

Definition derive_keys (shared transcript : bytes) (context : SetupContext) :
    result (HopKeys * bytes) OnionError :=
  let salt := sha256 transcript in
  let? output := ok_or (hkdf_expand salt shared (str_bytes "peerless/onion/hop-keys/v1") 104)
                   KeyAgreementFailed in
  Ok ({| key_circuit_id := circuit_id context; key_hop := hop context;
         key_epoch := epoch context; key_expires_at := expires_at context;
         forward_key := slice 0 32 output; reverse_key := slice 32 64 output;
         forward_nonce_prefix := slice 64 68 output;
         reverse_nonce_prefix := slice 68 72 output |},
      slice 72 104 output).

Definition confirmation_tag (key transcript : bytes) : result bytes OnionError :=
  let? sealed := ok_or (aead_seal key (zeros 12) transcript []) AuthenticationFailed in
  Ok sealed.2.

Record PendingSetup := mkPendingSetup {
  pend_context : SetupContext;
  pend_secret : x_secret;
  pend_initiator_public : bytes;
  pend_relay_public : bytes;
}.

(** [secret] is the freshly sampled [ReusableSecret]. *)
Definition InitiatorSetup_start (context : SetupContext) (relay_public : bytes) (now : Z)
    (secret : x_secret) : result (bytes * PendingSetup) OnionError :=
  SetupContext_validate context now ;?
  let initiator_public := x_public secret in
  Ok (encode_setup_request context initiator_public relay_public,
      mkPendingSetup context secret initiator_public relay_public).

Definition InitiatorSetup_finish (pending : PendingSetup) (response : bytes) (now : Z) :
    result HopKeys OnionError :=
  let? parsed := parse_setup_response response in
  SetupContext_validate (pend_context pending) now ;?
  fail_if (bool_decide (resp_context parsed ≠ pend_context pending)
           || bool_decide (resp_initiator_public parsed ≠ pend_initiator_public pending)
           || bool_decide (resp_relay_public parsed ≠ pend_relay_public pending))
    TranscriptMismatch ;?
  let static_shared := x_dh (pend_secret pending) (resp_relay_public parsed) in
  let ephemeral_shared := x_dh (pend_secret pending) (resp_responder_public parsed) in
  fail_if (negb (x_contributory static_shared) || negb (x_contributory ephemeral_shared))
    KeyAgreementFailed ;?
  let transcript := setup_transcript (pend_context pending) (pend_initiator_public pending)
                      (resp_responder_public parsed) (resp_relay_public parsed) in
  let shared := copy_at 32 ephemeral_shared (copy_at 0 static_shared (zeros 64)) in
  let? derived := derive_keys shared transcript (pend_context pending) in
  let? expected := confirmation_tag derived.2 transcript in
  fail_if (bool_decide (expected ≠ resp_confirmation parsed)) TranscriptMismatch ;?
  Ok derived.1.

(** [secret] is the freshly sampled [EphemeralSecret]. *)
Definition RelaySetup_accept (request : bytes) (relay_secret : x_secret) (now : Z)
    (secret : x_secret) : result (bytes * HopKeys) OnionError :=
  let? parsed := parse_setup_request request in
  SetupContext_validate (req_context parsed) now ;?
  fail_if (bool_decide (req_relay_public parsed ≠ x_public relay_secret)) WrongScope ;?
  let responder_public := x_public secret in
  let static_shared := x_dh relay_secret (req_initiator_public parsed) in
  let ephemeral_shared := x_dh secret (req_initiator_public parsed) in
  fail_if (negb (x_contributory static_shared) || negb (x_contributory ephemeral_shared))
    KeyAgreementFailed ;?
  let transcript := setup_transcript (req_context parsed) (req_initiator_public parsed)
                      responder_public (req_relay_public parsed) in
  let shared := copy_at 32 ephemeral_shared (copy_at 0 static_shared (zeros 64)) in
  let? derived := derive_keys shared transcript (req_context parsed) in
  let? confirmation := confirmation_tag derived.2 transcript in
  Ok (encode_setup_response (req_context parsed) (req_initiator_public parsed)
        responder_public (req_relay_public parsed) confirmation,
      derived.1).

(** ** Layers *)

Definition seal_compact (keys : HopKeys) (direction : Direction) (sequence : Z)
    (layer_type : byte) (data : bytes) : result bytes OnionError :=
  fail_if (MAX_LAYER_DATA <? length data)%nat PayloadTooLarge ;?
  let plaintext := [layer_type] ++ be_bytes 2 (Z.of_nat (length data)) ++ data in
  let ciphertext_len := (length plaintext + TAG_SIZE)%nat in
  let header := encode_cell_header keys direction sequence ciphertext_len in
  let compact_len := (CELL_HEADER_SIZE + ciphertext_len)%nat in
  let padding := zeros (CELL_SIZE - compact_len) in
  let aad := header ++ padding in
  let '(key, nonce) := HopKeys_key_and_nonce keys direction sequence in
  let? sealed := ok_or (aead_seal key nonce aad plaintext) AuthenticationFailed in
  Ok (header ++ sealed.1 ++ sealed.2).

(** The new window is returned with every outcome; errors leave it unchanged. *)
Definition open_layer (keys : HopKeys) (replay : ReplayWindow) (cell : WireCell)
    (expected_direction : Direction) (now : Z) : result OpenedLayer OnionError * ReplayWindow :=
  let opened :=
    let? header := parse_cell_header cell in
    fail_if (bool_decide (hdr_direction header ≠ expected_direction)
             || bool_decide (hdr_circuit_id header ≠ key_circuit_id keys)
             || negb (hdr_epoch header =? key_epoch keys)
             || negb (hdr_expires_at header =? key_expires_at keys)) WrongScope ;?
    fail_if (hdr_expires_at header <=? now) Expired ;?
    ReplayWindow_check replay (hdr_sequence header) ;?
    let ciphertext_end := (CELL_HEADER_SIZE + hdr_ciphertext_len header)%nat in
    let tag_start := (ciphertext_end - TAG_SIZE)%nat in
    let ciphertext := slice CELL_HEADER_SIZE tag_start cell in
    let tag := slice tag_start ciphertext_end cell in
    let aad := take CELL_HEADER_SIZE cell ++ drop ciphertext_end cell in
    let '(key, nonce) :=
      HopKeys_key_and_nonce keys (hdr_direction header) (hdr_sequence header) in
    let? plaintext := ok_or (aead_open key nonce aad ciphertext tag) AuthenticationFailed in
    fail_if (length plaintext <? LAYER_HEADER_SIZE)%nat InvalidEncoding ;?
    let declared := Z.to_nat (be_val (slice 1 3 plaintext)) in
    fail_if (negb (declared =? length plaintext - LAYER_HEADER_SIZE)%nat) InvalidEncoding ;?
    let data := drop LAYER_HEADER_SIZE plaintext in
    (let? layer :=
      if bool_decide (byte_at 0 plaintext = x00) then
        let? inner := WireCell_from_compact data in Ok (OpenedForward inner)
      else
        let? cell_type := CellType_try_from (byte_at 0 plaintext) in
        Ok (Terminal cell_type data) in
    Ok (layer, hdr_sequence header)) in
  match opened with
  | Ok (layer, sequence) => (Ok layer, ReplayWindow_commit replay sequence)
  | Err e => (Err e, replay)
  end.

(** ** Circuit sender *)

Record CircuitSender := mkCircuitSender {
  traversal_keys : list HopKeys;
  snd_direction : Direction;
  next_sequence : Z;
}.

Definition CircuitSender_new (keys : list HopKeys) (direction : Direction) :
    result CircuitSender OnionError :=
  match keys with
  | [] => Err HopLimit
  | first :: _ =>
      fail_if (MAX_HOPS <? length keys)%nat HopLimit ;?
      fail_if (existsb (λ key,
          bool_decide (key_circuit_id key ≠ key_circuit_id first)
          || negb (key_epoch key =? key_epoch first)
          || negb (key_expires_at key =? key_expires_at first)) keys) WrongScope ;?
      Ok (mkCircuitSender keys direction 0)
  end.

(** The loop wrapping the terminal layer with the remaining keys, outermost
    last. *)
Fixpoint seal_outer (keys_rev : list HopKeys) (direction : Direction) (sequence : Z)
    (compact : bytes) : result bytes OnionError :=
  match keys_rev with
  | [] => Ok compact
  | key :: keys_rev =>
      let? compact := seal_compact key direction sequence x00 compact in
      seal_outer keys_rev direction sequence compact
  end.

(** A sender always has a last key ([CircuitSender_new] rejects an empty list),
    so the [None] branch stands for the unreachable [expect]. *)
Definition CircuitSender_seal (s : CircuitSender) (cell_type : CellType) (payload : bytes) :
    result WireCell OnionError * CircuitSender :=
  let sequence := next_sequence s in
  let sealed :=
    let? terminal_key := ok_or (last (traversal_keys s)) HopLimit in
    let? compact := seal_compact terminal_key (snd_direction s) sequence
                      (CellType_as_u8 cell_type) payload in
    let? compact := seal_outer
                      (reverse (take (length (traversal_keys s) - 1) (traversal_keys s)))
                      (snd_direction s) sequence compact in
    let? cell := WireCell_from_compact compact in
    let? next := ok_or (checked_add (next_sequence s) 1) OutOfWindow in
    Ok (cell, next) in
  match sealed with
  | Ok (cell, next) => (Ok cell, mkCircuitSender (traversal_keys s) (snd_direction s) next)
  | Err e => (Err e, s)
  end.

(** ** Hop endpoints *)

Record HopReceiver := mkHopReceiver {
  rcv_keys : HopKeys;
  rcv_expected_direction : Direction;
  rcv_replay : ReplayWindow;
}.

Definition HopReceiver_new (keys : HopKeys) (expected : Direction) : HopReceiver :=
  mkHopReceiver keys expected ReplayWindow_default.

Definition HopReceiver_open (r : HopReceiver) (cell : WireCell) (now : Z) :
    result OpenedLayer OnionError * HopReceiver :=
  let '(opened, replay) :=
    open_layer (rcv_keys r) (rcv_replay r) cell (rcv_expected_direction r) now in
  (opened, mkHopReceiver (rcv_keys r) (rcv_expected_direction r) replay).

Record HopDuplex := mkHopDuplex {
  dup_keys : HopKeys;
  forward_replay : ReplayWindow;
  reverse_replay : ReplayWindow;
  next_forward_sequence : Z;
  next_reverse_sequence : Z;
}.

Definition HopDuplex_new (keys : HopKeys) : HopDuplex :=
  mkHopDuplex keys ReplayWindow_default ReplayWindow_default 0 0.

Definition HopDuplex_open (d : HopDuplex) (cell : WireCell) (direction : Direction) (now : Z) :
    result OpenedLayer OnionError * HopDuplex :=
  match direction with
  | Forward =>
      let '(opened, replay) := open_layer (dup_keys d) (forward_replay d) cell direction now in
      (opened, mkHopDuplex (dup_keys d) replay (reverse_replay d)
                 (next_forward_sequence d) (next_reverse_sequence d))
  | Reverse =>
      let '(opened, replay) := open_layer (dup_keys d) (reverse_replay d) cell direction now in
      (opened, mkHopDuplex (dup_keys d) (forward_replay d) replay
                 (next_forward_sequence d) (next_reverse_sequence d))
  end.

Definition HopDuplex_seal_layer (d : HopDuplex) (direction : Direction) (layer_type : byte)
    (payload : bytes) : result WireCell OnionError * HopDuplex :=
  let sequence :=
    match direction with
    | Forward => next_forward_sequence d
    | Reverse => next_reverse_sequence d
    end in
  let sealed :=
    let? compact := seal_compact (dup_keys d) direction sequence layer_type payload in
    let? cell := WireCell_from_compact compact in
    let? next := ok_or (checked_add sequence 1) OutOfWindow in
    Ok (cell, next) in
  match sealed with
  | Ok (cell, next) =>
      (Ok cell,
       match direction with
       | Forward => mkHopDuplex (dup_keys d) (forward_replay d) (reverse_replay d)
                      next (next_reverse_sequence d)
       | Reverse => mkHopDuplex (dup_keys d) (forward_replay d) (reverse_replay d)
                      (next_forward_sequence d) next
       end)
  | Err e => (Err e, d)
  end.

Definition HopDuplex_seal_terminal (d : HopDuplex) (direction : Direction)
    (cell_type : CellType) (payload : bytes) : result WireCell OnionError * HopDuplex :=
  HopDuplex_seal_layer d direction (CellType_as_u8 cell_type) payload.

Definition HopDuplex_wrap (d : HopDuplex) (direction : Direction) (inner : WireCell) :
    result WireCell OnionError * HopDuplex :=
  match WireCell_compact inner with
  | Ok compact => HopDuplex_seal_layer d direction x00 compact
  | Err e => (Err e, d)
  end.

(** ** Layer lemmas *)

(** The plaintext of a layer, and the layer it decodes to. *)
Definition layer_plaintext (layer_type : byte) (data : bytes) : bytes :=
  [layer_type] ++ be_bytes 2 (Z.of_nat (length data)) ++ data.

Definition decode_layer (layer_type : byte) (data : bytes) : result OpenedLayer OnionError :=
  if bool_decide (layer_type = x00) then
    let? inner := WireCell_from_compact data in Ok (OpenedForward inner)
  else
    let? cell_type := CellType_try_from layer_type in Ok (Terminal cell_type data).

Lemma length_layer_plaintext t data :
  length (layer_plaintext t data) = (LAYER_HEADER_SIZE + length data)%nat.
Proof. unfold layer_plaintext. rewrite !length_app, length_be_bytes. done. Qed.

Lemma layer_plaintext_fields t data :
  (length data ≤ MAX_LAYER_DATA)%nat →
  byte_at 0 (layer_plaintext t data) = t ∧
  Z.to_nat (be_val (slice 1 3 (layer_plaintext t data))) = length data ∧
  drop LAYER_HEADER_SIZE (layer_plaintext t data) = data.
Proof.
  intros Hd. unfold layer_plaintext. split_and!; [done| |].
  - rewrite slice_app_exact by done.
    rewrite be_val_be_bytes; [lia|]. onion_sizes. simpl Z.of_nat at 3. lia.
  - rewrite app_assoc. apply drop_app_length'. by rewrite length_app, length_be_bytes.
Qed.

(** A layer's plaintext is determined by its first byte and its data. *)
Lemma layer_plaintext_inv p :
  (LAYER_HEADER_SIZE ≤ length p ≤ LAYER_HEADER_SIZE + MAX_LAYER_DATA)%nat →
  Z.to_nat (be_val (slice 1 3 p)) = (length p - LAYER_HEADER_SIZE)%nat →
  p = layer_plaintext (byte_at 0 p) (drop LAYER_HEADER_SIZE p).
Proof.
  intros Hl Hlen. unfold layer_plaintext. rewrite length_drop, <- Hlen.
  pose proof (be_val_range (slice 1 3 p)). rewrite Z2Nat.id by lia. onion_sizes.
  rewrite be_bytes_be_val', <- byte_at_slice by (rewrite ?length_slice; lia).
  rewrite <- (slice_drop 3 (length p)) by done.
  by rewrite (app_assoc (slice 0 1 p)), !slice_join, slice_0, take_ge by lia.
Qed.

Lemma key_and_nonce_surj keys d s :
  HopKeys_key_and_nonce keys d s = ((HopKeys_key_and_nonce keys d s).1, (HopKeys_key_and_nonce keys d s).2).
Proof. apply surjective_pairing. Qed.

(** Sealing a layer: the shape of the output. *)
Lemma seal_compact_inv keys d s t data compact :
  HopKeys_wf keys → seal_compact keys d s t data = Ok compact →
  ∃ ct tag,
    let n := (LAYER_HEADER_SIZE + length data + TAG_SIZE)%nat in
    let header := encode_cell_header keys d s n in
    let kn := HopKeys_key_and_nonce keys d s in
    (length data ≤ MAX_LAYER_DATA)%nat ∧
    length ct = (LAYER_HEADER_SIZE + length data)%nat ∧ length tag = TAG_SIZE ∧
    aead_seal kn.1 kn.2 (header ++ zeros (CELL_SIZE - (CELL_HEADER_SIZE + n)))
      (layer_plaintext t data) = Some (ct, tag) ∧
    compact = header ++ ct ++ tag.
Proof.
  intros Hk Hs. unfold seal_compact in Hs. rewrite key_and_nonce_surj in Hs. inv_ok. breflect.
  fold (layer_plaintext t data) in *. rewrite length_layer_plaintext in *.
  destruct a0 as [ct tag]. exists ct, tag. cbv zeta. simpl in Hs.
  destruct (aead_seal_length _ _ _ _ _ _ E0) as [Hct Htag].
  rewrite length_layer_plaintext in Hct. done.
Qed.

Lemma seal_compact_total keys d s t data :
  HopKeys_wf keys → (length data ≤ MAX_LAYER_DATA)%nat →
  ∃ compact, seal_compact keys d s t data = Ok compact.
Proof.
  intros Hk Hd. unfold seal_compact. rewrite key_and_nonce_surj.
  rewrite (proj2 (Nat.ltb_ge _ _)) by done. cbn [fail_if rbind]. cbv zeta.
  fold (layer_plaintext t data). set (aad := _ ++ zeros _).
  destruct (aead_seal_total (HopKeys_key_and_nonce keys d s).1
    (HopKeys_key_and_nonce keys d s).2 aad (layer_plaintext t data)) as [[ct tag] E].
  - rewrite length_layer_plaintext. onion_sizes. lia.
  - rewrite E. simpl. eauto.
Qed.

Lemma length_seal_compact keys d s t data compact :
  HopKeys_wf keys → seal_compact keys d s t data = Ok compact →
  length compact = (CELL_HEADER_SIZE + TAG_SIZE + LAYER_HEADER_SIZE + length data)%nat.
Proof.
  intros Hk Hs. destruct (seal_compact_inv _ _ _ _ _ _ Hk Hs) as (ct&tag&_&Hct&Htag&_&->).
  rewrite !length_app, length_encode_cell_header, Hct, Htag by done. lia.
Qed.

Lemma seal_compact_too_large keys d s t data :
  (MAX_LAYER_DATA < length data)%nat → seal_compact keys d s t data = Err PayloadTooLarge.
Proof. intros Hd. unfold seal_compact. by rewrite (proj2 (Nat.ltb_lt _ _)). Qed.

(** Padding a sealed layer to a full cell. *)
Lemma from_compact_sealed keys d s t data compact :
  HopKeys_wf keys → in_u64 s → seal_compact keys d s t data = Ok compact →
  WireCell_from_compact compact = Ok (compact ++ zeros (CELL_SIZE - length compact)) ∧
  parse_cell_header (compact ++ zeros (CELL_SIZE - length compact)) =
    Ok (mkCellHeader d (key_circuit_id keys) (key_epoch keys) (key_expires_at keys) s
          (LAYER_HEADER_SIZE + length data + TAG_SIZE)).
Proof.
  intros Hk Hs Hc. pose proof (length_seal_compact _ _ _ _ _ _ Hk Hc) as Hl.
  destruct (seal_compact_inv _ _ _ _ _ _ Hk Hc) as (ct&tag&Hd&Hct&Htag&_&->).
  assert (parse_cell_header ((encode_cell_header keys d s (LAYER_HEADER_SIZE + length data + TAG_SIZE)
      ++ ct ++ tag) ++ zeros (CELL_SIZE - length (encode_cell_header keys d s
          (LAYER_HEADER_SIZE + length data + TAG_SIZE) ++ ct ++ tag))) =
    Ok (mkCellHeader d (key_circuit_id keys) (key_epoch keys) (key_expires_at keys) s
          (LAYER_HEADER_SIZE + length data + TAG_SIZE))) as Hp.
  { rewrite Hl. assert (length (ct ++ tag) = (LAYER_HEADER_SIZE + length data + TAG_SIZE)%nat) as Hn
      by (rewrite length_app; lia).
    rewrite <- Hn, <- app_assoc.
    replace (CELL_SIZE - _)%nat with (CELL_SIZE - CELL_HEADER_SIZE - length (ct ++ tag))%nat
      by (rewrite Hn; onion_sizes; lia).
    apply parse_encode_cell_header; [done..|]. rewrite Hn. onion_sizes. lia. }
  split; [|done]. unfold WireCell_from_compact.
  rewrite (proj2 (Nat.ltb_ge _ _)), (proj2 (Nat.ltb_ge _ _)) by (onion_sizes; lia).
  cbn [orb fail_if rbind]. cbv zeta.
  assert (∀ c : bytes, copy_at 0 c (zeros CELL_SIZE) = c ++ zeros (CELL_SIZE - length c)) as ->.
  { intros c. unfold copy_at. rewrite take_0, Nat.add_0_l. by rewrite drop_zeros. }
  by rewrite Hp.
Qed.

(** The regions of a padded cell [header ++ ct ++ tag ++ padding]. *)
Lemma cell_regions (header ct tag pad : bytes) n :
  length header = CELL_HEADER_SIZE → length tag = TAG_SIZE → length ct = (n - TAG_SIZE)%nat →
  (TAG_SIZE ≤ n)%nat →
  let cell := (header ++ ct ++ tag) ++ pad in
  take CELL_HEADER_SIZE cell = header ∧
  slice CELL_HEADER_SIZE (CELL_HEADER_SIZE + n - TAG_SIZE) cell = ct ∧
  slice (CELL_HEADER_SIZE + n - TAG_SIZE) (CELL_HEADER_SIZE + n) cell = tag ∧
  drop (CELL_HEADER_SIZE + n) cell = pad.
Proof.
  intros Hh Ht Hc Hn cell. unfold cell. rewrite <- !app_assoc. split_and!.
  - by apply take_app_length'.
  - apply slice_app_exact; lia.
  - rewrite app_assoc. apply slice_app_exact; rewrite length_app; lia.
  - rewrite !app_assoc. apply drop_app_length'. rewrite !length_app. lia.
Qed.

(** Opening what was sealed for this hop, direction and sequence number. *)
Lemma open_layer_sealed keys w d s t data compact now :
  HopKeys_wf keys → in_u64 s → seal_compact keys d s t data = Ok compact →
  ReplayWindow_check w s = Ok tt → now < key_expires_at keys →
  open_layer keys w (compact ++ zeros (CELL_SIZE - length compact)) d now =
    match decode_layer t data with
    | Ok layer => (Ok layer, ReplayWindow_commit w s)
    | Err e => (Err e, w)
    end.
Proof.
  intros Hk Hs Hc Hw Hnow. pose proof (length_seal_compact _ _ _ _ _ _ Hk Hc) as Hl.
  destruct (from_compact_sealed _ _ _ _ _ _ Hk Hs Hc) as [_ Hp].
  destruct (seal_compact_inv _ _ _ _ _ _ Hk Hc) as (ct&tag&Hd&Hct&Htag&Haead&Heq).
  destruct (layer_plaintext_fields t data Hd) as (F1&F2&F3).
  destruct (cell_regions (encode_cell_header keys d s (LAYER_HEADER_SIZE + length data + TAG_SIZE))
     ct tag (zeros (CELL_SIZE - length compact)) (LAYER_HEADER_SIZE + length data + TAG_SIZE))
    as (R1&R2&R3&R4); [by apply length_encode_cell_header|done|lia|lia|].
  rewrite <- Heq in R1, R2, R3, R4.
  unfold open_layer. rewrite Hp. cbn [rbind]. rewrite !bool_decide_eq_false_2 by naive_solver.
  cbn [hdr_direction hdr_circuit_id hdr_epoch hdr_expires_at hdr_sequence hdr_ciphertext_len].
  rewrite !Z.eqb_refl. cbn [negb orb fail_if rbind].
  rewrite (proj2 (Z.leb_gt _ _)) by done. cbn [fail_if rbind]. rewrite Hw. cbn [rbind].
  cbv zeta. rewrite R1, R2, R3, R4, key_and_nonce_surj.
  replace (CELL_SIZE - length compact)%nat
    with (CELL_SIZE - (CELL_HEADER_SIZE + (LAYER_HEADER_SIZE + length data + TAG_SIZE)))%nat
    by (rewrite Hl; lia).
  rewrite (aead_open_seal _ _ _ _ _ _ Haead). cbn [ok_or rbind].
  rewrite length_layer_plaintext, (proj2 (Nat.ltb_ge _ _)), F1, F2, F3 by lia.
  rewrite (proj2 (Nat.eqb_eq _ _)) by lia. cbn [negb fail_if rbind].
  unfold decode_layer. case_bool_decide.
  - by destruct (WireCell_from_compact data).
  - by destruct (CellType_try_from t).
Qed.

(** Re-sealing an authenticated layer rebuilds the cell it came from. *)
Lemma seal_compact_rebuild keys d s n cell t data :
  length cell = CELL_SIZE →
  (TAG_SIZE + LAYER_HEADER_SIZE ≤ n ≤ CELL_SIZE - CELL_HEADER_SIZE)%nat →
  length data = (n - TAG_SIZE - LAYER_HEADER_SIZE)%nat →
  take CELL_HEADER_SIZE cell = encode_cell_header keys d s n →
  drop (CELL_HEADER_SIZE + n) cell = zeros (CELL_SIZE - CELL_HEADER_SIZE - n) →
  aead_seal (HopKeys_key_and_nonce keys d s).1 (HopKeys_key_and_nonce keys d s).2
    (take CELL_HEADER_SIZE cell ++ drop (CELL_HEADER_SIZE + n) cell) (layer_plaintext t data) =
    Some (slice CELL_HEADER_SIZE (CELL_HEADER_SIZE + n - TAG_SIZE) cell,
          slice (CELL_HEADER_SIZE + n - TAG_SIZE) (CELL_HEADER_SIZE + n) cell) →
  let compact := take (CELL_HEADER_SIZE + n) cell in
  seal_compact keys d s t data = Ok compact ∧
  cell = compact ++ zeros (CELL_SIZE - length compact).
Proof.
  intros Hlen Hn Hd Hh Hz Hs compact. split.
  - unfold seal_compact. rewrite (proj2 (Nat.ltb_ge _ _)) by (onion_sizes; lia).
    cbn [fail_if rbind]. cbv zeta. fold (layer_plaintext t data).
    rewrite length_layer_plaintext, key_and_nonce_surj.
    replace (LAYER_HEADER_SIZE + length data + TAG_SIZE)%nat with n by (onion_sizes; lia).
    rewrite Nat.sub_add_distr, <- Hh, <- Hz, Hs. simpl. f_equal. unfold compact.
    rewrite <- !slice_0, !slice_join by (onion_sizes; lia). done.
  - unfold compact. rewrite length_take, Hlen, Nat.min_l by (onion_sizes; lia).
    rewrite <- (take_drop (CELL_HEADER_SIZE + n) cell) at 1. f_equal. rewrite Hz. done.
Qed.

(** Every accepted cell is the padded sealing of a layer under this hop's keys
    at the header's sequence number: nothing else authenticates. *)
Lemma open_layer_inv keys w cell d now layer w' :
  length cell = CELL_SIZE → open_layer keys w cell d now = (Ok layer, w') →
  ∃ s t data,
    in_u64 s ∧ ReplayWindow_check w s = Ok tt ∧ w' = ReplayWindow_commit w s ∧
    now < key_expires_at keys ∧ decode_layer t data = Ok layer ∧
    (∃ h, parse_cell_header cell = Ok h ∧ hdr_sequence h = s) ∧
    ∃ compact, seal_compact keys d s t data = Ok compact ∧
      cell = compact ++ zeros (CELL_SIZE - length compact).
Proof.
  intros Hlen Ho. unfold open_layer in Ho.
  match type of Ho with (match ?o with _ => _ end = _) => destruct o as [[l s]|] eqn:E end;
    [|discriminate Ho].
  injection Ho as -> <-. inv_ok. rewrite key_and_nonce_surj in E. inv_ok. subst a3 s.
  rename a into h. rename a0 into p. breflect.
  destruct (parse_cell_header_inv _ _ Hlen E0) as (Hn&Hpad&Hs&Hhdr).
  apply aead_open_inv in E4.
  destruct (aead_seal_length _ _ _ _ _ _ E4) as [Hp _].
  rewrite length_slice in Hp by (onion_sizes; lia).
  assert (p = layer_plaintext (byte_at 0 p) (drop LAYER_HEADER_SIZE p)) as Hpl
    by (apply layer_plaintext_inv; onion_sizes; lia).
  exists (hdr_sequence h), (byte_at 0 p), (drop LAYER_HEADER_SIZE p).
  split_and!; [done|done|done|congruence|done|eauto|].
  eexists. apply seal_compact_rebuild with (n := hdr_ciphertext_len h); try done.
  - rewrite length_drop. onion_sizes. lia.
  - subst d. by apply Hhdr.
  - rewrite <- Hpl. by subst d.
Qed.

(** ** Layered sealing *)

(** The nested sealing of a route, innermost layer for the last hop. *)
Fixpoint seal_route (keys : list HopKeys) (d : Direction) (s : Z) (t : byte)
    (payload : bytes) : result bytes OnionError :=
  match keys with
  | [] => Err HopLimit
  | [k] => seal_compact k d s t payload
  | k :: keys => let? inner := seal_route keys d s t payload in seal_compact k d s x00 inner
  end.

Definition LAYER_OVERHEAD : nat := CELL_HEADER_SIZE + TAG_SIZE + LAYER_HEADER_SIZE.

Lemma seal_outer_app l1 l2 d s c :
  seal_outer (l1 ++ l2) d s c = let? c' := seal_outer l1 d s c in seal_outer l2 d s c'.
Proof.
  revert c. induction l1 as [|k l1 IH]; intros c; simpl; [done|].
  destruct (seal_compact k d s x00 c); simpl; [apply IH|done].
Qed.

(** The loop of [CircuitSender::seal] computes the nested sealing. *)
Lemma seal_outer_route keys k d s t payload :
  (let? c := seal_compact k d s t payload in seal_outer (reverse keys) d s c) =
  seal_route (keys ++ [k]) d s t payload.
Proof.
  induction keys as [|k' keys IH]; simpl.
  { by destruct (seal_compact k d s t payload). }
  destruct (keys ++ [k]) as [|k'' rest] eqn:E; [by destruct keys|].
  rewrite <- IH, reverse_cons. destruct (seal_compact k d s t payload); simpl; [|done].
  rewrite seal_outer_app. by destruct (seal_outer (reverse keys) d s a); simpl;
    [destruct (seal_compact k' d s x00 a0)|].
Qed.

Lemma seal_route_cons k keys d s t payload :
  keys ≠ [] →
  seal_route (k :: keys) d s t payload =
    let? inner := seal_route keys d s t payload in seal_compact k d s x00 inner.
Proof. by destruct keys. Qed.

Lemma length_seal_route keys d s t payload c :
  Forall HopKeys_wf keys → seal_route keys d s t payload = Ok c →
  length c = (length keys * LAYER_OVERHEAD + length payload)%nat.
Proof.
  intros Hk. revert c. induction keys as [|k keys IH]; intros c Hc; [done|].
  apply Forall_cons in Hk as [Hk Hks].
  destruct (decide (keys = [])) as [->|Hne].
  - simpl in Hc. apply length_seal_compact in Hc; [|done]. rewrite Hc. unfold LAYER_OVERHEAD. simpl. lia.
  - rewrite seal_route_cons in Hc by done. inv_ok. apply IH in E; [|done].
    apply length_seal_compact in Hc; [|done]. rewrite Hc, E. unfold LAYER_OVERHEAD. simpl. lia.
Qed.

(** A route seals exactly the payloads that fit the cell. *)
Lemma seal_route_total keys d s t payload :
  keys ≠ [] → Forall HopKeys_wf keys →
  (length keys * LAYER_OVERHEAD + length payload ≤ CELL_SIZE)%nat →
  ∃ c, seal_route keys d s t payload = Ok c.
Proof.
  intros Hne Hk. induction keys as [|k keys IH]; intros Hfit; [done|].
  apply Forall_cons in Hk as [Hk Hks]. simpl in Hfit.
  destruct (decide (keys = [])) as [->|Hne'].
  - apply seal_compact_total; [done|]. unfold LAYER_OVERHEAD in *. onion_sizes. simpl in *. lia.
  - rewrite seal_route_cons by done. destruct IH as [c Hc]; [done|done|lia|].
    rewrite Hc. simpl. apply seal_compact_total; [done|].
    rewrite (length_seal_route _ _ _ _ _ _ Hks Hc). unfold LAYER_OVERHEAD in *. onion_sizes. lia.
Qed.

Lemma seal_route_too_large keys d s t payload :
  keys ≠ [] → Forall HopKeys_wf keys →
  (CELL_SIZE < length keys * LAYER_OVERHEAD + length payload)%nat →
  seal_route keys d s t payload = Err PayloadTooLarge.
Proof.
  intros Hne Hk. induction keys as [|k keys IH]; intros Hfit; [done|].
  apply Forall_cons in Hk as [Hk Hks]. simpl in Hfit.
  destruct (decide (keys = [])) as [->|Hne'].
  - apply seal_compact_too_large. unfold LAYER_OVERHEAD in *. onion_sizes. simpl in *. lia.
  - rewrite seal_route_cons by done.
    destruct (decide (CELL_SIZE < length keys * LAYER_OVERHEAD + length payload)%nat).
    + by rewrite IH.
    + destruct (seal_route_total keys d s t payload) as [c Hc]; [done|done|lia|].
      rewrite Hc. simpl. apply seal_compact_too_large.
      rewrite (length_seal_route _ _ _ _ _ _ Hks Hc). unfold LAYER_OVERHEAD in *. onion_sizes. lia.
Qed.

(** The cell a route's outermost layer is padded to. *)
Lemma seal_route_cell keys d s t payload c :
  keys ≠ [] → Forall HopKeys_wf keys → in_u64 s → seal_route keys d s t payload = Ok c →
  WireCell_from_compact c = Ok (c ++ zeros (CELL_SIZE - length c)) ∧
  ∃ h, parse_cell_header (c ++ zeros (CELL_SIZE - length c)) = Ok h ∧ hdr_sequence h = s.
Proof.
  intros Hne Hk Hs Hc. destruct keys as [|k keys]; [done|].
  apply Forall_cons in Hk as [Hk Hks].
  assert (∃ t' data, seal_compact k d s t' data = Ok c) as (t'&data&Hc').
  { destruct (decide (keys = [])) as [->|]; [by eauto|].
    rewrite seal_route_cons in Hc by done. inv_ok. eauto. }
  destruct (from_compact_sealed _ _ _ _ _ _ Hk Hs Hc') as [H3 H4]. eauto.
Qed.

Lemma take_init {A} (l : list A) x : take (length (l ++ [x]) - 1) (l ++ [x]) = l.
Proof. rewrite length_app. simpl. rewrite Nat.add_sub. apply take_app_length. Qed.

(** [CircuitSender::seal] in terms of the nested sealing. *)
Lemma CircuitSender_seal_route snd ct payload :
  traversal_keys snd ≠ [] →
  CircuitSender_seal snd ct payload =
    match seal_route (traversal_keys snd) (snd_direction snd) (next_sequence snd)
            (CellType_as_u8 ct) payload with
    | Ok c =>
        match (let? cell := WireCell_from_compact c in
               let? next := ok_or (checked_add (next_sequence snd) 1) OutOfWindow in
               Ok (cell, next)) with
        | Ok (cell, next) =>
            (Ok cell, mkCircuitSender (traversal_keys snd) (snd_direction snd) next)
        | Err e => (Err e, snd)
        end
    | Err e => (Err e, snd)
    end.
Proof.
  intros Hne. unfold CircuitSender_seal.
  destruct (traversal_keys snd) as [|k ks _] using rev_ind; [done|].
  rewrite last_snoc, take_init, <- seal_outer_route. simpl.
  destruct (seal_compact k _ _ _ _); simpl; [|done].
  by destruct (seal_outer _ _ _ _).
Qed.

(** Outcome of a seal on a well-formed sender that has sequence numbers left. *)
Lemma CircuitSender_seal_ok snd ct payload :
  traversal_keys snd ≠ [] → Forall HopKeys_wf (traversal_keys snd) →
  0 ≤ next_sequence snd < U64_MAX →
  (length (traversal_keys snd) * LAYER_OVERHEAD + length payload ≤ CELL_SIZE)%nat →
  ∃ c, seal_route (traversal_keys snd) (snd_direction snd) (next_sequence snd)
         (CellType_as_u8 ct) payload = Ok c ∧
    CircuitSender_seal snd ct payload =
      (Ok (c ++ zeros (CELL_SIZE - length c)),
       mkCircuitSender (traversal_keys snd) (snd_direction snd) (next_sequence snd + 1)).
Proof.
  intros Hne Hk Hs Hfit.
  destruct (seal_route_total (traversal_keys snd) (snd_direction snd) (next_sequence snd)
              (CellType_as_u8 ct) payload) as [c Hc]; [done..|].
  exists c. split; [done|]. rewrite CircuitSender_seal_route, Hc by done.
  assert (in_u64 (next_sequence snd)) as Hu by (unfold in_u64; lia).
  destruct (seal_route_cell _ _ _ _ _ _ Hne Hk Hu Hc) as [-> _].
  simpl. rewrite (proj2 (checked_add_Some _ _ (next_sequence snd + 1))); [done|]. lia.
Qed.

(** ** Delivery along a route *)

(** Passes a cell from hop to hop: every relay opens its layer and forwards the
    re-padded inner cell; the result is what the last hop obtains. *)
Fixpoint traverse (rs : list HopReceiver) (cell : WireCell) (now : Z) :
    result (CellType * bytes) OnionError * list HopReceiver :=
  match rs with
  | [] => (Err HopLimit, [])
  | r :: rs =>
      match HopReceiver_open r cell now with
      | (Ok (Terminal ct payload), r') => (Ok (ct, payload), r' :: rs)
      | (Ok (OpenedForward inner), r') =>
          let '(res, rs') := traverse rs inner now in (res, r' :: rs')
      | (Err e, r') => (Err e, r' :: rs)
      end
  end.

Definition receiver_commit (s : Z) (r : HopReceiver) : HopReceiver :=
  mkHopReceiver (rcv_keys r) (rcv_expected_direction r) (ReplayWindow_commit (rcv_replay r) s).

(** A receiver ready for sequence number [s] of direction [d]. *)
Definition receiver_ready (d : Direction) (s now : Z) (r : HopReceiver) : Prop :=
  rcv_expected_direction r = d ∧ ReplayWindow_check (rcv_replay r) s = Ok tt ∧
  now < key_expires_at (rcv_keys r).

Lemma CellType_as_u8_nonzero ct : CellType_as_u8 ct ≠ x00.
Proof. by destruct ct. Qed.

Lemma traverse_sealed rs d s ct payload now c :
  rs ≠ [] → Forall (λ r, HopKeys_wf (rcv_keys r) ∧ receiver_ready d s now r) rs → in_u64 s →
  seal_route (rcv_keys <$> rs) d s (CellType_as_u8 ct) payload = Ok c →
  traverse rs (c ++ zeros (CELL_SIZE - length c)) now =
    (Ok (ct, payload), receiver_commit s <$> rs).
Proof.
  intros Hne Hrs Hs. revert c. induction rs as [|r rs IH]; intros c Hc; [done|].
  apply Forall_cons in Hrs as [(Hk&Hd&Hw&Hx) Hrs].
  change (rcv_keys <$> r :: rs) with (rcv_keys r :: (rcv_keys <$> rs)) in Hc.
  destruct (decide (rs = [])) as [->|Hne'].
  - simpl in Hc. unfold traverse, HopReceiver_open. rewrite Hd.
    rewrite (open_layer_sealed _ _ _ _ _ _ _ _ Hk Hs Hc Hw Hx). unfold decode_layer.
    rewrite bool_decide_eq_false_2 by apply CellType_as_u8_nonzero.
    rewrite (proj2 (CellType_try_from_ok _ ct)) by done. simpl.
    unfold receiver_commit. by rewrite Hd.
  - assert (rcv_keys <$> rs ≠ []) as Hne2 by by destruct rs.
    rewrite seal_route_cons in Hc by done. inv_ok. rename a into inner.
    assert (Forall HopKeys_wf (rcv_keys <$> rs)) as Hwf.
    { apply Forall_fmap. eapply Forall_impl; [done|]. by intros ? [? _]. }
    destruct (seal_route_cell _ _ _ _ _ _ Hne2 Hwf Hs E) as [Hinner _].
    simpl. unfold HopReceiver_open. rewrite Hd.
    rewrite (open_layer_sealed _ _ _ _ _ _ _ _ Hk Hs Hc Hw Hx). unfold decode_layer.
    rewrite bool_decide_eq_true_2, Hinner by done. cbn [rbind].
    rewrite (IH Hne' Hrs _ E). simpl. unfold receiver_commit at 2. by rewrite Hd.
Qed.

(** ** Streams *)

Fixpoint seal_all (snd : CircuitSender) (msgs : list (CellType * bytes)) :
    list (result WireCell OnionError) * CircuitSender :=
  match msgs with
  | [] => ([], snd)
  | (ct, payload) :: msgs =>
      let '(r, snd') := CircuitSender_seal snd ct payload in
      let '(rs, snd'') := seal_all snd' msgs in (r :: rs, snd'')
  end.

Fixpoint deliver_all (rs : list HopReceiver) (cells : list WireCell) (now : Z) :
    list (result (CellType * bytes) OnionError) :=
  match cells with
  | [] => []
  | cell :: cells => let '(r, rs') := traverse rs cell now in r :: deliver_all rs' cells now
  end.

(** A receiver that has accepted exactly the numbers below [s], in order. *)
Definition in_order (s : Z) (w : ReplayWindow) : Prop :=
  highest w = if s =? 0 then None else Some (s - 1).

Lemma in_order_check s w : 0 ≤ s → in_order s w → ReplayWindow_check w s = Ok tt.
Proof.
  intros Hs Hw. unfold in_order, ReplayWindow_check in *. rewrite Hw.
  destruct (Z.eqb_spec s 0); [done|].
  rewrite (proj2 (Z.ltb_lt _ _)), (proj2 (Z.leb_le _ _)) by (unfold MAX_FUTURE_SEQUENCE_JUMP; lia).
  done.
Qed.

Lemma in_order_commit s w : 0 ≤ s → in_order s w → in_order (s + 1) (ReplayWindow_commit w s).
Proof.
  intros Hs Hw. unfold in_order, ReplayWindow_commit in *. rewrite Hw.
  rewrite (proj2 (Z.eqb_neq (s + 1) 0)) by lia. replace (s + 1 - 1) with s by lia.
  destruct (Z.eqb_spec s 0); [done|]. by rewrite (proj2 (Z.ltb_lt _ _)) by lia.
Qed.

(** In-order streams are delivered completely and unchanged. *)
Lemma stream_delivery msgs : ∀ snd rs now,
  rs ≠ [] → traversal_keys snd = rcv_keys <$> rs →
  Forall (λ r, HopKeys_wf (rcv_keys r) ∧ rcv_expected_direction r = snd_direction snd ∧
               in_order (next_sequence snd) (rcv_replay r) ∧
               now < key_expires_at (rcv_keys r)) rs →
  0 ≤ next_sequence snd → next_sequence snd + Z.of_nat (length msgs) ≤ U64_MAX →
  Forall (λ m, (length rs * LAYER_OVERHEAD + length m.2 ≤ CELL_SIZE)%nat) msgs →
  ∃ cells, (seal_all snd msgs).1 = Ok <$> cells ∧
           Forall (λ c, length c = CELL_SIZE) cells ∧
           deliver_all rs cells now = Ok <$> msgs.
Proof.
  induction msgs as [|[ct payload] msgs IH]; intros snd rs now Hne Hkeys Hrs Hs0 Hmax Hfit.
  { exists []. simpl. split_and!; [done|constructor|done]. }
  apply Forall_cons in Hfit as [Hfit Hfits]. simpl in Hmax, Hfit.
  assert (traversal_keys snd ≠ []) as Hne' by (rewrite Hkeys; by destruct rs).
  assert (Forall HopKeys_wf (traversal_keys snd)) as Hwf.
  { rewrite Hkeys. apply Forall_fmap. eapply Forall_impl; [done|]. by intros ? [? _]. }
  destruct (CircuitSender_seal_ok snd ct payload) as (c&Hc&Hseal);
    [done|done|lia|by rewrite Hkeys, length_fmap|].
  assert (in_u64 (next_sequence snd)) as Hu by (unfold in_u64; lia).
  rewrite Hkeys in Hc. apply (traverse_sealed rs _ _ _ _ now) in Hc as Ht; [|done| |done].
  2:{ eapply Forall_impl; [done|]. intros r (?&?&?&?). unfold receiver_ready.
      split_and!; try done. by apply in_order_check. }
  edestruct (IH (mkCircuitSender (traversal_keys snd) (snd_direction snd) (next_sequence snd + 1))
               (receiver_commit (next_sequence snd) <$> rs) now) as (cells&Hcells&Hlens&Hdel).
  - by destruct rs.
  - simpl. rewrite Hkeys. by rewrite <- list_fmap_compose.
  - apply Forall_fmap. eapply Forall_impl; [done|]. intros r (?&?&?&?). simpl.
    split_and!; try done. by apply in_order_commit.
  - simpl. lia.
  - simpl. lia.
  - by rewrite length_fmap.
  - exists ((c ++ zeros (CELL_SIZE - length c)) :: cells). simpl. rewrite Hseal.
    destruct (seal_all _ msgs) as [rest snd''] eqn:Hrest. simpl in *. rewrite Ht, Hdel, Hcells.
    split_and!; [done| |done]. constructor; [|done].
    rewrite length_app, length_zeros.
    rewrite (length_seal_route _ _ _ _ _ _ ltac:(by rewrite Hkeys in Hwf) Hc), length_fmap. lia.
Qed.

(** ** Sender sequence numbers *)

Definition ok_cells {A E} (rs : list (result A E)) : list A :=
  omap (λ r, match r with Ok a => Some a | Err _ => None end) rs.

(** Every seal either returns a cell carrying the current sequence number and
    advances it, or fails and leaves the sender as it was. *)
Lemma CircuitSender_seal_sequence snd ct payload r snd' :
  traversal_keys snd ≠ [] → Forall HopKeys_wf (traversal_keys snd) →
  in_u64 (next_sequence snd) → CircuitSender_seal snd ct payload = (r, snd') →
  match r with
  | Ok cell =>
      (∃ h, parse_cell_header cell = Ok h ∧ hdr_sequence h = next_sequence snd) ∧
      next_sequence snd < U64_MAX ∧
      snd' = mkCircuitSender (traversal_keys snd) (snd_direction snd) (next_sequence snd + 1)
  | Err _ => snd' = snd
  end.
Proof.
  intros Hne Hk Hs Hseal. rewrite CircuitSender_seal_route in Hseal by done.
  destruct (seal_route _ _ _ _ _) as [c|e] eqn:Hc; [|by injection Hseal as <- <-].
  destruct (seal_route_cell _ _ _ _ _ _ Hne Hk Hs Hc) as [Hcell Hh].
  rewrite Hcell in Hseal. simpl in Hseal.
  destruct (checked_add (next_sequence snd) 1) as [next|] eqn:Hn; simpl in Hseal;
    injection Hseal as <- <-; [|done].
  apply checked_add_Some in Hn as [-> ?]. split_and!; [done|lia|done].
Qed.

Lemma seal_all_sequences msgs : ∀ snd i c,
  traversal_keys snd ≠ [] → Forall HopKeys_wf (traversal_keys snd) →
  in_u64 (next_sequence snd) → ok_cells (seal_all snd msgs).1 !! i = Some c →
  ∃ h, parse_cell_header c = Ok h ∧ hdr_sequence h = next_sequence snd + Z.of_nat i.
Proof.
  induction msgs as [|[ct payload] msgs IH]; intros snd i c Hne Hk Hs Hi; [done|].
  simpl in Hi. destruct (CircuitSender_seal snd ct payload) as [r snd'] eqn:Hseal.
  pose proof (CircuitSender_seal_sequence _ _ _ _ _ Hne Hk Hs Hseal) as Hr.
  specialize (IH snd'). destruct (seal_all snd' msgs) as [rs snd''].
  destruct r as [cell|e]; simpl in Hi, IH.
  - destruct Hr as (Hh&Hlt&->). destruct i as [|i]; simpl in Hi.
    + injection Hi as <-. by rewrite Z.add_0_r.
    + destruct (IH i c) as (h&?&Hseq); [done|done|unfold in_u64 in *; simpl; lia|done|].
      exists h. split; [done|]. rewrite Hseq. simpl. lia.
  - subst snd'. by apply IH.
Qed.

(** ** Receiver runs *)

(** Offers cells with their arrival times to one receiver; collects the header
    sequence numbers of the accepted ones. *)
Fixpoint receiver_run (r : HopReceiver) (arrivals : list (WireCell * Z)) : list Z * HopReceiver :=
  match arrivals with
  | [] => ([], r)
  | (cell, now) :: arrivals =>
      match HopReceiver_open r cell now with
      | (Ok _, r') =>
          let seq := match parse_cell_header cell with Ok h => hdr_sequence h | Err _ => 0 end in
          let '(acc, rf) := receiver_run r' arrivals in (seq :: acc, rf)
      | (Err _, r') => receiver_run r' arrivals
      end
  end.

Lemma HopReceiver_open_ok r cell now layer r' :
  length cell = CELL_SIZE → HopReceiver_open r cell now = (Ok layer, r') →
  ∃ s t data compact,
    in_u64 s ∧ ReplayWindow_check (rcv_replay r) s = Ok tt ∧ r' = receiver_commit s r ∧
    now < key_expires_at (rcv_keys r) ∧ decode_layer t data = Ok layer ∧
    (∃ h, parse_cell_header cell = Ok h ∧ hdr_sequence h = s) ∧
    seal_compact (rcv_keys r) (rcv_expected_direction r) s t data = Ok compact ∧
    cell = compact ++ zeros (CELL_SIZE - length compact).
Proof.
  intros Hl Ho. unfold HopReceiver_open in Ho.
  destruct (open_layer _ _ _ _ _) as [res w] eqn:E. injection Ho as -> <-.
  destruct (open_layer_inv _ _ _ _ _ _ _ Hl E) as (s&t&data&?&?&->&?&?&?&compact&?&?).
  by exists s, t, data, compact.
Qed.

Lemma HopReceiver_open_err r cell now e r' : HopReceiver_open r cell now = (Err e, r') → r' = r.
Proof.
  unfold HopReceiver_open, open_layer.
  match goal with |- context [match ?o with Ok _ => _ | Err _ => _ end] => destruct o as [[??]|] end;
    [done|]. intros [= _ <-]. by destruct r.
Qed.

Lemma receiver_run_fresh arrivals : ∀ r S acc rf,
  Forall (λ a, length a.1 = CELL_SIZE) arrivals → window_repr (rcv_replay r) S →
  receiver_run r arrivals = (acc, rf) → NoDup acc ∧ ∀ s, s ∈ acc → s ∉ S.
Proof.
  induction arrivals as [|[cell now] arrivals IH]; intros r S acc rf Hl HR Hrun; simpl in Hrun.
  { injection Hrun as <- _. split; [constructor|set_solver]. }
  apply Forall_cons in Hl as [Hl Hls]. cbn [fst] in Hl.
  destruct (HopReceiver_open r cell now) as [[layer|e] r'] eqn:Ho.
  - destruct (HopReceiver_open_ok _ _ _ _ _ Hl Ho) as (s&?&?&?&[Hs _]&Hw&->&_&_&(h&Hph&<-)&_).
    rewrite Hph in Hrun.
    destruct (receiver_run _ arrivals) as [acc' rf'] eqn:Hr. injection Hrun as <- <-.
    edestruct (accept_repr (rcv_replay r) S (hdr_sequence h)) as (_&Hni&HR'); [done|done| |].
    { unfold ReplayWindow_accept. by rewrite Hw. }
    destruct (IH (receiver_commit (hdr_sequence h) r) _ _ _ Hls HR' Hr) as [Hnd Hf]. split.
    + constructor; [|done]. intros Hin. apply (Hf _ Hin). set_solver.
    + intros y. rewrite elem_of_cons. intros [->|Hy]; [done|]. specialize (Hf y Hy). set_solver.
  - apply HopReceiver_open_err in Ho as ->. by eapply IH.
Qed.

(** ** Key agreement lemmas *)

Lemma derive_keys_total shared transcript ctx :
  ∃ keys conf, derive_keys shared transcript ctx = Ok (keys, conf).
Proof.
  unfold derive_keys. cbv zeta.
  destruct (hkdf_expand_total (sha256 transcript) shared
              (str_bytes "peerless/onion/hop-keys/v1") 104) as [out E]; [lia|].
  rewrite E. simpl. eauto.
Qed.

Lemma derive_keys_wf shared transcript ctx keys conf :
  SetupContext_wf ctx → derive_keys shared transcript ctx = Ok (keys, conf) → HopKeys_wf keys.
Proof.
  intros (?&?&?&?) Hd. unfold derive_keys in Hd. inv_ok. subst keys.
  apply hkdf_expand_length in E. unfold HopKeys_wf; cbn.
  split_and!; try done; rewrite length_slice; lia.
Qed.

Lemma confirmation_tag_total key transcript :
  ∃ tag, confirmation_tag key transcript = Ok tag ∧ length tag = 16%nat.
Proof.
  unfold confirmation_tag.
  destruct (aead_seal_total key (zeros 12) transcript []) as [[ct tag] E]; [simpl; lia|].
  rewrite E. simpl. exists tag. split; [done|]. by apply aead_seal_length in E as [_ ?].
Qed.


(** ** Properties *)

(** C30: Key agreement.  When a relay accepts the initiator's request, the
    initiator that processes the relay's response (within the setup lifetime)
    succeeds and both ends hold identical, well-formed hop keys. *)
Theorem setup_keys_agree context now now' now'' secret relay_secret relay_ephemeral
    request pending response relay_keys :
  SetupContext_wf context →
  InitiatorSetup_start context (x_public relay_secret) now secret = Ok (request, pending) →
  RelaySetup_accept request relay_secret now' relay_ephemeral = Ok (response, relay_keys) →
  SetupContext_validate context now'' = Ok tt →
  InitiatorSetup_finish pending response now'' = Ok relay_keys ∧ HopKeys_wf relay_keys.
Proof.
  intros Hwf Hstart Haccept Hv. unfold InitiatorSetup_start in Hstart. inv_ok. subst.
  unfold RelaySetup_accept in Haccept.
  rewrite parse_encode_setup_request in Haccept by (done || apply x_public_length).
  cbn [rbind req_context req_initiator_public req_relay_public] in Haccept. inv_ok. subst.
  destruct a2 as [keys conf]. cbn [fst snd] in *.
  destruct (confirmation_tag_total conf (setup_transcript context (x_public secret)
    (x_public relay_ephemeral) (x_public relay_secret))) as (tag&Htag&Hlen).
  rewrite Htag in E4. injection E4 as <-. split; [|by eapply derive_keys_wf].
  unfold InitiatorSetup_finish.
  rewrite parse_encode_setup_response by (done || apply x_public_length).
  cbn [rbind resp_context resp_initiator_public resp_relay_public resp_responder_public
       resp_confirmation pend_context pend_secret pend_initiator_public pend_relay_public].
  rewrite Hv. cbn [rbind]. rewrite !bool_decide_eq_false_2 by naive_solver.
  cbn [orb fail_if rbind]. rewrite !(x_dh_comm secret), E2. cbn [fail_if rbind].
  rewrite E3. cbn [rbind fst snd]. rewrite Htag. cbn [rbind].
  by rewrite bool_decide_eq_false_2 by naive_solver.
Qed.

(** C1: Layered delivery.  A circuit of one to three hops delivers every stream
    of payloads within [max_payload_for_hops], unchanged, in order and typed,
    to the last hop; every cell on the wire is exactly 1024 bytes. *)
Theorem onion_stream_delivery keys d snd cap now msgs :
  CircuitSender_new keys d = Ok snd → Forall HopKeys_wf keys →
  Forall (λ k, now < key_expires_at k) keys →
  max_payload_for_hops (length keys) = Ok cap →
  Forall (λ m, (length m.2 ≤ cap)%nat) msgs → Z.of_nat (length msgs) ≤ U64_MAX →
  ∃ cells, (seal_all snd msgs).1 = Ok <$> cells ∧
    Forall (λ c, length c = CELL_SIZE) cells ∧
    deliver_all ((λ k, HopReceiver_new k d) <$> keys) cells now = Ok <$> msgs.
Proof.
  intros Hnew Hwf Hx Hcap Hfit Hlen. destruct keys as [|k ks] eqn:Hkeys; [done|].
  unfold CircuitSender_new in Hnew. inv_ok. subst snd. rewrite <- Hkeys in *.
  assert (keys ≠ []) as Hne by by subst.
  apply stream_delivery; simpl.
  - by subst.
  - rewrite <- list_fmap_compose. by rewrite list_fmap_id.
  - apply Forall_fmap, Forall_forall. intros k' Hk'. simpl.
    rewrite Forall_forall in Hwf, Hx. split_and!; [by apply Hwf|done|done|by apply Hx].
  - lia.
  - lia.
  - rewrite length_fmap. eapply Forall_impl; [done|]. intros [ct payload]; simpl. intros Hp.
    unfold max_payload_for_hops in Hcap. destruct (_ || _) eqn:E'; [done|].
    destruct (_ <=? _)%nat eqn:E2'; [|done]. inv_ok. breflect. unfold LAYER_OVERHEAD. onion_sizes. lia.
Qed.

(** Capacity.  On a circuit with sequence numbers left, sealing succeeds
    exactly for payloads up to [max_payload_for_hops]; a larger payload is
    refused and does not consume a sequence number. *)
Theorem seal_capacity_exact snd ct payload cap :
  Forall HopKeys_wf (traversal_keys snd) → 0 ≤ next_sequence snd < U64_MAX →
  max_payload_for_hops (length (traversal_keys snd)) = Ok cap →
  if decide (length payload ≤ cap)%nat
  then ∃ cell, CircuitSender_seal snd ct payload =
         (Ok cell, mkCircuitSender (traversal_keys snd) (snd_direction snd) (next_sequence snd + 1))
  else CircuitSender_seal snd ct payload = (Err PayloadTooLarge, snd).
Proof.
  intros Hwf Hs Hcap. unfold max_payload_for_hops in Hcap.
  destruct (_ || _) eqn:E; [done|]. destruct (_ <=? _)%nat eqn:E2; [|done]. inv_ok. breflect.
  assert (traversal_keys snd ≠ []) as Hne by (intros Hn; by rewrite Hn in *).
  case_decide.
  - destruct (CircuitSender_seal_ok snd ct payload) as (c&_&Hc);
      [done|done|done| |by eauto]. unfold LAYER_OVERHEAD. onion_sizes. lia.
  - rewrite CircuitSender_seal_route by done. rewrite seal_route_too_large; [done..|].
    unfold LAYER_OVERHEAD. onion_sizes. lia.
Qed.

(** Nonces are never reused.  Whatever the caller seals, including payloads
    that are refused in between, the cells a circuit emits carry the sequence
    numbers 0, 1, 2, ... in order; the AEAD nonce is the key's fixed prefix
    followed by that number. *)
Theorem sender_sequence_numbers keys d snd msgs i cell :
  CircuitSender_new keys d = Ok snd → Forall HopKeys_wf keys →
  ok_cells (seal_all snd msgs).1 !! i = Some cell →
  ∃ h, parse_cell_header cell = Ok h ∧ hdr_sequence h = Z.of_nat i.
Proof.
  intros Hnew Hwf Hi. destruct keys as [|k ks]; [done|].
  unfold CircuitSender_new in Hnew. inv_ok. subst snd.
  by apply (seal_all_sequences msgs) in Hi.
Qed.

(** Authenticity.  A cell that a hop opens is, byte for byte, the padded
    sealing of the delivered layer under that hop's own keys, expected
    direction and the header's sequence number, and it has not expired; any
    other cell is refused and leaves the receiver unchanged. *)
Theorem hop_open_authentic r cell now res r' :
  length cell = CELL_SIZE → HopReceiver_open r cell now = (res, r') →
  match res with
  | Ok layer => ∃ s t data compact,
      now < key_expires_at (rcv_keys r) ∧ decode_layer t data = Ok layer ∧
      seal_compact (rcv_keys r) (rcv_expected_direction r) s t data = Ok compact ∧
      cell = compact ++ zeros (CELL_SIZE - length compact) ∧ r' = receiver_commit s r
  | Err _ => r' = r
  end.
Proof.
  intros Hl Ho. destruct res as [layer|e]; [|by eapply HopReceiver_open_err].
  destruct (HopReceiver_open_ok _ _ _ _ _ Hl Ho)
    as (s&t&data&compact&?&?&?&?&?&?&?&?). by exists s, t, data, compact.
Qed.

(** C20: No cell is delivered twice.  Whatever cells an adversary offers to a
    hop, in whatever order and at whatever times, the sequence numbers of the
    cells it opens are pairwise distinct. *)
Theorem hop_receiver_no_replay keys d arrivals acc rf :
  Forall (λ a, length a.1 = CELL_SIZE) arrivals →
  receiver_run (HopReceiver_new keys d) arrivals = (acc, rf) → NoDup acc.
Proof.
  intros Hl Hr. by eapply (receiver_run_fresh _ _ ∅) in Hr as [? _]; [|done|].
Qed.

End circuit.

(** ** Evaluated instances *)

Import Toy.

Definition sample_keys (i : byte) : HopKeys :=
  mkHopKeys (replicate 16 x11) (byte_to_Z i) 7 9999 (replicate 32 i) (replicate 32 i)
    (replicate 4 i) (replicate 4 i).

Definition sample_sender : CircuitSender :=
  mkCircuitSender [sample_keys x00; sample_keys x01; sample_keys x02] Forward 0.

Definition sample_msgs : list (CellType * bytes) :=
  [(Data, replicate 817 x41); (Teardown, []); (Padding, [x01; x02])].

Lemma sample_keys_wf i : HopKeys_wf (sample_keys i).
Proof.
  unfold HopKeys_wf, sample_keys, in_u64, U64_MAX; simpl. split_and!; try lia; try done.
  apply byte_to_Z_u8.
Qed.

Definition sample_pending : PendingSetup :=
  mkPendingSetup sample_context (toy_secret 11) (x_public (toy_secret 11)) (x_public (toy_secret 5)).

Definition sample_request : bytes :=
  encode_setup_request sample_context (x_public (toy_secret 11)) (x_public (toy_secret 5)).

Definition sample_accepted : bytes * HopKeys :=
  match RelaySetup_accept sample_request (toy_secret 5) 101 (toy_secret 23) with
  | Ok r => r
  | Err _ => ([], sample_keys x00)
  end.

Lemma setup_keys_agree_witness :
  RelaySetup_accept sample_request (toy_secret 5) 101 (toy_secret 23) = Ok sample_accepted ∧
  InitiatorSetup_finish sample_pending sample_accepted.1 102 = Ok sample_accepted.2.
Proof.
  assert (RelaySetup_accept sample_request (toy_secret 5) 101 (toy_secret 23)
          = Ok sample_accepted) as Ha by (vm_compute; reflexivity).
  split; [exact Ha|].
  apply (setup_keys_agree sample_context 100 101 102 (toy_secret 11) (toy_secret 5)
           (toy_secret 23) sample_request sample_pending sample_accepted.1 sample_accepted.2).
  - unfold SetupContext_wf, in_u8, in_u64, U8_MAX, U64_MAX. simpl. split_and!; done || lia.
  - reflexivity.
  - by rewrite Ha, <- surjective_pairing.
  - reflexivity.
Defined.

Lemma onion_stream_delivery_witness :
  ∃ cells, (seal_all sample_sender sample_msgs).1 = Ok <$> cells ∧
    Forall (λ c, length c = CELL_SIZE) cells ∧
    deliver_all ((λ k, HopReceiver_new k Forward) <$> traversal_keys sample_sender) cells 100
      = Ok <$> sample_msgs.
Proof.
  apply (onion_stream_delivery (traversal_keys sample_sender) Forward sample_sender 817 100);
    try reflexivity.
  - repeat constructor; apply sample_keys_wf.
  - repeat constructor.
  - repeat constructor; simpl; lia.
  - vm_compute. discriminate.
Defined.

Lemma sample_sender_wf : Forall HopKeys_wf (traversal_keys sample_sender).
Proof. repeat constructor; apply sample_keys_wf. Qed.

Lemma seal_capacity_exact_witness :
  CircuitSender_seal sample_sender Data (replicate 818 x41) = (Err PayloadTooLarge, sample_sender).
Proof.
  pose proof (seal_capacity_exact sample_sender Data (replicate 818 x41) 817
                sample_sender_wf (conj (Z.le_refl 0) eq_refl) eq_refl) as Hc.
  rewrite decide_False in Hc by (rewrite length_replicate; lia). exact Hc.
Defined.

(** The third cell of the sample stream. *)
Definition sample_third : WireCell :=
  default [] (ok_cells (seal_all sample_sender sample_msgs).1 !! 2%nat).

Lemma sender_sequence_numbers_witness :
  ∃ h, parse_cell_header sample_third = Ok h ∧ hdr_sequence h = 2.
Proof.
  apply (sender_sequence_numbers (traversal_keys sample_sender) Forward sample_sender
           sample_msgs 2 sample_third).
  - reflexivity.
  - exact sample_sender_wf.
  - vm_compute. reflexivity.
Defined.

(** The first cell of the sample stream. *)
Definition sample_cell : WireCell :=
  match (seal_all sample_sender sample_msgs).1 with Ok c :: _ => c | _ => [] end.

Definition sample_receiver : HopReceiver := HopReceiver_new (sample_keys x00) Forward.

Definition sample_opened : OpenedLayer :=
  match HopReceiver_open sample_receiver sample_cell 100 with
  | (Ok layer, _) => layer
  | (Err _, _) => Terminal Setup []
  end.

Lemma hop_open_authentic_witness :
  ∃ s t data compact,
    100 < key_expires_at (rcv_keys sample_receiver) ∧
    decode_layer t data = Ok sample_opened ∧
    seal_compact (rcv_keys sample_receiver) Forward s t data = Ok compact ∧
    sample_cell = compact ++ zeros (CELL_SIZE - length compact) ∧
    receiver_commit 0 sample_receiver = receiver_commit s sample_receiver.
Proof.
  apply (hop_open_authentic sample_receiver sample_cell 100 (Ok sample_opened)
           (receiver_commit 0 sample_receiver)).
  - vm_compute. reflexivity.
  - vm_compute. reflexivity.
Defined.

Lemma hop_receiver_no_replay_witness :
  (receiver_run sample_receiver [(sample_cell, 1); (sample_cell, 2); (zeros 1024, 3)]).1 = [0] ∧
  NoDup (receiver_run sample_receiver [(sample_cell, 1); (sample_cell, 2); (zeros 1024, 3)]).1.
Proof.
  split; [by vm_compute|].
  eapply (hop_receiver_no_replay (sample_keys x00) Forward
            [(sample_cell, 1); (sample_cell, 2); (zeros 1024, 3)]).
  - apply Forall_cons; split; [vm_compute; reflexivity|].
    apply Forall_cons; split; [vm_compute; reflexivity|].
    apply Forall_cons; split; [vm_compute; reflexivity|constructor].
  - apply surjective_pairing.
Defined.
