(* ===== verification/OnionFragment.v ===== *)
(** Fragmentation of application messages into cells and their bounded
    reassembly ([Fragment], [fragment_message] and [Reassembler] in
    crates/peerless-onion-protocol/src/lib.rs). *)

From S2P Require Import Prelude OnionWire.
From Stdlib Require Import Strings.Byte.

Definition MAX_FRAGMENT_COUNT : Z := 1024.
Definition MAX_MESSAGE_SIZE : Z := 512 * 1024.
Definition MAX_INFLIGHT_MESSAGES : nat := 16.
Definition FRAGMENT_HEADER_SIZE : nat := 28.
Definition FRAGMENT_MAX_BYTES : nat := MAX_LAYER_DATA - FRAGMENT_HEADER_SIZE.

Record Fragment := mkFragment {
  message_id : bytes;
  index : Z;
  count : Z;
  total_len : Z;
  frag_bytes : bytes;
}.

#[export] Instance Fragment_eq_dec : EqDecision Fragment.
Proof. solve_decision. Defined.

Definition Fragment_validate (f : Fragment) : result unit OnionError :=
  fail_if ((count f =? 0) || (MAX_FRAGMENT_COUNT <? count f) || (count f <=? index f)
           || (MAX_MESSAGE_SIZE <? total_len f)
           || (FRAGMENT_MAX_BYTES <? length (frag_bytes f))%nat
           || ((total_len f =? 0)
               && (negb (count f =? 1) || negb (bool_decide (frag_bytes f = []))))
           || ((0 <? total_len f) && bool_decide (frag_bytes f = []))) InvalidEncoding.

Definition Fragment_encode (f : Fragment) : result bytes OnionError :=
  Fragment_validate f ;?
  Ok (message_id f ++ be_bytes 4 (index f) ++ be_bytes 4 (count f)
      ++ be_bytes 4 (total_len f) ++ frag_bytes f).

Definition Fragment_decode (v : bytes) : result Fragment OnionError :=
  fail_if ((length v <? FRAGMENT_HEADER_SIZE)%nat || (MAX_LAYER_DATA <? length v)%nat)
    InvalidEncoding ;?
  let fragment := mkFragment (slice 0 16 v) (be_val (slice 16 20 v)) (be_val (slice 20 24 v))
                    (be_val (slice 24 28 v)) (drop 28 v) in
  Fragment_validate fragment ;? Ok fragment.

Definition fragment_message (id msg : bytes) : result (list Fragment) OnionError :=
  if MAX_MESSAGE_SIZE <? Z.of_nat (length msg) then Err PayloadTooLarge
  else if bool_decide (msg = []) then Ok [mkFragment id 0 1 0 []]
  else
    let n := div_ceil (Z.of_nat (length msg)) (Z.of_nat FRAGMENT_MAX_BYTES) in
    if MAX_FRAGMENT_COUNT <? n then Err PayloadTooLarge
    else Ok (imap (λ i chunk, mkFragment id (Z.of_nat i) n (Z.of_nat (length msg)) chunk)
               (chunks FRAGMENT_MAX_BYTES msg)).

Record PartialMessage := mkPartialMessage {
  pm_count : Z;
  pm_total_len : Z;
  received_bytes : Z;
  fragments : list (option bytes);
}.

#[export] Instance PartialMessage_eq_dec : EqDecision PartialMessage.
Proof. solve_decision. Defined.

(** The [messages] map of a reassembler. *)
Abbreviation Reassembler := (gmap bytes PartialMessage).

(** One push, with the map left behind on every path: a fresh entry is
    inserted before its fragment is checked.  The out-of-range slot stands for
    an index panic, which [reassembler_inv] rules out. *)
Definition Reassembler_push (m : Reassembler) (f : Fragment) :
    result (option bytes) OnionError * Reassembler :=
  match Fragment_validate f with
  | Err e => (Err e, m)
  | Ok _ =>
      if negb (bool_decide (is_Some (m !! message_id f))) && (MAX_INFLIGHT_MESSAGES <=? size m)%nat
      then (Err FragmentCapacity, m)
      else
        let entry := default (mkPartialMessage (count f) (total_len f) 0
                                (replicate (Z.to_nat (count f)) None)) (m !! message_id f) in
        let m := <[message_id f := entry]> m in
        if negb (pm_count entry =? count f) || negb (pm_total_len entry =? total_len f)
        then (Err InvalidEncoding, m)
        else
          match fragments entry !! Z.to_nat (index f) with
          | None => (Err InvalidEncoding, m)
          | Some (Some _) => (Err Replay, m)
          | Some None =>
              match checked_add (received_bytes entry) (Z.of_nat (length (frag_bytes f))) with
              | None => (Err PayloadTooLarge, m)
              | Some received =>
                  if pm_total_len entry <? received then (Err InvalidEncoding, m)
                  else
                    let slots := <[Z.to_nat (index f) := Some (frag_bytes f)]> (fragments entry) in
                    let m := <[message_id f :=
                               mkPartialMessage (pm_count entry) (pm_total_len entry) received slots]> m in
                    if existsb (λ s, bool_decide (s = None)) slots then (Ok None, m)
                    else if negb (received =? pm_total_len entry) then (Err InvalidEncoding, m)
                    else (Ok (Some (concat (omap id slots))), delete (message_id f) m)
              end
          end
  end.

Fixpoint push_all (m : Reassembler) (fs : list Fragment) :
    list (result (option bytes) OnionError) * Reassembler :=
  match fs with
  | [] => ([], m)
  | f :: fs =>
      let '(r, m') := Reassembler_push m f in
      let '(rs, m'') := push_all m' fs in (r :: rs, m'')
  end.

(** The outcomes of the pushes that carry one message identifier. *)
Definition outcomes_for (i : bytes) (fs : list Fragment)
    (rs : list (result (option bytes) OnionError)) : list (result (option bytes) OnionError) :=
  snd <$> filter (λ p, message_id p.1 = i) (zip fs rs).

(** ** Validation and codec lemmas *)

Definition Fragment_wf (f : Fragment) : Prop :=
  length (message_id f) = 16%nat ∧ in_u32 (index f) ∧ in_u32 (count f) ∧ in_u32 (total_len f).

Lemma Fragment_validate_ok f :
  Fragment_validate f = Ok tt ↔
  count f ≠ 0 ∧ count f ≤ MAX_FRAGMENT_COUNT ∧ index f < count f ∧
  total_len f ≤ MAX_MESSAGE_SIZE ∧ (length (frag_bytes f) ≤ FRAGMENT_MAX_BYTES)%nat ∧
  (total_len f = 0 → count f = 1 ∧ frag_bytes f = []) ∧
  (0 < total_len f → frag_bytes f ≠ []).
Proof.
  unfold Fragment_validate. rewrite fail_if_ok, !orb_false_iff, !andb_false_iff, !orb_false_iff.
  rewrite !negb_false_iff, Z.eqb_neq, !Z.ltb_ge, Z.leb_gt, Nat.ltb_ge, Z.eqb_neq, Z.eqb_eq.
  rewrite bool_decide_eq_true, bool_decide_eq_false.
  destruct (decide (total_len f = 0)), (decide (0 < total_len f)); naive_solver lia.
Qed.

Lemma in_u32_pow z : in_u32 z → 0 ≤ z < 256 ^ Z.of_nat 4.
Proof. unfold in_u32, U32_MAX. lia. Qed.

Lemma Fragment_decode_encode f v :
  Fragment_wf f → Fragment_encode f = Ok v → Fragment_decode v = Ok f.
Proof.
  intros (Hid&Hi&Hc&Ht) He. unfold Fragment_encode in He.
  apply rbind_ok in He as ([]&E&He). apply Ok_inj in He. subst v.
  destruct f as [id i c t body]; cbn [message_id index count total_len frag_bytes] in *.
  pose proof (proj1 (Fragment_validate_ok _) E) as (_&_&_&_&Hb&_).
  cbn [frag_bytes] in Hb. unfold Fragment_decode.
  assert (length (id ++ be_bytes 4 i ++ be_bytes 4 c ++ be_bytes 4 t ++ body)
          = (28 + length body)%nat) as Hlen.
  { rewrite !length_app, !length_be_bytes. lia. }
  unfold FRAGMENT_MAX_BYTES in Hb.
  rewrite Hlen, (proj2 (Nat.ltb_ge _ _)), (proj2 (Nat.ltb_ge _ _))
    by (unfold FRAGMENT_HEADER_SIZE in *; onion_sizes; lia).
  cbn [orb fail_if rbind]. cbv zeta.
  rewrite slice_0, take_app_length' by done.
  rewrite (slice_app_exact id (be_bytes 4 i)) by (rewrite ?length_be_bytes; lia).
  rewrite (app_assoc id (be_bytes 4 i)), (slice_app_exact (id ++ be_bytes 4 i) (be_bytes 4 c))
    by (rewrite !length_app, ?length_be_bytes; lia).
  rewrite (app_assoc _ (be_bytes 4 c)), (slice_app_exact _ (be_bytes 4 t))
    by (rewrite !length_app, ?length_be_bytes; lia).
  rewrite (app_assoc _ (be_bytes 4 t)), drop_app_length'
    by (rewrite !length_app, !length_be_bytes; lia).
  rewrite !be_val_be_bytes by by apply in_u32_pow. by rewrite E.
Qed.

Lemma Fragment_encode_decode v f :
  Fragment_decode v = Ok f → Fragment_wf f ∧ Fragment_encode f = Ok v.
Proof.
  intros Hd. unfold Fragment_decode in Hd. inv_ok. breflect. subst f.
  unfold FRAGMENT_HEADER_SIZE in *.
  assert (∀ i, (i + 4 ≤ 28)%nat → in_u32 (be_val (slice i (i + 4) v))) as Hu.
  { intros i Hi. pose proof (be_val_range (slice i (i + 4) v)) as Hr.
    rewrite length_slice in Hr by lia. replace (i + 4 - i)%nat with 4%nat in Hr by lia.
    unfold in_u32, U32_MAX. lia. }
  split.
  - unfold Fragment_wf; cbn [message_id index count total_len].
    split_and!; [rewrite length_slice; lia|apply (Hu 16%nat)|apply (Hu 20%nat)|apply (Hu 24%nat)]; lia.
  - unfold Fragment_encode. rewrite E0. cbn [rbind message_id index count total_len frag_bytes].
    f_equal. rewrite !be_bytes_be_val' by (rewrite length_slice; lia).
    rewrite <- (slice_drop 28 (length v)) by done.
    by rewrite !slice_join, slice_0, take_ge by lia.
Qed.

(** ** Fragmentation *)

(** The payloads a message is split into. *)
Definition message_chunks (msg : bytes) : list bytes :=
  if bool_decide (msg = []) then [[]] else chunks FRAGMENT_MAX_BYTES msg.

Definition fragments_of (id msg : bytes) : list Fragment :=
  imap (λ i chunk, mkFragment id (Z.of_nat i) (Z.of_nat (length (message_chunks msg)))
                     (Z.of_nat (length msg)) chunk) (message_chunks msg).

Lemma concat_message_chunks msg : concat (message_chunks msg) = msg.
Proof.
  unfold message_chunks. case_bool_decide; [by subst|].
  apply concat_chunks. unfold FRAGMENT_MAX_BYTES, FRAGMENT_HEADER_SIZE. onion_sizes. lia.
Qed.

Lemma message_chunks_count msg :
  Z.of_nat (length msg) ≤ MAX_MESSAGE_SIZE →
  1 ≤ Z.of_nat (length (message_chunks msg)) ≤ MAX_FRAGMENT_COUNT.
Proof.
  intros Hm. unfold message_chunks. case_bool_decide as Hne; [simpl; unfold MAX_FRAGMENT_COUNT; lia|].
  rewrite length_chunks by (unfold FRAGMENT_MAX_BYTES, FRAGMENT_HEADER_SIZE; onion_sizes; lia).
  replace (Z.of_nat FRAGMENT_MAX_BYTES) with 927 by done.
  assert (1 ≤ Z.of_nat (length msg)) by (destruct msg; simpl; [done|lia]). split.
  - apply Z.lt_pred_le. simpl. apply Z.nle_gt. rewrite div_ceil_le by lia. lia.
  - apply div_ceil_le; [lia|lia|]. unfold MAX_MESSAGE_SIZE, MAX_FRAGMENT_COUNT in *. lia.
Qed.

Lemma fragment_message_ok id msg :
  Z.of_nat (length msg) ≤ MAX_MESSAGE_SIZE → fragment_message id msg = Ok (fragments_of id msg).
Proof.
  intros Hm. pose proof (message_chunks_count msg Hm) as Hc.
  unfold fragment_message, fragments_of, message_chunks in *.
  rewrite (proj2 (Z.ltb_ge _ _)) by done. case_bool_decide; [by subst|].
  rewrite length_chunks in * by (unfold FRAGMENT_MAX_BYTES, FRAGMENT_HEADER_SIZE; onion_sizes; lia).
  by rewrite (proj2 (Z.ltb_ge _ _)) by lia.
Qed.

Lemma fragments_of_lookup id msg i f :
  fragments_of id msg !! i = Some f →
  ∃ chunk, message_chunks msg !! i = Some chunk ∧
    f = mkFragment id (Z.of_nat i) (Z.of_nat (length (message_chunks msg)))
          (Z.of_nat (length msg)) chunk.
Proof.
  unfold fragments_of. rewrite list_lookup_imap.
  destruct (message_chunks msg !! i) as [chunk|]; simpl; naive_solver.
Qed.

Lemma message_chunk_bounds msg chunk :
  chunk ∈ message_chunks msg →
  (length chunk ≤ FRAGMENT_MAX_BYTES)%nat ∧ (msg ≠ [] → chunk ≠ []).
Proof.
  unfold message_chunks. case_bool_decide; [set_solver by (simpl; lia)|].
  intros Hc. apply chunks_bounds in Hc;
    [|unfold FRAGMENT_MAX_BYTES, FRAGMENT_HEADER_SIZE; onion_sizes; lia].
  split; [lia|]. intros _ ->. simpl in Hc. lia.
Qed.

(** Every produced fragment passes validation. *)
Lemma fragments_of_valid id msg i f :
  Z.of_nat (length msg) ≤ MAX_MESSAGE_SIZE → fragments_of id msg !! i = Some f →
  Fragment_validate f = Ok tt.
Proof.
  intros Hm Hf. destruct (fragments_of_lookup _ _ _ _ Hf) as (chunk&Hc&->).
  pose proof (message_chunks_count msg Hm). pose proof (lookup_lt_Some _ _ _ Hc).
  destruct (message_chunk_bounds msg chunk) as [Hb Hne]; [by eapply list_elem_of_lookup_2|].
  apply Fragment_validate_ok; cbn [index count total_len frag_bytes]. split_and!; try lia; try done.
  - intros Hz. assert (msg = []) as -> by (destruct msg; [done|simpl in *; lia]).
    unfold message_chunks in *. rewrite bool_decide_eq_true_2 in * by done.
    apply list_lookup_singleton_Some in Hc as [_ <-]. done.
  - intros Hz. apply Hne. intros ->. simpl in *. lia.
Qed.

(** ** Slots *)

(** Bytes held by the filled slots of an entry. *)
Definition slots_received (slots : list (option bytes)) : Z :=
  Z.of_nat (sum_list_with (λ o, length (default [] o)) slots).

Lemma slots_received_insert slots i c :
  slots !! i = Some None →
  slots_received (<[i := Some c]> slots) = slots_received slots + Z.of_nat (length c).
Proof.
  unfold slots_received. revert i.
  induction slots as [|s slots IH]; intros [|i] Hi; simplify_eq/=; [lia|].
  rewrite !Nat2Z.inj_add, (IH i) by done. lia.
Qed.

Lemma slots_received_replicate n : slots_received (replicate n None) = 0.
Proof. unfold slots_received. induction n; simpl in *; lia. Qed.

Lemma slots_received_nonneg slots : 0 ≤ slots_received slots.
Proof. unfold slots_received. lia. Qed.

Lemma slots_open slots :
  existsb (λ s : option bytes, bool_decide (s = None)) slots = true ↔
  ∃ i, slots !! i = Some None.
Proof.
  rewrite existsb_exists. split.
  - intros (s&Hs&Hn). breflect. subst. apply list_elem_of_In, list_elem_of_lookup in Hs. done.
  - intros [i Hi]. exists None. split; [by eapply list_elem_of_In, list_elem_of_lookup_2|done].
Qed.

(** ** Reassembly of one message *)

Section reassembly.
Context (id msg : bytes) (Hmsg : Z.of_nat (length msg) ≤ MAX_MESSAGE_SIZE).

Let cs := message_chunks msg.
Let n := length cs.

(** The [i]-th fragment, and the slots of an entry that holds the fragments
    listed in [S]. *)
Definition frag (i : nat) : Fragment :=
  mkFragment id (Z.of_nat i) (Z.of_nat n) (Z.of_nat (length msg)) (default [] (cs !! i)).

Definition slots_of (S : list nat) : list (option bytes) :=
  (λ i, if decide (i ∈ S) then cs !! i else None) <$> seq 0 n.

Definition entry_of (S : list nat) : PartialMessage :=
  mkPartialMessage (Z.of_nat n) (Z.of_nat (length msg)) (slots_received (slots_of S)) (slots_of S).

Definition tracked (m : Reassembler) (S : list nat) : Prop :=
  m !! id = if decide (S = []) then None else Some (entry_of S).

Lemma fragments_of_frag : fragments_of id msg = frag <$> seq 0 n.
Proof.
  apply list_eq. intros i. unfold fragments_of. fold cs n.
  rewrite list_lookup_imap, list_lookup_fmap. destruct (decide (i < n)%nat).
  - rewrite lookup_seq_lt by done. destruct (lookup_lt_is_Some_2 cs i) as [c Hc]; [done|].
    rewrite Hc. cbn. unfold frag. by rewrite Hc.
  - rewrite lookup_seq_ge by lia. by rewrite lookup_ge_None_2 by lia.
Qed.

Lemma slots_of_lookup S i :
  (i < n)%nat → slots_of S !! i = Some (if decide (i ∈ S) then cs !! i else None).
Proof. intros. unfold slots_of. by rewrite list_lookup_fmap, lookup_seq_lt. Qed.

Lemma length_slots_of S : length (slots_of S) = n.
Proof. unfold slots_of. by rewrite length_fmap, length_seq. Qed.

Lemma slots_of_nil : slots_of [] = replicate n None.
Proof.
  apply list_eq. intros i. destruct (decide (i < n)%nat).
  - by rewrite slots_of_lookup, lookup_replicate_2.
  - rewrite !lookup_ge_None_2; rewrite ?length_slots_of, ?length_replicate; lia || done.
Qed.

Lemma slots_of_insert S i c :
  cs !! i = Some c → <[i := Some c]> (slots_of S) = slots_of (i :: S).
Proof.
  intros Hc. pose proof (lookup_lt_Some _ _ _ Hc) as Hi. fold n in Hi.
  apply list_eq. intros j. destruct (decide (j < n)%nat) as [Hj|Hj].
  - rewrite slots_of_lookup by done. destruct (decide (i = j)) as [->|].
    + rewrite list_lookup_insert_eq by (by rewrite length_slots_of).
      rewrite decide_True by set_solver. by rewrite Hc.
    + rewrite list_lookup_insert_ne, slots_of_lookup by done.
      repeat case_decide; try done; set_solver.
  - rewrite !lookup_ge_None_2; rewrite ?length_insert, ?length_slots_of; try lia; done.
Qed.

Lemma slots_of_full S :
  (∀ i, (i < n)%nat → i ∈ S) → slots_of S = Some <$> cs.
Proof.
  intros HS. apply list_eq. intros i. rewrite list_lookup_fmap.
  destruct (decide (i < n)%nat) as [Hi|Hi].
  - rewrite slots_of_lookup, decide_True by auto.
    destruct (lookup_lt_is_Some_2 cs i Hi) as [c ->]. done.
  - rewrite !lookup_ge_None_2; rewrite ?length_slots_of; fold n; lia || done.
Qed.

Lemma slots_received_full l : slots_received (Some <$> l) = Z.of_nat (length (concat l)).
Proof.
  unfold slots_received. induction l as [|c l IH]; csimpl; [done|].
  rewrite length_app. lia.
Qed.

Lemma slots_received_mono (f g : nat → option bytes) l :
  (∀ i, i ∈ l → f i = None ∨ f i = g i) →
  slots_received (f <$> l) ≤ slots_received (g <$> l).
Proof.
  unfold slots_received. intros Hfg. apply inj_le.
  induction l as [|i l IH]; csimpl; [done|]. apply Nat.add_le_mono; [|set_solver].
  destruct (Hfg i) as [-> | ->]; [set_solver|simpl; lia|done].
Qed.

Lemma slots_received_le S : slots_received (slots_of S) ≤ Z.of_nat (length msg).
Proof.
  rewrite <- (concat_message_chunks msg), <- slots_received_full. fold cs.
  rewrite <- (slots_of_full (seq 0 n)) by (intros; apply elem_of_seq; lia).
  apply slots_received_mono. intros i Hi. rewrite (decide_True (P := i ∈ seq 0 n)) by done.
  case_decide; auto.
Qed.

Lemma frag_message_id i : message_id (frag i) = id.
Proof. done. Qed.

Lemma frag_valid i : (i < n)%nat → Fragment_validate (frag i) = Ok tt.
Proof using Hmsg.
  intros Hi. apply (fragments_of_valid id msg i); [done|].
  by rewrite fragments_of_frag, list_lookup_fmap, lookup_seq_lt.
Qed.

(** The entry an expected fragment finds, whether or not it is the first. *)
Lemma tracked_entry m S :
  tracked m S →
  default (mkPartialMessage (Z.of_nat n) (Z.of_nat (length msg)) 0
             (replicate (Z.to_nat (Z.of_nat n)) None)) (m !! id) = entry_of S.
Proof.
  unfold tracked. intros ->. case_decide; [subst|done].
  unfold entry_of. by rewrite slots_of_nil, slots_received_replicate, Nat2Z.id.
Qed.

(** One expected fragment of a tracked message. *)
Lemma push_expected m S i :
  tracked m S → (i < n)%nat → i ∉ S → (size m < MAX_INFLIGHT_MESSAGES)%nat ∨ S ≠ [] →
  Reassembler_push m (frag i) =
    if decide (Forall (λ j, j ∈ i :: S) (seq 0 n))
    then (Ok (Some msg), delete id m)
    else (Ok None, <[id := entry_of (i :: S)]> m).
Proof using Hmsg.
  intros Ht Hi HiS Hcap. unfold Reassembler_push. rewrite frag_valid by done.
  destruct (lookup_lt_is_Some_2 cs i Hi) as [c Hc].
  cbn [message_id index count total_len frag_bytes frag]. rewrite Hc.
  change (default [] (Some c)) with c.
  replace (negb _ && _) with false; cycle 1.
  { symmetry. apply andb_false_iff. destruct Hcap as [Hcap|HS]; [right; apply Nat.leb_gt, Hcap|].
    left. apply negb_false_iff, bool_decide_eq_true. rewrite Ht, decide_False by done. done. }
  rewrite (tracked_entry m S) by done. cbv zeta. cbn [entry_of pm_count pm_total_len fragments received_bytes].
  rewrite !Z.eqb_refl. cbn [negb orb]. rewrite Nat2Z.id, slots_of_lookup, decide_False by done.
  rewrite (slots_of_insert S i c) by done.
  pose proof (slots_received_le (i :: S)) as Hle.
  rewrite <- (slots_of_insert S i c), slots_received_insert in Hle
    by (rewrite ?slots_of_lookup, ?decide_False; done).
  unfold MAX_MESSAGE_SIZE in Hmsg.
  rewrite (proj2 (checked_add_Some _ _ (slots_received (slots_of (i :: S))))); cycle 1.
  { rewrite <- (slots_of_insert S i c), slots_received_insert
      by (rewrite ?slots_of_lookup, ?decide_False; done). unfold U64_MAX. lia. }
  rewrite (proj2 (Z.ltb_ge _ _)) by apply slots_received_le.
  rewrite !insert_insert_eq. case_decide as Hall.
  - rewrite Forall_forall in Hall.
    rewrite slots_of_full by (intros; apply Hall, elem_of_seq; lia).
    replace (existsb _ _) with false; cycle 1.
    { symmetry. apply not_true_iff_false. rewrite slots_open. intros [j Hj].
      rewrite list_lookup_fmap in Hj. by destruct (cs !! j). }
    rewrite slots_received_full. unfold cs at 1. rewrite concat_message_chunks, Z.eqb_refl.
    cbn [negb]. rewrite delete_insert_eq. do 3 f_equal.
    transitivity (concat cs); [f_equal|apply concat_message_chunks].
    clear. induction cs as [|x l IH]; csimpl; by rewrite ?IH.
  - replace (existsb _ _) with true; [done|]. symmetry. apply slots_open.
    apply not_Forall_Exists in Hall; [|solve_decision].
    apply Exists_exists in Hall as (j&Hj&HjS). apply elem_of_seq in Hj.
    exists j. by rewrite slots_of_lookup, decide_False by (lia || done).
Qed.

Lemma push_other m f :
  message_id f ≠ id → (Reassembler_push m f).2 !! id = m !! id.
Proof.
  intros Hid. unfold Reassembler_push.
  repeat (case_match; try done); cbn [snd];
    rewrite ?lookup_delete_ne, ?lookup_insert_ne; done.
Qed.

Lemma push_dom m f :
  dom (Reassembler_push m f).2 ⊆ dom m ∪ {[message_id f]}.
Proof.
  unfold Reassembler_push.
  repeat (case_match; try (cbn [snd]; set_solver)).
Qed.

Lemma push_all_cons m f fs :
  push_all m (f :: fs) =
    ((Reassembler_push m f).1 :: (push_all (Reassembler_push m f).2 fs).1,
     (push_all (Reassembler_push m f).2 fs).2).
Proof.
  simpl. destruct (Reassembler_push m f). simpl. by destruct (push_all _ fs).
Qed.

(** Identifiers in use after a push stay within those known before. *)
Lemma push_ids m f fs :
  (size (dom m ∪ list_to_set (message_id <$> f :: fs)) ≤ MAX_INFLIGHT_MESSAGES)%nat →
  (size (dom (Reassembler_push m f).2 ∪ list_to_set (message_id <$> fs) : gset bytes)
     ≤ MAX_INFLIGHT_MESSAGES)%nat.
Proof.
  intros Hs. etrans; [|apply Hs]. apply subseteq_size. pose proof (push_dom m f). set_solver.
Qed.

Lemma outcomes_for_cons m f fs :
  outcomes_for id (f :: fs) (push_all m (f :: fs)).1 =
    (if decide (message_id f = id) then [(Reassembler_push m f).1] else []) ++
    outcomes_for id fs (push_all (Reassembler_push m f).2 fs).1.
Proof.
  unfold outcomes_for. rewrite push_all_cons. cbn [fst zip zip_with].
  rewrite filter_cons. cbn [fst]. by case_decide.
Qed.

Lemma push_all_others fs m :
  filter (λ f, message_id f = id) fs = [] →
  outcomes_for id fs (push_all m fs).1 = [] ∧ (push_all m fs).2 !! id = m !! id.
Proof.
  revert m. induction fs as [|f fs IH]; intros m Hf; [done|].
  rewrite filter_cons in Hf. case_decide as Hid; [done|].
  rewrite outcomes_for_cons, decide_False, push_all_cons by done. cbn [snd app].
  destruct (IH (Reassembler_push m f).2 Hf) as [-> ->]. split; [done|by apply push_other].
Qed.

Lemma push_all_expected fs m S l :
  filter (λ f, message_id f = id) fs = frag <$> l → l ≠ [] →
  NoDup l → (∀ i, i ∈ l → (i < n)%nat ∧ i ∉ S) → (∀ i, (i < n)%nat → i ∈ l ++ S) →
  tracked m S →
  (size (dom m ∪ list_to_set (message_id <$> fs)) ≤ MAX_INFLIGHT_MESSAGES)%nat →
  outcomes_for id fs (push_all m fs).1
    = replicate (length l - 1) (Ok None) ++ [Ok (Some msg)] ∧
  (push_all m fs).2 !! id = None.
Proof using Hmsg.
  revert m S l. induction fs as [|f fs IH]; intros m S l Hf Hne Hnd Hin Hall Ht Hcap.
  { by destruct l. }
  rewrite filter_cons in Hf. rewrite outcomes_for_cons, push_all_cons. cbn [snd].
  pose proof (push_ids m f fs Hcap) as Hcap'. case_decide as Hid; cycle 1.
  { cbn [app]. apply (IH _ S); try done. red. rewrite push_other by done. apply Ht. }
  destruct l as [|i l]; [done|]. injection Hf as Hf1 Hf. subst f.
  destruct (Hin i) as [Hi HiS]; [by left|].
  assert ((size m < MAX_INFLIGHT_MESSAGES)%nat ∨ S ≠ []) as Hroom.
  { destruct (decide (S = [])) as [->|]; [left|by right].
    red in Ht. rewrite decide_True in Ht by done.
    apply not_elem_of_dom in Ht. eapply Nat.lt_le_trans; [|apply Hcap].
    rewrite <- (size_dom (D := gset bytes) m). apply subset_size. rewrite fmap_cons. set_solver. }
  rewrite (push_expected m S i) in * by done.
  case_decide as Hd; cbn [fst snd] in *.
  - destruct l as [|j l]; cycle 1.
    { exfalso. rewrite Forall_forall in Hd. destruct (Hin j) as [Hj HjS]; [set_solver|].
      apply NoDup_cons in Hnd as [Hij _]. specialize (Hd j). rewrite elem_of_seq in Hd. set_solver by lia. }
    destruct (push_all_others fs (delete id m)) as [-> ->]; [done|].
    by rewrite lookup_delete_eq.
  - destruct l as [|j l].
    { exfalso. apply Hd. apply Forall_forall. intros j Hj. apply elem_of_seq in Hj. apply Hall. lia. }
    apply NoDup_cons in Hnd as [Hil Hnd].
    destruct (IH (<[id := entry_of (i :: S)]> m) (i :: S) (j :: l)) as [-> ->]; try done.
    + intros k Hk. destruct (Hin k); set_solver.
    + intros k Hk. specialize (Hall k Hk). set_solver.
    + red. by rewrite lookup_insert_eq.
    + split; [|done]. cbn [length]. by rewrite Nat.sub_succ, !Nat.sub_0_r.
Qed.

End reassembly.

(** ** Invariant *)

Definition entry_inv (e : PartialMessage) : Prop :=
  1 ≤ pm_count e ≤ MAX_FRAGMENT_COUNT ∧ Z.of_nat (length (fragments e)) = pm_count e ∧
  received_bytes e = slots_received (fragments e) ∧
  received_bytes e ≤ pm_total_len e ≤ MAX_MESSAGE_SIZE.

Definition reassembler_inv (m : Reassembler) : Prop :=
  (size m ≤ MAX_INFLIGHT_MESSAGES)%nat ∧ map_Forall (λ _, entry_inv) m.

(** Bytes held by all the incomplete messages. *)
Definition held (m : Reassembler) : Z := map_fold (λ _ e acc, slots_received (fragments e) + acc) 0 m.

Lemma fresh_entry_inv f :
  Fragment_validate f = Ok tt → 0 ≤ count f → 0 ≤ total_len f →
  entry_inv (mkPartialMessage (count f) (total_len f) 0 (replicate (Z.to_nat (count f)) None)).
Proof.
  intros (?&?&?&?&?&?)%Fragment_validate_ok ??. unfold entry_inv; cbn.
  rewrite length_replicate, slots_received_replicate, Z2Nat.id by lia. lia.
Qed.

(** The entry a valid fragment works on satisfies the invariant and so has
    the slot the fragment names. *)
Lemma push_slot m f :
  reassembler_inv m → Fragment_wf f → Fragment_validate f = Ok tt →
  let e := default (mkPartialMessage (count f) (total_len f) 0
                      (replicate (Z.to_nat (count f)) None)) (m !! message_id f) in
  entry_inv e ∧ (pm_count e = count f → is_Some (fragments e !! Z.to_nat (index f))).
Proof.
  intros [_ Hm] (_&[Hi _]&[Hc _]&[Ht _]) Hv e.
  assert (entry_inv e) as He.
  { unfold e. destruct (m !! message_id f) eqn:E; [by apply (Hm _ _ E)|by apply fresh_entry_inv]. }
  split; [done|]. intros Hcount. destruct He as (?&?&?).
  apply Fragment_validate_ok in Hv as (?&?&?&?). apply lookup_lt_is_Some. lia.
Qed.

Lemma reassembler_inv_insert m i e :
  reassembler_inv m → entry_inv e → is_Some (m !! i) ∨ (size m < MAX_INFLIGHT_MESSAGES)%nat →
  reassembler_inv (<[i := e]> m).
Proof.
  intros [Hs Hm] He Hcap. split; [|by apply map_Forall_insert_2].
  destruct (m !! i) eqn:E; [by rewrite map_size_insert_Some by eauto|].
  rewrite map_size_insert_None by done. destruct Hcap as [[]|]; [congruence|lia].
Qed.

Lemma reassembler_inv_delete m i : reassembler_inv m → reassembler_inv (delete i m).
Proof.
  intros [Hs Hm]. split; [|by apply map_Forall_delete].
  rewrite map_size_delete. destruct (m !! i); simpl; lia.
Qed.

Lemma push_inv m f :
  reassembler_inv m → Fragment_wf f → reassembler_inv (Reassembler_push m f).2.
Proof.
  intros Hm Hf. unfold Reassembler_push. destruct (Fragment_validate f) as [[]|] eqn:Hv; [|done].
  destruct (push_slot m f Hm Hf Hv) as [He Hslot]. cbv zeta in *.
  set (e := default _ _) in *.
  destruct (negb _ && _) eqn:Hcap; [done|].
  assert (is_Some (m !! message_id f) ∨ (size m < MAX_INFLIGHT_MESSAGES)%nat) as Hroom.
  { apply andb_false_iff in Hcap as [Hcap|Hcap]; breflect; eauto. }
  assert (reassembler_inv (<[message_id f := e]> m)) as Hm' by by apply reassembler_inv_insert.
  destruct (negb _ || _) eqn:Hsame; [done|].
  destruct (fragments e !! _) as [[|]|] eqn:Eslot; [done| |done].
  destruct (checked_add _ _) as [r|] eqn:Er; [|done].
  destruct (Z.ltb_spec (pm_total_len e) r) as [|Hr]; [done|].
  assert (reassembler_inv (<[message_id f :=
     mkPartialMessage (pm_count e) (pm_total_len e) r
       (<[Z.to_nat (index f) := Some (frag_bytes f)]> (fragments e))]> (<[message_id f := e]> m))) as Hm''.
  { apply reassembler_inv_insert; [done| |rewrite lookup_insert_eq; eauto].
    destruct He as (?&?&Hrec&?). apply checked_add_Some in Er as [-> _].
    unfold entry_inv; cbn. rewrite length_insert, slots_received_insert by done. lia. }
  repeat case_match; try done. by apply reassembler_inv_delete.
Qed.

Lemma push_all_inv fs m :
  reassembler_inv m → Forall Fragment_wf fs → reassembler_inv (push_all m fs).2.
Proof.
  intros Hm Hfs. revert m Hm. induction Hfs as [|f fs Hf _ IH]; intros m Hm; [done|].
  rewrite push_all_cons. by apply IH, push_inv.
Qed.

Lemma held_bound m : reassembler_inv m → held m ≤ Z.of_nat (size m) * MAX_MESSAGE_SIZE.
Proof.
  intros [_ Hm]. unfold held. revert Hm.
  apply (map_fold_weak_ind (λ r m, map_Forall (λ _, entry_inv) m → r ≤ Z.of_nat (size m) * MAX_MESSAGE_SIZE)).
  - done.
  - intros i e m' r Hi IH Hall. apply map_Forall_insert in Hall as [(?&?&?&?) Hall]; [|done].
    rewrite map_size_insert_None by done. specialize (IH Hall). unfold MAX_MESSAGE_SIZE in *. lia.
Qed.

(** ** Entries that are never freed *)

Definition stuck (e : PartialMessage) : Prop :=
  Z.of_nat (length (fragments e)) = pm_count e ∧ ∀ i, fragments e !! i ≠ Some None.

Lemma push_stuck m f i e :
  m !! i = Some e → stuck e → (Reassembler_push m f).2 !! i = Some e.
Proof.
  intros Hi [Hlen Hfull]. destruct (decide (message_id f = i)) as [<-|Hid]; [|by rewrite push_other].
  unfold Reassembler_push. rewrite Hi. cbn [default from_option]. unfold Datatypes.id.
  repeat (case_match; cbn [snd]; rewrite ?lookup_insert_eq; try done).
  all: naive_solver.
Qed.

Lemma push_all_stuck fs m i e :
  m !! i = Some e → stuck e → (push_all m fs).2 !! i = Some e.
Proof.
  revert m. induction fs as [|f fs IH]; intros m Hi He; [done|].
  rewrite push_all_cons. apply IH; [by apply push_stuck|done].
Qed.

(** Sixteen one-byte fragments that announce two bytes. *)
Definition short_fragment (k : nat) : Fragment :=
  mkFragment (be_bytes 16 (Z.of_nat k)) 0 1 2 [x41].
Definition short_fragments : list Fragment := short_fragment <$> seq 0 16.
Definition short_entry : PartialMessage := mkPartialMessage 1 2 1 [Some [x41]].

Lemma short_entry_stuck : stuck short_entry.
Proof. split; [done|]. by intros [|[|i]]. Qed.

Lemma push_all_short :
  Forall (λ k, (push_all ∅ short_fragments).2 !! be_bytes 16 (Z.of_nat k) = Some short_entry) (seq 0 16).
Proof. apply (bool_decide_unpack _). vm_compute. exact I. Qed.

Lemma empty_inv : reassembler_inv ∅.
Proof. split; [unfold MAX_INFLIGHT_MESSAGES; rewrite map_size_empty; lia|done]. Qed.

Lemma short_dom fs :
  Forall Fragment_wf fs →
  let m := (push_all (push_all ∅ short_fragments).2 fs).2 in
  dom m = list_to_set (message_id <$> short_fragments) ∧ size m = MAX_INFLIGHT_MESSAGES.
Proof.
  intros Hfs m. set (ids := list_to_set (message_id <$> short_fragments) : gset bytes).
  assert (size ids = 16%nat) as Hids by by vm_compute.
  assert (reassembler_inv m) as [Hs _].
  { apply push_all_inv; [apply push_all_inv; [apply empty_inv|]|done].
    unfold short_fragments. apply Forall_fmap, Forall_true. intros k.
    split; [apply length_be_bytes|]. cbn. unfold in_u32, U32_MAX. lia. }
  assert (ids ⊆ dom m) as Hsub.
  { intros i Hi. unfold ids in Hi. rewrite elem_of_list_to_set in Hi.
    unfold short_fragments in Hi. rewrite <- list_fmap_compose in Hi.
    apply list_elem_of_fmap in Hi as (k&->&Hk).
    pose proof (proj1 (Forall_forall _ _) push_all_short k Hk) as He.
    eapply elem_of_dom_2, push_all_stuck, short_entry_stuck. apply He. }
  rewrite <- (size_dom (D := gset bytes) m) in *. pose proof (subseteq_size _ _ Hsub).
  split; [|unfold MAX_INFLIGHT_MESSAGES in *; lia].
  symmetry. apply set_subseteq_size_eq; [done|]. unfold MAX_INFLIGHT_MESSAGES in *. lia.
Qed.

(** ** Properties *)

(** The fragment codec is exact: a byte string decodes to a fragment
    exactly when the fragment (a 16-byte identifier and [u32] fields) encodes
    to it. *)
Theorem fragment_codec_exact f v :
  Fragment_decode v = Ok f ↔ Fragment_wf f ∧ Fragment_encode f = Ok v.
Proof.
  split; [apply Fragment_encode_decode|]. intros [Hf He]. by apply Fragment_decode_encode.
Qed.

(** C17: a fragmented message is reassembled from its fragments whatever their
    order: if each of its fragments arrives once, nothing else arrives under its
    identifier, and no more than sixteen identifiers are in use, counting the
    entries that were there and every message of which a fragment arrives, then
    whatever fragments of the other messages arrive in between, every fragment
    of the message but the last one to arrive is answered with [None], the last
    one with the whole message, and its entry is freed. *)
Theorem fragments_reassemble id msg frags m fs :
  fragment_message id msg = Ok frags → m !! id = None →
  filter (λ f, message_id f = id) fs ≡ₚ frags →
  (size (dom m ∪ list_to_set (message_id <$> fs)) ≤ MAX_INFLIGHT_MESSAGES)%nat →
  outcomes_for id fs (push_all m fs).1
    = replicate (length frags - 1) (Ok None) ++ [Ok (Some msg)] ∧
  (push_all m fs).2 !! id = None.
Proof.
  intros Hmsg Hid Hperm Hcap.
  assert (Z.of_nat (length msg) ≤ MAX_MESSAGE_SIZE) as Hle.
  { unfold fragment_message in Hmsg. case_match eqn:E; [done|]. by breflect. }
  rewrite fragment_message_ok in Hmsg by done. apply Ok_inj in Hmsg. subst frags.
  rewrite fragments_of_frag in *. rewrite length_fmap, length_seq.
  apply Permutation_map_inv in Hperm as (l&Hf&Hl).
  pose proof (message_chunks_count msg Hle) as Hn.
  replace (length (message_chunks msg)) with (length l)
    by (by rewrite <- (Permutation_length Hl), length_seq).
  apply (push_all_expected id msg Hle fs m [] l); try done.
  - intros ->. apply Permutation_sym, Permutation_nil in Hl.
    by apply (f_equal length) in Hl; rewrite length_seq in Hl; simpl in Hl; lia.
  - rewrite <- Hl. apply NoDup_seq.
  - intros i Hi. rewrite <- Hl, elem_of_seq in Hi. split; [lia|set_solver].
  - intros i Hi. rewrite app_nil_r, <- Hl, elem_of_seq. lia.
Qed.

(** C34: whatever fragments arrive, the reassembler keeps at most sixteen
    entries, every entry has one slot per announced fragment and counts the
    bytes it holds, which never exceed its announced length nor 512 KiB, so
    that the bytes held in total stay within 8 MiB. *)
Theorem reassembler_bounded fs :
  Forall Fragment_wf fs →
  reassembler_inv (push_all ∅ fs).2 ∧ held (push_all ∅ fs).2 ≤ 16 * MAX_MESSAGE_SIZE.
Proof.
  intros Hfs. assert (reassembler_inv (push_all ∅ fs).2) as Hinv.
  { apply push_all_inv; [|done]. split; [unfold MAX_INFLIGHT_MESSAGES; rewrite map_size_empty; lia|done]. }
  split; [done|]. pose proof (held_bound _ Hinv). destruct Hinv as [Hs _].
  unfold MAX_INFLIGHT_MESSAGES, MAX_MESSAGE_SIZE in *. lia.
Qed.

(** C36: a message whose slots all fill up with fewer bytes than announced is
    refused but keeps its entry for good: after sixteen such one-fragment
    messages, whatever arrives later, every new message is refused with
    [FragmentCapacity]. *)
Theorem short_messages_exhaust_reassembler fs f :
  Forall Fragment_wf fs → Fragment_validate f = Ok tt →
  message_id f ∉ message_id <$> short_fragments →
  let m := (push_all (push_all ∅ short_fragments).2 fs).2 in
  Reassembler_push m f = (Err FragmentCapacity, m).
Proof.
  intros Hfs Hv Hid m. unfold Reassembler_push. rewrite Hv.
  destruct (short_dom fs Hfs) as [Hdom Hsize]. fold m in Hdom, Hsize.
  rewrite bool_decide_eq_false_2; [by rewrite Hsize|].
  rewrite <- elem_of_dom, Hdom. set_solver.
Qed.

(** ** Witnesses *)

Definition sample_id : bytes := replicate 16 x07.
Definition sample_message : bytes := replicate 930 x41.
Definition other_fragment : Fragment := mkFragment (replicate 16 x09) 1 3 30 [x42; x43].
(** The two fragments of [sample_message] in reverse order, with a fragment of
    another message in between. *)
Definition sample_arrivals : list Fragment :=
  [frag sample_id sample_message 1; other_fragment; frag sample_id sample_message 0].

Lemma fragments_reassemble_witness :
  outcomes_for sample_id sample_arrivals (push_all ∅ sample_arrivals).1
    = [Ok None; Ok (Some sample_message)] ∧
  (push_all ∅ sample_arrivals).2 !! sample_id = None.
Proof.
  apply (fragments_reassemble sample_id sample_message
           [frag sample_id sample_message 0; frag sample_id sample_message 1] ∅ sample_arrivals).
  - vm_compute. reflexivity.
  - reflexivity.
  - apply Permutation_swap.
  - apply (bool_decide_unpack _). vm_compute. exact I.
Defined.

Lemma reassembler_bounded_witness :
  reassembler_inv (push_all ∅ [other_fragment]).2 ∧
  held (push_all ∅ [other_fragment]).2 ≤ 16 * MAX_MESSAGE_SIZE.
Proof.
  apply reassembler_bounded. apply Forall_singleton. split; [reflexivity|].
  cbn. unfold in_u32, U32_MAX. lia.
Defined.

Lemma short_messages_exhaust_reassembler_witness :
  (Reassembler_push (push_all (push_all ∅ short_fragments).2 [other_fragment]).2
     (frag sample_id sample_message 0)).1 = Err FragmentCapacity.
Proof.
  rewrite (short_messages_exhaust_reassembler [other_fragment] (frag sample_id sample_message 0)).
  - reflexivity.
  - apply Forall_singleton. split; [reflexivity|]. cbn. unfold in_u32, U32_MAX. lia.
  - vm_compute. reflexivity.
  - apply (bool_decide_unpack _). vm_compute. exact I.
Defined.
