(* ===== verification/Core.v ===== *)
(** Domain types shared by the subsystems (crates/peerless-core/src/lib.rs):
    content and node identifiers with their textual forms, tasks, requirements,
    policies and capabilities. *)

From S2P Require Import Prelude External.
From Stdlib Require Import Strings.Byte.
From Stdlib Require Import Floats.SpecFloat.

(** [value.strip_prefix(prefix)]. *)
Fixpoint strip_prefix (p s : string) : option string :=
  match p, s with
  | EmptyString, _ => Some s
  | String a p, String b s => if Ascii.eqb a b then strip_prefix p s else None
  | String _ _, EmptyString => None
  end.

Lemma strip_prefix_app p s : strip_prefix p (p +:+ s) = Some s.
Proof. induction p as [|a p IH]; [done|]. simpl. by rewrite Ascii.eqb_refl. Qed.

Lemma strip_prefix_inv p s r : strip_prefix p s = Some r → s = p +:+ r.
Proof.
  revert s. induction p as [|a p IH]; intros s H; simpl in *; [naive_solver|].
  destruct s as [|b s]; [done|]. destruct (Ascii.eqb_spec a b); [subst|done].
  by rewrite (IH s H).
Qed.

(** A [ContentId] holds a 32-byte digest, a [NodeId] any byte vector; both are
    ordered as byte strings. *)
Abbreviation ContentId := bytes.
Abbreviation NodeId := bytes.

Definition ContentId_wf (c : ContentId) : Prop := length c = 32%nat.

Inductive ContentIdError := UnsupportedAlgorithm | InvalidDigest.
Inductive NodeIdError := mkNodeIdError.

#[export] Instance ContentIdError_eq_dec : EqDecision ContentIdError.
Proof. solve_decision. Defined.

Definition ALGORITHM : string := "sha256".

Section ids.
Context `{Sha256, Hex}.

Definition ContentId_of (b : bytes) : ContentId := sha256 b.
Definition ContentId_verify (c : ContentId) (b : bytes) : bool := bool_decide (c = ContentId_of b).
Definition ContentId_hex_digest (c : ContentId) : string := hex_encode c.

(** [Display] and [FromStr]. *)
Definition ContentId_to_string (c : ContentId) : string := ALGORITHM +:+ ":" +:+ hex_encode c.
Definition ContentId_from_str (value : string) : result ContentId ContentIdError :=
  let? digest := ok_or (strip_prefix "sha256:" value) UnsupportedAlgorithm in
  let? b := ok_or (hex_decode digest) InvalidDigest in
  if (length b =? 32)%nat then Ok b else Err InvalidDigest.

Definition NodeId_derive (public_key : bytes) : NodeId := sha256 public_key.
Definition NodeId_to_string (n : NodeId) : string := hex_encode n.
Definition NodeId_from_str (value : string) : result NodeId NodeIdError :=
  let? b := ok_or (hex_decode value) mkNodeIdError in
  if negb (length b =? 32)%nat then Err mkNodeIdError else Ok b.

Lemma ContentId_of_wf b : ContentId_wf (ContentId_of b).
Proof. apply sha256_length. Qed.

Lemma NodeId_derive_length k : length (NodeId_derive k) = 32%nat.
Proof. apply sha256_length. Qed.

Lemma ContentId_verify_spec c b : ContentId_verify c b = true ↔ c = ContentId_of b.
Proof. apply bool_decide_eq_true. Qed.

(** Bytes stored under one content identifier agree, or SHA-256 collides. *)
Lemma ContentId_verify_unique c b1 b2 :
  ContentId_verify c b1 = true → ContentId_verify c b2 = true → b1 = b2 ∨ collision b1 b2.
Proof.
  rewrite !ContentId_verify_spec. unfold ContentId_of, collision. intros -> E.
  destruct (decide (b1 = b2)); auto.
Qed.

Lemma ContentId_from_to_string c :
  ContentId_wf c → ContentId_from_str (ContentId_to_string c) = Ok c.
Proof.
  intros Hc. unfold ContentId_from_str, ContentId_to_string.
  change (ALGORITHM +:+ ":" +:+ hex_encode c) with ("sha256:" +:+ hex_encode c).
  rewrite strip_prefix_app. simpl. rewrite hex_decode_encode. simpl. by rewrite Hc.
Qed.

Lemma ContentId_from_str_wf s c :
  ContentId_from_str s = Ok c → ContentId_wf c ∧ ∃ h, s = "sha256:" +:+ h ∧ hex_decode h = Some c.
Proof.
  unfold ContentId_from_str. intros H1. inv_ok. case_match eqn:E1; inv_ok. breflect.
  apply strip_prefix_inv in E. subst. eauto.
Qed.

Lemma NodeId_from_to_string n :
  NodeId_from_str (NodeId_to_string n) =
    if (length n =? 32)%nat then Ok n else Err mkNodeIdError.
Proof.
  unfold NodeId_from_str, NodeId_to_string. rewrite hex_decode_encode. simpl. by destruct (length n =? 32)%nat.
Qed.

End ids.

(** ** Tasks *)

Inductive NetworkRequirement := NetNone | NetOptional | NetRequired.

Inductive VerificationPolicy :=
| TrustExecutor
| Replicate (copies : Z)
| Quorum (executions required_matches : Z).

Record Requirements := mkRequirements {
  minimum_memory : Z;
  minimum_storage : Z;
  runtime : string;
  estimated_cpu_cost : Z;
  network : NetworkRequirement;
}.

Record Task := mkTask {
  task_id : string;
  component : ContentId;
  input : ContentId;
  requirements : Requirements;
  verification : VerificationPolicy;
  deadline : option Z;
}.

Record ReplicationPolicy := mkReplicationPolicy {
  minimum_replicas : Z;
  target_replicas : Z;
}.

Definition ReplicationPolicy_validate (p : ReplicationPolicy) : bool :=
  (0 <? minimum_replicas p) && (minimum_replicas p <=? target_replicas p).

Inductive TaskState :=
| Created
| Placing
| Offered (node : NodeId)
| Accepted (node : NodeId)
| Running (node : NodeId)
| Verifying
| Completed (output : ContentId)
| Failed (reason : string).

Inductive PowerState := Ac | Battery | Unknown.

Record NodeCapability := mkNodeCapability {
  cap_node : NodeId;
  cpu_cores : Z;
  available_cpu : spec_float;
  available_memory : Z;
  available_storage : Z;
  runtimes : list string;
  power : PowerState;
  load : spec_float;
  task_slots : Z;
  cap_expires_at : Z;
}.

Definition supports (c : NodeCapability) (rt : string) : bool :=
  existsb (λ candidate, bool_decide (candidate = rt)) (runtimes c).

Definition is_fresh_at (c : NodeCapability) (now : Z) : bool := now <? cap_expires_at c.

#[export] Instance NetworkRequirement_eq_dec : EqDecision NetworkRequirement.
Proof. solve_decision. Defined.
#[export] Instance VerificationPolicy_eq_dec : EqDecision VerificationPolicy.
Proof. solve_decision. Defined.
#[export] Instance Requirements_eq_dec : EqDecision Requirements.
Proof. solve_decision. Defined.
#[export] Instance Task_eq_dec : EqDecision Task.
Proof. solve_decision. Defined.
#[export] Instance TaskState_eq_dec : EqDecision TaskState.
Proof. solve_decision. Defined.
#[export] Instance PowerState_eq_dec : EqDecision PowerState.
Proof. solve_decision. Defined.

Lemma supports_spec c rt : supports c rt = true ↔ rt ∈ runtimes c.
Proof.
  unfold supports. rewrite existsb_exists. setoid_rewrite bool_decide_eq_true.
  rewrite list_elem_of_In. naive_solver.
Qed.

(** ** Properties *)

Section properties.
Context `{Sha256, Hex}.

(** Content and node identifiers survive printing and parsing, parsing
    yields only 32-byte identifiers in a text of the announced form, and two
    byte strings verified against one content identifier are equal unless they
    are a SHA-256 collision. *)
Theorem identifiers_roundtrip :
  (∀ b, ContentId_from_str (ContentId_to_string (ContentId_of b)) = Ok (ContentId_of b)) ∧
  (∀ k, NodeId_from_str (NodeId_to_string (NodeId_derive k)) = Ok (NodeId_derive k)) ∧
  (∀ s c, ContentId_from_str s = Ok c →
     length c = 32%nat ∧ ∃ h, s = "sha256:" +:+ h ∧ hex_decode h = Some c) ∧
  (∀ c b1 b2, ContentId_verify c b1 = true → ContentId_verify c b2 = true →
     b1 = b2 ∨ collision b1 b2).
Proof.
  split_and!.
  - intros b. apply ContentId_from_to_string, ContentId_of_wf.
  - intros k. by rewrite NodeId_from_to_string, NodeId_derive_length.
  - apply ContentId_from_str_wf.
  - apply ContentId_verify_unique.
Qed.

End properties.
