(* ===== verification/Protocol.v ===== *)
(** Node identities, signed envelopes and signed execution records
    (crates/peerless-identity/src/lib.rs and crates/peerless-protocol/src/lib.rs). *)

From S2P Require Import Prelude External Core.
From Stdlib Require Import Strings.Byte.

(** Error messages of the underlying libraries are left out. *)
Inductive IdentityError := IdentityIo | InvalidKey.

Inductive ProtocolError :=
| UnsupportedVersion (version : Z)
| SignerMismatch
| InvalidSignature
| ProtocolIdentity (e : IdentityError)
| ProtocolJson.

#[export] Instance IdentityError_eq_dec : EqDecision IdentityError.
Proof. solve_decision. Defined.
#[export] Instance ProtocolError_eq_dec : EqDecision ProtocolError.
Proof. solve_decision. Defined.

Definition PROTOCOL_VERSION : Z := 1.

(** ** Identities *)

Section identity.
Context `{Sha256, Keys}.

Record NodeIdentity := mkNodeIdentity {
  node_id : NodeId;
  keypair : Keypair;
  public_key : bytes;
}.

(** The identity [load_or_generate] returns for the key pair it loaded or made. *)
Definition identity_of (kp : Keypair) : NodeIdentity :=
  let pk := encode_protobuf (public kp) in mkNodeIdentity (NodeId_derive pk) kp pk.

(** Fields are private and [identity_of] is the only constructor. *)
Definition identity_wf (i : NodeIdentity) : Prop := i = identity_of (keypair i).

Definition identity_sign (i : NodeIdentity) (m : bytes) : result bytes IdentityError :=
  ok_or (keypair_sign (keypair i) m) InvalidKey.

Definition verify (pk m s : bytes) : result bool IdentityError :=
  let? p := ok_or (try_decode_protobuf pk) InvalidKey in Ok (public_verify p m s).

(** A signature that verifies under an encoded public key. *)
Definition signed_by (pk m s : bytes) : Prop :=
  ∃ p, try_decode_protobuf pk = Some p ∧ public_verify p m s = true.

Lemma verify_true pk m s : verify pk m s = Ok true ↔ signed_by pk m s.
Proof.
  unfold verify, signed_by. destruct (try_decode_protobuf pk) as [p|]; simpl.
  - split; [intros [= ?]; eauto|]. intros (?&[= <-]&->). done.
  - split; [done|]. by intros (?&?&_).
Qed.

Lemma sign_signed_by i m s :
  identity_wf i → identity_sign i m = Ok s → signed_by (public_key i) m s.
Proof.
  unfold identity_sign. intros -> Hs. inv_ok. simpl in *.
  exists (public (keypair i)). split; [apply decode_encode_protobuf|by eapply sign_verify].
Qed.

Lemma identity_node_id i : identity_wf i → node_id i = NodeId_derive (public_key i).
Proof. by intros ->. Qed.

(** Two identities with the same node identifier have the same encoded key, or
    their keys collide under SHA-256. *)
Lemma identity_same_id i j :
  identity_wf i → identity_wf j → node_id i = node_id j →
  public_key i = public_key j ∨ collision (public_key i) (public_key j).
Proof.
  intros Hi Hj. rewrite !identity_node_id by done. unfold NodeId_derive, collision.
  destruct (decide (public_key i = public_key j)); auto.
Qed.

End identity.

(** ** Signed envelopes *)

Record SignedEnvelope := mkSignedEnvelope {
  env_version : Z;
  env_signer : NodeId;
  env_public_key : bytes;
  env_payload : bytes;
  env_signature : bytes;
}.

Record ExecutionRecord := mkExecutionRecord {
  rec_task_id : string;
  rec_executor : NodeId;
  rec_component : ContentId;
  rec_input : ContentId;
  rec_output : ContentId;
  execution_hash : ContentId;
  started_at : Z;
  completed_at : Z;
}.

Record SignedExecutionRecord := mkSignedExecutionRecord {
  record : ExecutionRecord;
  rec_signer : NodeId;
  rec_public_key : bytes;
  rec_signature : bytes;
}.

(** The wire messages. *)
Inductive Message :=
| GetCapability
| Capability (c : NodeCapability)
| TaskOffer (task : Task) (requester : NodeId) (expires_at : Z)
| TaskAccept (task_id : string)
| TaskReject (task_id : string) (reason : string)
| TaskCommit (task_id : string)
| TaskStarted (task_id : string) (executor : NodeId)
| TaskError (task_id : string) (reason : string)
| TaskCancel (task_id : string)
| HasContent (id : ContentId)
| CheckContent (id : ContentId)
| GetContent (id : ContentId)
| Content (id : ContentId) (body : bytes)
| ContentStart (id : ContentId) (total_size chunk_size : Z)
| ContentChunk (id : ContentId) (index : Z) (body : bytes) (chunk_hash : ContentId)
| ContentComplete (id : ContentId)
| TaskResult (r : SignedExecutionRecord)
| StateSnapshot (document : string) (snapshot : bytes)
| LedgerBlock (block : bytes).

#[export] Instance ExecutionRecord_eq_dec : EqDecision ExecutionRecord.
Proof. solve_decision. Defined.
#[export] Instance ExecutionRecord_countable : Countable ExecutionRecord.
Proof.
  refine (inj_countable'
    (λ r, (((rec_task_id r, rec_executor r), (rec_component r, rec_input r)),
           ((rec_output r, execution_hash r), (started_at r, completed_at r))))
    (λ '(((a, b), (c, d)), ((e, f), (g, h))), mkExecutionRecord a b c d e f g h) _).
  by intros [].
Defined.

Section protocol.
Context `{Sha256, Keys}.

Definition SignedEnvelope_seal {A} `{Json A} (value : A) (i : NodeIdentity) :
    result SignedEnvelope ProtocolError :=
  let? payload := ok_or (to_vec value) ProtocolJson in
  let? signature := rmap_err ProtocolIdentity (identity_sign i payload) in
  Ok (mkSignedEnvelope PROTOCOL_VERSION (node_id i) (public_key i) payload signature).

Definition open_with_signer {A} `{Json A} (e : SignedEnvelope) :
    result (A * NodeId) ProtocolError :=
  if negb (env_version e =? PROTOCOL_VERSION) then Err (UnsupportedVersion (env_version e))
  else if negb (bool_decide (NodeId_derive (env_public_key e) = env_signer e))
  then Err SignerMismatch
  else
    let? ok := rmap_err ProtocolIdentity
                 (verify (env_public_key e) (env_payload e) (env_signature e)) in
    if negb ok then Err InvalidSignature
    else
      let? value := ok_or (from_slice (env_payload e)) ProtocolJson in
      Ok (value, env_signer e).

Definition SignedEnvelope_open {A} `{Json A} (e : SignedEnvelope) : result A ProtocolError :=
  let? p := open_with_signer e in Ok p.1.

Context `{Json ExecutionRecord}.

Definition SignedExecutionRecord_seal (r : ExecutionRecord) (i : NodeIdentity) :
    result SignedExecutionRecord ProtocolError :=
  let? payload := ok_or (to_vec r) ProtocolJson in
  let? signature := rmap_err ProtocolIdentity (identity_sign i payload) in
  Ok (mkSignedExecutionRecord r (node_id i) (public_key i) signature).

Definition SignedExecutionRecord_verify (s : SignedExecutionRecord) : result bool ProtocolError :=
  if negb (bool_decide (NodeId_derive (rec_public_key s) = rec_signer s))
     || negb (bool_decide (rec_executor (record s) = rec_signer s))
  then Ok false
  else
    let? payload := ok_or (to_vec (record s)) ProtocolJson in
    rmap_err ProtocolIdentity (verify (rec_public_key s) payload (rec_signature s)).

Lemma SignedExecutionRecord_verify_true s :
  SignedExecutionRecord_verify s = Ok true ↔
  rec_signer s = NodeId_derive (rec_public_key s) ∧ rec_executor (record s) = rec_signer s ∧
  ∃ payload, to_vec (record s) = Some payload ∧
    signed_by (rec_public_key s) payload (rec_signature s).
Proof.
  unfold SignedExecutionRecord_verify. split.
  - case_match eqn:E; [done|]. breflect. intros Hv. inv_ok.
    apply verify_true in Hv. eauto.
  - intros (Hd&Hx&p&Hp&Hs). rewrite !bool_decide_eq_true_2 by done. simpl.
    rewrite Hp. simpl. by rewrite (proj2 (verify_true _ _ _) Hs).
Qed.

Lemma open_with_signer_ok {A} `{Json A} (e : SignedEnvelope) (value : A) (n : NodeId) :
  open_with_signer e = Ok (value, n) ↔
  env_version e = PROTOCOL_VERSION ∧ n = env_signer e ∧
  env_signer e = NodeId_derive (env_public_key e) ∧
  signed_by (env_public_key e) (env_payload e) (env_signature e) ∧
  from_slice (env_payload e) = Some value.
Proof.
  unfold open_with_signer. split.
  - repeat case_match; try done. breflect. intros Ho. inv_ok.
    destruct a; simpl in Ho; [|done]. inv_ok. subst.
    rewrite verify_true in *. eauto 10.
  - intros (Hv&->&Hd&Hs&Hf). rewrite Hv, Z.eqb_refl, bool_decide_eq_true_2 by done. simpl.
    rewrite (proj2 (verify_true _ _ _) Hs). simpl. by rewrite Hf.
Qed.

Lemma sealed_record_verify (i : NodeIdentity) (r : ExecutionRecord) (s : SignedExecutionRecord) :
  identity_wf i → SignedExecutionRecord_seal r i = Ok s →
  record s = r ∧ SignedExecutionRecord_verify s = Ok (bool_decide (rec_executor r = node_id i)).
Proof.
  intros Hi Hs. unfold SignedExecutionRecord_seal in Hs. apply rbind_ok in Hs as (payload&Hp&Hs).
  inv_ok. subst. split; [done|]. unfold SignedExecutionRecord_verify.
  cbn [record rec_signer rec_public_key rec_signature].
  rewrite (bool_decide_eq_true_2 (_ = node_id i)) by (symmetry; by apply identity_node_id).
  case_bool_decide; [|done]. simpl. rewrite Hp. simpl.
  by rewrite (proj2 (verify_true _ _ _) (sign_signed_by _ _ _ Hi E)).
Qed.

(** What an identity seals opens to the value, under its own identifier. *)
Lemma sealed_envelope_opens {A} `{Json A, !JsonLaws A} (i : NodeIdentity) (value : A) (e : SignedEnvelope) :
  identity_wf i → SignedEnvelope_seal value i = Ok e → open_with_signer e = Ok (value, node_id i).
Proof.
  intros Hi He. unfold SignedEnvelope_seal in He. inv_ok. subst. apply open_with_signer_ok.
  cbn [env_version env_signer env_public_key env_payload env_signature].
  eauto 10 using identity_node_id, sign_signed_by, json_roundtrip.
Qed.

(** ** Properties *)

(** An envelope opens to a value and a signer exactly when its version is
    the current one, its signer is the identifier of its public key, that key
    decodes and verifies the signature over the payload, and the payload parses
    to the value; each of the five refusals names the first of these conditions
    that does not hold. *)
Theorem envelope_open_exact {A} `{Json A} (e : SignedEnvelope) :
  let current := env_version e = PROTOCOL_VERSION in
  let bound := env_signer e = NodeId_derive (env_public_key e) in
  let key := try_decode_protobuf (env_public_key e) in
  let signed := signed_by (env_public_key e) (env_payload e) (env_signature e) in
  match open_with_signer (A := A) e with
  | Ok (value, n) =>
      current ∧ bound ∧ signed ∧ from_slice (env_payload e) = Some value ∧ n = env_signer e
  | Err (UnsupportedVersion v) => ¬ current ∧ v = env_version e
  | Err SignerMismatch => current ∧ ¬ bound
  | Err (ProtocolIdentity x) => current ∧ bound ∧ key = None ∧ x = InvalidKey
  | Err InvalidSignature => current ∧ bound ∧ key ≠ None ∧ ¬ signed
  | Err ProtocolJson => current ∧ bound ∧ signed ∧ from_slice (A := A) (env_payload e) = None
  end.
Proof.
  cbv zeta. destruct (open_with_signer e) as [[value n]|err] eqn:E.
  { apply open_with_signer_ok in E. naive_solver. }
  unfold open_with_signer, verify, signed_by in *.
  destruct (Z.eqb_spec (env_version e) PROTOCOL_VERSION); simpl in E; [|by injection E as <-].
  case_bool_decide; simpl in E; [|by injection E as <-].
  destruct (try_decode_protobuf _) as [p|]; simpl in E; [|by injection E as <-].
  destruct (public_verify _ _ _) eqn:Hv; simpl in E; cycle 1.
  { injection E as <-. split_and!; try done. intros (?&[= <-]&?). congruence. }
  destruct (from_slice _); simpl in E; [done|]. injection E as <-. eauto 10.
Qed.

(** What an identity seals opens under its own node identifier: an
    envelope to the sealed value, an execution record, when the identity is its
    executor, as verified. *)
Theorem sealed_values_open {A} `{Json A, !JsonLaws A}
    (i : NodeIdentity) (value : A) (e : SignedEnvelope)
    (r : ExecutionRecord) (s : SignedExecutionRecord) :
  identity_wf i → SignedEnvelope_seal value i = Ok e → SignedExecutionRecord_seal r i = Ok s →
  open_with_signer e = Ok (value, node_id i) ∧
  SignedExecutionRecord_verify s = Ok (bool_decide (rec_executor r = node_id i)).
Proof.
  intros Hi He Hs. split.
  - by apply sealed_envelope_opens.
  - by apply sealed_record_verify.
Qed.

End protocol.

(** ** Witnesses *)

Module Samples.
Import Toy.

#[export] Instance sample_record_json : Json ExecutionRecord := countable_json.
#[export] Instance sample_string_json : Json string := countable_json.
#[export] Instance sample_string_json_laws : JsonLaws string := countable_json_laws.

Definition sample_keypair (k : byte) : Keypair := [k; k].
Definition sample_identity (k : byte) : NodeIdentity := identity_of (sample_keypair k).
Definition sample_record : ExecutionRecord :=
  mkExecutionRecord "task" (node_id (sample_identity x11)) (ContentId_of [x01]) (ContentId_of [x02])
    (ContentId_of [x03]) (ContentId_of [x04]) 10 20.
Definition sample_sealed : result SignedEnvelope ProtocolError :=
  SignedEnvelope_seal "hello"%string (sample_identity x11).
Definition sample_sealed_record : result SignedExecutionRecord ProtocolError :=
  SignedExecutionRecord_seal sample_record (sample_identity x11).

Definition get {A E} (d : A) (r : result A E) : A := match r with Ok a => a | Err _ => d end.

Lemma sealed_values_open_witness :
  let e := get (mkSignedEnvelope 0 [] [] [] []) sample_sealed in
  let s := get (mkSignedExecutionRecord sample_record [] [] []) sample_sealed_record in
  open_with_signer e = Ok ("hello"%string, node_id (sample_identity x11)) ∧
  SignedExecutionRecord_verify s = Ok (bool_decide (rec_executor sample_record = node_id (sample_identity x11))).
Proof.
  intros e s. apply (sealed_values_open (sample_identity x11) "hello"%string e sample_record s).
  - reflexivity.
  - vm_compute. reflexivity.
  - vm_compute. reflexivity.
Defined.

End Samples.
