(* ===== verification/FileSystem.v ===== *)
(** A model of the [std::fs] calls the sources make, over a file system in
    which any call can fail.  A world holds the tree, the process-wide
    temporary-name counter, a script of faults (one entry per call) and the
    history of every tree the calls went through, so that a statement about
    the history covers a crash between any two calls.  Durability ([sync_all])
    is modelled as a call that can fail and changes nothing. *)

From S2P Require Import Prelude.
From Stdlib Require Import Strings.Byte.

(** A path is its list of components, innermost first: [join] is [cons],
    [parent] is [tail]. *)
Abbreviation path := (list string).

Definition parent (p : path) : option path := match p with [] => None | _ :: q => Some q end.
Definition file_name (p : path) : option string := head p.

Inductive node :=
| File (mode : option Z) (content : bytes)
| Dir (mode : option Z)
| Symlink (target : path).

#[export] Instance node_eq_dec : EqDecision node.
Proof. solve_decision. Defined.

Abbreviation tree := (@gmap (list string) list_eq_dec list_countable node).

Inductive ErrorKind := NotFound | AlreadyExists | InvalidData | InvalidInput | OtherKind.

#[export] Instance ErrorKind_eq_dec : EqDecision ErrorKind.
Proof. solve_decision. Defined.

(** A fault makes a call fail with a kind; a failing write may first have
    written some bytes. *)
Record fault := mkFault { kind : ErrorKind; written : nat }.

Record World := mkWorld {
  fs : tree;
  sequence : Z;
  faults : list (option fault);
  history : list tree;
}.

(** ** The I/O monad *)

Definition io (A E : Type) : Type := World → result A E * World.

Definition iret {A E} (a : A) : io A E := λ w, (Ok a, w).
Definition ifail {A E} (e : E) : io A E := λ w, (Err e, w).
Definition ibind {A B E} (m : io A E) (k : A → io B E) : io B E :=
  λ w, match m w with (Ok a, w') => k a w' | (Err e, w') => (Err e, w') end.
Definition imap_err {A E F} (f : E → F) (m : io A E) : io A F :=
  λ w, let '(r, w') := m w in (rmap_err f r, w').
(** Handles the outcome of a call, as a [match] on its result does. *)
Definition ihandle {A B E F} (m : io A E) (k : result A E → io B F) : io B F :=
  λ w, let '(r, w') := m w in k r w'.
Definition ilift {A E} (r : result A E) : io A E := λ w, (r, w).

Notation "'let!' x := e 'in' k" := (ibind e (fun x => k))
  (at level 10, x binder, e at level 100, k at level 200,
   format "'[v' 'let!'  x  :=  e  'in' '/' k ']'") : result_scope.
Notation "e ';!' k" := (ibind e (fun _ => k))
  (at level 100, k at level 200, right associativity) : result_scope.

(** ** Calls *)

Definition set_fs (t : tree) (w : World) : World :=
  mkWorld t (sequence w) (faults w) (t :: history w).

(** One call: a fault takes [partial] effect and fails, otherwise [run] decides. *)
Definition syscall {A : Type} (partial : nat → tree → tree) (run : tree → result (A * tree) ErrorKind) :
    io A ErrorKind := λ w,
  let w1 := mkWorld (fs w) (sequence w) (tail (faults w)) (history w) in
  match head (faults w) with
  | Some (Some f) => (Err (kind f), set_fs (partial (written f) (fs w)) w1)
  | _ => match run (fs w) with
         | Ok (a, t) => (Ok a, set_fs t w1)
         | Err k => (Err k, w1)
         end
  end.

Definition no_effect (_ : nat) (t : tree) : tree := t.

(** The node a path leads to when its last component is followed. *)
Fixpoint resolve (fuel : nat) (t : tree) (p : path) : option path :=
  match t !! p with
  | Some (Symlink q) => match fuel with O => None | S fuel => resolve fuel t q end
  | _ => Some p
  end.
Definition MAX_SYMLINKS : nat := 40.
Definition follow (t : tree) (p : path) : option node := resolve MAX_SYMLINKS t p ≫= λ q, t !! q.

#[global] Arguments resolve : simpl never.
#[global] Arguments follow : simpl never.

Definition is_dir (t : tree) (p : path) : bool :=
  match follow t p with Some (Dir _) => true | _ => false end.

Fixpoint mkdirs (t : tree) (p : path) : option tree :=
  if is_dir t p then Some t
  else match t !! p, p with
       | Some _, _ => None
       | None, [] => Some (<[[] := Dir None]> t)
       | None, _ :: q => t' ← mkdirs t q; Some (<[p := Dir None]> t')
       end.

Definition create_dir_all (p : path) : io unit ErrorKind :=
  syscall no_effect (λ t, let? t' := ok_or (mkdirs t p) AlreadyExists in Ok (tt, t')).

(** [symlink_metadata]: the node itself, links not followed. *)
Definition symlink_metadata (p : path) : io node ErrorKind :=
  syscall no_effect (λ t, let? n := ok_or (t !! p) NotFound in Ok (n, t)).

Definition set_mode (n : node) (mode : Z) : node :=
  match n with
  | File _ b => File (Some mode) b
  | Dir _ => Dir (Some mode)
  | Symlink q => Symlink q
  end.

Definition set_permissions (p : path) (mode : Z) : io unit ErrorKind :=
  syscall no_effect (λ t,
    let? q := ok_or (resolve MAX_SYMLINKS t p) OtherKind in
    let? n := ok_or (t !! q) NotFound in
    Ok (tt, <[q := set_mode n mode]> t)).

(** [Path::exists] and [Path::is_file], [false] when the call fails. *)
Definition exists_ {E} (p : path) : io bool E :=
  ihandle (syscall no_effect (λ t, Ok (bool_decide (is_Some (follow t p)), t)))
    (λ r, iret (match r with Ok b => b | Err _ => false end)).

Definition is_file {E} (p : path) : io bool E :=
  ihandle (syscall no_effect (λ t,
             Ok (match follow t p with Some (File _ _) => true | _ => false end, t)))
    (λ r, iret (match r with Ok b => b | Err _ => false end)).

(** [OpenOptions::new().write(true).create_new(true).open(p)]. *)
Definition create_new (mode : option Z) (p : path) : io unit ErrorKind :=
  syscall no_effect (λ t,
    match t !! p with
    | Some _ => Err AlreadyExists
    | None => if match parent p with Some q => is_dir t q | None => false end
              then Ok (tt, <[p := File mode []]> t) else Err NotFound
    end).

(** [write_all] on the freshly created file at [p]: a fault leaves a prefix. *)
Definition write_content (p : path) (b : bytes) (t : tree) : tree :=
  match t !! p with Some (File mode c) => <[p := File mode (c ++ b)]> t | _ => t end.
Definition write_all (p : path) (b : bytes) : io unit ErrorKind :=
  syscall (λ n, write_content p (take n b)) (λ t, Ok (tt, write_content p b t)).

Definition sync_all : io unit ErrorKind := syscall no_effect (λ t, Ok (tt, t)).

Definition remove_file (p : path) : io unit ErrorKind :=
  syscall no_effect (λ t,
    match t !! p with
    | None => Err NotFound
    | Some (Dir _) => Err OtherKind
    | Some _ => Ok (tt, delete p t)
    end).

Definition rename (a b : path) : io unit ErrorKind :=
  syscall no_effect (λ t,
    match t !! a, t !! b with
    | None, _ => Err NotFound
    | Some _, Some (Dir _) => Err OtherKind
    | Some n, _ => Ok (tt, <[b := n]> (delete a t))
    end).

Definition hard_link (a b : path) : io unit ErrorKind :=
  syscall no_effect (λ t,
    match t !! a, t !! b with
    | None, _ => Err NotFound
    | Some (Dir _), _ => Err OtherKind
    | Some _, Some _ => Err AlreadyExists
    | Some n, None => Ok (tt, <[b := n]> t)
    end).

(** [fs::read], and [File::open] followed by [take(limit).read_to_end]. *)
Definition read (p : path) : io bytes ErrorKind :=
  syscall no_effect (λ t,
    match follow t p with
    | Some (File _ b) => Ok (b, t)
    | Some _ => Err OtherKind
    | None => Err NotFound
    end).
Definition open_file (p : path) : io unit ErrorKind :=
  syscall no_effect (λ t, match follow t p with Some _ => Ok (tt, t) | None => Err NotFound end).
Definition read_take (p : path) (limit : Z) : io bytes ErrorKind :=
  syscall no_effect (λ t,
    match follow t p with
    | Some (File _ b) =>
        Ok (if Z.of_nat (length b) <=? limit then b else take (Z.to_nat limit) b, t)
    | _ => Err OtherKind
    end).

(** [fs::read_dir]: the names directly below a directory, in no particular
    order. *)
Definition children (t : tree) (p : path) : list string :=
  omap (λ q, match q with
             | name :: d => if decide (d = p) then Some name else None
             | [] => None
             end) (elements (dom t)).
Definition read_dir (p : path) : io (list string) ErrorKind :=
  syscall no_effect (λ t, if is_dir t p then Ok (children t p, t) else Err NotFound).

(** Runs a fallible action over a list, stopping at the first error. *)
Fixpoint itraverse {A B E} (f : A → io B E) (l : list A) : io (list B) E :=
  match l with
  | [] => iret []
  | x :: l => let! y := f x in let! r := itraverse f l in iret (y :: r)
  end.

Lemma elem_of_children (t : tree) p name : name ∈ children t p ↔ is_Some (t !! (name :: p)).
Proof.
  unfold children. rewrite list_elem_of_omap. setoid_rewrite elem_of_elements.
  setoid_rewrite elem_of_dom. split.
  - intros ([|name' d]&Hq&E); [done|]. case_decide; naive_solver.
  - intros Hs. exists (name :: p). by rewrite decide_True.
Qed.

Lemma NoDup_children (t : tree) p : NoDup (children t p).
Proof.
  unfold children. apply NoDup_omap_inj; [|apply NoDup_elements].
  intros [|] [|] ? E1 E2; [done..|]. repeat case_decide; naive_solver.
Qed.

(** ** A crash-aware program logic *)

(** [hoare I P m Q]: started in a tree that satisfies [P], [m] ends with an
    outcome and a tree related by [Q], and every tree it goes through satisfies
    the crash invariant [I]. *)
Definition hoare {A E : Type} (I P : tree → Prop) (m : io A E) (Q : result A E → tree → Prop) : Prop :=
  ∀ w, P (fs w) → Forall I (history w) →
    Q (m w).1 (fs (m w).2) ∧ Forall I (history (m w).2).

Section logic.
Context {A B E F : Type} (I : tree → Prop).
Implicit Types P : tree → Prop.

Lemma hoare_conseq P P' (m : io A E) (Q Q' : result A E → tree → Prop) :
  hoare I P' m Q' → (∀ t, P t → P' t) → (∀ r t, Q' r t → Q r t) → hoare I P m Q.
Proof. intros Hm HP HQ w Hw Hh. destruct (Hm w); auto. Qed.

Lemma hoare_ret P (a : A) (Q : result A E → tree → Prop) :
  (∀ t, P t → Q (Ok a) t) → hoare I P (iret a) Q.
Proof. intros HQ w ??. split; [by apply HQ|done]. Qed.

Lemma hoare_fail P (e : E) (Q : result A E → tree → Prop) :
  (∀ t, P t → Q (Err e) t) → hoare I P (ifail e) Q.
Proof. intros HQ w ??. split; [by apply HQ|done]. Qed.

Lemma hoare_bind P (m : io A E) (k : A → io B E) R Q :
  hoare I P m R → (∀ a, hoare I (R (Ok a)) (k a) Q) → (∀ e t, R (Err e) t → Q (Err e) t) →
  hoare I P (ibind m k) Q.
Proof.
  intros Hm Hk He w HP Hh. unfold ibind. destruct (Hm w HP Hh) as [HR Hh'].
  destruct (m w) as [[a|e] w']; [by apply Hk|]. split; [by apply He|done].
Qed.

Lemma hoare_handle P (m : io A E) (k : result A E → io B F) R Q :
  hoare I P m R → (∀ r, hoare I (R r) (k r) Q) → hoare I P (ihandle m k) Q.
Proof.
  intros Hm Hk w HP Hh. unfold ihandle. destruct (Hm w HP Hh) as [HR Hh'].
  destruct (m w) as [r w']. by apply Hk.
Qed.

Lemma hoare_map_err P (f : E → F) (m : io A E) Q :
  hoare I P m (λ r, Q (rmap_err f r)) → hoare I P (imap_err f m) Q.
Proof. intros Hm w HP Hh. unfold imap_err. destruct (Hm w HP Hh). by destruct (m w). Qed.

Lemma hoare_exists {X} (P : X → tree → Prop) (m : io A E) Q :
  (∀ x, hoare I (P x) m Q) → hoare I (λ t, ∃ x, P x t) m Q.
Proof. intros Hm w [x Hx]. by apply (Hm x). Qed.

End logic.

Lemma hoare_syscall {A : Type} (I P : tree → Prop) (part : nat → tree → tree)
    (run : tree → result (A * tree) ErrorKind) (Q : result A ErrorKind → tree → Prop) :
  (∀ n k t, P t → I (part n t) ∧ Q (Err k) (part n t)) →
  (∀ t, P t → match run t with Ok (a, t') => I t' ∧ Q (Ok a) t' | Err k => Q (Err k) t end) →
  hoare I P (syscall part run) Q.
Proof.
  intros Hp Hr w HP Hh. unfold syscall. specialize (Hr _ HP).
  destruct (head (faults w)) as [[f|]|]; cbn.
  - destruct (Hp (written f) (kind f) _ HP). eauto.
  - destruct (run (fs w)) as [[a t]|k]; cbn; [destruct Hr|]; eauto.
  - destruct (run (fs w)) as [[a t]|k]; cbn; [destruct Hr|]; eauto.
Qed.

(** A call that changes nothing keeps any condition that implies the
    invariant. *)
Lemma hoare_query {A : Type} (I P : tree → Prop) (f : tree → result A ErrorKind)
    (Q : result A ErrorKind → tree → Prop) :
  (∀ t, P t → I t) → (∀ k t, P t → Q (Err k) t) → (∀ t, P t → Q (f t) t) →
  hoare I P (syscall no_effect (λ t, let? a := f t in Ok (a, t))) Q.
Proof.
  intros HI He Hf. apply hoare_syscall; [unfold no_effect; eauto|].
  intros t Ht. specialize (Hf t Ht). destruct (f t); cbn; eauto.
Qed.

(** Programs that only add to the history: what they do does not depend on the
    calls made before. *)
Class Framed {A E} (m : io A E) : Prop :=
  framed t s fl h : m (mkWorld t s fl h) =
    let '(r, w) := m (mkWorld t s fl []) in
    (r, mkWorld (fs w) (sequence w) (faults w) (history w ++ h)).

Section framed.
Context {A B E F : Type}.

#[global] Instance framed_ret (a : A) : Framed (E := E) (iret a).
Proof. by intros t s fl h. Qed.
#[global] Instance framed_fail (e : E) : Framed (A := A) (ifail e).
Proof. by intros t s fl h. Qed.
#[global] Instance framed_lift (r : result A E) : Framed (ilift r).
Proof. by intros t s fl h. Qed.

#[global] Instance framed_handle (m : io A E) (k : result A E → io B F) :
  Framed m → (∀ r, Framed (k r)) → Framed (ihandle m k).
Proof.
  intros Hm Hk t s fl h. unfold ihandle. rewrite (Hm t s fl h).
  destruct (m (mkWorld t s fl [])) as [r [t' s' fl' h']]. cbn.
  rewrite (Hk r t' s' fl' h'), (Hk r t' s' fl' (h' ++ h)).
  destruct (k r _) as [r' w']. cbn. by rewrite app_assoc.
Qed.

End framed.

#[global] Instance framed_bind {A B E} (m : io A E) (k : A → io B E) :
  Framed m → (∀ a, Framed (k a)) → Framed (ibind m k).
Proof.
  intros Hm Hk t s fl h.
  set (h' := ihandle m (λ r, match r with Ok a => k a | Err e => ifail e end)).
  assert (∀ w, ibind m k w = h' w) as Heq
    by (intros w; unfold h', ibind, ihandle; by destruct (m w) as [[]]).
  rewrite !Heq. apply framed_handle; [done|]. intros [a|e]; apply _.
Qed.

#[global] Instance framed_map_err {A E F} (f : E → F) (m : io A E) : Framed m → Framed (imap_err f m).
Proof. intros Hm. apply (framed_handle m (λ r, ilift (rmap_err f r))); apply _. Qed.

#[global] Instance framed_syscall {A : Type} part (run : tree → result (A * tree) ErrorKind) :
  Framed (syscall part run).
Proof.
  intros t s fl h. unfold syscall, set_fs. cbn.
  destruct (head fl) as [[f|]|]; [done|..]; by destruct (run t) as [[]|].
Qed.

#[global] Instance framed_exists {E} p : Framed (exists_ (E := E) p).
Proof. unfold exists_. apply _. Qed.

(** Discharges [Framed] by the structure of the program. *)
Ltac solve_framed :=
  repeat (cbv beta zeta; lazymatch goal with
    | |- ∀ _, _ => intro
    | |- Framed (ibind _ _) => apply framed_bind
    | |- Framed (ihandle _ _) => apply framed_handle
    | |- Framed (imap_err _ _) => apply framed_map_err
    | |- Framed (match _ with _ => _ end) => case_match
    | |- Framed _ => apply _
    end).

(** A framed program can be proved with any invariant that is weaker than the
    one its triple has. *)
Lemma hoare_frame {A E} (I I' P : tree → Prop) (m : io A E) Q :
  Framed m → hoare I P m Q → (∀ t, I t → I' t) → hoare I' P m Q.
Proof.
  intros Hf Hm HI [t s fl h] HP Hh. destruct (Hm (mkWorld t s fl []) HP) as [HQ Hh']; [constructor|].
  rewrite (Hf t s fl h). destruct (m (mkWorld t s fl [])) as [r w]. cbn in *. split; [done|].
  apply Forall_app. split; [|done]. by eapply Forall_impl.
Qed.

Lemma is_dir_Dir (t : tree) m p : t !! p = Some (Dir m) → is_dir t p = true.
Proof. intros Hp. unfold is_dir, follow, resolve, MAX_SYMLINKS. by rewrite Hp; simpl; rewrite Hp. Qed.

(** Directory creation only adds directories above and at its argument. *)
Lemma mkdirs_lookup (t t' : tree) d q :
  mkdirs t d = Some t' →
  t' !! q = t !! q ∨ (t !! q = None ∧ t' !! q = Some (Dir None) ∧ (length q ≤ length d)%nat).
Proof.
  revert t'. induction d as [|x d IH]; intros t' Hm; cbn [mkdirs] in Hm.
  - case_match; [naive_solver|]. case_match; [done|]. injection Hm as <-.
    destruct (decide (q = [])) as [->|]; [rewrite lookup_insert_eq; auto|].
    rewrite lookup_insert_ne; auto.
  - case_match; [naive_solver|]. case_match eqn:Hx; [done|].
    destruct (mkdirs t d) as [t1|] eqn:E; [|done]. injection Hm as <-.
    destruct (decide (q = x :: d)) as [->|]; [rewrite lookup_insert_eq; auto|].
    rewrite lookup_insert_ne by done. destruct (IH t1 eq_refl) as [?|(?&?&?)]; [auto|].
    right. split_and!; try done. cbn [length]. lia.
Qed.
