(* ===== verification/Storage.v ===== *)
(** Bounded reads, atomic replacement and creation of files, and the
    content-addressed store (crates/peerless-storage/src/lib.rs). *)

From S2P Require Import Prelude External Core FileSystem.
From Stdlib Require Import Strings.Byte.
From stdpp Require Import pretty.
#[local] Open Scope Z_scope.
#[local] Open Scope result_scope.

(** ** Bounded reads *)

Definition read_limited (p : path) (limit : Z) : io bytes ErrorKind :=
  open_file p ;!
  let! b := read_take p (saturating_add limit 1) in
  if limit <? Z.of_nat (length b) then ifail InvalidData else iret b.

(** ** Temporaries *)

Section storage.
(** [std::process::id()]. *)
Context (pid : N).

Definition temporary_name (name : string) (sequence : Z) : string :=
  "." +:+ name +:+ "." +:+ pretty pid +:+ "." +:+ pretty (Z.to_N sequence) +:+ ".tmp".

(** [TEMP_SEQUENCE.fetch_add(1)], wrapping. *)
Definition next_sequence {E} : io Z E := λ w,
  (Ok (sequence w), mkWorld (fs w) ((sequence w + 1) mod 2 ^ 64) (faults w) (history w)).

(** The loop of [unique_temporary] and of [FileCas::put]: a fresh name per
    round until one can be created.  [None] is reached only when the fuel runs
    out, which [temporary_loop_terminates] excludes. *)
Fixpoint temporary_loop (fuel : nat) (dir : path) (name : string) (mode : option Z) :
    io (option path) ErrorKind :=
  match fuel with
  | O => iret None
  | S fuel =>
      let! s := next_sequence in
      let candidate := temporary_name name s :: dir in
      ihandle (create_new mode candidate) (λ r,
        match r with
        | Ok _ => iret (Some candidate)
        | Err AlreadyExists => temporary_loop fuel dir name mode
        | Err k => ifail k
        end)
  end.

(** Enough rounds: every unsuccessful one meets a fault or another file. *)
Definition temporary_fuel (w : World) : nat := S (length (faults w) + size (fs w)).

Definition unique_temporary (dir : path) (name : option string) (mode : option Z) :
    io path ErrorKind := λ w,
  (let! r := temporary_loop (temporary_fuel w) dir (default "data" name) mode in
   match r with Some candidate => iret candidate | None => ifail OtherKind end) w.

Definition sync_directory (p : path) : io unit ErrorKind := open_file p ;! sync_all.

(** [let _ = fs::remove_file(..); return Err(error)]. *)
Definition discard {A E} (temporary : path) (e : E) : io A E :=
  ihandle (remove_file temporary) (λ _, ifail e).

Definition atomic_replace (p : path) (b : bytes) (mode : option Z) : io unit ErrorKind :=
  let! dir := ilift (ok_or (parent p) InvalidInput) in
  create_dir_all dir ;!
  let! temporary := unique_temporary dir (file_name p) mode in
  ihandle (write_all temporary b ;! sync_all) (λ r,
    match r with
    | Err e => discard temporary e
    | Ok _ =>
        ihandle (rename temporary p) (λ r,
          match r with Err e => discard temporary e | Ok _ => sync_directory dir end)
    end).

Definition atomic_create (p : path) (b : bytes) (mode : option Z) : io unit ErrorKind :=
  let! dir := ilift (ok_or (parent p) InvalidInput) in
  create_dir_all dir ;!
  let! temporary := unique_temporary dir (file_name p) mode in
  ihandle (write_all temporary b ;! sync_all) (λ r,
    match r with
    | Err e => discard temporary e
    | Ok _ =>
        ihandle (hard_link temporary p) (λ r,
          match r with
          | Ok _ => remove_file temporary ;! sync_directory dir
          | Err e => discard temporary e
          end)
    end).

(** ** The content-addressed store *)

Context `{Sha256, Hex}.

Inductive CasError := CasNotFound (id : ContentId) | Corrupt (id : ContentId) | CasIo (k : ErrorKind).

(** The root directory of a store. *)
Abbreviation FileCas := path.

Definition FileCas_open (root : path) : io FileCas CasError :=
  imap_err CasIo (create_dir_all root) ;! iret root.

Definition path_for (root : FileCas) (id : ContentId) : path :=
  let digest := ContentId_hex_digest id in
  [String.substring 2 (String.length digest - 2) digest; String.substring 0 2 digest] ++ root.

Definition verify_existing (id : ContentId) (p : path) : io unit CasError :=
  let! b := imap_err CasIo (read p) in
  if ContentId_verify id b then iret tt else ifail (Corrupt id).

Definition FileCas_put (root : FileCas) (b : bytes) : io ContentId CasError :=
  let id := ContentId_of b in
  let p := path_for root id in
  let! present := exists_ p in
  if present : bool then verify_existing id p ;! iret id
  else
    let dir := tail p in
    imap_err CasIo (create_dir_all dir) ;!
    let! temporary := imap_err CasIo
      (λ w, (let! r := temporary_loop (temporary_fuel w) dir (ContentId_hex_digest id) None in
             match r with Some candidate => iret candidate | None => ifail OtherKind end) w) in
    ihandle (write_all temporary b ;! sync_all) (λ r,
      match r with
      | Err e => discard temporary (CasIo e)
      | Ok _ =>
          ihandle (hard_link temporary p) (λ r,
            match r with
            | Ok _ => imap_err CasIo (remove_file temporary) ;! iret id
            | Err AlreadyExists =>
                ihandle (remove_file temporary) (λ _, verify_existing id p ;! iret id)
            | Err e => discard temporary (CasIo e)
            end)
      end).

Definition FileCas_get (root : FileCas) (id : ContentId) : io bytes CasError :=
  ihandle (read (path_for root id)) (λ r,
    match r with
    | Ok b => if negb (ContentId_verify id b) then ifail (Corrupt id) else iret b
    | Err NotFound => ifail (CasNotFound id)
    | Err k => ifail (CasIo k)
    end).

Definition FileCas_contains (root : FileCas) (id : ContentId) : io bool CasError :=
  is_file (path_for root id).

(** ** Temporaries: freshness and termination *)

Lemma temporary_name_longer name s : (String.length name < String.length (temporary_name name s))%nat.
Proof. unfold temporary_name. rewrite !str_length_app. cbn. lia. Qed.

Lemma temporary_name_inj name s1 s2 :
  0 ≤ s1 → 0 ≤ s2 → temporary_name name s1 = temporary_name name s2 → s1 = s2.
Proof.
  intros ?? E. unfold temporary_name in E. do 5 apply (inj (String.append _)) in E.
  apply str_app_inj_r, (inj pretty) in E. lia.
Qed.

(** A name that can be created is returned, with the file in place; the tree
    is otherwise left alone. *)
Lemma hoare_temporary_loop (I P : tree → Prop) fuel dir name mode :
  (∀ t, P t → I t) →
  (∀ t s, P t → t !! (temporary_name name s :: dir) = None →
     I (<[temporary_name name s :: dir := File mode []]> t)) →
  hoare I P (temporary_loop fuel dir name mode)
    (λ r t, match r with
            | Ok (Some c) => ∃ s t', c = temporary_name name s :: dir ∧ P t' ∧ t' !! c = None ∧
                               t = <[c := File mode []]> t'
            | _ => P t
            end).
Proof.
  intros HI Hc. induction fuel as [|fuel IH]; cbn [temporary_loop]; [by apply hoare_ret|].
  apply (hoare_bind I P next_sequence _ (λ _, P)); [by intros w HP Hh|intros s|done].
  cbv zeta. set (c := temporary_name name s :: dir).
  apply (hoare_handle I P (create_new mode c) _
    (λ r t, match r with
            | Ok _ => ∃ t', P t' ∧ t' !! c = None ∧ t = <[c := File mode []]> t'
            | Err _ => P t end)).
  - apply hoare_syscall; [unfold no_effect; eauto|]. intros t HP.
    destruct (t !! c) eqn:E; [done|].
    destruct (match parent c with Some q => is_dir t q | None => false end); [|done].
    split; [by apply Hc|eauto].
  - intros [u|k]; [apply hoare_ret; intros t (t'&?&?&?); unfold c in *; eauto 10|].
    destruct k; [by apply hoare_fail|apply IH|by apply hoare_fail..].
Qed.

Lemma hoare_unique_temporary (I P : tree → Prop) dir name mode :
  (∀ t, P t → I t) →
  (∀ t s, P t → t !! (temporary_name (default "data" name) s :: dir) = None →
     I (<[temporary_name (default "data" name) s :: dir := File mode []]> t)) →
  hoare I P (unique_temporary dir name mode)
    (λ r t, match r with
            | Ok c => ∃ s t', c = temporary_name (default "data" name) s :: dir ∧ P t' ∧
                        t' !! c = None ∧ t = <[c := File mode []]> t'
            | Err _ => P t
            end).
Proof.
  intros HI Hc w. unfold unique_temporary. revert w.
  assert (∀ fuel, hoare I P
    (let! r := temporary_loop fuel dir (default "data" name) mode in
     match r with Some candidate => iret candidate | None => ifail OtherKind end)
    (λ r t, match r with
            | Ok c => ∃ s t', c = temporary_name (default "data" name) s :: dir ∧ P t' ∧
                        t' !! c = None ∧ t = <[c := File mode []]> t'
            | Err _ => P t
            end)) as Hall.
  { intros fuel. eapply hoare_bind; [by apply hoare_temporary_loop| |by intros e t].
    intros [c|]; [by apply hoare_ret|by apply hoare_fail]. }
  intros w. apply Hall.
Qed.

(** The candidates of the next [n] rounds. *)
Definition candidates (dir : path) (name : string) (s : Z) (n : nat) : gset path :=
  list_to_set ((λ k, temporary_name name ((s + Z.of_nat k) mod 2 ^ 64) :: dir) <$> seq 0 n).

Lemma candidates_S dir name s n :
  0 ≤ s < 2 ^ 64 → Z.of_nat (S n) ≤ 2 ^ 64 →
  candidates dir name s (S n) = {[temporary_name name s :: dir]} ∪ candidates dir name ((s + 1) mod 2 ^ 64) n ∧
  temporary_name name s :: dir ∉ candidates dir name ((s + 1) mod 2 ^ 64) n.
Proof.
  intros Hs Hn. unfold candidates. cbn [seq fmap list_fmap list_to_set].
  rewrite Z.add_0_r, Z.mod_small by done. split.
  - f_equal. f_equal. rewrite <- fmap_S_seq, <- list_fmap_compose.
    apply list_fmap_ext. intros i k Hk. cbn. do 2 f_equal. rewrite Zplus_mod_idemp_l. f_equal. lia.
  - rewrite elem_of_list_to_set, list_elem_of_fmap. intros (k&E&Hk). apply elem_of_seq in Hk.
    apply (f_equal head), (inj Some), temporary_name_inj in E; [|lia|apply Z.mod_pos_bound; lia].
    rewrite Zplus_mod_idemp_l in E. rewrite Z.mod_eq in E by lia.
    assert ((s + 1 + Z.of_nat k) / 2 ^ 64 = 0 ∨ (s + 1 + Z.of_nat k) / 2 ^ 64 = 1) as [Hq|Hq].
    { assert (0 ≤ (s + 1 + Z.of_nat k) / 2 ^ 64 < 2); [|lia].
      split; [apply Z.div_pos; lia|apply Z.div_lt_upper_bound; lia]. }
    all: rewrite Hq in E; lia.
Qed.

(** Every round either creates its candidate, fails for good, or uses up a
    fault or a file among the candidates. *)
Lemma temporary_loop_terminates fuel dir name mode w :
  0 ≤ sequence w < 2 ^ 64 → Z.of_nat fuel ≤ 2 ^ 64 →
  (length (faults w) + size (dom (fs w) ∩ candidates dir name (sequence w) fuel) < fuel)%nat →
  (temporary_loop fuel dir name mode w).1 ≠ Ok None.
Proof.
  revert w. induction fuel as [|fuel IH]; intros w Hs Hf Hlt; [lia|].
  destruct (candidates_S dir name (sequence w) fuel) as [Hc Hnew]; [done..|].
  cbn [temporary_loop]. unfold ibind, next_sequence, ihandle. cbv zeta.
  set (c := temporary_name name (sequence w) :: dir) in *.
  set (rest := candidates dir name ((sequence w + 1) mod 2 ^ 64) fuel) in *.
  unfold create_new, syscall at 1. cbn [faults fs sequence history].
  assert (∀ t fl h, (length fl + size (dom t ∩ rest) < fuel)%nat →
    (temporary_loop fuel dir name mode
       (mkWorld t ((sequence w + 1) mod 2 ^ 64) fl h)).1 ≠ Ok None) as Hloop.
  { intros t fl h Hsz. apply IH; cbn; [apply Z.mod_pos_bound; lia|lia|done]. }
  rewrite Hc in Hlt.
  assert (size (dom (fs w) ∩ rest) ≤ size (dom (fs w) ∩ ({[c]} ∪ rest)))%nat as Hle
    by (apply subseteq_size; clear; set_solver).
  assert (is_Some (fs w !! c) →
    (size (dom (fs w) ∩ rest) < size (dom (fs w) ∩ ({[c]} ∪ rest)))%nat) as Hless.
  { intros Hin%elem_of_dom. apply subset_size. clearbody c rest. clear -Hin Hnew. set_solver. }
  assert (length (tail (faults w)) ≤ length (faults w))%nat as Htl
    by (destruct (faults w); cbn [tail length]; lia).
  destruct (faults w) as [|[[k n]|] fl]; cbn [head tail length] in *.
  2: { destruct k; try done. apply Hloop. cbn. unfold no_effect. lia. }
  all: destruct (fs w !! c) eqn:Ec; [apply Hloop; specialize (Hless (mk_is_Some _ _ eq_refl)); cbn [length] in *; lia|].
  all: by destruct (match parent c with Some q => is_dir (fs w) q | None => false end).
Qed.

Lemma unique_temporary_total dir name mode w :
  0 ≤ sequence w < 2 ^ 64 → Z.of_nat (temporary_fuel w) ≤ 2 ^ 64 →
  (temporary_loop (temporary_fuel w) dir name mode w).1 ≠ Ok None.
Proof.
  intros Hs Hf. apply temporary_loop_terminates; [done..|]. unfold temporary_fuel.
  rewrite <- (size_dom (D := gset path)).
  assert (size (dom (fs w) ∩ candidates dir name (sequence w) (S (length (faults w) + size (fs w))))
          ≤ size (dom (fs w)))%nat by (apply subseteq_size; set_solver).
  rewrite <- (size_dom (D := gset path)) in *. lia.
Qed.

(** The writers only add to the history. *)
#[global] Instance framed_next_sequence {E} : Framed (next_sequence (E := E)).
Proof. by intros t s fl h. Qed.

#[global] Instance framed_temporary_loop fuel dir name mode :
  Framed (temporary_loop fuel dir name mode).
Proof.
  induction fuel as [|fuel IH]; cbn [temporary_loop]; [apply _|]. unfold create_new. solve_framed.
Qed.

#[global] Instance framed_unique_temporary dir name mode : Framed (unique_temporary dir name mode).
Proof.
  intros t s fl h. unfold unique_temporary.
  change (temporary_fuel (mkWorld t s fl h)) with (temporary_fuel (mkWorld t s fl [])).
  generalize (temporary_fuel (mkWorld t s fl [])). intros fuel. revert t s fl h.
  change (Framed (let! r := temporary_loop fuel dir (default "data" name) mode in
    match r with Some candidate => iret candidate | None => ifail OtherKind end)).
  solve_framed.
Qed.

#[global] Instance framed_atomic_replace p b mode : Framed (atomic_replace p b mode).
Proof.
  unfold atomic_replace, create_dir_all, write_all, sync_all, rename, discard, remove_file,
    sync_directory, open_file. solve_framed.
Qed.

(** ** Atomicity *)

Section atomic.
Context (p : path) (b : bytes) (mode : option Z) (t0 : tree).

Let new : node := File mode b.

(** A directory above the target that was missing. *)
Definition added_dir (q : path) (t : tree) : Prop :=
  t0 !! q = None ∧ t !! q = Some (Dir None) ∧ (length q < length p)%nat.

Definition is_temporary (q : path) : Prop :=
  ∃ s, q = temporary_name (default "data" (file_name p)) s :: tail p.

(** Everything but the target (and, while it exists, the temporary [c]) is as
    in [t0], up to directories that were missing. *)
Definition elsewhere (c : option path) (t : tree) : Prop :=
  ∀ q, q ≠ p → Some q ≠ c → t !! q = t0 !! q ∨ added_dir q t.

Definition before (t : tree) : Prop := t !! p = t0 !! p ∧ elsewhere None t.
Definition during (c : path) (content : option bytes) (t : tree) : Prop :=
  t !! p = t0 !! p ∧ elsewhere (Some c) t ∧ (c ≠ p ∧ is_temporary c) ∧ t0 !! c = None ∧
  (∀ x, content = Some x → t !! c = Some (File mode x)) ∧ (∃ x, t !! c = Some (File mode x)).

(** The crash invariant: the target is as before or complete, nothing else that
    existed has changed, and only directories above the target and temporaries
    beside it were added. *)
Definition old_or_new (allowed : Prop) (t : tree) : Prop :=
  (t !! p = t0 !! p ∨ (allowed ∧ t !! p = Some new)) ∧
  ∀ q, q ≠ p → t !! q = t0 !! q ∨ added_dir q t ∨ (t0 !! q = None ∧ is_temporary q).

Lemma elsewhere_weaken c t q :
  elsewhere c t → (∀ c', c = Some c' → t0 !! c' = None ∧ is_temporary c') → q ≠ p →
  t !! q = t0 !! q ∨ added_dir q t ∨ (t0 !! q = None ∧ is_temporary q).
Proof.
  intros He Hc Hq. destruct (decide (Some q = c)) as [<-|Hqc]; [by auto|].
  destruct (He q Hq Hqc); auto.
Qed.

Lemma before_inv allowed t : before t → old_or_new allowed t.
Proof.
  intros [Hp He]. split; [auto|]. intros q Hq. by eapply elsewhere_weaken.
Qed.

Lemma during_inv allowed c x t : during c x t → old_or_new allowed t.
Proof.
  intros (Hp&He&[? ?]&?&_). split; [auto|]. intros q Hq. eapply elsewhere_weaken; [done| |done].
  by intros ? [= <-].
Qed.

Lemma before_create t s :
  before t → t !! (temporary_name (default "data" (file_name p)) s :: tail p) = None → p ≠ [] →
  during (temporary_name (default "data" (file_name p)) s :: tail p) (Some [])
    (<[temporary_name (default "data" (file_name p)) s :: tail p := File mode []]> t).
Proof.
  intros [Hp He] Hn Hne.
  set (c := temporary_name (default "data" (file_name p)) s :: tail p) in *.
  assert (c ≠ p) as Hc.
  { unfold c. clear -Hne. destruct p as [|name dir]; [done|]. intros E.
    change (default "data" (file_name (name :: dir))) with name in E.
    apply (f_equal head), (inj Some) in E.
    pose proof (temporary_name_longer name s) as Hl. rewrite E in Hl. lia. }
  unfold during, elsewhere. split_and!.
  - by rewrite lookup_insert_ne.
  - intros q Hq Hqc. unfold added_dir. rewrite lookup_insert_ne by congruence. by apply He.
  - done.
  - by exists s.
  - destruct (He c Hc) as [E|[E _]]; [done|congruence|done].
  - intros x [= <-]. by rewrite lookup_insert_eq.
  - exists []. by rewrite lookup_insert_eq.
Qed.

Lemma before_mkdirs t t' d :
  before t → (length d < length p)%nat → mkdirs t d = Some t' → before t'.
Proof.
  intros [Hp He] Hd Hm. split.
  - destruct (mkdirs_lookup t t' d p Hm) as [E|(_&_&E)]; [congruence|lia].
  - intros q Hq Hc. destruct (mkdirs_lookup t t' d q Hm) as [E|(E1&E2&E3)].
    + unfold added_dir. rewrite E. by apply He.
    + right. destruct (He q Hq Hc) as [E|E]; [split_and!; [congruence|done|lia]|].
      destruct E as (?&?&?). congruence.
Qed.

Lemma during_write t c x y :
  during c (Some x) t → during c (Some (x ++ y)) (write_content c y t).
Proof.
  intros (Hp&He&[Hc ?]&H0c&Hx&_). specialize (Hx x eq_refl).
  unfold write_content. rewrite Hx. split_and!; try done.
  - by rewrite lookup_insert_ne.
  - intros q Hq Hqc. unfold added_dir. rewrite lookup_insert_ne by congruence. by apply He.
  - intros z [= <-]. by rewrite lookup_insert_eq.
  - eexists. by rewrite lookup_insert_eq.
Qed.

Lemma during_forget c x t : during c x t → during c None t.
Proof. intros (?&?&[? ?]&?&?&?). by split_and!. Qed.

Lemma during_remove c x t : during c x t → before (delete c t).
Proof.
  intros (Hp&He&[Hc _]&H0c&_). split; [by rewrite lookup_delete_ne|].
  intros q Hq _. destruct (decide (q = c)) as [->|].
  - left. by rewrite lookup_delete_eq.
  - unfold added_dir. rewrite lookup_delete_ne by done. apply He; [done|congruence].
Qed.

(** States in which a failed call may leave the tree: nothing done, or a
    temporary left behind. *)
Definition unfinished (t : tree) : Prop :=
  before t ∨ ∃ c, during c None t.

Lemma hoare_discard (I : tree → Prop) c x (e : ErrorKind) (Q : result unit ErrorKind → tree → Prop) :
  (∀ t, unfinished t → I t) → (∀ k t, unfinished t → Q (Err k) t) →
  hoare I (during c x) (discard c e) Q.
Proof.
  intros HI HQ. unfold discard.
  assert (∀ t, during c x t → unfinished t) as Hu by (right; eauto using during_forget).
  apply (hoare_handle I (during c x) (remove_file c) _ (λ _, unfinished)).
  - apply hoare_syscall; [unfold no_effect; eauto|]. intros t Ht.
    assert (before (delete c t)) by by eapply during_remove.
    destruct (t !! c) as [[]|] eqn:E; eauto.
    + split; [apply HI|]; by left.
    + split; [apply HI|]; by left.
  - intros r. apply hoare_fail. eauto.
Qed.

(** The part the two atomic writers share: make the directory, create a
    temporary, write it and flush it. *)
Lemma hoare_prepare (I : tree → Prop) (kont : path → path → io unit ErrorKind) Q :
  (∀ t, unfinished t → I t) → (∀ e t, unfinished t → Q (Err e) t) →
  (∀ c, hoare I (during c (Some b)) (kont (tail p) c) Q) →
  hoare I before
    (let! dir := ilift (ok_or (parent p) InvalidInput) in
     create_dir_all dir ;!
     let! temporary := unique_temporary dir (file_name p) mode in
     ihandle (write_all temporary b ;! sync_all) (λ r,
       match r with
       | Err e => discard temporary e
       | Ok _ => kont dir temporary
       end)) Q.
Proof.
  intros HI HQ Hk.
  assert (∀ t, before t → unfinished t) as Hb by by left.
  destruct p as [|name dir] eqn:Hp; cbn [parent ok_or].
  { eapply hoare_bind; [apply (hoare_fail I _ _ (λ r, match r with Ok _ => λ _, False | Err _ => before end)); eauto
                       |intros a w []|eauto]. }
  rewrite <- Hp in *.
  apply (hoare_bind I before _ _ (λ r t, r = Ok dir ∧ before t)); [by intros w ? ?| |by intros e t []].
  intros d. apply (hoare_bind I _ _ _ (λ _ t, d = dir ∧ before t)).
  - apply hoare_syscall; [unfold no_effect; naive_solver|]. intros t [[= ->] Ht].
    destruct (mkdirs t dir) as [t'|] eqn:Em; cbn; [|done].
    assert (before t') by (eapply before_mkdirs; [done| |done]; rewrite Hp; cbn; lia). auto.
  - intros _ w [-> Hw] Hh. revert w Hw Hh.
    apply (hoare_bind I before (unique_temporary dir (file_name p) mode) _
      (λ r t, match r with Ok c => during c (Some []) t | Err _ => before t end)); cycle 2.
    { eauto. }
    { assert (∀ t s, before t → t !! (temporary_name (default "data" (file_name p)) s :: dir) = None →
        during (temporary_name (default "data" (file_name p)) s :: dir) (Some [])
          (<[temporary_name (default "data" (file_name p)) s :: dir := File mode []]> t)) as Hcreate.
      { replace dir with (tail p) by by rewrite Hp. intros t s Ht Hn.
        apply before_create; [done..|by rewrite Hp]. }
      eapply hoare_conseq; [apply (hoare_unique_temporary I before)|done|]; [by auto|..].
      - intros t s Ht Hn. apply HI. right. eexists. by eapply during_forget, Hcreate.
      - intros [c|k] t; [|done]. intros (s&t'&->&Ht&Hn&->). by apply Hcreate. }
    intros c.
    apply (hoare_handle I _ _ _
      (λ r t, match r with Ok _ => during c (Some b) t | Err _ => during c None t end)).
    + apply (hoare_bind I _ _ _
        (λ r t, match r with Ok _ => during c (Some b) t | Err _ => during c None t end)); [..|done].
      * apply hoare_syscall; intros; (split; [apply HI; right; exists c; eapply during_forget|]);
          eauto using during_forget, during_write.
        all: rewrite <- (app_nil_l b). all: eauto using during_forget, during_write.
      * intros _. apply (hoare_syscall I _ no_effect); unfold no_effect; intros; split;
          eauto using during_forget; apply HI; right; eauto using during_forget.
    + intros [u|e]; [|by apply hoare_discard]. specialize (Hk c). by rewrite Hp in Hk.
  - intros e t [_ Ht]. auto.
Qed.

(** Replacement done: the target is complete and no temporary is left. *)
Definition replaced (t : tree) : Prop := t !! p = Some new ∧ elsewhere None t.

Lemma replaced_inv (allowed : Prop) t : allowed → replaced t → old_or_new allowed t.
Proof.
  intros Ha [Hp He]. split; [auto|]. intros q Hq. by eapply elsewhere_weaken.
Qed.

Lemma unfinished_inv allowed t : unfinished t → old_or_new allowed t.
Proof. intros [Ht|[c Ht]]; [by apply before_inv|by eapply during_inv]. Qed.

Lemma hoare_sync_directory (I P : tree → Prop) d (Q : result unit ErrorKind → tree → Prop) :
  (∀ t, P t → I t) → (∀ r t, P t → Q r t) → hoare I P (sync_directory d) Q.
Proof.
  intros HI HQ. apply (hoare_bind I P (open_file d) _ (λ _, P)); [..|eauto].
  - apply hoare_syscall; [unfold no_effect; eauto|]. intros t Ht. destruct (follow t d); eauto.
  - intros _. apply hoare_syscall; unfold no_effect; eauto.
Qed.

Lemma atomic_replace_hoare :
  hoare (old_or_new True) before (atomic_replace p b mode)
    (λ r t, match r with Ok _ => replaced t | Err _ => unfinished t ∨ replaced t end).
Proof.
  apply (hoare_prepare (old_or_new True)
    (λ dir c, ihandle (rename c p) (λ r,
       match r with Err e => discard c e | Ok _ => sync_directory dir end)));
    [apply unfinished_inv|by auto|]. intros c.
  apply (hoare_handle _ _ _ _
    (λ r t, match r with Ok _ => replaced t | Err _ => during c (Some b) t end)).
  - apply hoare_syscall; [unfold no_effect; eauto using during_inv|].
    intros t Ht. assert (replaced (<[p := File mode b]> (delete c t))).
    { destruct (during_remove _ _ _ Ht) as [_ He]. split; [by rewrite lookup_insert_eq|].
      intros q Hq Hc. unfold added_dir. rewrite lookup_insert_ne by done. by apply He. }
    pose proof Ht as (_&_&_&_&Hx&_). rewrite (Hx b eq_refl).
    destruct (t !! p) as [[]|]; try (split; [by apply replaced_inv|done]). done.
  - intros [u|e].
    { apply hoare_sync_directory; [by intros; apply replaced_inv|]. intros [] t; auto. }
    apply hoare_discard; [apply unfinished_inv|by auto].
Qed.

Lemma atomic_create_hoare :
  hoare (old_or_new (t0 !! p = None)) before (atomic_create p b mode)
    (λ r t, match r with
            | Ok _ => t0 !! p = None ∧ replaced t
            | Err _ => unfinished t ∨ t0 !! p = None ∧ old_or_new True t
            end).
Proof.
  apply (hoare_prepare (old_or_new (t0 !! p = None))
    (λ dir c, ihandle (hard_link c p) (λ r,
       match r with Ok _ => remove_file c ;! sync_directory dir | Err e => discard c e end)));
    [apply unfinished_inv|by auto|]. intros c.
  set (linked := λ t : tree, t0 !! p = None ∧ (c ≠ p ∧ is_temporary c) ∧ t0 !! c = None ∧
    t !! p = Some new ∧ elsewhere (Some c) t ∧ t !! c = Some new).
  assert (∀ allowed t, (t0 !! p = None → allowed) → linked t → old_or_new allowed t) as Hlinked.
  { intros al t Hal (Hn&[? ?]&?&?&He&?). split; [auto|]. intros q Hq.
    eapply elsewhere_weaken; [done| |done]. by intros ? [= <-]. }
  apply (hoare_handle _ _ _ _ (λ r t, match r with Ok _ => linked t | Err _ => during c (Some b) t end)).
  - apply hoare_syscall; [unfold no_effect; eauto using during_inv|].
    intros t Ht. pose proof Ht as (Hp&He&[Hc Htmp]&H0c&Hx&_).
    pose proof (Hx b eq_refl) as Hb. rewrite Hb.
    destruct (t !! p) eqn:Ep; [done|].
    assert (linked (<[p := File mode b]> t)); [|eauto].
    split_and!; try done; [by rewrite lookup_insert_eq| |by rewrite lookup_insert_ne].
    intros q Hq Hqc. unfold added_dir. rewrite lookup_insert_ne by done. by apply He.
  - intros [u|e]; [|by apply hoare_discard; [apply unfinished_inv|auto]].
    apply (hoare_bind _ _ _ _ (λ r t, match r with
      | Ok _ => t0 !! p = None ∧ replaced t | Err _ => linked t end)).
    + apply hoare_syscall; [unfold no_effect; eauto|]. intros t Ht.
      destruct Ht as (Hn&[? ?]&?&Hpt&He&Hct). unfold new in Hct. rewrite Hct.
      assert (replaced (delete c t)); [|by eauto using replaced_inv].
      split; [by rewrite lookup_delete_ne|]. intros q Hq _.
      destruct (decide (q = c)) as [->|]; [left; by rewrite lookup_delete_eq|].
      unfold added_dir. rewrite lookup_delete_ne by done. apply He; [done|congruence].
    + intros _. apply hoare_sync_directory; [naive_solver eauto using replaced_inv|].
      intros [] t [? ?]; eauto using replaced_inv.
    + intros e t Ht. right. split; [apply Ht|]. by apply Hlinked.
Qed.

End atomic.

(** ** Runs without faults *)

Lemma syscall_nofault {A : Type} part (run : tree → result (A * tree) ErrorKind) w :
  faults w = [] →
  syscall part run w = match run (fs w) with
                       | Ok (a, t) => (Ok a, mkWorld t (sequence w) [] (t :: history w))
                       | Err k => (Err k, w)
                       end.
Proof.
  destruct w as [t s fl h]. cbn [faults]. intros ->. unfold syscall, set_fs. cbn. by repeat case_match.
Qed.

Lemma temporary_loop_creates fuel dir name mode m w :
  faults w = [] → fs w !! dir = Some (Dir m) → (temporary_loop fuel dir name mode w).1 ≠ Ok None →
  ∃ s w', temporary_loop fuel dir name mode w = (Ok (Some (temporary_name name s :: dir)), w') ∧
    fs w !! (temporary_name name s :: dir) = None ∧
    fs w' = <[temporary_name name s :: dir := File mode []]> (fs w) ∧ faults w' = [].
Proof.
  revert w. induction fuel as [|fuel IH]; intros w Hf Hd Hne; [done|].
  cbn [temporary_loop] in *. unfold ibind, next_sequence, ihandle in *. cbv zeta in *.
  set (c := temporary_name name (sequence w) :: dir) in *.
  set (w1 := mkWorld (fs w) _ (faults w) (history w)) in *.
  unfold create_new in *. rewrite syscall_nofault in * by done.
  change (fs w1) with (fs w) in *. change (parent c) with (Some dir) in *. cbn match in *.
  destruct (fs w !! c) eqn:Ec; [by apply (IH w1)|].
  rewrite (is_dir_Dir _ _ _ Hd) in *. unfold iret. by repeat eexists.
Qed.

Lemma follow_Dir (t : tree) m p : t !! p = Some (Dir m) → follow t p = Some (Dir m).
Proof. intros Hp. unfold follow, resolve, MAX_SYMLINKS. by rewrite Hp; simpl. Qed.

Lemma follow_File (t : tree) m b p : t !! p = Some (File m b) → follow t p = Some (File m b).
Proof. intros Hp. unfold follow, resolve, MAX_SYMLINKS. by rewrite Hp; simpl. Qed.

Lemma sync_directory_ok d m w :
  faults w = [] → fs w !! d = Some (Dir m) → (sync_directory d w).1 = Ok tt ∧ fs (sync_directory d w).2 = fs w.
Proof.
  intros Hf Hd. unfold sync_directory, ibind, open_file. rewrite syscall_nofault by done.
  rewrite (follow_Dir _ _ _ Hd). unfold sync_all. by rewrite syscall_nofault.
Qed.

(** ** The store *)

Lemma path_for_shape root id :
  ContentId_wf id → ∃ a c, path_for root id = a :: c :: root ∧ String.length a = 62%nat ∧
    c +:+ a = hex_encode id.
Proof.
  intros Hid. unfold path_for, ContentId_hex_digest. eexists _, _. split; [done|].
  pose proof (hex_encode_length id) as Hl. rewrite Hid in Hl. split.
  - rewrite str_length_substring; lia.
  - apply str_split_at. lia.
Qed.

Lemma path_for_inj root i j :
  ContentId_wf i → ContentId_wf j → path_for root i = path_for root j → i = j.
Proof.
  intros Hi Hj E. destruct (path_for_shape root i Hi) as (a&c&Ei&_&Hci).
  destruct (path_for_shape root j Hj) as (a'&c'&Ej&_&Hcj).
  rewrite Ei, Ej in E. injection E as -> ->. rewrite Hci in Hcj.
  apply (f_equal hex_decode) in Hcj. rewrite !hex_decode_encode in Hcj. congruence.
Qed.

(** A temporary never sits where an object would. *)
Lemma temporary_not_object root id s dir j :
  ContentId_wf id → ContentId_wf j →
  temporary_name (ContentId_hex_digest id) s :: dir ≠ path_for root j.
Proof.
  intros Hid Hj E. destruct (path_for_shape root j Hj) as (a&c&Ej&Ha&_).
  rewrite Ej in E. apply (f_equal head), (inj Some) in E.
  pose proof (temporary_name_longer (ContentId_hex_digest id) s) as Hl. rewrite E in Hl.
  unfold ContentId_hex_digest in Hl. rewrite hex_encode_length, Hid in Hl. lia.
Qed.

(** Every stored object has the bytes its name announces. *)
Definition cas_inv (root : FileCas) (t : tree) : Prop :=
  ∀ id m b, ContentId_wf id → t !! path_for root id = Some (File m b) → id = ContentId_of b.

(** The object a store holds under an identifier. *)
Definition stored (root : FileCas) (id : ContentId) (t : tree) : Prop :=
  ∃ m b, follow t (path_for root id) = Some (File m b) ∧ id = ContentId_of b.

Lemma cas_inv_elsewhere root t c n :
  cas_inv root t → (∀ j, ContentId_wf j → c ≠ path_for root j) → cas_inv root (<[c := n]> t).
Proof. intros Ht Hc id m b Hid. rewrite lookup_insert_ne by auto. by apply Ht. Qed.

Lemma cas_inv_delete root t c : cas_inv root t → cas_inv root (delete c t).
Proof. intros Ht id m b Hid [_ ?]%lookup_delete_Some. by eapply Ht. Qed.

Lemma cas_inv_mkdirs root t t' d : cas_inv root t → mkdirs t d = Some t' → cas_inv root t'.
Proof.
  intros Ht Hm id m b Hid Hl.
  destruct (mkdirs_lookup t t' d (path_for root id) Hm) as [E|(_&E&_)]; [|congruence].
  rewrite E in Hl. by eapply Ht.
Qed.

Lemma verify_existing_hoare (I P : tree → Prop) id p :
  (∀ t, P t → I t) →
  hoare I P (verify_existing id p)
    (λ r t, P t ∧ (r = Ok tt → ∃ m b, follow t p = Some (File m b) ∧ id = ContentId_of b)).
Proof.
  intros HI. unfold verify_existing.
  apply (hoare_bind I P _ _ (λ r t, P t ∧ ∀ b, r = Ok b → ∃ m, follow t p = Some (File m b)));
    [|intros b|by intros e t [? _]].
  - apply hoare_map_err, hoare_syscall; [unfold no_effect; by split; [auto|]|].
    intros t Ht. destruct (follow t p) as [[]|] eqn:Ef; cbn; [|done..].
    split_and!; [by apply HI|done|]. intros ? [= <-]. eauto.
  - destruct (ContentId_verify id b) eqn:E.
    + apply hoare_ret. intros t [Ht Hb]. split; [done|]. intros _.
      destruct (Hb b eq_refl) as [m Hm]. apply ContentId_verify_spec in E. eauto.
    + apply hoare_fail. by intros t [? _].
Qed.

Lemma FileCas_put_hoare root b :
  hoare (cas_inv root) (cas_inv root) (FileCas_put root b)
    (λ r t, cas_inv root t ∧ ∀ id, r = Ok id → id = ContentId_of b ∧ stored root id t).
Proof.
  unfold FileCas_put. cbv zeta. set (I := cas_inv root). set (id := ContentId_of b).
  set (p := path_for root id).
  assert (ContentId_wf id) as Hid by apply ContentId_of_wf.
  set (Q := λ (r : result ContentId CasError) (t : tree), I t ∧ ∀ i, r = Ok i → i = id ∧ stored root i t).
  assert (∀ e t, I t → Q (Err e) t) as HQ by by split.
  assert (hoare I I (verify_existing id p ;! iret id) Q) as Hver.
  { eapply hoare_bind; [by apply (verify_existing_hoare I I id p)|intros []|intros e t [? _]; auto].
    apply hoare_ret. intros t [Ht Hs]. split; [done|]. intros i [= <-]. split; [done|by apply Hs]. }
  apply (hoare_bind I I _ _ (λ _, I)); [|intros present|auto].
  { apply (hoare_handle I I _ _ (λ _, I)); [apply hoare_syscall; unfold no_effect; auto|].
    intros r. by apply hoare_ret. }
  destruct present; [done|].
  apply (hoare_bind I I _ _ (λ _, I)); [|intros _|auto].
  { apply hoare_map_err, hoare_syscall; [unfold no_effect; auto|]. intros t Ht.
    destruct (mkdirs t (tail p)) eqn:Em; cbn; [split; by eapply cas_inv_mkdirs|done]. }
  set (tmp := λ c t, I t ∧ (∀ j, ContentId_wf j → c ≠ path_for root j)).
  assert (∀ c n t, tmp c t → tmp c (<[c := n]> t)) as Htmp.
  { intros c n t [Ht Hc]. split; [by apply cas_inv_elsewhere|done]. }
  apply (hoare_bind I I _ _ (λ r t, match r with Ok c => tmp c t ∧ t !! c = Some (File None []) | _ => I t end));
    [|intros c|auto].
  { assert (∀ s, ∀ j, ContentId_wf j →
      temporary_name (ContentId_hex_digest id) s :: tail p ≠ path_for root j) as Hfresh
      by (intros; by apply temporary_not_object).
    apply hoare_map_err.
    eapply hoare_conseq;
      [apply (hoare_unique_temporary I I (tail p) (Some (ContentId_hex_digest id)) None)|done|].
    - done.
    - intros t s Ht _. apply cas_inv_elsewhere; [done|apply Hfresh].
    - intros [c|k] t; cbn [rmap_err]; [|done]. intros (s&t'&->&Ht&_&->).
      split; [|by rewrite lookup_insert_eq]. apply Htmp. split; [done|apply Hfresh]. }
  assert (∀ k, hoare I (tmp c) (discard c k) Q) as Hdisc.
  { intros k. apply (hoare_handle I _ _ _ (λ _, I)); [|intros r; apply hoare_fail; auto].
    apply hoare_syscall; [unfold no_effect; by intros ??? [? _]|]. intros t [Ht _].
    destruct (t !! c) as [[]|]; try done; by split; apply cas_inv_delete. }
  apply (hoare_handle I _ _ _ (λ r t, match r with Ok _ => tmp c t ∧ t !! c = Some (File None b) | _ => tmp c t end)).
  { apply (hoare_bind I _ _ _ (λ r t, match r with Ok _ => tmp c t ∧ t !! c = Some (File None b) | _ => tmp c t end));
      [|intros _|done].
    - apply hoare_syscall; unfold write_content.
      + intros n k t [Ht Hc]. rewrite Hc. specialize (Htmp c (File None ([] ++ take n b)) t Ht).
        split; [apply Htmp|done].
      + intros t [Ht Hc]. rewrite Hc. specialize (Htmp c (File None ([] ++ b)) t Ht).
        split_and!; [apply Htmp|done|by rewrite lookup_insert_eq].
    - apply hoare_syscall; unfold no_effect;
        [intros ??? [Ht Hc]|intros ? [Ht Hc]]; (split; [apply Ht|done]). }
  intros [u|k]; [|by auto].
  apply (hoare_handle I _ _ _ (λ r t, match r with Ok _ => tmp c t ∧ t !! p = Some (File None b) | _ => tmp c t end)).
  { apply hoare_syscall; [unfold no_effect; by intros ??? [[] _]|]. intros t [[Ht Hc] Hb].
    rewrite Hb. destruct (t !! p) eqn:Ep; [by split|].
    assert (I (<[p := File None b]> t)); [|by rewrite lookup_insert_eq].
    intros j m b' Hj. destruct (decide (p = path_for root j)) as [E|E].
    - rewrite <- E, lookup_insert_eq. intros [= <- <-]. symmetry. by apply (path_for_inj root).
    - rewrite lookup_insert_ne by done. by apply Ht. }
  intros [[]|k].
  - apply (hoare_bind I _ _ _ (λ r t, I t ∧ (∀ u, r = Ok u → t !! p = Some (File None b))));
      [|intros u0|intros e t []; auto].
    + apply hoare_map_err, hoare_syscall; [unfold no_effect; by intros ??? [[] _]|].
      intros t [[Ht Hc] Hp]. assert (delete c t !! p = Some (File None b))
        by (by rewrite lookup_delete_ne by by apply Hc).
      destruct (t !! c) as [[]|]; try done; split_and!; by try apply cas_inv_delete.
    + apply hoare_ret. intros t [Ht Hp]. split; [done|]. intros i [= <-]. split; [done|].
      exists None, b. split; [|done]. by eapply follow_File, Hp.
  - destruct k; eauto.
    apply (hoare_handle I _ _ _ (λ _, I)); [|done].
    apply hoare_syscall; [unfold no_effect; by intros ??? [? _]|]. intros t [Ht _].
    destruct (t !! c) as [[]|]; try done; by split; apply cas_inv_delete.
Qed.

Lemma FileCas_get_verified root id b w :
  (FileCas_get root id w).1 = Ok b → id = ContentId_of b.
Proof.
  unfold FileCas_get, ihandle. destruct (read (path_for root id) w) as [[b'|k] w']; cbn.
  - destruct (ContentId_verify id b') eqn:E; cbn; [|done]. intros [= <-].
    by apply ContentId_verify_spec.
  - by destruct k.
Qed.

Lemma FileCas_get_stored root id w :
  stored root id (fs w) → faults w = [] →
  ∃ b, (FileCas_get root id w).1 = Ok b ∧ id = ContentId_of b.
Proof.
  intros (m&b&Hf&Hid) Hfl. exists b. split; [|done].
  unfold FileCas_get, ihandle, read. rewrite syscall_nofault by done. rewrite Hf.
  by rewrite (proj2 (ContentId_verify_spec _ _) Hid).
Qed.

(** ** Properties *)

(** A replacement that returned put the new file in place and left every other
    node alone. *)
Lemma atomic_replace_ok p b mode w w' :
  atomic_replace p b mode w = (Ok tt, w') →
  fs w' !! p = Some (File mode b) ∧ ∀ q n, q ≠ p → fs w !! q = Some n → fs w' !! q = Some n.
Proof.
  destruct w as [t s fl h]. intros Er.
  destruct (atomic_replace_hoare p b mode t (mkWorld t s fl [])) as [HQ _]; [split; [done|by left]|constructor|].
  rewrite (framed_atomic_replace p b mode) in Er.
  destruct (atomic_replace p b mode (mkWorld t s fl [])) as [r' w1]. injection Er as -> <-.
  destruct HQ as [Hp He]. split; [done|]. intros q n Hq Hn. destruct (He q Hq) as [E|(E&_)]; cbn in *; congruence.
Qed.

(** C3: whatever calls fail and wherever the process stops, an atomic
    replacement shows its target either as it was or with the complete new
    contents, changes nothing else that existed, and adds only missing
    directories above the target and temporaries beside it; when it reports
    success the target is new and no temporary is left. *)
Theorem atomic_replace_crash_safe p b mode t s fl :
  let '(r, w) := atomic_replace p b mode (mkWorld t s fl []) in
  Forall (λ t', (t' !! p = t !! p ∨ t' !! p = Some (File mode b)) ∧
                ∀ q, q ≠ p → t' !! q = t !! q ∨ added_dir p t q t' ∨
                              (t !! q = None ∧ is_temporary p q)) (history w) ∧
  (r = Ok tt → fs w !! p = Some (File mode b) ∧
     ∀ q, q ≠ p → fs w !! q = t !! q ∨ added_dir p t q (fs w)).
Proof.
  destruct (atomic_replace_hoare p b mode t (mkWorld t s fl [])) as [HQ Hh];
    [by split; [|left]|done|].
  destruct (atomic_replace p b mode _) as [r w]. cbn [fst snd] in *. split.
  - eapply Forall_impl; [exact Hh|]. intros t' [[|[_ ?]] ?]; auto.
  - intros ->. destruct HQ as [Hp He]. split; [done|]. intros q Hq. by apply He.
Qed.

(** An atomic creation never replaces an existing file, even for a moment:
    if the target exists it fails and the target is untouched throughout;
    otherwise the target appears complete or not at all; nothing else that
    existed changes, and success leaves no temporary behind. *)
Theorem atomic_create_never_overwrites p b mode t s fl :
  let '(r, w) := atomic_create p b mode (mkWorld t s fl []) in
  Forall (λ t', (t' !! p = t !! p ∨ (t !! p = None ∧ t' !! p = Some (File mode b))) ∧
                ∀ q, q ≠ p → t' !! q = t !! q ∨ added_dir p t q t' ∨
                              (t !! q = None ∧ is_temporary p q)) (history w) ∧
  (r = Ok tt → t !! p = None ∧ fs w !! p = Some (File mode b) ∧
     ∀ q, q ≠ p → fs w !! q = t !! q ∨ added_dir p t q (fs w)).
Proof.
  destruct (atomic_create_hoare p b mode t (mkWorld t s fl [])) as [HQ Hh];
    [by split; [|left]|done|].
  destruct (atomic_create p b mode _) as [r w]. cbn [fst snd] in *. split; [done|].
  intros ->. destruct HQ as (Hn&Hp&He). split_and!; [done..|]. intros q Hq. by apply He.
Qed.

(** C33: when no call fails, the parent directory can be made and the target is
    not a directory, an atomic replacement terminates and succeeds, however
    many stale temporaries are around. *)
Theorem atomic_replace_succeeds name dir b mode m t1 w :
  faults w = [] → 0 ≤ sequence w < 2 ^ 64 → Z.of_nat (S (size t1)) ≤ 2 ^ 64 →
  mkdirs (fs w) dir = Some t1 → t1 !! dir = Some (Dir m) →
  (∀ m', t1 !! (name :: dir) ≠ Some (Dir m')) →
  (atomic_replace (name :: dir) b mode w).1 = Ok tt.
Proof.
  intros Hf Hs Hsz Hmk Hd Hp. unfold atomic_replace. cbn [parent ok_or file_name head].
  unfold ibind at 1, ilift. unfold ibind at 1, create_dir_all. rewrite syscall_nofault by done.
  rewrite Hmk. cbn [ok_or rbind].
  set (w1 := mkWorld t1 _ _ _). unfold unique_temporary. cbn [default from_option id].
  pose proof (unique_temporary_total dir name mode w1 Hs) as Htot.
  destruct (temporary_loop_creates (temporary_fuel w1) dir name mode m w1)
    as (s&w2&Hrun&Hnone&Hfs&Hf2); [done..|by apply Htot|].
  unfold ibind at 1 2. rewrite Hrun. unfold iret at 1.
  set (c := temporary_name name s :: dir) in *.
  assert (c ≠ name :: dir) as Hcp.
  { unfold c. intros E. apply (f_equal head), (inj Some) in E.
    pose proof (temporary_name_longer name s) as Hl. rewrite E in Hl. lia. }
  assert (c ≠ dir ∧ name :: dir ≠ dir) as [Hcd Hpd].
  { split; intros E; apply (f_equal length) in E; cbn in E; lia. }
  unfold ihandle at 1, ibind at 1, write_all. rewrite syscall_nofault by done.
  unfold sync_all. rewrite syscall_nofault by done. cbn [fs].
  unfold ihandle, rename. rewrite syscall_nofault by done. cbn [fs].
  unfold write_content. rewrite Hfs, lookup_insert_eq, insert_insert_eq, lookup_insert_eq.
  rewrite lookup_insert_ne by done. change (fs w1) with t1 in *.
  assert (∀ n t, (let w' := mkWorld (<[name :: dir := n]> (delete c (<[c := File mode ([] ++ b)]> t1)))
            (sequence w2) [] t in (sync_directory dir w').1) = Ok tt) as Hsync.
  { intros n t. apply (sync_directory_ok dir m); [done|]. cbn [fs].
    by rewrite lookup_insert_ne, lookup_delete_ne, lookup_insert_ne. }
  destruct (t1 !! (name :: dir)) as [[| |]|] eqn:Ep; try apply Hsync. naive_solver.
Qed.

(** C22: storing bytes keeps every object of the store equal to what its name
    announces, at every step and whatever calls fail; on success the object can
    be read back as the same bytes (or a SHA-256 collision of them); and reading
    never returns bytes that do not hash to the requested identifier. *)
Theorem cas_put_get root b w :
  cas_inv root (fs w) → Forall (cas_inv root) (history w) →
  let '(r, w1) := FileCas_put root b w in
  Forall (cas_inv root) (history w1) ∧
  (∀ id, r = Ok id → id = ContentId_of b ∧
     ∀ w2, fs w2 = fs w1 → faults w2 = [] →
       ∃ b', (FileCas_get root id w2).1 = Ok b' ∧ (b' = b ∨ collision b' b)) ∧
  (∀ id b' w2, (FileCas_get root id w2).1 = Ok b' → id = ContentId_of b').
Proof.
  intros Hi Hh. destruct (FileCas_put_hoare root b w Hi Hh) as [[Hi' Hok] Hh'].
  destruct (FileCas_put root b w) as [r w1]. cbn [fst snd] in *.
  split_and!; [done| |by intros; eapply FileCas_get_verified].
  intros id Hr. destruct (Hok id Hr) as [-> Hst]. split; [done|]. intros w2 Hfs Hfl.
  rewrite <- Hfs in Hst. destruct (FileCas_get_stored root _ w2 Hst Hfl) as (b'&Hget&Hb').
  exists b'. split; [done|]. unfold collision. destruct (decide (b' = b)); auto.
Qed.

End storage.

(** ** Witnesses *)

Definition sample_world : World :=
  mkWorld (<[["data"] := Dir None]> {[["f.tmp"; "data"] := File None [x01]]}) 7 [] [].

Lemma atomic_replace_succeeds_witness :
  (atomic_replace 42 ["f"; "data"] [x01; x02] None sample_world).1 = Ok tt.
Proof.
  apply (atomic_replace_succeeds 42 "f" ["data"] [x01; x02] None None (fs sample_world) sample_world).
  - reflexivity.
  - cbn. lia.
  - vm_compute. discriminate.
  - vm_compute. reflexivity.
  - vm_compute. reflexivity.
  - intros m'. vm_compute. discriminate.
Defined.

Module Samples.
Import Toy.

Lemma cas_put_get_witness :
  Forall (cas_inv ["cas"]) (history (FileCas_put 42 ["cas"] [x01; x02] (mkWorld ∅ 0 [] [])).2).
Proof.
  pose proof (cas_put_get 42 ["cas"] [x01; x02] (mkWorld ∅ 0 [] [])) as Hput.
  destruct (FileCas_put _ _ _ _) as [r w]. apply Hput.
  - intros id m b _. cbn. rewrite lookup_empty. discriminate.
  - constructor.
Defined.

End Samples.
