(* ===== verification/Identity.v ===== *)
(** The persistent identity of a node (crates/peerless-identity/src/lib.rs):
    loading the key file or creating it, over the faulty file system. *)

From S2P Require Import Prelude External Core Protocol FileSystem Storage.
From Stdlib Require Import Strings.Byte.
From stdpp Require Import pretty.
#[local] Open Scope Z_scope.
#[local] Open Scope result_scope.

(** [Keypair::to_protobuf_encoding] and [Keypair::from_protobuf_encoding]. *)
Class KeyFiles `{Keys} := {
  to_protobuf_encoding : Keypair → option bytes;
  from_protobuf_encoding : bytes → option Keypair;
  protobuf_roundtrip kp b : to_protobuf_encoding kp = Some b → from_protobuf_encoding b = Some kp;
}.

Section identity.
(** [std::process::id()]. *)
Context (pid : N) `{Sha256} `{KeyFiles}.

Definition on_disk_error {A} (m : io A ErrorKind) : io A IdentityError := imap_err (λ _, IdentityIo) m.

Definition secure_key_metadata (p : path) : io unit IdentityError :=
  let! n := on_disk_error (symlink_metadata p) in
  match n with
  | File _ _ => on_disk_error (set_permissions p 0x180)
  | _ => ifail InvalidKey
  end.

(** The key file is checked, read and decoded. *)
Definition load_key (key_path : path) : io Keypair IdentityError :=
  secure_key_metadata key_path ;!
  let! b := on_disk_error (read key_path) in
  ilift (ok_or (from_protobuf_encoding b) InvalidKey).

Definition key_temporary (directory : path) (nonce : N) : path :=
  (".key." +:+ pretty pid +:+ "." +:+ pretty nonce +:+ ".tmp") :: directory.

(** A new key [fresh] is written aside and linked into place; whoever links
    first wins.  [nonce] is the time since 1970 in nanoseconds, [None] when the
    clock is before it. *)
Definition generate_key_file (directory key_path : path) (fresh : Keypair) (nonce : option N) :
    io Keypair IdentityError :=
  let! encoded := ilift (ok_or (to_protobuf_encoding fresh) InvalidKey) in
  let! n := ilift (ok_or nonce InvalidKey) in
  let temporary := key_temporary directory n in
  on_disk_error (create_new (Some 0x180) temporary) ;!
  on_disk_error (write_all temporary encoded) ;!
  on_disk_error sync_all ;!
  ihandle (hard_link temporary key_path) (λ r,
    match r with
    | Ok _ => on_disk_error (remove_file temporary) ;! iret fresh
    | Err AlreadyExists => on_disk_error (remove_file temporary) ;! load_key key_path
    | Err _ => discard temporary IdentityIo
    end).

Definition load_or_generate (directory : path) (fresh : Keypair) (nonce : option N) :
    io NodeIdentity IdentityError :=
  on_disk_error (create_dir_all directory) ;!
  let! n := on_disk_error (symlink_metadata directory) in
  match n with
  | Dir _ =>
      on_disk_error (set_permissions directory 0x1C0) ;!
      let key_path := "key.protobuf" :: directory in
      let! present := exists_ key_path in
      let! kp := if present : bool then load_key key_path
                 else generate_key_file directory key_path fresh nonce in
      iret (identity_of kp)
  | _ => ifail InvalidKey
  end.

(** ** What happens to the key file *)

Section run.
Context (directory : path) (fresh : Keypair) (nonce : option N).

Definition key_file : path := "key.protobuf" :: directory.

(** What is at the key's path: nothing, the bytes of a file, or something else. *)
Definition key_view (t : tree) : option (option bytes) :=
  match t !! key_file with
  | Some (File _ b) => Some (Some b)
  | Some _ => Some None
  | None => None
  end.

Context (v0 : option (option bytes)).

(** The key's path is as it was, or was empty and holds the new key. *)
Definition kept_or_created (t : tree) : Prop :=
  key_view t = v0 ∨ v0 = None ∧ ∃ e, to_protobuf_encoding fresh = Some e ∧ key_view t = Some (Some e).

(** A key that was returned is the one in the file. *)
Definition returned (r : result Keypair IdentityError) (t : tree) : Prop :=
  kept_or_created t ∧
  ∀ kp, r = Ok kp → ∃ b, key_view t = Some (Some b) ∧ from_protobuf_encoding b = Some kp.

Lemma key_view_other (t : tree) p n : p ≠ key_file → key_view (<[p := n]> t) = key_view t.
Proof. intros Hp. unfold key_view. by rewrite lookup_insert_ne. Qed.
Lemma key_view_delete (t : tree) p : p ≠ key_file → key_view (delete p t) = key_view t.
Proof. intros Hp. unfold key_view. by rewrite lookup_delete_ne. Qed.

Lemma key_view_set_mode (t : tree) q n mode :
  t !! q = Some n → key_view (<[q := set_mode n mode]> t) = key_view t.
Proof.
  intros Hq. destruct (decide (q = key_file)) as [->|Hne]; [|by apply key_view_other].
  unfold key_view. rewrite lookup_insert_eq, Hq. by destruct n.
Qed.

(** A step that leaves the view alone. *)
Lemma hoare_same {A E} (V : option (option bytes) → Prop) (I : tree → Prop) (part : nat → tree → tree)
    (run : tree → result (A * tree) ErrorKind) (f : ErrorKind → E) (Q : result A E → tree → Prop) :
  (∀ t, V (key_view t) → I t) →
  (∀ n t, key_view (part n t) = key_view t) →
  (∀ t, V (key_view t) → match run t with Ok (a, t') => key_view t' = key_view t ∧ Q (Ok a) t' | Err _ => True end) →
  (∀ e t, V (key_view t) → Q (Err e) t) →
  hoare I (λ t, V (key_view t)) (imap_err f (syscall part run)) Q.
Proof.
  intros HI Hpart Hrun He. apply hoare_map_err, hoare_syscall.
  - intros n k t Ht. rewrite <- (Hpart n t) in Ht. split; [by apply HI|]. by apply He.
  - intros t Ht. specialize (Hrun t Ht). destruct (run t) as [[a t']|k]; [|by apply He].
    destruct Hrun as [Hv HQ]. split; [|done]. apply HI. by rewrite Hv.
Qed.

Lemma returned_kept r t : kept_or_created t → (∀ kp, r ≠ Ok kp) → returned r t.
Proof. intros Ht Hr. split; [done|]. intros kp E. by destruct (Hr kp). Qed.

(** The calls of loading and generating, one by one, from a known view [v]. *)
Section steps.
Context (v : option (option bytes)) (Hv : ∀ t, key_view t = v → kept_or_created t).

Lemma hoare_metadata p :
  hoare kept_or_created (λ t, key_view t = v) (on_disk_error (symlink_metadata p))
    (λ r t, key_view t = v ∧ (p = key_file → ∀ m c, r = Ok (File m c) → v = Some (Some c))).
Proof.
  apply (hoare_same (λ x, x = v)); [done|done| |by intros e t <-].
  intros t <-. destruct (t !! p) as [n|] eqn:En; [|done]. split; [done|]. split; [done|].
  intros -> m c [= ->]. unfold key_view. by rewrite En.
Qed.

Lemma hoare_permissions p mode :
  hoare kept_or_created (λ t, key_view t = v) (on_disk_error (set_permissions p mode))
    (λ _ t, key_view t = v).
Proof.
  apply (hoare_same (λ x, x = v)); [done|done| |by intros e t <-].
  intros t <-. unfold rbind, ok_or. destruct (resolve _ t p) as [q|]; [|done].
  destruct (t !! q) as [n|] eqn:En; [|done]. split; by apply key_view_set_mode.
Qed.

Lemma hoare_read_key b :
  v = Some (Some b) →
  hoare kept_or_created (λ t, key_view t = v) (on_disk_error (read key_file))
    (λ r t, key_view t = v ∧ ∀ c, r = Ok c → c = b).
Proof.
  intros ->. apply (hoare_same (λ x, x = Some (Some b))); [done|done| |by intros e t ->].
  intros t Ht. pose proof Ht as Hk. unfold key_view in Hk.
  destruct (t !! key_file) as [[m c| |]|] eqn:Ek; [|done..]. injection Hk as ->.
  rewrite (follow_File _ _ _ _ Ek). split; [done|]. split; [done|]. by intros c [= ->].
Qed.

Lemma kept_error e t : key_view t = v → returned (Err e) t.
Proof. intros Ht. apply returned_kept; [by apply Hv|done]. Qed.

Lemma hoare_secure_metadata :
  hoare kept_or_created (λ t, key_view t = v) (secure_key_metadata key_file)
    (λ r t, key_view t = v ∧ ∀ u, r = Ok u → ∃ b, v = Some (Some b)).
Proof.
  unfold secure_key_metadata. eapply hoare_bind; [apply hoare_metadata| |by intros e t [? _]].
  intros [m c| |]; [|by apply hoare_fail; intros t [? _]..].
  intros w [Hw Hc] Hh. destruct (hoare_permissions key_file 0x180 w Hw Hh) as [HQ Hh'].
  split; [|done]. split; [done|]. intros u _. exists c. by eapply Hc.
Qed.

Lemma load_key_hoare : hoare kept_or_created (λ t, key_view t = v) (load_key key_file) returned.
Proof.
  unfold load_key. eapply hoare_bind; [apply hoare_secure_metadata| |intros e t [Ht _]; by apply kept_error].
  intros u w [Hw Hu] Hh. destruct (Hu u eq_refl) as [b Hb]. revert w Hw Hh.
  change (hoare kept_or_created (λ t, key_view t = v)
    (let! b := on_disk_error (read key_file) in ilift (ok_or (from_protobuf_encoding b) InvalidKey)) returned).
  eapply hoare_bind; [by apply (hoare_read_key b)| |intros e t [Ht _]; by apply kept_error].
  intros c w [Hw Hc] Hh. rewrite (Hc c eq_refl). split; [|done]. split; [by apply Hv|].
  intros kp Hkp. exists b. split; [by rewrite <- Hb|]. cbn in Hkp.
  destruct (from_protobuf_encoding b); [by injection Hkp as ->|done].
Qed.

(** The temporary holds [c], and nothing else changed. *)
Definition staged (tmp : path) (c : bytes) (t : tree) : Prop :=
  key_view t = v ∧ ∃ m, t !! tmp = Some (File m c).

Lemma hoare_create tmp mode :
  tmp ≠ key_file →
  hoare kept_or_created (λ t, key_view t = v) (on_disk_error (create_new mode tmp))
    (λ r t, match r with Ok _ => staged tmp [] t | Err _ => key_view t = v end).
Proof.
  intros Htmp. apply (hoare_same (λ x, x = v)); [done|done| |by intros e t <-].
  intros t <-. destruct (t !! tmp); [done|]. destruct (match parent tmp with Some q => _ | None => _ end); [|done].
  split; [by apply key_view_other|]. split; [by rewrite key_view_other|].
  exists mode. by rewrite lookup_insert_eq.
Qed.

Lemma write_content_staged tmp b c t :
  tmp ≠ key_file → staged tmp c t → staged tmp (c ++ b) (write_content tmp b t).
Proof.
  intros Htmp [Ht [m Hm]]. unfold write_content. rewrite Hm. split; [by rewrite key_view_other|].
  exists m. by rewrite lookup_insert_eq.
Qed.

Lemma hoare_write tmp b :
  tmp ≠ key_file →
  hoare kept_or_created (staged tmp []) (on_disk_error (write_all tmp b))
    (λ r t, match r with Ok _ => staged tmp b t | Err _ => key_view t = v end).
Proof.
  intros Htmp. apply hoare_map_err, hoare_syscall.
  - intros n k t Ht. pose proof (write_content_staged tmp (take n b) [] t Htmp Ht) as [Hs _].
    split; [by apply Hv|done].
  - intros t Ht. pose proof (write_content_staged tmp b [] t Htmp Ht) as Hs. split; [apply Hv, Hs|done].
Qed.

Lemma hoare_sync tmp b :
  hoare kept_or_created (staged tmp b) (on_disk_error sync_all)
    (λ r t, match r with Ok _ => staged tmp b t | Err _ => key_view t = v end).
Proof.
  apply hoare_map_err, hoare_syscall.
  - intros n k t [Ht _]. split; [by apply Hv|done].
  - intros t Ht. split; [apply Hv, Ht|done].
Qed.

Lemma hoare_remove_file tmp :
  tmp ≠ key_file →
  hoare kept_or_created (λ t, key_view t = v) (remove_file tmp) (λ _ t, key_view t = v).
Proof.
  intros Htmp. apply hoare_syscall; [intros n k t Ht; split; [by apply Hv|done]|]. intros t Ht.
  assert (key_view (delete tmp t) = v) as Hd by by rewrite key_view_delete.
  destruct (t !! tmp) as [[| |]|]; [| | |done]; try done; split; auto.
Qed.

Lemma hoare_remove {A} tmp (k : io A IdentityError) Q :
  tmp ≠ key_file → hoare kept_or_created (λ t, key_view t = v) k Q →
  (∀ e t, key_view t = v → Q (Err e) t) →
  hoare kept_or_created (λ t, key_view t = v) (on_disk_error (remove_file tmp) ;! k) Q.
Proof.
  intros Htmp Hk He. eapply hoare_bind with (R := λ _ t, key_view t = v); [|done|by intros e t; apply He].
  by apply hoare_map_err, hoare_remove_file.
Qed.

End steps.

Lemma temporary_not_key n : key_temporary directory n ≠ key_file.
Proof. intros E. discriminate E. Qed.

Lemma hoare_link tmp e :
  tmp ≠ key_file → to_protobuf_encoding fresh = Some e →
  hoare kept_or_created (staged v0 tmp e) (hard_link tmp key_file)
    (λ r t, match r with
            | Ok _ => v0 = None ∧ key_view t = Some (Some e)
            | Err _ => key_view t = v0
            end).
Proof.
  intros Htmp He. apply hoare_syscall.
  - intros n k t [Ht _]. split; [by left|done].
  - intros t [Ht [m Hm]]. rewrite Hm. pose proof Ht as Hk. unfold key_view in Hk.
    destruct (t !! key_file) eqn:Ek; [done|].
    assert (key_view (<[key_file := File m e]> t) = Some (Some e)) as Hn by (unfold key_view; by rewrite lookup_insert_eq).
    split; [right; eauto|done].
Qed.

Lemma generate_hoare :
  hoare kept_or_created (λ t, key_view t = v0) (generate_key_file directory key_file fresh nonce) returned.
Proof.
  assert (∀ t, key_view t = v0 → kept_or_created t) as Hv0 by (by left).
  unfold generate_key_file. destruct (to_protobuf_encoding fresh) as [e|] eqn:He; cbn [ok_or];
    [|intros w Hw Hh; split; [by apply (kept_error v0)|done]].
  destruct nonce as [n|]; cbn [ok_or]; [|intros w Hw Hh; split; [by apply (kept_error v0)|done]].
  set (tmp := key_temporary directory n). pose proof (temporary_not_key n : tmp ≠ key_file) as Htmp.
  change (hoare kept_or_created (λ t, key_view t = v0)
    (on_disk_error (create_new (Some 0x180) tmp) ;! on_disk_error (write_all tmp e) ;! on_disk_error sync_all ;!
     ihandle (hard_link tmp key_file) (λ r,
       match r with
       | Ok _ => on_disk_error (remove_file tmp) ;! iret fresh
       | Err AlreadyExists => on_disk_error (remove_file tmp) ;! load_key key_file
       | Err _ => discard tmp IdentityIo
       end)) returned).
  eapply hoare_bind; [by apply (hoare_create v0)| |intros k t Ht; by apply (kept_error v0)]. intros [].
  eapply hoare_bind; [by apply (hoare_write v0)| |intros k t Ht; by apply (kept_error v0)]. intros [].
  eapply hoare_bind; [by apply (hoare_sync v0)| |intros k t Ht; by apply (kept_error v0)]. intros [].
  eapply hoare_handle; [by apply hoare_link|]. intros [[]|k].
  - intros w [H0' Hw] Hh. revert w Hw Hh.
    assert (∀ t, key_view t = Some (Some e) → kept_or_created t) as Hv1 by (right; eauto).
    apply (hoare_remove (Some (Some e))); [done|done| |].
    + apply hoare_ret. intros t Ht. split; [by apply Hv1|]. intros kp [= <-]. exists e.
      split; [done|by apply protobuf_roundtrip].
    + intros k t Ht. by apply (kept_error (Some (Some e))).
  - assert (hoare kept_or_created (λ t, key_view t = v0) (discard tmp IdentityIo) returned) as Hd.
    { unfold discard. eapply hoare_handle with (R := λ _ t, key_view t = v0).
      - by apply hoare_remove_file.
      - intros r. apply hoare_fail. intros t Ht. by apply (kept_error v0). }
    destruct k; try exact Hd. apply (hoare_remove v0); [done|done|by apply load_key_hoare|].
    intros e' t Ht. by apply (kept_error v0).
Qed.

Lemma mkdirs_key_view (t t' : tree) : mkdirs t directory = Some t' → key_view t' = key_view t.
Proof.
  intros Hm. unfold key_view. destruct (mkdirs_lookup t t' directory key_file Hm) as [->|(_&_&Hl)]; [done|].
  cbn [key_file length] in Hl. lia.
Qed.

Lemma load_or_generate_hoare :
  hoare kept_or_created (λ t, key_view t = v0) (load_or_generate directory fresh nonce) (λ r t,
    kept_or_created t ∧ ∀ i, r = Ok i →
      ∃ b kp, key_view t = Some (Some b) ∧ from_protobuf_encoding b = Some kp ∧ i = identity_of kp).
Proof.
  assert (∀ t, key_view t = v0 → kept_or_created t) as Hv0 by (by left).
  unfold load_or_generate.
  eapply hoare_bind with (R := λ _ t, key_view t = v0); [| |by intros e t Ht; split; [apply Hv0|]].
  { apply (hoare_same (λ x, x = v0)); [done|done| |by intros e t <-].
    intros t <-. destruct (mkdirs t directory) as [t'|] eqn:Em; [|done].
    split; by apply mkdirs_key_view. }
  intros []. eapply hoare_bind; [by apply (hoare_metadata v0)| |by intros e t [Ht _]; split; [apply Hv0|]].
  intros n. eapply hoare_conseq with (P' := λ t, key_view t = v0); [|by intros t [Ht _]|intros r t HQ; exact HQ].
  destruct n as [|m|]; [by apply hoare_fail; intros t Ht; split; [apply Hv0|]| |
    by apply hoare_fail; intros t Ht; split; [apply Hv0|]].
  eapply hoare_bind; [by apply (hoare_permissions v0)| |by intros e t Ht; split; [apply Hv0|]].
  intros []. cbv zeta. fold key_file.
  eapply hoare_bind with (R := λ _ t, key_view t = v0); [| |by intros e t Ht; split; [apply Hv0|]].
  { unfold exists_. eapply hoare_handle with (R := λ _ t, key_view t = v0); [|by intros r; apply hoare_ret].
    apply hoare_syscall; [by intros k n t Ht; split; [apply Hv0|]|by intros t Ht; split; [apply Hv0|]]. }
  intros present. eapply hoare_bind with (R := returned).
  - destruct present; [by apply load_key_hoare|apply generate_hoare].
  - intros kp. apply hoare_ret. intros t [Ht Hkp]. split; [done|]. intros i [= <-].
    destruct (Hkp kp eq_refl) as (b&Hb&Hd). eauto.
  - intros e t [Ht _]. by split.
Qed.

End run.
End identity.

(** ** Starts *)

Section starts.
Context `{Sha256} `{KeyFiles} (directory : path).

(** What can happen to the file system between and during the starts of a node:
    anything that leaves the key's path alone, a start that is interrupted after
    any of its calls, and a start that ends, with the identity it returns. *)
Inductive boot (t : tree) : tree → option NodeIdentity → Prop :=
| boot_other t' : key_view directory t' = key_view directory t → boot t t' None
| boot_crash pid fresh nonce s fl t' :
    t' ∈ history (load_or_generate pid directory fresh nonce (mkWorld t s fl [])).2 → boot t t' None
| boot_end pid fresh nonce s fl r w :
    load_or_generate pid directory fresh nonce (mkWorld t s fl []) = (r, w) →
    boot t (fs w) match r with Ok i => Some i | Err _ => None end.

(** A sequence of those, with the identities that were returned. *)
Inductive boots (t : tree) : tree → list NodeIdentity → Prop :=
| boots_none : boots t t []
| boots_more t' t'' ids o : boots t t' ids → boot t' t'' o → boots t t'' (ids ++ option_list o).

(** The key file is there and holds the key of [i]. *)
Definition key_of (t : tree) (i : NodeIdentity) : Prop :=
  ∃ b kp, key_view directory t = Some (Some b) ∧ from_protobuf_encoding b = Some kp ∧ i = identity_of kp.

Lemma boot_key t t' o :
  boot t t' o →
  (∀ x, key_view directory t = Some x → key_view directory t' = Some x) ∧ (∀ i, o = Some i → key_of t' i).
Proof.
  assert (∀ fresh t', kept_or_created directory fresh (key_view directory t) t' →
    ∀ x, key_view directory t = Some x → key_view directory t' = Some x) as Hkeep.
  { intros fresh u [->|[Hn _]] x Hx; [done|congruence]. }
  destruct 1 as [t' E|pid fresh nonce s fl t' Hin|pid fresh nonce s fl r w E].
  - by rewrite E.
  - destruct (load_or_generate_hoare pid directory fresh nonce (key_view directory t) (mkWorld t s fl [])) as [_ Hh];
      [done|constructor|]. rewrite Forall_forall in Hh. split; [|done]. by apply (Hkeep fresh), Hh.
  - destruct (load_or_generate_hoare pid directory fresh nonce (key_view directory t) (mkWorld t s fl [])) as [[Hk Hi] _];
      [done|constructor|]. rewrite E in Hk, Hi. destruct r as [i|e]; cbn [fst snd] in *.
    + split; [by apply (Hkeep fresh)|]. intros j [= <-]. destruct (Hi i eq_refl) as (b&kp&?&?&?). by exists b, kp.
    + split; [by apply (Hkeep fresh)|done].
Qed.

Lemma boots_key t t' ids :
  boots t t' ids →
  (∀ x, key_view directory t = Some x → key_view directory t' = Some x) ∧ (∀ i, i ∈ ids → key_of t' i).
Proof.
  induction 1 as [|t' t'' ids o _ [IHk IHi] Hb]; [split; [done|by intros i Hi%elem_of_nil]|].
  apply boot_key in Hb as [Hk Hi]. split; [auto|]. intros i [Hi'|Hi']%elem_of_app.
  - destruct (IHi i Hi') as (b&kp&Hb&?&?). exists b, kp. auto.
  - destruct o as [j|]; cbn in Hi'; [|by apply elem_of_nil in Hi']. apply list_elem_of_singleton in Hi' as ->. auto.
Qed.

(** C11: a node keeps its identity: over any sequence of starts, each with its
    own fresh key, interrupted or failing at any file-system call, and of other
    changes that leave the key file alone, all starts that succeed return one
    and the same identity, and where a key file was there from the beginning it
    is the identity of that key. *)
Theorem identity_never_changes t t' ids :
  boots t t' ids →
  (∀ i j, i ∈ ids → j ∈ ids → i = j) ∧
  (∀ m b, t !! key_file directory = Some (File m b) →
     ∀ i, i ∈ ids → ∃ kp, from_protobuf_encoding b = Some kp ∧ i = identity_of kp).
Proof.
  intros [Hk Hi]%boots_key. split.
  - intros i j (b&kp&Hb&Hd&->)%Hi (b'&kp'&Hb'&Hd'&->)%Hi. congruence.
  - intros m b Hm i (b'&kp&Hb'&Hd&->)%Hi. exists kp. split; [|done].
    rewrite (Hk (Some b)) in Hb' by (unfold key_view; by rewrite Hm). congruence.
Qed.

End starts.

(** ** Witness *)

Module Samples.
Import Toy.

Definition toy_key (b : bytes) : option bytes := match b with x07 :: k => Some k | _ => None end.
#[export] Instance toy_key_files : KeyFiles :=
  {| to_protobuf_encoding kp := Some (x07 :: kp); from_protobuf_encoding := toy_key;
     protobuf_roundtrip kp b E := ltac:(injection E as <-; reflexivity) |}.

(** A start that is interrupted before the key is linked, one that succeeds and
    one with another fresh key. *)
Definition start_ (key : byte) (fl : list (option fault)) (t : tree) :
    result NodeIdentity IdentityError * World :=
  load_or_generate 7 ["identity"] ([key] : Keypair) (Some (5 + Byte.to_N key)%N) (mkWorld t 0 fl []).
Definition tree0 : tree := {[[] := Dir None]}.
Definition first_start := start_ x01 [None; None; None; None; None; Some (mkFault OtherKind 1)] tree0.
Definition second_start := start_ x02 [] (fs first_start.2).
Definition third_start := start_ x03 [] (fs second_start.2).

Definition id2 : NodeIdentity := identity_of ([x02] : Keypair).

Lemma starts_work :
  first_start.1 = Err IdentityIo ∧ second_start.1 = Ok id2 ∧
  third_start.1 = Ok id2.
Proof. split_and!; vm_compute; reflexivity. Qed.

Definition outcome (r : result NodeIdentity IdentityError) : option NodeIdentity :=
  match r with Ok i => Some i | Err _ => None end.
Definition got (r : result NodeIdentity IdentityError) : NodeIdentity :=
  default (identity_of ([x00] : Keypair)) (outcome r).

Lemma started key fl t : boot ["identity"] t (fs (start_ key fl t).2) (outcome (start_ key fl t).1).
Proof. eapply (boot_end ["identity"] t 7), surjective_pairing. Qed.

Lemma identity_never_changes_witness : got second_start.1 = got third_start.1.
Proof.
  refine (proj1 (identity_never_changes ["identity"] tree0 (fs third_start.2)
    [got second_start.1; got third_start.1] _) _ _ _ _); [|by left|by right; left].
  destruct starts_work as (H1&H2&H3). rewrite H2, H3.
  refine (boots_more ["identity"] tree0 (fs second_start.2) _ [id2]
    (Some id2) _ _).
  - refine (boots_more ["identity"] tree0 (fs first_start.2) _ [] (Some id2) _ _).
    + refine (boots_more ["identity"] tree0 tree0 _ [] None (boots_none _ _) _).
      exact (eq_rect _ (boot _ _ _) (started _ _ tree0) _ (f_equal outcome H1)).
    + exact (eq_rect _ (boot _ _ _) (started x02 [] (fs first_start.2)) _ (f_equal outcome H2)).
  - exact (eq_rect _ (boot _ _ _) (started x03 [] (fs second_start.2)) _ (f_equal outcome H3)).
Defined.

End Samples.
