(* ===== verification/Merkle.v ===== *)
(** The Merkle tree over event hashes ([merkle_root], [merkle_proof] and
    [MerkleProof::verify] in crates/peerless-ledger/src/lib.rs). *)

From S2P Require Import Prelude External.
From Stdlib Require Import Strings.Byte.

Abbreviation Hash := bytes.

Record MerkleProof := mkMerkleProof {
  proof_index : nat;
  siblings : list Hash;
}.

Section merkle.
Context `{Sha256}.

Definition pair_hash (left right : Hash) : Hash := sha256 (left ++ right).

(** A level of odd length is extended with a copy of its last hash. *)
Definition pad_level (level : list Hash) : list Hash :=
  if Nat.odd (length level) then level ++ [default [] (last level)] else level.

(** [level.as_chunks::<2>().0.iter().map(|pair| pair_hash(pair[0], pair[1]))]. *)
Fixpoint pair_up (level : list Hash) : list Hash :=
  match level with
  | a :: b :: rest => pair_hash a b :: pair_up rest
  | _ => []
  end.

Definition next_level (level : list Hash) : list Hash := pair_up (pad_level level).

(** The [while level.len() > 1] loop; [merkle_loop_singleton] shows that the
    number of leaves is enough fuel. *)
Fixpoint merkle_loop (fuel : nat) (level : list Hash) : list Hash :=
  match fuel with
  | O => level
  | S fuel => if (1 <? length level)%nat then merkle_loop fuel (next_level level) else level
  end.

Definition merkle_root (leaves : list Hash) : Hash :=
  if bool_decide (leaves = []) then sha256 []
  else default [] (merkle_loop (length leaves) leaves !! 0%nat).

Fixpoint proof_loop (fuel : nat) (level : list Hash) (cursor : nat) (acc : list Hash) : list Hash :=
  match fuel with
  | O => acc
  | S fuel =>
      if (1 <? length level)%nat then
        let level := pad_level level in
        proof_loop fuel (pair_up level) (cursor / 2)
          (acc ++ [default [] (level !! Nat.lxor cursor 1)])
      else acc
  end.

Definition merkle_proof (leaves : list Hash) (index : nat) : option MerkleProof :=
  if (length leaves <=? index)%nat then None
  else Some (mkMerkleProof index (proof_loop (length leaves) leaves index [])).

(** The [for sibling in &self.siblings] loop. *)
Fixpoint climb (current : Hash) (index : nat) (sibs : list Hash) : Hash :=
  match sibs with
  | [] => current
  | s :: sibs =>
      climb (if Nat.even index then pair_hash current s else pair_hash s current) (index / 2) sibs
  end.

Definition MerkleProof_verify (p : MerkleProof) (leaf root : Hash) : bool :=
  bool_decide (climb leaf (proof_index p) (siblings p) = root).

(** ** Levels *)

Lemma pad_level_even level : Nat.even (length (pad_level level)) = true.
Proof.
  unfold pad_level. destruct (Nat.odd (length level)) eqn:E.
  - rewrite length_app. cbn. by rewrite Nat.add_1_r, Nat.even_succ.
  - by rewrite <- Nat.negb_odd, E.
Qed.

Lemma length_pad_level level :
  length (pad_level level) = (length level + if Nat.odd (length level) then 1 else 0)%nat.
Proof. unfold pad_level. destruct (Nat.odd _); rewrite ?length_app; cbn; lia. Qed.

Lemma list_pair_ind {A} (P : list A → Prop) :
  P [] → (∀ a, P [a]) → (∀ a b l, P l → P (a :: b :: l)) → ∀ l, P l.
Proof.
  intros H0 H1 H2. enough (∀ l, P l ∧ ∀ a, P (a :: l)) by naive_solver.
  induction l as [|b l [IH1 IH2]]; auto.
Qed.

Lemma length_pair_up level : length (pair_up level) = (length level / 2)%nat.
Proof.
  induction level as [| |a b l IH] using list_pair_ind; [done..|].
  cbn [pair_up length]. rewrite IH.
  replace (S (S (length l))) with (length l + 1 * 2)%nat by lia.
  rewrite Nat.div_add by lia. lia.
Qed.

Lemma pair_up_lookup level k a b :
  level !! (2 * k)%nat = Some a → level !! (2 * k + 1)%nat = Some b →
  pair_up level !! k = Some (pair_hash a b).
Proof.
  revert k. induction level as [|x|x y l IH] using list_pair_ind; intros k Ha Hb; [done|..].
  { destruct k; [done|]. by replace (2 * S k)%nat with (S (S (2 * k))) in Ha by lia. }
  destruct k as [|k].
  - by simplify_eq/=.
  - replace (2 * S k)%nat with (S (S (2 * k))) in * by lia. cbn in *. by apply IH.
Qed.

Lemma length_next_level level :
  (1 < length level)%nat → (1 ≤ length (next_level level) < length level)%nat.
Proof.
  intros Hl. unfold next_level. rewrite length_pair_up, length_pad_level.
  pose proof (Nat.div_mod (length level) 2 ltac:(lia)) as Hd.
  destruct (Nat.odd (length level)) eqn:E.
  - apply Nat.odd_spec in E as [k Hk]. rewrite Hk.
    replace (2 * k + 1 + 1)%nat with ((k + 1) * 2)%nat by lia. rewrite Nat.div_mul by lia. lia.
  - rewrite Nat.add_0_r. split; [apply Nat.div_le_lower_bound; lia|apply Nat.div_lt; lia].
Qed.

Lemma merkle_loop_singleton fuel level :
  (1 ≤ length level ≤ fuel)%nat → ∃ root, merkle_loop fuel level = [root].
Proof.
  revert level. induction fuel as [|fuel IH]; intros level Hl; [lia|]. cbn [merkle_loop].
  destruct (Nat.ltb_spec 1 (length level)) as [Hl'|Hl'].
  - apply IH. pose proof (length_next_level level Hl'). lia.
  - destruct level as [|root [|]]; cbn in *; [lia|eauto|lia].
Qed.

Lemma merkle_loop_fuel f1 f2 level :
  (length level ≤ f1)%nat → (length level ≤ f2)%nat → merkle_loop f1 level = merkle_loop f2 level.
Proof.
  revert f2 level. induction f1 as [|f1 IH]; intros [|f2] level H1 H2; [done|..]; cbn [merkle_loop].
  - by destruct (Nat.ltb_spec 1 (length level)); [lia|].
  - by destruct (Nat.ltb_spec 1 (length level)); [lia|].
  - destruct (Nat.ltb_spec 1 (length level)) as [Hl|]; [|done].
    pose proof (length_next_level level Hl). apply IH; lia.
Qed.

Lemma lxor_even k : Nat.lxor (2 * k) 1 = (2 * k + 1)%nat.
Proof.
  apply Nat.bits_inj. intros [|n]; rewrite Nat.lxor_spec.
  - by rewrite Nat.testbit_even_0, Nat.testbit_odd_0.
  - rewrite Nat.testbit_even_succ, Nat.testbit_odd_succ by lia.
    replace (Nat.testbit 1 (S n)) with false; [by rewrite xorb_false_r|].
    symmetry. apply Nat.bits_above_log2. cbn. lia.
Qed.

Lemma lxor_odd k : Nat.lxor (2 * k + 1) 1 = (2 * k)%nat.
Proof. by rewrite <- lxor_even, Nat.lxor_assoc, Nat.lxor_nilpotent, Nat.lxor_0_r. Qed.

(** The hash at a position and its sibling combine into the hash above. *)
Lemma next_level_lookup level i x :
  (1 < length level)%nat → level !! i = Some x →
  ∃ y, pad_level level !! Nat.lxor i 1 = Some y ∧
    next_level level !! (i / 2)%nat = Some (if Nat.even i then pair_hash x y else pair_hash y x).
Proof.
  intros Hl Hi. pose proof (lookup_lt_Some _ _ _ Hi) as Hlt.
  assert (pad_level level !! i = Some x) as Hp.
  { unfold pad_level. destruct (Nat.odd (length level)); [|done]. by rewrite lookup_app_l. }
  pose proof (pad_level_even level) as [n Hn]%Nat.even_spec.
  pose proof (length_pad_level level) as Hlen.
  assert (length level ≤ 2 * n)%nat by lia.
  destruct (Nat.even i) eqn:E.
  - apply Nat.even_spec in E as [k ->]. rewrite lxor_even.
    replace (2 * k / 2)%nat with k by (by rewrite Nat.mul_comm, Nat.div_mul).
    destruct (lookup_lt_is_Some_2 (pad_level level) (2 * k + 1)) as [y Hy]; [lia|].
    exists y. split; [done|]. by apply pair_up_lookup.
  - assert (Nat.odd i = true) as [k ->]%Nat.odd_spec by (by rewrite <- Nat.negb_even, E).
    rewrite lxor_odd.
    replace ((2 * k + 1) / 2)%nat with k
      by (rewrite Nat.add_comm, Nat.mul_comm, Nat.div_add by lia; done).
    destruct (lookup_lt_is_Some_2 (pad_level level) (2 * k)) as [y Hy]; [lia|].
    exists y. split; [done|]. by apply pair_up_lookup.
Qed.

Lemma proof_loop_acc fuel level cursor acc :
  proof_loop fuel level cursor acc = acc ++ proof_loop fuel level cursor [].
Proof.
  revert level cursor acc. induction fuel as [|fuel IH]; intros level cursor acc; cbn [proof_loop].
  { by rewrite app_nil_r. }
  case_match; [|by rewrite app_nil_r]. cbv zeta. rewrite IH, (IH _ _ ([] ++ _)).
  by rewrite (assoc_L (++)).
Qed.

(** Climbing from a leaf with its siblings reaches the root. *)
Lemma climb_proof fuel level i x :
  (length level ≤ fuel)%nat → level !! i = Some x →
  merkle_loop fuel level = [climb x i (proof_loop fuel level i [])].
Proof.
  revert level i x. induction fuel as [|fuel IH]; intros level i x Hf Hi.
  { apply lookup_lt_Some in Hi. lia. }
  cbn [merkle_loop proof_loop].
  destruct (Nat.ltb_spec 1 (length level)) as [Hl|Hl].
  - destruct (next_level_lookup level i x Hl Hi) as (y&Hy&Hn).
    cbv zeta. rewrite proof_loop_acc, Hy. cbn [default from_option app climb].
    pose proof (length_next_level level Hl). apply (IH (next_level level)); [lia|done].
  - destruct level as [|r [|]]; cbn in *; [done| |lia]. by destruct i; simplify_eq/=.
Qed.

(** ** Binding *)

Lemma pair_hash_inj a b c d :
  length a = length c → pair_hash a b = pair_hash c d →
  (a = c ∧ b = d) ∨ collision (a ++ b) (c ++ d).
Proof.
  unfold pair_hash, collision. intros Hl E.
  destruct (decide (a ++ b = c ++ d)) as [E'|]; [left; by apply app_inj_1|auto].
Qed.

Definition hashes (l : list Hash) : Prop := Forall (λ h, length h = 32%nat) l.

(** The bytes that are hashed on the way up, level by level. *)
Fixpoint climb_inputs (current : Hash) (index : nat) (sibs : list Hash) : list bytes :=
  match sibs with
  | [] => []
  | s :: sibs =>
      let b := if Nat.even index then current ++ s else s ++ current in
      b :: climb_inputs (sha256 b) (index / 2) sibs
  end.

(** Two climbs hash different bytes to the same digest on some level. *)
Definition paths_collide (x x' : Hash) (index : nat) (sibs sibs' : list Hash) : Prop :=
  ∃ k u v, climb_inputs x index sibs !! k = Some u ∧ climb_inputs x' index sibs' !! k = Some v ∧ collision u v.

(** A climb from another leaf to the same root meets the same hashes on the
    way, or the two climbs collide. *)
Lemma climb_binding sibs sibs' x x' i :
  hashes sibs → hashes sibs' → length sibs = length sibs' →
  length x = 32%nat → length x' = 32%nat →
  climb x i sibs = climb x' i sibs' → (x = x' ∧ sibs = sibs') ∨ paths_collide x x' i sibs sibs'.
Proof.
  revert sibs' x x' i. induction sibs as [|s sibs IH]; intros [|s' sibs'] x x' i Hs Hs' Hl Hx Hx' E;
    [by left|done|done|].
  apply Forall_cons in Hs as [Hs Hss]. apply Forall_cons in Hs' as [Hs' Hss'].
  cbn [climb] in E. injection Hl as Hl.
  apply IH in E; try done; try (destruct (Nat.even i); apply sha256_length).
  unfold paths_collide in *. cbn [climb_inputs]. destruct E as [[E ->]|(k&u&v&Hu&Hv&Hc)].
  - destruct (Nat.even i).
    + destruct (pair_hash_inj x s x' s') as [[-> ->]|]; [congruence|done|by left|right]. by exists 0%nat; eauto.
    + destruct (pair_hash_inj s x s' x') as [[-> ->]|]; [congruence|done|by left|right]. by exists 0%nat; eauto.
  - right. exists (S k), u, v. cbn [lookup list_lookup]. unfold pair_hash in *. by destruct (Nat.even i).
Qed.

Lemma pad_level_hashes level : (1 < length level)%nat → hashes level → hashes (pad_level level).
Proof.
  intros Hl Hh. unfold pad_level. destruct (Nat.odd (length level)); [|done].
  apply Forall_app. split; [done|]. apply Forall_singleton.
  destruct (last level) as [x|] eqn:E; [|apply last_None in E; subst; cbn in Hl; lia].
  by apply last_Some_elem_of, (proj1 (Forall_forall _ _) Hh) in E.
Qed.

Lemma pair_up_hashes level : hashes (pair_up level).
Proof.
  unfold hashes. induction level as [| |a b l IH] using list_pair_ind; cbn; auto.
  constructor; [apply sha256_length|done].
Qed.

Lemma proof_loop_hashes fuel level i :
  (length level ≤ fuel)%nat → (i < length level)%nat → hashes level → hashes (proof_loop fuel level i []).
Proof.
  revert level i. induction fuel as [|fuel IH]; intros level i Hf Hi Hh; [by constructor|].
  cbn [proof_loop]. destruct (Nat.ltb_spec 1 (length level)) as [Hl|Hl]; [|by constructor].
  destruct (lookup_lt_is_Some_2 level i Hi) as [x Hx].
  destruct (next_level_lookup level i x Hl Hx) as (y&Hy&Hn).
  cbv zeta. rewrite proof_loop_acc, Hy. cbn [default from_option].
  apply Forall_app. split.
  - apply Forall_singleton. by eapply (Forall_lookup_1 _ _ _ _ (pad_level_hashes level Hl Hh)).
  - apply (IH (next_level level));
      [pose proof (length_next_level level Hl); lia|by eapply lookup_lt_Some|].
    apply pair_up_hashes.
Qed.

Lemma merkle_root_loop leaves :
  leaves ≠ [] → merkle_loop (length leaves) leaves = [merkle_root leaves].
Proof.
  intros Hne. unfold merkle_root. rewrite bool_decide_eq_false_2 by done.
  destruct (merkle_loop_singleton (length leaves) leaves) as [r ->]; [|done].
  destruct leaves; cbn; [done|lia].
Qed.

(** Repeating the last hash of an odd level changes nothing above it. *)
Lemma merkle_loop_repeat fuel l x :
  Nat.even (length l) = true → (2 < length (l ++ [x; x]))%nat →
  merkle_loop fuel (l ++ [x; x]) = merkle_loop fuel (l ++ [x]) ∨ fuel = 0%nat.
Proof.
  intros Hev Hl. destruct fuel as [|fuel]; [by right|]. left. cbn [merkle_loop].
  rewrite length_app in *. cbn in Hl.
  rewrite !(proj2 (Nat.ltb_lt _ _)) by (rewrite ?length_app; cbn; lia).
  f_equal. unfold next_level, pad_level. rewrite !length_app. cbn [length].
  rewrite !Nat.odd_add, <- !Nat.negb_even, Hev. cbn. by rewrite last_app, <- app_assoc.
Qed.

(** Number of levels above the leaves. *)
Lemma proof_loop_length fuel l1 l2 i j :
  length l1 = length l2 → length (proof_loop fuel l1 i []) = length (proof_loop fuel l2 j []).
Proof.
  revert l1 l2 i j. induction fuel as [|fuel IH]; intros l1 l2 i j Hl; [done|].
  cbn [proof_loop]. rewrite Hl. destruct (1 <? length l2)%nat; [|done]. cbv zeta.
  rewrite (proof_loop_acc _ _ _ ([] ++ _)), (proof_loop_acc _ (pair_up (pad_level l2)) _ ([] ++ _)).
  rewrite !length_app. cbn [length]. f_equal. apply IH.
  by rewrite !length_pair_up, !length_pad_level, Hl.
Qed.

(** Repeating the last of an odd number of leaves keeps the root. *)
Lemma merkle_root_repeat l x :
  Nat.even (length l) = true → l ≠ [] → merkle_root (l ++ [x; x]) = merkle_root (l ++ [x]).
Proof.
  intros Hev Hne. unfold merkle_root.
  rewrite !bool_decide_eq_false_2 by (by destruct l). f_equal. f_equal.
  rewrite (merkle_loop_fuel (length (l ++ [x])) (length (l ++ [x; x]))) by (rewrite !length_app; cbn; lia).
  destruct (merkle_loop_repeat (length (l ++ [x; x])) l x) as [->|E]; [done|..|done|].
  + rewrite length_app. destruct l; cbn; [done|lia].
  + rewrite length_app in E. cbn in E. lia.
Qed.

(** ** Properties *)

(** An inclusion proof exists exactly for the indices of the tree and
    verifies the leaf at its index against the root. *)
Theorem merkle_proof_complete leaves i :
  match merkle_proof leaves i with
  | Some p => ∃ leaf, leaves !! i = Some leaf ∧ proof_index p = i ∧
                MerkleProof_verify p leaf (merkle_root leaves) = true
  | None => leaves !! i = None
  end.
Proof.
  unfold merkle_proof. destruct (Nat.leb_spec (length leaves) i) as [Hi|Hi].
  { by apply lookup_ge_None. }
  destruct (lookup_lt_is_Some_2 leaves i Hi) as [leaf Hleaf]. exists leaf.
  split_and!; [done..|]. unfold MerkleProof_verify. cbn [proof_index siblings].
  apply bool_decide_eq_true. pose proof (climb_proof (length leaves) leaves i leaf) as Hc.
  rewrite merkle_root_loop in Hc by (intros ->; done). by injection (Hc ltac:(lia) Hleaf) as <-.
Qed.

(** C31: the root binds every leaf: a proof with as many siblings as the tree
    has levels that verifies some hash at an index below the number of leaves
    can only verify the leaf at that index, with the siblings the tree has; the
    alternative is a collision of SHA-256 at hand, between the bytes hashed on
    one and the same level of the path of the tree and of the path of the
    proof. *)
Theorem merkle_proof_sound leaves p p' leaf leaf' :
  hashes leaves → merkle_proof leaves (proof_index p') = Some p →
  leaves !! proof_index p' = Some leaf →
  hashes (siblings p') → length (siblings p') = length (siblings p) → length leaf' = 32%nat →
  MerkleProof_verify p' leaf' (merkle_root leaves) = true →
  (leaf' = leaf ∧ siblings p' = siblings p) ∨
  paths_collide leaf' leaf (proof_index p') (siblings p') (siblings p).
Proof.
  intros Hh Hp Hleaf Hs Hl Hl' Hv. unfold merkle_proof in Hp.
  destruct (Nat.leb_spec (length leaves) (proof_index p')) as [|Hi]; [done|].
  injection Hp as <-. cbn [siblings] in *.
  unfold MerkleProof_verify in Hv. apply bool_decide_eq_true in Hv.
  pose proof (climb_proof (length leaves) leaves (proof_index p') leaf) as Hc.
  rewrite merkle_root_loop in Hc by (intros ->; done).
  injection (Hc ltac:(lia) Hleaf) as Hc'. rewrite Hc' in Hv.
  apply climb_binding in Hv; try done.
  - apply proof_loop_hashes; [lia|done..].
  - by eapply (Forall_lookup_1 _ _ _ _ Hh).
Qed.

(** Two trees of the same size with the same root have the same leaves, or the
    paths of some leaf in the two trees collide. *)
Theorem merkle_root_binding l1 l2 :
  hashes l1 → hashes l2 → length l1 = length l2 → merkle_root l1 = merkle_root l2 →
  l1 = l2 ∨ ∃ i x y, l1 !! i = Some x ∧ l2 !! i = Some y ∧
    paths_collide y x i (proof_loop (length l2) l2 i []) (proof_loop (length l2) l1 i []).
Proof.
  intros H1 H2 Hlen Hroot.
  destruct (decide (l1 = l2)) as [|Hne]; [by left|]. right.
  destruct (list_difference_at l1 l2 Hlen Hne) as (i&x&y&Hx&Hy&Hxy). exists i, x, y. split_and!; [done..|].
  pose proof (climb_proof (length l1) l1 i x ltac:(lia) Hx) as C1.
  pose proof (climb_proof (length l2) l2 i y ltac:(lia) Hy) as C2.
  rewrite merkle_root_loop in C1, C2 by (intros ->; done).
  rewrite Hroot, C2 in C1. injection C1 as C1. rewrite Hlen in C1.
  destruct (climb_binding (proof_loop (length l2) l2 i []) (proof_loop (length l2) l1 i []) y x i)
    as [[? _]|]; [..|done|congruence|done].
  + apply proof_loop_hashes; [lia|by eapply lookup_lt_Some|done].
  + apply proof_loop_hashes; [lia|by eapply lookup_lt_Some|done].
  + by apply proof_loop_length.
  + by eapply (Forall_lookup_1 _ _ _ _ H2).
  + by eapply (Forall_lookup_1 _ _ _ _ H1).
Qed.

End merkle.

(** ** Witness *)

Module Samples.
Import Toy.

Definition sample_leaves : list Hash := [digest32 [x01]; digest32 [x02]; digest32 [x03]].
Definition sample_proof : MerkleProof := default (mkMerkleProof 0 []) (merkle_proof sample_leaves 1).

(** A proof that verifies is the proof of the tree: a collision on the path is
    excluded by computation. *)
Lemma merkle_proof_sound_witness :
  digest32 [x02] = digest32 [x02] ∧ siblings sample_proof = siblings sample_proof.
Proof.
  destruct (merkle_proof_sound sample_leaves sample_proof sample_proof (digest32 [x02]) (digest32 [x02]))
    as [Heq|(k&u&v&Hu&Hv&Hne&_)].
  - repeat constructor.
  - vm_compute. reflexivity.
  - vm_compute. reflexivity.
  - vm_compute. repeat constructor.
  - reflexivity.
  - vm_compute. reflexivity.
  - vm_compute. reflexivity.
  - exact Heq.
  - exfalso. rewrite Hu in Hv. injection Hv as ->. exact (Hne eq_refl).
Defined.

End Samples.
