(* ===== verification/Consensus.v ===== *)
(** Signed events, blocks, memberships, invitations and the two consensus
    engines (crates/peerless-ledger/src/lib.rs, first part). *)

From S2P Require Import Prelude External Core Protocol Merkle.
From Stdlib Require Import Strings.Byte.
From stdpp Require Import sorting.
#[local] Open Scope Z_scope.

Inductive LedgerError :=
| LedgerIo
| LedgerJson
| LedgerIdentity (e : IdentityError)
| InvalidQuorum
| NoQuorum
| WrongLeader
| InvalidBlock.

#[export] Instance LedgerError_eq_dec : EqDecision LedgerError.
Proof. solve_decision. Defined.

(** ** Data *)

Inductive LedgerEvent :=
| NodeJoined (member : NodeId)
| NodeRevoked (member : NodeId)
| TaskCreated (task_id : string)
| TaskAccepted (task_id : string) (executor : NodeId)
| TaskCompleted (r : ExecutionRecord)
| TaskVerified (task_id : string) (output : ContentId)
| ContentPublished (content : ContentId) (provider : NodeId)
| StateCheckpoint (document : string) (snapshot : ContentId).

Record SignedEvent := mkSignedEvent {
  event : LedgerEvent;
  ev_signer : NodeId;
  ev_public_key : bytes;
  ev_signature : bytes;
}.

Record ConsensusSignature := mkConsensusSignature {
  cs_signer : NodeId;
  cs_public_key : bytes;
  cs_signature : bytes;
}.

Record ConsensusProof := mkConsensusProof {
  network_id : string;
  signatures : list ConsensusSignature;
}.

Record Block := mkBlock {
  version : Z;
  previous : option Hash;
  height : Z;
  timestamp : Z;
  events_root : Hash;
  events : list SignedEvent;
  consensus : ConsensusProof;
}.

Record Membership := mkMembership {
  ms_network_id : string;
  ms_member : NodeId;
  ms_issuer : NodeId;
  ms_permissions : list string;
  ms_expires_at : option Z;
  ms_issuer_public_key : bytes;
  ms_signature : bytes;
}.

Record Invitation := mkInvitation {
  inv_version : Z;
  inv_membership : Membership;
  bootstrap : list string;
  issued_at : Z;
}.

#[export] Instance LedgerEvent_eq_dec : EqDecision LedgerEvent.
Proof. solve_decision. Defined.
#[export] Instance LedgerEvent_countable : Countable LedgerEvent.
Proof.
  refine (inj_countable'
    (λ e, match e with
          | NodeJoined m => inl (inl (inl m))
          | NodeRevoked m => inl (inl (inr m))
          | TaskCreated t => inl (inr (inl t))
          | TaskAccepted t x => inl (inr (inr (t, x)))
          | TaskCompleted r => inr (inl (inl r))
          | TaskVerified t o => inr (inl (inr (t, o)))
          | ContentPublished c p => inr (inr (inl (c, p)))
          | StateCheckpoint d c => inr (inr (inr (d, c)))
          end)
    (λ x, match x with
          | inl (inl (inl m)) => NodeJoined m
          | inl (inl (inr m)) => NodeRevoked m
          | inl (inr (inl t)) => TaskCreated t
          | inl (inr (inr (t, x))) => TaskAccepted t x
          | inr (inl (inl r)) => TaskCompleted r
          | inr (inl (inr (t, o))) => TaskVerified t o
          | inr (inr (inl (c, p))) => ContentPublished c p
          | inr (inr (inr (d, c))) => StateCheckpoint d c
          end) _).
  by intros [].
Defined.
#[export] Instance SignedEvent_eq_dec : EqDecision SignedEvent.
Proof. solve_decision. Defined.
#[export] Instance SignedEvent_countable : Countable SignedEvent.
Proof.
  refine (inj_countable' (λ e, ((event e, ev_signer e), (ev_public_key e, ev_signature e)))
            (λ '((a, b), (c, d)), mkSignedEvent a b c d) _).
  by intros [].
Defined.
#[export] Instance ConsensusSignature_eq_dec : EqDecision ConsensusSignature.
Proof. solve_decision. Defined.
#[export] Instance ConsensusSignature_countable : Countable ConsensusSignature.
Proof.
  refine (inj_countable' (λ e, (cs_signer e, cs_public_key e, cs_signature e))
            (λ '(a, b, c), mkConsensusSignature a b c) _).
  by intros [].
Defined.
#[export] Instance ConsensusProof_eq_dec : EqDecision ConsensusProof.
Proof. solve_decision. Defined.
#[export] Instance ConsensusProof_countable : Countable ConsensusProof.
Proof.
  refine (inj_countable' (λ e, (network_id e, signatures e)) (λ '(a, b), mkConsensusProof a b) _).
  by intros [].
Defined.
#[export] Instance Block_eq_dec : EqDecision Block.
Proof. solve_decision. Defined.
#[export] Instance Block_countable : Countable Block.
Proof.
  refine (inj_countable'
    (λ b, (((version b, previous b), (height b, timestamp b)),
           ((events_root b, events b), consensus b)))
    (λ '(((a, b), (c, d)), ((e, f), g)), mkBlock a b c d e f g) _).
  by intros [].
Defined.

(** The signed parts of a block and of a membership. *)
Abbreviation Proposal := (Z * option Hash * Z * Z * Hash)%type.
Abbreviation MembershipPayload := (string * NodeId * NodeId * list string * option Z)%type.

Section consensus.
Context `{Sha256, Keys}.
Context `{Json LedgerEvent, Json SignedEvent, Json Block, Json Proposal, Json MembershipPayload}.

Definition identity_error {A} : result A IdentityError → result A LedgerError :=
  rmap_err LedgerIdentity.

(** ** Events and blocks *)

Definition SignedEvent_seal (e : LedgerEvent) (i : NodeIdentity) : result SignedEvent LedgerError :=
  let? payload := ok_or (to_vec e) LedgerJson in
  let? signature := identity_error (identity_sign i payload) in
  Ok (mkSignedEvent e (node_id i) (public_key i) signature).

(** [&&] is lazy: the key is only decoded when the signer matches. *)
Definition SignedEvent_verify (e : SignedEvent) : result bool LedgerError :=
  if bool_decide (NodeId_derive (ev_public_key e) = ev_signer e) then
    let? payload := ok_or (to_vec (event e)) LedgerJson in
    identity_error (verify (ev_public_key e) payload (ev_signature e))
  else Ok false.

Definition SignedEvent_hash (e : SignedEvent) : result Hash LedgerError :=
  let? b := ok_or (to_vec e) LedgerJson in Ok (sha256 b).

Definition event_hashes (es : list SignedEvent) : result (list Hash) LedgerError :=
  collect (SignedEvent_hash <$> es).

Definition proposal (b : Block) : Proposal :=
  (version b, previous b, height b, timestamp b, events_root b).
Definition proposal_bytes (b : Block) : result bytes LedgerError :=
  ok_or (to_vec (proposal b)) LedgerJson.

Definition Block_hash (b : Block) : result Hash LedgerError :=
  let? v := ok_or (to_vec b) LedgerJson in Ok (sha256 v).

Definition Block_proof (b : Block) (index : nat) : option MerkleProof :=
  match event_hashes (events b) with Ok hs => merkle_proof hs index | Err _ => None end.

(** ** Memberships and invitations *)

Definition Membership_payload (m : Membership) : result bytes LedgerError :=
  ok_or (to_vec (ms_network_id m, ms_member m, ms_issuer m, ms_permissions m, ms_expires_at m))
    LedgerJson.

Definition set_ms_signature (s : bytes) (m : Membership) : Membership :=
  mkMembership (ms_network_id m) (ms_member m) (ms_issuer m) (ms_permissions m)
    (ms_expires_at m) (ms_issuer_public_key m) s.

Definition Membership_issue (net : string) (member : NodeId) (permissions : list string)
    (expires_at : option Z) (issuer : NodeIdentity) : result Membership LedgerError :=
  let value := mkMembership net member (node_id issuer) permissions expires_at
                 (public_key issuer) [] in
  let? payload := Membership_payload value in
  let? s := identity_error (identity_sign issuer payload) in
  Ok (set_ms_signature s value).

Definition Membership_verify (m : Membership) (trusted : gset NodeId) (now : Z) :
    result bool LedgerError :=
  if bool_decide (ms_issuer m ∈ trusted)
     && bool_decide (NodeId_derive (ms_issuer_public_key m) = ms_issuer m)
     && match ms_expires_at m with None => true | Some expiry => now <? expiry end
  then
    let? payload := Membership_payload m in
    identity_error (verify (ms_issuer_public_key m) payload (ms_signature m))
  else Ok false.

Definition Invitation_issue (net : string) (member : NodeId) (permissions : list string)
    (expires_at : option Z) (boot : list string) (issued : Z) (issuer : NodeIdentity) :
    result Invitation LedgerError :=
  let? m := Membership_issue net member permissions expires_at issuer in
  Ok (mkInvitation 1 m boot issued).

Definition Invitation_verify_for (i : Invitation) (member : NodeId) (now : Z) :
    result bool LedgerError :=
  if (inv_version i =? 1) && (issued_at i <=? now)
     && bool_decide (ms_member (inv_membership i) = member)
  then Membership_verify (inv_membership i) {[ms_issuer (inv_membership i)]} now
  else Ok false.

(** ** Consensus engines *)

(** The [ConsensusEngine] trait: finalisation writes the consensus proof of the
    block even when it fails. *)
Class ConsensusEngine (C : Type) := {
  finalize : C → Block → list NodeIdentity → result unit LedgerError * Block;
  engine_verify : C → Block → result bool LedgerError;
}.

Record QuorumConsensus := mkQuorumConsensus {
  q_network_id : string;
  members : gset NodeId;
  quorum : Z;
}.

Definition QuorumConsensus_new (net : string) (ms : gset NodeId) (q : Z) :
    result QuorumConsensus LedgerError :=
  if (q =? 0) || (Z.of_nat (size ms) <? q) then Err InvalidQuorum
  else Ok (mkQuorumConsensus net ms q).

Definition set_consensus (p : ConsensusProof) (b : Block) : Block :=
  mkBlock (version b) (previous b) (height b) (timestamp b) (events_root b) (events b) p.

(** The signing loop: members sign once each, in the order of the approvals. *)
Fixpoint collect_signatures (ms : gset NodeId) (payload : bytes) (seen : gset NodeId)
    (acc : list ConsensusSignature) (approvals : list NodeIdentity) :
    result unit LedgerError * list ConsensusSignature :=
  match approvals with
  | [] => (Ok tt, acc)
  | i :: rest =>
      if bool_decide (node_id i ∈ ms) && bool_decide (node_id i ∉ seen) then
        match identity_error (identity_sign i payload) with
        | Err e => (Err e, acc)
        | Ok s =>
            collect_signatures ms payload ({[node_id i]} ∪ seen)
              (acc ++ [mkConsensusSignature (node_id i) (public_key i) s]) rest
        end
      else collect_signatures ms payload seen acc rest
  end.

Definition Quorum_finalize (c : QuorumConsensus) (b : Block) (approvals : list NodeIdentity) :
    result unit LedgerError * Block :=
  let b := set_consensus (mkConsensusProof (q_network_id c) []) b in
  match proposal_bytes b with
  | Err e => (Err e, b)
  | Ok payload =>
      let '(r, sigs) := collect_signatures (members c) payload ∅ [] approvals in
      let b := set_consensus (mkConsensusProof (q_network_id c) sigs) b in
      match r with
      | Err e => (Err e, b)
      | Ok _ => if Z.of_nat (length sigs) <? quorum c then (Err NoQuorum, b) else (Ok tt, b)
      end
  end.

Lemma Quorum_finalize_events c b approvals :
  events (Quorum_finalize c b approvals).2 = events b ∧
  network_id (consensus (Quorum_finalize c b approvals).2) = q_network_id c.
Proof.
  unfold Quorum_finalize. destruct (proposal_bytes _); [|done].
  destruct (collect_signatures _ _ _ _ _) as [[] ?]; [|done]. by destruct (_ <? _).
Qed.

(** The verification loop: the set of members with a valid signature. *)
Fixpoint valid_signers (ms : gset NodeId) (payload : bytes) (valid : gset NodeId)
    (sigs : list ConsensusSignature) : result (gset NodeId) LedgerError :=
  match sigs with
  | [] => Ok valid
  | a :: rest =>
      let? ok := if bool_decide (cs_signer a ∈ ms)
                    && bool_decide (NodeId_derive (cs_public_key a) = cs_signer a)
                 then identity_error (verify (cs_public_key a) payload (cs_signature a))
                 else Ok false in
      valid_signers ms payload (if ok : bool then {[cs_signer a]} ∪ valid else valid) rest
  end.

Definition Quorum_verify (c : QuorumConsensus) (b : Block) : result bool LedgerError :=
  if negb (bool_decide (network_id (consensus b) = q_network_id c)) then Ok false
  else
    let? payload := proposal_bytes b in
    let? valid := valid_signers (members c) payload ∅ (signatures (consensus b)) in
    Ok (quorum c <=? Z.of_nat (size valid)).

#[export] Instance quorum_engine : ConsensusEngine QuorumConsensus :=
  {| finalize := Quorum_finalize; engine_verify := Quorum_verify |}.

Record BftConsensus := mkBftConsensus {
  inner : QuorumConsensus;
  ordered_members : list NodeId;
  max_faults : Z;
}.

Definition BftConsensus_new (net : string) (ms : gset NodeId) (f : Z) :
    result BftConsensus LedgerError :=
  let required := saturating_add (saturating_mul f 3) 1 in
  if Z.of_nat (size ms) <? required then Err InvalidQuorum
  else
    let q := saturating_add (saturating_mul f 2) 1 in
    let? inner := QuorumConsensus_new net ms q in
    Ok (mkBftConsensus inner (merge_sort bytes_le (elements ms)) f).

(** [ordered_members] is not empty, see [Bft_new_wf]. *)
Definition leader (c : BftConsensus) (h : Z) : NodeId :=
  default [] (ordered_members c !! Z.to_nat (h mod Z.of_nat (length (ordered_members c)))).

Definition Bft_finalize (c : BftConsensus) (b : Block) (approvals : list NodeIdentity) :
    result unit LedgerError * Block :=
  if negb (existsb (λ i, bool_decide (node_id i = leader c (height b))) approvals)
  then (Err WrongLeader, b)
  else Quorum_finalize (inner c) b approvals.

Definition Bft_verify (c : BftConsensus) (b : Block) : result bool LedgerError :=
  if existsb (λ s, bool_decide (cs_signer s = leader c (height b))) (signatures (consensus b))
  then Quorum_verify (inner c) b
  else Ok false.

#[export] Instance bft_engine : ConsensusEngine BftConsensus :=
  {| finalize := Bft_finalize; engine_verify := Bft_verify |}.

(** ** Signatures that count *)

(** A consensus signature by a member over a payload. *)
Definition valid_signature (ms : gset NodeId) (payload : bytes) (a : ConsensusSignature) : Prop :=
  cs_signer a ∈ ms ∧ cs_signer a = NodeId_derive (cs_public_key a) ∧
  signed_by (cs_public_key a) payload (cs_signature a).

(** The members a block carries a valid signature of. *)
Definition signs (ms : gset NodeId) (payload : bytes) (sigs : list ConsensusSignature) (n : NodeId) : Prop :=
  ∃ a, a ∈ sigs ∧ cs_signer a = n ∧ valid_signature ms payload a.

Lemma identity_error_verify pk m s b :
  identity_error (verify pk m s) = Ok b → (b = true ↔ signed_by pk m s).
Proof.
  intros Hv. apply rmap_err_ok in Hv. rewrite <- verify_true, Hv. split; [by intros ->|congruence].
Qed.

Lemma valid_signers_spec ms payload V sigs W :
  valid_signers ms payload V sigs = Ok W → ∀ n, n ∈ W ↔ n ∈ V ∨ signs ms payload sigs n.
Proof.
  revert V. induction sigs as [|a sigs IH]; intros V HW n; cbn [valid_signers] in HW.
  { inv_ok. subst. split; [by left|]. intros [|(a&Ha&_)]; [done|set_solver]. }
  apply rbind_ok in HW as (ok&Hok&HW). rewrite (IH _ HW n).
  assert (ok = true ↔ valid_signature ms payload a) as Hv.
  { unfold valid_signature. case_bool_decide; cbn in Hok; [|inv_ok; subst; split; [done|tauto]].
    case_bool_decide; cbn in Hok; [|inv_ok; subst; split; [done|intros (_&?&_); congruence]].
    rewrite (identity_error_verify _ _ _ _ Hok). naive_solver. }
  assert (signs ms payload (a :: sigs) n ↔
          (valid_signature ms payload a ∧ n = cs_signer a) ∨ signs ms payload sigs n) as ->.
  { unfold signs. setoid_rewrite elem_of_cons. naive_solver. }
  destruct ok; set_solver.
Qed.

(** A run over decodable keys cannot fail. *)
Lemma valid_signers_total ms payload V sigs :
  (∀ a, a ∈ sigs → cs_signer a ∈ ms → cs_signer a = NodeId_derive (cs_public_key a) →
     is_Some (try_decode_protobuf (cs_public_key a))) →
  ∃ W, valid_signers ms payload V sigs = Ok W.
Proof.
  revert V. induction sigs as [|a sigs IH]; intros V Hd; cbn [valid_signers]; [eauto|].
  case_bool_decide as E1; cbn; [|apply IH; intros; apply Hd; [set_solver|done..]].
  case_bool_decide as E2; cbn; [|apply IH; intros; apply Hd; [set_solver|done..]].
  destruct (Hd a) as [pk Hpk]; [set_solver|done|done|].
  unfold identity_error, verify. rewrite Hpk. cbn. apply IH. intros; apply Hd; [set_solver|done..].
Qed.

Lemma Quorum_verify_true c b :
  Quorum_verify c b = Ok true →
  network_id (consensus b) = q_network_id c ∧
  ∃ payload W, proposal_bytes b = Ok payload ∧ quorum c ≤ Z.of_nat (size W) ∧ W ⊆ members c ∧
    ∀ n, n ∈ W ↔ signs (members c) payload (signatures (consensus b)) n.
Proof.
  unfold Quorum_verify. case_bool_decide; cbn; [|done]. intros Hv. split; [done|].
  apply rbind_ok in Hv as (payload&Hp&Hv). apply rbind_ok in Hv as (W&HW&Hv). inv_ok. breflect.
  exists payload, W. pose proof (valid_signers_spec _ _ _ _ _ HW) as Hs.
  assert (∀ n, n ∈ W ↔ signs (members c) payload (signatures (consensus b)) n) as Hs'
    by (intros n; rewrite Hs; set_solver).
  split_and!; [done..| |done]. intros n (a&_&<-&?&_)%Hs'. done.
Qed.

(** ** Finalisation *)

Lemma collect_signatures_ok ms payload seen acc approvals sigs :
  collect_signatures ms payload seen acc approvals = (Ok tt, sigs) →
  ∃ new, sigs = acc ++ new ∧ NoDup (cs_signer <$> new) ∧
    (∀ n, n ∈ cs_signer <$> new ↔ n ∈ ms ∧ n ∉ seen ∧ n ∈ node_id <$> approvals) ∧
    (Forall identity_wf approvals → Forall (valid_signature ms payload) new).
Proof.
  revert seen acc. induction approvals as [|i rest IH]; intros seen acc Hc; cbn [collect_signatures] in Hc.
  { injection Hc as <-. exists []. rewrite app_nil_r. split_and!; [done|constructor|set_solver|done]. }
  case_bool_decide as Hm; cbn in Hc; cycle 1.
  { destruct (IH _ _ Hc) as (new&->&?&Hn&?). exists new. split_and!; [done..| |by intros [??]%Forall_cons; auto].
    intros n. rewrite Hn, fmap_cons, elem_of_cons. naive_solver. }
  case_bool_decide as Hseen; cbn in Hc; cycle 1.
  { destruct (IH _ _ Hc) as (new&->&?&Hn&?). exists new. split_and!; [done..| |by intros [??]%Forall_cons; auto].
    intros n. rewrite Hn, fmap_cons, elem_of_cons. naive_solver. }
  destruct (identity_error _) as [s|] eqn:Es; [|done].
  destruct (IH _ _ Hc) as (new&->&Hnd&Hn&Hv).
  exists (mkConsensusSignature (node_id i) (public_key i) s :: new). rewrite fmap_cons.
  split_and!.
  - by rewrite <- (assoc_L (++)).
  - constructor; [|done]. cbn. rewrite Hn. clear. set_solver.
  - intros n. rewrite fmap_cons, !elem_of_cons, Hn, not_elem_of_union, not_elem_of_singleton. cbn.
    clear -Hm Hseen. destruct (decide (n = node_id i)) as [->|]; tauto.
  - intros [Hi Hrest]%Forall_cons. constructor; [|auto]. cbn.
    unfold identity_error in Es. apply rmap_err_ok in Es. split_and!; [done|by apply identity_node_id|].
    by apply sign_signed_by.
Qed.

Lemma proposal_set_consensus p b : proposal (set_consensus p b) = proposal b.
Proof. done. Qed.

(** A list of valid signatures of distinct members makes the quorum they form. *)
Lemma valid_signers_size ms payload sigs :
  NoDup (cs_signer <$> sigs) → Forall (valid_signature ms payload) sigs →
  ∃ W, valid_signers ms payload ∅ sigs = Ok W ∧ size W = length sigs.
Proof.
  intros Hnd Hv. rewrite Forall_forall in Hv.
  destruct (valid_signers_total ms payload ∅ sigs) as [W HW].
  { intros a (_&_&pk&Hpk&_)%Hv _ _. eauto. }
  exists W. split; [done|]. pose proof (valid_signers_spec _ _ _ _ _ HW) as Hs.
  rewrite <- (length_fmap cs_signer), <- (size_list_to_set (C := gset NodeId)) by done.
  f_equal. apply set_eq. intros n. rewrite Hs, elem_of_list_to_set, list_elem_of_fmap.
  unfold signs. split.
  - intros [|(a&Ha&<-&_)]; [set_solver|eauto].
  - intros (a&->&Ha). right. eauto.
Qed.

Lemma Quorum_finalize_ok c b approvals b' :
  Forall identity_wf approvals → Quorum_finalize c b approvals = (Ok tt, b') →
  proposal b' = proposal b ∧ events b' = events b ∧ Quorum_verify c b' = Ok true ∧
  (∀ n, n ∈ cs_signer <$> signatures (consensus b') ↔ n ∈ members c ∧ n ∈ node_id <$> approvals).
Proof.
  intros Hwf Hf. unfold Quorum_finalize in Hf.
  destruct (proposal_bytes _) as [payload|] eqn:Hp; [|done].
  destruct (collect_signatures _ _ _ _ _) as [[[]|] sigs] eqn:Hc; [|done].
  destruct (Z.ltb_spec (Z.of_nat (length sigs)) (quorum c)) as [|Hq]; [done|]. injection Hf as <-.
  destruct (collect_signatures_ok _ _ _ _ _ _ Hc) as (new&->&Hnd&Hn&Hv). cbn [app] in *.
  destruct (valid_signers_size _ _ _ Hnd (Hv Hwf)) as (W&HW&Hsz).
  split_and!; [done..| |].
  - unfold Quorum_verify. cbn [consensus set_consensus network_id signatures].
    rewrite bool_decide_eq_true_2 by done. cbn [negb].
    unfold proposal_bytes in *. rewrite !proposal_set_consensus in *. rewrite Hp. cbn [rbind].
    rewrite HW. cbn [rbind]. by rewrite (proj2 (Z.leb_le _ _)) by lia.
  - intros n. cbn. rewrite Hn. set_solver.
Qed.

(** ** Byzantine configuration *)

Lemma Bft_new_wf net ms f c :
  BftConsensus_new net ms f = Ok c → 0 ≤ f → Z.of_nat (size ms) < U64_MAX →
  q_network_id (inner c) = net ∧ members (inner c) = ms ∧ quorum (inner c) = 2 * f + 1 ∧
  3 * f + 1 ≤ Z.of_nat (size ms) ∧ ∀ h, 0 ≤ h → leader c h ∈ ms.
Proof.
  unfold BftConsensus_new, QuorumConsensus_new, saturating_add, saturating_mul. intros Hn Hf Hs.
  destruct (Z.ltb_spec (Z.of_nat (size ms)) (Z.min (Z.min (f * 3) U64_MAX + 1) U64_MAX)) as [|Hsz]; [done|].
  apply rbind_ok in Hn as (i&Hi&Hn). case_match; [done|]. inv_ok. subst. cbn.
  assert (3 * f + 1 ≤ Z.of_nat (size ms)) by lia.
  split_and!; [done..|lia|done|]. intros h Hh. unfold leader. cbn [ordered_members].
  set (l := merge_sort bytes_le (elements ms)).
  assert (l ≡ₚ elements ms) as Hl by apply merge_sort_Permutation.
  assert (length l = size ms) as Hlen by (unfold size, set_size; cbn; by rewrite Hl).
  destruct (lookup_lt_is_Some_2 l (Z.to_nat (h mod Z.of_nat (length l)))) as [n Hn].
  { rewrite Hlen. pose proof (Z.mod_pos_bound h (Z.of_nat (size ms))). lia. }
  rewrite Hn. cbn. apply list_elem_of_lookup_2 in Hn. rewrite Hl in Hn.
  by apply elem_of_elements.
Qed.

Lemma Bft_verify_quorum c b : Bft_verify c b = Ok true → Quorum_verify (inner c) b = Ok true.
Proof. unfold Bft_verify. by case_match. Qed.

(** Members that signed both of two verified proposals. *)
Lemma quorum_overlap c b1 b2 p1 p2 :
  Quorum_verify c b1 = Ok true → Quorum_verify c b2 = Ok true →
  proposal_bytes b1 = Ok p1 → proposal_bytes b2 = Ok p2 →
  ∃ X : gset NodeId, X ⊆ members c ∧
    2 * quorum c - Z.of_nat (size (members c)) ≤ Z.of_nat (size X) ∧
    ∀ n, n ∈ X → signs (members c) p1 (signatures (consensus b1)) n ∧
                 signs (members c) p2 (signatures (consensus b2)) n.
Proof.
  intros (_&q1&W1&Hq1&Hs1&Hm1&HW1)%Quorum_verify_true (_&q2&W2&Hq2&Hs2&Hm2&HW2)%Quorum_verify_true Hp1 Hp2.
  rewrite Hp1 in Hq1. rewrite Hp2 in Hq2. inv_ok. subst q1 q2.
  exists (W1 ∩ W2). split_and!; [set_solver| |].
  - pose proof (size_union_alt W1 W2) as Hu.
    assert (size (W2 ∖ W1) + size (W1 ∩ W2) = size W2)%nat as Hd.
    { rewrite <- size_union by set_solver. f_equal. apply set_eq. intros n.
      destruct (decide (n ∈ W1)); set_solver. }
    assert (size (W1 ∪ W2) ≤ size (members c))%nat by (apply subseteq_size; set_solver). lia.
  - intros n Hn. rewrite <- HW1, <- HW2. set_solver.
Qed.

Lemma Membership_verify_true m trusted now :
  Membership_verify m trusted now = Ok true ↔
  ms_issuer m ∈ trusted ∧ ms_issuer m = NodeId_derive (ms_issuer_public_key m) ∧
  (∀ e, ms_expires_at m = Some e → now < e) ∧
  ∃ payload, Membership_payload m = Ok payload ∧
    signed_by (ms_issuer_public_key m) payload (ms_signature m).
Proof.
  unfold Membership_verify. split.
  - case_match eqn:E; [|done]. breflect. intros Hv. apply rbind_ok in Hv as (payload&Hp&Hv).
    apply identity_error_verify in Hv. split_and!; [done..| |].
    + intros e He. rewrite He in *. by breflect.
    + exists payload. split; [done|by apply Hv].
  - intros (Ht&Hd&He&payload&Hp&Hs). rewrite !bool_decide_eq_true_2 by done. cbn.
    replace (match ms_expires_at m with None => true | Some e => now <? e end) with true.
    + rewrite Hp. cbn. unfold identity_error. by rewrite (proj2 (verify_true _ _ _) Hs).
    + destruct (ms_expires_at m) as [e|]; [|done]. symmetry. apply Z.ltb_lt. by apply He.
Qed.

(** ** Properties *)

(** A quorum engine's verdict is exact: for a block whose member keys can
    be decoded it is positive precisely when the block names the engine's
    network and the distinct members with a valid signature over the proposal
    are at least as many as the quorum. *)
Theorem quorum_verify_exact c b payload :
  proposal_bytes b = Ok payload →
  (∀ a, a ∈ signatures (consensus b) → cs_signer a ∈ members c →
     cs_signer a = NodeId_derive (cs_public_key a) →
     is_Some (try_decode_protobuf (cs_public_key a))) →
  ∃ W : gset NodeId, (∀ n, n ∈ W ↔ signs (members c) payload (signatures (consensus b)) n) ∧
    Quorum_verify c b =
      Ok (bool_decide (network_id (consensus b) = q_network_id c) && (quorum c <=? Z.of_nat (size W))).
Proof.
  intros Hp Hd. destruct (valid_signers_total (members c) payload ∅ _ Hd) as [W HW].
  exists W. split.
  - intros n. rewrite (valid_signers_spec _ _ _ _ _ HW). set_solver.
  - unfold Quorum_verify. case_bool_decide; cbn; [|done]. rewrite Hp. cbn. by rewrite HW.
Qed.

(** Finalisation and verification agree: whenever an engine finalises a
    block with approvals of real identities, the block it leaves behind has the
    same proposal and events, is signed exactly by the approving members, and
    passes the engine's own verification; for the Byzantine engine this covers
    the leader rule. *)
Theorem finalized_blocks_verify net ms f c b approvals b' :
  BftConsensus_new net ms f = Ok c → 0 ≤ f → Z.of_nat (size ms) < U64_MAX → 0 ≤ height b →
  Forall identity_wf approvals → finalize c b approvals = (Ok tt, b') →
  proposal b' = proposal b ∧ events b' = events b ∧
  engine_verify c b' = Ok true ∧ engine_verify (inner c) b' = Ok true ∧
  (∀ n, n ∈ cs_signer <$> signatures (consensus b') ↔ n ∈ ms ∧ n ∈ node_id <$> approvals).
Proof.
  intros Hnew Hf Hs Hh Hwf Hfin.
  destruct (Bft_new_wf _ _ _ _ Hnew Hf Hs) as (_&Hm&_&_&Hleader).
  cbn [finalize engine_verify bft_engine quorum_engine] in *. unfold Bft_finalize in Hfin.
  destruct (existsb _ _) eqn:Hl; cbn in Hfin; [|done].
  destruct (Quorum_finalize_ok _ _ _ _ Hwf Hfin) as (Hp&He&Hv&Hsig). rewrite Hm in Hsig.
  split_and!; try done. unfold Bft_verify.
  replace (existsb _ _) with true; [done|]. symmetry. apply existsb_exists.
  apply existsb_exists in Hl as (i&Hi&Hl). apply bool_decide_eq_true in Hl.
  assert (leader c (height b) ∈ cs_signer <$> signatures (consensus b')) as Hin.
  { apply Hsig. split; [by apply Hleader|]. rewrite <- Hl. apply list_elem_of_fmap_2.
    by apply list_elem_of_In. }
  apply list_elem_of_fmap in Hin as (a&Ha&Hin). exists a. rewrite list_elem_of_In in Hin.
  split; [done|]. apply bool_decide_eq_true. rewrite <- Ha. f_equal.
  apply (f_equal (λ q : Proposal, q.1.1.2)) in Hp. done.
Qed.

(** C4: agreement of the Byzantine engine with exactly [3f + 1] members: if at
    most [f] members are faulty and no other member signs two different
    proposals, any two blocks the engine verifies carry the same proposal. *)
Theorem bft_agreement (net : string) (ms : gset NodeId) (f : Z) (c : BftConsensus) (b1 b2 : Block)
    (p1 p2 : bytes) (faulty : gset NodeId) :
  BftConsensus_new net ms f = Ok c → 0 ≤ f →
  Z.of_nat (size ms) = 3 * f + 1 → Z.of_nat (size ms) < U64_MAX →
  Z.of_nat (size faulty) ≤ f →
  engine_verify c b1 = Ok true → engine_verify c b2 = Ok true →
  proposal_bytes b1 = Ok p1 → proposal_bytes b2 = Ok p2 →
  (∀ n, n ∉ faulty → signs ms p1 (signatures (consensus b1)) n →
        signs ms p2 (signatures (consensus b2)) n → p1 = p2) →
  p1 = p2.
Proof.
  intros Hnew Hf Hn Hu Hfaulty Hv1 Hv2 Hp1 Hp2 Hhonest.
  destruct (Bft_new_wf _ _ _ _ Hnew Hf Hu) as (_&Hm&Hq&_).
  apply Bft_verify_quorum in Hv1. apply Bft_verify_quorum in Hv2.
  destruct (quorum_overlap _ _ _ _ _ Hv1 Hv2 Hp1 Hp2) as (X&HX&Hsz&Hboth).
  rewrite Hm in *. rewrite Hq, Hn in Hsz.
  destruct (decide (X ⊆ faulty)) as [Hsub|Hsub].
  { apply subseteq_size in Hsub. lia. }
  destruct (set_choose_L (X ∖ faulty)) as [n Hin].
  { intros E. apply Hsub. intros n Hin. destruct (decide (n ∈ faulty)); [done|]. set_solver. }
  destruct (Hboth n) as [S1 S2]; [set_solver|]. eapply Hhonest; [|done..]. set_solver.
Qed.

(** The Byzantine engine does not authenticate the leader's approval: an
    entry that merely names the leader next to a foreign key is enough to turn
    a block with a plain quorum into one the engine verifies. *)
Theorem leader_entry_not_authenticated c b :
  Quorum_verify (inner c) b = Ok true →
  NodeId_derive [] ≠ leader c (height b) →
  let entry := mkConsensusSignature (leader c (height b)) [] [] in
  let proof := mkConsensusProof (network_id (consensus b)) (entry :: signatures (consensus b)) in
  engine_verify c (set_consensus proof b) = Ok true ∧
  ∀ payload, ¬ valid_signature (members (inner c)) payload entry.
Proof.
  intros Hv Hne entry proof. split; [|intros payload (_&E&_); cbn in E; congruence].
  cbn [engine_verify bft_engine]. unfold Bft_verify. cbn [consensus set_consensus signatures proof existsb height].
  rewrite (bool_decide_eq_true_2 (cs_signer entry = leader c (height b))) by done. cbn [orb].
  unfold Quorum_verify in *. cbn [consensus set_consensus network_id signatures proof].
  case_bool_decide; cbn [negb] in *; [|done].
  unfold proposal_bytes in *. rewrite proposal_set_consensus.
  destruct (ok_or _ _) as [payload|]; cbn [rbind] in *; [|done].
  cbn [valid_signers]. rewrite (bool_decide_eq_false_2 (NodeId_derive (cs_public_key entry) = _)) by done.
  by rewrite andb_false_r.
Qed.

(** A membership verifies exactly when its issuer is trusted, is the
    identifier of the key it carries, it has not expired, and that key signed
    the network, member, issuer, permissions and expiry; and what an identity
    issues verifies for whoever trusts it until it expires, as does an
    invitation from the moment it was issued, for its member only. *)
Theorem membership_verify_exact :
  (∀ (m : Membership) (trusted : gset NodeId) (now : Z),
     Membership_verify m trusted now = Ok true ↔
     ms_issuer m ∈ trusted ∧ ms_issuer m = NodeId_derive (ms_issuer_public_key m) ∧
     (∀ e, ms_expires_at m = Some e → now < e) ∧
     ∃ payload, Membership_payload m = Ok payload ∧
       signed_by (ms_issuer_public_key m) payload (ms_signature m)) ∧
  (∀ net member perms exp boot issued (issuer : NodeIdentity) inv (now : Z) (n : NodeId),
     identity_wf issuer → Invitation_issue net member perms exp boot issued issuer = Ok inv →
     Invitation_verify_for inv n now =
       Ok ((issued <=? now) && bool_decide (member = n)
           && match exp with None => true | Some e => now <? e end)).
Proof.
  split; [apply Membership_verify_true|].
  intros net member perms exp boot issued issuer inv now n Hi Hiss.
  unfold Invitation_issue in Hiss. apply rbind_ok in Hiss as (m&Hm&Hiss). inv_ok. subst inv.
  unfold Invitation_verify_for. cbn [inv_version inv_membership issued_at]. rewrite Z.eqb_refl.
  unfold Membership_issue in Hm. apply rbind_ok in Hm as (payload&Hp&Hm). inv_ok. subst m.
  cbn [ms_member ms_issuer set_ms_signature]. cbn [andb].
  destruct (issued <=? now); [|done]. case_bool_decide; [|done]. cbn [andb].
  unfold Membership_verify. cbn [ms_issuer ms_expires_at ms_issuer_public_key ms_signature set_ms_signature].
  rewrite bool_decide_eq_true_2 by set_solver.
  rewrite bool_decide_eq_true_2 by (symmetry; by apply identity_node_id). cbn [andb].
  destruct (match exp with None => true | Some e => now <? e end); [|done].
  unfold Membership_payload in *.
  cbn [ms_network_id ms_member ms_issuer ms_permissions ms_expires_at set_ms_signature] in *.
  rewrite Hp. cbn [rbind]. unfold identity_error in *. apply rmap_err_ok in E.
  by rewrite (proj2 (verify_true _ _ _) (sign_signed_by _ _ _ Hi E)).
Qed.

End consensus.

(** ** Concrete configurations and witnesses *)

Module Samples.
Import Toy.

#[export] Instance sample_proposal_json : Json Proposal := countable_json.

Definition member_key (k : byte) : Keypair := [k; k].
Definition member (k : byte) : NodeIdentity := identity_of (member_key k).
Definition member_ids (ks : list byte) : gset NodeId := list_to_set ((λ k, node_id (member k)) <$> ks).
Definition proposed (t : Z) : Block := mkBlock 1 None 0 t [] [] (mkConsensusProof "net" []).

Definition six : result BftConsensus LedgerError :=
  BftConsensus_new "net" (member_ids [x01; x02; x03; x04; x05; x06]) 1.
Definition four : result BftConsensus LedgerError :=
  BftConsensus_new "net" (member_ids [x01; x02; x03; x04]) 1.
Definition dummy : BftConsensus := mkBftConsensus (mkQuorumConsensus "" ∅ 0) [] 0.
Definition engine (r : result BftConsensus LedgerError) : BftConsensus :=
  match r with Ok c => c | Err _ => dummy end.

(** A block signed by the given members behind an entry that only names the
    leader. *)
Definition forged (c : BftConsensus) (t : Z) (ks : list byte) : Block :=
  let b := (Quorum_finalize (inner c) (proposed t) (member <$> ks)).2 in
  set_consensus (mkConsensusProof "net"
    (mkConsensusSignature (leader c 0) [] [] :: signatures (consensus b))) b.

(** The membership bound of the Byzantine engine is only a lower bound: it
    accepts six members with one tolerated fault, and then two different
    proposals for the same height, signed by disjoint sets of three members,
    both verify. *)
Theorem six_members_disagree :
  six = Ok (engine six) ∧
  let b1 := forged (engine six) 10 [x01; x02; x03] in
  let b2 := forged (engine six) 20 [x04; x05; x06] in
  engine_verify (engine six) b1 = Ok true ∧ engine_verify (engine six) b2 = Ok true ∧
  height b1 = height b2 ∧ proposal b1 ≠ proposal b2 ∧
  tail (cs_signer <$> signatures (consensus b1)) = ((λ k, node_id (member k)) <$> [x01; x02; x03]) ∧
  tail (cs_signer <$> signatures (consensus b2)) = ((λ k, node_id (member k)) <$> [x04; x05; x06]).
Proof.
  split; [vm_compute; reflexivity|]. cbv zeta.
  split; [vm_compute; reflexivity|]. split; [vm_compute; reflexivity|].
  split; [vm_compute; reflexivity|]. split; [vm_compute; discriminate|].
  split; vm_compute; reflexivity.
Qed.

Definition sample_block : Block := (Bft_finalize (engine four) (proposed 10) (member <$> [x01; x02; x03; x04])).2.
Definition sample_payload : bytes := match proposal_bytes sample_block with Ok p => p | Err _ => [] end.

Lemma quorum_verify_exact_witness :
  ∃ W : gset NodeId,
    (∀ n, n ∈ W ↔ signs (members (inner (engine four))) sample_payload (signatures (consensus sample_block)) n) ∧
    Quorum_verify (inner (engine four)) sample_block =
      Ok (bool_decide (network_id (consensus sample_block) = "net")
          && (quorum (inner (engine four)) <=? Z.of_nat (size W))).
Proof.
  apply (quorum_verify_exact (inner (engine four)) sample_block sample_payload).
  - vm_compute. reflexivity.
  - assert (Forall (λ a, is_Some (try_decode_protobuf (cs_public_key a)))
              (signatures (consensus sample_block))) as Hall.
    { apply (bool_decide_unpack _). vm_compute. exact I. }
    intros a Ha _ _. rewrite Forall_forall in Hall. by apply Hall.
Defined.

Lemma finalized_blocks_verify_witness :
  proposal sample_block = proposal (proposed 10) ∧ events sample_block = [] ∧
  engine_verify (engine four) sample_block = Ok true ∧
  engine_verify (inner (engine four)) sample_block = Ok true ∧
  (∀ n, n ∈ cs_signer <$> signatures (consensus sample_block) ↔
     n ∈ member_ids [x01; x02; x03; x04] ∧ n ∈ node_id <$> (member <$> [x01; x02; x03; x04])).
Proof.
  apply (finalized_blocks_verify "net" (member_ids [x01; x02; x03; x04]) 1 (engine four)
           (proposed 10) (member <$> [x01; x02; x03; x04]) sample_block).
  - vm_compute. reflexivity.
  - lia.
  - vm_compute. reflexivity.
  - cbn. lia.
  - repeat constructor.
  - vm_compute. reflexivity.
Defined.

(** Two blocks with the same proposal and the signatures of different members. *)
Definition block_by (ks : list byte) : Block := (Bft_finalize (engine four) (proposed 10) (member <$> ks)).2.
Definition payload_of (b : Block) : bytes := match proposal_bytes b with Ok p => p | Err _ => [] end.

Lemma bft_agreement_witness :
  let b1 := block_by [x01; x02; x03] in let b2 := block_by [x04; x03; x01] in
  b1 ≠ b2 ∧ payload_of b1 = payload_of b2.
Proof.
  cbv zeta. split; [vm_compute; discriminate|].
  apply (bft_agreement "net" (member_ids [x01; x02; x03; x04]) 1 (engine four)
           (block_by [x01; x02; x03]) (block_by [x04; x03; x01]) _ _ {[node_id (member x02)]}).
  - vm_compute. reflexivity.
  - lia.
  - vm_compute. reflexivity.
  - vm_compute. reflexivity.
  - vm_compute. discriminate.
  - vm_compute. reflexivity.
  - vm_compute. reflexivity.
  - vm_compute. reflexivity.
  - vm_compute. reflexivity.
  - intros n _ _ _. vm_compute. reflexivity.
Defined.

Definition quorum_block : Block :=
  (Quorum_finalize (inner (engine six)) (proposed 10) (member <$> [x04; x05; x06])).2.

Lemma leader_entry_not_authenticated_witness :
  let entry := mkConsensusSignature (leader (engine six) 0) [] [] in
  engine_verify (engine six)
    (set_consensus (mkConsensusProof "net" (entry :: signatures (consensus quorum_block))) quorum_block) = Ok true ∧
  ∀ payload, ¬ valid_signature (members (inner (engine six))) payload entry.
Proof.
  apply (leader_entry_not_authenticated (engine six) quorum_block).
  - vm_compute. reflexivity.
  - vm_compute. discriminate.
Defined.

End Samples.
