(* ===== verification/Ledger.v ===== *)
(** The persistent hash chain (struct [Ledger] in crates/peerless-ledger/src/lib.rs):
    proposing, appending and reopening, over the file-system model. *)

From S2P Require Import Prelude External Core Protocol FileSystem Storage Merkle Consensus.
From Stdlib Require Import Strings.Byte.
From stdpp Require Import sorting.
#[local] Open Scope Z_scope.
#[local] Open Scope result_scope.

Definition MAX_BLOCK_BYTES : Z := 16 * 1024 * 1024.

(** ** File names *)

Definition digit (z : Z) : Ascii.ascii := Ascii.ascii_of_nat (Z.to_nat (48 + z)).

(** [{:0n}] of a number below [10 ^ n]. *)
Fixpoint decimal (n : nat) (z : Z) : string :=
  match n with
  | O => EmptyString
  | S n => String (digit (z / 10 ^ Z.of_nat n mod 10)) (decimal n z)
  end.

(** [format!("{:020}-{}.json", height, hex_string(hash))]; a [u64] has at most
    twenty decimal digits. *)
Definition block_file (h : Z) (hash : Hash) : string :=
  decimal 20 h +:+ "-" +:+ hex_string hash +:+ ".json".

Definition dot : Ascii.ascii := Ascii.ascii_of_nat 46.

(** [Path::extension]: what follows the last dot, unless that dot leads the name. *)
Fixpoint split_last_dot (s : string) : option (string * string) :=
  match s with
  | EmptyString => None
  | String c r =>
      match split_last_dot r with
      | Some (b, a) => Some (String c b, a)
      | None => if Ascii.eqb c dot then Some (EmptyString, r) else None
      end
  end.
Definition extension (s : string) : option string :=
  if bool_decide (s = "..") then None
  else match split_last_dot s with
       | Some (EmptyString, _) | None => None
       | Some (_, a) => Some a
       end.

(** ** Names: order and extensions *)

Lemma digit_code d : 0 ≤ d < 10 → byte_to_Z (Ascii.byte_of_ascii (digit d)) = 48 + d.
Proof.
  intros Hd. assert (d ∈ seqZ 0 10) as Hin by (apply elem_of_seqZ; lia). clear Hd. revert d Hin.
  apply (Forall_forall (λ d, byte_to_Z (Ascii.byte_of_ascii (digit d)) = 48 + d)).
  repeat constructor.
Qed.

(** Padded decimals order like the numbers they stand for. *)
Lemma decimal_le n a b s t :
  a mod 10 ^ Z.of_nat n < b mod 10 ^ Z.of_nat n → str_le (decimal n a +:+ s) (decimal n b +:+ t).
Proof.
  induction n as [|n IH]; intros Hab; [rewrite !Z.mod_1_r in Hab; lia|].
  unfold str_le. cbn [decimal].
  change (bytes_le (Ascii.byte_of_ascii (digit (a / 10 ^ Z.of_nat n mod 10)) :: str_bytes (decimal n a +:+ s))
            (Ascii.byte_of_ascii (digit (b / 10 ^ Z.of_nat n mod 10)) :: str_bytes (decimal n b +:+ t))).
  rewrite Nat2Z.inj_succ, Z.pow_succ_r, (Z.mul_comm 10), !Z.rem_mul_r in Hab by lia.
  set (P := 10 ^ Z.of_nat n) in *. assert (0 < P) by (unfold P; lia).
  pose proof (Z.mod_pos_bound (a / P) 10 ltac:(lia)). pose proof (Z.mod_pos_bound (b / P) 10 ltac:(lia)).
  pose proof (Z.mod_pos_bound a P ltac:(lia)). pose proof (Z.mod_pos_bound b P ltac:(lia)).
  rewrite bytes_le_cons, !digit_code by done.
  destruct (Z.lt_trichotomy ((a / P) mod 10) ((b / P) mod 10)) as [|[E|]]; [left; lia| |nia].
  right. rewrite E in *. split; [done|]. apply IH. lia.
Qed.

Lemma decimal_inj n a b s t :
  decimal n a +:+ s = decimal n b +:+ t → a mod 10 ^ Z.of_nat n = b mod 10 ^ Z.of_nat n ∧ s = t.
Proof.
  induction n as [|n IH]; [by rewrite !Z.mod_1_r|]. cbn [decimal].
  change (String (digit (a / 10 ^ Z.of_nat n mod 10)) (decimal n a +:+ s)
          = String (digit (b / 10 ^ Z.of_nat n mod 10)) (decimal n b +:+ t) →
          a mod 10 ^ Z.of_nat (S n) = b mod 10 ^ Z.of_nat (S n) ∧ s = t).
  intros [= Hd [Hm ->]%IH]. split; [|done].
  rewrite Nat2Z.inj_succ, Z.pow_succ_r, (Z.mul_comm 10), !Z.rem_mul_r by lia. rewrite Hm. do 2 f_equal.
  apply (f_equal (λ c, byte_to_Z (Ascii.byte_of_ascii c))) in Hd.
  rewrite !digit_code in Hd by (apply Z.mod_pos_bound; lia). lia.
Qed.

Lemma split_last_dot_app x y :
  split_last_dot y = None → split_last_dot (x +:+ String dot y) = Some (x, y).
Proof.
  intros Hy. induction x as [|c x IH].
  { change ("" +:+ String dot y) with (String dot y). cbn [split_last_dot]. by rewrite Hy. }
  change (String c x +:+ String dot y) with (String c (x +:+ String dot y)).
  cbn [split_last_dot]. by rewrite IH.
Qed.

Lemma extension_app x y :
  (1 ≤ String.length x)%nat → split_last_dot y = None → (1 ≤ String.length y)%nat →
  extension (x +:+ String dot y) = Some y.
Proof.
  intros Hx Hy Hl. unfold extension. rewrite bool_decide_eq_false_2.
  - rewrite split_last_dot_app by done. destruct x; [cbn in Hx; lia|done].
  - intros E. apply (f_equal String.length) in E. rewrite str_length_app in E. cbn in E. lia.
Qed.

Lemma extension_block_file h hash : extension (block_file h hash) = Some "json".
Proof.
  unfold block_file. rewrite !(assoc_L String.append).
  apply (extension_app _ "json"); [rewrite !str_length_app; cbn; lia|done|cbn; lia].
Qed.

Lemma block_file_inj h h' a a' :
  in_u64 h → in_u64 h' → block_file h a = block_file h' a' → h = h'.
Proof.
  unfold in_u64, U64_MAX. intros Hh Hh' [E _]%decimal_inj. by rewrite !Z.mod_small in E by lia.
Qed.

Lemma block_file_le h h' a a' :
  in_u64 h → in_u64 h' → h < h' → str_le (block_file h a) (block_file h' a').
Proof.
  unfold in_u64, U64_MAX. intros Hh Hh' Hlt. apply decimal_le. by rewrite !Z.mod_small by lia.
Qed.

Lemma extension_temporary pid name s : extension (temporary_name pid name s) = Some "tmp".
Proof.
  unfold temporary_name. rewrite !(assoc_L String.append).
  apply (extension_app _ "tmp"); [rewrite !str_length_app; cbn; lia|done|cbn; lia].
Qed.

Record Ledger := mkLedger { ledger_root : path; blocks : list Block }.

Section ledger.
Context (pid : N) `{Sha256, Keys}.
Context `{Json LedgerEvent, Json SignedEvent, Json Block, Json Proposal}.
Context {C : Type} `{ConsensusEngine C}.

Definition last_hash (bs : list Block) : result (option Hash) LedgerError :=
  match last bs with
  | None => Ok None
  | Some b => let? h := Block_hash b in Ok (Some h)
  end.

(** One step of the reading loop of [open]. *)
Definition read_block (root : path) (name : string) : io Block LedgerError :=
  let! b := imap_err (λ _, InvalidBlock) (read_limited (name :: root) MAX_BLOCK_BYTES) in
  let! block := ilift (ok_or (from_slice b) LedgerJson) in
  let! h := ilift (Block_hash block) in
  if negb (bool_decide (name = block_file (height block) h)) then ifail InvalidBlock else iret block.

(** The checking loop of [open]: the state is the expected height, the
    previous hash, the known network and the last timestamp. *)
Fixpoint check_chain (h : Z) (prev : option Hash) (net : option string) (ts : option Z)
    (bs : list Block) : result unit LedgerError :=
  match bs with
  | [] => Ok tt
  | b :: rest =>
      if negb (version b =? 1) || negb (height b =? h) || negb (bool_decide (previous b = prev))
      then Err InvalidBlock
      else
        let? hs := event_hashes (events b) in
        if negb (bool_decide (events_root b = merkle_root hs))
           || match net with Some n => negb (bool_decide (n = network_id (consensus b))) | None => false end
           || match ts with Some t => timestamp b <? t | None => false end
        then Err InvalidBlock
        else
          let? bh := Block_hash b in
          check_chain (h + 1) (Some bh) (Some (network_id (consensus b))) (Some (timestamp b)) rest
  end.

Definition Ledger_open (root : path) : io Ledger LedgerError :=
  imap_err (λ _, LedgerIo) (create_dir_all root) ;!
  let! names := imap_err (λ _, LedgerIo) (read_dir root) in
  let files := filter (λ name, extension name = Some "json") (merge_sort str_le names) in
  let! bs := itraverse (read_block root) files in
  ilift (check_chain 0 None None None bs) ;!
  iret (mkLedger root bs).

Definition next_block (l : Ledger) (es : list SignedEvent) (ts : Z) (net : string) :
    result Block LedgerError :=
  let? prev := last_hash (blocks l) in
  let? hs := event_hashes es in
  Ok (mkBlock 1 prev (Z.of_nat (length (blocks l))) ts (merkle_root hs) es (mkConsensusProof net [])).

(** The conditions of [append], evaluated in the order of the source: every
    event is verified first, and the lazy [||] stops at the first failure. *)
Definition check_append (l : Ledger) (b : Block) (c : C) : result unit LedgerError :=
  let? verdicts := collect (SignedEvent_verify <$> events b) in
  if negb (height b =? Z.of_nat (length (blocks l))) then Err InvalidBlock
  else
    let? prev := last_hash (blocks l) in
    if negb (bool_decide (previous b = prev)) || negb (version b =? 1)
       || match last (blocks l) with Some p => timestamp b <? timestamp p | None => false end
    then Err InvalidBlock
    else
      let? hs := event_hashes (events b) in
      if negb (bool_decide (events_root b = merkle_root hs)) then Err InvalidBlock
      else
        let? ok := engine_verify c b in
        if negb ok || negb (forallb id verdicts) then Err InvalidBlock else Ok tt.

(** On every error the ledger in memory is unchanged: the push is last. *)
Definition Ledger_append (l : Ledger) (b : Block) (c : C) : io (Hash * Ledger) LedgerError :=
  ilift (check_append l b c) ;!
  let! h := ilift (Block_hash b) in
  imap_err (λ _, LedgerIo) (create_dir_all (ledger_root l)) ;!
  let p := block_file (height b) h :: ledger_root l in
  let! v := ilift (ok_or (to_vec_pretty b) LedgerJson) in
  if MAX_BLOCK_BYTES <? Z.of_nat (length v) then ifail InvalidBlock
  else
    imap_err (λ _, LedgerIo) (atomic_create pid p v None) ;!
    iret (h, mkLedger (ledger_root l) (blocks l ++ [b])).

(** ** The chain *)

Definition chain_ok (bs : list Block) : Prop := check_chain 0 None None None bs = Ok tt.

(** What the checking loop has established of a block at its turn. *)
Definition linked (h : Z) (prev : option Hash) (net : option string) (ts : option Z) (b : Block) : Prop :=
  version b = 1 ∧ height b = h ∧ previous b = prev ∧
  (∃ hs, event_hashes (events b) = Ok hs ∧ events_root b = merkle_root hs) ∧
  (∀ n, net = Some n → n = network_id (consensus b)) ∧ (∀ t, ts = Some t → t ≤ timestamp b) ∧
  ∃ bh, Block_hash b = Ok bh.

Lemma check_chain_cons h prev net ts b bs :
  check_chain h prev net ts (b :: bs) = Ok tt ↔
  linked h prev net ts b ∧ ∃ bh, Block_hash b = Ok bh ∧
    check_chain (h + 1) (Some bh) (Some (network_id (consensus b))) (Some (timestamp b)) bs = Ok tt.
Proof.
  cbn [check_chain]. unfold linked. split.
  - case_match eqn:E1; [done|]. breflect. intros Hc. apply rbind_ok in Hc as (hs&Hhs&Hc).
    case_match eqn:E2; [done|]. breflect. apply rbind_ok in Hc as (bh&Hbh&Hc).
    split_and!; try done; eauto.
    + intros n ->. by breflect.
    + intros t ->. by breflect.
  - intros ((->&->&->&(hs&->&->)&Hn&Ht&_)&bh&Hbh&Hc). rewrite !Z.eqb_refl, bool_decide_eq_true_2 by done.
    cbn. rewrite bool_decide_eq_true_2 by done. cbn.
    replace (match net with Some n => negb (bool_decide (n = network_id (consensus b))) | None => false end)
      with false; cycle 1.
    { destruct net; [|done]. by rewrite bool_decide_eq_true_2 by auto. }
    replace (match ts with Some t => timestamp b <? t | None => false end) with false; cycle 1.
    { destruct ts as [t|]; [|done]. symmetry. apply Z.ltb_ge. auto. }
    cbn. by rewrite Hbh.
Qed.

(** The state of the checking loop after a run. *)
Definition after {X} (x : X) (f : Block → X) (bs : list Block) : X :=
  match last bs with None => x | Some b => f b end.

Definition hash_of (b : Block) : option Hash :=
  match Block_hash b with Ok h => Some h | Err _ => None end.

Lemma after_cons {X} (x : X) f b bs : after (f b) f bs = after x f (b :: bs).
Proof. unfold after. rewrite last_cons. by destruct (last bs). Qed.

Lemma check_chain_snoc h prev net ts bs b :
  check_chain h prev net ts (bs ++ [b]) = Ok tt ↔
  check_chain h prev net ts bs = Ok tt ∧
  linked (h + Z.of_nat (length bs)) (after prev hash_of bs)
    (after net (λ b, Some (network_id (consensus b))) bs) (after ts (λ b, Some (timestamp b)) bs) b.
Proof.
  revert h prev net ts. induction bs as [|x bs IH]; intros h prev net ts.
  - cbn [app]. rewrite check_chain_cons. cbn [length]. rewrite Z.add_0_r. cbn.
    unfold linked. naive_solver.
  - cbn [app]. rewrite !check_chain_cons. setoid_rewrite IH.
    rewrite <- !(after_cons _ _ x bs). cbn [length]. rewrite Nat2Z.inj_succ.
    replace (h + Z.succ (Z.of_nat (length bs))) with (h + 1 + Z.of_nat (length bs)) by lia.
    unfold hash_of at 2. split.
    + intros (Hl&bh&Hbh&Hc&Hb). rewrite Hbh. naive_solver.
    + intros ((Hl&bh&Hbh&Hc)&Hb). rewrite Hbh in Hb. naive_solver.
Qed.

Lemma chain_lookup h prev net ts bs i b :
  check_chain h prev net ts bs = Ok tt → bs !! i = Some b →
  height b = h + Z.of_nat i ∧ ∃ bh, Block_hash b = Ok bh.
Proof.
  revert h prev net ts i. induction bs as [|x bs IH]; intros h prev net ts i Hc Hi; [done|].
  apply check_chain_cons in Hc as [(_&Hh&_&_&_&_&bh&Hbh) (bh'&_&Hc)].
  destruct i as [|i]; cbn in Hi.
  - injection Hi as <-. split; [lia|eauto].
  - destruct (IH _ _ _ _ _ Hc Hi) as [-> ?]. split; [lia|done].
Qed.

(** ** The chain on disk *)

Definition block_name (b : Block) : string :=
  match Block_hash b with Ok h => block_file (height b) h | Err _ => "" end.

Definition on_disk (l : Ledger) (t : tree) : Prop :=
  (∃ m, t !! ledger_root l = Some (Dir m)) ∧
  (∀ b, b ∈ blocks l → ∃ v, to_vec_pretty b = Some v ∧ Z.of_nat (length v) ≤ MAX_BLOCK_BYTES ∧
     t !! (block_name b :: ledger_root l) = Some (File None v)) ∧
  (∀ name, is_Some (t !! (name :: ledger_root l)) → extension name = Some "json" →
     name ∈ block_name <$> blocks l).

Lemma block_name_eq b bh : Block_hash b = Ok bh → block_name b = block_file (height b) bh.
Proof. unfold block_name. by intros ->. Qed.

Lemma chain_names h prev net ts bs :
  check_chain h prev net ts bs = Ok tt → 0 ≤ h → h + Z.of_nat (length bs) ≤ U64_MAX →
  StronglySorted str_le (block_name <$> bs) ∧ NoDup (block_name <$> bs).
Proof.
  revert h prev net ts. induction bs as [|x bs IH]; intros h prev net ts Hc Hh Hlen; [by split; constructor|].
  pose proof Hc as [(_&Hx&_&_&_&_&bh&Hbh) (bh'&_&Hc')]%check_chain_cons. cbn [length] in Hlen.
  destruct (IH _ _ _ _ Hc') as [Hs Hnd]; [lia..|].
  assert (∀ y, y ∈ bs → ∃ bh', block_name y = block_file (height y) bh' ∧ h < height y ∧ in_u64 (height y)) as Hy.
  { intros y (i&Hi)%list_elem_of_lookup. destruct (chain_lookup _ _ _ _ _ _ _ Hc' Hi) as [Hhy [b Hb]].
    exists b. apply lookup_lt_Some in Hi. unfold in_u64. split_and!; [by apply block_name_eq|lia..]. }
  assert (in_u64 (height x)) by (unfold in_u64; lia).
  rewrite fmap_cons, (block_name_eq x bh Hbh). split; constructor; try done.
  - apply Forall_fmap, Forall_forall. intros y (b&Hb&?&?)%Hy. cbn. rewrite Hb.
    apply block_file_le; [done..|lia].
  - intros (y&E&(b&Hb&?&?)%Hy)%list_elem_of_fmap. rewrite Hb in E.
    apply block_file_inj in E; [lia|done..].
Qed.

Lemma StronglySorted_filter {A} (R : A → A → Prop) (P : A → Prop) `{∀ x, Decision (P x)} l :
  StronglySorted R l → StronglySorted R (filter P l).
Proof.
  induction 1 as [|x l Hl IH Hx]; [constructor|]. rewrite filter_cons. case_decide; [|done].
  constructor; [done|]. rewrite Forall_forall in *. intros y [_ ?]%list_elem_of_filter. auto.
Qed.

(** The files [open] reads are those of the chain, in chain order. *)
Lemma open_files l t :
  chain_ok (blocks l) → Z.of_nat (length (blocks l)) ≤ U64_MAX → on_disk l t →
  filter (λ name, extension name = Some "json") (merge_sort str_le (children t (ledger_root l)))
    = block_name <$> blocks l.
Proof.
  intros Hc Hlen (_&Hfiles&Hnames). destruct (chain_names _ _ _ _ _ Hc) as [Hs Hnd]; [lia..|].
  apply (StronglySorted_unique str_le); [|done|].
  { apply StronglySorted_filter, StronglySorted_merge_sort; apply _. }
  apply NoDup_Permutation; [|done|].
  - apply NoDup_filter. rewrite merge_sort_Permutation. apply NoDup_children.
  - intros name. rewrite list_elem_of_filter, merge_sort_Permutation, elem_of_children. split.
    + intros [? ?]. by apply Hnames.
    + intros (b&->&Hb)%list_elem_of_fmap. destruct (Hfiles b Hb) as (v&_&_&Hv).
      split; [|by rewrite Hv]. apply list_elem_of_lookup in Hb as [i Hi].
      destruct (chain_lookup _ _ _ _ _ _ _ Hc Hi) as [_ [bh Hbh]].
      rewrite (block_name_eq b bh Hbh). apply extension_block_file.
Qed.

(** ** Reopening *)

Section reopening.
Context `{!JsonLaws Block}.

Definition quiet (t : tree) (w : World) : Prop := fs w = t ∧ faults w = [].

Lemma read_block_run root t w b v bh :
  quiet t w → Block_hash b = Ok bh → to_vec_pretty b = Some v →
  Z.of_nat (length v) ≤ MAX_BLOCK_BYTES → t !! (block_name b :: root) = Some (File None v) →
  ∃ w', read_block root (block_name b) w = (Ok b, w') ∧ quiet t w'.
Proof.
  intros [Hfs Hfl] Hbh Hv Hlen Ht.
  unfold read_block, read_limited, ibind, imap_err, open_file, read_take.
  rewrite syscall_nofault by done. rewrite Hfs, (follow_File _ _ _ _ Ht).
  rewrite syscall_nofault by done. cbn [fs]. rewrite (follow_File _ _ _ _ Ht).
  rewrite (proj2 (Z.leb_le _ _)); cycle 1.
  { unfold saturating_add, MAX_BLOCK_BYTES, U64_MAX in *. lia. }
  rewrite (proj2 (Z.ltb_ge _ _)) by done. cbn [iret rmap_err].
  unfold ilift. rewrite (json_pretty_roundtrip b v Hv). cbn [ok_or]. rewrite Hbh.
  rewrite bool_decide_eq_true_2 by by apply block_name_eq. cbn. by eexists.
Qed.

Lemma read_blocks_run root t bs w :
  quiet t w →
  (∀ b, b ∈ bs → ∃ v bh, Block_hash b = Ok bh ∧ to_vec_pretty b = Some v ∧
     Z.of_nat (length v) ≤ MAX_BLOCK_BYTES ∧ t !! (block_name b :: root) = Some (File None v)) →
  ∃ w', itraverse (read_block root) (block_name <$> bs) w = (Ok bs, w').
Proof.
  revert w. induction bs as [|b bs IH]; intros w Hw Hbs; [by eexists|].
  destruct (Hbs b) as (v&bh&?&?&?&?); [by left|].
  destruct (read_block_run root t w b v bh) as (w1&Hr&Hw1); [done..|].
  destruct (IH w1 Hw1) as [w2 Hr2]; [by intros; apply Hbs; right|].
  rewrite fmap_cons. cbn [itraverse]. unfold ibind. rewrite Hr, Hr2. by eexists.
Qed.

Lemma reopen l t s h :
  chain_ok (blocks l) → Z.of_nat (length (blocks l)) ≤ U64_MAX → on_disk l t →
  (Ledger_open (ledger_root l) (mkWorld t s [] h)).1 = Ok l.
Proof.
  intros Hc Hlen Hd. pose proof Hd as ((m&Hroot)&Hfiles&_).
  unfold Ledger_open, ibind, imap_err, create_dir_all, read_dir.
  rewrite syscall_nofault by done. cbn [fs].
  assert (mkdirs t (ledger_root l) = Some t) as Hmk.
  { destruct (ledger_root l); cbn [mkdirs]; by rewrite (is_dir_Dir _ _ _ Hroot). }
  rewrite Hmk. cbn [ok_or rbind rmap_err]. rewrite syscall_nofault by done. cbn [fs].
  rewrite (is_dir_Dir _ _ _ Hroot). cbn [rmap_err].
  rewrite (open_files l t) by done.
  destruct (read_blocks_run (ledger_root l) t (blocks l)
              (mkWorld t s [] (t :: t :: h))) as [w' Hr]; [done|..].
  { intros b Hb. destruct (Hfiles b Hb) as (v&?&?&?).
    apply list_elem_of_lookup in Hb as [i Hi].
    destruct (chain_lookup _ _ _ _ _ _ _ Hc Hi) as [_ [bh ?]]. eauto 10. }
  cbn [sequence history]. rewrite Hr. unfold ilift. rewrite Hc. by destruct l.
Qed.

End reopening.

(** ** Appending *)

(** A new block continues the network of the chain. *)
Definition same_network (l : Ledger) (b : Block) : Prop :=
  ∀ x, last (blocks l) = Some x → network_id (consensus x) = network_id (consensus b).

Lemma check_append_ok l b c bh :
  check_append l b c = Ok tt → Block_hash b = Ok bh → same_network l b →
  linked (Z.of_nat (length (blocks l))) (after None hash_of (blocks l))
    (after None (λ b, Some (network_id (consensus b))) (blocks l))
    (after None (λ b, Some (timestamp b)) (blocks l)) b ∧
  engine_verify c b = Ok true ∧ Forall (λ e, SignedEvent_verify e = Ok true) (events b).
Proof.
  unfold check_append. intros Hc Hbh Hnet. apply rbind_ok in Hc as (verdicts&Hv&Hc).
  case_match eqn:E1; [done|]. apply rbind_ok in Hc as (prev&Hp&Hc).
  case_match eqn:E2; [done|]. apply rbind_ok in Hc as (hs&Hhs&Hc).
  case_match eqn:E3; [done|]. apply rbind_ok in Hc as (ok&Hok&Hc).
  case_match eqn:E4; [done|]. breflect. subst ok.
  assert (prev = after None hash_of (blocks l)) as Hprev.
  { unfold last_hash in Hp. unfold after, hash_of. destruct (last (blocks l)); inv_ok; subst; [|done].
    by rewrite E. }
  split_and!; [|done|].
  - split_and!; eauto; [congruence|..].
    + unfold after. intros n. destruct (last (blocks l)) eqn:El; [|done]. intros [= <-]. by apply Hnet.
    + unfold after. intros t. destruct (last (blocks l)) eqn:El; [|done]. intros [= <-]. by breflect.
  - apply collect_ok in Hv. apply Forall_forall. intros e (i&He)%list_elem_of_lookup.
    apply (f_equal (.!! i)) in Hv. rewrite !list_lookup_fmap, He in Hv. cbn in Hv.
    destruct (verdicts !! i) as [v|] eqn:Evi; [|done]. injection Hv as ->.
    rename select (forallb _ _ = true) into Hall. rewrite forallb_forall in Hall.
    destruct v; [done|]. exfalso. specialize (Hall false). cbn in Hall.
    discriminate Hall. apply list_elem_of_In. by eapply list_elem_of_lookup_2.
Qed.

Definition extended (l : Ledger) (b : Block) : Ledger := mkLedger (ledger_root l) (blocks l ++ [b]).

Section append.
Context (l : Ledger) (b : Block) (bh : Hash) (v : bytes).
Context (Hchain : chain_ok (blocks l)) (Hchain' : chain_ok (blocks l ++ [b])).
Context (Hlen : Z.of_nat (length (blocks l)) < U64_MAX).
Context (Hbh : Block_hash b = Ok bh) (Hv : to_vec_pretty b = Some v).
Context (Hsize : Z.of_nat (length v) ≤ MAX_BLOCK_BYTES).

Lemma new_file_fresh t : on_disk l t → t !! (block_name b :: ledger_root l) = None.
Proof using Hchain Hchain' Hlen Hbh.
  clear Hv Hsize v. intros (_&_&Hnames). destruct (t !! _) eqn:E; [exfalso|done].
  rewrite (block_name_eq b bh Hbh) in *.
  pose proof (Hnames _ (mk_is_Some _ _ E) (extension_block_file _ _)) as Hin.
  apply list_elem_of_fmap in Hin as (y&Ey&Hy).
  apply list_elem_of_lookup in Hy as [i Hi].
  destruct (chain_lookup _ _ _ _ _ _ _ Hchain Hi) as [Hhy [yh Hyh]].
  destruct (chain_lookup _ _ _ _ _ (length (blocks l)) b Hchain') as [Hhb _].
  { by rewrite lookup_app_r, Nat.sub_diag by lia. }
  rewrite (block_name_eq y yh Hyh) in Ey. apply lookup_lt_Some in Hi.
  apply block_file_inj in Ey; unfold in_u64; lia.
Qed.

(** Every tree an atomic creation of the new file goes through holds the old
    chain or the extended one. *)
Lemma on_disk_create t t' allowed :
  on_disk l t →
  old_or_new pid (block_name b :: ledger_root l) v None t allowed t' →
  (t' !! (block_name b :: ledger_root l) = None ∧ on_disk l t') ∨ on_disk (extended l b) t'.
Proof using Hchain Hchain' Hlen Hbh Hv Hsize.
  intros Hd [Hp He]. pose proof (new_file_fresh t Hd) as Hfresh.
  destruct Hd as ((m&Hroot)&Hfiles&Hnames). rewrite Hfresh in Hp.
  set (p := block_name b :: ledger_root l) in *.
  assert (∀ q n, t !! q = Some n → t' !! q = Some n) as Hkeep.
  { intros q n Hq. destruct (decide (q = p)) as [->|Hqp]; [congruence|].
    destruct (He q Hqp) as [E|[[E _]|[E _]]]; congruence. }
  assert (∀ name, is_Some (t' !! (name :: ledger_root l)) → extension name = Some "json" →
    name = block_name b ∨ name ∈ block_name <$> blocks l) as Hnames'.
  { intros name Hn Hext. destruct (decide (name :: ledger_root l = p)) as [E|Hne]; [left; by injection E|right].
    destruct (He _ Hne) as [E|[(_&_&E)|(_&s&E)]].
    - rewrite E in Hn. by apply Hnames.
    - cbn in E. lia.
    - apply (f_equal head), (inj Some) in E. subst name. by rewrite extension_temporary in Hext. }
  destruct Hp as [Hp|[_ Hp]].
  - left. split; [done|]. split_and!; [eauto|..].
    + intros x Hx. destruct (Hfiles x Hx) as (vx&?&?&?). eauto.
    + intros name Hn Hext. destruct (Hnames' name Hn Hext) as [->|]; [|done].
      unfold p in Hp. rewrite Hp in Hn. by destruct Hn.
  - right. split_and!; [eauto|..].
    + intros x [Hx|Hx%list_elem_of_singleton]%elem_of_app; [|subst x; by eauto].
      destruct (Hfiles x Hx) as (vx&?&?&?). eauto.
    + intros name Hn Hext. cbn. rewrite fmap_app. destruct (Hnames' name Hn Hext) as [->|]; set_solver.
Qed.

End append.

Lemma create_dir_all_existing (t : tree) d m w :
  t !! d = Some (Dir m) → fs w = t →
  ∃ r, create_dir_all d w = (r, mkWorld t (sequence w) (tail (faults w)) (t :: history w)).
Proof.
  intros Hd <-. unfold create_dir_all, syscall.
  assert (mkdirs (fs w) d = Some (fs w)) as Hmk.
  { destruct d; cbn [mkdirs]; by rewrite (is_dir_Dir _ _ _ Hd). }
  rewrite Hmk. cbn. destruct (head (faults w)) as [[f|]|]; by eexists.
Qed.

Lemma Ledger_append_spec l b c t s fl :
  chain_ok (blocks l) → on_disk l t → same_network l b → Z.of_nat (length (blocks l)) < U64_MAX →
  let '(r, w) := Ledger_append l b c (mkWorld t s fl []) in
  Forall (λ t', on_disk l t' ∨ (chain_ok (blocks (extended l b)) ∧ on_disk (extended l b) t')) (history w) ∧
  ∀ h l', r = Ok (h, l') →
    check_append l b c = Ok tt ∧ Block_hash b = Ok h ∧ l' = extended l b ∧
    chain_ok (blocks l') ∧ on_disk l' (fs w).
Proof.
  intros Hc Hd Hnet Hlen. unfold Ledger_append, ibind, ilift.
  destruct (check_append l b c) as [[]|] eqn:Hck; [|done].
  destruct (Block_hash b) as [bh|] eqn:Hbh; [|done].
  destruct (check_append_ok _ _ _ _ Hck Hbh Hnet) as (Hlinked&_).
  assert (chain_ok (blocks l ++ [b])) as Hc' by (by apply check_chain_snoc).
  pose proof Hd as ((m&Hroot)&_).
  destruct (create_dir_all_existing t (ledger_root l) m (mkWorld t s fl [])) as [r0 Hcd]; [done..|].
  unfold imap_err at 1. rewrite Hcd. cbn [sequence faults history].
  destruct r0; cbn [rmap_err]; [|split; [|done]; by apply Forall_singleton; left].
  destruct (to_vec_pretty b) as [v|] eqn:Hv; cbn [ok_or]; [|split; [|done]; by apply Forall_singleton; left].
  destruct (Z.ltb_spec MAX_BLOCK_BYTES (Z.of_nat (length v))) as [|Hsize];
    [split; [|done]; by apply Forall_singleton; left|].
  rewrite <- (block_name_eq b bh Hbh).
  set (p := block_name b :: ledger_root l).
  assert (before p t t) as Hbefore by (by split; [|left]).
  destruct (atomic_create_hoare pid p v None t (mkWorld t s (tail fl) [t])) as [HQ Hh];
    [done|apply Forall_singleton, (before_inv pid p v None t _ t Hbefore)|].
  unfold imap_err. destruct (atomic_create pid p v None _) as [r w]. cbn [fst snd] in *.
  assert (∀ t', old_or_new pid p v None t (t !! p = None) t' →
    on_disk l t' ∨ (chain_ok (blocks (extended l b)) ∧ on_disk (extended l b) t')) as Hrec.
  { intros t' Ht'. destruct (on_disk_create l b bh v) with (t := t) (t' := t') (allowed := t !! p = None)
      as [[_ ?]|?]; auto. }
  destruct r as [[]|k]; cbn [rmap_err iret]; (split; [by eapply Forall_impl|]); [|done].
  intros h l' [= <- <-]. destruct HQ as [Hn Hrep]. split_and!; [done..|].
  destruct (on_disk_create l b bh v) with (t := t) (t' := fs w) (allowed := t !! p = None)
    as [[E _]|?]; try done; [by apply replaced_inv|].
  destruct Hrep as [E' _]. unfold p in E'. congruence.
Qed.

(** ** Integrity of the chain *)

Lemma check_chain_prefix h prev net ts xs ys :
  check_chain h prev net ts (xs ++ ys) = Ok tt → check_chain h prev net ts xs = Ok tt.
Proof.
  revert h prev net ts. induction xs as [|x xs IH]; intros h prev net ts; [done|].
  cbn [app]. rewrite !check_chain_cons. naive_solver.
Qed.

Lemma chain_linked bs pre b post :
  chain_ok bs → bs = pre ++ b :: post →
  linked (Z.of_nat (length pre)) (after None hash_of pre)
    (after None (λ b, Some (network_id (consensus b))) pre) (after None (λ b, Some (timestamp b)) pre) b.
Proof.
  intros Hc ->. unfold chain_ok in Hc. replace (pre ++ b :: post) with ((pre ++ [b]) ++ post) in Hc
    by (by rewrite <- (assoc_L (++))).
  apply check_chain_prefix, check_chain_snoc in Hc as [_ Hl]. done.
Qed.

(** Two blocks whose written forms are a SHA-256 collision. *)
Definition blocks_collide (a b : Block) : Prop :=
  ∃ u v, to_vec a = Some u ∧ to_vec b = Some v ∧ collision u v.

Lemma Block_hash_inj `{!JsonLaws Block} a b h :
  Block_hash a = Ok h → Block_hash b = Ok h → a = b ∨ blocks_collide a b.
Proof.
  unfold Block_hash. intros Ha Hb. destruct (to_vec a) as [u|] eqn:Eu; [|done].
  destruct (to_vec b) as [v|] eqn:Ev; [|done]. cbn in Ha, Hb. injection Ha as <-. injection Hb as Hh.
  destruct (decide (u = v)) as [->|Hne]; [left|right; exists u, v; by split_and!].
  apply json_roundtrip in Eu, Ev. congruence.
Qed.

Lemma chain_binding `{!JsonLaws Block} bs1 bs2 :
  chain_ok bs1 → chain_ok bs2 →
  after None hash_of bs1 = after None hash_of bs2 →
  bs1 = bs2 ∨ ∃ a b, a ∈ bs1 ∧ b ∈ bs2 ∧ blocks_collide a b.
Proof.
  revert bs2. induction bs1 as [|a bs1 IH] using rev_ind; intros bs2 Hc1 Hc2 E;
    destruct bs2 as [|b bs2 _] using rev_ind; [by left|..].
  - exfalso. unfold after in E. rewrite last_snoc in E. cbn in E. unfold hash_of in E.
    apply check_chain_snoc in Hc2 as [_ (_&_&_&_&_&_&bh&Hbh)]. by rewrite Hbh in E.
  - exfalso. unfold after in E. rewrite last_snoc in E. cbn in E. unfold hash_of in E.
    apply check_chain_snoc in Hc1 as [_ (_&_&_&_&_&_&bh&Hbh)]. by rewrite Hbh in E.
  - unfold after in E. rewrite !last_snoc in E. unfold hash_of in E.
    apply check_chain_snoc in Hc1 as [Hc1 (_&_&Hpa&_&_&_&ah&Hah)].
    apply check_chain_snoc in Hc2 as [Hc2 (_&_&Hpb&_&_&_&bh&Hbh)].
    rewrite Hah, Hbh in E. injection E as ->.
    destruct (Block_hash_inj a b bh Hah Hbh) as [->|Hx]; [|right; exists a, b; set_solver].
    destruct (IH bs2 Hc1 Hc2) as [->|(x&y&?&?&?)]; [congruence|by left|right; exists x, y; set_solver].
Qed.

(** ** Properties *)

(** C2: appending a block of the chain's own network is crash safe: from a
    ledger that is on disk and, unless it is empty, has the network of the block
    in its last one, whatever calls fail and wherever the process stops while the
    block is appended, reopening the directory yields either the ledger as it was
    or the ledger with the block; and when the append reports success the block
    had passed every check, the ledger in memory is the extended one, and
    reopening yields it.  (A block of another network is appended too, and the
    directory then does not open again: [mixed_networks_block_restart].) *)
Theorem ledger_append_crash_safe `{!JsonLaws Block} l b c t s fl :
  chain_ok (blocks l) → on_disk l t → same_network l b → Z.of_nat (length (blocks l)) < U64_MAX →
  let '(r, w) := Ledger_append l b c (mkWorld t s fl []) in
  let reopened t' := (Ledger_open (ledger_root l) (mkWorld t' 0 [] [])).1 in
  Forall (λ t', reopened t' = Ok l ∨ reopened t' = Ok (extended l b)) (history w) ∧
  ∀ h l', r = Ok (h, l') →
    check_append l b c = Ok tt ∧ Block_hash b = Ok h ∧ l' = extended l b ∧ reopened (fs w) = Ok l'.
Proof.
  intros Hc Hd Hnet Hlen. pose proof (Ledger_append_spec l b c t s fl Hc Hd Hnet Hlen) as Hspec.
  destruct (Ledger_append _ _ _ _) as [r w]. destruct Hspec as [Hh Hok].
  assert (Z.of_nat (length (blocks (extended l b))) ≤ U64_MAX) by (cbn; rewrite length_app; cbn; lia).
  split.
  - eapply Forall_impl; [exact Hh|]. intros t' [Ht'|[Hc' Ht']]; cbv beta.
    + left. apply (reopen l); [done|lia|done].
    + right. by apply (reopen (extended l b)).
  - intros h l' Hr. destruct (Hok h l' Hr) as (?&?&->&?&?). split_and!; [done..|].
    by apply (reopen (extended l b)).
Qed.

(** C32: a ledger opens only as a chain: every block has version 1, the height
    of its position, the hash of its predecessor, a root that matches its
    events, the network of its predecessor and a timestamp no earlier; and the
    hash of the last block binds the whole history: two ledgers that open and
    agree on it hold the same blocks, or a block of the one and a block of the
    other are different bytes with the same SHA-256 digest. *)
Theorem opened_ledger_is_chain `{!JsonLaws Block} root w l :
  (Ledger_open root w).1 = Ok l →
  (∀ pre b post, blocks l = pre ++ b :: post →
     linked (Z.of_nat (length pre)) (after None hash_of pre)
       (after None (λ b, Some (network_id (consensus b))) pre)
       (after None (λ b, Some (timestamp b)) pre) b) ∧
  (∀ root' w' l', (Ledger_open root' w').1 = Ok l' →
     after None hash_of (blocks l) = after None hash_of (blocks l') →
     blocks l = blocks l' ∨ ∃ a b, a ∈ blocks l ∧ b ∈ blocks l' ∧ blocks_collide a b).
Proof.
  assert (∀ root w l, (Ledger_open root w).1 = Ok l → chain_ok (blocks l)) as Hopen.
  { clear. intros root w l. unfold Ledger_open, ibind, imap_err, ilift, iret.
    destruct (create_dir_all root w) as [[] ?]; [|done]. cbn.
    destruct (read_dir root _) as [[] ?]; [|done]. cbn.
    destruct (itraverse _ _ _) as [[bs|] ?]; [|done].
    destruct (check_chain 0 None None None bs) as [[]|] eqn:E; [|done].
    by intros [= <-]. }
  intros Hl%Hopen. split; [intros pre b post; by apply chain_linked|].
  intros root' w' l' Hl'%Hopen. by apply chain_binding.
Qed.

End ledger.

(** ** The ledger with a quorum engine *)

Section quorum_ledger.
Context `{Sha256, Keys}.
Context `{Json LedgerEvent, Json SignedEvent, Json Block, Json Proposal}.

Definition set_events (es : list SignedEvent) (b : Block) : Block :=
  mkBlock (version b) (previous b) (height b) (timestamp b) (events_root b) es (consensus b).

Lemma event_hashes_app es1 es2 hs1 hs2 :
  event_hashes es1 = Ok hs1 → event_hashes es2 = Ok hs2 → event_hashes (es1 ++ es2) = Ok (hs1 ++ hs2).
Proof.
  unfold event_hashes. rewrite !collect_ok, !fmap_app. by intros -> ->.
Qed.

Lemma event_hashes_app_inv es1 es2 hs :
  event_hashes (es1 ++ es2) = Ok hs →
  ∃ hs1 hs2, hs = hs1 ++ hs2 ∧ event_hashes es1 = Ok hs1 ∧ event_hashes es2 = Ok hs2.
Proof.
  unfold event_hashes. rewrite collect_ok, fmap_app. intros E.
  symmetry in E. apply fmap_app_inv in E as (hs1&hs2&E1&E2&->).
  exists hs1, hs2. by rewrite !collect_ok.
Qed.

Lemma length_event_hashes es hs : event_hashes es = Ok hs → length hs = length es.
Proof.
  unfold event_hashes. rewrite collect_ok. intros E%(f_equal length). by rewrite !length_fmap in E.
Qed.

(** A block with the proposal and the events of [next_block] passes every check
    of [append] under an engine that verifies it. *)
Lemma next_block_appends {C} `{ConsensusEngine C} (c : C) l es ts net b0 b :
  next_block l es ts net = Ok b0 → Forall (λ e, SignedEvent_verify e = Ok true) es →
  (∀ x, last (blocks l) = Some x → timestamp x ≤ ts) →
  proposal b = proposal b0 → events b = events b0 → engine_verify c b = Ok true →
  check_append l b c = Ok tt.
Proof.
  intros Hb0 Hes Hts Hprop Hev Hver.
  unfold next_block in Hb0. apply rbind_ok in Hb0 as (prev&Hp&Hb0). apply rbind_ok in Hb0 as (hs&Hhs&Hb0).
  inv_ok. subst b0. unfold proposal in Hprop.
  cbn in Hprop, Hev. destruct b as [bv bp bht bts br bes bc]. cbn in Hprop, Hev. simplify_eq.
  unfold check_append. cbn [events version previous height timestamp events_root].
  assert (collect (SignedEvent_verify <$> es) = Ok (const true <$> es)) as ->.
  { apply collect_ok_map. by apply Forall_forall. }
  cbn [rbind]. rewrite Z.eqb_refl. cbn [negb]. rewrite Hp. cbn [rbind].
  rewrite bool_decide_eq_true_2 by done. rewrite Z.eqb_refl. cbn [negb orb].
  replace (match last (blocks l) with Some p => ts <? timestamp p | None => false end) with false; cycle 1.
  { destruct (last (blocks l)) as [x|]; [|done]. symmetry. apply Z.ltb_ge. auto. }
  rewrite Hhs. cbn [rbind]. rewrite bool_decide_eq_true_2 by done. cbn [negb].
  rewrite Hver. cbn [rbind negb orb].
  replace (forallb id (const true <$> es)) with true; [done|].
  symmetry. apply forallb_forall. intros x (e&->&_)%list_elem_of_In%list_elem_of_fmap. done.
Qed.

(** A proposed block goes through: the block [next_block] makes from events
    that verify, at a time no earlier than the last block's, passes every check
    of [append] once the quorum engine has finalised it. *)
Theorem proposed_block_appends (c : QuorumConsensus) l es ts net b0 approvals b :
  next_block l es ts net = Ok b0 → Forall (λ e, SignedEvent_verify e = Ok true) es →
  (∀ x, last (blocks l) = Some x → timestamp x ≤ ts) →
  Forall identity_wf approvals → finalize c b0 approvals = (Ok tt, b) →
  check_append l b c = Ok tt.
Proof.
  intros Hb0 Hes Hts Hwf Hfin. destruct (Quorum_finalize_ok _ _ _ _ Hwf Hfin) as (Hprop&Hev&Hver&_).
  by eapply next_block_appends.
Qed.

(** The signed proposal does not determine the events of a block: when a
    block with an odd number of at least three events is accepted, so is the
    block that repeats its last event, under the very same signatures. *)
Theorem repeated_event_accepted (c : QuorumConsensus) l b es e :
  events b = es ++ [e] → Nat.even (length es) = true → es ≠ [] →
  check_append l b c = Ok tt →
  let b' := set_events (es ++ [e; e]) b in
  check_append l b' c = Ok tt ∧ proposal b' = proposal b ∧ consensus b' = consensus b ∧
  events b' ≠ events b.
Proof.
  intros Hev Heven Hne Hc b'. split_and!; [|done|done|]; cycle 1.
  { rewrite Hev. intros E%(f_equal length). cbn in E. rewrite !length_app in E. cbn in E. lia. }
  unfold check_append in *. cbn [b' set_events events version previous height timestamp events_root].
  rewrite Hev in Hc. apply rbind_ok in Hc as (vs&Hv&Hc).
  rewrite collect_ok, fmap_app in Hv. symmetry in Hv. apply fmap_app_inv in Hv as (v1&v2&E1&E2&->).
  destruct v2 as [|v [|]]; [done| |done]. injection E2 as E2.
  assert (collect (SignedEvent_verify <$> es ++ [e; e]) = Ok (v1 ++ [v; v])) as ->.
  { rewrite collect_ok, !fmap_app. cbn. by rewrite <- E1, E2. }
  cbn [rbind]. case_match; [done|]. apply rbind_ok in Hc as (prev&->&Hc). cbn [rbind].
  case_match; [done|]. apply rbind_ok in Hc as (hs&Hhs&Hc).
  destruct (event_hashes_app_inv _ _ _ Hhs) as (h1&h2&->&H1'&H2').
  pose proof (length_event_hashes _ _ H2') as Hl2. destruct h2 as [|h [|]]; [done| |done].
  assert (event_hashes [e; e] = Ok [h; h]) as Hee.
  { unfold event_hashes in *. rewrite collect_ok in *. cbn in *. congruence. }
  rewrite (event_hashes_app _ _ _ _ H1' Hee). cbn [rbind].
  rewrite merkle_root_repeat; cycle 1.
  { by rewrite (length_event_hashes _ _ H1'). }
  { intros ->. apply length_event_hashes in H1'. by destruct es. }
  case_match; [done|]. apply rbind_ok in Hc as (ok&Hok&Hc).
  change (engine_verify c b') with (engine_verify c b). rewrite Hok. cbn [rbind].
  rewrite !forallb_app in *. cbn [forallb] in *. by destruct ok, (forallb id v1), v.
Qed.

End quorum_ledger.

(** ** Witnesses *)

Module Samples.
Import Toy Consensus.Samples.

#[export] Instance sample_event_json : Json LedgerEvent := countable_json.
#[export] Instance sample_signed_event_json : Json SignedEvent := countable_json.
#[export] Instance sample_block_json : Json Block := countable_json.
#[export] Instance sample_block_json_laws : JsonLaws Block := countable_json_laws.

Definition sample_quorum : QuorumConsensus := mkQuorumConsensus "net" (member_ids [x01; x02; x03]) 2.
Definition sample_ledger : Ledger := mkLedger ["ledger"] [].
Definition sample_tree : tree := {[["ledger"] := Dir None]}.

Definition sealed (e : LedgerEvent) : SignedEvent :=
  match SignedEvent_seal e (member x01) with Ok s => s | Err _ => mkSignedEvent e [] [] [] end.
Definition sample_events : list SignedEvent :=
  [sealed (TaskCreated "a"); sealed (TaskCreated "b"); sealed (NodeJoined [x05])].
Definition empty_block : Block := mkBlock 0 None 0 0 [] [] (mkConsensusProof "" []).
Definition proposed_block : Block :=
  match next_block sample_ledger sample_events 10 "net" with Ok b => b | Err _ => empty_block end.
Definition final_block : Block := (finalize sample_quorum proposed_block (member <$> [x01; x02])).2.

Lemma sample_on_disk : on_disk sample_ledger sample_tree.
Proof.
  split_and!.
  - exists None. reflexivity.
  - intros b Hb. cbn in Hb. by apply not_elem_of_nil in Hb.
  - intros name [n Hn]. cbn in Hn. unfold sample_tree in Hn.
    rewrite lookup_singleton_ne in Hn; [done|]. intros E. apply (f_equal length) in E. done.
Qed.

Lemma ledger_append_crash_safe_witness :
  let '(r, w) := Ledger_append 7 sample_ledger final_block sample_quorum
                   (mkWorld sample_tree 0 [None; None; Some (mkFault OtherKind 3)] []) in
  let reopened t' := (Ledger_open ["ledger"] (mkWorld t' 0 [] [])).1 in
  Forall (λ t', reopened t' = Ok sample_ledger ∨ reopened t' = Ok (extended sample_ledger final_block))
    (history w) ∧
  ∀ h l', r = Ok (h, l') →
    check_append sample_ledger final_block sample_quorum = Ok tt ∧ Block_hash final_block = Ok h ∧
    l' = extended sample_ledger final_block ∧ reopened (fs w) = Ok l'.
Proof.
  apply (ledger_append_crash_safe 7 sample_ledger final_block sample_quorum sample_tree 0
           [None; None; Some (mkFault OtherKind 3)]).
  - reflexivity.
  - exact sample_on_disk.
  - intros x Hx. discriminate Hx.
  - reflexivity.
Defined.

(** The tree after the block has been appended without faults. *)
Definition appended_tree : tree :=
  fs (Ledger_append 7 sample_ledger final_block sample_quorum (mkWorld sample_tree 0 [] [])).2.

Lemma opened_ledger_is_chain_witness : linked 0 None None None final_block.
Proof.
  destruct (opened_ledger_is_chain ["ledger"] (mkWorld appended_tree 0 [] [])
              (extended sample_ledger final_block)) as [Hl _].
  - vm_compute. reflexivity.
  - exact (Hl [] final_block [] eq_refl).
Defined.

Lemma proposed_block_appends_witness : check_append sample_ledger final_block sample_quorum = Ok tt.
Proof.
  apply (proposed_block_appends sample_quorum sample_ledger sample_events 10 "net" proposed_block
           (member <$> [x01; x02]) final_block).
  - vm_compute. reflexivity.
  - apply (bool_decide_unpack _). vm_compute. exact I.
  - intros x Hx. discriminate Hx.
  - repeat constructor.
  - vm_compute. reflexivity.
Defined.

Lemma repeated_event_accepted_witness :
  let b' := set_events (sample_events ++ [sealed (NodeJoined [x05])]) final_block in
  check_append sample_ledger b' sample_quorum = Ok tt ∧ proposal b' = proposal final_block ∧
  consensus b' = consensus final_block ∧ events b' ≠ events final_block.
Proof.
  apply (repeated_event_accepted sample_quorum sample_ledger final_block (take 2 sample_events)
           (sealed (NodeJoined [x05]))).
  - vm_compute. reflexivity.
  - reflexivity.
  - discriminate.
  - vm_compute. reflexivity.
Defined.

End Samples.
