(* ===== verification/Finality.v ===== *)
(** Progress of the Byzantine engine: when finalisation succeeds, and that the
    block it leaves is accepted by every replica of the chain
    (crates/peerless-ledger/src/lib.rs, [BftConsensus] and [Ledger]). *)

From S2P Require Import Prelude External Core Protocol FileSystem Storage Merkle Consensus Ledger.
From Stdlib Require Import Strings.Byte.
#[local] Open Scope Z_scope.
#[local] Open Scope result_scope.

Section finality.
Context `{Sha256, Keys}.
Context `{Json LedgerEvent, Json SignedEvent, Json Block, Json Proposal}.
(** Proposals can be written and signed. *)
Context (Hwrite : ∀ p : Proposal, is_Some (to_vec p)) (Hsign : ∀ kp m, is_Some (keypair_sign kp m)).

(** The members among the approving identities. *)
Definition approving (ms : gset NodeId) (approvals : list NodeIdentity) : gset NodeId :=
  list_to_set (node_id <$> approvals) ∩ ms.

Lemma collect_signatures_total ms payload seen acc approvals :
  (collect_signatures ms payload seen acc approvals).1 = Ok tt.
Proof.
  revert seen acc. induction approvals as [|i rest IH]; intros seen acc; cbn [collect_signatures]; [done|].
  case_match; [|apply IH]. destruct (Hsign (keypair i) payload) as [s Hs].
  unfold identity_error, identity_sign. rewrite Hs. cbn. apply IH.
Qed.

(** The outcome of a quorum depends on the number of approving members alone. *)
Lemma Quorum_finalize_exact c b approvals :
  (Quorum_finalize c b approvals).1 =
    if Z.of_nat (size (approving (members c) approvals)) <? quorum c then Err NoQuorum else Ok tt.
Proof.
  unfold Quorum_finalize, proposal_bytes. rewrite proposal_set_consensus.
  destruct (Hwrite (proposal b)) as [payload ->]. cbn [ok_or].
  pose proof (collect_signatures_total (members c) payload ∅ [] approvals) as Ht.
  destruct (collect_signatures _ _ _ _ _) as [r sigs] eqn:Hc. cbn [fst] in Ht. subst r.
  destruct (collect_signatures_ok _ _ _ _ _ _ Hc) as (new&->&Hnd&Hn&_). cbn [app] in *.
  replace (size (approving (members c) approvals)) with (length new); [by destruct (_ <? _)|].
  rewrite <-(length_fmap cs_signer), <-(size_list_to_set (C := gset NodeId)) by done.
  f_equal. apply set_eq. intros n. unfold approving.
  rewrite elem_of_list_to_set, Hn, elem_of_intersection, elem_of_list_to_set. set_solver.
Qed.

(** With at most [f] of [3f + 1] or more members silent a quorum is left. *)
Lemma approving_quorum (ms silent : gset NodeId) approvals f :
  3 * f + 1 ≤ Z.of_nat (size ms) → Z.of_nat (size silent) ≤ f →
  (∀ n, n ∈ ms → n ∉ silent → n ∈ node_id <$> approvals) →
  2 * f + 1 ≤ Z.of_nat (size (approving ms approvals)).
Proof.
  intros Hms Hsil Hall.
  assert (size (ms ∖ silent) ≤ size (approving ms approvals))%nat.
  { apply subseteq_size. intros n [Hin Hout]%elem_of_difference. unfold approving.
    apply elem_of_intersection. split; [|done]. apply elem_of_list_to_set. auto. }
  assert (size ms ≤ size (ms ∖ silent) + size silent)%nat.
  { rewrite <-size_union by set_solver. apply subseteq_size. intros n Hn.
    destruct (decide (n ∈ silent)); set_solver. }
  lia.
Qed.

(** A proposed block that all but at most [f] members approve, the leader
    included, is finalised and accepted. *)
Lemma proposal_finalised (net : string) (ms : gset NodeId) (f : Z) (c : BftConsensus) (l : Ledger)
    (es : list SignedEvent) (ts : Z) (b0 : Block) (approvals : list NodeIdentity)
    (silent : gset NodeId) :
  BftConsensus_new net ms f = Ok c → 0 ≤ f → Z.of_nat (size ms) < U64_MAX →
  next_block l es ts net = Ok b0 → Forall (λ e, SignedEvent_verify e = Ok true) es →
  (∀ x, last (blocks l) = Some x → timestamp x ≤ ts) →
  Forall identity_wf approvals → Z.of_nat (size silent) ≤ f →
  (∀ n, n ∈ ms → n ∉ silent → n ∈ node_id <$> approvals) →
  leader c (height b0) ∉ silent → ∃ b, finalize c b0 approvals = (Ok tt, b) ∧
    proposal b = proposal b0 ∧ events b = es ∧
    ∀ root, check_append (mkLedger root (blocks l)) b c = Ok tt.
Proof.
  intros Hnew Hf Hu Hb0 Hes Hts Hwf Hsil Hall Hl.
  destruct (Bft_new_wf _ _ _ _ Hnew Hf Hu) as (_&Hm&Hq&Hsz&Hleader).
  assert (height b0 = Z.of_nat (length (blocks l)) ∧ events b0 = es) as [Hh He].
  { unfold next_block in Hb0. apply rbind_ok in Hb0 as (prev&_&Hb0). apply rbind_ok in Hb0 as (hs&_&Hb0).
    by inv_ok; subst b0. }
  assert (0 ≤ height b0) as Hpos by lia.
  pose proof (Quorum_finalize_exact (inner c) b0 approvals) as Hout.
  pose proof (approving_quorum ms silent approvals f Hsz Hsil Hall) as Hquorum.
  rewrite Hm, Hq, (proj2 (Z.ltb_ge _ _)) in Hout by lia.
  assert (finalize c b0 approvals = (Ok tt, (Quorum_finalize (inner c) b0 approvals).2)) as Hfin.
  { cbn [finalize bft_engine]. unfold Bft_finalize.
    assert (leader c (height b0) ∈ node_id <$> approvals) as (i&Hi&Hin)%list_elem_of_fmap
      by (apply Hall; [apply Hleader; lia|done]).
    replace (existsb _ _) with true; [cbn [negb]; by rewrite <-Hout; destruct (Quorum_finalize _ _ _)|].
    symmetry. apply existsb_exists. exists i. split; [by apply list_elem_of_In|].
    by apply bool_decide_eq_true. }
  exists (Quorum_finalize (inner c) b0 approvals).2. split; [done|].
  destruct (finalized_blocks_verify _ _ _ _ _ _ _ Hnew Hf Hu Hpos Hwf Hfin) as (Hp&Hev&Hv&_).
  split; [done|]. split; [congruence|]. intros root.
  by apply (next_block_appends c (mkLedger root (blocks l)) es ts net b0).
Qed.

(** C5: the Byzantine engine makes progress and its blocks are accepted: take
    the block a ledger proposes from events that verify, at a time no earlier
    than the last block's.  If at most [f] members are silent and the leader of
    the height is not one of them, finalising the block with the approvals of
    the others succeeds, keeps what was proposed, and every ledger that holds
    the same chain, wherever it is stored, accepts the block; without the
    leader's approval, however many members approve, finalising fails and
    leaves the block as it was. *)
Theorem bft_progress (net : string) (ms : gset NodeId) (f : Z) (c : BftConsensus) (l : Ledger)
    (es : list SignedEvent) (ts : Z) (b0 : Block) (approvals : list NodeIdentity)
    (silent : gset NodeId) :
  BftConsensus_new net ms f = Ok c → 0 ≤ f → Z.of_nat (size ms) < U64_MAX →
  next_block l es ts net = Ok b0 → Forall (λ e, SignedEvent_verify e = Ok true) es →
  (∀ x, last (blocks l) = Some x → timestamp x ≤ ts) →
  Forall identity_wf approvals → Z.of_nat (size silent) ≤ f →
  (∀ n, n ∈ ms → n ∉ silent → n ∈ node_id <$> approvals) →
  (leader c (height b0) ∉ silent → ∃ b, finalize c b0 approvals = (Ok tt, b) ∧
     proposal b = proposal b0 ∧ events b = es ∧
     ∀ root, check_append (mkLedger root (blocks l)) b c = Ok tt) ∧
  (∀ others, leader c (height b0) ∉ node_id <$> others → finalize c b0 others = (Err WrongLeader, b0)).
Proof.
  intros. split; [intros; by eapply proposal_finalised|].
  intros others Hno. cbn [finalize bft_engine]. unfold Bft_finalize.
  replace (existsb _ _) with false; [done|]. symmetry. apply not_true_is_false. intros Hx.
  apply existsb_exists in Hx as (i&Hi&Hx%bool_decide_eq_true). apply Hno. rewrite <-Hx.
  apply list_elem_of_fmap_2. by apply list_elem_of_In.
Qed.

(** ** The feature demonstration *)

(** The leader, then the first two others ([bft_ledger_gossip] in
    crates/peerless-cli/src/e2e.rs). *)
Definition e2e_approvals (c : BftConsensus) (identities : list NodeIdentity) : list NodeIdentity :=
  filter (λ i, node_id i = leader c 0) identities ++
  take 2 (filter (λ i, node_id i ≠ leader c 0) identities).

(** The block the demonstration finalises; [None] is the panic of an index out
    of range. *)
Definition e2e_block (identities : list NodeIdentity) (l : Ledger) (now : Z) :
    option (result (BftConsensus * Block) LedgerError) :=
  first ← identities !! 0%nat;
  Some (
    let? c := BftConsensus_new "e2e-bft" (list_to_set (node_id <$> identities)) 1 in
    let? ev := SignedEvent_seal (TaskCreated "bft-e2e") first in
    let? b := next_block l [ev] now "e2e-bft" in
    let '(r, b) := finalize c b (e2e_approvals c identities) in
    let? _ := r in Ok (c, b)).

Lemma sealed_event_verifies e i s :
  identity_wf i → SignedEvent_seal e i = Ok s → SignedEvent_verify s = Ok true.
Proof.
  intros Hwf Hs. unfold SignedEvent_seal in Hs. apply rbind_ok in Hs as (payload&Hp&Hs).
  apply rbind_ok in Hs as (sg&Hg&Hs). inv_ok. subst s. unfold SignedEvent_verify.
  cbn [ev_public_key ev_signer event ev_signature].
  rewrite bool_decide_eq_true_2 by (symmetry; by apply identity_node_id).
  destruct (to_vec e) as [v|]; [|done]. cbn [ok_or rbind] in *. injection Hp as ->.
  apply rmap_err_ok in Hg. unfold identity_error.
  by rewrite (proj2 (verify_true _ _ _) (sign_signed_by _ _ _ Hwf Hg)).
Qed.

(** The approvals of the demonstration leave out one member that does not lead. *)
Lemma e2e_approvals_all c identities :
  NoDup (node_id <$> identities) → length identities = 4%nat → leader c 0 ∈ node_id <$> identities →
  ∃ n, n ≠ leader c 0 ∧
    ∀ m, m ∈ node_id <$> identities → m ∉ ({[n]} : gset NodeId) → m ∈ node_id <$> e2e_approvals c identities.
Proof.
  intros Hnd Hlen Hin. destruct identities as [|i0 [|i1 [|i2 [|i3 [|]]]]]; try done. cbn in Hnd, Hin.
  rewrite !NoDup_cons in Hnd. destruct Hnd as (H0'&H1'&H2'&_).
  assert (node_id i0 ≠ node_id i1 ∧ node_id i0 ≠ node_id i2 ∧ node_id i0 ≠ node_id i3 ∧ node_id i1 ≠ node_id i2 ∧
    node_id i1 ≠ node_id i3 ∧ node_id i2 ≠ node_id i3) as (?&?&?&?&?&?).
  { set_unfold in H0'. set_unfold in H1'. set_unfold in H2'. tauto. }
  exists (if decide (leader c 0 = node_id i3) then node_id i2 else node_id i3). unfold e2e_approvals.
  set_unfold in Hin. destruct Hin as [E|[E|[E|[E|[]]]]]; rewrite E.
  all: repeat first [rewrite filter_cons_True by congruence | rewrite filter_cons_False by intuition congruence].
  all: rewrite ?decide_True, ?decide_False by congruence; cbn; split; [congruence|].
  all: intros m; rewrite !elem_of_cons, elem_of_nil, not_elem_of_singleton; tauto.
Qed.

(** The demonstration succeeds with any four different identities: its block is
    finalised, and every ledger without blocks accepts it. *)
Theorem e2e_block_accepted (Hev : ∀ e : LedgerEvent, is_Some (to_vec e)) (Hse : ∀ e : SignedEvent, is_Some (to_vec e))
    identities root now :
  NoDup (node_id <$> identities) → length identities = 4%nat → Forall identity_wf identities →
  ∃ c b, e2e_block identities (mkLedger root []) now = Some (Ok (c, b)) ∧
    ∀ root', check_append (mkLedger root' []) b c = Ok tt.
Proof.
  intros Hnd Hlen Hwf. unfold e2e_block.
  destruct (identities !! 0%nat) as [i|] eqn:Hi; [|apply lookup_ge_None in Hi; lia]. cbn [mbind option_bind].
  set (ms := list_to_set (node_id <$> identities) : gset NodeId).
  assert (size ms = 4%nat) as Hsize by (unfold ms; rewrite size_list_to_set, length_fmap; done).
  destruct (BftConsensus_new "e2e-bft" ms 1) as [c|] eqn:Hnew.
  2: { unfold BftConsensus_new, QuorumConsensus_new in Hnew. by rewrite Hsize in Hnew. }
  destruct (Bft_new_wf _ _ _ _ Hnew) as (_&_&_&_&Hleader); [lia|rewrite Hsize; done|]. cbn [rbind].
  destruct (SignedEvent_seal (TaskCreated "bft-e2e") i) as [ev|] eqn:Hseal.
  2: { unfold SignedEvent_seal, identity_error, identity_sign in Hseal. destruct (Hev (TaskCreated "bft-e2e")) as [v E].
       rewrite E in Hseal. cbn in Hseal. destruct (Hsign (keypair i) v) as [s E2]. by rewrite E2 in Hseal. }
  cbn [rbind]. destruct (next_block _ _ _ _) as [b0|] eqn:Hb0.
  2: { unfold next_block, event_hashes, SignedEvent_hash in Hb0. destruct (Hse ev) as [v E]. cbn in Hb0. by rewrite E in Hb0. }
  assert (height b0 = 0) as Hh by (unfold next_block in Hb0; apply rbind_ok in Hb0 as (?&_&Hb0);
    apply rbind_ok in Hb0 as (?&_&Hb0); by inv_ok; subst b0).
  destruct (e2e_approvals_all c identities Hnd Hlen) as (n&Hn&Hall).
  { specialize (Hleader 0 ltac:(lia)). unfold ms in Hleader. by apply elem_of_list_to_set in Hleader. }
  destruct (proposal_finalised "e2e-bft" ms 1 c (mkLedger root []) [ev] now b0 (e2e_approvals c identities) {[n]})
    as (b&Hfin&_&_&Hc); try done.
  - by rewrite Hsize.
  - constructor; [|constructor]. eapply sealed_event_verifies; [|done].
    rewrite Forall_forall in Hwf. apply Hwf. by eapply list_elem_of_lookup_2.
  - apply Forall_forall. rewrite Forall_forall in Hwf. intros x Hx. apply Hwf. unfold e2e_approvals in Hx.
    apply elem_of_app in Hx as [[_ Hx]%list_elem_of_filter|Hx]; [done|].
    apply elem_of_take in Hx as (k&Hk&_). apply list_elem_of_lookup_2 in Hk. by apply list_elem_of_filter in Hk as [_ ?].
  - by rewrite size_singleton.
  - intros m Hm. apply Hall. unfold ms in Hm. by apply elem_of_list_to_set in Hm.
  - rewrite Hh. set_solver.
  - cbn [rbind]. rewrite Hfin. cbn [rbind]. by exists c, b.
Qed.

End finality.

(** ** Samples *)

Module Samples.
Import Toy Consensus.Samples Ledger.Samples.

(** Four members of which one that does not lead is silent. *)
Lemma bft_progress_witness :
  ∃ b, finalize (engine four) proposed_block (member <$> [x01; x02; x03]) = (Ok tt, b) ∧
    ∀ root, check_append (mkLedger root []) b (engine four) = Ok tt.
Proof.
  destruct (bft_progress ltac:(intros p; eexists; reflexivity) ltac:(intros kp m; eexists; reflexivity)
    "net" (member_ids [x01; x02; x03; x04]) 1 (engine four) sample_ledger sample_events 10 proposed_block
    (member <$> [x01; x02; x03]) {[node_id (member x04)]}) as [Hok _].
  - vm_compute. reflexivity.
  - lia.
  - vm_compute. reflexivity.
  - vm_compute. reflexivity.
  - apply (bool_decide_unpack _). vm_compute. exact I.
  - intros x Hx. discriminate Hx.
  - repeat constructor.
  - vm_compute. discriminate.
  - assert (set_Forall (λ n, n ∉ ({[node_id (member x04)]} : gset NodeId) → n ∈ node_id <$> (member <$> [x01; x02; x03]))
      (member_ids [x01; x02; x03; x04])) as Hall by (apply (bool_decide_unpack _); vm_compute; exact I).
    intros n Hn. exact (Hall n Hn).
  - destruct Hok as (b&Hb&_&_&Hc); [apply (bool_decide_unpack _); vm_compute; exact I|].
    exists b. split; [exact Hb|]. exact Hc.
Defined.

End Samples.
