(* ===== verification/Compute.v ===== *)
(** Output verification, task eligibility and placement
    (crates/peerless-compute/src/lib.rs) and the byte-buffer execution ABI
    (crates/peerless-compute/src/wasm.rs). *)

From S2P Require Import Prelude External Core.
From Stdlib Require Import Strings.Byte.
From Stdlib Require Import Floats.SpecFloat.

(** ** Output verification *)

Inductive VerificationError := InsufficientExecutions | NoAgreement.

#[export] Instance VerificationError_eq_dec : EqDecision VerificationError.
Proof. solve_decision. Defined.

(** [*counts.entry(output).or_insert(0) += 1] over a prefix of the outputs. *)
Definition count_output (m : gmap ContentId nat) (o : ContentId) : gmap ContentId nat :=
  <[o := S (default 0%nat (m !! o))]> m.
Definition count_outputs (outputs : list ContentId) : gmap ContentId nat :=
  foldl count_output ∅ outputs.

(** [Iterator::max_by_key]: the last of the maximal entries. *)
Definition max_by_count (entries : list (ContentId * nat)) : option (ContentId * nat) :=
  foldl (λ acc e, match acc with
                  | None => Some e
                  | Some a => if (e.2 <? a.2)%nat then Some a else Some e
                  end) None entries.

Section verification.
(** The iteration order of a [HashMap], which is unspecified. *)
Context (hash_order : list (ContentId * nat) → list (ContentId * nat)).

Definition verify_outputs (policy : VerificationPolicy) (outputs : list ContentId) :
    result ContentId VerificationError :=
  match policy with
  | TrustExecutor => ok_or (head outputs) InsufficientExecutions
  | Replicate required =>
      if (required =? 0) || (Z.of_nat (length outputs) <? required) then Err InsufficientExecutions
      else
        match outputs with
        | [] => Err InsufficientExecutions
        | first :: _ =>
            if forallb (λ o, bool_decide (o = first)) (take (Z.to_nat required) outputs)
            then Ok first else Err NoAgreement
        end
  | Quorum executions required_matches =>
      if (executions =? 0) || (required_matches =? 0) || (executions <? required_matches)
         || (Z.of_nat (length outputs) <? executions)
      then Err InsufficientExecutions
      else
        let counts := count_outputs (take (Z.to_nat executions) outputs) in
        match max_by_count (filter (λ e, required_matches ≤ Z.of_nat e.2)
                              (hash_order (map_to_list counts))) with
        | Some (o, _) => Ok o
        | None => Err NoAgreement
        end
  end.

End verification.

(** ** Memory limits *)

Definition DEFAULT_TASK_MEMORY_LIMIT : Z := 64 * 1024 * 1024.
Definition MAX_TASK_MEMORY_LIMIT : Z := 512 * 1024 * 1024.

Definition task_memory_limit (task : Task) : option Z :=
  let limit := Z.max (minimum_memory (requirements task)) DEFAULT_TASK_MEMORY_LIMIT in
  if limit <=? MAX_TASK_MEMORY_LIMIT then Some limit else None.

(** ** Binary64 *)

Definition f64 : Type := spec_float.
Definition fadd : f64 → f64 → f64 := SFadd 53 1024.
Definition fsub : f64 → f64 → f64 := SFsub 53 1024.
Definition fmul : f64 → f64 → f64 := SFmul 53 1024.
Definition fdiv : f64 → f64 → f64 := SFdiv 53 1024.
(** [n as f64], and the literal [a / b] rounded to nearest. *)
Definition f_of_Z (z : Z) : f64 := binary_normalize 53 1024 z 0 false.
Definition f_lit (a b : Z) : f64 := fdiv (f_of_Z a) (f_of_Z b).

Definition flt (a b : f64) : bool := match SFcompare a b with Some Lt => true | _ => false end.
Definition fle (a b : f64) : bool :=
  match SFcompare a b with Some Lt | Some Eq => true | _ => false end.
Definition is_finite (a : f64) : bool :=
  match a with S754_zero _ | S754_finite _ _ _ => true | _ => false end.

Definition fzero : f64 := S754_zero false.
Definition fone : f64 := f_of_Z 1.

(** [value.clamp(0.0, 1.0)]; NaN stays NaN. *)
Definition unit_ (v : f64) : f64 := if flt v fzero then fzero else if flt fone v then fone else v.

(** [f64::max], which ignores a NaN. *)
Definition fmax (a b : f64) : f64 :=
  match a, b with
  | S754_nan, _ => b
  | _, S754_nan => a
  | _, _ => if flt a b then b else a
  end.

(** ** Comparisons *)

Definition then_with (c d : comparison) : comparison := match c with Eq => d | _ => c end.

(** A three-way comparison that comes from a total preorder. *)
Class LawfulCmp {A} (cmp : A → A → comparison) : Prop := {
  cmp_opp x y : cmp y x = CompOpp (cmp x y);
  cmp_trans x y z : cmp x y ≠ Gt → cmp y z ≠ Gt → cmp x z ≠ Gt;
}.

(** [Iterator::max_by] returns the last maximal element, [min_by] the first
    minimal one. *)
Definition max_by {A} (cmp : A → A → comparison) (l : list A) : option A :=
  match l with
  | [] => None
  | x :: l => Some (foldl (λ acc y, match cmp acc y with Gt => acc | _ => y end) x l)
  end.
Definition min_by {A} (cmp : A → A → comparison) (l : list A) : option A :=
  match l with
  | [] => None
  | x :: l => Some (foldl (λ acc y, match cmp acc y with Gt => y | _ => acc end) x l)
  end.

Definition bytes_cmp (a b : bytes) : comparison :=
  if bool_decide (a = b) then Eq else if bytes_leb a b then Lt else Gt.

(** [f64::total_cmp], as the lexicographic order of class, exponent and
    mantissa; where a NaN goes depends on its sign bit. *)
Definition total_key (nan_class : Z) (a : f64) : Z * Z * Z :=
  match a with
  | S754_nan => (nan_class, 0, 0)
  | S754_infinity true => (0, 0, 0)
  | S754_finite true m e => (1, - e, Z.neg m)
  | S754_zero true => (2, 0, 0)
  | S754_zero false => (3, 0, 0)
  | S754_finite false m e => (4, e, Z.pos m)
  | S754_infinity false => (5, 0, 0)
  end.
Definition total_cmp (nan_class : Z) (a b : f64) : comparison :=
  let '(a1, a2, a3) := total_key nan_class a in
  let '(b1, b2, b3) := total_key nan_class b in
  then_with (a1 ?= b1) (then_with (a2 ?= b2) (a3 ?= b3)).

(** ** Placement *)

Record PlacementWeights := mkPlacementWeights {
  w_cpu : f64; w_memory : f64; w_latency : f64; w_power : f64; w_locality : f64; w_load : f64;
  w_network : f64; w_history : f64; w_trust : f64; w_replication : f64; w_congestion : f64;
}.

Definition PlacementWeights_default : PlacementWeights :=
  mkPlacementWeights (f_lit 25 100) (f_lit 15 100) (f_lit 15 100) (f_lit 10 100) (f_lit 20 100)
    (f_lit 10 100) (f_lit 5 100) (f_lit 10 100) (f_lit 15 100) (f_lit 10 100) (f_lit 10 100).

Record PlacementObservation := mkPlacementObservation {
  inverse_latency : f64; locality : f64; transfer_cost : f64; historical_success : f64;
  trust : f64; replication_availability : f64; congestion : f64;
}.

Record PlacementCandidate := mkPlacementCandidate {
  capability : NodeCapability;
  observation : PlacementObservation;
}.

Record PlacementScore := mkPlacementScore { ps_node : NodeId; ps_score : f64 }.

Inductive PlacementError := NoEligibleNode.

Definition eligible (task : Task) (node : NodeCapability) (now : Z) : bool :=
  is_fresh_at node now
  && is_finite (available_cpu node)
  && flt fzero (available_cpu node)
  && fle (available_cpu node) fone
  && is_finite (load node)
  && (fle fzero (load node) && fle (load node) fone)
  && match task_memory_limit task with
     | Some limit => limit <=? available_memory node
     | None => false
     end
  && (minimum_storage (requirements task) <=? available_storage node)
  && supports node (runtime (requirements task))
  && (0 <? task_slots node)
  && match deadline task with None => true | Some d => now <? d end.

Section scheduler.
(** [f64::log2] of the platform, and the class of a NaN in [total_cmp]: below
    every number (-1) or above (6). *)
Context (log2 : f64 → f64) (nan_class : Z) (weights : PlacementWeights).

Definition normalize_bytes (value : Z) : f64 :=
  unit_ (fdiv (log2 (fadd (f_of_Z value) fone)) (f_of_Z 48)).

Definition score (c : PlacementCandidate) : f64 :=
  let cap := capability c in
  let obs := observation c in
  let power := match power cap with
               | Ac => fone
               | Battery => f_lit 4 10
               | Unknown => f_lit 6 10
               end in
  let memory := normalize_bytes (available_memory cap) in
  let raw := fmul (w_cpu weights) (unit_ (available_cpu cap)) in
  let raw := fadd raw (fmul (w_memory weights) memory) in
  let raw := fadd raw (fmul (w_latency weights) (unit_ (inverse_latency obs))) in
  let raw := fadd raw (fmul (w_power weights) power) in
  let raw := fadd raw (fmul (w_locality weights) (unit_ (locality obs))) in
  let raw := fsub raw (fmul (w_load weights) (unit_ (load cap))) in
  let raw := fsub raw (fmul (w_network weights) (unit_ (transfer_cost obs))) in
  let raw := fadd raw (fmul (w_history weights) (unit_ (historical_success obs))) in
  let raw := fadd raw (fmul (w_trust weights) (unit_ (trust obs))) in
  let raw := fadd raw (fmul (w_replication weights) (unit_ (replication_availability obs))) in
  let raw := fsub raw (fmul (w_congestion weights) (unit_ (congestion obs))) in
  unit_ raw.

Definition placement (c : PlacementCandidate) : PlacementScore :=
  mkPlacementScore (cap_node (capability c)) (score c).

Definition place_cmp (l r : PlacementScore) : comparison :=
  then_with (total_cmp nan_class (ps_score l) (ps_score r)) (bytes_cmp (ps_node r) (ps_node l)).

Definition place (task : Task) (candidates : list PlacementCandidate) (now : Z) :
    result PlacementScore PlacementError :=
  ok_or (max_by place_cmp
           (placement <$> filter (λ c, eligible task (capability c) now = true) candidates))
    NoEligibleNode.

Definition capacity (cap : NodeCapability) : f64 :=
  fmax (fmul (fmul (f_of_Z (cpu_cores cap)) (unit_ (available_cpu cap)))
          (fsub fone (unit_ (load cap)))) (f_lit 5 100).

Definition pressure (assignments : gmap NodeId Z) (cap : NodeCapability) : f64 :=
  fdiv (f_of_Z (default 0 (assignments !! cap_node cap))) (capacity cap).

Definition balance_cmp (l r : PlacementScore * f64) : comparison :=
  then_with (total_cmp nan_class l.2 r.2)
    (then_with (total_cmp nan_class (ps_score r.1) (ps_score l.1))
       (bytes_cmp (ps_node l.1) (ps_node r.1))).

Definition place_balanced_with_local_fallback (task : Task) (candidates : list PlacementCandidate)
    (local : NodeId) (assignments : gmap NodeId Z) (now : Z) :
    result PlacementScore PlacementError :=
  let remote := filter (λ c, cap_node (capability c) ≠ local ∧ eligible task (capability c) now = true)
                  candidates in
  if bool_decide (remote = []) then place task candidates now
  else
    let? best := ok_or (min_by balance_cmp
      ((λ c, (placement c, pressure assignments (capability c))) <$> remote)) NoEligibleNode in
    Ok best.1.

Definition place_with_local_fallback (task : Task) (candidates : list PlacementCandidate)
    (local : NodeId) (now : Z) : result PlacementScore PlacementError :=
  place_balanced_with_local_fallback task candidates local ∅ now.

End scheduler.

(** ** Reputation *)

Record PeerReputation := mkPeerReputation {
  success : Z; failure : Z; invalid_result : Z; timeout : Z; average_latency_ms : f64;
}.

Definition trust_score (r : PeerReputation) : f64 :=
  let positive := fadd (f_of_Z (success r)) fone in
  let negative := fadd (fadd (fadd (f_of_Z (failure r)) (f_of_Z (timeout r)))
                    (fmul (f_of_Z 2) (f_of_Z (invalid_result r)))) fone in
  fdiv positive (fadd positive negative).

(** [success + 1] would overflow at [u64::MAX] successes. *)
Definition record_success (r : PeerReputation) (latency : f64) : PeerReputation :=
  let average :=
    if success r =? 0 then latency
    else fdiv (fadd (fmul (average_latency_ms r) (f_of_Z (success r))) latency)
           (f_of_Z (success r + 1)) in
  mkPeerReputation (success r + 1) (failure r) (invalid_result r) (timeout r) average.

(** ** The byte-buffer execution ABI *)

Inductive WasmError := WasmInvalid | MissingExport | Trap.

#[export] Instance WasmError_eq_dec : EqDecision WasmError.
Proof. solve_decision. Defined.

Definition DEFAULT_TASK_FUEL : Z := 10000000.

(** What a store grants a guest: the limit of its linear memory and its fuel. *)
Record Store := mkStore { memory_size : Z; fuel : Z }.

Definition limited_store (memory_limit : Z) : Store := mkStore memory_limit DEFAULT_TASK_FUEL.

(** The WebAssembly runtime: compilation, instantiation in a store, with no
    imports, the exported memory, and typed calls, which return the result with
    the memory they leave behind. *)
Class Wasmtime := {
  WasmModule : Type;
  WasmComponent : Type;
  WasmInstance : Type;
  module_new : bytes → option WasmModule;
  component_new : bytes → option WasmComponent;
  instantiate : WasmModule → Store → option WasmInstance;
  instantiate_component : WasmComponent → Store → option WasmInstance;
  has_memory : WasmInstance → bool;
  memory_data : WasmInstance → bytes;
  has_export : WasmInstance → string → bool;
  set_memory : WasmInstance → bytes → WasmInstance;
  call_i64 : WasmInstance → string → Z → Z → option (Z * WasmInstance);
  has_i32_export : WasmInstance → string → bool;
  call_i32 : WasmInstance → string → Z → option Z;
}.

Section wasm.
Context `{Wasmtime}.

Definition PureBytesModule_parse (b : bytes) : result WasmModule WasmError :=
  ok_or (module_new b) WasmInvalid.

(** [memory.data(&store).get(offset..end)]. *)
Definition get_range (memory : bytes) (offset end_ : Z) : option bytes :=
  if (offset <=? end_) && (end_ <=? Z.of_nat (length memory))
  then Some (slice (Z.to_nat offset) (Z.to_nat end_) memory) else None.

Definition I32_MAX : Z := 2 ^ 31 - 1.

Definition invoke_bytes_with_limit (m : WasmModule) (export : string) (input : bytes)
    (memory_limit : Z) : result bytes WasmError :=
  if memory_limit <? Z.of_nat (length input) then Err WasmInvalid
  else
    let? inst := ok_or (instantiate m (limited_store memory_limit)) Trap in
    if negb (has_memory inst) then Err MissingExport
    else if Z.of_nat (length (memory_data inst)) <? Z.of_nat (length input) then Err Trap
    else
      let inst := set_memory inst (copy_at 0 input (memory_data inst)) in
      if negb (has_export inst export) then Err MissingExport
      else if I32_MAX <? Z.of_nat (length input) then Err WasmInvalid
      else
        let? p := ok_or (call_i64 inst export 0 (Z.of_nat (length input))) Trap in
        let packed := p.1 mod 2 ^ 64 in
        let offset := Z.shiftr packed 32 in
        let length_ := Z.land packed U32_MAX in
        let? end_ := ok_or (checked_add offset length_) Trap in
        ok_or (get_range (memory_data p.2) offset end_) Trap.

Definition invoke_bytes (m : WasmModule) (export : string) (input : bytes) : result bytes WasmError :=
  invoke_bytes_with_limit m export input DEFAULT_TASK_MEMORY_LIMIT.

Inductive Compiled := CompiledComponent (c : WasmComponent) | CompiledModule (m : WasmModule).

Definition PureI32Module_parse (b : bytes) : result Compiled WasmError :=
  match component_new b with
  | Some value => Ok (CompiledComponent value)
  | None => let? m := ok_or (module_new b) WasmInvalid in Ok (CompiledModule m)
  end.

Definition invoke_i32_with_limit (compiled : Compiled) (export : string) (input memory_limit : Z) :
    result Z WasmError :=
  match compiled with
  | CompiledComponent c =>
      let? inst := ok_or (instantiate_component c (limited_store memory_limit)) Trap in
      if negb (has_i32_export inst export) then Err MissingExport
      else ok_or (call_i32 inst export input) Trap
  | CompiledModule m =>
      let? inst := ok_or (instantiate m (limited_store memory_limit)) Trap in
      if negb (has_i32_export inst export) then Err MissingExport
      else ok_or (call_i32 inst export input) Trap
  end.

Definition invoke_i32 (compiled : Compiled) (export : string) (input : Z) : result Z WasmError :=
  invoke_i32_with_limit compiled export input DEFAULT_TASK_MEMORY_LIMIT.

(** The output is the announced part of the final memory, within its bounds. *)
Lemma invoke_bytes_output m export input limit out :
  invoke_bytes_with_limit m export input limit = Ok out →
  Z.of_nat (length input) ≤ limit ∧
  ∃ inst packed inst', instantiate m (limited_store limit) = Some inst ∧
    call_i64 (set_memory inst (copy_at 0 input (memory_data inst))) export 0 (Z.of_nat (length input))
      = Some (packed, inst') ∧
    let offset := Z.to_nat (Z.shiftr (packed mod 2 ^ 64) 32) in
    out = slice offset (offset + length out) (memory_data inst') ∧
    (offset + length out ≤ length (memory_data inst'))%nat ∧
    Z.of_nat (length out) = Z.land (packed mod 2 ^ 64) U32_MAX.
Proof.
  unfold invoke_bytes_with_limit. destruct (Z.ltb_spec limit (Z.of_nat (length input))); [done|].
  intros Hok. split; [done|]. apply rbind_ok in Hok as (inst&Hi&Hok). inv_ok.
  destruct (has_memory inst); cbn in Hok; [|done]. case_match; [done|].
  case_match; [done|]. case_match; [done|]. apply rbind_ok in Hok as ([packed inst']&Hc&Hok). inv_ok.
  cbn [fst snd] in *. set (pk := packed mod 2 ^ 64) in *.
  apply checked_add_Some in E as [-> _]. unfold get_range in Hok. case_match eqn:Eb; [|done].
  breflect. injection Hok as <-.
  assert (0 ≤ Z.shiftr pk 32) by (apply Z.shiftr_nonneg, Z.mod_pos_bound; lia).
  assert (0 ≤ Z.land pk U32_MAX) by (apply Z.land_nonneg; right; unfold U32_MAX; lia).
  exists inst, packed, inst'. split; [done|]. split; [done|]. cbv zeta. fold pk.
  rewrite length_slice by lia. split_and!; [f_equal; lia|lia|lia].
Qed.

End wasm.

(** ** Counting *)

Definition occurrences (o : ContentId) (l : list ContentId) : nat := length (filter (λ x, x = o) l).

Lemma occurrences_snoc o l x :
  occurrences o (l ++ [x]) = (occurrences o l + if decide (x = o) then 1 else 0)%nat.
Proof.
  unfold occurrences. rewrite filter_app, length_app, filter_cons. by case_decide.
Qed.

Lemma count_outputs_lookup l o :
  count_outputs l !! o = if decide (occurrences o l = 0%nat) then None else Some (occurrences o l).
Proof.
  unfold count_outputs. induction l as [|x l IH] using rev_ind; [done|].
  rewrite foldl_snoc. set (m := foldl count_output ∅ l) in *. unfold count_output.
  rewrite occurrences_snoc. destruct (decide (x = o)) as [->|Hne].
  - rewrite lookup_insert_eq, IH. rewrite (decide_False (P := (_ + 1)%nat = 0%nat)) by lia.
    case_decide as E; cbn; [rewrite E; done|f_equal; unfold id; lia].
  - rewrite lookup_insert_ne, IH by done. by rewrite Nat.add_0_r.
Qed.

(** Two different outputs share the executions. *)
Lemma occurrences_disjoint o o' l :
  o ≠ o' → (occurrences o l + occurrences o' l ≤ length l)%nat.
Proof.
  intros Hne. induction l as [|x l IH] using rev_ind; [done|].
  rewrite !occurrences_snoc, length_app. cbn. repeat case_decide; subst; lia || done.
Qed.

Lemma max_by_count_spec l :
  match max_by_count l with
  | Some e => e ∈ l ∧ ∀ e', e' ∈ l → (e'.2 ≤ e.2)%nat
  | None => l = []
  end.
Proof.
  unfold max_by_count. induction l as [|x l IH] using rev_ind; [done|]. rewrite foldl_snoc.
  destruct (foldl _ None l) as [a|]; [|subst; cbn; set_solver].
  destruct IH as [Ha Hmax]. destruct (Nat.ltb_spec x.2 a.2); (split; [set_solver|]).
  - intros e' [He'|He'%list_elem_of_singleton]%elem_of_app; [auto|subst; lia].
  - intros e' [He'|He'%list_elem_of_singleton]%elem_of_app; [apply Hmax in He'; lia|subst; lia].
Qed.

(** What the quorum branch picks, whatever the iteration order. *)
Lemma quorum_pick order outputs m :
  (∀ l, order l ≡ₚ l) → 0 < m →
  match max_by_count (filter (λ e, m ≤ Z.of_nat e.2) (order (map_to_list (count_outputs outputs)))) with
  | Some (o, n) => m ≤ Z.of_nat (occurrences o outputs) ∧
                   ∀ x, (occurrences x outputs ≤ occurrences o outputs)%nat
  | None => ∀ x, Z.of_nat (occurrences x outputs) < m
  end.
Proof.
  intros Hperm Hm. set (entries := filter _ _).
  assert (∀ o n, (o, n) ∈ entries ↔ m ≤ Z.of_nat n ∧ n = occurrences o outputs) as Hentries.
  { intros o n. unfold entries. rewrite list_elem_of_filter, Hperm, elem_of_map_to_list, count_outputs_lookup.
    cbn. case_decide; [split; [naive_solver|intros [? ->]; lia]|naive_solver]. }
  pose proof (max_by_count_spec entries) as Hmax. destruct (max_by_count entries) as [[o n]|].
  - destruct Hmax as [Hin Hmax]. apply Hentries in Hin as [Hn ->]. split; [done|]. intros x.
    destruct (Z.le_gt_cases m (Z.of_nat (occurrences x outputs))) as [Hx|Hx]; [|lia].
    apply (Hmax (x, occurrences x outputs)). by apply Hentries.
  - intros x. destruct (Z.le_gt_cases m (Z.of_nat (occurrences x outputs))) as [Hx|Hx]; [|done].
    exfalso. assert ((x, occurrences x outputs) ∈ entries) as Hin by by apply Hentries.
    rewrite Hmax in Hin. set_solver.
Qed.

(** ** Comparisons: laws *)

Section cmp.
Context {A : Type}.

Lemma cmp_eq_trans (cmp : A → A → comparison) `{!LawfulCmp cmp} x y z :
  cmp x y = Eq → cmp y z = Eq → cmp x z = Eq.
Proof.
  intros H1 H2. pose proof (cmp_trans x y z) as T1. pose proof (cmp_trans z y x) as T2.
  rewrite (cmp_opp (cmp := cmp) y z), (cmp_opp (cmp := cmp) x y), (cmp_opp (cmp := cmp) x z), H1, H2 in T2. rewrite H1, H2 in T1.
  destruct (cmp x z); naive_solver.
Qed.

Lemma cmp_refl (cmp : A → A → comparison) `{!LawfulCmp cmp} x : cmp x x ≠ Gt.
Proof. pose proof (cmp_opp (cmp := cmp) x x) as E. by destruct (cmp x x); cbn in E. Qed.

Lemma lawful_then (c d : A → A → comparison) :
  LawfulCmp c → LawfulCmp d → LawfulCmp (λ x y, then_with (c x y) (d x y)).
Proof.
  intros Hc Hd. split.
  - intros x y. rewrite (cmp_opp (cmp := c) x y), (cmp_opp (cmp := d) x y). by destruct (c x y).
  - intros x y z H1 H2. pose proof (cmp_trans (cmp := c) x y z) as Hct.
    pose proof (cmp_trans (cmp := d) x y z) as Hdt.
    pose proof (cmp_eq_trans c y x z) as E1. pose proof (cmp_eq_trans c x z y) as E2.
    pose proof (cmp_trans (cmp := c) y z x) as T.
    rewrite (cmp_opp (cmp := c) x y) in E1, T. rewrite (cmp_opp (cmp := c) y z) in E2.
    rewrite (cmp_opp (cmp := c) x z) in T.
    destruct (c x y), (c y z), (c x z); cbn in *; try congruence; intuition congruence.
Qed.

Lemma lawful_preimage {B} (f : A → B) (c : B → B → comparison) :
  LawfulCmp c → LawfulCmp (λ x y, c (f x) (f y)).
Proof. intros Hc. split; [intros; apply Hc|intros x y z; apply Hc]. Qed.

Lemma lawful_flip (c : A → A → comparison) : LawfulCmp c → LawfulCmp (λ x y, c y x).
Proof.
  intros Hc. split; [intros x y; apply (cmp_opp (cmp := c))|].
  intros x y z H1 H2. by apply (cmp_trans (cmp := c) z y x).
Qed.

Lemma max_by_spec (cmp : A → A → comparison) `{!LawfulCmp cmp} l :
  match max_by cmp l with
  | Some x => x ∈ l ∧ ∀ y, y ∈ l → cmp y x ≠ Gt
  | None => l = []
  end.
Proof.
  destruct l as [|x l]; [done|]. cbn.
  induction l as [|y l IH] using rev_ind.
  { split; [set_solver|]. intros y Hy%list_elem_of_singleton. subst y. by apply cmp_refl. }
  rewrite foldl_snoc. set (a := foldl _ x l) in *. destruct IH as [Ha Hmax].
  rewrite app_comm_cons. setoid_rewrite elem_of_app. setoid_rewrite list_elem_of_singleton.
  pose proof (cmp_opp (cmp := cmp) a y) as Ho.
  assert (∀ z, cmp z z ≠ Gt) as Hrefl.
  { intros z. by apply cmp_refl. }
  destruct (cmp a y) eqn:E; (split; [by auto|]); intros z [Hz| ->]; auto.
  - apply (cmp_trans z a y); [auto|congruence].
  - apply (cmp_trans z a y); [auto|congruence].
  - by rewrite Ho.
Qed.

Lemma min_by_spec (cmp : A → A → comparison) `{!LawfulCmp cmp} l :
  match min_by cmp l with
  | Some x => x ∈ l ∧ ∀ y, y ∈ l → cmp x y ≠ Gt
  | None => l = []
  end.
Proof.
  destruct l as [|x l]; [done|]. cbn.
  assert (∀ z, cmp z z ≠ Gt) as Hrefl.
  { intros z. by apply cmp_refl. }
  induction l as [|y l IH] using rev_ind.
  { split; [set_solver|]. intros y Hy%list_elem_of_singleton. by subst y. }
  rewrite foldl_snoc. set (a := foldl _ x l) in *. destruct IH as [Ha Hmin].
  rewrite app_comm_cons. setoid_rewrite elem_of_app. setoid_rewrite list_elem_of_singleton.
  pose proof (cmp_opp (cmp := cmp) a y) as Ho.
  destruct (cmp a y) eqn:E; (split; [by auto|]); intros z [Hz| ->]; auto; try congruence.
  apply (cmp_trans y a z); [by rewrite Ho|auto].
Qed.

End cmp.

#[export] Instance Zcompare_lawful : LawfulCmp Z.compare.
Proof.
  split.
  - intros x y. apply Z.compare_antisym.
  - intros x y z. change (x ≤ y → y ≤ z → x ≤ z). lia.
Qed.

#[export] Instance bytes_cmp_lawful : LawfulCmp bytes_cmp.
Proof.
  assert (∀ x y, bytes_cmp x y ≠ Gt ↔ bytes_le x y) as Hle.
  { intros x y. unfold bytes_cmp, bytes_le. case_bool_decide as E; [subst|by destruct (bytes_leb x y)].
    split; [intros _; apply (reflexivity (R := bytes_le))|done]. }
  split.
  - intros x y. unfold bytes_cmp. case_bool_decide as E; [subst; by rewrite bool_decide_eq_true_2|].
    rewrite bool_decide_eq_false_2 by done.
    destruct (bytes_leb x y) eqn:E1, (bytes_leb y x) eqn:E2; try done; exfalso.
    + apply E. symmetry. by apply (anti_symm bytes_le).
    + destruct (total bytes_le x y); unfold bytes_le in *; congruence.
  - intros x y z. rewrite !Hle. apply (transitivity (R := bytes_le)).
Qed.

#[export] Instance total_cmp_lawful nan_class : LawfulCmp (total_cmp nan_class).
Proof.
  assert (LawfulCmp (λ x y, then_with (Z.compare (total_key nan_class x).1.1 (total_key nan_class y).1.1)
    (then_with (Z.compare (total_key nan_class x).1.2 (total_key nan_class y).1.2)
       (Z.compare (total_key nan_class x).2 (total_key nan_class y).2)))) as Hl.
  { apply lawful_then; [|apply lawful_then].
    - apply (lawful_preimage (λ x, (total_key nan_class x).1.1)), _.
    - apply (lawful_preimage (λ x, (total_key nan_class x).1.2)), _.
    - apply (lawful_preimage (λ x, (total_key nan_class x).2)), _. }
  assert (∀ x y, total_cmp nan_class x y =
    then_with (Z.compare (total_key nan_class x).1.1 (total_key nan_class y).1.1)
    (then_with (Z.compare (total_key nan_class x).1.2 (total_key nan_class y).1.2)
       (Z.compare (total_key nan_class x).2 (total_key nan_class y).2))) as E.
  { intros x y. unfold total_cmp.
    by destruct (total_key nan_class x) as [[]], (total_key nan_class y) as [[]]. }
  split; intros; rewrite ?E in *; [apply Hl|by eapply (cmp_trans (LawfulCmp := Hl))].
Qed.

#[export] Instance place_cmp_lawful nan_class : LawfulCmp (place_cmp nan_class).
Proof.
  apply lawful_then.
  - apply (lawful_preimage ps_score), _.
  - apply (lawful_flip (λ l r, bytes_cmp (ps_node l) (ps_node r))), (lawful_preimage ps_node), _.
Qed.

#[export] Instance balance_cmp_lawful nan_class : LawfulCmp (balance_cmp nan_class).
Proof.
  apply lawful_then; [|apply lawful_then].
  - apply (lawful_preimage snd), _.
  - apply (lawful_flip (λ l r, total_cmp nan_class (ps_score l.1) (ps_score r.1))).
    apply (lawful_preimage (λ l, ps_score l.1)), _.
  - apply (lawful_preimage (λ l, ps_node l.1)), _.
Qed.

Lemma task_memory_limit_bounds task limit :
  task_memory_limit task = Some limit →
  minimum_memory (requirements task) ≤ limit ∧
  DEFAULT_TASK_MEMORY_LIMIT ≤ limit ≤ MAX_TASK_MEMORY_LIMIT.
Proof.
  unfold task_memory_limit. destruct (Z.leb_spec (Z.max (minimum_memory (requirements task))
    DEFAULT_TASK_MEMORY_LIMIT) MAX_TASK_MEMORY_LIMIT); [|done]. intros [= <-]. lia.
Qed.

(** Hard constraints of a placement. *)
Definition satisfies (task : Task) (node : NodeCapability) (now : Z) : Prop :=
  now < cap_expires_at node ∧ runtime (requirements task) ∈ runtimes node ∧
  (∃ limit, task_memory_limit task = Some limit ∧ limit ≤ available_memory node) ∧
  minimum_storage (requirements task) ≤ available_storage node ∧ 0 < task_slots node ∧
  (∀ d, deadline task = Some d → now < d).

Lemma eligible_satisfies task node now : eligible task node now = true → satisfies task node now.
Proof.
  unfold eligible, is_fresh_at. intros He. breflect.
  match goal with H : supports _ _ = true |- _ => apply supports_spec in H end.
  destruct (task_memory_limit task) as [limit|] eqn:E; [|done]. breflect.
  split_and!; eauto. intros d Hd. rewrite Hd in *. by breflect.
Qed.

(** ** Properties *)

(** Output verification is exact for every policy: it returns the first
    output under trust, the common output of the first [n] executions under
    replication, and under a quorum an output that occurs in at least the
    required number of executions and at least as often as any other; it
    reports disagreement exactly when there is none, and too few executions
    exactly when the policy is degenerate or not enough outputs came in. *)
Theorem verify_outputs_exact order policy outputs :
  (∀ l, order l ≡ₚ l) →
  match policy with
  | TrustExecutor =>
      verify_outputs order policy outputs =
        match outputs with [] => Err InsufficientExecutions | o :: _ => Ok o end
  | Replicate n =>
      0 ≤ n →
      match verify_outputs order policy outputs with
      | Err InsufficientExecutions => n = 0 ∨ Z.of_nat (length outputs) < n
      | Ok o => 0 < n ≤ Z.of_nat (length outputs) ∧ take (Z.to_nat n) outputs = replicate (Z.to_nat n) o
      | Err NoAgreement => 0 < n ≤ Z.of_nat (length outputs) ∧
          ∀ o, take (Z.to_nat n) outputs ≠ replicate (Z.to_nat n) o
      end
  | Quorum n m =>
      0 ≤ n → 0 ≤ m →
      let executed := take (Z.to_nat n) outputs in
      match verify_outputs order policy outputs with
      | Err InsufficientExecutions => n = 0 ∨ m = 0 ∨ n < m ∨ Z.of_nat (length outputs) < n
      | Ok o => 0 < m ≤ n ∧ n ≤ Z.of_nat (length outputs) ∧ m ≤ Z.of_nat (occurrences o executed) ∧
          ∀ x, (occurrences x executed ≤ occurrences o executed)%nat
      | Err NoAgreement => 0 < m ≤ n ∧ n ≤ Z.of_nat (length outputs) ∧
          ∀ x, Z.of_nat (occurrences x executed) < m
      end
  end.
Proof.
  intros Hperm. destruct policy as [|n|n m]; cbn [verify_outputs].
  - by destruct outputs.
  - intros Hn. destruct (Z.eqb_spec n 0); cbn [orb]; [by left|].
    destruct (Z.ltb_spec (Z.of_nat (length outputs)) n); [by right|].
    destruct outputs as [|o outputs]; [cbn in *; lia|].
    set (l := o :: outputs) in *. destruct (forallb _ _) eqn:E.
    + split; [lia|]. rewrite forallb_forall in E. symmetry. apply replicate_as_Forall_2.
      * rewrite length_take. lia.
      * apply Forall_forall. intros x Hx. apply list_elem_of_In, E in Hx. by breflect.
    + split; [lia|]. intros x Hx. apply not_true_iff_false in E. apply E, forallb_forall.
      assert (o = x) as ->.
      { destruct (Z.to_nat n) as [|k] eqn:En; [lia|]. unfold l in Hx. cbn in Hx. congruence. }
      rewrite Hx. intros y [-> _]%list_elem_of_In%elem_of_replicate. by apply bool_decide_eq_true.
  - intros Hn Hm. set (executed := take (Z.to_nat n) outputs). destruct (_ || _) eqn:E.
    + repeat rewrite orb_true_iff in E. rewrite !Z.eqb_eq, !Z.ltb_lt in E. naive_solver.
    + breflect. pose proof (quorum_pick order executed m Hperm) as Hpick.
      destruct (max_by_count _) as [[o k]|].
      * destruct Hpick as [? ?]; [lia|]. split_and!; try done; lia.
      * split_and!; [lia..|]. apply Hpick. lia.
Qed.

(** C37: a quorum of more than half the executions does not depend on the
    iteration order of the hash map; with half or less it does, since ties go
    to whichever entry the map yields last. *)
Theorem quorum_majority_deterministic :
  (∀ order1 order2 n m outputs, (∀ l, order1 l ≡ₚ l) → (∀ l, order2 l ≡ₚ l) → n < 2 * m →
     verify_outputs order1 (Quorum n m) outputs = verify_outputs order2 (Quorum n m) outputs) ∧
  (verify_outputs id (Quorum 2 1) [[x01]; [x02]] ≠ verify_outputs reverse (Quorum 2 1) [[x01]; [x02]]).
Proof.
  split; [|by vm_compute].
  intros order1 order2 n m outputs H1 H2 Hmaj. cbn [verify_outputs].
  destruct (_ || _) eqn:E; [done|]. breflect.
  destruct (Z.le_gt_cases m 0) as [|Hm]; [lia|].
  set (executed := take (Z.to_nat n) outputs).
  pose proof (quorum_pick order1 executed m H1 Hm) as P1.
  pose proof (quorum_pick order2 executed m H2 Hm) as P2.
  destruct (max_by_count _) as [[o k]|], (max_by_count _) as [[o' k']|]; [|exfalso..|done].
  - destruct (decide (o = o')) as [->|Hne]; [done|]. exfalso.
    pose proof (occurrences_disjoint o o' executed Hne) as Hd.
    unfold executed in *. rewrite length_take in Hd. lia.
  - specialize (P2 o). lia.
  - specialize (P1 o'). lia.
Qed.

(** The scheduler places a task only on a node that satisfies its hard
    constraints, fails exactly when no candidate does, and is optimal among the
    eligible candidates: the best score with ties to the smallest node
    identifier, or, when balancing, a remote node of least pressure whenever a
    remote node is eligible and the local choice otherwise. *)
Theorem placement_sound_and_optimal log2 nan_class weights task candidates local assignments now :
  let elig c := eligible task (capability c) now = true in
  let remote c := cap_node (capability c) ≠ local ∧ elig c in
  let weighed c := (placement log2 weights c, pressure assignments (capability c)) in
  match place log2 nan_class weights task candidates now with
  | Ok s => ∃ c, c ∈ candidates ∧ elig c ∧ satisfies task (capability c) now ∧ s = placement log2 weights c ∧
      ∀ c', c' ∈ candidates → elig c' → place_cmp nan_class (placement log2 weights c') s ≠ Gt
  | Err _ => ∀ c, c ∈ candidates → ¬ elig c
  end ∧
  match place_balanced_with_local_fallback log2 nan_class weights task candidates local assignments now with
  | Ok s => ∃ c, c ∈ candidates ∧ elig c ∧ satisfies task (capability c) now ∧ s = placement log2 weights c ∧
      ((∃ r, r ∈ candidates ∧ remote r) → remote c ∧
         ∀ r, r ∈ candidates → remote r → balance_cmp nan_class (weighed c) (weighed r) ≠ Gt)
  | Err _ => ∀ c, c ∈ candidates → ¬ elig c
  end.
Proof.
  cbv zeta.
  assert (match place log2 nan_class weights task candidates now with
    | Ok s => ∃ c, c ∈ candidates ∧ eligible task (capability c) now = true ∧
        satisfies task (capability c) now ∧ s = placement log2 weights c ∧
        ∀ c', c' ∈ candidates → eligible task (capability c') now = true →
          place_cmp nan_class (placement log2 weights c') s ≠ Gt
    | Err _ => ∀ c, c ∈ candidates → eligible task (capability c) now ≠ true
    end) as Hplace.
  { unfold place. set (l := filter _ candidates).
    pose proof (max_by_spec (place_cmp nan_class) (placement log2 weights <$> l)) as Hmax.
    destruct (max_by _ _) as [s|]; cbn [ok_or].
    - destruct Hmax as [(c&->&[Hel Hc]%list_elem_of_filter)%list_elem_of_fmap Hmax].
      exists c. split_and!; auto using eligible_satisfies. intros c' Hc' Hel'.
      apply Hmax, list_elem_of_fmap_2, list_elem_of_filter. done.
    - intros c Hc Hel. apply fmap_nil_inv in Hmax. assert (c ∈ l) as Hin by by apply list_elem_of_filter.
      rewrite Hmax in Hin. set_solver. }
  split; [done|]. unfold place_balanced_with_local_fallback. set (l := filter _ candidates).
  case_bool_decide as Hl.
  { destruct (place _ _ _ _ _ _) as [s|]; [|done]. destruct Hplace as (c&?&?&?&?&_).
    exists c. split_and!; try done. intros (r&Hr&Hrem). exfalso.
    assert (r ∈ l) as Hin by by apply list_elem_of_filter. rewrite Hl in Hin. set_solver. }
  set (wl := _ <$> l). pose proof (min_by_spec (balance_cmp nan_class) wl) as Hmin.
  destruct (min_by _ _) as [s|]; cbn [ok_or rbind].
  - destruct Hmin as [(c&->&[Hrem Hc]%list_elem_of_filter)%list_elem_of_fmap Hmin].
    exists c. split_and!; try done; [apply Hrem|apply eligible_satisfies, Hrem|].
    intros _. split; [done|]. intros r Hr Hrr. apply Hmin.
    apply (list_elem_of_fmap_2 (λ c, (placement log2 weights c, pressure assignments (capability c)))).
    by apply list_elem_of_filter.
  - exfalso. apply Hl. by apply fmap_nil_inv in Hmin.
Qed.

(** ** Witness *)

Lemma verify_outputs_exact_witness :
  let executed := take 3 [[x01]; [x02]; [x01]] in
  0 < 2 ≤ 3 ∧ 3 ≤ 3 ∧ 2 ≤ Z.of_nat (occurrences [x01] executed) ∧
  ∀ x, (occurrences x executed ≤ occurrences [x01] executed)%nat.
Proof.
  apply (verify_outputs_exact id (Quorum 3 2) [[x01]; [x02]; [x01]]); [reflexivity|lia|lia].
Defined.
