(* ===== verification/Wasm.v ===== *)
(** The part of WebAssembly that the component embedded in the command line
    uses: structured control flow, locals, 32-bit arithmetic and byte-wide
    memory access, with the accounting of fuel the stores of
    crates/peerless-compute/src/wasm.rs turn on.  [Runs] states what the runtime
    does with a module of this kind. *)

From S2P Require Import Prelude Compute.
From Stdlib Require Import Strings.Byte.
#[local] Open Scope Z_scope.

(** ** Syntax *)

Inductive value := VI32 (z : Z) | VI64 (z : Z).

(** Instructions without control flow. *)
Inductive instr :=
| LocalGet (n : nat)
| LocalSet (n : nat)
| I32Const (z : Z)
| I64Const (z : Z)
| I32Add
| I32Mul
| I32GeU
| I32Load8U
| I32Store8.

(** A sequence of instructions; blocks and loops take and leave no values, and
    labels count outwards from the innermost construct. *)
Inductive code :=
| Done
| Op (i : instr) (rest : code)
| CBlock (body rest : code)
| CLoop (body rest : code)
| BrIf (label : nat) (rest : code)
| Br (label : nat).

(** ** Semantics *)

Definition wrap32 (z : Z) : Z := z mod 2 ^ 32.

Record frame := mkFrame { locals : list value; mem : bytes; gas : Z }.

Definition set_locals (l : list value) (f : frame) : frame := mkFrame l (mem f) (gas f).
Definition set_mem (m : bytes) (f : frame) : frame := mkFrame (locals f) m (gas f).

(** Every instruction but [block] and [loop] takes one unit of fuel. *)
Definition charge (f : frame) : option frame :=
  if 0 <? gas f then Some (mkFrame (locals f) (mem f) (gas f - 1)) else None.

Definition load8 (m : bytes) (a : Z) : option Z := byte_to_Z <$> m !! Z.to_nat a.
Definition store8 (m : bytes) (a v : Z) : option bytes :=
  if a <? Z.of_nat (length m) then Some (<[Z.to_nat a := byte_of_Z v]> m) else None.

Definition step (i : instr) (st : list value) (f : frame) : option (list value * frame) :=
  match i, st with
  | LocalGet n, _ => v ← locals f !! n; Some (v :: st, f)
  | LocalSet n, v :: st => _ ← locals f !! n; Some (st, set_locals (<[n := v]> (locals f)) f)
  | I32Const z, _ => Some (VI32 (wrap32 z) :: st, f)
  | I64Const z, _ => Some (VI64 z :: st, f)
  | I32Add, VI32 b :: VI32 a :: st => Some (VI32 (wrap32 (a + b)) :: st, f)
  | I32Mul, VI32 b :: VI32 a :: st => Some (VI32 (wrap32 (a * b)) :: st, f)
  | I32GeU, VI32 b :: VI32 a :: st => Some (VI32 (if b <=? a then 1 else 0) :: st, f)
  | I32Load8U, VI32 a :: st => v ← load8 (mem f) a; Some (VI32 v :: st, f)
  | I32Store8, VI32 v :: VI32 a :: st => m ← store8 (mem f) a v; Some (st, set_mem m f)
  | _, _ => None
  end.

(** [Deep] is reached only when the turns granted to loops run out, which
    [exec_not_deep] excludes when there are as many as units of fuel. *)
Inductive outcome :=
| Next (st : list value) (f : frame)
| Branch (label : nat) (f : frame)
| Trapped
| Deep.

(** A loop whose body branches to it starts again; [turns] bounds how often. *)
Fixpoint exec (turns : nat) : code → list value → frame → outcome :=
  fix go (c : code) (st : list value) (f : frame) {struct c} : outcome :=
    match c with
    | Done => Next st f
    | Op i rest =>
        match charge f with
        | None => Trapped
        | Some f => match step i st f with Some (st, f) => go rest st f | None => Trapped end
        end
    | CBlock body rest =>
        match go body st f with
        | Next st f => go rest st f
        | Branch O f => go rest st f
        | Branch (S k) f => Branch k f
        | o => o
        end
    | CLoop body rest =>
        match go body st f with
        | Next st f => go rest st f
        | Branch O f => match turns with O => Deep | S turns => exec turns (CLoop body rest) st f end
        | Branch (S k) f => Branch k f
        | o => o
        end
    | BrIf k rest =>
        match charge f, st with
        | Some f, VI32 b :: st => if b =? 0 then go rest st f else Branch k f
        | _, _ => Trapped
        end
    | Br k => match charge f with Some f => Branch k f | None => Trapped end
    end.

(** A module: pages of exported memory and one exported function from two
    32-bit integers to a 64-bit one. *)
Record wasm_module := mkModule {
  pages : nat;
  export : string;
  extra_locals : list value;
  body : code;
}.

Definition PAGE : nat := Z.to_nat 65536.
Definition initial_memory (p : wasm_module) : bytes := zeros (pages p * PAGE).

(** One call: the result with the memory and the fuel that are left. *)
Definition call (p : wasm_module) (m : bytes) (fuel : Z) (a b : Z) : option (Z * bytes * Z) :=
  match exec (Z.to_nat fuel) (body p) []
          (mkFrame (VI32 (wrap32 a) :: VI32 (wrap32 b) :: extra_locals p) m fuel) with
  | Next (VI64 r :: _) f => Some (r, mem f, gas f)
  | _ => None
  end.

(** ** What the runtime does with a module *)

(** [Runs p b]: the bytes [b] are the module [p], and the runtime follows the
    semantics on it: a store that has room for its memory gives an instance with
    that memory zeroed, and calls run the body on the fuel of the store. *)
Class Runs `{Wasmtime} (p : wasm_module) (b : bytes) := {
  compiled : WasmModule;
  instance_of : bytes → Z → WasmInstance;
  runs_new : module_new b = Some compiled;
  runs_instantiate s :
    Z.of_nat (pages p * PAGE) ≤ memory_size s →
    instantiate compiled s = Some (instance_of (initial_memory p) (fuel s));
  runs_memory m g : has_memory (instance_of m g) = true;
  runs_data m g : memory_data (instance_of m g) = m;
  runs_set m g m' : set_memory (instance_of m g) m' = instance_of m' g;
  runs_export m g : has_export (instance_of m g) (export p) = true;
  runs_call m g a c :
    call_i64 (instance_of m g) (export p) a c =
      (λ r : Z * bytes * Z, (r.1.1, instance_of r.1.2 r.2)) <$> call p m g a c;
}.

(** ** Fuel *)

(** Steps do not add fuel, and branches have taken some. *)
Lemma step_gas i st f st' f' : step i st f = Some (st', f') → gas f' = gas f.
Proof.
  destruct i; cbn; repeat case_match; try done; intros E; repeat (apply bind_Some in E as (?&_&E));
    by simplify_eq/=.
Qed.

Lemma charge_gas f f' : charge f = Some f' → 0 < gas f ∧ gas f' = gas f - 1.
Proof. unfold charge. case_match eqn:E; [|done]. apply Z.ltb_lt in E. by intros [= <-]. Qed.

Definition spends (f : frame) (o : outcome) : Prop :=
  match o with
  | Next _ f' => 0 ≤ gas f' ≤ gas f
  | Branch _ f' => 0 ≤ gas f' < gas f
  | Trapped => True
  | Deep => False
  end.

Lemma spends_le f f' o : gas f' ≤ gas f → spends f' o → spends f o.
Proof. destruct o; cbn; lia. Qed.

Lemma exec_unfold turns c :
  exec turns c = match c with
    | Done => λ st f, Next st f
    | Op i rest => λ st f,
        match charge f with
        | None => Trapped
        | Some f => match step i st f with Some (st, f) => exec turns rest st f | None => Trapped end
        end
    | CBlock body rest => λ st f,
        match exec turns body st f with
        | Next st f => exec turns rest st f
        | Branch O f => exec turns rest st f
        | Branch (S k) f => Branch k f
        | o => o
        end
    | CLoop body rest => λ st f,
        match exec turns body st f with
        | Next st f => exec turns rest st f
        | Branch O f => match turns with O => Deep | S turns => exec turns (CLoop body rest) st f end
        | Branch (S k) f => Branch k f
        | o => o
        end
    | BrIf k rest => λ st f,
        match charge f, st with
        | Some f, VI32 b :: st => if b =? 0 then exec turns rest st f else Branch k f
        | _, _ => Trapped
        end
    | Br k => λ st f, match charge f with Some f => Branch k f | None => Trapped end
    end.
Proof. by destruct turns, c. Qed.

(** As many turns as units of fuel are enough. *)
Lemma exec_not_deep turns c st f : 0 ≤ gas f ≤ Z.of_nat turns → spends f (exec turns c st f).
Proof.
  revert c st f. induction turns as [|turns IHt]; intros c; induction c as [|i rest IH|b IHb rest IHr|b IHb rest IHr|k rest IH|k];
    intros st f Hg; rewrite exec_unfold; cbn [spends]; try lia.
  1,6: destruct (charge f) as [f1|] eqn:Hc; [|done]; apply charge_gas in Hc as [??];
    destruct (step i st f1) as [[st' f2]|] eqn:Hs; [|done]; apply step_gas in Hs;
    apply (spends_le _ f2); [lia|]; apply IH; lia.
  1,5: specialize (IHb st f Hg); destruct (exec _ b st f) as [st' f'|[|k] f'| |]; cbn in *; try done; try lia;
    (apply (spends_le _ f'); [lia|]; apply IHr; lia).
  1,4: specialize (IHb st f Hg); destruct (exec _ b st f) as [st' f'|[|k] f'| |]; cbn in *; try done; try lia;
    (apply (spends_le _ f'); [lia|]; (apply IHr || apply IHt); lia).
  1,3: destruct (charge f) as [f1|] eqn:Hc; [|done]; apply charge_gas in Hc as [??];
    destruct st as [|[z|z] st]; try done; destruct (z =? 0); cbn; [|lia];
    apply (spends_le _ f1); [lia|]; apply IH; lia.
  all: destruct (charge f) as [f1|] eqn:Hc; [|done]; apply charge_gas in Hc as [??]; cbn; lia.
Qed.
