(* ===== verification/State.v ===== *)
(** Mutable documents kept as Automerge files
    (crates/peerless-state/src/lib.rs).  Automerge is an interface: documents
    with their change sets, loading, saving, merging and string values. *)

From S2P Require Import Prelude FileSystem Storage.
From Stdlib Require Import Strings.Byte.
From Stdlib Require Import Ascii.

(** The Automerge library.  A document is a set of changes: saving and loading
    keep it, merging joins it.  A failing call may leave its document in any
    state. *)
Class Automerge := {
  AutoCommit : Type;
  AutomergeError : Type;
  ObjId : Type;
  Value : Type;
  Change : Type;
  has : AutoCommit → Change → Prop;
  am_new : AutoCommit;
  am_load : bytes → result AutoCommit AutomergeError;
  am_save : AutoCommit → bytes;
  am_merge : AutoCommit → AutoCommit → AutoCommit * result unit AutomergeError;
  (** [put_object(ROOT, "values", Map)] and [get(ROOT, "values")]. *)
  am_put_values : AutoCommit → AutoCommit * result unit AutomergeError;
  am_get_values : AutoCommit → result (option ObjId) AutomergeError;
  am_put : AutoCommit → ObjId → string → string → AutoCommit * result unit AutomergeError;
  am_get : AutoCommit → ObjId → string → result (option Value) AutomergeError;
  am_to_str : Value → option string;
}.

Class AutomergeLaws `{Automerge} : Prop := {
  load_save d : ∃ d', am_load (am_save d) = Ok d' ∧ ∀ x, has d' x ↔ has d x;
  merge_has a b c : am_merge a b = (c, Ok tt) → ∀ x, has c x ↔ has a x ∨ has b x;
}.

Definition MAX_DOCUMENT_BYTES : Z := 64 * 1024 * 1024.

(** ** File names *)

Definition is_ascii_alphanumeric (c : ascii) : bool :=
  let n := Z.of_nat (nat_of_ascii c) in
  (48 <=? n) && (n <=? 57) || (65 <=? n) && (n <=? 90) || (97 <=? n) && (n <=? 122).

Definition kept (c : ascii) : bool :=
  is_ascii_alphanumeric c || bool_decide (c = "-"%char) || bool_decide (c = "_"%char).

Definition safe_char (c : ascii) : string :=
  if kept c then String c EmptyString else String "~" (hex_string [byte_of_ascii c]).

Fixpoint safe_name (name : string) : string :=
  match name with
  | EmptyString => EmptyString
  | String c name => safe_char c +:+ safe_name name
  end.

Section state.
Context `{Automerge} (pid : N).

Inductive StateError :=
| StateIo (k : ErrorKind) | StateAutomerge (e : AutomergeError) | NotAString | TooLarge.

Inductive ConsistencyPolicy := Eventual | Strong | Immutable.

(** The two locks are represented by the path of the lock file: holders take
    turns, so operations run one after the other. *)
Record StateStore := mkStateStore { root : path; store_lock_path : path }.

Record StateDocument := mkStateDocument {
  doc_path : path;
  document : AutoCommit;
  doc_lock_path : path;
}.

Definition set_document (d : StateDocument) (a : AutoCommit) : StateDocument :=
  mkStateDocument (doc_path d) a (doc_lock_path d).

Definition ensure_bounded (b : bytes) : result unit StateError :=
  fail_if (MAX_DOCUMENT_BYTES <? Z.of_nat (length b)) TooLarge.

(** [OpenOptions::new().read(true).write(true).create(true).truncate(false)]. *)
Definition open_or_create (p : path) : io unit ErrorKind :=
  syscall no_effect (λ t,
    let? q := ok_or (resolve MAX_SYMLINKS t p) OtherKind in
    match t !! q with
    | Some (File _ _) => Ok (tt, t)
    | Some _ => Err OtherKind
    | None => if match parent q with Some d => is_dir t d | None => false end
              then Ok (tt, <[q := File None []]> t) else Err NotFound
    end).

Definition flock : io unit ErrorKind := syscall no_effect (λ t, Ok (tt, t)).

Definition acquire_file_lock (p : path) : io unit StateError :=
  imap_err StateIo (open_or_create p ;! flock).

Definition read_bounded (p : path) : io bytes StateError :=
  imap_err (λ k, if decide (k = InvalidData) then TooLarge else StateIo k)
    (read_limited p MAX_DOCUMENT_BYTES).

(** ** The store *)

Definition StateStore_open (root : path) : io StateStore StateError :=
  imap_err StateIo (create_dir_all root) ;!
  iret (mkStateStore root (".persistence.lock" :: root)).

Definition document_path (s : StateStore) (name : string) : path :=
  (safe_name name +:+ ".automerge") :: root s.

Definition load (p : path) : io AutoCommit StateError :=
  let! b := read_bounded p in
  ilift (rmap_err StateAutomerge (am_load b)).

(** [if path.exists() { AutoCommit::load(&read_bounded(&path)?)? }]. *)
Definition load_persisted (p : path) : io (option AutoCommit) StateError :=
  let! present := exists_ p in
  if present : bool then let! a := load p in iret (Some a) else iret None.

Definition StateStore_document (s : StateStore) (name : string) : io StateDocument StateError :=
  let p := document_path s name in
  let! persisted := load_persisted p in
  let! d := match persisted with
            | Some d => iret d
            | None => let '(d, r) := am_put_values am_new in
                      ilift (rmap_err StateAutomerge r) ;! iret d
            end in
  iret (mkStateDocument p d (store_lock_path s)).

Definition StateStore_merge_snapshot (s : StateStore) (name : string) (b : bytes) :
    io unit StateError :=
  let p := document_path s name in
  ilift (ensure_bounded b) ;!
  let! incoming := ilift (rmap_err StateAutomerge (am_load b)) in
  acquire_file_lock (store_lock_path s) ;!
  let! persisted := load_persisted p in
  match persisted with
  | Some current =>
      let '(current, r) := am_merge current incoming in
      ilift (rmap_err StateAutomerge r) ;!
      let merged := am_save current in
      ilift (ensure_bounded merged) ;!
      imap_err StateIo (atomic_replace pid p merged None)
  | None => imap_err StateIo (atomic_replace pid p b None)
  end.

(** ** Documents *)

(** [values], which panics ([None]) when the lookup fails or the map is
    missing. *)
Definition values (d : StateDocument) : option ObjId :=
  match am_get_values (document d) with Ok o => o | Err _ => None end.

Definition StateDocument_put (d : StateDocument) (key value : string) :
    option (StateDocument * result unit StateError) :=
  obj ← values d;
  let '(a, r) := am_put (document d) obj key value in
  Some (set_document d a, rmap_err StateAutomerge r).

Definition StateDocument_get (d : StateDocument) (key : string) :
    option (result (option string) StateError) :=
  obj ← values d;
  Some (let? o := rmap_err StateAutomerge (am_get (document d) obj key) in
        match o with
        | None => Ok None
        | Some v => let? s := ok_or (am_to_str v) NotAString in Ok (Some s)
        end).

Definition StateDocument_merge (d other : StateDocument) : StateDocument * result unit StateError :=
  let '(a, r) := am_merge (document d) (document other) in
  (set_document d a, rmap_err StateAutomerge r).

Definition snapshot (d : StateDocument) : bytes := am_save (document d).

Definition StateDocument_merge_snapshot (d : StateDocument) (b : bytes) :
    StateDocument * result unit StateError :=
  match ensure_bounded b with
  | Err e => (d, Err e)
  | Ok _ => match am_load b with
            | Err e => (d, Err (StateAutomerge e))
            | Ok other => let '(a, r) := am_merge (document d) other in
                          (set_document d a, rmap_err StateAutomerge r)
            end
  end.

(** [save], which changes the document in memory also when it fails later. *)
Definition StateDocument_save (d : StateDocument) :
    io (StateDocument * result unit StateError) StateError :=
  ihandle (acquire_file_lock (doc_lock_path d) ;! load_persisted (doc_path d)) (λ r,
    match r with
    | Err e => iret (d, Err e)
    | Ok persisted =>
        let '(a, r) := match persisted with
                       | Some a => am_merge (document d) a
                       | None => (document d, Ok tt)
                       end in
        let d := set_document d a in
        match r with
        | Err e => iret (d, Err (StateAutomerge e))
        | Ok _ =>
            let b := am_save a in
            ihandle (ilift (ensure_bounded b) ;!
                     imap_err StateIo (atomic_replace pid (doc_path d) b None))
              (λ r, iret (d, r))
        end
    end).

End state.

(** ** File names *)

Lemma safe_char_inj c1 c2 r1 r2 :
  safe_char c1 +:+ r1 = safe_char c2 +:+ r2 → c1 = c2 ∧ r1 = r2.
Proof.
  unfold safe_char. intros E.
  assert (∀ c r r', kept c = true → String c r ≠ String "~" r') as Hk by (by intros ??? ? [= ->]).
  destruct (kept c1) eqn:H1, (kept c2) eqn:H2.
  - by injection E.
  - by destruct (Hk c1 r1 (hex_string [byte_of_ascii c2] +:+ r2)).
  - by destruct (Hk c2 r2 (hex_string [byte_of_ascii c1] +:+ r1)).
  - pose proof (byte_to_Z_range (byte_of_ascii c1)). pose proof (byte_to_Z_range (byte_of_ascii c2)).
    cbn [hex_string] in E.
    change (String "~" (String (nibble (byte_to_Z (byte_of_ascii c1) / 16))
              (String (nibble (byte_to_Z (byte_of_ascii c1) mod 16)) r1))
            = String "~" (String (nibble (byte_to_Z (byte_of_ascii c2) / 16))
              (String (nibble (byte_to_Z (byte_of_ascii c2) mod 16)) r2))) in E.
    injection E as E1 E2 ->. split; [|done].
    apply (f_equal nibble_val) in E1, E2. rewrite !nibble_val_nibble in E1, E2
      by (first [apply Z.mod_pos_bound; lia|split; [apply Z.div_pos|apply Z.div_lt_upper_bound]; lia]).
    injection E1 as E1. injection E2 as E2.
    rewrite <- (ascii_of_byte_of_ascii c1), <- (ascii_of_byte_of_ascii c2). f_equal.
    rewrite <- (byte_of_to_Z (byte_of_ascii c1)), <- (byte_of_to_Z (byte_of_ascii c2)). f_equal.
    rewrite (Z.div_mod (byte_to_Z (byte_of_ascii c1)) 16), E1, E2, <- Z.div_mod; lia.
Qed.

Lemma safe_name_inj n1 n2 : safe_name n1 = safe_name n2 → n1 = n2.
Proof.
  assert (∀ c s, safe_char c +:+ s ≠ EmptyString) as Hne
    by (intros c s; unfold safe_char; by destruct (kept c)).
  revert n2. induction n1 as [|c1 n1 IH]; intros [|c2 n2] E; cbn [safe_name] in E; [done|..].
  - by destruct (Hne c2 (safe_name n2)).
  - by destruct (Hne c1 (safe_name n1)).
  - apply safe_char_inj in E as [-> E]. f_equal. auto.
Qed.

(** The characters a file name is made of: none of them separates path
    components, and none is a dot. *)
Definition file_char (c : ascii) : bool := kept c || bool_decide (c = "~"%char).

Lemma file_char_nibble z : 0 ≤ z < 16 → file_char (nibble z) = true.
Proof.
  intros Hz. assert (z ∈ seqZ 0 16) as Hin by (apply elem_of_seqZ; lia).
  clear Hz. revert z Hin. apply (Forall_forall (λ z, file_char (nibble z) = true)).
  by repeat constructor.
Qed.

Lemma safe_name_chars n : Forall (λ c, file_char c = true) (String.list_ascii_of_string (safe_name n)).
Proof.
  assert (∀ s t, String.list_ascii_of_string (s +:+ t) = String.list_ascii_of_string s ++ String.list_ascii_of_string t) as Happ.
  { intros s t. induction s as [|c s IH]; [done|].
    change (c :: String.list_ascii_of_string (s +:+ t) = c :: String.list_ascii_of_string s ++ String.list_ascii_of_string t).
    by rewrite IH. }
  induction n as [|c n IH]; [constructor|]. cbn [safe_name]. rewrite Happ. apply Forall_app. split; [|done].
  unfold safe_char. destruct (kept c) eqn:Hc.
  - constructor; [|constructor]. unfold file_char. by rewrite Hc.
  - pose proof (byte_to_Z_range (byte_of_ascii c)).
    repeat constructor; apply file_char_nibble;
      [split; [apply Z.div_pos|apply Z.div_lt_upper_bound]; lia|apply Z.mod_pos_bound; lia].
Qed.

(** ** Persistence *)

Section persistence.
Context `{AutomergeLaws}.

(** The document stored at [p] contains the change [x]. *)
Definition persisted (t : tree) (p : path) (x : Change) : Prop :=
  ∃ m b d, t !! p = Some (File m b) ∧ am_load b = Ok d ∧ has d x.

(** Nothing that was persisted is gone. *)
Definition keeps (t0 t : tree) : Prop := ∀ p x, persisted t0 p x → persisted t p x.

#[global] Instance keeps_preorder : PreOrder keeps.
Proof. split; unfold keeps; [intros ?|intros ?????]; auto. Qed.

Lemma keeps_files (t0 t : tree) :
  (∀ p m b, t0 !! p = Some (File m b) → t !! p = Some (File m b)) → keeps t0 t.
Proof. intros Hf p x (m&b&d&Hp&?). exists m, b, d. auto. Qed.

(** A replacement by a document that contains the one it replaces. *)
(** A replacement by a document that contains the one it replaces. *)
Lemma replace_keeps pid p b d (t0 : tree) :
  am_load b = Ok d → (∀ x, persisted t0 p x → has d x) →
  hoare (keeps t0) (λ t, t = t0) (atomic_replace pid p b None)
    (λ r t, keeps t0 t ∧ (r = Ok tt → t !! p = Some (File None b))).
Proof.
  intros Hb Hd.
  assert (∀ t, old_or_new pid p b None t0 True t → keeps t0 t) as Hkeep.
  { intros t [Hp Hq] q x Hx. pose proof Hx as (m&c&d'&Hl&Hc&Hx').
    destruct (decide (q = p)) as [->|Hne].
    - destruct Hp as [E|[_ E]]; [exists m, c, d'; by rewrite E|].
      exists None, b, d. auto.
    - destruct (Hq q Hne) as [E|[(E&_)|(E&_)]]; [|congruence..]. exists m, c, d'. by rewrite E. }
  apply (hoare_frame (old_or_new pid p b None t0 True)); [apply _| |done].
  eapply hoare_conseq; [apply (atomic_replace_hoare pid p b None t0)|..].
  - intros t ->. split; [done|]. by left.
  - intros [u|e] t Ht.
    + split; [apply Hkeep; by apply replaced_inv|]. intros _. apply Ht.
    + split; [|done]. apply Hkeep. destruct Ht; [by apply unfinished_inv|by apply replaced_inv].
Qed.

(** The same from a given world, with a weaker invariant. *)
Lemma replace_from (I : tree → Prop) pid p b d w :
  am_load b = Ok d → (∀ x, persisted (fs w) p x → has d x) →
  (∀ t, keeps (fs w) t → I t) → Forall I (history w) →
  let '(r, w') := atomic_replace pid p b None w in
  keeps (fs w) (fs w') ∧ Forall I (history w') ∧ (r = Ok tt → fs w' !! p = Some (File None b)).
Proof.
  intros Hb Hd HI Hh.
  pose proof (hoare_frame _ I _ _ _ (framed_atomic_replace pid p b None)
    (replace_keeps pid p b d (fs w) Hb Hd) HI w eq_refl Hh) as [[Hk Hok] Hh'].
  by destruct (atomic_replace pid p b None w).
Qed.

Lemma acquire_keeps p (t0 : tree) :
  hoare (keeps t0) (λ t, t = t0) (acquire_file_lock p) (λ _ t, keeps t0 t).
Proof.
  apply hoare_map_err. apply (hoare_bind _ _ _ _ (λ _ t, keeps t0 t)); [..|done].
  - apply hoare_syscall; [unfold no_effect; by intros _ _ t ->|]. intros t ->.
    destruct (resolve _ t0 p) as [q|]; cbn; [|done].
    destruct (t0 !! q) as [[]|] eqn:Eq; [done..|].
    destruct (match parent q with Some d => is_dir t0 d | None => false end); [|done].
    assert (keeps t0 (<[q := File None []]> t0)); [|done].
    apply keeps_files. intros p' m b Hp'. rewrite lookup_insert_ne; [done|congruence].
  - intros _. apply hoare_syscall; unfold no_effect; auto.
Qed.

(** Taking the lock makes two calls. *)
Lemma acquire_faults p w u w' :
  acquire_file_lock p w = (Ok u, w') → faults w' = drop 2 (faults w).
Proof.
  unfold acquire_file_lock, imap_err, ibind, open_or_create, flock, syscall.
  intros Hok. destruct (faults w) as [|[?|] fl]; cbn in Hok; [| done |].
  all: destruct (resolve _ (fs w) p); cbn in Hok; [|done].
  all: repeat case_match; simplify_eq; try done; cbn in *; simplify_eq; done.
Qed.

(** A query of existence that does not fail is right. *)
Lemma exists_nofault {E} p w :
  (∀ f, head (faults w) ≠ Some (Some f)) →
  exists_ (E := E) p w =
    (Ok (bool_decide (is_Some (follow (fs w) p))),
     mkWorld (fs w) (sequence w) (tail (faults w)) (fs w :: history w)).
Proof.
  intros Hf. unfold exists_, ihandle, syscall.
  destruct (head (faults w)) as [[f|]|]; [by destruct (Hf f)|done..].
Qed.

Lemma read_limited_hoare (I : tree → Prop) p limit (t0 : tree) :
  I t0 →
  hoare I (λ t, t = t0) (read_limited p limit)
    (λ r t, t = t0 ∧ ∀ b, r = Ok b → Z.of_nat (length b) ≤ limit ∧
                            (0 ≤ limit < U64_MAX → ∃ m, follow t0 p = Some (File m b))).
Proof.
  intros HI. unfold read_limited.
  apply (hoare_bind _ _ _ _ (λ _ t, t = t0)); [..|by intros].
  { apply hoare_syscall; unfold no_effect; [by intros ??? ->|]. intros t ->. by destruct (follow t0 p). }
  intros _.
  apply (hoare_bind _ _ _ _ (λ r t, t = t0 ∧ ∀ b, r = Ok b → ∃ m c, follow t0 p = Some (File m c) ∧
    b = if Z.of_nat (length c) <=? saturating_add limit 1 then c else take (Z.to_nat (saturating_add limit 1)) c));
    [..|by intros e t []].
  { apply hoare_syscall; unfold no_effect; [by intros ??? ->|]. intros t ->.
    destruct (follow t0 p) as [[m c| |]|]; try done. split_and!; [done..|]. intros b [= <-]. eauto. }
  intros b. destruct (Z.ltb_spec limit (Z.of_nat (length b))); [apply hoare_fail; by intros t [-> _]|].
  apply hoare_ret. intros t [-> Hb]. split; [done|]. intros ? [= <-]. split; [done|]. intros Hl.
  destruct (Hb b eq_refl) as (m&c&Hf&Hbc). exists m. rewrite Hf, Hbc.
  assert (saturating_add limit 1 = limit + 1) as Hs by (unfold saturating_add; lia).
  rewrite Hs in *. destruct (Z.leb_spec (Z.of_nat (length c)) (limit + 1)); [done|].
  rewrite Hbc, length_take in *. lia.
Qed.

Lemma load_hoare (I : tree → Prop) p (t0 : tree) :
  I t0 →
  hoare I (λ t, t = t0) (load p)
    (λ r t, t = t0 ∧ ∀ d, r = Ok d → ∃ m b, follow t0 p = Some (File m b) ∧ am_load b = Ok d).
Proof.
  intros HI. unfold load.
  apply (hoare_bind _ _ _ _ (λ r t, t = t0 ∧ ∀ b, r = Ok b → ∃ m, follow t0 p = Some (File m b)));
    [| |by intros e t []].
  - apply hoare_map_err. eapply hoare_conseq; [by apply (read_limited_hoare I p MAX_DOCUMENT_BYTES t0)|done|].
    intros [b|e] t [-> Hb]; (split; [done|]); [|done].
    intros b' [= <-]. apply (Hb b eq_refl). by vm_compute.
  - intros b w [Hfs Hb] Hh. split; [|done]. split; [done|]. intros d Hd. cbn in Hd.
    destruct (am_load b) eqn:El; [|done]. injection Hd as <-.
    destruct (Hb b eq_refl) as [m Hm]. eauto.
Qed.

(** What the save and merge operations find out about the stored document. *)
Definition found (t : tree) (p : path) (o : option AutoCommit) : Prop :=
  match o with
  | None => follow t p = None
  | Some d => ∃ m b, follow t p = Some (File m b) ∧ am_load b = Ok d
  end.

Lemma found_persisted (t : tree) p o x :
  found t p o → persisted t p x → ∃ d, o = Some d ∧ has d x.
Proof.
  intros Ho (m&b&d&Hp&Hb&Hx). apply follow_File in Hp. destruct o as [d'|]; cbn in Ho.
  - destruct Ho as (m'&b'&Hf&Hb'). exists d'. split; [done|]. congruence.
  - congruence.
Qed.

Lemma load_persisted_spec (I : tree → Prop) p w :
  (∀ f, head (faults w) ≠ Some (Some f)) → I (fs w) → Forall I (history w) →
  let '(r, w') := load_persisted p w in
  fs w' = fs w ∧ Forall I (history w') ∧ ∀ o, r = Ok o → found (fs w) p o.
Proof.
  intros Hf HI Hh. unfold load_persisted. unfold ibind at 1. rewrite exists_nofault by done.
  set (w1 := mkWorld _ _ _ _). case_bool_decide as Hex.
  - destruct (load_hoare I p (fs w) HI w1 eq_refl) as [[Hfs Hd] Hh1]; [by constructor|].
    unfold ibind. destruct (load p w1) as [[d|e] w2]; cbn in *; split_and!; try done.
    intros o [= <-]. by apply Hd.
  - cbn. split_and!; [done|by constructor|]. intros o [= <-]. cbn.
    destruct (follow (fs w) p); [|done]. by destruct Hex.
Qed.

(** ** Saving and merging *)

(** Of the calls a persisting operation makes, the query of existence (the
    third, after the two that take the lock) does not fail. *)
Definition stat_ok (fl : list (option fault)) : Prop := ∀ f, fl !! 2%nat ≠ Some (Some f).

Lemma stat_ok_head (fl : list (option fault)) : stat_ok fl → ∀ f, head (drop 2 fl) ≠ Some (Some f).
Proof. intros Hs f. specialize (Hs f). by destruct fl as [|? [|? [|]]]. Qed.

Lemma keeps_trans_history (t0 t1 : tree) h : keeps t0 t1 → Forall (keeps t1) h → Forall (keeps t0) h.
Proof. intros Hk Hh. eapply Forall_impl; [exact Hh|]. intros t Ht. by etrans. Qed.

Lemma save_keeps pid d t s fl :
  stat_ok fl →
  let '(r, w) := StateDocument_save pid d (mkWorld t s fl []) in
  keeps t (fs w) ∧ Forall (keeps t) (history w) ∧
  ∀ d', r = Ok (d', Ok tt) → ∀ x, has (document d) x → persisted (fs w) (doc_path d) x.
Proof.
  intros Hs. unfold StateDocument_save, ihandle at 1, ibind at 1.
  pose proof (acquire_keeps (doc_lock_path d) t (mkWorld t s fl []) eq_refl) as [Hk1 Hh1]; [constructor|].
  destruct (acquire_file_lock (doc_lock_path d) (mkWorld t s fl [])) as [[u|e] w1] eqn:Ea; cbn in Hk1, Hh1.
  2: { cbn. split_and!; [done..|]. by intros d' [= _ ?]. }
  apply acquire_faults in Ea. cbn in Ea.
  pose proof (load_persisted_spec (keeps t) (doc_path d) w1) as Hl.
  destruct (load_persisted (doc_path d) w1) as [[o|e] w2].
  2: { destruct Hl as (Hfs&Hh2&_); [rewrite Ea; by apply stat_ok_head|done..|].
       cbn. split_and!; [by rewrite Hfs|done|]. by intros d' [= _ ?]. }
  destruct Hl as (Hfs&Hh2&Ho); [rewrite Ea; by apply stat_ok_head|done..|].
  specialize (Ho o eq_refl).
  set (mr := match o with Some a => am_merge (document d) a | None => (document d, Ok tt) end).
  destruct mr as [a [[]|e]] eqn:Em; [|cbn; split_and!; [by rewrite Hfs|done|by intros d' [= _ ?]]].
  assert (∀ x, has a x ↔ has (document d) x ∨ ∃ d0, o = Some d0 ∧ has d0 x) as Ha.
  { intros x. unfold mr in Em. destruct o as [d0|].
    - rewrite (merge_has _ _ _ Em). split; [|intros [|(?&[= <-]&?)]; auto]. intros []; eauto.
    - injection Em as <-. split; [by auto|]. by intros [|(?&?&?)]. }
  destruct (load_save a) as (a'&Hload&Ha').
  unfold ihandle, ibind, ilift. destruct (ensure_bounded (am_save a)) as [u'|e].
  2: { cbn. split_and!; [by rewrite Hfs|done|]. by intros d' [= _ ?]. }
  unfold imap_err.
  pose proof (replace_from (keeps t) pid (doc_path d) (am_save a) a' w2 Hload) as Hrep.
  cbn [doc_path set_document]. rewrite Hfs in Hrep.
  destruct (atomic_replace pid (doc_path d) (am_save a) None w2) as [r w3].
  destruct Hrep as (Hk&Hh3&Hok); [|by intros ??; etrans|done|].
  { intros x Hx. apply Ha', Ha. right. by apply (found_persisted (fs w1) (doc_path d)). }
  destruct r as [[]|e]; cbn in *.
  - split_and!; [by etrans|done|]. intros d' _ x Hx. exists None, (am_save a), a'.
    split_and!; [by apply Hok|done|]. apply Ha', Ha. auto.
  - split_and!; [by etrans|done|]. by intros d' [= _ ?].
Qed.

Lemma merge_keeps pid st name b t s fl :
  stat_ok fl →
  let '(r, w) := StateStore_merge_snapshot pid st name b (mkWorld t s fl []) in
  keeps t (fs w) ∧ Forall (keeps t) (history w) ∧
  (r = Ok tt → ∃ d, am_load b = Ok d ∧ ∀ x, has d x → persisted (fs w) (document_path st name) x).
Proof.
  intros Hs. unfold StateStore_merge_snapshot. cbv zeta. set (p := document_path st name).
  unfold ibind at 1, ilift. destruct (ensure_bounded b) as [_|e]; [|done].
  unfold ibind at 1. destruct (am_load b) as [incoming|e] eqn:Eb; cbn [rmap_err]; [|done].
  unfold ibind at 1.
  pose proof (acquire_keeps (store_lock_path st) t (mkWorld t s fl []) eq_refl) as [Hk1 Hh1]; [constructor|].
  destruct (acquire_file_lock (store_lock_path st) (mkWorld t s fl [])) as [[u|e] w1] eqn:Ea;
    cbn in Hk1, Hh1; [|done].
  apply acquire_faults in Ea. cbn in Ea. unfold ibind at 1.
  pose proof (load_persisted_spec (keeps t) p w1) as Hl.
  destruct (load_persisted p w1) as [[o|e] w2];
    (destruct Hl as (Hfs&Hh2&Ho); [rewrite Ea; by apply stat_ok_head|done..|]);
    rewrite <- Hfs in Hk1; [|done]. rewrite <- Hfs in Ho. specialize (Ho o eq_refl).
  (** The common end: a document that contains both is written. *)
  assert (∀ b' d', am_load b' = Ok d' →
    (∀ x, has d' x ↔ has incoming x ∨ ∃ d0, o = Some d0 ∧ has d0 x) →
    let '(r, w) := imap_err StateIo (atomic_replace pid p b' None) w2 in
    keeps t (fs w) ∧ Forall (keeps t) (history w) ∧
    (r = Ok tt → ∃ d, @Ok _ AutomergeError incoming = Ok d ∧ ∀ x, has d x → persisted (fs w) p x)) as Hend.
  { intros b' d' Hb' Hd'. unfold imap_err.
    pose proof (replace_from (keeps t) pid p b' d' w2 Hb') as Hrep.
    destruct (atomic_replace pid p b' None w2) as [r w3].
    destruct Hrep as (Hk&Hh3&Hok); [|by intros ??; etrans|done|].
    { intros x Hx. apply Hd'. right. by eapply found_persisted. }
    split_and!; [by etrans|done|]. destruct r as [[]|]; [|done]. intros _. exists incoming.
    split; [done|]. intros x Hx. exists None, b', d'. split_and!; [by apply Hok|done|].
    apply Hd'. auto. }
  destruct o as [d0|].
  - destruct (am_merge d0 incoming) as [a [[]|e]] eqn:Em; unfold ibind; cbn [rmap_err]; [|done].
    destruct (ensure_bounded (am_save a)); [|done].
    destruct (load_save a) as (a'&Hload&Ha'). apply (Hend _ a'); [done|].
    intros x. rewrite Ha', (merge_has _ _ _ Em). split.
    + intros []; eauto.
    + intros [|(?&[= <-]&?)]; auto.
  - apply (Hend b incoming); [done|]. intros x. split; [by auto|]. by intros [|(?&?&?)].
Qed.

(** ** Histories of a data directory *)

(** One operation of some process on the data directory, run to its end or to
    a crash at any point. *)
Inductive store_op :=
| OpSave (d : StateDocument)
| OpMerge (s : StateStore) (name : string) (b : bytes)
| OpOpen (s : StateStore) (name : string).

Definition run_op (pid : N) (op : store_op) (w : World) : World :=
  match op with
  | OpSave d => (StateDocument_save pid d w).2
  | OpMerge s name b => (StateStore_merge_snapshot pid s name b w).2
  | OpOpen s name => (StateStore_document s name w).2
  end.

Inductive store_step (t : tree) : tree → Prop :=
| step_op pid op s fl t' :
    stat_ok fl →
    (let w := run_op pid op (mkWorld t s fl []) in t' ∈ fs w :: history w) →
    store_step t t'.

Lemma document_unchanged (st : StateStore) name (t0 : tree) :
  hoare (λ t, t = t0) (λ t, t = t0) (StateStore_document st name) (λ _ t, t = t0).
Proof.
  unfold StateStore_document, load_persisted. cbv zeta.
  apply (hoare_bind _ _ _ _ (λ _ t, t = t0)); [|intros o|done].
  - apply (hoare_bind _ _ _ _ (λ _ t, t = t0)); [|intros present|done].
    + apply (hoare_handle _ _ _ _ (λ _ t, t = t0)); [|intros r; by apply hoare_ret].
      apply hoare_syscall; unfold no_effect; [by intros ??? ->|by intros ? ->].
    + destruct present; [|by apply hoare_ret].
      apply (hoare_bind _ _ _ _ (λ _ t, t = t0)); [|intros a; by apply hoare_ret|done].
      eapply hoare_conseq; [by apply (load_hoare (λ t, t = t0))|done|]. by intros r t [].
  - apply (hoare_bind _ _ _ _ (λ _ t, t = t0)); [|intros d; by apply hoare_ret|done].
    destruct o; [by apply hoare_ret|]. destruct (am_put_values am_new) as [d [u|e]]; intros w ??; by split.
Qed.

Lemma store_step_keeps t t' : store_step t t' → keeps t t'.
Proof.
  intros [pid op s fl t'' Hs Hin]. cbv zeta in Hin. set (w := run_op pid op (mkWorld t s fl [])) in *.
  assert (keeps t (fs w) ∧ Forall (keeps t) (history w)) as [Hk Hh].
  { destruct op as [d|st name b|st name]; cbn [run_op] in w.
    - pose proof (save_keeps pid d t s fl Hs) as Hsave.
      unfold w. destruct (StateDocument_save _ _ _). by destruct Hsave as (?&?&_).
    - pose proof (merge_keeps pid st name b t s fl Hs) as Hmerge.
      unfold w. destruct (StateStore_merge_snapshot _ _ _ _ _). by destruct Hmerge as (?&?&_).
    - destruct (document_unchanged st name t (mkWorld t s fl []) eq_refl) as [E Hh]; [constructor|].
      unfold w. rewrite E. split; [done|]. eapply Forall_impl; [exact Hh|]. by intros ? ->. }
  apply elem_of_cons in Hin as [->|Hin]; [done|]. rewrite Forall_forall in Hh. by apply Hh.
Qed.

(** ** Properties *)

(** C14: no update is lost as long as no query whether the document's file
    exists fails: once a save has reported success, or a snapshot has been
    merged, every change of the document is in the stored file, and it stays
    there through every later save, merge and load by any process, whatever other
    calls fail and wherever an operation is cut off by a crash.  (A failed query
    is taken for a missing file and loses updates:
    [failed_query_loses_updates].) *)
Theorem state_updates_never_lost pid t s fl t' :
  stat_ok fl →
  (∀ d d' w, StateDocument_save pid d (mkWorld t s fl []) = (Ok (d', Ok tt), w) →
     rtc store_step (fs w) t' →
     ∀ x, has (document d) x ∨ persisted t (doc_path d) x → persisted t' (doc_path d) x) ∧
  (∀ st name b w, StateStore_merge_snapshot pid st name b (mkWorld t s fl []) = (Ok tt, w) →
     rtc store_step (fs w) t' →
     ∃ d, am_load b = Ok d ∧
       ∀ x, has d x ∨ persisted t (document_path st name) x → persisted t' (document_path st name) x).
Proof.
  intros Hs.
  assert (∀ t0, rtc store_step t0 t' → keeps t0 t') as Hrtc.
  { intros t0 Hr. induction Hr as [|???? _ IH]; [done|]. etrans; [by apply store_step_keeps|done]. }
  split.
  - intros d d' w Hrun Hr x Hx. pose proof (save_keeps pid d t s fl Hs) as Hsave. rewrite Hrun in Hsave.
    destruct Hsave as (Hk&_&Hok). apply (Hrtc _ Hr).
    destruct Hx; [by apply (Hok d')|by apply Hk].
  - intros st name b w Hrun Hr. pose proof (merge_keeps pid st name b t s fl Hs) as Hm. rewrite Hrun in Hm.
    destruct Hm as (Hk&_&Hok). destruct (Hok eq_refl) as (d&Hd&Hx). exists d. split; [done|].
    intros x [?|?]; apply (Hrtc _ Hr); [by apply Hx|by apply Hk].
Qed.

End persistence.

(** Document names map to distinct files of the store's directory: the
    file name is an injective encoding that contains no path separator and no
    dot besides its suffix, so that a name cannot leave the directory and cannot
    denote the lock file. *)
Theorem document_files_distinct (s : StateStore) n1 n2 :
  (document_path s n1 = document_path s n2 ↔ n1 = n2) ∧
  (∃ f, document_path s n1 = (f +:+ ".automerge") :: root s ∧
     Forall (λ c, file_char c = true) (String.list_ascii_of_string f)) ∧
  document_path s n1 ≠ ".persistence.lock" :: root s ∧
  file_char "/" = false ∧ file_char "." = false ∧ file_char "000" = false.
Proof.
  split_and!; try done.
  - split; [|by intros ->]. intros E. apply (f_equal head), (inj Some), str_app_inj_r in E.
    by apply safe_name_inj.
  - exists (safe_name n1). split; [done|apply safe_name_chars].
  - intros E. apply (f_equal head), (inj Some) in E. pose proof (safe_name_chars n1) as Hc.
    destruct (safe_name n1) as [|c f]; [done|]. apply Forall_cons in Hc as [Hc _].
    injection E as -> _. done.
Qed.

(** ** Samples *)

(** A document as the list of its changes, one byte each; the change [xff]
    creates the map of values. *)
Module ToyDoc.

Definition toy_values (d : bytes) : result (option unit) unit :=
  Ok (if bool_decide (xff ∈ d) then Some tt else None).

#[export] Instance toy_automerge : Automerge :=
  {| AutoCommit := bytes; AutomergeError := unit; ObjId := unit; Value := string; Change := byte;
     has d x := x ∈ d;
     am_new := []; am_load b := Ok b; am_save d := d; am_merge a b := (a ++ b, Ok tt);
     am_put_values d := (xff :: d, Ok tt); am_get_values := toy_values;
     am_put d _ k v := (d, Ok tt); am_get d _ k := Ok None; am_to_str v := Some v |}.

#[export] Instance toy_automerge_laws : AutomergeLaws.
Proof.
  split; cbn.
  - intros d. by exists d.
  - intros a b c [= <-] x. apply elem_of_app.
Qed.

End ToyDoc.

Module Samples.
Import ToyDoc.

Definition tree0 : tree := <[["d"] := Dir None]> {[["doc.automerge"; "d"] := File None [xff; x01]]}.
Definition store0 : StateStore := mkStateStore ["d"] [".persistence.lock"; "d"].
Definition doc0 (changes : bytes) : StateDocument :=
  mkStateDocument (document_path store0 "doc") changes (store_lock_path store0).

(** A save, then a save by another process that stops while it writes. *)
Definition saved : World := (StateDocument_save 42 (doc0 [xff; x02]) (mkWorld tree0 0 [] [])).2.
Definition crashed : tree :=
  fs (StateDocument_save 43 (doc0 [xff; x03]) (mkWorld (fs saved) 0 [None; None; None; None; None; None; None; Some (mkFault OtherKind 1)] [])).2.

Lemma state_updates_never_lost_witness :
  persisted crashed ["doc.automerge"; "d"] x02.
Proof.
  assert (stat_ok []) as Hs by (intros f; vm_compute; discriminate).
  refine (proj1 (state_updates_never_lost 42 tree0 0 [] crashed Hs) (doc0 [xff; x02])
    (doc0 [xff; x02; xff; x01]) saved _ _ x02 _).
  - vm_compute. reflexivity.
  - eapply rtc_once, (step_op _ 43 (OpSave (doc0 [xff; x03])) 0
      [None; None; None; None; None; None; None; Some (mkFault OtherKind 1)]).
    + intros f. vm_compute. discriminate.
    + apply elem_of_cons. left. vm_compute. reflexivity.
  - left. cbn. set_solver.
Defined.

(** When the query whether the stored file exists fails, [Path::exists]
    answers no, and a save replaces the stored document by its own without
    merging it: it reports success and the stored changes are gone. *)
Theorem failed_query_loses_updates :
  let w := mkWorld tree0 0 [None; None; Some (mkFault OtherKind 0)] [] in
  persisted (fs w) ["doc.automerge"; "d"] x01 ∧
  (∃ d', (StateDocument_save 42 (doc0 [xff; x02]) w).1 = Ok (d', Ok tt)) ∧
  ¬ persisted (fs (StateDocument_save 42 (doc0 [xff; x02]) w).2) ["doc.automerge"; "d"] x01.
Proof.
  cbv zeta. split_and!.
  - exists None, [xff; x01], [xff; x01]. split_and!; [by vm_compute..|]. cbn. set_solver.
  - exists (doc0 [xff; x02]). by vm_compute.
  - intros (m&b&d&Hl&Hd&Hx). vm_compute in Hl. injection Hl as <- <-. injection Hd as <-.
    cbn in Hx. set_solver.
Qed.

(** A snapshot that loads but has no map of values is accepted and stored
    for a new document; from then on reading or writing a value of that document
    panics. *)
Theorem snapshot_without_values_panics :
  let w := (StateStore_merge_snapshot 42 store0 "new" [x05] (mkWorld tree0 0 [] [])).2 in
  (StateStore_merge_snapshot 42 store0 "new" [x05] (mkWorld tree0 0 [] [])).1 = Ok tt ∧
  ∃ d, (StateStore_document store0 "new" w).1 = Ok d ∧
    (∀ key, StateDocument_get d key = None) ∧ (∀ key value, StateDocument_put d key value = None).
Proof.
  cbv zeta. split; [by vm_compute|]. exists (@mkStateDocument toy_automerge ["new.automerge"; "d"] [x05] (store_lock_path store0)).
  split; [by vm_compute|]. by split.
Qed.

End Samples.
