(* ===== verification/StateSync.v ===== *)
(** Replicas of a mutable document (crates/peerless-state/src/lib.rs): what a
    merged snapshot adds to a stored document, and that replicas that have
    merged the same snapshots agree, in whatever order and however often the
    snapshots arrived. *)

From S2P Require Import Prelude FileSystem Storage State.
From Stdlib Require Import Strings.Byte.

Section sync.
Context `{AutomergeLaws}.

(** ** One merge *)

Lemma acquire_file_keeps p q n :
  hoare (λ _, True) (λ t, t !! q = Some n) (acquire_file_lock p) (λ _ t, t !! q = Some n).
Proof.
  apply hoare_map_err. apply (hoare_bind _ _ _ _ (λ _ t, t !! q = Some n)); [..|done].
  - apply hoare_syscall; [done|]. intros t Ht. destruct (resolve _ t p) as [r|]; cbn; [|done].
    destruct (t !! r) as [[]|] eqn:Er; [done..|].
    destruct (match parent r with Some d => is_dir t d | None => false end); [|done].
    split; [done|]. rewrite lookup_insert_ne; [done|congruence].
  - intros _. by apply hoare_syscall.
Qed.

(** The document is there. *)
Definition stored (t : tree) (p : path) : Prop := ∃ m b, t !! p = Some (File m b).

(** A merge that reports success adds the changes of the snapshot, and nothing
    else. *)
Lemma merge_exact pid st name b t s fl w :
  stat_ok fl → stored t (document_path st name) →
  StateStore_merge_snapshot pid st name b (mkWorld t s fl []) = (Ok tt, w) →
  stored (fs w) (document_path st name) ∧
  ∃ d, am_load b = Ok d ∧
    ∀ x, persisted (fs w) (document_path st name) x ↔ persisted t (document_path st name) x ∨ has d x.
Proof.
  intros Hs (m&b0&Hp). unfold StateStore_merge_snapshot. cbv zeta. set (p := document_path st name) in *.
  unfold ibind at 1, ilift. destruct (ensure_bounded b) as [_|e]; [|done].
  unfold ibind at 1. destruct (am_load b) as [incoming|e] eqn:Eb; cbn [rmap_err]; [|done].
  unfold ibind at 1.
  destruct (acquire_file_keeps (store_lock_path st) p _ (mkWorld t s fl []) Hp) as [Hp1 _]; [by apply Forall_forall|].
  destruct (acquire_file_lock (store_lock_path st) (mkWorld t s fl [])) as [[u|e] w1] eqn:Ea; [|done]. cbn in Hp1.
  apply acquire_faults in Ea. cbn in Ea. unfold ibind at 1.
  pose proof (load_persisted_spec (λ _, True) p w1) as Hl.
  destruct (load_persisted p w1) as [[o|e] w2];
    (destruct Hl as (Hfs&_&Ho); [rewrite Ea; by apply stat_ok_head|done|by apply Forall_forall|]); [|done].
  specialize (Ho o eq_refl). destruct o as [d0|]; cbn in Ho; [|rewrite (follow_File _ _ _ _ Hp1) in Ho; done].
  destruct Ho as (m'&b'&Hf&Hd0). rewrite (follow_File _ _ _ _ Hp1) in Hf. injection Hf as <- <-.
  destruct (am_merge d0 incoming) as [a [[]|e]] eqn:Em; unfold ibind; cbn [rmap_err]; [|done].
  destruct (ensure_bounded (am_save a)); [|done]. unfold imap_err.
  destruct (atomic_replace pid p (am_save a) None w2) as [[[]|] w3] eqn:Er; [|done]. cbn. intros [= <-].
  apply atomic_replace_ok in Er as [Hp3 _]. split; [by exists None, (am_save a)|].
  exists incoming. split; [done|]. destruct (load_save a) as (a'&Ha'&Hx'). intros x.
  assert (persisted (fs w3) p x ↔ has a' x) as ->.
  { split; [intros (m3&b3&d3&E3&Hd3&?); rewrite Hp3 in E3; injection E3 as <- <-; congruence|].
    intros Hx. by exists None, (am_save a), a'. }
  rewrite Hx', (merge_has _ _ _ Em). split; intros [Hx|Hx]; auto.
  - left. by exists m, b0, d0.
  - destruct Hx as (m3&b3&d3&E3&Hd3&Hx). left. rewrite Hp in E3. injection E3 as <- <-. congruence.
Qed.

(** ** Many merges *)

(** Snapshots that were merged, one after the other, by any processes and with
    any faults that left the merge successful. *)
Inductive merges (st : StateStore) (name : string) : tree → list bytes → tree → Prop :=
| merges_nil t : merges st name t [] t
| merges_cons pid t s fl b w bs t' :
    stat_ok fl → StateStore_merge_snapshot pid st name b (mkWorld t s fl []) = (Ok tt, w) →
    merges st name (fs w) bs t' → merges st name t (b :: bs) t'.

(** A change some of the snapshots carries. *)
Definition carried (bs : list bytes) (x : Change) : Prop :=
  ∃ b d, b ∈ bs ∧ am_load b = Ok d ∧ has d x.

Lemma merges_exact st name t bs t' :
  merges st name t bs t' → stored t (document_path st name) →
  ∀ x, persisted t' (document_path st name) x ↔ persisted t (document_path st name) x ∨ carried bs x.
Proof.
  intros Hm. induction Hm as [t|pid t s fl b w bs t' Hs Hok _ IH]; intros Hst x.
  - split; [by left|]. intros [|(b&d&Hb&_)]; [done|by apply not_elem_of_nil in Hb].
  - destruct (merge_exact pid st name b t s fl w Hs Hst Hok) as (Hst'&d&Hd&Hx).
    rewrite IH, Hx by done. unfold carried. setoid_rewrite elem_of_cons. split.
    + intros [[?|?]|(b'&d'&?&?&?)]; [by left|right; exists b, d; by auto|right; exists b', d'; by auto].
    + intros [?|(b'&d'&[->|?]&Hd'&?)]; [by left; left|left; right; assert (d' = d) as <- by congruence; done|right; by exists b', d'].
Qed.

(** C15: replicas converge: take two replicas whose document is stored, that
    merge snapshots in any order, with any repetitions and with any failing
    calls that leave the merges successful, other than a failed query whether
    the file exists.  If the snapshots the one merges and those the other merges
    carry the same changes, and what each replica had stored before is among
    them, then the two documents contain exactly the same changes, namely those
    the snapshots carry. *)
Theorem replicas_converge st1 name1 t1 bs1 t1' st2 name2 t2 bs2 t2' :
  let p1 := document_path st1 name1 in let p2 := document_path st2 name2 in
  stored t1 p1 → stored t2 p2 → merges st1 name1 t1 bs1 t1' → merges st2 name2 t2 bs2 t2' →
  (∀ x, carried bs1 x ↔ carried bs2 x) →
  (∀ x, persisted t1 p1 x → carried bs2 x) → (∀ x, persisted t2 p2 x → carried bs1 x) →
  ∀ x, (persisted t1' p1 x ↔ persisted t2' p2 x) ∧ (persisted t1' p1 x ↔ carried bs1 x).
Proof.
  intros p1 p2 Hs1 Hs2 Hm1 Hm2 Hc H1 H2 x. specialize (Hc x).
  pose proof (merges_exact _ _ _ _ _ Hm1 Hs1 x) as E1. pose proof (merges_exact _ _ _ _ _ Hm2 Hs2 x) as E2.
  specialize (H1 x). specialize (H2 x). fold p1 in E1. fold p2 in E2. tauto.
Qed.

(** What a document read from the store puts into its snapshot are the stored
    changes. *)
Lemma snapshot_carries st name m b d w x :
  fs w !! document_path st name = Some (File m b) → (∀ f, head (faults w) ≠ Some (Some f)) →
  (StateStore_document st name w).1 = Ok d → persisted (fs w) (document_path st name) x →
  carried [snapshot d] x.
Proof.
  intros Hp Hf Hd Hx. unfold StateStore_document in Hd. cbv zeta in Hd. unfold ibind at 1 in Hd.
  pose proof (load_persisted_spec (λ _, True) (document_path st name) w Hf I) as Hl.
  destruct (load_persisted _ w) as [[o|e] w1]; (destruct Hl as (_&_&Ho); [by apply Forall_forall|]); [|done].
  specialize (Ho o eq_refl). apply (found_persisted _ _ _ _ Ho) in Hx as (d0&->&Hx). cbn in Hd. injection Hd as <-.
  unfold snapshot. cbn [document]. destruct (load_save d0) as (d'&Hd'&Hx'). exists (am_save d0), d'.
  split_and!; [by apply list_elem_of_singleton|done|by apply Hx'].
Qed.

End sync.

(** ** Witness *)

Module Samples.
Import ToyDoc State.Samples.

(** Two replicas with a change of their own each; the left one gets one snapshot
    for each change, the right one a snapshot with both and one again. *)
Definition tree1 : tree := <[["d"] := Dir None]> {[["doc.automerge"; "d"] := File None [xff; x02]]}.
Definition merged (t : tree) (b : bytes) : World := (StateStore_merge_snapshot 42 store0 "doc" b (mkWorld t 0 [] [])).2.
Definition left1 : World := merged tree0 [xff; x02].
Definition left2 : World := merged (fs left1) [xff; x01].
Definition right1 : World := merged tree1 [xff; x01; x02].
Definition right2 : World := merged (fs right1) [xff; x01].

Lemma no_faults : stat_ok [].
Proof. intros f. vm_compute. discriminate. Qed.

Definition snapshots1 : list bytes := [[xff; x02]; [xff; x01]].
Definition snapshots2 : list bytes := [[xff; x01; x02]; [xff; x01]].

Lemma merged_ok t b w :
  merged t b = w → (StateStore_merge_snapshot 42 store0 "doc" b (mkWorld t 0 [] [])).1 = Ok tt →
  StateStore_merge_snapshot 42 store0 "doc" b (mkWorld t 0 [] []) = (Ok tt, w).
Proof. unfold merged. intros <-. by destruct (StateStore_merge_snapshot _ _ _ _ _) as [r w'] ; cbn; intros ->. Qed.

Lemma left_merges : merges store0 "doc" tree0 snapshots1 (fs left2).
Proof.
  apply (merges_cons _ _ 42 _ 0 [] _ left1), (merges_cons _ _ 42 _ 0 [] _ left2), merges_nil; try exact no_faults.
  all: apply merged_ok; [reflexivity|vm_compute; reflexivity].
Qed.
Lemma right_merges : merges store0 "doc" tree1 snapshots2 (fs right2).
Proof.
  apply (merges_cons _ _ 42 _ 0 [] _ right1), (merges_cons _ _ 42 _ 0 [] _ right2), merges_nil; try exact no_faults.
  all: apply merged_ok; [reflexivity|vm_compute; reflexivity].
Qed.

(** A change of a stored document is in the snapshots if they carry its bytes. *)
Lemma own_changes t b bs x :
  t !! document_path store0 "doc" = Some (File None b) → (∀ x, x ∈ b → carried bs x) →
  persisted t (document_path store0 "doc") x → carried bs x.
Proof. intros Ht Hb (m&b'&d&Hp&[= <-]&Hx). apply Hb. assert (b' = b) as -> by congruence. exact Hx. Qed.

Lemma carried_toy (bs : list bytes) (x : byte) : carried bs x ↔ x ∈ concat bs.
Proof.
  rewrite list_elem_of_In, in_concat. unfold carried. cbn. split.
  - intros (b&d&Hb&[= <-]&Hx). exists b. by rewrite <-!list_elem_of_In.
  - intros (b&Hb&Hx). exists b, b. by rewrite !list_elem_of_In.
Qed.
Lemma same_changes x : carried snapshots1 x ↔ carried snapshots2 x.
Proof. rewrite !carried_toy. cbn. set_solver. Qed.
Lemma own1 x : x ∈ [xff; x01] → carried snapshots2 x.
Proof. rewrite carried_toy. cbn. set_solver. Qed.
Lemma own2 x : x ∈ [xff; x02] → carried snapshots1 x.
Proof. rewrite carried_toy. cbn. set_solver. Qed.
Lemma carried_change : carried snapshots1 x01.
Proof. rewrite carried_toy. by apply (bool_decide_unpack _). Qed.

Lemma replicas_converge_witness :
  persisted (fs left2) ["doc.automerge"; "d"] x01 ∧ persisted (fs right2) ["doc.automerge"; "d"] x01.
Proof.
  destruct (replicas_converge store0 "doc" tree0 snapshots1 (fs left2) store0 "doc" tree1 snapshots2 (fs right2)
    ltac:(by eexists _, _) ltac:(by eexists _, _) left_merges right_merges same_changes) with (x := x01) as [H1 H2].
  - intros x. apply (own_changes tree0 [xff; x01]); [done|exact own1].
  - intros x. apply (own_changes tree1 [xff; x02]); [done|exact own2].
  - pose proof (proj2 H2 carried_change) as Hx. exact (conj Hx (proj1 H1 Hx)).
Defined.

End Samples.
