(* ===== verification/Auth.v ===== *)
(** Anonymous, short-lived membership authorisation
    (crates/peerless-anonymous-auth/src/lib.rs): credential epochs, the bounded
    store of redeemed nonces, the blind issuer, its client and the offline
    verifier.  The privacypass and OpenSSL libraries are an interface; each
    operation of the issuer and of the verifier runs as one step. *)

From S2P Require Import Prelude External Core Protocol Consensus.
From Stdlib Require Import Strings.Byte.

Definition PROTOCOL_VERSION : Z := 1.
Definition MAX_NETWORK_BYTES : Z := 128.
Definition MAX_PERMISSION_BYTES : Z := 128.
Definition MAX_REQUEST_BYTES : Z := 512.
Definition MAX_RESPONSE_BYTES : Z := 512.
Definition PUBLIC_REQUEST_BYTES : Z := 259.
Definition PUBLIC_RESPONSE_BYTES : Z := 256.
Definition PUBLIC_TOKEN_BYTES : Z := 354.
Definition ISSUER_NAME : string := "peerless-anonymous-auth".

Inductive AnonymousAuthError :=
| InvalidPolicy | InvalidScope | UnauthorizedMembership | Revoked | IssuanceLimit | KeyLimit
| Expired | InvalidEncoding | VerificationFailed | ReplayOrCapacity.

#[export] Instance AnonymousAuthError_eq_dec : EqDecision AnonymousAuthError.
Proof. solve_decision. Defined.

(** ** Scopes and epochs *)

Record AuthorizationScope := mkAuthorizationScope {
  sc_version : Z;
  sc_network_id : string;
  sc_permission : string;
  sc_epoch : Z;
  sc_expires_at : Z;
  sc_issuer_key_id : bytes;
}.

#[export] Instance AuthorizationScope_eq_dec : EqDecision AuthorizationScope.
Proof. solve_decision. Defined.
#[export] Instance AuthorizationScope_countable : Countable AuthorizationScope.
Proof.
  refine (inj_countable'
    (λ s, (sc_version s, sc_network_id s, sc_permission s, sc_epoch s, sc_expires_at s,
           sc_issuer_key_id s))
    (λ '(a, b, c, d, e, f), mkAuthorizationScope a b c d e f) _).
  by intros [].
Defined.

Definition str_len (s : string) : Z := Z.of_nat (String.length s).

Definition bad_class (network_id permission : string) : bool :=
  (str_len network_id =? 0) || (MAX_NETWORK_BYTES <? str_len network_id)
  || (str_len permission =? 0) || (MAX_PERMISSION_BYTES <? str_len permission).

Definition validate_public_class (network_id permission : string) :
    result unit AnonymousAuthError :=
  fail_if (bad_class network_id permission) InvalidScope.

Definition scope_validate (s : AuthorizationScope) : result unit AnonymousAuthError :=
  fail_if (negb (sc_version s =? PROTOCOL_VERSION)
           || bad_class (sc_network_id s) (sc_permission s)) InvalidScope.

Record CredentialPolicy := mkCredentialPolicy {
  epoch_seconds : Z;
  max_issues_per_member_epoch : Z;
  max_active_scope_keys : Z;
  max_nullifiers : Z;
}.

Definition CredentialPolicy_default : CredentialPolicy := mkCredentialPolicy 300 32 16 100000.

Definition policy_validate (p : CredentialPolicy) : result CredentialPolicy AnonymousAuthError :=
  if (epoch_seconds p =? 0) || (max_issues_per_member_epoch p =? 0)
     || (max_active_scope_keys p =? 0) || (32 <? max_active_scope_keys p)
     || (max_nullifiers p =? 0)
  then Err InvalidPolicy else Ok p.

(** [epoch.checked_add(1).and_then(|value| value.checked_mul(epoch_seconds))]. *)
Definition epoch_expiry (p : CredentialPolicy) (epoch : Z) : option Z :=
  value ← checked_add epoch 1; checked_mul value (epoch_seconds p).

Definition policy_epoch (p : CredentialPolicy) (now : Z) : result (Z * Z) AnonymousAuthError :=
  policy_validate p ;?
  let epoch := now / epoch_seconds p in
  let? expires_at := ok_or (epoch_expiry p epoch) InvalidScope in
  Ok (epoch, expires_at).

(** ** Messages *)

Record AnonymousChallenge := mkAnonymousChallenge {
  ch_scope : AuthorizationScope;
  ch_issuer_public_key : bytes;
  ch_governance_issuer : NodeId;
  ch_governance_public_key : bytes;
  ch_descriptor_signature : bytes;
}.

Record BlindCredentialRequest := mkBlindCredentialRequest {
  br_scope : AuthorizationScope;
  br_request : bytes;
}.

Record BlindCredentialResponse := mkBlindCredentialResponse { br_response : bytes }.

Record AnonymousPresentation := mkAnonymousPresentation {
  pr_scope : AuthorizationScope;
  pr_token : bytes;
}.

Record ScopeKeyDescriptor := mkScopeKeyDescriptor {
  sd_scope : AuthorizationScope;
  sd_public_key : bytes;
  sd_governance_issuer : NodeId;
  sd_governance_public_key : bytes;
  sd_signature : bytes;
}.

#[export] Instance ScopeKeyDescriptor_eq_dec : EqDecision ScopeKeyDescriptor.
Proof. solve_decision. Defined.

(** ** The store of redeemed nonces *)

Inductive NonceState := Reserved | Committed.

#[export] Instance NonceState_eq_dec : EqDecision NonceState.
Proof. solve_decision. Defined.

Abbreviation nonce_map := (gmap bytes (NonceState * Z)).

Record BoundedNonceStore := mkBoundedNonceStore {
  ns_values : nonce_map;
  max_entries : Z;
  retention_seconds : Z;
}.

Definition BoundedNonceStore_new (max_entries retention_seconds : Z) : BoundedNonceStore :=
  mkBoundedNonceStore ∅ max_entries retention_seconds.

Definition set_values (s : BoundedNonceStore) (m : nonce_map) : BoundedNonceStore :=
  mkBoundedNonceStore m (max_entries s) (retention_seconds s).

(** [reserve] at wall-clock time [now]: expired entries go first. *)
Definition nonce_reserve (now : Z) (s : BoundedNonceStore) (nonce : bytes) :
    bool * BoundedNonceStore :=
  let values := filter (λ kv : bytes * (NonceState * Z), now < kv.2.2) (ns_values s) in
  if bool_decide (is_Some (values !! nonce)) || (max_entries s <=? Z.of_nat (size values))
  then (false, set_values s values)
  else (true, set_values s (<[nonce := (Reserved, saturating_add now (retention_seconds s))]> values)).

Definition nonce_commit (s : BoundedNonceStore) (nonce : bytes) : BoundedNonceStore :=
  match ns_values s !! nonce with
  | Some (_, expiry) => set_values s (<[nonce := (Committed, expiry)]> (ns_values s))
  | None => s
  end.

Definition nonce_release (s : BoundedNonceStore) (nonce : bytes) : BoundedNonceStore :=
  match ns_values s !! nonce with
  | Some (Reserved, _) => set_values s (delete nonce (ns_values s))
  | _ => s
  end.

(** The [NonceStore] trait, with the time of the call fixed. *)
Record NonceStore (S : Type) := mkNonceStore {
  reserve : S → bytes → bool * S;
  commit : S → bytes → S;
  release : S → bytes → S;
}.
Arguments mkNonceStore {_}.
Arguments reserve {_}.
Arguments commit {_}.
Arguments release {_}.

Definition bounded_nonces (now : Z) : NonceStore BoundedNonceStore :=
  mkNonceStore (nonce_reserve now) nonce_commit nonce_release.

Inductive RedeemTokenError := DoubleSpending | OtherRedeemError.

(** The privacypass library (RFC 9578 public tokens) and the RSA keys behind
    it. *)
Class PrivacyPass := {
  IssuerKey : Type;
  PrivateKey : Type;
  from_spki : bytes → option IssuerKey;
  serialize_public_key : IssuerKey → option bytes;
  truncated_key_id : IssuerKey → option Z;
  private_decrypt : PrivateKey → bytes → option (bytes * Z);
  token_type_public : Z;
  TokenChallenge : Type;
  token_challenge : string → string → TokenChallenge;
  challenge_digest_of : TokenChallenge → option bytes;
  PublicToken : Type;
  token_deserialize : bytes → option (PublicToken * bytes);
  token_serialize : PublicToken → option bytes;
  token_key_id : PublicToken → bytes;
  token_challenge_digest : PublicToken → bytes;
  token_nonce : PublicToken → bytes;
  Random : Type;
  TokenRequest : Type;
  TokenResponse : Type;
  TokenState : Type;
  token_request_new : Random → IssuerKey → TokenChallenge → option (TokenRequest * TokenState);
  request_serialize : TokenRequest → option bytes;
  response_deserialize : bytes → option (TokenResponse * bytes);
  issue_token : TokenResponse → TokenState → option PublicToken;
  (** [OriginServer::redeem_token], over any nonce store. *)
  redeem_token : ∀ S : Type, NonceStore S → (Z → list IssuerKey) → S → PublicToken →
    result unit RedeemTokenError * S;
}.

(** What the sources rely on: a serialised key reads back as itself, and a
    token is redeemed only after its nonce was reserved, which is then committed;
    a redemption that fails leaves the store alone or gives back its own
    reservation. *)
Class PrivacyPassLaws `{PrivacyPass} : Prop := {
  serialize_from_spki k der : serialize_public_key k = Some der → from_spki der = Some k;
  redeem_token_ok S (ops : NonceStore S) keys s s' tok :
    redeem_token S ops keys s tok = (Ok tt, s') →
    ∃ s1, reserve ops s (token_nonce tok) = (true, s1) ∧ s' = commit ops s1 (token_nonce tok);
  redeem_token_err S (ops : NonceStore S) keys s s' tok e :
    redeem_token S ops keys s tok = (Err e, s') →
    s' = s ∨
    reserve ops s (token_nonce tok) = (false, s') ∨
    ∃ s1, reserve ops s (token_nonce tok) = (true, s1) ∧ s' = release ops s1 (token_nonce tok);
}.

Abbreviation descriptor_map := (gmap AuthorizationScope ScopeKeyDescriptor).

(** The signed part of a descriptor. *)
Abbreviation DescriptorPayload := (AuthorizationScope * bytes * NodeId * bytes)%type.

Section auth.
Context `{Sha256, Hex, Keys, PrivacyPass}.
Context `{Json AuthorizationScope, Json DescriptorPayload, Json MembershipPayload}.

Definition scope_challenge (s : AuthorizationScope) : result TokenChallenge AnonymousAuthError :=
  scope_validate s ;?
  let? v := ok_or (to_vec s) InvalidScope in
  Ok (token_challenge ISSUER_NAME (hex_encode v)).

Definition challenge_digest (s : AuthorizationScope) : result bytes AnonymousAuthError :=
  let? c := scope_challenge s in ok_or (challenge_digest_of c) InvalidScope.

Definition key_id (public_key_der : bytes) : result bytes AnonymousAuthError :=
  if 1024 <? Z.of_nat (length public_key_der) then Err InvalidEncoding
  else Ok (sha256 public_key_der).

Definition decode_exact {T} (deserialize : bytes → option (T * bytes)) (b : bytes) (maximum : Z) :
    result T AnonymousAuthError :=
  if bool_decide (b = []) || (maximum <? Z.of_nat (length b)) then Err InvalidEncoding
  else
    let? p := ok_or (deserialize b) InvalidEncoding in
    if bool_decide (p.2 = []) then Ok p.1 else Err InvalidEncoding.

(** ** Descriptors *)

Definition descriptor_payload (d : ScopeKeyDescriptor) : result bytes AnonymousAuthError :=
  ok_or (to_vec (sd_scope d, sd_public_key d, sd_governance_issuer d, sd_governance_public_key d))
    InvalidEncoding.

Definition ScopeKeyDescriptor_issue (scope : AuthorizationScope) (public_key_der : bytes)
    (issuer : NodeIdentity) : result ScopeKeyDescriptor AnonymousAuthError :=
  let d := mkScopeKeyDescriptor scope public_key_der (node_id issuer) (public_key issuer) [] in
  let? payload := descriptor_payload d in
  let? s := rmap_err (λ _, VerificationFailed) (identity_sign issuer payload) in
  Ok (mkScopeKeyDescriptor scope public_key_der (node_id issuer) (public_key issuer) s).

Definition ScopeKeyDescriptor_verify (d : ScopeKeyDescriptor) (trusted : gset NodeId) :
    result bool AnonymousAuthError :=
  if bool_decide (sd_governance_issuer d ∈ trusted)
     && bool_decide (NodeId_derive (sd_governance_public_key d) = sd_governance_issuer d)
  then
    let? payload := descriptor_payload d in
    rmap_err (λ _, VerificationFailed) (verify (sd_governance_public_key d) payload (sd_signature d))
  else Ok false.

(** The descriptors that [prune] finds expired, with their keys. *)
Definition expired_at (now : Z) (m : descriptor_map) : list (AuthorizationScope * ScopeKeyDescriptor) :=
  map_to_list (filter (λ kv : AuthorizationScope * ScopeKeyDescriptor, sc_expires_at kv.1 <= now) m).

Definition descriptor_key_id (d : ScopeKeyDescriptor) : option Z :=
  k ← from_spki (sd_public_key d); truncated_key_id k.

(** ** The issuer *)

Record AnonymousIssuer := mkAnonymousIssuer {
  i_policy : CredentialPolicy;
  i_keys : gmap Z PrivateKey;
  i_descriptors : descriptor_map;
  i_issuance : gmap (NodeId * Z) Z;
}.

Definition AnonymousIssuer_new (policy : CredentialPolicy) :
    result AnonymousIssuer AnonymousAuthError :=
  let? policy := policy_validate policy in Ok (mkAnonymousIssuer policy ∅ ∅ ∅).

Definition retain_epochs (epoch : Z) (m : gmap (NodeId * Z) Z) : gmap (NodeId * Z) Z :=
  filter (λ kv : NodeId * Z * Z, epoch <= kv.1.2) m.

Definition issuer_drop (i : AnonymousIssuer) (kd : AuthorizationScope * ScopeKeyDescriptor) :
    AnonymousIssuer :=
  mkAnonymousIssuer (i_policy i)
    (match descriptor_key_id kd.2 with Some id => delete id (i_keys i) | None => i_keys i end)
    (delete kd.1 (i_descriptors i)) (i_issuance i).

Definition issuer_prune (i : AnonymousIssuer) (now : Z) : AnonymousIssuer :=
  let i := foldl issuer_drop i (expired_at now (i_descriptors i)) in
  match policy_epoch (i_policy i) now with
  | Ok (epoch, _) =>
      mkAnonymousIssuer (i_policy i) (i_keys i) (i_descriptors i) (retain_epochs epoch (i_issuance i))
  | Err _ => i
  end.

(** The loop that generates a key whose truncated identifier is free: what the
    attempts yield is an argument. *)
Fixpoint generate_key (attempts : nat → option (PrivateKey * IssuerKey)) (n fuel : nat)
    (keys : gmap Z PrivateKey) : result (option bytes * gmap Z PrivateKey) AnonymousAuthError :=
  match fuel with
  | O => Ok (None, keys)
  | S fuel =>
      let? kp := ok_or (attempts n) VerificationFailed in
      let? der := ok_or (serialize_public_key kp.2) VerificationFailed in
      let? truncated := ok_or (truncated_key_id kp.2) VerificationFailed in
      match keys !! truncated with
      | Some _ => generate_key attempts (S n) fuel keys
      | None => Ok (Some der, <[truncated := kp.1]> keys)
      end
  end.

Definition challenge_of (d : ScopeKeyDescriptor) : AnonymousChallenge :=
  mkAnonymousChallenge (sd_scope d) (sd_public_key d) (sd_governance_issuer d)
    (sd_governance_public_key d) (sd_signature d).

Definition find_descriptor (network_id permission : string) (epoch expires_at : Z)
    (m : descriptor_map) : option ScopeKeyDescriptor :=
  snd <$> head (filter (λ kd : AuthorizationScope * ScopeKeyDescriptor,
    sc_network_id (sd_scope kd.2) = network_id ∧ sc_permission (sd_scope kd.2) = permission ∧
    sc_epoch (sd_scope kd.2) = epoch ∧ sc_expires_at (sd_scope kd.2) = expires_at) (map_to_list m)).

Definition issuer_challenge (attempts : nat → option (PrivateKey * IssuerKey))
    (i : AnonymousIssuer) (governance : NodeIdentity) (network_id permission : string) (now : Z) :
    result AnonymousChallenge AnonymousAuthError * AnonymousIssuer :=
  match validate_public_class network_id permission with
  | Err e => (Err e, i)
  | Ok _ =>
      let i := issuer_prune i now in
      match policy_epoch (i_policy i) now with
      | Err e => (Err e, i)
      | Ok (epoch, expires_at) =>
          match find_descriptor network_id permission epoch expires_at (i_descriptors i) with
          | Some existing => (Ok (challenge_of existing), i)
          | None =>
              if max_active_scope_keys (i_policy i) <=? Z.of_nat (size (i_descriptors i))
              then (Err KeyLimit, i)
              else match generate_key attempts 0 100 (i_keys i) with
                   | Err e => (Err e, i)
                   | Ok (None, _) => (Err KeyLimit, i)
                   | Ok (Some der, keys) =>
                       let i := mkAnonymousIssuer (i_policy i) keys (i_descriptors i) (i_issuance i) in
                       let scope := mkAuthorizationScope PROTOCOL_VERSION network_id permission
                                      epoch expires_at (sha256 der) in
                       match scope_validate scope ;? ScopeKeyDescriptor_issue scope der governance with
                       | Err e => (Err e, i)
                       | Ok d =>
                           (Ok (challenge_of d),
                            mkAnonymousIssuer (i_policy i) (i_keys i)
                              (<[scope := d]> (i_descriptors i)) (i_issuance i))
                       end
                   end
          end
      end
  end.

(** The checks of [issue] up to the counter; they return the epoch and the
    truncated key identifier. *)
Definition check_issue (i : AnonymousIssuer) (m : Membership) (trusted revoked : gset NodeId)
    (r : BlindCredentialRequest) (now : Z) : result (Z * Z) AnonymousAuthError :=
  let scope := br_scope r in
  scope_validate scope ;?
  fail_if (bool_decide (ms_member m ∈ revoked)) Revoked ;?
  let? valid := rmap_err (λ _, UnauthorizedMembership) (Membership_verify m trusted now) in
  fail_if (negb valid || bool_decide (ms_network_id m ≠ sc_network_id scope)
           || bool_decide (sc_permission scope ∉ ms_permissions m)) UnauthorizedMembership ;?
  let? ee := policy_epoch (i_policy i) now in
  fail_if (negb (sc_epoch scope =? ee.1) || negb (sc_expires_at scope =? ee.2)) InvalidScope ;?
  fail_if (MAX_REQUEST_BYTES <? Z.of_nat (length (br_request r))) InvalidEncoding ;?
  let? d := ok_or (i_descriptors i !! scope) InvalidScope in
  let? kid := key_id (sd_public_key d) in
  fail_if (bool_decide (kid ≠ sc_issuer_key_id scope)) InvalidScope ;?
  fail_if (negb (Z.of_nat (length (br_request r)) =? PUBLIC_REQUEST_BYTES)
           || negb (be_val (slice 0 2 (br_request r)) =? token_type_public)) InvalidEncoding ;?
  let? pk := ok_or (from_spki (sd_public_key d)) InvalidEncoding in
  let? truncated := ok_or (truncated_key_id pk) InvalidEncoding in
  fail_if (negb (byte_to_Z (byte_at 2 (br_request r)) =? truncated)) InvalidScope ;?
  Ok (ee.1, truncated).

Definition issuer_issue (i : AnonymousIssuer) (m : Membership) (trusted revoked : gset NodeId)
    (r : BlindCredentialRequest) (now : Z) :
    result BlindCredentialResponse AnonymousAuthError * AnonymousIssuer :=
  match check_issue i m trusted revoked r now with
  | Err e => (Err e, i)
  | Ok (epoch, truncated) =>
      let issuance := retain_epochs epoch (i_issuance i) in
      let count := default 0 (issuance !! (ms_member m, epoch)) in
      let set n := mkAnonymousIssuer (i_policy i) (i_keys i) (i_descriptors i)
                     (<[(ms_member m, epoch) := n]> issuance) in
      if max_issues_per_member_epoch (i_policy i) <=? count then (Err IssuanceLimit, set count)
      else
        (let? key := ok_or (i_keys i !! truncated) InvalidScope in
         let? out := ok_or (private_decrypt key (drop 3 (br_request r))) VerificationFailed in
         if negb (out.2 =? PUBLIC_RESPONSE_BYTES) then Err VerificationFailed
         else Ok (mkBlindCredentialResponse out.1),
         set (count + 1))
  end.

(** ** The client *)

Record PendingCredential := mkPendingCredential { pc_scope : AuthorizationScope; pc_state : TokenState }.

Definition client_begin (rng : Random) (c : AnonymousChallenge) :
    result (BlindCredentialRequest * PendingCredential) AnonymousAuthError :=
  scope_validate (ch_scope c) ;?
  let? kid := key_id (ch_issuer_public_key c) in
  fail_if (bool_decide (kid ≠ sc_issuer_key_id (ch_scope c))) InvalidScope ;?
  let? pk := ok_or (from_spki (ch_issuer_public_key c)) InvalidEncoding in
  let? tc := scope_challenge (ch_scope c) in
  let? rs := ok_or (token_request_new rng pk tc) VerificationFailed in
  let? request := ok_or (request_serialize rs.1) InvalidEncoding in
  Ok (mkBlindCredentialRequest (ch_scope c) request, mkPendingCredential (ch_scope c) rs.2).

Definition client_finish (p : PendingCredential) (r : BlindCredentialResponse) :
    result AnonymousPresentation AnonymousAuthError :=
  if MAX_RESPONSE_BYTES <? Z.of_nat (length (br_response r)) then Err InvalidEncoding
  else
    let? tr := decode_exact response_deserialize (br_response r) MAX_RESPONSE_BYTES in
    let? token := ok_or (issue_token tr (pc_state p)) VerificationFailed in
    let? b := ok_or (token_serialize token) InvalidEncoding in
    Ok (mkAnonymousPresentation (pc_scope p) b).

(** ** The verifier *)

Record AnonymousVerifier := mkAnonymousVerifier {
  v_policy : CredentialPolicy;
  v_keys : gmap Z (list IssuerKey);
  v_descriptors : descriptor_map;
  v_nonces : BoundedNonceStore;
}.

Definition AnonymousVerifier_new (policy : CredentialPolicy) :
    result AnonymousVerifier AnonymousAuthError :=
  let? policy := policy_validate policy in
  Ok (mkAnonymousVerifier policy ∅ ∅
        (BoundedNonceStore_new (max_nullifiers policy) (epoch_seconds policy))).

(** [MemoryOriginKeyStore]. *)
Definition origin_insert (id : Z) (key : IssuerKey) (keys : gmap Z (list IssuerKey)) :
    gmap Z (list IssuerKey) := <[id := default [] (keys !! id) ++ [key]]> keys.
Definition origin_get (keys : gmap Z (list IssuerKey)) (id : Z) : list IssuerKey :=
  default [] (keys !! id).
Definition remove_exact (id : Z) (expected_der : bytes) (keys : gmap Z (list IssuerKey)) :
    gmap Z (list IssuerKey) :=
  match keys !! id with
  | None => keys
  | Some values =>
      match filter (λ key, serialize_public_key key ≠ Some expected_der) values with
      | [] => delete id keys
      | values => <[id := values]> keys
      end
  end.

Definition verifier_drop (v : AnonymousVerifier) (kd : AuthorizationScope * ScopeKeyDescriptor) :
    AnonymousVerifier :=
  mkAnonymousVerifier (v_policy v)
    (match descriptor_key_id kd.2 with
     | Some id => remove_exact id (sd_public_key kd.2) (v_keys v)
     | None => v_keys v
     end)
    (delete kd.1 (v_descriptors v)) (v_nonces v).

Definition verifier_prune (v : AnonymousVerifier) (now : Z) : AnonymousVerifier :=
  foldl verifier_drop v (expired_at now (v_descriptors v)).

Definition check_descriptor (v : AnonymousVerifier) (d : ScopeKeyDescriptor) (trusted : gset NodeId)
    (now : Z) : result (Z * IssuerKey) AnonymousAuthError :=
  scope_validate (sd_scope d) ;?
  let? expected := ok_or (epoch_expiry (v_policy v) (sc_epoch (sd_scope d))) InvalidScope in
  fail_if (negb (sc_expires_at (sd_scope d) =? expected)) InvalidScope ;?
  fail_if (sc_expires_at (sd_scope d) <=? now) Expired ;?
  let? valid := ScopeKeyDescriptor_verify d trusted in
  fail_if (negb valid) UnauthorizedMembership ;?
  let? kid := key_id (sd_public_key d) in
  fail_if (bool_decide (kid ≠ sc_issuer_key_id (sd_scope d))) InvalidScope ;?
  let? pk := ok_or (from_spki (sd_public_key d)) InvalidEncoding in
  let? truncated := ok_or (truncated_key_id pk) InvalidEncoding in
  Ok (truncated, pk).

Definition add_descriptor (v : AnonymousVerifier) (d : ScopeKeyDescriptor) (trusted : gset NodeId)
    (now : Z) : result unit AnonymousAuthError * AnonymousVerifier :=
  match check_descriptor v d trusted now with
  | Err e => (Err e, v)
  | Ok (truncated, pk) =>
      let v := verifier_prune v now in
      match v_descriptors v !! sd_scope d with
      | Some existing => (if decide (existing = d) then Ok tt else Err InvalidScope, v)
      | None =>
          if max_active_scope_keys (v_policy v) <=? Z.of_nat (size (v_descriptors v))
          then (Err KeyLimit, v)
          else (Ok tt, mkAnonymousVerifier (v_policy v) (origin_insert truncated pk (v_keys v))
                         (<[sd_scope d := d]> (v_descriptors v)) (v_nonces v))
      end
  end.

(** The checks of [redeem] before and after pruning. *)
Definition check_presentation (v : AnonymousVerifier) (p : AnonymousPresentation)
    (expected_network expected_permission : string) (now : Z) : result unit AnonymousAuthError :=
  let scope := pr_scope p in
  scope_validate scope ;?
  fail_if (bool_decide (sc_network_id scope ≠ expected_network)
           || bool_decide (sc_permission scope ≠ expected_permission)) InvalidScope ;?
  let? ee := policy_epoch (v_policy v) now in
  fail_if (negb (sc_epoch scope =? ee.1) || negb (sc_expires_at scope =? ee.2)) Expired.

Definition check_token (v : AnonymousVerifier) (p : AnonymousPresentation) :
    result PublicToken AnonymousAuthError :=
  let scope := pr_scope p in
  fail_if (negb (Z.of_nat (length (pr_token p)) =? PUBLIC_TOKEN_BYTES)) InvalidEncoding ;?
  let? d := ok_or (v_descriptors v !! scope) InvalidScope in
  let? kid := key_id (sd_public_key d) in
  fail_if (bool_decide (kid ≠ sc_issuer_key_id scope)) InvalidScope ;?
  let? token := decode_exact token_deserialize (pr_token p) PUBLIC_TOKEN_BYTES in
  fail_if (bool_decide (token_key_id token ≠ sc_issuer_key_id scope)) InvalidScope ;?
  let? digest := challenge_digest scope in
  fail_if (bool_decide (token_challenge_digest token ≠ digest)) InvalidScope ;?
  Ok token.

(** [redeem] for the caller's [now]; the nonce store reads the wall [clock]. *)
Definition redeem (v : AnonymousVerifier) (p : AnonymousPresentation)
    (expected_network expected_permission : string) (now clock : Z) :
    result unit AnonymousAuthError * AnonymousVerifier :=
  match check_presentation v p expected_network expected_permission now with
  | Err e => (Err e, v)
  | Ok _ =>
      let v := verifier_prune v now in
      match check_token v p with
      | Err e => (Err e, v)
      | Ok token =>
          let '(r, nonces) := redeem_token BoundedNonceStore (bounded_nonces clock)
                                (origin_get (v_keys v)) (v_nonces v) token in
          (rmap_err (λ e, match e with
                          | DoubleSpending => ReplayOrCapacity
                          | OtherRedeemError => VerificationFailed
                          end) r,
           mkAnonymousVerifier (v_policy v) (v_keys v) (v_descriptors v) nonces)
      end
  end.

End auth.

(** ** Nonces *)

(** The nonce stays redeemed at least until [bound]. *)
Definition committed (s : BoundedNonceStore) (nonce : bytes) (bound : Z) : Prop :=
  ∃ expiry, ns_values s !! nonce = Some (Committed, expiry) ∧ bound ≤ expiry.

Definition within_capacity (s : BoundedNonceStore) : Prop :=
  Z.of_nat (size (ns_values s)) ≤ max_entries s.

Lemma retained_lookup (now : Z) (m : nonce_map) n x expiry :
  m !! n = Some (x, expiry) → now < expiry →
  filter (λ kv : bytes * (NonceState * Z), now < kv.2.2) m !! n = Some (x, expiry).
Proof. intros Hm Hx. by apply map_lookup_filter_Some_2. Qed.

Lemma nonce_reserve_committed now s nonce n bound :
  committed s n bound → now < bound →
  committed (nonce_reserve now s nonce).2 n bound ∧ ((nonce_reserve now s nonce).1 = true → nonce ≠ n).
Proof.
  intros (expiry&Hl&Hb) Hnow. unfold nonce_reserve. cbv zeta.
  set (m := filter _ _).
  assert (m !! n = Some (Committed, expiry)) as Hm by (apply retained_lookup; [done|lia]).
  destruct (_ || _) eqn:E; cbn.
  - split; [exists expiry; done|done].
  - breflect. destruct (decide (nonce = n)) as [->|Hne]; [exfalso; naive_solver|].
    split; [|done]. exists expiry. cbn. by rewrite lookup_insert_ne.
Qed.

Lemma nonce_commit_committed s nonce n bound :
  committed s n bound → committed (nonce_commit s nonce) n bound.
Proof.
  intros (expiry&Hl&Hb). unfold nonce_commit. destruct (ns_values s !! nonce) as [[x e]|] eqn:E; [|by exists expiry].
  destruct (decide (nonce = n)) as [->|Hne].
  - exists expiry. cbn. rewrite lookup_insert_eq. split; [congruence|done].
  - exists expiry. cbn. by rewrite lookup_insert_ne.
Qed.

Lemma nonce_release_committed s nonce n bound :
  committed s n bound → committed (nonce_release s nonce) n bound.
Proof.
  intros (expiry&Hl&Hb). unfold nonce_release.
  destruct (ns_values s !! nonce) as [[[] e]|] eqn:E; [|by exists expiry..].
  destruct (decide (nonce = n)) as [->|Hne]; [congruence|].
  exists expiry. cbn. by rewrite lookup_delete_ne.
Qed.

(** A reservation that is committed is kept for the retention period. *)
Lemma nonce_redeemed_committed now s s1 nonce bound :
  nonce_reserve now s nonce = (true, s1) →
  bound ≤ saturating_add now (retention_seconds s) → committed (nonce_commit s1 nonce) nonce bound.
Proof.
  unfold nonce_reserve. cbv zeta. set (m := filter _ _). destruct (_ || _); [done|].
  intros [= <-] Hb. unfold nonce_commit. cbn. rewrite lookup_insert_eq. cbn.
  exists (saturating_add now (retention_seconds s)). split; [|done]. cbn. by rewrite lookup_insert_eq.
Qed.

Lemma nonce_params now s nonce :
  let s1 := (nonce_reserve now s nonce).2 in
  max_entries s1 = max_entries s ∧ retention_seconds s1 = retention_seconds s ∧
  max_entries (nonce_commit s nonce) = max_entries s ∧
  retention_seconds (nonce_commit s nonce) = retention_seconds s ∧
  max_entries (nonce_release s nonce) = max_entries s ∧
  retention_seconds (nonce_release s nonce) = retention_seconds s.
Proof.
  cbv zeta. unfold nonce_reserve, nonce_commit, nonce_release. cbv zeta.
  destruct (_ || _), (ns_values s !! nonce) as [[[] ?]|]; done.
Qed.

Lemma nonce_ops_capacity now s nonce :
  within_capacity s →
  within_capacity (nonce_reserve now s nonce).2 ∧ within_capacity (nonce_commit s nonce) ∧
  within_capacity (nonce_release s nonce).
Proof.
  unfold within_capacity. intros Hs. split_and!.
  - unfold nonce_reserve. cbv zeta. set (m := filter _ _).
    assert (size m ≤ size (ns_values s))%nat as Hm.
    { unfold m. rewrite <- !(size_dom (D := gset bytes)). apply subseteq_size, subseteq_dom, map_filter_subseteq. }
    destruct (_ || _) eqn:E; cbn; [lia|]. breflect. destruct (m !! nonce) eqn:Em; [exfalso; naive_solver|].
    rewrite map_size_insert, Em. cbn. lia.
  - unfold nonce_commit. destruct (ns_values s !! nonce) as [[x e]|] eqn:E; [|done]. cbn.
    rewrite map_size_insert, E. cbn. lia.
  - unfold nonce_release. destruct (ns_values s !! nonce) as [[[] e]|] eqn:E; [|done..]. cbn.
    rewrite map_size_delete, E. cbn. lia.
Qed.

Section facts.
Context `{Sha256, Hex, Keys, PrivacyPassLaws}.
Context `{Json AuthorizationScope, Json DescriptorPayload, Json MembershipPayload}.

(** What a redemption does to the nonce store. *)
Inductive nonce_effect (clock : Z) (nonce : bytes) (s : BoundedNonceStore) : bool → BoundedNonceStore → Prop :=
| effect_none : nonce_effect clock nonce s false s
| effect_refused s1 : nonce_reserve clock s nonce = (false, s1) → nonce_effect clock nonce s false s1
| effect_released s1 :
    nonce_reserve clock s nonce = (true, s1) → nonce_effect clock nonce s false (nonce_release s1 nonce)
| effect_redeemed s1 :
    nonce_reserve clock s nonce = (true, s1) → nonce_effect clock nonce s true (nonce_commit s1 nonce).

Lemma redeem_token_effect clock keys s tok r s' :
  redeem_token BoundedNonceStore (bounded_nonces clock) keys s tok = (r, s') →
  nonce_effect clock (token_nonce tok) s (is_ok r) s'.
Proof.
  intros Hr. destruct r as [[]|e].
  - apply redeem_token_ok in Hr as (s1&Hs1&->). by constructor.
  - apply redeem_token_err in Hr as [->|[Hs|(s1&Hs1&->)]]; by econstructor.
Qed.

Lemma effect_true clock nonce s s' :
  nonce_effect clock nonce s true s' →
  ∃ s1, nonce_reserve clock s nonce = (true, s1) ∧ s' = nonce_commit s1 nonce.
Proof. inversion 1; eauto. Qed.

Lemma effect_committed clock nonce s b s' n bound :
  nonce_effect clock nonce s b s' → committed s n bound → clock < bound →
  committed s' n bound ∧ (b = true → nonce ≠ n).
Proof.
  intros He Hc Hb. destruct He as [|s1 E|s1 E|s1 E]; [done|..];
    destruct (nonce_reserve_committed clock s nonce n bound Hc Hb) as [Hc1 Hne]; rewrite E in *; cbn in *;
    auto using nonce_release_committed, nonce_commit_committed.
Qed.

Lemma effect_capacity clock nonce s b s' :
  nonce_effect clock nonce s b s' → within_capacity s →
  within_capacity s' ∧ max_entries s' = max_entries s ∧ retention_seconds s' = retention_seconds s.
Proof.
  intros He Hs. destruct He as [|s1 E|s1 E|s1 E]; [done|..];
    destruct (nonce_ops_capacity clock s nonce Hs) as (Hc&_&_);
    destruct (nonce_params clock s nonce) as (Hm&Hr&_); rewrite E in *; cbn in *; [done|..];
    destruct (nonce_ops_capacity clock s1 nonce Hc) as (_&Hc1&Hc2);
    destruct (nonce_params clock s1 nonce) as (_&_&?&?&?&?); split_and!; try done; congruence.
Qed.

(** ** Pruning *)

Lemma drop_descriptors l v s :
  v_descriptors (foldl verifier_drop v l) !! s =
    if decide (s ∈ l.*1) then None else v_descriptors v !! s.
Proof.
  revert v. induction l as [|[s' d] l IH]; intros v; cbn [foldl fmap list_fmap fst].
  - by rewrite decide_False by apply not_elem_of_nil.
  - rewrite IH. cbn [v_descriptors verifier_drop fst]. destruct (decide (s ∈ l.*1)) as [Hl|Hl].
    + by rewrite decide_True by by apply elem_of_cons; right.
    + destruct (decide (s = s')) as [->|Hne].
      * rewrite lookup_delete_eq, decide_True by by apply elem_of_cons; left. done.
      * rewrite lookup_delete_ne by done. rewrite decide_False; [done|]. by intros [?|?]%elem_of_cons.
Qed.

Lemma drop_other l v :
  v_policy (foldl verifier_drop v l) = v_policy v ∧ v_nonces (foldl verifier_drop v l) = v_nonces v.
Proof. revert v. induction l as [|kd l IH]; intros v; [done|]. cbn [foldl]. by destruct (IH (verifier_drop v kd)) as [-> ->]. Qed.

Lemma elem_of_expired now (m : descriptor_map) s :
  s ∈ (expired_at now m).*1 ↔ is_Some (m !! s) ∧ sc_expires_at s ≤ now.
Proof.
  unfold expired_at. rewrite list_elem_of_fmap. split.
  - intros ([s' d]&->&Hin). apply elem_of_map_to_list, map_lookup_filter_Some in Hin as [Hl He].
    cbn in *. eauto.
  - intros [[d Hd] He]. exists (s, d). split; [done|].
    apply elem_of_map_to_list, map_lookup_filter_Some. done.
Qed.

(** Pruning keeps exactly the descriptors that are still valid. *)
Lemma prune_descriptors v now s :
  v_descriptors (verifier_prune v now) !! s =
    if decide (sc_expires_at s ≤ now) then None else v_descriptors v !! s.
Proof.
  unfold verifier_prune. rewrite drop_descriptors.
  destruct (decide (s ∈ _)) as [Hin|Hin]; rewrite elem_of_expired in Hin.
  - by rewrite decide_True by apply Hin.
  - case_decide; [|done]. destruct (v_descriptors v !! s) eqn:E; [|done].
    exfalso. apply Hin. split; [by eexists|done].
Qed.

Lemma prune_other v now :
  v_policy (verifier_prune v now) = v_policy v ∧ v_nonces (verifier_prune v now) = v_nonces v.
Proof. apply drop_other. Qed.

(** ** Runs of the verifier *)

Inductive verifier_op :=
| OpAdd (d : ScopeKeyDescriptor) (trusted : gset NodeId) (now : Z)
| OpPrune (now : Z)
| OpRedeem (p : AnonymousPresentation) (network_id permission : string) (now clock : Z).

Definition verifier_step (v : AnonymousVerifier) (op : verifier_op) : AnonymousVerifier :=
  match op with
  | OpAdd d trusted now => (add_descriptor v d trusted now).2
  | OpPrune now => verifier_prune v now
  | OpRedeem p net perm now clock => (redeem v p net perm now clock).2
  end.

Definition verifier_run (v : AnonymousVerifier) (ops : list verifier_op) : AnonymousVerifier :=
  foldl verifier_step v ops.

(** The wall clock of every redemption satisfies [P]. *)
Definition clocks (P : Z → Prop) (ops : list verifier_op) : Prop :=
  Forall (λ op, match op with OpRedeem _ _ _ _ clock => P clock | _ => True end) ops.

Lemma redeem_cases v p net perm now clock r v' :
  redeem v p net perm now clock = (r, v') →
  v_policy v' = v_policy v ∧
  ((is_ok r = false ∧ v_nonces v' = v_nonces v) ∨
   ∃ tok, check_presentation v p net perm now = Ok tt ∧
     check_token (verifier_prune v now) p = Ok tok ∧
     nonce_effect clock (token_nonce tok) (v_nonces v) (is_ok r) (v_nonces v')).
Proof.
  unfold redeem. destruct (check_presentation v p net perm now) as [[]|e] eqn:Ep; [|intros [= <- <-]; auto].
  destruct (prune_other v now) as [Hpol Hn].
  destruct (check_token (verifier_prune v now) p) as [tok|e] eqn:Et; [|intros [= <- <-]; auto].
  destruct (redeem_token _ _ _ _ _) as [r1 nonces] eqn:Er. intros [= <- <-]. cbn. split; [done|].
  right. exists tok. split_and!; [done..|]. apply redeem_token_effect in Er. rewrite Hn in Er.
  by destruct r1.
Qed.

Lemma add_descriptor_other v d trusted now :
  v_policy (add_descriptor v d trusted now).2 = v_policy v ∧
  v_nonces (add_descriptor v d trusted now).2 = v_nonces v.
Proof.
  unfold add_descriptor. destruct (check_descriptor v d trusted now) as [[t pk]|e]; [|done].
  destruct (prune_other v now) as [Hp Hn].
  destruct (v_descriptors (verifier_prune v now) !! sd_scope d); [done|]. by case_match.
Qed.

Lemma step_committed v op nonce bound :
  match op with OpRedeem _ _ _ _ clock => clock < bound | _ => True end →
  committed (v_nonces v) nonce bound → committed (v_nonces (verifier_step v op)) nonce bound.
Proof.
  intros Hclock Hc. destruct op as [d trusted now|now|p net perm now clock]; cbn [verifier_step].
  - by rewrite (proj2 (add_descriptor_other v d trusted now)).
  - by rewrite (proj2 (prune_other v now)).
  - destruct (redeem v p net perm now clock) as [r v'] eqn:Er.
    destruct (redeem_cases _ _ _ _ _ _ _ _ Er) as [_ [[_ Hn]|(tok&_&_&He)]]; cbn [snd]; [by rewrite Hn|].
    by eapply effect_committed.
Qed.

Lemma run_committed v ops nonce bound :
  clocks (λ c, c < bound) ops → committed (v_nonces v) nonce bound →
  committed (v_nonces (verifier_run v ops)) nonce bound.
Proof.
  unfold verifier_run. revert v. induction ops as [|op ops IH]; intros v Hc Hv; [done|].
  apply Forall_cons in Hc as [Hop Hc]. cbn [foldl]. apply IH; [done|]. by apply step_committed.
Qed.

(** ** Invariants of the verifier *)

Definition verifier_inv (v : AnonymousVerifier) : Prop :=
  policy_validate (v_policy v) = Ok (v_policy v) ∧
  retention_seconds (v_nonces v) = epoch_seconds (v_policy v) ∧
  max_entries (v_nonces v) = max_nullifiers (v_policy v) ∧
  within_capacity (v_nonces v) ∧
  Z.of_nat (size (v_descriptors v)) ≤ max_active_scope_keys (v_policy v) ∧
  ∀ s d, v_descriptors v !! s = Some d →
    sd_scope d = s ∧ scope_validate s = Ok tt ∧
    key_id (sd_public_key d) = Ok (sc_issuer_key_id s) ∧
    epoch_expiry (v_policy v) (sc_epoch s) = Some (sc_expires_at s) ∧
    ∃ trusted : gset NodeId, ScopeKeyDescriptor_verify d trusted = Ok true.

Lemma check_descriptor_ok v d trusted now t pk :
  check_descriptor v d trusted now = Ok (t, pk) →
  scope_validate (sd_scope d) = Ok tt ∧
  epoch_expiry (v_policy v) (sc_epoch (sd_scope d)) = Some (sc_expires_at (sd_scope d)) ∧
  now < sc_expires_at (sd_scope d) ∧ ScopeKeyDescriptor_verify d trusted = Ok true ∧
  key_id (sd_public_key d) = Ok (sc_issuer_key_id (sd_scope d)) ∧
  from_spki (sd_public_key d) = Some pk ∧ truncated_key_id pk = Some t.
Proof.
  unfold check_descriptor. intros Hok.
  apply rbind_ok in Hok as ([]&Hv&Hok). apply rbind_ok in Hok as (x&Hx&Hok).
  apply rbind_ok in Hok as ([]&Hxe&Hok). apply rbind_ok in Hok as ([]&Hnow&Hok).
  apply rbind_ok in Hok as (valid&Hver&Hok). apply rbind_ok in Hok as ([]&Hvalid&Hok).
  apply rbind_ok in Hok as (kid&Hkid&Hok). apply rbind_ok in Hok as ([]&Hkeq&Hok).
  apply rbind_ok in Hok as (pk'&Hpk&Hok). apply rbind_ok in Hok as (t'&Ht&Hok).
  injection Hok as <- <-. apply ok_or_ok in Hx, Hpk, Ht. apply fail_if_ok in Hxe, Hnow, Hvalid, Hkeq.
  destruct valid; [|done]. breflect. split_and!; try done; congruence.
Qed.

Lemma new_inv policy v : AnonymousVerifier_new policy = Ok v → 0 ≤ max_nullifiers policy → 
  0 ≤ max_active_scope_keys policy → verifier_inv v.
Proof.
  unfold AnonymousVerifier_new, policy_validate. destruct (_ || _) eqn:E; [done|].
  intros [= <-] Hn Hk. unfold verifier_inv, within_capacity, policy_validate. cbn. rewrite E.
  by split_and!.
Qed.

Lemma prune_inv v now : verifier_inv v → verifier_inv (verifier_prune v now).
Proof.
  intros (Hp&Hr&Hm&Hc&Hs&Hd). destruct (prune_other v now) as [Epol En].
  unfold verifier_inv. rewrite Epol, En. split_and!; try done.
  - assert (size (v_descriptors (verifier_prune v now)) ≤ size (v_descriptors v))%nat; [|lia].
    rewrite <- !(size_dom (D := gset AuthorizationScope)). apply subseteq_size. intros s.
    rewrite !elem_of_dom, prune_descriptors. case_decide; [by intros []|done].
  - intros s d. rewrite prune_descriptors. case_decide; [done|]. apply Hd.
Qed.

Lemma add_inv v d trusted now : verifier_inv v → verifier_inv (add_descriptor v d trusted now).2.
Proof.
  intros Hv. unfold add_descriptor. destruct (check_descriptor v d trusted now) as [[t pk]|e] eqn:Ec; [|done].
  apply check_descriptor_ok in Ec as (Hval&Hx&_&Hver&Hkid&_).
  pose proof (prune_inv v now Hv) as Hv'. pose proof (proj1 (prune_other v now)) as Epol.
  set (v1 := verifier_prune v now) in *. destruct (v_descriptors v1 !! sd_scope d) eqn:El; [done|].
  destruct (Z.leb_spec (max_active_scope_keys (v_policy v1)) (Z.of_nat (size (v_descriptors v1)))); [done|].
  destruct Hv' as (Hp&Hr&Hm&Hc&Hs&Hd). unfold verifier_inv. cbn. split_and!; try done.
  - rewrite map_size_insert, El. cbn. lia.
  - intros s d'. destruct (decide (s = sd_scope d)) as [->|Hne].
    + rewrite lookup_insert_eq. intros [= <-]. rewrite Epol. split_and!; try done. by exists trusted.
    + rewrite lookup_insert_ne by done. apply Hd.
Qed.

Lemma redeem_inv v p net perm now clock :
  verifier_inv v → verifier_inv (redeem v p net perm now clock).2.
Proof.
  intros Hv. pose proof (prune_inv v now Hv) as (Hp&Hr&Hm&Hc&Hs&Hd). unfold redeem.
  destruct (check_presentation v p net perm now); [|done].
  destruct (check_token (verifier_prune v now) p) as [tok|e]; [|done].
  destruct (redeem_token _ _ _ _ _) as [r nonces] eqn:Er. apply redeem_token_effect in Er.
  destruct (effect_capacity _ _ _ _ _ Er Hc) as (?&?&?). unfold verifier_inv. cbn. split_and!; try done; congruence.
Qed.

Lemma run_inv v ops : verifier_inv v → verifier_inv (verifier_run v ops).
Proof.
  unfold verifier_run. revert v. induction ops as [|op ops IH]; intros v Hv; [done|]. apply IH.
  destruct op; cbn [verifier_step]; auto using prune_inv, add_inv, redeem_inv.
Qed.

Lemma run_policy v ops : v_policy (verifier_run v ops) = v_policy v.
Proof.
  unfold verifier_run. revert v. induction ops as [|op ops IH]; intros v; [done|]. cbn [foldl]. rewrite IH.
  destruct op as [d trusted now|now|p net perm now clock]; cbn [verifier_step].
  - apply add_descriptor_other.
  - apply prune_other.
  - destruct (redeem v p net perm now clock) as [r v'] eqn:Er. by apply redeem_cases in Er as [? _].
Qed.

Lemma policy_epoch_ok p now e x :
  policy_epoch p now = Ok (e, x) →
  e = now / epoch_seconds p ∧ x = (e + 1) * epoch_seconds p ∧ x ≤ U64_MAX ∧ epoch_seconds p ≠ 0.
Proof.
  unfold policy_epoch, policy_validate, epoch_expiry. intros Hok. apply rbind_ok in Hok as (p'&Hp&Hok).
  destruct (_ || _) eqn:E; [done|]. breflect. cbv zeta in Hok. apply rbind_ok in Hok as (y&Hy&Hok).
  apply ok_or_ok in Hy. injection Hok as <- <-.
  destruct (checked_add _ 1) as [a|] eqn:Ea; [|done]. cbn in Hy.
  apply checked_add_Some in Ea as [-> _]. apply checked_mul_Some in Hy as [-> ?]. split_and!; try done; lia.
Qed.

Lemma check_presentation_ok v p net perm now :
  check_presentation v p net perm now = Ok tt →
  sc_network_id (pr_scope p) = net ∧ sc_permission (pr_scope p) = perm ∧
  policy_epoch (v_policy v) now = Ok (sc_epoch (pr_scope p), sc_expires_at (pr_scope p)).
Proof.
  unfold check_presentation. intros Hok. apply rbind_ok in Hok as ([]&_&Hok).
  apply rbind_ok in Hok as ([]&Hn&Hok). apply rbind_ok in Hok as ([e x]&He&Hok).
  apply fail_if_ok in Hn, Hok. breflect. cbn in *. subst. split_and!; try done.
Qed.

(** ** Properties of the verifier *)

(** C16: a token is redeemed at most once: after a successful redemption, and any
    sequence of further operations on the verifier, a presentation for the same
    epoch whose token carries the same nonce (in particular the same
    presentation) is not accepted again.  The nonce store reads the wall clock,
    which is assumed not to run backwards and to be in the epoch the caller
    passes. *)
Theorem redeemed_at_most_once policy v0 ops0 p net perm now clock v1 ops p' net' perm' now' clock' v3 tok :
  AnonymousVerifier_new policy = Ok v0 → 0 < epoch_seconds policy → 0 ≤ max_nullifiers policy →
  0 ≤ max_active_scope_keys policy →
  redeem (verifier_run v0 ops0) p net perm now clock = (Ok tt, v1) →
  redeem (verifier_run v1 ops) p' net' perm' now' clock' = (Ok tt, v3) →
  clock / epoch_seconds policy = now / epoch_seconds policy →
  clock' / epoch_seconds policy = now' / epoch_seconds policy →
  clocks (λ c, c ≤ clock') ops → sc_epoch (pr_scope p') = sc_epoch (pr_scope p) →
  check_token (verifier_prune (verifier_run v1 ops) now') p' = Ok tok →
  ∃ tok0, check_token (verifier_prune (verifier_run v0 ops0) now) p = Ok tok0 ∧
    token_nonce tok ≠ token_nonce tok0.
Proof.
  intros Hnew HE Hmn Hmk Hr1 Hr2 Hc1 Hc2 Hclocks Hepoch Htok.
  set (v := verifier_run v0 ops0) in *.
  assert (v_policy v = policy) as Hpol.
  { unfold v. rewrite run_policy. unfold AnonymousVerifier_new, policy_validate in Hnew.
    destruct (_ || _); [done|]. by injection Hnew as <-. }
  assert (verifier_inv v) as (_&Hret&_) by (by eapply run_inv, new_inv).
  destruct (redeem_cases _ _ _ _ _ _ _ _ Hr1) as [Hp1 [[? _]|(tok0&Hcp&Ht0&He1)]]; [done|].
  exists tok0. split; [done|].
  destruct (redeem_cases _ _ _ _ _ _ _ _ Hr2) as [_ [[? _]|(tok'&Hcp'&Ht'&He2)]]; [done|].
  assert (tok' = tok) as -> by congruence.
  apply check_presentation_ok in Hcp as (_&_&Hpe), Hcp' as (_&_&Hpe').
  rewrite run_policy, Hp1, Hpol in Hpe'. rewrite Hpol in Hpe.
  apply policy_epoch_ok in Hpe as (He&Hx&Hmax&_), Hpe' as (He'&_).
  set (E := epoch_seconds policy) in *. set (e := sc_epoch (pr_scope p)) in *.
  set (bound := (e + 1) * E).
  assert (clock' < bound) as Hlt.
  { pose proof (Z.mul_succ_div_gt clock' E HE). unfold bound. replace e with (clock' / E) by congruence. lia. }
  assert (committed (v_nonces v1) (token_nonce tok0) bound) as Hcom.
  { apply effect_true in He1 as (s1&Hs1&->). eapply nonce_redeemed_committed; [done|].
    rewrite Hret, Hpol. fold E. unfold saturating_add.
    pose proof (Z.mul_div_le clock E HE). unfold bound. replace e with (clock / E) in * by congruence.
    fold E in Hmax. lia. }
  assert (clocks (λ c, c < bound) ops) as Hcl.
  { eapply Forall_impl; [exact Hclocks|]. intros []; auto. cbn. lia. }
  apply (run_committed _ ops) in Hcom; [|done].
  destruct (effect_committed _ _ _ _ _ _ _ He2 Hcom Hlt) as [_ Hne]. by apply Hne.
Qed.

(** Every reachable verifier is bounded and holds only authorised keys:
    never more descriptors or nonces than the policy allows, and each descriptor
    was signed by a governance issuer trusted when it was added, is stored under
    its own scope, names the hash of its key and has the expiry of its epoch.  A
    successful redemption is for the expected network and permission, for the
    current epoch, under such a descriptor, with a token bound to that scope. *)
Theorem verifier_authorised policy v0 ops p net perm now clock :
  AnonymousVerifier_new policy = Ok v0 → 0 ≤ max_nullifiers policy →
  0 ≤ max_active_scope_keys policy →
  let v := verifier_run v0 ops in
  verifier_inv v ∧
  ((redeem v p net perm now clock).1 = Ok tt →
   sc_network_id (pr_scope p) = net ∧ sc_permission (pr_scope p) = perm ∧
   sc_epoch (pr_scope p) = now / epoch_seconds (v_policy v) ∧ now < sc_expires_at (pr_scope p) ∧
   ∃ d tok digest, v_descriptors v !! pr_scope p = Some d ∧
     (∃ trusted : gset NodeId, ScopeKeyDescriptor_verify d trusted = Ok true) ∧
     decode_exact token_deserialize (pr_token p) PUBLIC_TOKEN_BYTES = Ok tok ∧
     token_key_id tok = sha256 (sd_public_key d) ∧
     challenge_digest (pr_scope p) = Ok digest ∧ token_challenge_digest tok = digest).
Proof.
  intros Hnew Hmn Hmk v. assert (verifier_inv v) as Hv by (by eapply run_inv, new_inv).
  split; [done|]. intros Hok. destruct (redeem v p net perm now clock) as [r v'] eqn:Er. cbn in Hok. subst r.
  destruct (redeem_cases _ _ _ _ _ _ _ _ Er) as [_ [[? _]|(tok&Hcp&Ht&_)]]; [done|].
  apply check_presentation_ok in Hcp as (Hn&Hperm&Hpe). apply policy_epoch_ok in Hpe as (He&_).
  unfold check_token in Ht. cbv zeta in Ht. apply rbind_ok in Ht as ([]&_&Ht).
  apply rbind_ok in Ht as (d&Hd&Ht). apply ok_or_ok in Hd. rewrite prune_descriptors in Hd.
  case_decide as Hexp; [done|]. apply rbind_ok in Ht as (kid&Hkid&Ht).
  apply rbind_ok in Ht as ([]&_&Ht). apply rbind_ok in Ht as (tok'&Htok&Ht).
  apply rbind_ok in Ht as ([]&Hk&Ht). apply rbind_ok in Ht as (digest&Hdig&Ht).
  apply rbind_ok in Ht as ([]&Heq&Ht). injection Ht as ->. apply fail_if_ok in Hk, Heq. breflect.
  destruct Hv as (_&_&_&_&_&Hds). destruct (Hds _ _ Hd) as (_&_&Hkd&_&Htr).
  unfold key_id in Hkd. destruct (1024 <? _); [done|]. apply Ok_inj in Hkd.
  split_and!; try done; [lia|]. exists d, tok, digest. split_and!; try done. congruence.
Qed.

(** ** Runs of the issuer *)

Inductive issuer_op :=
| IssuerChallenge (attempts : nat → option (PrivateKey * IssuerKey)) (governance : NodeIdentity)
    (network_id permission : string) (now : Z)
| IssuerIssue (m : Membership) (trusted revoked : gset NodeId) (r : BlindCredentialRequest) (now : Z)
| IssuerPrune (now : Z).

Definition op_time (op : issuer_op) : Z :=
  match op with
  | IssuerChallenge _ _ _ _ now | IssuerIssue _ _ _ _ now | IssuerPrune now => now
  end.

(** The state after an operation, and the member and epoch it issued for. *)
Definition issuer_step (i : AnonymousIssuer) (op : issuer_op) : option (NodeId * Z) * AnonymousIssuer :=
  match op with
  | IssuerChallenge attempts g net perm now => (None, (issuer_challenge attempts i g net perm now).2)
  | IssuerIssue m trusted revoked r now =>
      let '(res, i') := issuer_issue i m trusted revoked r now in
      (if is_ok res then Some (ms_member m, sc_epoch (br_scope r)) else None, i')
  | IssuerPrune now => (None, issuer_prune i now)
  end.

Fixpoint issued (i : AnonymousIssuer) (ops : list issuer_op) : list (NodeId * Z) :=
  match ops with
  | [] => []
  | op :: ops => let '(o, i') := issuer_step i op in option_list o ++ issued i' ops
  end.

(** Operations in the order of their times, none before [t]. *)
Fixpoint times_from (t : Z) (ops : list issuer_op) : Prop :=
  match ops with [] => True | op :: ops => t ≤ op_time op ∧ times_from (op_time op) ops end.

Definition issue_count (x : NodeId * Z) (l : list (NodeId * Z)) : Z :=
  Z.of_nat (length (filter (λ y, y = x) l)).

Definition counter (i : AnonymousIssuer) (x : NodeId * Z) : Z := default 0 (i_issuance i !! x).

(** No counter exceeds the limit. *)
Definition counters_ok (i : AnonymousIssuer) : Prop :=
  ∀ x, 0 ≤ counter i x ≤ max_issues_per_member_epoch (i_policy i).

Lemma check_issue_ok i m trusted revoked r now e t :
  check_issue i m trusted revoked r now = Ok (e, t) →
  ms_member m ∉ revoked ∧ Membership_verify m trusted now = Ok true ∧
  ms_network_id m = sc_network_id (br_scope r) ∧ sc_permission (br_scope r) ∈ ms_permissions m ∧
  policy_epoch (i_policy i) now = Ok (sc_epoch (br_scope r), sc_expires_at (br_scope r)) ∧
  e = sc_epoch (br_scope r) ∧ is_Some (i_descriptors i !! br_scope r).
Proof.
  unfold check_issue. cbv zeta. intros Hok. apply rbind_ok in Hok as ([]&_&Hok).
  apply rbind_ok in Hok as ([]&Hrev&Hok). apply rbind_ok in Hok as (valid&Hver&Hok).
  apply rbind_ok in Hok as ([]&Hauth&Hok). apply rbind_ok in Hok as ([e' x]&Hep&Hok).
  apply rbind_ok in Hok as ([]&Hsc&Hok). apply rbind_ok in Hok as ([]&_&Hok).
  apply rbind_ok in Hok as (d&Hd&Hok).
  apply fail_if_ok in Hrev, Hauth, Hsc. apply rmap_err_ok in Hver. apply ok_or_ok in Hd.
  inv_ok. breflect. cbn in *. subst. split_and!; try done.
  destruct (decide (sc_permission (br_scope r) ∈ ms_permissions m)); [done|]. exfalso. auto.
Qed.

Lemma issuer_drop_other l i :
  i_policy (foldl issuer_drop i l) = i_policy i ∧ i_issuance (foldl issuer_drop i l) = i_issuance i.
Proof.
  revert i. induction l as [|kd l IH]; intros i; [done|]. cbn [foldl].
  by destruct (IH (issuer_drop i kd)) as [-> ->].
Qed.

(** How an operation may change the counters: those of the current and later
    epochs stay. *)
Definition keeps_counters (e : Z) (i i' : AnonymousIssuer) : Prop :=
  i_policy i' = i_policy i ∧
  ∀ x, counter i' x = counter i x ∨ (x.2 < e ∧ counter i' x = 0).

Lemma retain_counter (e : Z) (m : gmap (NodeId * Z) Z) (x : NodeId * Z) :
  default 0 (retain_epochs e m !! x) = default 0 (m !! x) ∨
  (x.2 < e ∧ default 0 (retain_epochs e m !! x) = 0).
Proof.
  unfold retain_epochs. destruct (decide (e ≤ x.2)) as [Hle|Hgt].
  - left. destruct (m !! x) as [n|] eqn:E.
    + by rewrite (map_lookup_filter_Some_2 _ _ _ n).
    + rewrite map_lookup_filter_None_2; [done|]. by left.
  - right. split; [lia|]. rewrite map_lookup_filter_None_2; [done|]. right. intros ? _. cbn. lia.
Qed.

Lemma prune_counters i now :
  keeps_counters (now / epoch_seconds (i_policy i)) i (issuer_prune i now).
Proof.
  unfold issuer_prune. cbv zeta. destruct (issuer_drop_other (expired_at now (i_descriptors i)) i) as [Hp Hi].
  set (i1 := foldl issuer_drop i _) in *. rewrite Hp.
  destruct (policy_epoch (i_policy i) now) as [[e x]|] eqn:Ee.
  - apply policy_epoch_ok in Ee as [-> _]. split; [done|]. intros y. unfold counter. cbn. rewrite Hi.
    apply retain_counter.
  - split; [done|]. intros y. left. unfold counter. by rewrite Hi.
Qed.

Lemma challenge_counters attempts i g net perm now :
  keeps_counters (now / epoch_seconds (i_policy i)) i (issuer_challenge attempts i g net perm now).2.
Proof.
  unfold issuer_challenge. pose proof (prune_counters i now) as Hp.
  destruct (validate_public_class net perm); [|split; [done|auto]].
  set (i1 := issuer_prune i now) in *. destruct (policy_epoch (i_policy i1) now) as [[e x]|]; [|done].
  destruct (find_descriptor _ _ _ _ _); [done|]. case_match; [done|].
  destruct (generate_key _ _ _ _) as [[[der|] keys]|]; [|done..]. cbv zeta. by destruct (rbind _ _).
Qed.

Lemma issue_counters i m trusted revoked r now :
  let '(res, i') := issuer_issue i m trusted revoked r now in
  let x0 := (ms_member m, sc_epoch (br_scope r)) in
  (keeps_counters (now / epoch_seconds (i_policy i)) i i' ∧ is_ok res = false) ∨
  (i_policy i' = i_policy i ∧ sc_epoch (br_scope r) = now / epoch_seconds (i_policy i) ∧
   counter i x0 < max_issues_per_member_epoch (i_policy i) ∧ counter i' x0 = counter i x0 + 1 ∧
   ∀ x, x ≠ x0 → counter i' x = counter i x ∨ (x.2 < now / epoch_seconds (i_policy i) ∧ counter i' x = 0)).
Proof.
  unfold issuer_issue. destruct (check_issue i m trusted revoked r now) as [[e t]|err] eqn:Ec.
  2: { left. split; [|done]. split; [done|auto]. }
  apply check_issue_ok in Ec as (_&_&_&_&Hpe&->&_). apply policy_epoch_ok in Hpe as (He&_).
  cbv zeta. set (e := sc_epoch (br_scope r)) in *. set (x0 := (ms_member m, e)).
  pose proof (retain_counter e (i_issuance i)) as Hret.
  assert (default 0 (retain_epochs e (i_issuance i) !! x0) = counter i x0) as Hx0.
  { destruct (Hret x0) as [E|[E _]]; [done|]. cbn in E. lia. }
  rewrite Hx0. rewrite <- He. destruct (Z.leb_spec (max_issues_per_member_epoch (i_policy i)) (counter i x0)).
  - left. split; [|done]. split; [done|]. intros x. unfold counter. cbn.
    destruct (decide (x = x0)) as [->|Hne]; [rewrite lookup_insert_eq; by left|].
    rewrite !lookup_insert_ne by done. apply Hret.
  - right. split_and!; [done..| |].
    + unfold counter at 1. cbn. by rewrite lookup_insert_eq.
    + intros x Hne. unfold counter. cbn. rewrite !lookup_insert_ne by done. apply Hret.
Qed.

Lemma counters_keep e i i' : keeps_counters e i i' → counters_ok i → counters_ok i'.
Proof.
  intros [Hp Hk] Hi x. rewrite Hp. specialize (Hi x).
  destruct (Hk x) as [->|[_ ->]]; lia.
Qed.

Lemma issue_count_cons x o l :
  issue_count x (option_list o ++ l) = (if decide (o = Some x) then 1 else 0) + issue_count x l.
Proof.
  unfold issue_count. rewrite filter_app, length_app.
  destruct o as [y|]; [change (option_list (Some y)) with [y]|done].
  destruct (decide (y = x)) as [->|Hne].
  - rewrite filter_cons_True, decide_True by done. cbn. lia.
  - rewrite filter_cons_False, decide_False by congruence. cbn. lia.
Qed.

(** From a state with sound counters, at most the rest of the allowance is
    issued, and nothing for epochs that are over. *)
Lemma issued_bound i t ops x :
  0 < epoch_seconds (i_policy i) → counters_ok i → times_from t ops →
  issue_count x (issued i ops) ≤
    if decide (t / epoch_seconds (i_policy i) ≤ x.2)
    then max_issues_per_member_epoch (i_policy i) - counter i x else 0.
Proof.
  revert i t. induction ops as [|op ops IH]; intros i t HE Hi Ht; cbn [issued].
  { unfold issue_count. cbn. specialize (Hi x). case_decide; lia. }
  destruct Ht as [Htle Ht]. set (E := epoch_seconds (i_policy i)) in *.
  assert (t / E ≤ op_time op / E) as Hdiv by (apply Z.div_le_mono; lia).
  destruct (issuer_step i op) as [o i'] eqn:Es. rewrite issue_count_cons.
  (** An operation that issues nothing. *)
  assert (keeps_counters (op_time op / E) i i' → o = None →
    (if decide (o = Some x) then 1 else 0) + issue_count x (issued i' ops) ≤
    (if decide (t / E ≤ x.2) then max_issues_per_member_epoch (i_policy i) - counter i x else 0)) as Hquiet.
  { intros Hk ->. specialize (IH i' (op_time op)). pose proof (counters_keep _ _ _ Hk Hi) as Hi'.
    destruct Hk as [Hp Hk]. rewrite Hp in IH. fold E in IH. specialize (IH HE Hi' Ht).
    rewrite decide_False by done. specialize (Hi x). specialize (Hk x).
    repeat case_decide; lia. }
  destruct op as [attempts g net perm now|m trusted revoked r now|now]; cbn [issuer_step op_time] in *.
  - injection Es as <- <-. apply Hquiet; [apply challenge_counters|done].
  - pose proof (issue_counters i m trusted revoked r now) as Hiss.
    destruct (issuer_issue i m trusted revoked r now) as [res i1]. injection Es as <- <-.
    fold E in Hiss. destruct Hiss as [[Hk Hr]|(Hp&He&Hlt&Hcnt&Hother)].
    { rewrite Hr in *. by apply Hquiet. }
    set (x0 := (ms_member m, sc_epoch (br_scope r))) in *.
    assert (counters_ok i1) as Hi1.
    { intros y. rewrite Hp. pose proof (Hi y). pose proof (Hi x0). destruct (decide (y = x0)) as [->|Hne]; [lia|].
      destruct (Hother y Hne) as [->|[_ ->]]; lia. }
    specialize (IH i1 now). rewrite Hp in IH. fold E in IH. specialize (IH HE Hi1 Ht).
    specialize (Hi x). destruct (decide (x = x0)) as [->|Hne].
    + assert (x0.2 = now / E) as Hx0 by done. rewrite decide_True in IH by lia. rewrite (decide_True (P := t / E ≤ _)) by lia.
      destruct (is_ok res); case_decide; lia.
    + rewrite decide_False by (destruct (is_ok res); congruence).
      specialize (Hother x Hne). repeat case_decide; lia.
  - injection Es as <- <-. apply Hquiet; [apply prune_counters|done].
Qed.

(** ** Properties of the issuer *)

(** C38: an issuer signs blindly only for authorised members and within their
    allowance: every successful issuance is for a member that is not revoked,
    whose membership verifies at that time for the network and the permission of
    the requested scope, for the current epoch and a scope the issuer announced;
    and over any run whose times do not decrease, one member obtains at most
    [max_issues_per_member_epoch] signatures per epoch, whatever else happens in
    between. *)
Theorem issuance_authorised_and_bounded policy i0 ops member epoch :
  AnonymousIssuer_new policy = Ok i0 → 0 < epoch_seconds policy →
  0 ≤ max_issues_per_member_epoch policy → times_from 0 ops →
  issue_count (member, epoch) (issued i0 ops) ≤ max_issues_per_member_epoch policy ∧
  ∀ i m (trusted revoked : gset NodeId) r now res i',
    issuer_issue i m trusted revoked r now = (Ok res, i') →
    ms_member m ∉ revoked ∧ Membership_verify m trusted now = Ok true ∧
    ms_network_id m = sc_network_id (br_scope r) ∧
    sc_permission (br_scope r) ∈ ms_permissions m ∧
    policy_epoch (i_policy i) now = Ok (sc_epoch (br_scope r), sc_expires_at (br_scope r)) ∧
    is_Some (i_descriptors i !! br_scope r).
Proof.
  intros Hnew HE Hmax Ht.
  assert (i_policy i0 = policy ∧ i_issuance i0 = ∅) as [Hp Hi0].
  { unfold AnonymousIssuer_new, policy_validate in Hnew. destruct (_ || _); [done|]. by injection Hnew as <-. }
  split.
  - pose proof (issued_bound i0 0 ops (member, epoch)) as Hb. rewrite Hp in Hb.
    assert (∀ x, counter i0 x = 0) as Hz by (intros x; unfold counter; by rewrite Hi0, lookup_empty).
    rewrite Hz in Hb. assert (counters_ok i0) as Hc by (intros x; rewrite Hp, Hz; lia).
    specialize (Hb HE Hc Ht). case_decide; lia.
  - intros i m trusted revoked r now res i' Hiss. unfold issuer_issue in Hiss.
    destruct (check_issue i m trusted revoked r now) as [[e t]|] eqn:Ec; [|done].
    apply check_issue_ok in Ec as (?&?&?&?&?&_&?). done.
Qed.

End facts.

(** ** Samples *)

(** Tokens in the layout of RFC 9578: type, nonce, challenge digest, key
    identifier and an authenticator that this model leaves empty. *)
Module ToyPass.
Import Toy.

Definition toy_token (nonce digest kid : bytes) : bytes :=
  [x00; x02] ++ nonce ++ digest ++ kid ++ zeros 256.

Definition split_exact (n : nat) (b : bytes) : option (bytes * bytes) :=
  if bool_decide (n ≤ length b)%nat then Some (take n b, drop n b) else None.

Definition toy_redeem (S : Type) (ops : NonceStore S) (keys : Z → list bytes) (s : S) (tok : bytes) :
    result unit RedeemTokenError * S :=
  let nonce := slice 2 34 tok in
  let '(free, s1) := reserve ops s nonce in
  if free : bool then
    if existsb (λ k, bool_decide (digest32 k = slice 66 98 tok)) (concat (keys <$> seqZ 0 256))
    then (Ok tt, commit ops s1 nonce) else (Err OtherRedeemError, release ops s1 nonce)
  else (Err DoubleSpending, s1).

Definition toy_privacypass : PrivacyPass := {|
  IssuerKey := bytes; PrivateKey := unit;
  from_spki b := Some b; serialize_public_key k := Some k;
  truncated_key_id k := Some (byte_to_Z (byte_at 0 k));
  private_decrypt _ b := Some (b, Z.of_nat (length b));
  token_type_public := 2;
  TokenChallenge := bytes;
  token_challenge a b := str_bytes (a +:+ b);
  challenge_digest_of c := Some (digest32 c);
  PublicToken := bytes;
  token_deserialize := split_exact 354;
  token_serialize t := Some t;
  token_key_id t := slice 66 98 t;
  token_challenge_digest t := slice 34 66 t;
  token_nonce t := slice 2 34 t;
  Random := bytes; TokenRequest := bytes; TokenResponse := bytes;
  TokenState := bytes;
  token_request_new nonce k c :=
    Some ([x00; x02; byte_at 0 k] ++ zeros 256, toy_token nonce (digest32 c) (digest32 k));
  request_serialize r := Some r;
  response_deserialize := split_exact 256;
  issue_token _ st := Some st;
  redeem_token := toy_redeem;
|}.
#[export] Existing Instance toy_privacypass.

#[export] Instance toy_privacypass_laws : PrivacyPassLaws.
Proof.
  split; cbn.
  - by intros k der [= <-].
  - intros S ops keys s s' tok. unfold toy_redeem. cbv zeta.
    destruct (reserve ops s _) as [[] s1]; [|done]. case_match; [|done]. intros [= <-]. eauto.
  - intros S ops keys s s' tok e. unfold toy_redeem. cbv zeta.
    destruct (reserve ops s _) as [[] s1]; [case_match; [done|]|]; intros [= _ <-]; eauto 10.
Qed.

#[export] Instance scope_json : Json AuthorizationScope := countable_json.
#[export] Instance descriptor_json : Json DescriptorPayload := countable_json.
#[export] Instance membership_json : Json MembershipPayload := countable_json.

End ToyPass.

Module Samples.
Import Toy ToyPass.

Definition policy0 : CredentialPolicy := mkCredentialPolicy 300 2 4 8.
Definition governance0 : NodeIdentity := identity_of ([x07] : Keypair).
Definition member0 : NodeIdentity := identity_of ([x09] : Keypair).
Definition trusted0 : gset NodeId := {[node_id governance0]}.

Definition issuer0 : AnonymousIssuer :=
  match AnonymousIssuer_new policy0 with Ok i => i | Err _ => mkAnonymousIssuer policy0 ∅ ∅ ∅ end.
Definition challenged : result AnonymousChallenge AnonymousAuthError * AnonymousIssuer :=
  issuer_challenge (λ n, Some (tt, [byte_of_Z (Z.of_nat n); x05])) issuer0 governance0 "net" "compute" 1000.
Definition challenge0 : AnonymousChallenge :=
  match challenged.1 with
  | Ok c => c
  | Err _ => mkAnonymousChallenge (mkAuthorizationScope 0 "" "" 0 0 []) [] [] [] []
  end.
Definition membership0 : Membership :=
  match Membership_issue "net" (node_id member0) ["compute"] None governance0 with
  | Ok m => m
  | Err _ => mkMembership "" [] [] [] None [] []
  end.
(** Request a credential, have it signed, and finish it. *)
Definition credential (nonce : bytes) : option (BlindCredentialRequest * AnonymousPresentation) :=
  match client_begin nonce challenge0 with
  | Ok (request, pending) =>
      match (issuer_issue challenged.2 membership0 trusted0 ∅ request 1000).1 with
      | Ok response =>
          match client_finish pending response with Ok p => Some (request, p) | Err _ => None end
      | Err _ => None
      end
  | Err _ => None
  end.
Definition request0 (nonce : bytes) : BlindCredentialRequest :=
  match credential nonce with Some (r, _) => r | None => mkBlindCredentialRequest (ch_scope challenge0) [] end.
Definition presentation0 (nonce : bytes) : AnonymousPresentation :=
  match credential nonce with Some (_, p) => p | None => mkAnonymousPresentation (ch_scope challenge0) [] end.

Definition verifier0 : AnonymousVerifier :=
  match AnonymousVerifier_new policy0 with
  | Ok v => v
  | Err _ => mkAnonymousVerifier policy0 ∅ ∅ (BoundedNonceStore_new 0 0)
  end.
Definition add0 : verifier_op :=
  OpAdd (mkScopeKeyDescriptor (ch_scope challenge0) (ch_issuer_public_key challenge0)
           (ch_governance_issuer challenge0) (ch_governance_public_key challenge0)
           (ch_descriptor_signature challenge0)) trusted0 1000.
Definition redeem0 (v : AnonymousVerifier) (nonce : bytes) (now : Z) :
    result unit AnonymousAuthError * AnonymousVerifier :=
  redeem v (presentation0 nonce) "net" "compute" now now.

Definition nonce1 : bytes := replicate 32 x01.
Definition nonce2 : bytes := replicate 32 x02.
Definition after1 : AnonymousVerifier := (redeem0 (verifier_run verifier0 [add0]) nonce1 1010).2.

(** A credential is issued and redeemed, and refused the second time. *)
Example redeemed_once :
  (redeem0 (verifier_run verifier0 [add0]) nonce1 1010).1 = Ok tt ∧
  (redeem0 after1 nonce1 1020).1 = Err ReplayOrCapacity ∧
  (redeem0 after1 nonce2 1020).1 = Ok tt ∧ (redeem0 after1 nonce2 1200).1 = Err Expired.
Proof. by vm_compute. Qed.

Lemma outcome {A B} (p : A * B) a : p.1 = a → p = (a, p.2).
Proof. destruct p. by intros <-. Qed.

Lemma redeemed_at_most_once_witness :
  ∃ tok0, check_token (verifier_prune (verifier_run verifier0 [add0]) 1010) (presentation0 nonce1) = Ok tok0 ∧
    token_nonce (pr_token (presentation0 nonce2)) ≠ token_nonce tok0.
Proof.
  eapply (redeemed_at_most_once policy0 verifier0 [add0] (presentation0 nonce1) "net" "compute" 1010 1010
    _ [OpPrune 1015] (presentation0 nonce2) "net" "compute" 1020 1020 _ (pr_token (presentation0 nonce2))).
  - reflexivity.
  - vm_compute. reflexivity.
  - vm_compute. discriminate.
  - vm_compute. discriminate.
  - apply outcome. vm_compute. reflexivity.
  - apply outcome. vm_compute. reflexivity.
  - vm_compute. reflexivity.
  - vm_compute. reflexivity.
  - constructor; [exact I|constructor].
  - vm_compute. reflexivity.
  - vm_compute. reflexivity.
Defined.

Lemma verifier_authorised_witness :
  verifier_inv (verifier_run verifier0 [add0]) ∧
  sc_network_id (pr_scope (presentation0 nonce1)) = "net".
Proof.
  destruct (verifier_authorised policy0 verifier0 [add0] (presentation0 nonce1) "net" "compute" 1010 1010)
    as [Hinv Hok]; [reflexivity|vm_compute; discriminate..|].
  split; [exact Hinv|]. apply Hok. vm_compute. reflexivity.
Defined.

Definition ops0 : list issuer_op :=
  [IssuerChallenge (λ n, Some (tt, [byte_of_Z (Z.of_nat n); x05])) governance0 "net" "compute" 1000;
   IssuerIssue membership0 trusted0 ∅ (request0 nonce1) 1000;
   IssuerIssue membership0 trusted0 ∅ (request0 nonce2) 1001;
   IssuerIssue membership0 trusted0 ∅ (request0 nonce1) 1002].

(** The third request in one epoch is refused. *)
Lemma issuance_authorised_and_bounded_witness :
  issue_count (node_id member0, 3) (issued issuer0 ops0) = 2 ∧
  issue_count (node_id member0, 3) (issued issuer0 ops0) ≤ max_issues_per_member_epoch policy0.
Proof.
  split; [vm_compute; reflexivity|].
  apply (issuance_authorised_and_bounded policy0 issuer0 ops0 (node_id member0) 3).
  - reflexivity.
  - vm_compute. reflexivity.
  - vm_compute. discriminate.
  - cbn. lia.
Defined.

End Samples.
