(* ===== verification/Network.v ===== *)
(** Length-delimited RPC frames, the RPC server and LAN discovery
    (crates/peerless-network/src/lib.rs).  A connection is a byte stream in each
    direction; a stream may break after any number of bytes. *)

From S2P Require Import Prelude External Core Protocol.
From Stdlib Require Import Strings.Byte.

Definition MAX_FRAME : Z := 64 * 1024 * 1024.

Inductive NetworkError := NetworkIo | NetworkJson | FrameTooLarge.

#[export] Instance NetworkError_eq_dec : EqDecision NetworkError.
Proof. solve_decision. Defined.

(** ** Streams *)

(** What has been written, and how many bytes can still be written before the
    connection breaks ([None]: it does not). *)
Record Sink := mkSink { sent : bytes; room : option nat }.

Definition write_all (s : Sink) (b : bytes) : result unit NetworkError * Sink :=
  match room s with
  | None => (Ok tt, mkSink (sent s ++ b) None)
  | Some n =>
      if (length b <=? n)%nat then (Ok tt, mkSink (sent s ++ b) (Some (n - length b)%nat))
      else (Err NetworkIo, mkSink (sent s ++ take n b) (Some 0%nat))
  end.

(** [read_exact] of [n] bytes from what is left to read. *)
Definition read_exact (s : bytes) (n : nat) : result (bytes * bytes) NetworkError :=
  if (n <=? length s)%nat then Ok (take n s, drop n s) else Err NetworkIo.

Section network.
Context `{Json SignedEnvelope}.

Definition write_frame (s : Sink) (envelope : SignedEnvelope) : result unit NetworkError * Sink :=
  match to_vec envelope with
  | None => (Err NetworkJson, s)
  | Some b =>
      if MAX_FRAME <? Z.of_nat (length b) then (Err FrameTooLarge, s)
      else
        let '(r, s) := write_all s (be_bytes 4 (Z.of_nat (length b))) in
        match r with
        | Err e => (Err e, s)
        | Ok _ => write_all s b
        end
  end.

(** [read_frame], with what is left of the stream. *)
Definition read_frame (s : bytes) : result (SignedEnvelope * bytes) NetworkError :=
  let? h := read_exact s 4 in
  let size := be_val h.1 in
  if MAX_FRAME <? size then Err FrameTooLarge
  else
    let? b := read_exact h.2 (Z.to_nat size) in
    let? e := ok_or (from_slice b.1) NetworkJson in
    Ok (e, b.2).

(** ** Requests *)

(** One connection of the server: at most one frame is read, and its answer is
    written. *)
Definition serve (handler : SignedEnvelope → SignedEnvelope) (input : bytes) (s : Sink) : Sink :=
  match read_frame input with
  | Ok (message, _) => (write_frame s (handler message)).2
  | Err _ => s
  end.

(** [request] against a server: what was written before the connection broke
    reaches the server, whose answer is read. *)
Definition request (server : bytes → bytes) (s : Sink) (envelope : SignedEnvelope) :
    result SignedEnvelope NetworkError :=
  let '(r, s) := write_frame s envelope in
  match r with
  | Err e => Err e
  | Ok _ => let? p := read_frame (server (sent s)) in Ok p.1
  end.

End network.

(** ** LAN discovery *)

Definition DISCOVERY_PORT : Z := 45781.
Definition DISCOVERY_GROUP : Z * Z * Z * Z := (239, 255, 71, 81).
Definition DATAGRAM_BUFFER : nat := 2048.

Record PeerAnnouncement := mkPeerAnnouncement {
  ann_node : string;
  ann_address : string;
  ann_expires_at : Z;
}.

Section discovery.
Context `{Json PeerAnnouncement}.

(** The datagram [announce] sends, and what [receive] makes of a datagram, of
    which it keeps what fits its buffer. *)
Definition announce (a : PeerAnnouncement) : result bytes NetworkError := ok_or (to_vec a) NetworkJson.

Definition receive (datagram : bytes) : result PeerAnnouncement NetworkError :=
  ok_or (from_slice (take DATAGRAM_BUFFER datagram)) NetworkJson.

End discovery.

(** ** Frames *)

Lemma read_exact_app a b n : length a = n → read_exact (a ++ b) n = Ok (a, b).
Proof.
  intros Hn. unfold read_exact. rewrite length_app, Hn.
  rewrite (proj2 (Nat.leb_le _ _)) by lia. by rewrite take_app_length', drop_app_length' by done.
Qed.

Section frames.
Context `{JsonLaws SignedEnvelope}.

(** The bytes of a frame. *)
Definition frame (b : bytes) : bytes := be_bytes 4 (Z.of_nat (length b)) ++ b.

(** Whether so many bytes can be written. *)
Definition fits (r : option nat) (n : nat) : bool :=
  match r with None => true | Some m => (n <=? m)%nat end.

Lemma length_frame b : length (frame b) = (4 + length b)%nat.
Proof. unfold frame. by rewrite length_app, length_be_bytes. Qed.

(** A frame is written whole, or a proper prefix of it is. *)
Lemma write_frame_spec r e b :
  to_vec e = Some b → Z.of_nat (length b) ≤ MAX_FRAME →
  let '(res, s) := write_frame (mkSink [] r) e in
  if fits r (length (frame b)) then res = Ok tt ∧ sent s = frame b
  else res = Err NetworkIo ∧ ∃ n, (n < length (frame b))%nat ∧ sent s = take n (frame b).
Proof.
  intros He Hb. unfold write_frame. rewrite He, (proj2 (Z.ltb_ge _ _)) by done.
  rewrite length_frame. unfold write_all, fits, frame. destruct r as [m|]; cbn [room sent app]; [|done].
  rewrite length_be_bytes. destruct (Nat.leb_spec 4 m) as [H4|H4]; cbn [room sent].
  - destruct (Nat.leb_spec (length b) (m - 4)); destruct (Nat.leb_spec (4 + length b) m); try lia; [done|].
    split; [done|]. exists m. split; [lia|]. cbn [sent].
    rewrite take_app_ge by (rewrite length_be_bytes; lia). by rewrite length_be_bytes.
  - rewrite (proj2 (Nat.leb_gt _ _)) by lia. split; [done|]. exists m. split; [lia|]. cbn [sent].
    rewrite take_app_le by (rewrite length_be_bytes; lia). done.
Qed.

Lemma read_frame_frame e b rest :
  to_vec e = Some b → Z.of_nat (length b) ≤ MAX_FRAME → read_frame (frame b ++ rest) = Ok (e, rest).
Proof.
  intros He Hb. unfold read_frame, frame. rewrite <- app_assoc.
  rewrite read_exact_app by apply length_be_bytes. cbn [rbind fst snd].
  rewrite be_val_be_bytes by (unfold MAX_FRAME in Hb; cbn; lia).
  rewrite (proj2 (Z.ltb_ge _ _)) by done. rewrite Nat2Z.id, read_exact_app by done. cbn [rbind fst snd].
  by rewrite (json_roundtrip e b He).
Qed.

(** A stream that ends inside a frame is an error. *)
Lemma read_frame_truncated b n :
  Z.of_nat (length b) ≤ MAX_FRAME → (n < length (frame b))%nat →
  read_frame (take n (frame b)) = Err NetworkIo.
Proof.
  intros Hb Hn. rewrite length_frame in Hn. unfold read_frame, frame.
  destruct (Nat.le_gt_cases 4 n) as [H4|H4].
  - rewrite take_app_ge by (rewrite length_be_bytes; lia). rewrite read_exact_app by apply length_be_bytes.
    cbn [rbind fst snd]. rewrite be_val_be_bytes by (unfold MAX_FRAME in Hb; cbn; lia).
    rewrite (proj2 (Z.ltb_ge _ _)) by done. unfold read_exact.
    rewrite length_take, length_be_bytes, Nat2Z.id, (proj2 (Nat.leb_gt _ _)) by lia. done.
  - unfold read_exact. rewrite length_take, length_app, length_be_bytes, (proj2 (Nat.leb_gt _ _)) by lia. done.
Qed.

Lemma read_frame_nil : read_frame [] = Err NetworkIo.
Proof. done. Qed.

(** ** Properties *)

(** A request to an RPC server returns exactly the handler's answer, or the
    error of the first step that fails: the request cannot be encoded, it is
    larger than the frame limit, or one of the two streams breaks before its
    frame is complete (which includes an answer that cannot be sent); and a
    header that announces more than the limit is refused whatever follows. *)
Theorem rpc_exact handler e (client server : option nat) (size : Z) (rest : bytes) :
  request (λ input, sent (serve handler input (mkSink [] server))) (mkSink [] client) e =
    match to_vec e with
    | None => Err NetworkJson
    | Some b =>
        if MAX_FRAME <? Z.of_nat (length b) then Err FrameTooLarge
        else if negb (fits client (length (frame b))) then Err NetworkIo
        else match to_vec (handler e) with
             | Some c =>
                 if (Z.of_nat (length c) <=? MAX_FRAME) && fits server (length (frame c))
                 then Ok (handler e) else Err NetworkIo
             | None => Err NetworkIo
             end
    end ∧
  (MAX_FRAME < size ≤ U32_MAX → read_frame (be_bytes 4 size ++ rest) = Err FrameTooLarge).
Proof.
  split.
  2: { intros Hs. unfold read_frame. rewrite read_exact_app by apply length_be_bytes. cbn [rbind fst snd].
       rewrite be_val_be_bytes by (unfold MAX_FRAME, U32_MAX in Hs; cbn; lia).
       by rewrite (proj2 (Z.ltb_lt _ _)) by lia. }
  unfold request. destruct (to_vec e) as [b|] eqn:He; [|unfold write_frame; by rewrite He].
  destruct (Z.ltb_spec MAX_FRAME (Z.of_nat (length b))) as [Hb|Hb].
  { unfold write_frame. by rewrite He, (proj2 (Z.ltb_lt _ _)). }
  pose proof (write_frame_spec client e b He Hb) as Hw. destruct (write_frame _ e) as [r s].
  destruct (fits client (length (frame b))); cbn [negb]; [|by destruct Hw as [-> _]].
  destruct Hw as [-> ->]. unfold serve.
  rewrite <- (app_nil_r (frame b)), (read_frame_frame e b []) by done.
  destruct (to_vec (handler e)) as [c|] eqn:Hc; [|unfold write_frame; by rewrite Hc].
  destruct (Z.leb_spec (Z.of_nat (length c)) MAX_FRAME) as [Hlc|Hlc]; cbn [andb].
  - pose proof (write_frame_spec server (handler e) c Hc Hlc) as Hw. destruct (write_frame _ (handler e)) as [r' s'].
    cbn [snd]. destruct (fits server (length (frame c))).
    + destruct Hw as [_ ->]. by rewrite <- (app_nil_r (frame c)), (read_frame_frame (handler e) c []).
    + destruct Hw as [_ (n&Hn&->)]. by rewrite read_frame_truncated.
  - unfold write_frame. rewrite Hc, (proj2 (Z.ltb_lt _ _)) by done. done.
Qed.

End frames.

(** ** Samples *)

Module Samples.
Import Toy.

#[export] Instance SignedEnvelope_eq_dec : EqDecision SignedEnvelope.
Proof. solve_decision. Defined.
#[export] Instance SignedEnvelope_countable : Countable SignedEnvelope.
Proof.
  refine (inj_countable'
    (λ e, (env_version e, env_signer e, env_public_key e, env_payload e, env_signature e))
    (λ '(a, b, c, d, f), mkSignedEnvelope a b c d f) _).
  by intros [].
Defined.
#[export] Instance envelope_json : Json SignedEnvelope := countable_json.
#[export] Instance envelope_json_laws : JsonLaws SignedEnvelope := countable_json_laws.

Definition envelope0 (b : byte) : SignedEnvelope := mkSignedEnvelope 1 [b] [] [b; b] [].

(** The answer arrives, unless the connection breaks within it. *)
Lemma rpc_exact_witness :
  let handler e := mkSignedEnvelope 1 [] [] (env_payload e ++ env_payload e) [] in
  let run server := request (λ input, sent (serve handler input (mkSink [] server))) (mkSink [] None)
                      (envelope0 x05) in
  run None = Ok (handler (envelope0 x05)) ∧ run (Some 9%nat) = Err NetworkIo.
Proof.
  intros handler run. unfold run. split.
  - rewrite (proj1 (rpc_exact handler (envelope0 x05) None None 0 [])). vm_compute. reflexivity.
  - rewrite (proj1 (rpc_exact handler (envelope0 x05) None (Some 9%nat) 0 [])). vm_compute. reflexivity.
Defined.

End Samples.
