(* ===== verification/Server.v ===== *)
(** The RPC server of crates/peerless-network/src/lib.rs: binding, the accept
    loop with a thread for every connection, and the socket of LAN discovery.
    Bytes arrive when they do, a read waits for them, and the threads call the
    handler at the same time: a handler is a program of lock sections on the
    state that the threads share, and the sections of all the threads, the
    arrivals and the accept loop interleave freely; a thread that has to wait in
    a write gets no turn until it can go on. *)

From S2P Require Import Prelude External Core Protocol Network.
From Stdlib Require Import Strings.Byte.
#[local] Open Scope result_scope.

(** ** Threads *)

(** A call of the handler: a lock section on the shared state, after which the
    call goes on with what it read there, or the end of the call, where [None]
    is a panic, which ends the thread and closes its stream. *)
Inductive Call (S : Type) :=
| Return (answer : option SignedEnvelope)
| Locked (update : S → S) (next : S → Call S).
Arguments Return {S} _.
Arguments Locked {S} _ _.

(** What the thread of a connection does next. *)
Inductive Stage (S : Type) :=
| Reading
| Handling (call : Call S)
| Writing (answer : SignedEnvelope)
| Finished.
Arguments Reading {S}.
Arguments Handling {S} _.
Arguments Writing {S} _.
Arguments Finished {S}.

(** A connection: the bytes that have arrived, whether its peer has closed or
    lost it, what was written to it, and its thread. *)
Record Conn (S : Type) := mkConn { received : bytes; ended : bool; outbound : Sink; stage : Stage S }.
Arguments mkConn {S} _ _ _ _.
Arguments received {S} _.
Arguments ended {S} _.
Arguments outbound {S} _.
Arguments stage {S} _.

(** The connections in the order they were accepted, and the state that the
    handler shares between the threads. *)
Record Server (S : Type) := mkServer { address : string; conns : list (Conn S); shared : S }.
Arguments mkServer {S} _ _ _.
Arguments address {S} _.
Arguments conns {S} _.
Arguments shared {S} _.

(** The next result of [listener.incoming()], bytes or the end of a peer's
    stream, or a turn of a thread. *)
Inductive Action :=
| Incoming (stream : result Sink NetworkError)
| Arrive (i : nat) (b : bytes)
| End_ (i : nat)
| Turn (i : nat).

(** How many bytes of the stream [read_frame] wants before it returns. *)
Definition wanted (b : bytes) : nat :=
  if (length b <? 4)%nat then 4%nat
  else let size := be_val (take 4 b) in if MAX_FRAME <? size then 4%nat else (4 + Z.to_nat size)%nat.

Section server.
Context `{Json SignedEnvelope} {S : Type}.
Context (handler : SignedEnvelope → Call S).

(** Whether [read_frame] would wait. *)
Definition waits (c : Conn S) : bool := negb (ended c) && (length (received c) <? wanted (received c))%nat.

(** [let Ok(mut stream) = stream else { continue }]. *)
Definition accept (stream : result Sink NetworkError) (s : Server S) : Server S :=
  match stream with
  | Ok sink => mkServer (address s) (conns s ++ [mkConn [] false sink Reading]) (shared s)
  | Err _ => s
  end.

(** Nothing arrives after the end of a stream. *)
Definition arrive (b : bytes) (c : Conn S) : Conn S :=
  if ended c then c else mkConn (received c ++ b) false (outbound c) (stage c).
Definition end_stream (c : Conn S) : Conn S := mkConn (received c) true (outbound c) (stage c).

Definition set_stage (x : Stage S) (c : Conn S) : Conn S := mkConn (received c) (ended c) (outbound c) x.

(** A turn of the thread of a connection. *)
Definition turn (c : Conn S) (st : S) : Conn S * S :=
  match stage c with
  | Reading =>
      if waits c then (c, st)
      else (set_stage match read_frame (received c) with
                      | Ok (message, _) => Handling (handler message)
                      | Err _ => Finished
                      end c, st)
  | Handling (Locked update next) => (set_stage (Handling (next st)) c, update st)
  | Handling (Return (Some a)) => (set_stage (Writing a) c, st)
  | Handling (Return None) => (set_stage Finished c, st)
  | Writing a => (mkConn (received c) (ended c) (write_frame (outbound c) a).2 Finished, st)
  | Finished => (c, st)
  end.

Definition server_step (a : Action) (s : Server S) : Server S :=
  match a with
  | Incoming stream => accept stream s
  | Arrive i b => mkServer (address s) (alter (arrive b) i (conns s)) (shared s)
  | End_ i => mkServer (address s) (alter end_stream i (conns s)) (shared s)
  | Turn i =>
      match conns s !! i with
      | Some c => let '(c, st) := turn c (shared s) in mkServer (address s) (<[i:=c]> (conns s)) st
      | None => s
      end
  end.

Fixpoint server_run (acts : list Action) (s : Server S) : Server S :=
  match acts with [] => s | a :: acts => server_run acts (server_step a s) end.

(** [RpcServer::start_on]; binding and the address of the listener can fail. *)
Definition start_on {listener : Type} (tcp_bind : string → result listener NetworkError)
    (local_addr : listener → result string NetworkError) (bind : string) (st : S) : result (Server S) NetworkError :=
  let? l := tcp_bind bind in
  let? a := local_addr l in
  Ok (mkServer a [] st).

(** [RpcServer::start]. *)
Definition start {listener : Type} (tcp_bind : string → result listener NetworkError)
    (local_addr : listener → result string NetworkError) (st : S) : result (Server S) NetworkError :=
  start_on tcp_bind local_addr "127.0.0.1:0" st.

(** ** Specification *)

(** The streams that were accepted. *)
Definition accepted (acts : list Action) : list Sink :=
  omap (λ a, match a with Incoming (Ok x) => Some x | _ => None end) acts.

(** The lock sections of the calls in the order they happen: the connection,
    and the shared state before and after. *)
Definition section_of (a : Action) (s : Server S) : list (nat * (S * S)) :=
  match a with
  | Turn i =>
      match stage <$> conns s !! i with
      | Some (Handling (Locked update _)) => [(i, (shared s, update (shared s)))]
      | _ => []
      end
  | _ => []
  end.

Fixpoint sections (acts : list Action) (s : Server S) : list (nat * (S * S)) :=
  match acts with
  | [] => []
  | a :: acts => section_of a s ++ sections acts (server_step a s)
  end.

(** The sections of one connection. *)
Definition own (i : nat) (tr : list (nat * (S * S))) : list (S * S) :=
  omap (λ x, if decide (x.1 = i) then Some x.2 else None) tr.

(** Each section starts from the state the one before it left. *)
Fixpoint connects (st : S) (tr : list (nat * (S * S))) (st' : S) : Prop :=
  match tr with
  | [] => st' = st
  | (_, (a, b)) :: tr => a = st ∧ connects b tr st'
  end.

(** A call goes through these sections and is then at [q]. *)
Inductive runs : Call S → list (S * S) → Call S → Prop :=
| runs_nil p : runs p [] p
| runs_locked update next st l q :
    runs (next st) l q → runs (Locked update next) ((st, update st) :: l) q.

(** A call with at most [n] sections, whatever states it finds. *)
Fixpoint bounded (n : nat) (p : Call S) : Prop :=
  match p with
  | Return _ => True
  | Locked _ next => match n with O => False | Datatypes.S n => ∀ st, bounded n (next st) end
  end.

Definition message_of (input : bytes) : option SignedEnvelope :=
  match read_frame input with Ok (m, _) => Some m | Err _ => None end.

(** What the peer of a finished connection has been sent, given the answer. *)
Definition answered (sink : Sink) (answer : option SignedEnvelope) : Sink :=
  match answer with Some a => (write_frame sink a).2 | None => sink end.

(** ** Reading *)

(** Bytes after those a read wants do not change what is read. *)
Lemma message_settled b more : (wanted b ≤ length b)%nat → message_of (b ++ more) = message_of b.
Proof.
  unfold wanted, message_of, read_frame, read_exact. intros Hw.
  destruct (Nat.ltb_spec (length b) 4) as [|H4]; [lia|].
  rewrite !length_app, !(proj2 (Nat.leb_le 4 _)) by lia. cbn [rbind fst snd].
  rewrite take_app_le by lia. destruct (MAX_FRAME <? be_val (take 4 b)); [done|].
  rewrite !length_drop, length_app, !(proj2 (Nat.leb_le _ _)) by lia. cbn [rbind fst snd].
  rewrite drop_app_le by lia. rewrite take_app_le by (rewrite length_drop; lia).
  by destruct (from_slice _).
Qed.

Lemma wanted_settled b more : (wanted b ≤ length b)%nat → wanted (b ++ more) = wanted b.
Proof.
  unfold wanted. intros Hw. destruct (Nat.ltb_spec (length b) 4) as [|H4]; [lia|].
  rewrite length_app, (proj2 (Nat.ltb_ge _ _)) by lia. by rewrite take_app_le by lia.
Qed.

(** ** The interleavings *)

(** What a connection says is settled: it has ended, or enough has arrived. *)
Definition settled (c : Conn S) : Prop := ended c = true ∨ (wanted (received c) ≤ length (received c))%nat.

Lemma waits_settled c : waits c = false → settled c.
Proof. unfold waits, settled. destruct (ended c); [by left|]. cbn. intros ?%Nat.ltb_ge. by right. Qed.

(** Where a connection stands; [sink] is its stream when it was accepted. *)
Definition conn_ok (tr : list (nat * (S * S))) (i : nat) (sink : Sink) (c : Conn S) : Prop :=
  match stage c with
  | Reading => outbound c = sink ∧ own i tr = []
  | Handling p => outbound c = sink ∧ settled c ∧
      ∃ m, message_of (received c) = Some m ∧ runs (handler m) (own i tr) p
  | Writing a => outbound c = sink ∧ settled c ∧
      ∃ m, message_of (received c) = Some m ∧ runs (handler m) (own i tr) (Return (Some a))
  | Finished => settled c ∧
      match message_of (received c) with
      | Some m => ∃ a, runs (handler m) (own i tr) (Return a) ∧ outbound c = answered sink a
      | None => outbound c = sink ∧ own i tr = []
      end
  end.

Record server_inv (st : S) (ins : list Sink) (tr : list (nat * (S * S))) (s : Server S) : Prop := {
  inv_length : length (conns s) = length ins;
  inv_order : connects st tr (shared s);
  inv_known : ∀ x, x ∈ tr → (x.1 < length (conns s))%nat;
  inv_conns : ∀ i c, conns s !! i = Some c → ∃ sink, ins !! i = Some sink ∧ conn_ok tr i sink c;
}.

Lemma own_app i tr tr' : own i (tr ++ tr') = own i tr ++ own i tr'.
Proof. apply omap_app. Qed.

Lemma own_none i tr : (∀ x, x ∈ tr → x.1 ≠ i) → own i tr = [].
Proof.
  intros Hx. unfold own. induction tr as [|x tr IH]; [done|]. cbn. rewrite decide_False by (apply Hx; set_solver).
  apply IH. set_solver.
Qed.

Lemma connects_snoc st tr st1 i b : connects st tr st1 → connects st (tr ++ [(i, (st1, b))]) b.
Proof.
  revert st. induction tr as [|[k [x y]] tr IH]; intros st; cbn; [by intros ->|]. intros [-> Hc]. auto.
Qed.

Lemma runs_snoc p l update next st :
  runs p l (Locked update next) → runs p (l ++ [(st, update st)]) (next st).
Proof.
  intros Hr. remember (Locked update next) as q eqn:Eq. induction Hr as [|u n st' l q Hr IH]; subst; cbn.
  - repeat constructor.
  - constructor. by apply IH.
Qed.

Lemma arrive_ok tr i sink b c : conn_ok tr i sink c → conn_ok tr i sink (arrive b c).
Proof.
  unfold arrive. destruct (ended c) eqn:Ee; [done|].
  assert (settled c → settled (mkConn (received c ++ b) false (outbound c) (stage c)) ∧
    message_of (received c ++ b) = message_of (received c)) as Hs.
  { intros [|Hw]; [congruence|]. split; [|by apply message_settled]. right. cbn.
    rewrite wanted_settled, length_app by done. lia. }
  unfold conn_ok. cbn [stage received outbound]. destruct (stage c); [done|..].
  - intros (->&[Hs' ->]%Hs&Hm). done.
  - intros (->&[Hs' ->]%Hs&Hm). done.
  - intros ([Hs' ->]%Hs&Hm). done.
Qed.

Lemma end_ok tr i sink c : conn_ok tr i sink c → conn_ok tr i sink (end_stream c).
Proof.
  assert (settled (end_stream c)) as Hs by by left. unfold conn_ok.
  cbn [end_stream stage received outbound]. destruct (stage c); naive_solver.
Qed.

(** A section of another connection changes nothing for this one. *)
Lemma conn_ok_other tr i sink c x : x.1 ≠ i → conn_ok tr i sink c → conn_ok (tr ++ [x]) i sink c.
Proof.
  intros Hx. unfold conn_ok. rewrite own_app, (own_none i [x]), app_nil_r; [done|].
  by intros y ->%list_elem_of_singleton.
Qed.

(** A turn, with the section it may have run. *)
Lemma turn_ok tr i sink c st :
  conn_ok tr i sink c →
  let '(c', st') := turn c st in
  conn_ok (tr ++ match stage c with Handling (Locked update _) => [(i, (st, update st))] | _ => [] end) i sink c'.
Proof.
  intros Hok. unfold turn, conn_ok in *. destruct (stage c) as [|[[a|]|update next]|a|] eqn:Hst; rewrite ?app_nil_r.
  - destruct (waits c) eqn:Ew; [by rewrite Hst|]. apply waits_settled in Ew. destruct Hok as [<- Hown].
    unfold message_of. cbn [set_stage stage outbound received].
    destruct (read_frame (received c)) as [[m r]|e]; cbn; rewrite ?Hown; [|done].
    split_and!; [done|done|]. exists m. split; [done|constructor].
  - by destruct Hok as (<-&Hs&m&Hm&Hr); cbn; eauto.
  - destruct Hok as (<-&Hs&m&Hm&Hr). cbn. split; [done|]. rewrite Hm. by exists None.
  - destruct Hok as (<-&Hs&m&Hm&Hr). cbn. split_and!; [done|done|]. exists m. split; [done|].
    rewrite own_app. cbn. rewrite decide_True by done. by apply runs_snoc.
  - destruct Hok as (<-&Hs&m&Hm&Hr). cbn. split; [done|]. rewrite Hm. by exists (Some a).
  - by rewrite Hst.
Qed.

Lemma turn_shared c st :
  (turn c st).2 = match stage c with Handling (Locked update _) => update st | _ => st end.
Proof. unfold turn. by destruct (stage c) as [|[[]|]| |]; try destruct (waits c). Qed.

(** An action on one connection alone. *)
Lemma local_inv st ins tr s i (f : Conn S → Conn S) :
  (∀ sink c, conn_ok tr i sink c → conn_ok tr i sink (f c)) →
  server_inv st ins tr s → server_inv st ins tr (mkServer (address s) (alter f i (conns s)) (shared s)).
Proof.
  intros Hf [Hl Ho Hk Hc]. split; cbn [conns shared].
  - by rewrite length_alter.
  - done.
  - intros x. rewrite length_alter. apply Hk.
  - intros j c Hj. destruct (decide (i = j)) as [<-|Hne].
    + rewrite list_lookup_alter_eq in Hj. apply fmap_Some in Hj as (c0&Hc0&->).
      destruct (Hc i c0 Hc0) as (sk&?&?). eauto.
    + rewrite list_lookup_alter_ne in Hj by done. eauto.
Qed.

Lemma accept_inv st ins tr s stream :
  server_inv st ins tr s →
  server_inv st (ins ++ match stream with Ok x => [x] | Err _ => [] end) tr (accept stream s).
Proof.
  intros [Hl Ho Hk Hc]. destruct stream as [sink|e]; cbn [accept]; [|by rewrite app_nil_r].
  split; cbn [conns shared]; [by rewrite !length_app, Hl|done|..].
  - intros x Hx%Hk. rewrite length_app. cbn. lia.
  - intros i c [Hi|[Hi Hx]]%lookup_app_Some.
    + destruct (Hc i c Hi) as (sk&Hs&Hok). exists sk. split; [by apply lookup_app_l_Some|done].
    + apply list_lookup_singleton_Some in Hx as [Hi0 <-]. assert (i = length ins) as -> by lia.
      exists sink. split; [by rewrite lookup_app_r, Nat.sub_diag|]. split; [done|].
      apply own_none. intros x Hx%Hk. lia.
Qed.

Lemma turn_inv st ins tr s i :
  server_inv st ins tr s → server_inv st ins (tr ++ section_of (Turn i) s) (server_step (Turn i) s).
Proof.
  intros [Hl Ho Hk Hc]. cbn [server_step section_of].
  destruct (conns s !! i) as [c|] eqn:Hi; cbn [fmap option_fmap option_map]; [|by rewrite app_nil_r].
  destruct (Hc i c Hi) as (sk&Hs&Hok). pose proof (turn_ok tr i sk c (shared s) Hok) as Hturn.
  pose proof (turn_shared c (shared s)) as Hsh. destruct (turn c (shared s)) as [c' st']. cbn [snd] in Hsh. subst st'.
  assert (∀ l, (l = [] ∨ ∃ x, l = [(i, x)]) → ∀ j d, conns s !! j = Some d → i ≠ j →
    ∃ sink, ins !! j = Some sink ∧ conn_ok (tr ++ l) j sink d) as Hothers.
  { intros l Hcase j d Hj Hne. destruct (Hc j d Hj) as (sk'&Hs'&Hok'). exists sk'. split; [done|].
    destruct Hcase as [->|[x ->]]; [by rewrite app_nil_r|by apply conn_ok_other]. }
  assert (∀ l st1, (l = [] ∨ ∃ x, l = [(i, x)]) → connects st (tr ++ l) st1 → conn_ok (tr ++ l) i sk c' →
    server_inv st ins (tr ++ l) (mkServer (address s) (<[i:=c']> (conns s)) st1)) as Hbuild.
  { intros l st1 Hcase Hcon Hok'. split; cbn [conns shared]; [by rewrite length_insert|done|..].
    - intros x. rewrite length_insert, elem_of_app. intros [Hx|Hx]; [by apply Hk|].
      destruct Hcase as [->|[y ->]]; [by apply elem_of_nil in Hx|]. apply list_elem_of_singleton in Hx as ->.
      by apply lookup_lt_Some in Hi.
    - intros j d [(<-&<-&_)|[Hne Hj]]%list_lookup_insert_Some; [by exists sk|by eapply Hothers]. }
  destruct (stage c) as [|[o|update next]|a|]; (apply Hbuild; [by eauto| |exact Hturn]).
  all: rewrite ?app_nil_r; try done. by apply connects_snoc.
Qed.

(** The stream an action accepts. *)
Definition stream_of (a : Action) : list Sink :=
  match a with Incoming (Ok x) => [x] | _ => [] end.

Lemma server_step_inv st ins tr s a :
  server_inv st ins tr s →
  server_inv st (ins ++ stream_of a) (tr ++ section_of a s) (server_step a s).
Proof.
  intros Hinv. destruct a as [stream|i b|i|i].
  - cbn [section_of]. rewrite app_nil_r. apply (accept_inv _ _ _ _ stream) in Hinv. by destruct stream.
  - cbn [stream_of section_of]. rewrite !app_nil_r. apply local_inv; [|done]. intros. by apply arrive_ok.
  - cbn [stream_of section_of]. rewrite !app_nil_r. apply local_inv; [|done]. intros. by apply end_ok.
  - cbn [stream_of]. rewrite (app_nil_r ins). by apply turn_inv.
Qed.

Lemma server_run_inv st acts ins tr s :
  server_inv st ins tr s → server_inv st (ins ++ accepted acts) (tr ++ sections acts s) (server_run acts s).
Proof.
  revert ins tr s. induction acts as [|a acts IH]; intros ins tr s Hinv; cbn [server_run sections]; [by rewrite !app_nil_r|].
  assert (accepted (a :: acts) = stream_of a ++ accepted acts) as -> by (by destruct a as [[]| | |]).
  rewrite !app_assoc. apply IH. by apply server_step_inv.
Qed.

Lemma fresh_inv a st : server_inv st [] [] (mkServer a [] st).
Proof. split; cbn; [done|done|by intros x ?%elem_of_nil|done]. Qed.

(** ** Progress *)

Definition is_turn (i : nat) (a : Action) : Prop := match a with Turn j => j = i | _ => False end.
#[local] Instance is_turn_dec i a : Decision (is_turn i a).
Proof. destruct a; cbn; apply _. Defined.
Definition turns_of (i : nat) (acts : list Action) : nat := length (filter (is_turn i) acts).

(** A connection that does not wait needs at most [k] turns, when calls have at
    most [d] sections. *)
Definition needs (d k : nat) (c : Conn S) : Prop :=
  match stage c with
  | Reading => waits c = false ∧ (d + 3 ≤ k)%nat
  | Handling p => ∃ n, bounded n p ∧ (n + 2 ≤ k)%nat
  | Writing _ => (1 ≤ k)%nat
  | Finished => True
  end.

Lemma turn_needs d k c st : (∀ m, bounded d (handler m)) → needs d k c → needs d (k - 1) (turn c st).1.
Proof.
  intros Hd. unfold turn, needs. destruct (stage c) as [|[[a|]|update next]|a|] eqn:Hst.
  - intros [-> Hk]. cbn [fst set_stage stage]. destruct (read_frame _) as [[m r]|]; [|done].
    exists d. split; [apply Hd|lia].
  - intros (n&_&Hk). cbn. lia.
  - done.
  - intros (n&Hb&Hk). cbn [fst set_stage stage]. destruct n as [|n]; [done|]. exists n. split; [apply Hb|lia].
  - done.
  - cbn. by rewrite Hst.
Qed.

Lemma waits_arrive b c : waits c = false → waits (arrive b c) = false.
Proof.
  unfold arrive. destruct (ended c) eqn:Ee; [done|]. unfold waits. rewrite Ee. cbn. intros Hw%Nat.ltb_ge.
  apply Nat.ltb_ge. rewrite wanted_settled, length_app by done. lia.
Qed.

Lemma step_needs d k a s i c :
  (∀ m, bounded d (handler m)) → conns s !! i = Some c → needs d k c →
  ∃ c', conns (server_step a s) !! i = Some c' ∧ needs d (k - turns_of i [a]) c'.
Proof.
  intros Hd Hi Hn. unfold turns_of.
  assert (¬ is_turn i a → k - length (filter (is_turn i) [a]) = k)%nat as Hsame.
  { intros Ha. rewrite filter_cons_False by done. cbn. lia. }
  destruct a as [[sink|e]|j b|j|j]; cbn [server_step accept conns].
  - rewrite Hsame by (cbn; tauto). exists c. split; [by apply lookup_app_l_Some|done].
  - rewrite Hsame by (cbn; tauto). by exists c.
  - rewrite Hsame by (cbn; tauto). destruct (decide (j = i)) as [->|Hne].
    + rewrite list_lookup_alter_eq, Hi. exists (arrive b c). split; [done|]. pose proof (waits_arrive b c) as Hw.
      unfold needs in *. assert (stage (arrive b c) = stage c) as -> by (unfold arrive; by destruct (ended c)).
      destruct (stage c); [|done..]. destruct Hn. auto.
    + rewrite list_lookup_alter_ne by done. by exists c.
  - rewrite Hsame by (cbn; tauto). destruct (decide (j = i)) as [->|Hne].
    + rewrite list_lookup_alter_eq, Hi. exists (end_stream c). split; [done|]. unfold needs in *.
      cbn [end_stream stage]. destruct (stage c); [|done..]. by destruct Hn.
    + rewrite list_lookup_alter_ne by done. by exists c.
  - destruct (decide (j = i)) as [->|Hne].
    + rewrite Hi. pose proof (turn_needs d k c (shared s) Hd Hn) as Ht. destruct (turn c (shared s)) as [c' st'].
      exists c'. split; [apply list_lookup_insert_eq; by apply lookup_lt_Some in Hi|].
      by rewrite filter_cons_True by done.
    + rewrite Hsame by (cbn; tauto). exists c. split; [|done].
      destruct (conns s !! j) as [e|]; [|done]. destruct (turn e (shared s)). cbn [conns]. by rewrite list_lookup_insert_ne.
Qed.

Lemma run_needs d k acts s i c :
  (∀ m, bounded d (handler m)) → conns s !! i = Some c → needs d k c →
  ∃ c', conns (server_run acts s) !! i = Some c' ∧ needs d (k - turns_of i acts) c'.
Proof.
  intros Hd. revert k s c. induction acts as [|a acts IH]; intros k s c Hi Hn; cbn [server_run].
  { exists c. split; [done|]. unfold turns_of. cbn. by rewrite Nat.sub_0_r. }
  destruct (step_needs d k a s i c Hd Hi Hn) as (c1&Hc1&Hn1). destruct (IH _ _ c1 Hc1 Hn1) as (c'&Hc'&Hn').
  exists c'. split; [done|]. replace (k - turns_of i (a :: acts))%nat with (k - turns_of i [a] - turns_of i acts)%nat; [done|].
  assert (turns_of i (a :: acts) = turns_of i [a] + turns_of i acts)%nat as ->
    by (unfold turns_of; by rewrite <-length_app, <-filter_app).
  lia.
Qed.

(** ** Properties *)

(** C24: connections are isolated: whatever the order in which streams are
    accepted or fail to be, bytes arrive, peers go away and the threads run, with
    their calls of the handler under way at the same time: every accepted
    connection has a thread of its own; the shared state changes only by the lock
    sections of the calls, one after the other; a finished connection whose
    peer's bytes hold no frame has run no section and been sent nothing, and
    otherwise exactly one call, of the handler on its own message, has run to its
    end on the sections of this connection, and the peer has been sent the frame
    of the answer of that call, or nothing after a panic; and a connection whose frame
    has arrived, or whose peer is gone, finishes within three turns more than a call
    has sections, whatever the other connections do, also when they wait for
    bytes that never arrive. *)
Theorem connections_isolated addr st acts later d :
  (∀ m, bounded d (handler m)) →
  let s0 := mkServer addr [] st in
  let s := server_run acts s0 in
  let tr := sections acts s0 in
  length (conns s) = length (accepted acts) ∧ connects st tr (shared s) ∧
  (∀ i c, conns s !! i = Some c → stage c = Finished → ∃ sink, accepted acts !! i = Some sink ∧
     match message_of (received c) with
     | Some m => ∃ a, runs (handler m) (own i tr) (Return a) ∧ outbound c = answered sink a
     | None => outbound c = sink ∧ own i tr = []
     end) ∧
  (∀ i c, conns s !! i = Some c → stage c = Reading → waits c = false → (d + 3 ≤ turns_of i later)%nat →
     stage <$> conns (server_run later s) !! i = Some Finished).
Proof.
  intros Hd s0 s tr. destruct (server_run_inv st acts [] [] s0 (fresh_inv addr st)) as [Hl Ho _ Hc].
  cbn [app] in *. split; [done|]. split; [done|]. split.
  - intros i c Hi Hf. destruct (Hc i c Hi) as (sk&Hs&Hok). exists sk. split; [done|].
    unfold conn_ok in Hok. rewrite Hf in Hok. apply Hok.
  - intros i c Hi Hr Hw Ht.
    destruct (run_needs d (d + 3) later s i c Hd Hi) as (c'&->&Hn); [unfold needs; rewrite Hr; auto|].
    cbn. f_equal. unfold needs in Hn. destruct (stage c'); [lia|destruct Hn as (n&_&?); lia|lia|done].
Qed.

End server.

(** ** The socket of LAN discovery *)

(** The options of the socket, the port it is bound to and its groups. *)
Record Datagram := mkDatagram {
  reuse_address : bool;
  reuse_port : bool;
  bound_port : option Z;
  groups : list (Z * Z * Z * Z);
  multicast_loop : bool;
}.

(** [LanDiscovery::bind] on a Unix system; each element of [outcomes] is the
    outcome of one system call, in the order they are made. *)
Definition lan_bind (outcomes : nat → result unit NetworkError) : result Datagram NetworkError :=
  let? _ := outcomes 0%nat in
  let raw := mkDatagram false false None [] false in
  let? _ := outcomes 1%nat in
  let raw := mkDatagram true (reuse_port raw) (bound_port raw) (groups raw) (multicast_loop raw) in
  let? _ := outcomes 2%nat in
  let raw := mkDatagram (reuse_address raw) true (bound_port raw) (groups raw) (multicast_loop raw) in
  let? _ := outcomes 3%nat in
  let raw := mkDatagram (reuse_address raw) (reuse_port raw) (Some DISCOVERY_PORT) (groups raw) (multicast_loop raw) in
  let? _ := outcomes 4%nat in
  let raw := mkDatagram (reuse_address raw) (reuse_port raw) (bound_port raw) (DISCOVERY_GROUP :: groups raw) (multicast_loop raw) in
  let? _ := outcomes 5%nat in
  Ok (mkDatagram (reuse_address raw) (reuse_port raw) (bound_port raw) (groups raw) true).

(** A bound socket gets the datagrams that [announce] sends, and of two
    processes on one host both can bind. *)
Definition hears (d : Datagram) : bool :=
  bool_decide (bound_port d = Some DISCOVERY_PORT ∧ DISCOVERY_GROUP ∈ groups d) && multicast_loop d.

(** Two participants of the network hear each other: what fits a datagram buffer is
    received as it was announced, on every socket that [bind] returned. *)
Theorem announcement_heard `{JsonLaws PeerAnnouncement} outcomes d a b :
  lan_bind outcomes = Ok d → announce a = Ok b → (length b ≤ DATAGRAM_BUFFER)%nat →
  hears d = true ∧ reuse_address d = true ∧ reuse_port d = true ∧ receive b = Ok a.
Proof.
  intros Hd Ha Hb. unfold lan_bind in Hd.
  repeat (match type of Hd with rbind ?x _ = _ => destruct x as [[]|]; cbn [rbind] in Hd; [|done] end).
  injection Hd as <-. split; [by vm_compute|]. split; [done|]. split; [done|].
  unfold announce in Ha. destruct (to_vec a) as [b'|] eqn:E; [|done]. injection Ha as <-.
  unfold receive. by rewrite take_ge, (json_roundtrip a b' E).
Qed.

(** ** Samples *)

Module Samples.
Import Toy Network.Samples.

(** A handler that reads a counter in one section and writes it in another, and
    answers with what it read; updates of two calls can be lost. *)
Definition counting (m : SignedEnvelope) : Call nat :=
  Locked (λ n, n) (λ n, Locked (λ _, Datatypes.S n) (λ _,
    Return (Some (mkSignedEnvelope (Z.of_nat n) (env_signer m) [] (env_payload m) [])))).

Definition input (b : byte) : bytes := default [] (frame <$> to_vec (envelope0 b)).

(** Four connections: two whose calls overlap, one cut short, and one that never
    sends anything; and a failed accept. *)
Definition schedule : list Action :=
  [Incoming (Ok (mkSink [] None)); Incoming (Ok (mkSink [] None)); Turn 0; Arrive 0 (take 3 (input x05)); Turn 0;
   Incoming (Err NetworkIo); Arrive 1 (input x07); Arrive 0 (drop 3 (input x05)); Turn 1; Turn 0; Turn 1; Turn 0;
   Incoming (Ok (mkSink [] None)); Incoming (Ok (mkSink [] None)); Arrive 2 (take 5 (input x09)); End_ 2;
   Turn 0; Turn 1; Turn 3; Turn 2; Turn 0; Turn 1; Turn 0].
Definition server0 : Server nat := mkServer "127.0.0.1:0" [] 0%nat.

Lemma connections_isolated_witness :
  let s := server_run counting schedule server0 in
  own 0 (sections counting schedule server0) = [(0, 0); (0, 1)]%nat ∧
  own 1 (sections counting schedule server0) = [(0, 0); (1, 1)]%nat ∧ shared s = 1%nat ∧
  stage <$> conns s !! 0%nat = Some Finished ∧
  (∃ c sink, conns s !! 2%nat = Some c ∧ outbound c = sink ∧ sink = mkSink [] None) ∧
  stage <$> conns (server_run counting (Arrive 3 (input x0b) :: replicate 6 (Turn 3)) s) !! 3%nat = Some Finished.
Proof.
  intros s. split; [by vm_compute|]. split; [by vm_compute|]. split; [by vm_compute|]. split; [by vm_compute|].
  assert (∀ m, bounded 2 (counting m)) as Hb by done. split.
  - destruct (connections_isolated counting "127.0.0.1:0" 0%nat schedule [] 2 Hb) as (_&_&Hf&_).
    destruct (conns s !! 2%nat) as [c|] eqn:E; [|by vm_compute in E].
    assert (stage c = Finished ∧ message_of (received c) = None) as [Hst Hm].
    { vm_compute in E. injection E as <-. by vm_compute. }
    destruct (Hf 2%nat c E Hst) as (sink&Hs&Ho). rewrite Hm in Ho. exists c, sink. split; [reflexivity|].
    split; [exact (proj1 Ho)|]. vm_compute in Hs. by injection Hs.
  - destruct (connections_isolated counting "127.0.0.1:0" 0%nat (schedule ++ [Arrive 3 (input x0b)])
      (replicate 6 (Turn 3)) 2 Hb) as (_&_&_&Hl).
    refine (Hl 3%nat (mkConn (input x0b) false (mkSink [] None) Reading) _ _ _ _).
    + vm_compute. reflexivity.
    + reflexivity.
    + vm_compute. reflexivity.
    + vm_compute. lia.
Defined.

End Samples.
