(* ===== verification/P2p.v ===== *)
(** The libp2p endpoint (crates/peerless-network/src/p2p.rs): address rules of
    the relay-private mode, the command and event loop, the peer cache and the
    circuit relay.  The swarm is an interface; the loop is a state machine that
    takes one command or one event at a time. *)

From S2P Require Import Prelude External Core Protocol FileSystem Storage.
From Stdlib Require Import Strings.Byte.

Abbreviation PeerId := bytes.

(** The components of a multiaddress the sources look at. *)
Inductive AddrProtocol :=
| Ip4 (a b c d : Z)
| Ip6 (address : Z)
| P2pPeer (peer : PeerId)
| P2pCircuit
| OtherProtocol (text : string).

#[export] Instance AddrProtocol_eq_dec : EqDecision AddrProtocol.
Proof. solve_decision. Defined.

Abbreviation Multiaddr := (list AddrProtocol).

(** ** Addresses *)

Definition has_circuit (address : Multiaddr) : bool :=
  existsb (λ p, bool_decide (p = P2pCircuit)) address.

Fixpoint circuit_relay_loop (preceding : option PeerId) (address : Multiaddr) : option PeerId :=
  match address with
  | [] => None
  | P2pPeer peer :: rest => circuit_relay_loop (Some peer) rest
  | P2pCircuit :: _ => preceding
  | _ :: rest => circuit_relay_loop preceding rest
  end.
Definition circuit_relay (address : Multiaddr) : option PeerId := circuit_relay_loop None address.

(** [Ipv4Addr::is_loopback] is 127.0.0.0/8, [Ipv6Addr::is_loopback] is ::1. *)
Definition is_loopback (address : Multiaddr) : bool :=
  match head address with
  | Some (Ip4 a _ _ _) => a =? 127
  | Some (Ip6 a) => a =? 1
  | _ => false
  end.

Definition terminal_peer (address : Multiaddr) : option PeerId :=
  match last address with Some (P2pPeer peer) => Some peer | _ => None end.

(** ** The swarm *)

Record ConnectionLimits := mkConnectionLimits {
  max_pending_incoming : Z; max_pending_outgoing : Z; max_established_incoming : Z;
  max_established_outgoing : Z; max_established_per_peer : Z; max_established : Z;
}.
Definition bounded_connections : ConnectionLimits := mkConnectionLimits 32 64 128 128 4 256.

(** libp2p: what the loop asks of the swarm.  Requests and queries are
    identified by numbers the swarm hands out. *)
Class Libp2p := {
  Swarm : Type;
  listen_on_ : Swarm → Multiaddr → result unit string * Swarm;
  dial_ : Swarm → Multiaddr → result unit string * Swarm;
  add_peer_address : Swarm → PeerId → Multiaddr → Swarm;
  kad_add_address : Swarm → PeerId → Multiaddr → Swarm;
  send_request : Swarm → PeerId → SignedEnvelope → Z * Swarm;
  send_response : Swarm → Z → SignedEnvelope → Swarm;
  start_providing : Swarm → bytes → result Z string * Swarm;
  get_providers : Swarm → bytes → Z * Swarm;
  gossip_subscribe : Swarm → string → result unit string * Swarm;
  gossip_publish : Swarm → string → bytes → result unit string * Swarm;
}.

(** Request and query identifiers are never handed out twice. *)
Class Libp2pLaws `{Libp2p} := {
  used_requests : Swarm → gset Z;
  used_queries : Swarm → gset Z;
  send_request_fresh s p e :
    (send_request s p e).1 ∉ used_requests s ∧
    used_requests (send_request s p e).2 = {[(send_request s p e).1]} ∪ used_requests s ∧
    used_queries (send_request s p e).2 = used_queries s;
  get_providers_fresh s k :
    (get_providers s k).1 ∉ used_queries s ∧
    used_queries (get_providers s k).2 = {[(get_providers s k).1]} ∪ used_queries s ∧
    used_requests (get_providers s k).2 = used_requests s;
  start_providing_fresh s k :
    used_requests (start_providing s k).2 = used_requests s ∧
    match (start_providing s k).1 with
    | Ok q => q ∉ used_queries s ∧ used_queries (start_providing s k).2 = {[q]} ∪ used_queries s
    | Err _ => used_queries (start_providing s k).2 = used_queries s
    end;
  swarm_keeps_used s s' :
    (∃ a, s' = (listen_on_ s a).2) ∨ (∃ a, s' = (dial_ s a).2) ∨
    (∃ p a, s' = add_peer_address s p a) ∨ (∃ p a, s' = kad_add_address s p a) ∨
    (∃ c e, s' = send_response s c e) ∨ (∃ t, s' = (gossip_subscribe s t).2) ∨
    (∃ t b, s' = (gossip_publish s t b).2) →
    used_requests s' = used_requests s ∧ used_queries s' = used_queries s;
}.

(** ** Commands and events *)

(** A reply channel is named by a number; what is sent on it is one of these. *)
Inductive Reply :=
| ReplyUnit (r : result unit string)
| ReplyEnvelope (r : result SignedEnvelope string)
| ReplyPeers (r : result (gset PeerId) string).

Inductive Command :=
| Shutdown
| Listen (a : Multiaddr) (response : Z)
| Dial (a : Multiaddr) (response : Z)
| AddPeer (p : PeerId) (a : Multiaddr) (response : Z)
| Request (p : PeerId) (e : SignedEnvelope) (response : Z)
| Provide (key : bytes) (response : Z)
| FindProviders (key : bytes) (response : Z)
| Subscribe (topic : string) (response : Z)
| Publish (topic : string) (b : bytes) (response : Z).

Inductive NatStatus := NatPublic | NatPrivate | NatUnknown.

Inductive SwarmEvent :=
| NewListenAddr (a : Multiaddr)
| RpcRequest (p : PeerId) (channel : Z) (request : SignedEnvelope)
| RpcResponse (request_id : Z) (response : SignedEnvelope)
| RpcOutboundFailure (request_id : Z) (error : string)
| FoundProviders (id : Z) (providers : gset PeerId)
| FinishedWithNoAdditionalRecord (id : Z)
| GetProvidersError (id : Z) (error : string)
| StartProvidingResult (id : Z) (r : result unit string)
| GossipMessage (topic : string) (source : PeerId) (data : bytes)
| IdentifyReceived (p : PeerId) (listen_addrs : list Multiaddr)
| ReservationReqAccepted
| CircuitEstablished
| DcutrResult (ok : bool)
| NatStatusChanged (new : NatStatus)
| ListenerError
| ConnectionEstablished
| OutgoingConnectionError (error : string)
| OtherEvent.

Record ConnectivityStats := mkConnectivityStats {
  relay_reservations : Z; relay_circuits : Z; hole_punch_successes : Z; hole_punch_failures : Z;
  listener_failures : Z; connections : Z; outgoing_connection_failures : Z;
  relay_server_reservations : Z; relay_server_denials : Z; nat_public_transitions : Z;
  nat_private_transitions : Z;
}.
Definition stats_default : ConnectivityStats := mkConnectivityStats 0 0 0 0 0 0 0 0 0 0 0.

(** [stats.field += 1] for the fields the loop counts. *)
Inductive Stat :=
| SRelayReservation | SRelayCircuit | SHolePunchSuccess | SHolePunchFailure | SListenerFailure
| SConnection | SOutgoingFailure | SNatPublic | SNatPrivate.
Definition bump (s : Stat) (c : ConnectivityStats) : ConnectivityStats :=
  let '(mkConnectivityStats a b d e f g h i j k l) := c in
  match s with
  | SRelayReservation => mkConnectivityStats (a + 1) b d e f g h i j k l
  | SRelayCircuit => mkConnectivityStats a (b + 1) d e f g h i j k l
  | SHolePunchSuccess => mkConnectivityStats a b (d + 1) e f g h i j k l
  | SHolePunchFailure => mkConnectivityStats a b d (e + 1) f g h i j k l
  | SListenerFailure => mkConnectivityStats a b d e (f + 1) g h i j k l
  | SConnection => mkConnectivityStats a b d e f (g + 1) h i j k l
  | SOutgoingFailure => mkConnectivityStats a b d e f g (h + 1) i j k l
  | SNatPublic => mkConnectivityStats a b d e f g h i j (k + 1) l
  | SNatPrivate => mkConnectivityStats a b d e f g h i j k (l + 1)
  end.

Section p2p.
Context `{Libp2p} (handler : PeerId → SignedEnvelope → SignedEnvelope).

(** ** The loop *)

Record LoopState := mkLoopState {
  swarm : Swarm;
  pending : gmap Z Z;
  provider_queries : gmap Z Z;
  providing_queries : gmap Z Z;
  peers : gmap PeerId (list Multiaddr);
  gossip_messages : list (string * PeerId * bytes);
  listen_addresses : list Multiaddr;
  connectivity : ConnectivityStats;
  connection_errors : list string;
  replies : list (Z * Reply);
}.

Definition set_swarm (s : Swarm) (l : LoopState) : LoopState :=
  mkLoopState s (pending l) (provider_queries l) (providing_queries l) (peers l) (gossip_messages l)
    (listen_addresses l) (connectivity l) (connection_errors l) (replies l).
Definition set_pending (m : gmap Z Z) (l : LoopState) : LoopState :=
  mkLoopState (swarm l) m (provider_queries l) (providing_queries l) (peers l) (gossip_messages l)
    (listen_addresses l) (connectivity l) (connection_errors l) (replies l).
Definition set_provider_queries (m : gmap Z Z) (l : LoopState) : LoopState :=
  mkLoopState (swarm l) (pending l) m (providing_queries l) (peers l) (gossip_messages l)
    (listen_addresses l) (connectivity l) (connection_errors l) (replies l).
Definition set_providing_queries (m : gmap Z Z) (l : LoopState) : LoopState :=
  mkLoopState (swarm l) (pending l) (provider_queries l) m (peers l) (gossip_messages l)
    (listen_addresses l) (connectivity l) (connection_errors l) (replies l).
Definition set_peers (m : gmap PeerId (list Multiaddr)) (l : LoopState) : LoopState :=
  mkLoopState (swarm l) (pending l) (provider_queries l) (providing_queries l) m (gossip_messages l)
    (listen_addresses l) (connectivity l) (connection_errors l) (replies l).
Definition set_gossip (g : list (string * PeerId * bytes)) (l : LoopState) : LoopState :=
  mkLoopState (swarm l) (pending l) (provider_queries l) (providing_queries l) (peers l) g
    (listen_addresses l) (connectivity l) (connection_errors l) (replies l).
Definition set_listen (a : list Multiaddr) (l : LoopState) : LoopState :=
  mkLoopState (swarm l) (pending l) (provider_queries l) (providing_queries l) (peers l)
    (gossip_messages l) a (connectivity l) (connection_errors l) (replies l).
Definition count (s : Stat) (l : LoopState) : LoopState :=
  mkLoopState (swarm l) (pending l) (provider_queries l) (providing_queries l) (peers l)
    (gossip_messages l) (listen_addresses l) (bump s (connectivity l)) (connection_errors l) (replies l).
Definition push_error (e : string) (l : LoopState) : LoopState :=
  mkLoopState (swarm l) (pending l) (provider_queries l) (providing_queries l) (peers l)
    (gossip_messages l) (listen_addresses l) (connectivity l) (connection_errors l ++ [e]) (replies l).
(** [response.send(..)]. *)
Definition send (channel : Z) (r : Reply) (l : LoopState) : LoopState :=
  mkLoopState (swarm l) (pending l) (provider_queries l) (providing_queries l) (peers l)
    (gossip_messages l) (listen_addresses l) (connectivity l) (connection_errors l)
    (replies l ++ [(channel, r)]).

Definition add_to_peers (p : PeerId) (a : Multiaddr) (m : gmap PeerId (list Multiaddr)) :
    gmap PeerId (list Multiaddr) := <[p := default [] (m !! p) ++ [a]]> m.

(** One command; [None] ends the loop. *)
Definition step_command (l : LoopState) (c : Command) : option LoopState :=
  match c with
  | Shutdown => None
  | Listen a response =>
      let '(r, s) := listen_on_ (swarm l) a in Some (send response (ReplyUnit r) (set_swarm s l))
  | Dial a response =>
      let '(r, s) := dial_ (swarm l) a in Some (send response (ReplyUnit r) (set_swarm s l))
  | AddPeer p a response =>
      let s := kad_add_address (add_peer_address (swarm l) p a) p a in
      Some (send response (ReplyUnit (Ok tt)) (set_peers (add_to_peers p a (peers l)) (set_swarm s l)))
  | Request p e response =>
      let '(id, s) := send_request (swarm l) p e in
      Some (set_pending (<[id := response]> (pending l)) (set_swarm s l))
  | Provide key response =>
      let '(r, s) := start_providing (swarm l) key in
      match r with
      | Ok query => Some (set_providing_queries (<[query := response]> (providing_queries l)) (set_swarm s l))
      | Err e => Some (send response (ReplyUnit (Err e)) (set_swarm s l))
      end
  | FindProviders key response =>
      let '(query, s) := get_providers (swarm l) key in
      Some (set_provider_queries (<[query := response]> (provider_queries l)) (set_swarm s l))
  | Subscribe topic response =>
      let '(r, s) := gossip_subscribe (swarm l) topic in Some (send response (ReplyUnit r) (set_swarm s l))
  | Publish topic b response =>
      let '(r, s) := gossip_publish (swarm l) topic b in Some (send response (ReplyUnit r) (set_swarm s l))
  end.

(** [if let Some(sender) = map.remove(&id) { sender.send(..) }] for each map. *)
Definition answer_pending (id : Z) (r : result SignedEnvelope string) (l : LoopState) : LoopState :=
  match pending l !! id with
  | Some sender => send sender (ReplyEnvelope r) (set_pending (delete id (pending l)) l)
  | None => l
  end.
Definition answer_providers (id : Z) (r : result (gset PeerId) string) (l : LoopState) : LoopState :=
  match provider_queries l !! id with
  | Some sender => send sender (ReplyPeers r) (set_provider_queries (delete id (provider_queries l)) l)
  | None => l
  end.
Definition answer_providing (id : Z) (r : result unit string) (l : LoopState) : LoopState :=
  match providing_queries l !! id with
  | Some sender => send sender (ReplyUnit r) (set_providing_queries (delete id (providing_queries l)) l)
  | None => l
  end.

Definition step_event (l : LoopState) (e : SwarmEvent) : LoopState :=
  match e with
  | NewListenAddr a => set_listen (listen_addresses l ++ [a]) l
  | RpcRequest p channel request => set_swarm (send_response (swarm l) channel (handler p request)) l
  | RpcResponse id response => answer_pending id (Ok response) l
  | RpcOutboundFailure id error => answer_pending id (Err error) l
  | FoundProviders id providers =>
      if bool_decide (providers ≠ ∅) then answer_providers id (Ok providers) l else l
  | FinishedWithNoAdditionalRecord id => answer_providers id (Ok ∅) l
  | GetProvidersError id error => answer_providers id (Err error) l
  | StartProvidingResult id r => answer_providing id r l
  | GossipMessage topic source data => set_gossip (gossip_messages l ++ [(topic, source, data)]) l
  | IdentifyReceived p addrs => set_swarm (foldl (λ s a, kad_add_address s p a) (swarm l) addrs) l
  | ReservationReqAccepted => count SRelayReservation l
  | CircuitEstablished => count SRelayCircuit l
  | DcutrResult ok => count (if ok : bool then SHolePunchSuccess else SHolePunchFailure) l
  | NatStatusChanged NatPublic => count SNatPublic l
  | NatStatusChanged NatPrivate => count SNatPrivate l
  | NatStatusChanged NatUnknown => l
  | ListenerError => count SListenerFailure l
  | ConnectionEstablished => count SConnection l
  | OutgoingConnectionError error => push_error error (count SOutgoingFailure l)
  | OtherEvent => l
  end.

Inductive loop_input := InCommand (c : Command) | InEvent (e : SwarmEvent).

Definition loop_step (l : LoopState) (i : loop_input) : option LoopState :=
  match i with InCommand c => step_command l c | InEvent e => Some (step_event l e) end.

Fixpoint loop_run (l : LoopState) (inputs : list loop_input) : LoopState :=
  match inputs with
  | [] => l
  | i :: inputs => match loop_step l i with Some l => loop_run l inputs | None => l end
  end.

Definition drain_gossip_messages (l : LoopState) : list (string * PeerId * bytes) * LoopState :=
  (gossip_messages l, set_gossip [] l).

End p2p.

(** ** The endpoint *)

(** Errors are strings: the endpoint's own messages, or those of a library. *)
Inductive P2pError := Refused (message : string) | LibraryError.

(** An endpoint, with the commands it has sent to its loop; every command
    carries a fresh reply channel. *)
Record P2pRpc := mkP2pRpc {
  peer_id : PeerId;
  listen_address : Multiaddr;
  relay_private : bool;
  autonat_enabled : bool;
  privacy_relays : gset PeerId;
  commands : list Command;
  next_response : Z;
}.

(** The optional behaviours of the swarm. *)
Record Toggles := mkToggles { identify : bool; autonat : bool; dcutr : bool }.

(** [self.command.send(..)]: the caller then waits on the reply channel. *)
Definition issue (mk : Z → Command) (rpc : P2pRpc) : result Z P2pError * P2pRpc :=
  (Ok (next_response rpc),
   mkP2pRpc (peer_id rpc) (listen_address rpc) (relay_private rpc) (autonat_enabled rpc)
     (privacy_relays rpc) (commands rpc ++ [mk (next_response rpc)]) (next_response rpc + 1)).

Definition insert_relay (p : PeerId) (rpc : P2pRpc) : P2pRpc :=
  mkP2pRpc (peer_id rpc) (listen_address rpc) (relay_private rpc) (autonat_enabled rpc)
    ({[p]} ∪ privacy_relays rpc) (commands rpc) (next_response rpc).

Definition configured (rpc : P2pRpc) (o : option PeerId) : bool :=
  match o with Some p => bool_decide (p ∈ privacy_relays rpc) | None => false end.

Definition uses_configured_circuit (rpc : P2pRpc) (a : Multiaddr) : bool :=
  configured rpc (circuit_relay a).

Definition listen_on (rpc : P2pRpc) (a : Multiaddr) : result Z P2pError * P2pRpc :=
  if relay_private rpc && negb (uses_configured_circuit rpc a)
  then (Err (Refused "relay-private mode accepts listeners only through configured relays"), rpc)
  else issue (Listen a) rpc.

Definition dial (rpc : P2pRpc) (a : Multiaddr) : result Z P2pError * P2pRpc :=
  let allowed_circuit := configured rpc (circuit_relay a) in
  let allowed_relay := negb (has_circuit a) && configured rpc (terminal_peer a) in
  if relay_private rpc && (negb allowed_circuit && negb allowed_relay)
  then (Err (Refused "relay-private mode rejects direct peer dials"), rpc)
  else issue (Dial a) rpc.

Definition add_peer (rpc : P2pRpc) (p : PeerId) (a : Multiaddr) : result Z P2pError * P2pRpc :=
  if relay_private rpc && negb (uses_configured_circuit rpc a)
  then (Err (Refused "relay-private mode accepts peer addresses only through configured relays"), rpc)
  else issue (AddPeer p a) rpc.

Definition configure_privacy_relay (rpc : P2pRpc) (a : Multiaddr) : result Z P2pError * P2pRpc :=
  if negb (relay_private rpc)
  then (Err (Refused "privacy relay can only be configured in relay-private mode"), rpc)
  else if has_circuit a
  then (Err (Refused "privacy relay address must be a direct relay multiaddr"), rpc)
  else match terminal_peer a with
       | None => (Err (Refused "privacy relay address must end in /p2p/PEER_ID"), rpc)
       | Some p => issue (Dial a) (insert_relay p rpc)
       end.

Definition provide (rpc : P2pRpc) (key : bytes) := issue (Provide key) rpc.
Definition find_providers (rpc : P2pRpc) (key : bytes) := issue (FindProviders key) rpc.
Definition subscribe (rpc : P2pRpc) (topic : string) := issue (Subscribe topic) rpc.
Definition publish (rpc : P2pRpc) (topic : string) (b : bytes) := issue (Publish topic b) rpc.
Definition rpc_request (rpc : P2pRpc) (p : PeerId) (e : SignedEnvelope) := issue (Request p e) rpc.

(** [start_client]: the endpoint exists once the swarm reports its first
    address, [ready]. *)
Definition start_client (ready : option Multiaddr) (id : PeerId) (autonat_enabled relay_private : bool) :
    result (P2pRpc * Toggles) P2pError :=
  match ready with
  | None => Err LibraryError
  | Some a =>
      Ok (mkP2pRpc id a relay_private autonat_enabled ∅ [] 0,
          mkToggles (negb relay_private) (autonat_enabled && negb relay_private) (negb relay_private))
  end.

Definition start_bound (ready : option Multiaddr) (id : PeerId) (listen : Multiaddr) :=
  start_client ready id true false.
Definition start_private (ready : option Multiaddr) (id : PeerId) (listen : Multiaddr) :=
  start_client ready id false false.
Definition start_relay_private_bound (ready : option Multiaddr) (id : PeerId) (listen : Multiaddr) :
    result (P2pRpc * Toggles) P2pError :=
  if negb (is_loopback listen)
  then Err (Refused "relay-private mode requires a loopback-only base listener")
  else start_client ready id false true.

Record PrivacyProfile := mkPrivacyProfile {
  relay_only : bool; mdns_enabled : bool; identify_enabled : bool; pp_autonat_enabled : bool;
  dcutr_enabled : bool; direct_peer_addresses_disclosed : bool; persistent_peer_id_disclosed : bool;
  exact_capability_metrics_disclosed : bool;
}.

Definition privacy_profile (rpc : P2pRpc) : PrivacyProfile :=
  mkPrivacyProfile (relay_private rpc) false (negb (relay_private rpc))
    (autonat_enabled rpc && negb (relay_private rpc)) (negb (relay_private rpc))
    (negb (relay_private rpc)) true false.

(** ** The peer cache *)

Definition MAX_PEER_CACHE_BYTES : Z := 4 * 1024 * 1024.
Definition MAX_PEER_CACHE_ENTRIES : Z := 4096.

(** The textual forms of peer identifiers and addresses. *)
Class AddrText := {
  peer_to_string : PeerId → string;
  peer_parse : string → option PeerId;
  addr_to_string : Multiaddr → string;
  addr_parse : string → option Multiaddr;
  peer_parse_to_string p : peer_parse (peer_to_string p) = Some p;
  addr_parse_to_string a : addr_parse (addr_to_string a) = Some a;
}.

(** The peer table as a list. *)
Abbreviation table := (list (PeerId * list Multiaddr)).
Abbreviation cache_entries := (list (string * string)).

Section cache.
Context `{AddrText, Json (list (string * string))} (pid : N).

Definition parse_peer_cache (b : bytes) : result cache_entries P2pError :=
  let? entries := ok_or (from_slice b) LibraryError in
  if MAX_PEER_CACHE_ENTRIES <? Z.of_nat (length entries) then Err (Refused "peer cache exceeds entry limit")
  else Ok entries.

(** The loading loop: it stops at the first entry it cannot add, which leaves
    the earlier ones added. *)
Fixpoint load_entries (rpc : P2pRpc) (loaded : Z) (entries : cache_entries) : result Z P2pError * P2pRpc :=
  match entries with
  | [] => (Ok loaded, rpc)
  | (p, a) :: entries =>
      match peer_parse p, addr_parse a with
      | Some p, Some a =>
          match add_peer rpc p a with
          | (Ok _, rpc) => load_entries rpc (loaded + 1) entries
          | (Err e, rpc) => (Err e, rpc)
          end
      | _, _ => (Err LibraryError, rpc)
      end
  end.

Definition load_peer_cache (rpc : P2pRpc) (p : path) : io (result Z P2pError * P2pRpc) P2pError :=
  let! present := exists_ p in
  if negb present then iret (Ok 0, rpc)
  else
    ihandle (imap_err (λ _, LibraryError) (read_limited p MAX_PEER_CACHE_BYTES)) (λ r,
      match rbind r parse_peer_cache with
      | Err e => iret (Err e, rpc)
      | Ok entries => iret (load_entries rpc 0 entries)
      end).

(** The entries of the peer table, in the order the hash map yields them. *)
Definition entries_of (order : table → table)
    (m : gmap PeerId (list Multiaddr)) : cache_entries :=
  concat ((λ pa : PeerId * list Multiaddr,
             (λ a, (peer_to_string pa.1, addr_to_string a)) <$> pa.2) <$> order (map_to_list m)).

Definition save_peer_cache (order : table → table)
    (m : gmap PeerId (list Multiaddr)) (p : path) : io unit P2pError :=
  let entries := entries_of order m in
  match parent p with
  | Some dir => imap_err (λ _, LibraryError) (create_dir_all dir)
  | None => iret tt
  end ;!
  if MAX_PEER_CACHE_ENTRIES <? Z.of_nat (length entries)
  then ifail (Refused "peer cache exceeds entry limit")
  else
    let! b := ilift (ok_or (to_vec_pretty entries) LibraryError) in
    if MAX_PEER_CACHE_BYTES <? Z.of_nat (length b) then ifail (Refused "peer cache exceeds size limit")
    else imap_err (λ _, LibraryError) (atomic_replace pid p b (Some 384)).

End cache.

(** ** The circuit relay *)

(** [fetch_add(1)] on an atomic counter. *)
Definition fetch_add1 (n : Z) : Z := (n + 1) mod 2 ^ 64.

Record RelayState := mkRelayState { reservations : Z; circuits : Z; external : list Multiaddr }.

Inductive RelayEvent := RelayListening (a : Multiaddr) | RelayReservation | RelayCircuit | RelayOther.

Definition relay_event (s : RelayState) (e : RelayEvent) : RelayState :=
  match e with
  | RelayListening a => mkRelayState (reservations s) (circuits s) (external s ++ [a])
  | RelayReservation => mkRelayState (fetch_add1 (reservations s)) (circuits s) (external s)
  | RelayCircuit => mkRelayState (reservations s) (fetch_add1 (circuits s)) (external s)
  | RelayOther => s
  end.

(** ** Circuits *)

Lemma circuit_relay_loop_spec prec a r :
  circuit_relay_loop prec a = Some r →
  (prec = Some r ∧ ∃ mid suf, a = mid ++ P2pCircuit :: suf ∧ P2pCircuit ∉ mid ∧ ∀ q, P2pPeer q ∉ mid) ∨
  (∃ pre mid suf, a = pre ++ P2pPeer r :: mid ++ P2pCircuit :: suf ∧ P2pCircuit ∉ pre ∧
     P2pCircuit ∉ mid ∧ ∀ q, P2pPeer q ∉ mid).
Proof.
  assert (∀ prec x a, P2pCircuit ≠ x → (∀ q, P2pPeer q ≠ x) →
    (prec = Some r ∧ ∃ mid suf, a = mid ++ P2pCircuit :: suf ∧ P2pCircuit ∉ mid ∧ ∀ q, P2pPeer q ∉ mid) ∨
    (∃ pre mid suf, a = pre ++ P2pPeer r :: mid ++ P2pCircuit :: suf ∧ P2pCircuit ∉ pre ∧
       P2pCircuit ∉ mid ∧ ∀ q, P2pPeer q ∉ mid) →
    (prec = Some r ∧ ∃ mid suf, x :: a = mid ++ P2pCircuit :: suf ∧ P2pCircuit ∉ mid ∧ ∀ q, P2pPeer q ∉ mid) ∨
    (∃ pre mid suf, x :: a = pre ++ P2pPeer r :: mid ++ P2pCircuit :: suf ∧ P2pCircuit ∉ pre ∧
       P2pCircuit ∉ mid ∧ ∀ q, P2pPeer q ∉ mid)) as Hskip.
  { intros pr x l Hx Hp [(->&mid&suf&->&Hm&Hq)|(pre&mid&suf&->&Hpre&Hm&Hq)].
    - left. split; [done|]. exists (x :: mid), suf. split_and!; [done| |].
      + by intros [?|?]%elem_of_cons.
      + intros q [?|?]%elem_of_cons; [by destruct (Hp q)|by destruct (Hq q)].
    - right. exists (x :: pre), mid, suf. split_and!; try done. by intros [?|?]%elem_of_cons. }
  revert prec. induction a as [|x a IH]; intros prec Ha; [done|].
  destruct x; cbn [circuit_relay_loop] in Ha; [apply Hskip; [done|done|by apply IH]..| | |apply Hskip; [done|done|by apply IH]].
  - apply IH in Ha as [([= ->]&mid&suf&->&Hm&Hq)|(pre&mid&suf&->&Hpre&Hm&Hq)].
    + right. exists [], mid, suf. split_and!; try done. apply not_elem_of_nil.
    + right. exists (P2pPeer peer :: pre), mid, suf. split_and!; try done. by intros [?|?]%elem_of_cons.
  - subst. left. split; [done|]. exists [], a. split_and!; [done|apply not_elem_of_nil|intros q; apply not_elem_of_nil].
Qed.

(** The first circuit of the address goes through a relay of the set: the relay
    is the last peer named before it. *)
Definition through (relays : gset PeerId) (a : Multiaddr) : Prop :=
  ∃ r pre mid suf, r ∈ relays ∧ a = pre ++ P2pPeer r :: mid ++ P2pCircuit :: suf ∧
    P2pCircuit ∉ pre ∧ P2pCircuit ∉ mid ∧ ∀ q, P2pPeer q ∉ mid.

Lemma configured_circuit rpc a : configured rpc (circuit_relay a) = true → through (privacy_relays rpc) a.
Proof.
  unfold configured. destruct (circuit_relay a) as [r|] eqn:Hr; [|done]. intros Hin. breflect.
  destruct (circuit_relay_loop_spec None a r Hr) as [[? _]|(pre&mid&suf&->&?&?&?)]; [done|].
  exists r, pre, mid, suf. done.
Qed.

(** A direct address of a relay of the set. *)
Definition direct_to (relays : gset PeerId) (a : Multiaddr) : Prop :=
  ∃ r pre, r ∈ relays ∧ a = pre ++ [P2pPeer r] ∧ P2pCircuit ∉ a.

Lemma has_circuit_false a : has_circuit a = false → P2pCircuit ∉ a.
Proof.
  unfold has_circuit. intros Hc Hin. apply list_elem_of_In in Hin.
  assert (existsb (λ p, bool_decide (p = P2pCircuit)) a = true); [|congruence].
  apply existsb_exists. exists P2pCircuit. split; [done|by apply bool_decide_eq_true].
Qed.

Lemma terminal_peer_app a r : terminal_peer a = Some r → ∃ pre, a = pre ++ [P2pPeer r].
Proof.
  unfold terminal_peer. destruct (last a) as [x|] eqn:Hl; [|done]. apply last_Some in Hl as [pre ->].
  destruct x; try done. intros [= ->]. by exists pre.
Qed.

(** ** Runs of the interface *)

Inductive api_op :=
| ApiListen (a : Multiaddr)
| ApiDial (a : Multiaddr)
| ApiAddPeer (p : PeerId) (a : Multiaddr)
| ApiConfigure (a : Multiaddr)
| ApiProvide (key : bytes)
| ApiFind (key : bytes)
| ApiSubscribe (topic : string)
| ApiPublish (topic : string) (b : bytes)
| ApiRequest (p : PeerId) (e : SignedEnvelope).

Definition api_step (rpc : P2pRpc) (op : api_op) : P2pRpc :=
  match op with
  | ApiListen a => (listen_on rpc a).2
  | ApiDial a => (dial rpc a).2
  | ApiAddPeer p a => (add_peer rpc p a).2
  | ApiConfigure a => (configure_privacy_relay rpc a).2
  | ApiProvide key => (provide rpc key).2
  | ApiFind key => (find_providers rpc key).2
  | ApiSubscribe topic => (subscribe rpc topic).2
  | ApiPublish topic b => (publish rpc topic b).2
  | ApiRequest p e => (rpc_request rpc p e).2
  end.

Definition api_run (rpc : P2pRpc) (ops : list api_op) : P2pRpc := foldl api_step rpc ops.

(** What a relay-private endpoint may ask of its swarm. *)
Definition confined (relays : gset PeerId) (c : Command) : Prop :=
  match c with
  | Listen a _ | AddPeer _ a _ => through relays a
  | Dial a _ => through relays a ∨ direct_to relays a
  | _ => True
  end.

Lemma confined_mono (r1 r2 : gset PeerId) c : r1 ⊆ r2 → confined r1 c → confined r2 c.
Proof.
  intros Hr. unfold confined, through, direct_to. destruct c; try done.
  all: intros Hc; repeat match goal with H : _ ∨ _ |- _ => destruct H as [H|H] end; destruct_and?.
  all: try (left; done). all: try done.
  - destruct Hc as (r&pre&mid&suf&?&?&?&?&?). exists r, pre, mid, suf. split_and!; auto.
  - left. destruct Hc as (r&pre&mid&suf&?&?&?&?&?). exists r, pre, mid, suf. split_and!; auto.
  - right. destruct Hc as (r&pre&?&?&?). exists r, pre. split_and!; auto.
  - destruct Hc as (r&pre&mid&suf&?&?&?&?&?). exists r, pre, mid, suf. split_and!; auto.
Qed.

(** Relay-private endpoints stay so, and their commands are confined. *)
Definition private_inv (rpc : P2pRpc) : Prop :=
  relay_private rpc = true ∧ ∀ c, c ∈ commands rpc → confined (privacy_relays rpc) c.

Lemma issue_private mk rpc :
  private_inv rpc → confined (privacy_relays rpc) (mk (next_response rpc)) → private_inv (issue mk rpc).2.
Proof.
  intros [Hp Hc] Hm. split; [done|]. cbn. intros c [?|Heq]%elem_of_app; [auto|]. apply list_elem_of_singleton in Heq as ->. done.
Qed.

Lemma api_step_private rpc op : private_inv rpc → private_inv (api_step rpc op).
Proof.
  intros Hinv. pose proof Hinv as [Hp Hc]. destruct op as [a|a|p a|a|k|k|t|t b|p e]; cbn [api_step];
    try (by apply issue_private).
  - unfold listen_on. rewrite Hp. destruct (uses_configured_circuit rpc a) eqn:E; cbn; [|done].
    apply issue_private; [done|]. by apply configured_circuit.
  - unfold dial. rewrite Hp. cbv zeta. cbn [andb].
    destruct (configured rpc (circuit_relay a)) eqn:E; cbn.
    { apply issue_private; [done|]. left. by apply configured_circuit. }
    destruct (has_circuit a) eqn:Eh; cbn; [done|].
    destruct (configured rpc (terminal_peer a)) eqn:Et; cbn; [|done].
    apply issue_private; [done|]. right. unfold configured in Et.
    destruct (terminal_peer a) as [r|] eqn:Er; [|done]. breflect.
    destruct (terminal_peer_app a r Er) as [pre ->]. exists r, pre. split_and!; try done. by apply has_circuit_false.
  - unfold add_peer. rewrite Hp. destruct (uses_configured_circuit rpc a) eqn:E; cbn; [|done].
    apply issue_private; [done|]. by apply configured_circuit.
  - unfold configure_privacy_relay. rewrite Hp. cbn [negb]. destruct (has_circuit a) eqn:Eh; [done|].
    destruct (terminal_peer a) as [r|] eqn:Er; [|done]. apply issue_private.
    + split; [done|]. cbn. intros c Hin. eapply confined_mono; [|by apply Hc]. set_solver.
    + right. destruct (terminal_peer_app a r Er) as [pre ->]. exists r, pre. cbn.
      split_and!; [set_solver|done|by apply has_circuit_false].
Qed.

Lemma api_run_private rpc ops : private_inv rpc → private_inv (api_run rpc ops).
Proof.
  unfold api_run. revert rpc. induction ops as [|op ops IH]; intros rpc Hr; [done|].
  apply IH. by apply api_step_private.
Qed.

(** Relays are only added by configuring them. *)
Lemma api_step_relays rpc op r :
  r ∈ privacy_relays (api_step rpc op) →
  r ∈ privacy_relays rpc ∨
  ∃ a, op = ApiConfigure a ∧ terminal_peer a = Some r ∧ has_circuit a = false.
Proof.
  destruct op; cbn [api_step];
    unfold listen_on, dial, add_peer, configure_privacy_relay, provide, find_providers, subscribe, publish, rpc_request;
    cbv zeta; try (case_match; by left); try (by left).
  destruct (negb _); [by left|]. destruct (has_circuit a) eqn:Eh; [by left|].
  destruct (terminal_peer a) as [p|] eqn:Ep; [|by left]. cbn.
  intros [->%elem_of_singleton|?]%elem_of_union; [right; eauto|by left].
Qed.

Lemma api_run_relays rpc ops r :
  r ∈ privacy_relays (api_run rpc ops) →
  r ∈ privacy_relays rpc ∨
  ∃ a, ApiConfigure a ∈ ops ∧ terminal_peer a = Some r ∧ has_circuit a = false.
Proof.
  unfold api_run. revert rpc. induction ops as [|op ops IH]; intros rpc Hr; [by left|].
  destruct (IH _ Hr) as [Hin|(a&?&?)]; [|right; exists a; split; [by right|done]].
  destruct (api_step_relays rpc op r Hin) as [?|(a&->&?)]; [by left|].
  right. exists a. split; [by left|done].
Qed.

(** Reply channels are used once. *)
Definition command_channel (c : Command) : option Z :=
  match c with
  | Shutdown => None
  | Listen _ r | Dial _ r | AddPeer _ _ r | Request _ _ r | Provide _ r | FindProviders _ r
  | Subscribe _ r | Publish _ _ r => Some r
  end.

Definition channels_inv (rpc : P2pRpc) : Prop :=
  NoDup (omap command_channel (commands rpc)) ∧
  ∀ ch, ch ∈ omap command_channel (commands rpc) → ch < next_response rpc.

Lemma issue_channels mk rpc :
  (∀ ch, command_channel (mk ch) = Some ch) → channels_inv rpc → channels_inv (issue mk rpc).2.
Proof.
  intros Hmk [Hn Hlt]. split; cbn; rewrite omap_app; cbn; rewrite Hmk; cbn.
  - apply NoDup_app. split_and!; [done| |apply NoDup_singleton].
    intros ch Hch ->%list_elem_of_singleton. specialize (Hlt _ Hch). lia.
  - intros ch [Hch|Hch]%elem_of_app.
    + specialize (Hlt _ Hch). lia.
    + apply list_elem_of_singleton in Hch. lia.
Qed.

Lemma api_run_channels rpc ops : channels_inv rpc → channels_inv (api_run rpc ops).
Proof.
  unfold api_run. revert rpc. induction ops as [|op ops IH]; intros rpc Hr; [done|]. apply IH.
  destruct op; cbn [api_step];
    unfold listen_on, dial, add_peer, configure_privacy_relay, provide, find_providers, subscribe, publish, rpc_request;
    cbv zeta; repeat case_match; try done; (apply issue_channels; [done|exact Hr]).
Qed.

(** ** Accounting of replies *)

Section accounting.
Context `{Libp2pLaws} (handler : PeerId → SignedEnvelope → SignedEnvelope).

(** The channels that wait for an answer. *)
Definition waiting (l : LoopState) : list Z :=
  (map_to_list (pending l)).*2 ++ (map_to_list (provider_queries l)).*2 ++
  (map_to_list (providing_queries l)).*2.

(** Every channel in [chs] was answered once or waits once. *)
Definition accounts (chs : list Z) (l : LoopState) : Prop :=
  chs ≡ₚ (replies l).*1 ++ waiting l ∧
  dom (pending l) ⊆ used_requests (swarm l) ∧
  dom (provider_queries l) ∪ dom (providing_queries l) ⊆ used_queries (swarm l).

Lemma send_accounts chs l ch r : accounts chs l → accounts (chs ++ [ch]) (send ch r l).
Proof.
  intros (Hp&Hr&Hq). split; [|done]. cbn. rewrite fmap_app. cbn. change (waiting (send ch r l)) with (waiting l).
  rewrite Hp. solve_Permutation.
Qed.

(** Steps that touch neither channels nor identifiers. *)
Lemma same_accounts chs l l' :
  pending l' = pending l → provider_queries l' = provider_queries l →
  providing_queries l' = providing_queries l → replies l' = replies l →
  used_requests (swarm l') = used_requests (swarm l) →
  used_queries (swarm l') = used_queries (swarm l) → accounts chs l → accounts chs l'.
Proof.
  unfold accounts, waiting. intros -> -> -> -> -> ->. done.
Qed.

Lemma swarm_accounts chs l s :
  used_requests s = used_requests (swarm l) → used_queries s = used_queries (swarm l) →
  accounts chs l → accounts chs (set_swarm s l).
Proof. intros Hr Hq Ha. apply (same_accounts chs l); done. Qed.

Lemma map_values_insert (m : gmap Z Z) k x :
  m !! k = None → (map_to_list (<[k := x]> m)).*2 ≡ₚ x :: (map_to_list m).*2.
Proof. intros Hk. by rewrite map_to_list_insert. Qed.

Lemma map_values_delete (m : gmap Z Z) k x :
  m !! k = Some x → (map_to_list m).*2 ≡ₚ x :: (map_to_list (delete k m)).*2.
Proof. intros Hk. by rewrite <- (map_to_list_delete m k x) by done. Qed.

Lemma fresh_lookup (m : gmap Z Z) (u : gset Z) id : dom m ⊆ u → id ∉ u → m !! id = None.
Proof. intros Hd Hid. apply not_elem_of_dom. set_solver. Qed.

(** A command the swarm answers at once. *)
Lemma direct_accounts chs l (rs : result unit string * Swarm) ch l' :
  used_requests rs.2 = used_requests (swarm l) ∧ used_queries rs.2 = used_queries (swarm l) →
  accounts chs l → (let '(r, s) := rs in Some (send ch (ReplyUnit r) (set_swarm s l))) = Some l' →
  accounts (chs ++ [ch]) l'.
Proof. destruct rs as [r s]. intros [Hr Hq] Ha [= <-]. by apply send_accounts, swarm_accounts. Qed.

Lemma request_accounts chs l p e ch l' :
  accounts chs l → step_command l (Request p e ch) = Some l' → accounts (chs ++ [ch]) l'.
Proof.
  intros (Hp&Hr&Hq) Hs. cbn in Hs. destruct (send_request_fresh (swarm l) p e) as (Hf&Hu&Huq).
  destruct (send_request (swarm l) p e) as [id s]. injection Hs as <-. cbn in Hf, Hu, Huq.
  unfold accounts, waiting. cbn. rewrite Hu, Huq. split_and!; [|rewrite dom_insert; set_solver|done].
  rewrite (map_values_insert _ _ _ (fresh_lookup _ _ _ Hr Hf)), Hp. unfold waiting. solve_Permutation.
Qed.

Lemma find_accounts chs l k ch l' :
  accounts chs l → step_command l (FindProviders k ch) = Some l' → accounts (chs ++ [ch]) l'.
Proof.
  intros (Hp&Hr&Hq) Hs. cbn in Hs. destruct (get_providers_fresh (swarm l) k) as (Hf&Hu&Hur).
  destruct (get_providers (swarm l) k) as [id s]. injection Hs as <-. cbn in Hf, Hu, Hur.
  unfold accounts, waiting. cbn. rewrite Hu, Hur. split_and!; [|done|rewrite dom_insert; set_solver].
  rewrite map_values_insert, Hp by (eapply fresh_lookup; [|exact Hf]; set_solver).
  unfold waiting. solve_Permutation.
Qed.

Lemma provide_accounts chs l k ch l' :
  accounts chs l → step_command l (Provide k ch) = Some l' → accounts (chs ++ [ch]) l'.
Proof.
  intros (Hp&Hr&Hq) Hs. cbn in Hs. destruct (start_providing_fresh (swarm l) k) as (Hur&Hf).
  destruct (start_providing (swarm l) k) as [[id|e] s]; injection Hs as <-; cbn in Hur, Hf.
  - destruct Hf as [Hf Hu]. unfold accounts, waiting. cbn. rewrite Hu, Hur.
    split_and!; [|done|rewrite dom_insert; set_solver].
    rewrite map_values_insert, Hp by (eapply fresh_lookup; [|exact Hf]; set_solver).
    unfold waiting. solve_Permutation.
  - by apply send_accounts, swarm_accounts.
Qed.

Lemma step_command_accounts chs l c l' :
  accounts chs l → step_command l c = Some l' →
  accounts (chs ++ option_list (command_channel c)) l'.
Proof.
  intros Ha Hs. destruct c as [|a ch|a ch|p a ch|p e ch|k ch|k ch|t ch|t b ch]; [done|..];
    change (accounts (chs ++ [ch]) l').
  - apply (direct_accounts chs l (listen_on_ (swarm l) a) ch l'); [apply swarm_keeps_used; eauto 10|done|exact Hs].
  - apply (direct_accounts chs l (dial_ (swarm l) a) ch l'); [apply swarm_keeps_used; eauto 10|done|exact Hs].
  - injection Hs as <-. apply send_accounts.
    destruct (swarm_keeps_used (swarm l) (add_peer_address (swarm l) p a)) as [H1 H2]; [eauto 10|].
    destruct (swarm_keeps_used (add_peer_address (swarm l) p a)
      (kad_add_address (add_peer_address (swarm l) p a) p a)) as [H3 H4]; [eauto 10|].
    eapply (same_accounts chs l); cbn; congruence || done.
  - by eapply request_accounts.
  - by eapply provide_accounts.
  - by eapply find_accounts.
  - apply (direct_accounts chs l (gossip_subscribe (swarm l) t) ch l'); [apply swarm_keeps_used; eauto 10|done|exact Hs].
  - apply (direct_accounts chs l (gossip_publish (swarm l) t b) ch l'); [apply swarm_keeps_used; eauto 20|done|exact Hs].
Qed.

(** Answering moves a channel from the waiting ones to the answered ones. *)
Lemma answer_accounts chs l l' ch r :
  accounts chs l → waiting l ≡ₚ ch :: waiting l' → replies l' = replies l ++ [(ch, r)] →
  swarm l' = swarm l → dom (pending l') ⊆ dom (pending l) →
  dom (provider_queries l') ∪ dom (providing_queries l') ⊆
    dom (provider_queries l) ∪ dom (providing_queries l) → accounts chs l'.
Proof.
  intros (Hp&Hr&Hq) Hw Hrep Hsw H1 H2. unfold accounts. rewrite Hrep, Hsw.
  split_and!; [|by etrans|by etrans]. rewrite Hp, Hw, fmap_app. cbn. solve_Permutation.
Qed.

Lemma step_event_accounts chs l e : accounts chs l → accounts chs (step_event handler l e).
Proof.
  intros Ha.
  assert (∀ id r, accounts chs (answer_pending id r l)) as Hpend.
  { intros id r. unfold answer_pending. destruct (pending l !! id) as [ch|] eqn:E; [|done].
    eapply (answer_accounts _ _ _ ch); [exact Ha|..]; cbn; try done; [|rewrite dom_delete; set_solver].
    unfold waiting. cbn. by rewrite (map_values_delete _ _ _ E). }
  assert (∀ id r, accounts chs (answer_providers id r l)) as Hprov.
  { intros id r. unfold answer_providers. destruct (provider_queries l !! id) as [ch|] eqn:E; [|done].
    eapply (answer_accounts _ _ _ ch); [exact Ha|..]; cbn; try done; [|rewrite dom_delete; set_solver].
    unfold waiting. cbn. rewrite (map_values_delete _ _ _ E). solve_Permutation. }
  destruct e; cbn [step_event]; auto; try (by apply (same_accounts chs l)).
  - destruct (swarm_keeps_used (swarm l) (send_response (swarm l) channel (handler p request))); [eauto 20|].
    by apply swarm_accounts.
  - case_bool_decide; auto.
  - unfold answer_providing. destruct (providing_queries l !! id) as [ch|] eqn:E; [|done].
    eapply (answer_accounts _ _ _ ch); [exact Ha|..]; cbn; try done; [|rewrite dom_delete; set_solver].
    unfold waiting. cbn. rewrite (map_values_delete _ _ _ E). solve_Permutation.
  - assert (∀ s, used_requests (foldl (λ s a, kad_add_address s p a) s listen_addrs) = used_requests s ∧
      used_queries (foldl (λ s a, kad_add_address s p a) s listen_addrs) = used_queries s) as Hfold.
    { induction listen_addrs as [|a addrs IH]; intros s; [done|]. cbn. destruct (IH (kad_add_address s p a)) as [-> ->].
      apply swarm_keeps_used. eauto 20. }
    destruct (Hfold (swarm l)). by apply swarm_accounts.
  - destruct new; [by apply (same_accounts chs l)..|done].
Qed.

Lemma step_command_None l c : step_command l c = None → c = Shutdown.
Proof. destruct c; cbn; repeat case_match; done. Qed.

Lemma loop_run_accounts chs l inputs :
  InCommand Shutdown ∉ inputs → accounts chs l →
  accounts (chs ++ omap (λ i, match i with InCommand c => command_channel c | _ => None end) inputs)
    (loop_run handler l inputs).
Proof.
  revert chs l. induction inputs as [|i inputs IH]; intros chs l Hno Ha; [by rewrite app_nil_r|].
  apply not_elem_of_cons in Hno as [Hi Hno]. destruct i as [c|e]; cbn [loop_run loop_step omap list_omap].
  - destruct (step_command l c) as [l'|] eqn:Es; [|apply step_command_None in Es; congruence].
    apply step_command_accounts with (chs := chs) in Es; [|done]. specialize (IH _ _ Hno Es).
    rewrite <- app_assoc in IH. by destruct (command_channel c).
  - apply IH; [done|]. by apply step_event_accounts.
Qed.

End accounting.

(** ** The peer table *)

Lemma fold_add_to_peers (l : list (PeerId * Multiaddr)) (m : gmap PeerId (list Multiaddr)) q :
  default [] (foldl (λ m pa, add_to_peers pa.1 pa.2 m) m l !! q) =
    default [] (m !! q) ++ (snd <$> filter (λ pa, pa.1 = q) l).
Proof.
  revert m. induction l as [|[p a] l IH]; intros m; [by rewrite app_nil_r|]. cbn [foldl fst snd]. rewrite IH.
  unfold add_to_peers. destruct (decide (p = q)) as [->|Hne].
  - rewrite lookup_insert_eq, filter_cons_True by done. cbn. by rewrite <- app_assoc.
  - rewrite lookup_insert_ne by done. by rewrite filter_cons_False.
Qed.

(** The pairs of a peer table. *)
Definition table_pairs (t : list (PeerId * list Multiaddr)) : list (PeerId * Multiaddr) :=
  concat ((λ pa : PeerId * list Multiaddr, (λ a, (pa.1, a)) <$> pa.2) <$> t).

Lemma table_pairs_lookup (t : list (PeerId * list Multiaddr)) (q : PeerId) :
  NoDup t.*1 →
  snd <$> filter (λ pa, pa.1 = q) (table_pairs t) =
    default [] ((list_to_map t : gmap PeerId (list Multiaddr)) !! q).
Proof.
  unfold table_pairs. induction t as [|[p l] t IH]; intros Hn; [done|].
  apply NoDup_cons in Hn as [Hp Hn]. cbn [fmap list_fmap concat fst snd]. rewrite list_to_map_cons.
  rewrite filter_app, fmap_app, (IH Hn). destruct (decide (p = q)) as [->|Hne].
  - rewrite lookup_insert_eq. rewrite (not_elem_of_list_to_map_1 t q) by done. cbn. rewrite app_nil_r.
    clear. induction l as [|a l IH]; [done|]. cbn [fmap list_fmap]. rewrite filter_cons_True by done. cbn. by f_equal.
  - rewrite lookup_insert_ne by done.
    assert (filter (λ pa : PeerId * Multiaddr, pa.1 = q) ((λ a, (p, a)) <$> l) = []) as ->; [|done].
    clear -Hne. induction l as [|a l IH]; [done|]. cbn [fmap list_fmap]. by rewrite filter_cons_False.
Qed.

Section cache_facts.
Context `{AddrText, JsonLaws (list (string * string))} (pid : N).

Lemma entries_of_pairs (order : table → table) (m : gmap PeerId (list Multiaddr)) :
  entries_of order m = (λ pa, (peer_to_string pa.1, addr_to_string pa.2)) <$> table_pairs (order (map_to_list m)).
Proof.
  unfold entries_of, table_pairs. generalize (order (map_to_list m)). intros t.
  induction t as [|[p l] t IH]; [done|]. cbn. rewrite fmap_app, IH. f_equal.
  by rewrite <- list_fmap_compose.
Qed.

(** Without the relay-private restriction every entry is added. *)
Lemma load_entries_all rpc loaded (pairs : list (PeerId * Multiaddr)) :
  relay_private rpc = false →
  ∃ rpc' cmds, load_entries rpc loaded ((λ pa, (peer_to_string pa.1, addr_to_string pa.2)) <$> pairs) =
    (Ok (loaded + Z.of_nat (length pairs)), rpc') ∧
    commands rpc' = commands rpc ++ cmds ∧
    Forall2 (λ (pa : PeerId * Multiaddr) c, ∃ ch, c = AddPeer pa.1 pa.2 ch) pairs cmds.
Proof.
  revert rpc loaded. induction pairs as [|[p a] pairs IH]; intros rpc loaded Hr.
  { exists rpc, []. cbn. rewrite Z.add_0_r, app_nil_r. split_and!; [done..|constructor]. }
  cbn [fmap list_fmap load_entries fst snd]. rewrite peer_parse_to_string, addr_parse_to_string.
  unfold add_peer. rewrite Hr. cbn [andb]. unfold issue.
  destruct (IH (issue (AddPeer p a) rpc).2 (loaded + 1) Hr) as (rpc'&cmds&Hl&Hc&Hf).
  exists rpc', (AddPeer p a (next_response rpc) :: cmds). split_and!.
  - unfold issue in Hl. cbn [snd] in Hl. rewrite Hl. do 2 f_equal. cbn [length]. lia.
  - rewrite Hc. cbn. by rewrite <- app_assoc.
  - constructor; [by eexists|done].
Qed.

Lemma save_peer_cache_ok (order : table → table) (m : gmap PeerId (list Multiaddr)) (p : path) (w w' : World) :
  save_peer_cache pid order m p w = (Ok tt, w') →
  ∃ b, to_vec_pretty (entries_of order m) = Some b ∧ fs w' !! p = Some (File (Some 384) b) ∧
    Z.of_nat (length (entries_of order m)) ≤ MAX_PEER_CACHE_ENTRIES ∧
    Z.of_nat (length b) ≤ MAX_PEER_CACHE_BYTES.
Proof.
  unfold save_peer_cache. cbv zeta. intros Hs. unfold ibind at 1 in Hs.
  set (mk := match parent p with Some _ => _ | None => _ end) in Hs.
  destruct (mk w) as [[u|e] w1]; [|done].
  destruct (Z.ltb_spec MAX_PEER_CACHE_ENTRIES (Z.of_nat (length (entries_of order m)))); [done|].
  unfold ibind, ilift in Hs. destruct (to_vec_pretty (entries_of order m)) as [b|]; [|done]. cbn in Hs.
  destruct (Z.ltb_spec MAX_PEER_CACHE_BYTES (Z.of_nat (length b))); [done|].
  exists b. split_and!; try done. unfold imap_err in Hs.
  destruct (atomic_replace pid p b (Some 384) w1) as [r w2] eqn:Er. destruct r as [[]|]; [|done].
  injection Hs as <-. exact (proj1 (atomic_replace_ok pid p b (Some 384) _ _ Er)).
Qed.

Lemma read_limited_nofault p limit w mode b :
  faults w = [] → fs w !! p = Some (File mode b) → 0 ≤ limit < U64_MAX → Z.of_nat (length b) ≤ limit →
  (read_limited p limit w).1 = Ok b.
Proof.
  intros Hf Hp Hl Hb. unfold read_limited, ibind, open_file. rewrite syscall_nofault by done.
  rewrite (follow_File _ _ _ _ Hp). unfold read_take. rewrite syscall_nofault by done. cbn [fs].
  rewrite (follow_File _ _ _ _ Hp). assert (saturating_add limit 1 = limit + 1) as -> by (unfold saturating_add; lia).
  rewrite (proj2 (Z.leb_le _ _)) by lia. by rewrite (proj2 (Z.ltb_ge _ _)).
Qed.

(** What loading a readable cache does. *)
Lemma load_peer_cache_nofault rpc p w mode b :
  faults w = [] → fs w !! p = Some (File mode b) → Z.of_nat (length b) ≤ MAX_PEER_CACHE_BYTES →
  (load_peer_cache rpc p w).1 =
    Ok match parse_peer_cache b with Err e => (Err e, rpc) | Ok entries => load_entries rpc 0 entries end.
Proof.
  intros Hfl Hp Hb. unfold load_peer_cache, ibind, exists_, ihandle at 1. rewrite syscall_nofault by done.
  rewrite (follow_File _ _ _ _ Hp). rewrite bool_decide_eq_true_2 by by eexists. unfold iret at 1. cbn [negb].
  unfold ihandle, imap_err. set (w3 := mkWorld _ _ _ _).
  pose proof (read_limited_nofault p MAX_PEER_CACHE_BYTES w3 mode b eq_refl Hp) as Hread.
  destruct (read_limited p MAX_PEER_CACHE_BYTES w3) as [r w4]. cbn [fst] in Hread.
  rewrite Hread by (done || by vm_compute). cbn [rmap_err rbind]. by destruct (parse_peer_cache b).
Qed.

End cache_facts.

Lemma input_channels (inputs : list loop_input) :
  omap (λ i, match i with InCommand c => command_channel c | _ => None end) inputs =
  omap command_channel (omap (λ i, match i with InCommand c => Some c | _ => None end) inputs).
Proof.
  induction inputs as [|[c|e] inputs IH]; [done|..]; cbn; [|done]. by destruct (command_channel c); cbn; rewrite IH.
Qed.

(** ** Properties *)

(** C26: a relay-private endpoint never exposes a direct path: it starts only on
    a loopback listener, with Identify, AutoNAT and DCUtR switched off; whatever
    is called on it afterwards, every listener and every peer address it hands
    to the swarm is a circuit whose relay was configured, and every dial is such
    a circuit or goes directly to a configured relay; and relays are configured
    only by direct addresses that end in their identifier. *)
Theorem relay_private_confined ready id listen rpc0 toggles ops :
  start_relay_private_bound ready id listen = Ok (rpc0, toggles) →
  let rpc := api_run rpc0 ops in
  is_loopback listen = true ∧ toggles = mkToggles false false false ∧
  privacy_profile rpc = mkPrivacyProfile true false false false false false true false ∧
  (∀ c, c ∈ commands rpc → confined (privacy_relays rpc) c) ∧
  (∀ r, r ∈ privacy_relays rpc →
     ∃ a, ApiConfigure a ∈ ops ∧ terminal_peer a = Some r ∧ has_circuit a = false).
Proof.
  intros Hstart rpc. unfold start_relay_private_bound, start_client in Hstart.
  destruct (is_loopback listen); [|done]. destruct ready as [a|]; [|done]. injection Hstart as <- <-.
  assert (private_inv rpc) as [Hp Hc].
  { apply api_run_private. split; [done|]. cbn. intros c Hc. by apply not_elem_of_nil in Hc. }
  split_and!; try done.
  - unfold privacy_profile. rewrite Hp. cbn. by rewrite andb_false_r.
  - intros r Hr. apply api_run_relays in Hr as [Hr|Hr]; [|done]. cbn in Hr. set_solver.
Qed.

(** C25: every command the endpoint sends is answered at most once, and none is
    lost: after any sequence of its commands and of swarm events, each reply
    channel has received exactly one reply or still waits exactly once, and no
    other channel receives anything. *)
Theorem commands_answered_once `{Libp2pLaws} handler s0 ready id autonat_on private_on rpc0 toggles ops inputs :
  start_client ready id autonat_on private_on = Ok (rpc0, toggles) →
  omap (λ i, match i with InCommand c => Some c | _ => None end) inputs = commands (api_run rpc0 ops) →
  InCommand Shutdown ∉ inputs →
  let l := loop_run handler (mkLoopState s0 ∅ ∅ ∅ ∅ [] [] stats_default [] []) inputs in
  let channels := omap command_channel (commands (api_run rpc0 ops)) in
  NoDup channels ∧ channels ≡ₚ (replies l).*1 ++ waiting l ∧ NoDup (replies l).*1 ∧
  (∀ ch, ch ∈ channels → (ch ∈ (replies l).*1 ∧ ch ∉ waiting l) ∨ (ch ∉ (replies l).*1 ∧ ch ∈ waiting l)).
Proof.
  intros Hstart Hcmds Hno l channels.
  assert (channels_inv (api_run rpc0 ops)) as [Hn _].
  { apply api_run_channels. unfold start_client in Hstart. destruct ready; [|done]. injection Hstart as <- _.
    split; cbn; [constructor|]. intros ch Hch. by apply not_elem_of_nil in Hch. }
  assert (accounts channels l) as [Hp _].
  { unfold channels. rewrite <- Hcmds, <- input_channels.
    apply (loop_run_accounts handler []); [done|]. split; cbn; [done|]. by rewrite !dom_empty_L, union_empty_l_L. }
  split; [done|]. split; [done|]. fold channels in Hn.
  rewrite Hp in Hn. apply NoDup_app in Hn as (Hr&Hd&_). split; [done|]. intros ch Hch.
  rewrite Hp in Hch. apply elem_of_app in Hch as [Hch|Hch]; [left|right]; split; auto. intros Hin. by apply (Hd ch).
Qed.

(** The peer cache is a round trip: a peer table that was saved is loaded
    back, by an endpoint without the relay-private restriction, as the same
    table, peer by peer and with the addresses in order, whatever order the hash
    map yields its entries in; the file is private to its owner, and neither the
    number of entries nor the size exceeds its limit. *)
Theorem peer_cache_roundtrip `{AddrText, JsonLaws (list (string * string)), Libp2p} (pid : N)
    (order : table → table) (m : gmap PeerId (list Multiaddr)) (p : path) (w w1 w2 : World) (rpc : P2pRpc)
    (handler : PeerId → SignedEnvelope → SignedEnvelope) (s0 : Swarm) :
  (∀ l, order l ≡ₚ l) →
  save_peer_cache pid order m p w = (Ok tt, w1) →
  fs w2 = fs w1 → faults w2 = [] → relay_private rpc = false →
  (∃ b, fs w1 !! p = Some (File (Some 384) b) ∧ Z.of_nat (length b) ≤ MAX_PEER_CACHE_BYTES) ∧
  ∃ n rpc' cmds, (load_peer_cache rpc p w2).1 = Ok (Ok n, rpc') ∧
    n = Z.of_nat (length (table_pairs (map_to_list m))) ∧ n ≤ MAX_PEER_CACHE_ENTRIES ∧
    commands rpc' = commands rpc ++ cmds ∧
    ∀ q, default [] (peers (loop_run handler (mkLoopState s0 ∅ ∅ ∅ ∅ [] [] stats_default [] [])
                              (InCommand <$> cmds)) !! q) = default [] (m !! q).
Proof.
  intros Hord Hsave Hfs Hfl Hpriv. apply save_peer_cache_ok in Hsave as (b&Hb&Hp&Hn&Hsz).
  split; [eauto|]. rewrite entries_of_pairs in Hn, Hb. set (pairs := table_pairs (order (map_to_list m))) in *.
  rewrite length_fmap in Hn.
  destruct (load_entries_all rpc 0 pairs Hpriv) as (rpc'&cmds&Hload&Hc&Hf).
  exists (Z.of_nat (length pairs)), rpc', cmds. split_and!; [| |done|done|].
  - rewrite <- Hfs in Hp. rewrite (load_peer_cache_nofault rpc p w2 _ b Hfl Hp Hsz). unfold parse_peer_cache.
    rewrite (json_pretty_roundtrip _ _ Hb). cbn [ok_or rbind]. rewrite length_fmap, (proj2 (Z.ltb_ge _ _)) by done.
    rewrite Hload. done.
  - unfold pairs, table_pairs. f_equal. apply Permutation_length. by rewrite Hord.
  - intros q. assert (∀ l0 cs, Forall2 (λ (pa : PeerId * Multiaddr) c, ∃ ch, c = AddPeer pa.1 pa.2 ch) cs cmds →
      peers (loop_run handler l0 (InCommand <$> cmds)) = foldl (λ m pa, add_to_peers pa.1 pa.2 m) (peers l0) cs) as Hrun.
    { clear. induction cmds as [|c cmds IH]; intros l0 cs Hf; inversion Hf as [|pa ? cs' ? [ch ->] Hf']; subst; [done|].
      cbn [fmap list_fmap loop_run loop_step step_command foldl]. by rewrite (IH _ cs'). }
    rewrite (Hrun _ pairs Hf). cbn [peers]. rewrite fold_add_to_peers, lookup_empty. cbn [default from_option app].
    unfold pairs. rewrite table_pairs_lookup.
    + f_equal. rewrite <- (list_to_map_to_list m) at 2. f_equal.
      symmetry. apply list_to_map_proper; [apply NoDup_fst_map_to_list|by rewrite Hord].
    + rewrite Hord. apply NoDup_fst_map_to_list.
Qed.

(** ** Samples *)

Module Samples.
Import Toy.

(** A swarm that hands out consecutive identifiers. *)
Definition first_ids (n : nat) : gset Z := list_to_set (Z.of_nat <$> seq 0 n).

Lemma first_ids_S n : first_ids (S n) = {[Z.of_nat n]} ∪ first_ids n.
Proof.
  unfold first_ids. rewrite seq_S, fmap_app, list_to_set_app_L. cbn. rewrite union_empty_r_L.
  apply union_comm_L.
Qed.

Lemma first_ids_fresh n : Z.of_nat n ∉ first_ids n.
Proof.
  unfold first_ids. rewrite elem_of_list_to_set, list_elem_of_fmap. intros (k&E&Hk%elem_of_seq). lia.
Qed.

#[export] Instance toy_libp2p : Libp2p := {|
  Swarm := nat * nat;
  listen_on_ s a := (Ok tt, s); dial_ s a := (Ok tt, s);
  add_peer_address s p a := s; kad_add_address s p a := s;
  send_request s p e := (Z.of_nat s.1, (S s.1, s.2));
  send_response s c e := s;
  start_providing s k := (Ok (Z.of_nat s.2), (s.1, S s.2));
  get_providers s k := (Z.of_nat s.2, (s.1, S s.2));
  gossip_subscribe s t := (Ok tt, s); gossip_publish s t b := (Ok tt, s);
|}.

#[export] Instance toy_libp2p_laws : Libp2pLaws.
Proof.
  refine {| used_requests := λ s : Swarm, first_ids s.1; used_queries := λ s : Swarm, first_ids s.2 |}; cbn.
  - intros s p e. split_and!; [apply first_ids_fresh|apply first_ids_S|done].
  - intros s k. split_and!; [apply first_ids_fresh|apply first_ids_S|done].
  - intros s k. split_and!; [done|apply first_ids_fresh|apply first_ids_S].
  - intros s s' Hs. repeat match goal with Hs : _ ∨ _ |- _ => destruct Hs as [Hs|Hs] end;
      repeat match goal with Hs : ∃ _, _ |- _ => destruct Hs as [? Hs] end; by subst.
Qed.

#[export] Instance AddrProtocol_countable : Countable AddrProtocol.
Proof.
  refine (inj_countable'
    (λ p, match p with
          | Ip4 a b c d => inl (inl (a, b, c, d))
          | Ip6 a => inl (inr (inl a))
          | P2pPeer p => inl (inr (inr p))
          | P2pCircuit => inr (inl tt)
          | OtherProtocol s => inr (inr s)
          end)
    (λ x, match x with
          | inl (inl (a, b, c, d)) => Ip4 a b c d
          | inl (inr (inl a)) => Ip6 a
          | inl (inr (inr p)) => P2pPeer p
          | inr (inl tt) => P2pCircuit
          | inr (inr s) => OtherProtocol s
          end) _).
  by intros [].
Defined.

#[export] Program Instance toy_addr_text : AddrText := {|
  peer_to_string := toy_hex_encode;
  peer_parse := toy_hex_decode;
  addr_to_string a := toy_hex_encode (bits_of_pos (stdpp.countable.encode a));
  addr_parse s := b ← toy_hex_decode s; p ← pos_of_bits b; stdpp.countable.decode p;
|}.
Next Obligation. intros p. apply toy_hex_decode_encode. Qed.
Next Obligation.
  intros a. cbn. rewrite toy_hex_decode_encode. cbn. rewrite pos_of_bits_of_pos. cbn. apply decode_encode.
Qed.

#[export] Instance cache_json : Json (list (string * string)) := countable_json.
#[export] Instance cache_json_laws : JsonLaws (list (string * string)) := countable_json_laws.

Definition relay0 : PeerId := [x0a].
Definition direct0 : Multiaddr := [Ip4 10 0 0 1; OtherProtocol "tcp/4001"; P2pPeer relay0].
Definition circuit0 : Multiaddr := direct0 ++ [P2pCircuit; P2pPeer [x0b]].
Definition rpc0 : P2pRpc := mkP2pRpc [x01] [Ip4 127 0 0 1] true false ∅ [] 0.
(** Listening and dialling before the relay is configured is refused. *)
Definition ops0 : list api_op :=
  [ApiListen circuit0; ApiDial direct0; ApiConfigure direct0; ApiListen circuit0;
   ApiAddPeer [x0b] circuit0; ApiDial [Ip4 10 0 0 2; P2pPeer [x0c]]; ApiFind [x02]; ApiProvide [x03]].

Lemma relay_private_confined_witness :
  length (commands (api_run rpc0 ops0)) = 5%nat ∧
  ∀ c, c ∈ commands (api_run rpc0 ops0) → confined (privacy_relays (api_run rpc0 ops0)) c.
Proof.
  split; [vm_compute; reflexivity|].
  apply (relay_private_confined (Some [Ip4 127 0 0 1]) [x01] [Ip4 127 0 0 1] rpc0 (mkToggles false false false) ops0).
  reflexivity.
Defined.

(** The endpoint's commands, with the answer to its query in between. *)
Definition inputs0 : list loop_input :=
  (InCommand <$> commands (api_run rpc0 ops0)) ++ [InEvent (FoundProviders 0 {[relay0]})].
Definition swarm0 : @Swarm toy_libp2p := (0, 0)%nat.
Definition handler0 (p : PeerId) (e : SignedEnvelope) : SignedEnvelope := e.

Lemma commands_answered_once_witness :
  let l := loop_run handler0 (mkLoopState swarm0 ∅ ∅ ∅ ∅ [] [] stats_default [] []) inputs0 in
  NoDup (replies l).*1 ∧ waiting l = [4].
Proof.
  intros l. split; [|vm_compute; reflexivity].
  apply (commands_answered_once handler0 swarm0 (Some [Ip4 127 0 0 1]) [x01] false true rpc0
    (mkToggles false false false) ops0 inputs0).
  - reflexivity.
  - reflexivity.
  - vm_compute. intros Hin. repeat (apply elem_of_cons in Hin as [Hin|Hin]; [discriminate|]).
    by apply not_elem_of_nil in Hin.
Defined.

Definition table0 : gmap PeerId (list Multiaddr) := {[relay0 := [[P2pPeer relay0]; [P2pCircuit]]; [x0b] := [[P2pCircuit]]]}.
Definition cache_world : World := (save_peer_cache 7 reverse table0 ["peers.json"; "data"] (mkWorld ∅ 0 [] [])).2.

Lemma peer_cache_roundtrip_witness :
  ∃ b, fs cache_world !! (["peers.json"; "data"] : path) = Some (File (Some 384) b) ∧
    Z.of_nat (length b) ≤ MAX_PEER_CACHE_BYTES.
Proof.
  apply (peer_cache_roundtrip 7 reverse table0 ["peers.json"; "data"] (mkWorld ∅ 0 [] []) cache_world
    (mkWorld (fs cache_world) 0 [] []) (mkP2pRpc [x01] [] false true ∅ [] 0) handler0 swarm0).
  - intros l. by rewrite reverse_Permutation.
  - rewrite (surjective_pairing (save_peer_cache _ _ _ _ _)). apply f_equal2; [vm_compute; reflexivity|reflexivity].
  - reflexivity.
  - reflexivity.
  - reflexivity.
Defined.

End Samples.
