(* ===== verification/Metadata.v ===== *)
(** The node's metadata database (crates/peerless-node/src/metadata.rs): the
    four tables with the statements that write and query them.  A statement is
    one step; any of them can fail, and then changes nothing. *)

From S2P Require Import Prelude External Core Protocol Compute.
From Stdlib Require Import Strings.Byte.
#[local] Open Scope Z_scope.
#[local] Open Scope result_scope.

Inductive MetadataError := Sql | MetadataJson.

#[export] Instance MetadataError_eq_dec : EqDecision MetadataError.
Proof. solve_decision. Defined.

(** [as i64] and [as u64]. *)
Definition as_i64 (z : Z) : Z := if z mod 2 ^ 64 <? 2 ^ 63 then z mod 2 ^ 64 else z mod 2 ^ 64 - 2 ^ 64.
Definition as_u64 (z : Z) : Z := z mod 2 ^ 64.

Lemma as_u64_i64 z : in_u64 z → as_u64 (as_i64 z) = z.
Proof.
  unfold in_u64, U64_MAX, as_u64, as_i64. intros Hz. rewrite (Z.mod_small z) by lia.
  destruct (Z.ltb_spec z (2 ^ 63)); [by rewrite Z.mod_small by lia|].
  replace (z - 2 ^ 64) with (z + -1 * 2 ^ 64) by lia. rewrite Z.mod_add by lia.
  by rewrite Z.mod_small by lia.
Qed.

Record TaskRow := mkTaskRow {
  row_state : string;
  row_executor : option string;
  updated_at : Z;
  requester_json : option bytes;
  task_json : option bytes;
  result_json : option bytes;
}.

Record PeerRow := mkPeerRow { row_node : string; addresses : string; last_seen : Z }.

Record Metadata := mkMetadata {
  event_rows : list (Z * string * string);
  task_rows : gmap string TaskRow;
  peer_rows : gmap string PeerRow;
  reputation_rows : gmap string PeerReputation;
  db_faults : list bool;
}.

Definition Metadata_empty : Metadata := mkMetadata [] ∅ ∅ ∅ [].

Definition set_event_rows x (m : Metadata) : Metadata :=
  mkMetadata x (task_rows m) (peer_rows m) (reputation_rows m) (db_faults m).
Definition set_task_rows x (m : Metadata) : Metadata :=
  mkMetadata (event_rows m) x (peer_rows m) (reputation_rows m) (db_faults m).
Definition set_peer_rows x (m : Metadata) : Metadata :=
  mkMetadata (event_rows m) (task_rows m) x (reputation_rows m) (db_faults m).
Definition set_reputation_rows x (m : Metadata) : Metadata :=
  mkMetadata (event_rows m) (task_rows m) (peer_rows m) x (db_faults m).
Definition set_db_faults x (m : Metadata) : Metadata :=
  mkMetadata (event_rows m) (task_rows m) (peer_rows m) (reputation_rows m) x.

(** ** Statements *)

Definition meta (A : Type) : Type := Metadata → result A MetadataError * Metadata.

(** A statement that changes the tables, and a query. *)
Definition sql_execute (f : Metadata → Metadata) : meta unit := λ m,
  let m' := set_db_faults (tail (db_faults m)) m in
  if default false (head (db_faults m)) then (Err Sql, m') else (Ok tt, f m').
Definition sql_query {A} (f : Metadata → result A MetadataError) : meta A := λ m,
  let m' := set_db_faults (tail (db_faults m)) m in
  if default false (head (db_faults m)) then (Err Sql, m') else (f m', m').

Definition PeerReputation_default : PeerReputation := mkPeerReputation 0 0 0 0 fzero.

Section metadata.
Context `{Hex, Json Task, Json NodeId, Json SignedExecutionRecord}.

Definition meta_event (timestamp : Z) (kind details : string) : meta unit :=
  sql_execute (λ m, set_event_rows (event_rows m ++ [(as_i64 timestamp, kind, details)]) m).

(** [INSERT .. ON CONFLICT(task_id) DO UPDATE SET state, executor, updated_at]. *)
Definition meta_task (id state : string) (executor : option NodeId) (at_ : Z) : meta unit :=
  sql_execute (λ m,
    let old := task_rows m !! id in
    set_task_rows (<[id := mkTaskRow state (NodeId_to_string <$> executor) (as_i64 at_)
                       (old ≫= requester_json) (old ≫= task_json) (old ≫= result_json)]> (task_rows m)) m).

Definition meta_reputation (node : NodeId) : meta PeerReputation :=
  sql_query (λ m,
    Ok match reputation_rows m !! NodeId_to_string node with
       | Some r => mkPeerReputation (as_u64 (success r)) (as_u64 (failure r))
                     (as_u64 (invalid_result r)) (as_u64 (timeout r)) (average_latency_ms r)
       | None => PeerReputation_default
       end).

(** The three values are serialised before the statement runs. *)
Definition meta_completed_task (task : Task) (requester : NodeId) (r : SignedExecutionRecord) (at_ : Z) :
    meta unit := λ m,
  match ok_or (to_vec requester) MetadataJson, ok_or (to_vec task) MetadataJson,
        ok_or (to_vec r) MetadataJson with
  | Ok requester_text, Ok task_text, Ok result_text =>
      sql_execute (λ m,
        set_task_rows (<[task_id task :=
          mkTaskRow "completed" (Some (NodeId_to_string (rec_executor (record r)))) (as_i64 at_)
            (Some requester_text) (Some task_text) (Some result_text)]> (task_rows m)) m) m
  | _, _, _ => (Err MetadataJson, m)
  end.

(** The [WHERE] clause, and the parsing of one row. *)
Definition completed_row (row : TaskRow) : option (bytes * bytes * bytes) :=
  if bool_decide (row_state row = "completed") then
    t ← task_json row; q ← requester_json row; r ← result_json row; Some (t, q, r)
  else None.

Definition parse_row (row : bytes * bytes * bytes) :
    result (Task * NodeId * SignedExecutionRecord) MetadataError :=
  let '(t, q, r) := row in
  let? t := ok_or (from_slice t) MetadataJson in
  let? q := ok_or (from_slice q) MetadataJson in
  let? r := ok_or (from_slice r) MetadataJson in
  Ok (t, q, r).

(** Rows come in no particular order. *)
Definition meta_completed_tasks : meta (list (Task * NodeId * SignedExecutionRecord)) :=
  sql_query (λ m, collect (parse_row <$> omap completed_row (snd <$> map_to_list (task_rows m)))).

Definition meta_peer (peer_id : string) (node : NodeId) (addrs : string) (at_ : Z) : meta unit :=
  sql_execute (λ m,
    set_peer_rows (<[peer_id := mkPeerRow (NodeId_to_string node) addrs (as_i64 at_)]> (peer_rows m)) m).

Definition meta_peer_count : meta Z :=
  sql_query (λ m, Ok (as_u64 (Z.of_nat (size (peer_rows m))))).

(** A counter at [i64::MAX] would become a float in SQLite. *)
Definition meta_record_success (node : NodeId) (latency_ms : f64) : meta unit :=
  sql_execute (λ m,
    let key := NodeId_to_string node in
    let row := match reputation_rows m !! key with
      | None => mkPeerReputation 1 0 0 0 latency_ms
      | Some r =>
          mkPeerReputation (success r + 1) (failure r) (invalid_result r) (timeout r)
            (fdiv (fadd (fmul (average_latency_ms r) (f_of_Z (success r))) latency_ms)
               (f_of_Z (success r + 1)))
      end in
    set_reputation_rows (<[key := row]> (reputation_rows m)) m).

Definition meta_record_failure (node : NodeId) (invalid timed_out : bool) : meta unit :=
  sql_execute (λ m,
    let key := NodeId_to_string node in
    let r := default PeerReputation_default (reputation_rows m !! key) in
    let row :=
      if invalid then mkPeerReputation (success r) (failure r) (invalid_result r + 1) (timeout r) (average_latency_ms r)
      else if timed_out then mkPeerReputation (success r) (failure r) (invalid_result r) (timeout r + 1) (average_latency_ms r)
      else mkPeerReputation (success r) (failure r + 1) (invalid_result r) (timeout r) (average_latency_ms r) in
    set_reputation_rows (<[key := row]> (reputation_rows m)) m).

(** Two queries, either of which can fail. *)
Definition meta_counts : meta (Z * Z) := λ m,
  match sql_query (λ m, Ok (as_u64 (Z.of_nat (length (event_rows m))))) m with
  | (Err e, m) => (Err e, m)
  | (Ok events, m) =>
      match sql_query (λ m, Ok (as_u64 (Z.of_nat (size (task_rows m))))) m with
      | (Err e, m) => (Err e, m)
      | (Ok tasks, m) => (Ok (events, tasks), m)
      end
  end.

(** ** Facts *)

Lemma sql_execute_ok f m : db_faults m = [] → sql_execute f m = (Ok tt, f (set_db_faults [] m)).
Proof. unfold sql_execute. by intros ->. Qed.

Lemma sql_execute_Ok f m u m' :
  sql_execute f m = (Ok u, m') → m' = f (set_db_faults (tail (db_faults m)) m).
Proof. unfold sql_execute. destruct (default false _); by intros [= <-]. Qed.

(** A completed row is read back as what was stored, whatever the other rows
    are, when every row parses. *)
Lemma completed_tasks_elem (rows : gmap string TaskRow) x :
  collect (parse_row <$> omap completed_row (snd <$> map_to_list rows)) = Ok x →
  ∀ y, y ∈ x ↔ ∃ id row raw, rows !! id = Some row ∧ completed_row row = Some raw ∧ parse_row raw = Ok y.
Proof.
  intros Hx%collect_ok y.
  assert (y ∈ x ↔ Ok y ∈ parse_row <$> omap completed_row (snd <$> map_to_list rows)) as ->.
  { rewrite Hx. split; [intros Hy; by apply list_elem_of_fmap_2|].
    intros (y'&[= ->]&?)%list_elem_of_fmap. done. }
  rewrite list_elem_of_fmap. setoid_rewrite list_elem_of_omap. setoid_rewrite list_elem_of_fmap.
  split.
  - intros (raw&Hp&row&([id row']&->&Hin)&Hr). apply elem_of_map_to_list in Hin. eauto 10.
  - intros (id&row&raw&Hl&Hr&Hp). exists raw. split; [done|]. exists row. split; [|done].
    exists (id, row). by rewrite elem_of_map_to_list.
Qed.

End metadata.
