(* ===== verification/Schema.v ===== *)
(** Opening the metadata database ([Metadata::open] in
    crates/peerless-node/src/metadata.rs): the tables that are created when they
    are missing, and the migration of task tables that older versions wrote
    without the columns for recorded results.  A statement is one step that can
    fail and then changes nothing. *)

From S2P Require Import Prelude External Core Protocol Compute FileSystem Metadata.
From Stdlib Require Import Strings.Byte.
#[local] Open Scope Z_scope.
#[local] Open Scope result_scope.

(** ** The database file *)

(** The columns of the task table beyond the first four, with its rows; what a
    row holds for a column the table does not have cannot be read. *)
Record TaskTable := mkTaskTable {
  has_requester : bool;
  has_task : bool;
  has_result : bool;
  table_rows : gmap string TaskRow;
}.

(** A table that was never created is [None]. *)
Record Database := mkDatabase {
  events_table : option (list (Z * string * string));
  tasks_table : option TaskTable;
  peers_table : option (gmap string PeerRow);
  reputation_table : option (gmap string PeerReputation);
  sql_faults : list bool;
}.

Definition db (A : Type) : Type := Database → result A MetadataError * Database.

Definition next_fault (d : Database) : bool * Database :=
  (default false (head (sql_faults d)),
   mkDatabase (events_table d) (tasks_table d) (peers_table d) (reputation_table d) (tail (sql_faults d))).

(** One statement; [None] is a statement the schema does not allow. *)
Definition statement (f : Database → option Database) : db unit := λ d,
  let '(failed, d) := next_fault d in
  if failed : bool then (Err Sql, d)
  else match f d with Some d => (Ok tt, d) | None => (Err Sql, d) end.

Definition dbind {A B} (m : db A) (k : A → db B) : db B :=
  λ d, match m d with (Ok a, d) => k a d | (Err e, d) => (Err e, d) end.

(** ** Statements *)

(** "PRAGMA journal_mode=WAL". *)
Definition journal_mode : db unit := statement Some.

(** "CREATE TABLE IF NOT EXISTS ..". *)
Definition create_events : db unit := statement (λ d,
  Some (mkDatabase (Some (default [] (events_table d))) (tasks_table d) (peers_table d) (reputation_table d) (sql_faults d))).
Definition create_tasks : db unit := statement (λ d,
  Some (mkDatabase (events_table d) (Some (default (mkTaskTable true true true ∅) (tasks_table d)))
          (peers_table d) (reputation_table d) (sql_faults d))).
Definition create_peers : db unit := statement (λ d,
  Some (mkDatabase (events_table d) (tasks_table d) (Some (default ∅ (peers_table d))) (reputation_table d) (sql_faults d))).
Definition create_reputation : db unit := statement (λ d,
  Some (mkDatabase (events_table d) (tasks_table d) (peers_table d) (Some (default ∅ (reputation_table d))) (sql_faults d))).

Inductive column := Requester | TaskJson | ResultJson.

#[global] Instance column_eq_dec : EqDecision column.
Proof. solve_decision. Defined.

Definition has_column (c : column) (t : TaskTable) : bool :=
  match c with Requester => has_requester t | TaskJson => has_task t | ResultJson => has_result t end.

(** The row with NULL in a column. *)
Definition null_column (c : column) (r : TaskRow) : TaskRow :=
  match c with
  | Requester => mkTaskRow (row_state r) (row_executor r) (updated_at r) None (task_json r) (result_json r)
  | TaskJson => mkTaskRow (row_state r) (row_executor r) (updated_at r) (requester_json r) None (result_json r)
  | ResultJson => mkTaskRow (row_state r) (row_executor r) (updated_at r) (requester_json r) (task_json r) None
  end.

Definition with_column (c : column) (t : TaskTable) : TaskTable :=
  mkTaskTable (if decide (c = Requester) then true else has_requester t)
    (if decide (c = TaskJson) then true else has_task t)
    (if decide (c = ResultJson) then true else has_result t)
    (null_column c <$> table_rows t).

(** "ALTER TABLE tasks ADD COLUMN ..", refused for a column that is there. *)
Definition add_column (c : column) : db unit := statement (λ d,
  t ← tasks_table d;
  if has_column c t then None
  else Some (mkDatabase (events_table d) (Some (with_column c t)) (peers_table d) (reputation_table d) (sql_faults d))).

(** [let _ = connection.execute(migration, [])]. *)
Definition ignored (m : db unit) : db unit := λ d, (Ok tt, (m d).2).

(** ** Opening *)

(** The batch stops at the first statement that fails; what ran before stays. *)
Definition create_schema : db unit :=
  dbind journal_mode (λ _, dbind create_events (λ _, dbind create_tasks (λ _,
  dbind create_peers (λ _, create_reputation)))).

Definition migrate : db unit :=
  dbind (ignored (add_column Requester)) (λ _,
  dbind (ignored (add_column TaskJson)) (λ _, ignored (add_column ResultJson))).

(** The tables as the statements of the node see them, when all of them can
    run. *)
Definition connected (d : Database) : option Metadata :=
  e ← events_table d; t ← tasks_table d; p ← peers_table d; r ← reputation_table d;
  if has_requester t && has_task t && has_result t then Some (mkMetadata e (table_rows t) p r (sql_faults d)) else None.

(** The statements of [Metadata::open]. *)
Definition open_schema : db unit := dbind create_schema (λ _, migrate).

(** [Metadata::open]; [opened] is the outcome of [Connection::open]. *)
Definition Metadata_open (p : path) (opened : bool) (d : Database) : io (result unit MetadataError * Database) MetadataError :=
  match parent p with
  | Some dir => imap_err (λ _, Sql) (create_dir_all dir)
  | None => iret tt
  end ;!
  if opened then iret (open_schema d) else ifail Sql.

(** ** Properties *)

(** What a row of the table shows. *)
Definition visible_row (t : TaskTable) (r : TaskRow) : TaskRow :=
  mkTaskRow (row_state r) (row_executor r) (updated_at r)
    (if has_requester t then requester_json r else None)
    (if has_task t then task_json r else None)
    (if has_result t then result_json r else None).
Definition visible_rows (t : TaskTable) : gmap string TaskRow := visible_row t <$> table_rows t.

(** The rows that can be read; a table that is missing has none. *)
Definition contents (d : Database) : Metadata :=
  mkMetadata (default [] (events_table d)) (default ∅ (visible_rows <$> tasks_table d))
    (default ∅ (peers_table d)) (default ∅ (reputation_table d)) [].

Lemma visible_with_column c t : has_column c t = false → visible_rows (with_column c t) = visible_rows t.
Proof.
  unfold visible_rows. intros Hc. cbn [with_column table_rows]. rewrite <-map_fmap_compose.
  apply map_fmap_ext. intros k r _. destruct t, c; cbn in *; subst; done.
Qed.
Lemma visible_all rows : visible_rows (mkTaskTable true true true rows) = rows.
Proof. unfold visible_rows. cbn [table_rows]. rewrite <-(map_fmap_id rows) at 3. apply map_fmap_ext. by intros k [] _. Qed.

Lemma statement_contents f d :
  (∀ d d', f d = Some d' → contents d' = contents d ∧ sql_faults d' = sql_faults d) →
  contents (statement f d).2 = contents d ∧ (sql_faults d = [] → sql_faults (statement f d).2 = []).
Proof.
  intros Hf. unfold statement, next_fault. destruct (default false _); [by split; [done|]; cbn; intros ->|].
  destruct (f _) as [d'|] eqn:E; [|by split; [done|]; cbn; intros ->].
  apply Hf in E as [Hc Hs]. cbn in *. split; [by rewrite Hc|]. by intros E; rewrite Hs, E.
Qed.

(** Every statement keeps the contents. *)
Definition keeps_contents (m : db unit) : Prop := ∀ d,
  contents (m d).2 = contents d ∧ (sql_faults d = [] → sql_faults (m d).2 = []).

Lemma keeps_dbind m k : keeps_contents m → (∀ a, keeps_contents (k a)) → keeps_contents (dbind m k).
Proof.
  intros Hm Hk d. unfold dbind. destruct (Hm d) as [Hc Hf]. destruct (m d) as [[a|e] d']; [|done].
  destruct (Hk a d') as [Hc' Hf']. cbn in *. split; [congruence|auto].
Qed.
Lemma keeps_ignored m : keeps_contents m → keeps_contents (ignored m).
Proof. intros Hm d. apply Hm. Qed.

Lemma add_column_keeps c : keeps_contents (add_column c).
Proof.
  intros d. apply statement_contents. clear d. intros [e [t|] p r fl] d'; [|done].
  cbn [tasks_table mbind option_bind]. destruct (has_column c t) eqn:E; [done|]. intros [= <-].
  split; [|done]. unfold contents. cbn -[with_column]. by rewrite (visible_with_column c).
Qed.

Lemma open_schema_keeps : keeps_contents open_schema.
Proof.
  unfold open_schema, create_schema, migrate.
  repeat first [apply keeps_dbind; [|intros _] | apply keeps_ignored, add_column_keeps].
  all: intros d; apply statement_contents; clear d; intros [e t p r fl] d'; cbn; intros [= <-].
  - done.
  - by destruct e.
  - by destruct t.
  - by destruct p.
  - by destruct r.
Qed.

(** Every table is there with every column. *)
Definition ready (d : Database) : bool :=
  match d with
  | mkDatabase (Some _) (Some (mkTaskTable true true true _)) (Some _) (Some _) [] => true
  | _ => false
  end.

Lemma ready_shape d : ready d = true → ∃ e rows p r,
  d = mkDatabase (Some e) (Some (mkTaskTable true true true rows)) (Some p) (Some r) [].
Proof. destruct d as [[e|] [[[] [] [] rows]|] [p|] [r|] [|]]; try done. by intros _; repeat eexists. Qed.

Lemma ready_again e rows p r :
  let d := mkDatabase (Some e) (Some (mkTaskTable true true true rows)) (Some p) (Some r) [] in
  open_schema d = (Ok tt, d) ∧ connected d = Some (contents d).
Proof. split; [done|]. unfold contents. cbn [fmap option_fmap option_map tasks_table default]. by rewrite visible_all. Qed.

(** Opening without a failing statement leaves every table with every column. *)
Lemma open_schema_ready d : sql_faults d = [] →
  match open_schema d with (Ok _, d') => ready d' | _ => false end = true.
Proof.
  destruct d as [e t p r fl]. cbn [sql_faults]. intros ->.
  destruct e, p, r, t as [[[] [] [] rows]|]; vm_compute; reflexivity.
Qed.

(** C23: opening a database migrates it without losing anything: whatever tables
    an earlier version left, with or without the columns for recorded results,
    and whatever statements fail, no row is lost or changed; when none fails the
    database opens, every statement of the node can run on it, new tables are
    empty and new columns hold no value, and opening it again changes
    nothing. *)
Theorem schema_migration d :
  contents (open_schema d).2 = contents d ∧
  (sql_faults d = [] →
   (open_schema d).1 = Ok tt ∧ connected (open_schema d).2 = Some (contents d) ∧
   open_schema (open_schema d).2 = (Ok tt, (open_schema d).2)).
Proof.
  split; [apply open_schema_keeps|]. intros Hf.
  destruct (open_schema_keeps d) as [<- _]. pose proof (open_schema_ready d Hf) as Hr.
  destruct (open_schema d) as [[[]|] d']; [|done]. apply ready_shape in Hr as (e & rows & p & r & ->).
  destruct (ready_again e rows p r) as [Ho Hc]. cbn [fst snd]. exact (conj eq_refl (conj Hc Ho)).
Qed.

(** A migration that fails is not reported: the database opens, and the query
    for the recorded results cannot run on it. *)
Theorem failed_migration_unreported :
  let old := mkDatabase (Some []) (Some (mkTaskTable false false false ∅)) (Some ∅) (Some ∅)
               [false; false; false; false; false; true] in
  (open_schema old).1 = Ok tt ∧ connected (open_schema old).2 = None.
Proof. by vm_compute. Qed.

Module Samples.

(** A database of an older version: one finished task, no columns for recorded
    results, no reputation table. *)
Definition old_database : Database :=
  mkDatabase (Some [(5, "started", "{}")]%string)
    (Some (mkTaskTable false false false {["t1" := mkTaskRow "finished" (Some "n1") 7 None None None]}%string))
    (Some ∅) None [].

Lemma schema_migration_witness :
  task_rows <$> connected (open_schema old_database).2
    = Some {["t1" := mkTaskRow "finished" (Some "n1") 7 None None None]}%string ∧
  connected (open_schema old_database).2 = Some (contents old_database).
Proof. split; [by vm_compute|]. exact (proj1 (proj2 (proj2 (schema_migration old_database) eq_refl))). Defined.

End Samples.
