(* ===== verification/Node.v ===== *)
(** The node (crates/peerless-node/src/lib.rs), server side: the shared state,
    the request budget, membership and revocation, uploads, task reservations
    and execution, and the dispatcher of signed requests.  Every lock section
    is one state change; the clock and the host measurements are sequences of
    readings, and a reading is consumed by every call. *)

From S2P Require Import Network Prelude External Core Protocol FileSystem Storage.
From S2P Require Import Merkle Consensus Ledger Compute State Metadata.
From Stdlib Require Import Strings.Byte.
From stdpp Require Import pretty.
#[local] Open Scope Z_scope.
#[local] Open Scope result_scope.

Definition CONTENT_CHUNK_SIZE : Z := 64 * 1024.
Definition MAX_CONTENT_SIZE : Z := 512 * 1024 * 1024.
Definition MAX_ACTIVE_UPLOADS : nat := 4.
Definition MAX_IN_FLIGHT_UPLOAD_BYTES : Z := 512 * 1024 * 1024.
Definition HOST_MEMORY_RESERVE : Z := 1024 * 1024 * 1024.
Definition MAX_CONCURRENT_TASKS : nat := 1.
Definition REQUEST_WINDOW_MILLIS : Z := 60000.
Definition MAX_REQUESTS_PER_IDENTITY_PER_WINDOW : Z := 4096.
Definition MAX_REQUESTS_GLOBAL_PER_WINDOW : Z := 16384.
Definition MAX_MEMBERSHIP_FILE_BYTES : Z := 1024 * 1024.
Definition MAX_ISSUED_MEMBERSHIPS : nat := 4096.

(** ** Data *)

(** [RequestBudget]: the requests counted in the current window. *)
Record RequestBudget := mkRequestBudget {
  window_started_at : Z;
  global : Z;
  identities : gmap NodeId Z;
}.

Record MemberAccess := mkMemberAccess {
  access_permissions : gset string;
  access_expires_at : option Z;
}.

Record MembershipPolicy := mkMembershipPolicy {
  policy_network_id : string;
  permissions : gmap NodeId MemberAccess;
}.

Record UploadSession := mkUploadSession {
  total_size : Z;
  chunk_size : Z;
  chunks : list (option bytes);
}.

Record PendingTask := mkPendingTask {
  p_task : Task;
  p_requester : NodeId;
  lease_expires_at : Z;
  running : bool;
}.

Record CompletedTask := mkCompletedTask {
  c_task : Task;
  c_requester : NodeId;
  c_result : SignedExecutionRecord;
}.

(** The uploads in progress, by uploader and content. *)
Abbreviation uploads_table := (@gmap (NodeId * ContentId) _ _ UploadSession).

(** ** The request budget *)

(** [u64::saturating_sub]. *)
Definition saturating_sub (a b : Z) : Z := Z.max 0 (a - b).

Definition consume_request_budget (b : RequestBudget) (signer : NodeId) (at_ : Z) :
    bool * RequestBudget :=
  let b := if REQUEST_WINDOW_MILLIS <=? saturating_sub at_ (window_started_at b)
           then mkRequestBudget at_ 0 ∅ else b in
  if MAX_REQUESTS_GLOBAL_PER_WINDOW <=? global b then (false, b)
  else
    let count := default 0 (identities b !! signer) in
    let entered := mkRequestBudget (window_started_at b) (global b) (<[signer := count]> (identities b)) in
    if MAX_REQUESTS_PER_IDENTITY_PER_WINDOW <=? count then (false, entered)
    else (true, mkRequestBudget (window_started_at b) (global b + 1)
                  (<[signer := count + 1]> (identities b))).

(** ** Permissions *)

Definition allows (a : MemberAccess) (permission : string) (at_ : Z) : bool :=
  match access_expires_at a with None => true | Some expiry => at_ <? expiry end
  && (bool_decide ("*" ∈ access_permissions a) || bool_decide (permission ∈ access_permissions a)).

Definition permission_for (m : Message) : string :=
  match m with
  | GetCapability | Capability _ => "observe"
  | HasContent _ | CheckContent _ | GetContent _ | Content _ _ | ContentStart _ _ _
  | ContentChunk _ _ _ _ | ContentComplete _ => "content"
  | TaskOffer _ _ _ | TaskAccept _ | TaskReject _ _ | TaskCommit _ | TaskStarted _ _
  | TaskError _ _ | TaskCancel _ | TaskResult _ => "execute"
  | StateSnapshot _ _ => "state"
  | LedgerBlock _ => "ledger"
  end.

Definition policy_allows (p : MembershipPolicy) (signer : NodeId) (permission : string) (at_ : Z) : bool :=
  match permissions p !! signer with Some a => allows a permission at_ | None => false end.

Definition access_of (m : Membership) : MemberAccess :=
  mkMemberAccess (list_to_set (ms_permissions m)) (ms_expires_at m).

(** ** Uploads *)

(** The bytes reserved by the sessions other than [key]. *)
Definition reserved_by_others (u : uploads_table) (key : NodeId * ContentId) : Z :=
  map_fold (λ k s acc, if bool_decide (k = key) then acc else acc + total_size s) 0 u.

Section uploads.
Context `{Sha256, Hex}.

Definition content_start (u : uploads_table) (signer : NodeId) (id : ContentId) (size chunk : Z) :
    Message * uploads_table :=
  let key := (signer, id) in
  let already_present := bool_decide (is_Some (u !! key)) in
  let valid :=
    (size <=? MAX_CONTENT_SIZE) && (chunk =? CONTENT_CHUNK_SIZE)
    && (already_present || (base.size u <? MAX_ACTIVE_UPLOADS)%nat)
    && match checked_add (reserved_by_others u key) size with
       | Some total => total <=? MAX_IN_FLIGHT_UPLOAD_BYTES
       | None => false
       end in
  if valid then
    let count := Z.to_nat (div_ceil size chunk) in
    (HasContent id, <[key := mkUploadSession size chunk (replicate count None)]> u)
  else
    (TaskError "" ("content transfer exceeds bounded upload budget for " +:+ ContentId_to_string id), u).

Definition content_chunk (u : uploads_table) (signer : NodeId) (id : ContentId) (index : Z)
    (b : bytes) (chunk_hash : ContentId) : Message * uploads_table :=
  let key := (signer, id) in
  let refused := (TaskError "" "invalid content chunk", delete key u) in
  match u !! key with
  | None => refused
  | Some s =>
      if ContentId_verify chunk_hash b && (Z.of_nat (length b) <=? chunk_size s)
         && (index <? Z.of_nat (length (chunks s)))
      then (HasContent chunk_hash,
            <[key := mkUploadSession (total_size s) (chunk_size s)
                       (<[Z.to_nat index := Some b]> (chunks s))]> u)
      else refused
  end.

(** What [ContentComplete] makes of the session it removed: the bytes to store,
    or the refusal. *)
Definition content_complete (session : option UploadSession) (id : ContentId) : result bytes string :=
  match session with
  | Some s =>
      if forallb (λ c, bool_decide (is_Some c)) (chunks s) then
        let b := concat (omap (λ c, c) (chunks s)) in
        if (Z.of_nat (length b) =? total_size s) && ContentId_verify id b then Ok b
        else Err "content size or final hash mismatch"
      else Err "content transfer incomplete"
  | None => Err "content transfer incomplete"
  end.

End uploads.

(** ** The node *)

(** The fields of [Inner] that never change. *)
Record Config `{Keys} := mkConfig {
  identity : NodeIdentity;
  cas : path;
  state_store : StateStore;
  peer_cache : path;
  membership_file : path;
  issued_memberships_file : path;
}.
Arguments mkConfig {_} _ _ _ _ _ _.

(** The fields behind locks. *)
Record Inner := mkInner {
  pending : gmap string PendingTask;
  completed : gmap string CompletedTask;
  placement_counts : gmap NodeId Z;
  ledger : Ledger;
  membership : option MembershipPolicy;
  issued_memberships : list Membership;
  revoked_members : gset NodeId;
  request_budget : RequestBudget;
  uploads : uploads_table;
  metadata : Metadata;
}.

Definition set_pending x (i : Inner) : Inner :=
  mkInner x (completed i) (placement_counts i) (ledger i) (membership i) (issued_memberships i)
    (revoked_members i) (request_budget i) (uploads i) (metadata i).
Definition set_completed x (i : Inner) : Inner :=
  mkInner (pending i) x (placement_counts i) (ledger i) (membership i) (issued_memberships i)
    (revoked_members i) (request_budget i) (uploads i) (metadata i).
Definition set_placement_counts x (i : Inner) : Inner :=
  mkInner (pending i) (completed i) x (ledger i) (membership i) (issued_memberships i)
    (revoked_members i) (request_budget i) (uploads i) (metadata i).
Definition set_ledger x (i : Inner) : Inner :=
  mkInner (pending i) (completed i) (placement_counts i) x (membership i) (issued_memberships i)
    (revoked_members i) (request_budget i) (uploads i) (metadata i).
Definition set_membership x (i : Inner) : Inner :=
  mkInner (pending i) (completed i) (placement_counts i) (ledger i) x (issued_memberships i)
    (revoked_members i) (request_budget i) (uploads i) (metadata i).
Definition set_issued_memberships x (i : Inner) : Inner :=
  mkInner (pending i) (completed i) (placement_counts i) (ledger i) (membership i) x
    (revoked_members i) (request_budget i) (uploads i) (metadata i).
Definition set_revoked_members x (i : Inner) : Inner :=
  mkInner (pending i) (completed i) (placement_counts i) (ledger i) (membership i) (issued_memberships i)
    x (request_budget i) (uploads i) (metadata i).
Definition set_request_budget x (i : Inner) : Inner :=
  mkInner (pending i) (completed i) (placement_counts i) (ledger i) (membership i) (issued_memberships i)
    (revoked_members i) x (uploads i) (metadata i).
Definition set_uploads x (i : Inner) : Inner :=
  mkInner (pending i) (completed i) (placement_counts i) (ledger i) (membership i) (issued_memberships i)
    (revoked_members i) (request_budget i) x (metadata i).
Definition set_metadata x (i : Inner) : Inner :=
  mkInner (pending i) (completed i) (placement_counts i) (ledger i) (membership i) (issued_memberships i)
    (revoked_members i) (request_budget i) (uploads i) x.

(** A node in its environment: the shared state, the file system and the number
    of readings taken so far. *)
Record NodeState := mkNodeState { inner : Inner; world : World; ticks : nat }.

Inductive NodeError `{Automerge} :=
| NodeIo (k : ErrorKind)
| NodeIdentityError (e : IdentityError)
| NodeProtocol (e : ProtocolError)
| NodeStorage (e : CasError)
| NodeNetwork (e : NetworkError)
| NodeWasm (e : WasmError)
| Rejected (reason : string)
| UnexpectedResponse
| NodeP2p (reason : string)
| MembershipRequired
| InsufficientReplicas (actual : Z) (minimum : Z)
| NodeStateError (e : StateError)
| NodeLedger (e : LedgerError)
| NodeMetadata (e : MetadataError).

(** ** State and errors *)

(** A computation over a shared state: on an error the changes made so far
    stay. *)
Definition act `{Automerge} (S A : Type) : Type := S → result A NodeError * S.

Section act.
Context `{Automerge} {S : Type}.

Definition aret {A} (a : A) : act S A := λ s, (Ok a, s).
Definition afail {A} (e : NodeError) : act S A := λ s, (Err e, s).
Definition abind {A B} (m : act S A) (k : A → act S B) : act S B :=
  λ s, match m s with (Ok a, s') => k a s' | (Err e, s') => (Err e, s') end.
Definition alift {A E} (f : E → NodeError) (r : result A E) : act S A := λ s, (rmap_err f r, s).
Definition aget {A} (f : S → A) : act S A := λ s, (Ok (f s), s).

End act.

Notation "'let*' x := e 'in' k" := (abind e (fun x => k))
  (at level 10, x binder, e at level 100, k at level 200,
   format "'[v' 'let*'  x  :=  e  'in' '/' k ']'") : result_scope.
Notation "e ';*' k" := (abind e (fun _ => k))
  (at level 100, k at level 200, right associativity) : result_scope.

(** What the host reports: the processor load in percent, the number of
    processors, the free memory and the free space of every disk. *)
Record Host := mkHost { cpu_usage : f64; cpus : Z; host_memory : Z; disks : list Z }.

Definition I32_of_le (b : bytes) : Z :=
  let n := be_val (rev b) in if n <? 2 ^ 31 then n else n - 2 ^ 32.
Definition le_of_I32 (z : Z) : bytes := rev (be_bytes 4 z).

Section node.
Context (pid : N) `{Sha256, Hex, Keys, Automerge, Wasmtime}.
Context `{Json Message, Json ExecutionRecord, Json SignedExecutionRecord, Json Task, Json NodeId}.
Context `{Json LedgerEvent, Json SignedEvent, Json Block, Json Proposal, Json MembershipPayload}.
Context `{Json Invitation, Json (list Membership)}.
(** The readings of the clock and of the host, and [Display] for errors. *)
Context (clock : nat → Z) (host : nat → Host) (error_text : NodeError → string).
Context (self : Config).

Abbreviation node := (act NodeState).

Definition now : node Z := λ s,
  (Ok (clock (ticks s)), mkNodeState (inner s) (world s) (S (ticks s))).
Definition read_host : node Host := λ s, (Ok (host (ticks s)), mkNodeState (inner s) (world s) (S (ticks s))).

(** A lock section that reads or changes the shared state. *)
Definition locked {A} (f : Inner → A) : node A := aget (λ s, f (inner s)).
Definition modify (f : Inner → Inner) : node unit :=
  λ s, (Ok tt, mkNodeState (f (inner s)) (world s) (ticks s)).
(** A call of the file system, of the metadata database. *)
Definition files {A E} (f : E → NodeError) (m : io A E) : node A := λ s,
  let '(r, w) := m (world s) in (rmap_err f r, mkNodeState (inner s) w (ticks s)).
Definition database {A} (q : meta A) : node A := λ s,
  let '(r, m) := q (metadata (inner s)) in
  (rmap_err NodeMetadata r, mkNodeState (set_metadata m (inner s)) (world s) (ticks s)).

Definition self_id : NodeId := node_id (identity self).

Definition budget (signer : NodeId) (at_ : Z) : node bool := λ s,
  let '(ok, b) := consume_request_budget (request_budget (inner s)) signer at_ in
  (Ok ok, mkNodeState (set_request_budget b (inner s)) (world s) (ticks s)).

(** ** Membership *)

Definition reject {A} (reason : string) : node A := afail (Rejected reason).

(** The loop over the certificates. *)
Fixpoint accept_certificates (net : string) (trusted : gset NodeId) (at_ : Z)
    (acc : gmap NodeId MemberAccess) (certificates : list Membership) :
    result (gmap NodeId MemberAccess) LedgerError :=
  match certificates with
  | [] => Ok acc
  | c :: rest =>
      if bool_decide (ms_network_id c = net) then
        let? ok := Membership_verify c trusted at_ in
        accept_certificates net trusted at_ (if ok : bool then <[ms_member c := access_of c]> acc else acc) rest
      else accept_certificates net trusted at_ acc rest
  end.

Definition enforce_membership (net : string) (certificates : list Membership) (trusted : gset NodeId)
    (at_ : Z) : node unit :=
  let* perms := alift NodeLedger (accept_certificates net trusted at_ ∅ certificates) in
  modify (set_membership (Some (mkMembershipPolicy net perms))).

Definition grant (member : NodeId) (a : MemberAccess) (p : MembershipPolicy) : MembershipPolicy :=
  mkMembershipPolicy (policy_network_id p) (<[member := a]> (permissions p)).

Definition activate_invitation (i : Invitation) (at_ : Z) : node unit :=
  let* ok := alift NodeLedger (Invitation_verify_for i self_id at_) in
  if negb ok then reject "persisted invitation is invalid or expired"
  else
    let m := inv_membership i in
    enforce_membership (ms_network_id m) [m] {[ms_issuer m]} at_ ;*
    modify (λ s, set_membership
      (grant (ms_issuer m) (mkMemberAccess {["*"]} (ms_expires_at m)) <$> membership s) s).

Definition install_invitation (i : Invitation) (at_ : Z) : node unit :=
  let* ok := alift NodeLedger (Invitation_verify_for i self_id at_) in
  if negb ok then reject "invitation is invalid, expired, or addressed to another node"
  else
    let* b := alift (λ _, NodeProtocol ProtocolJson) (ok_or (to_vec_pretty i) tt) in
    if MAX_MEMBERSHIP_FILE_BYTES <? Z.of_nat (length b) then reject "invitation exceeds size limit"
    else
      files NodeIo (atomic_replace pid (membership_file self) b (Some 0x180)) ;*
      activate_invitation i at_.

(** The certificate replaces the one of the same member, or is added last. *)
Fixpoint replace_member (m : Membership) (l : list Membership) : option (list Membership) :=
  match l with
  | [] => None
  | known :: rest =>
      if bool_decide (ms_member known = ms_member m) then Some (m :: rest)
      else cons known <$> replace_member m rest
  end.

Definition register_issued_membership (m : Membership) (at_ : Z) (persist : bool) : node unit :=
  let* revoked := locked revoked_members in
  if bool_decide (ms_member m ∈ revoked) then reject "member has been revoked"
  else
    let* valid := if bool_decide (ms_issuer m = self_id)
                  then alift NodeLedger (Membership_verify m {[self_id]} at_) else aret false in
    if negb valid then reject "issued membership is not a valid local certificate"
    else
      let* issued := locked issued_memberships in
      let* candidate := match replace_member m issued with
        | Some l => aret l
        | None => if (MAX_ISSUED_MEMBERSHIPS <=? length issued)%nat
                  then reject "issued membership limit exceeded" else aret (issued ++ [m])
        end in
      let* b := if persist then
          let* b := alift (λ _, NodeProtocol ProtocolJson) (ok_or (to_vec_pretty candidate) tt) in
          if MAX_MEMBERSHIP_FILE_BYTES <? Z.of_nat (length b)
          then reject "issued memberships exceed size limit" else aret (Some b)
        else aret None in
      let* policy := locked membership in
      match policy with
      | None => afail MembershipRequired
      | Some active =>
          if negb (bool_decide (policy_network_id active = ms_network_id m))
          then reject "issued membership belongs to another network"
          else
            match b with
            | Some b => files NodeIo (atomic_replace pid (issued_memberships_file self) b (Some 0x180))
            | None => aret tt
            end ;*
            modify (set_membership (Some (grant (ms_member m) (access_of m) active))) ;*
            modify (set_issued_memberships candidate)
      end.

Definition has_membership_at (i : Inner) (at_ : Z) : bool :=
  match membership i ≫= λ p, permissions p !! self_id with
  | Some a => match access_expires_at a with None => true | Some expiry => at_ <? expiry end
  | None => false
  end.
Definition has_membership : node bool :=
  let* at_ := now in locked (λ i, has_membership_at i at_).

Definition issue_invitation (net : string) (member : NodeId) (perms : list string)
    (expires_at : option Z) (boot : list string) : node Invitation :=
  let* issued := now in
  let* i := alift NodeLedger (Invitation_issue net member perms expires_at boot issued (identity self)) in
  let* active := has_membership in
  if active : bool then
    let* at_ := now in
    register_issued_membership (inv_membership i) at_ true ;* aret i
  else aret i.

(** ** Revocation *)

(** What a block says about members: revoked ([true]) or joined ([false]). *)
Definition revocation_changes (es : list SignedEvent) : list (NodeId * bool) :=
  omap (λ e, match event e with
             | NodeRevoked m => Some (m, true)
             | NodeJoined m => Some (m, false)
             | _ => None
             end) es.

Definition apply_change (revoked : gset NodeId) (c : NodeId * bool) : gset NodeId :=
  if c.2 then revoked ∪ {[c.1]} else revoked ∖ {[c.1]}.

Definition apply_revocations (changes : list (NodeId * bool)) (i : Inner) : Inner :=
  let revoked := foldl apply_change (revoked_members i) changes in
  set_membership
    ((λ p, mkMembershipPolicy (policy_network_id p)
             (filter (λ e, e.1 ∉ revoked) (permissions p))) <$> membership i)
    (set_revoked_members revoked i).

Definition refresh_revocations_from_ledger : node unit :=
  modify (λ i, apply_revocations (mjoin (revocation_changes ∘ events <$> blocks (ledger i))) i).

Definition append_ledger_block {C} `{!ConsensusEngine C} (b : Block) (c : C) : node unit :=
  let changes := revocation_changes (events b) in
  let* l := locked ledger in
  let* r := files NodeLedger (Ledger_append pid l b c) in
  modify (set_ledger r.2) ;*
  modify (apply_revocations changes).

(** ** Capacity and reservations *)

(** A reservation is kept while it runs or its lease and deadline are ahead. *)
Definition reservation_live (at_ : Z) (r : PendingTask) : bool :=
  running r || (at_ <? lease_expires_at r)
               && match deadline (p_task r) with None => true | Some d => at_ <? d end.

Definition prune_reservations (at_ : Z) (p : gmap string PendingTask) : gmap string PendingTask :=
  filter (λ e, reservation_live at_ e.2 = true) p.

Definition reserved_memory (p : gmap string PendingTask) : Z :=
  map_fold (λ _ r acc, acc + default 0 (task_memory_limit (p_task r))) 0 p.

(** The measured capability, given the reservations that were left. *)
Definition capability_of (observed_at : Z) (h : Host) (p : gmap string PendingTask) : NodeCapability :=
  let available_cpu := unit_ (fsub fone (fdiv (cpu_usage h) (f_of_Z 100))) in
  mkNodeCapability self_id
    (Z.min (cpus h) (2 ^ 16 - 1))
    available_cpu
    (saturating_sub (saturating_sub (host_memory h) HOST_MEMORY_RESERVE) (reserved_memory p))
    (foldr Z.add 0 (disks h))
    ["wasmtime-component-v1"; "wasmtime-bytes-v1"]
    Unknown
    (fsub fone available_cpu)
    (Z.of_nat (MAX_CONCURRENT_TASKS - size p))
    (observed_at + 30000).

Definition node_capability : node NodeCapability :=
  let* observed_at := now in
  modify (λ i, set_pending (prune_reservations observed_at (pending i)) i) ;*
  let* remaining := locked pending in
  let* h := read_host in
  aret (capability_of observed_at h remaining).

Definition public_capability (at_ : Z) : NodeCapability :=
  mkNodeCapability self_id 0 fzero 0 0 [] Unknown fzero 0 (at_ + 30000).

(** The second lock section of [accept_offer]: answers for a known identifier,
    refuses without capacity, or reserves ([inr]). *)
Definition reserve (task : Task) (requester : NodeId) (expires_at observed_at : Z)
    (cap : NodeCapability) (p : gmap string PendingTask) : Message + gmap string PendingTask :=
  let id := task_id task in
  match p !! id with
  | Some existing =>
      inl (if bool_decide (p_requester existing = requester) && bool_decide (p_task existing = task)
           then TaskAccept id else TaskReject id "task id collision")
  | None =>
      if negb (eligible task cap observed_at) || (MAX_CONCURRENT_TASKS <=? size p)%nat
      then inl (TaskReject id "executor has no safe memory or task-slot capacity")
      else inr (<[id := mkPendingTask task requester expires_at false]> p)
  end.

(** [&&] is lazy: the clock and the store are only asked when the conditions
    before them hold. *)
Definition structurally_valid (task : Task) (requester : NodeId) (expires_at : Z) (signer : NodeId) :
    node bool :=
  if negb (bool_decide (task_id task = "")) && bool_decide (requester = signer) then
    let* at_ := now in
    if at_ <? expires_at then
      let* has_component := files NodeStorage (FileCas_contains (cas self) (component task)) in
      if has_component : bool then files NodeStorage (FileCas_contains (cas self) (input task))
      else aret false
    else aret false
  else aret false.

Definition accept_offer (task : Task) (requester : NodeId) (expires_at : Z) (signer : NodeId) :
    node Message :=
  let id := task_id task in
  let* valid := structurally_valid task requester expires_at signer in
  if negb valid then aret (TaskReject id "invalid, expired, unauthorised, or content missing")
  else
    let* done_ := locked (λ i, completed i !! id) in
    match done_ with
    | Some existing =>
        aret (if bool_decide (c_requester existing = requester) && bool_decide (c_task existing = task)
              then TaskAccept id else TaskReject id "task id collision")
    | None =>
        let* observed_at := now in
        let* cap := node_capability in
        let* p := locked pending in
        match reserve task requester expires_at observed_at cap p with
        | inl m => aret m
        | inr p' =>
            modify (set_pending p') ;*
            let* at1 := now in
            database (meta_task id "accepted" (Some self_id) at1) ;*
            let* at2 := now in
            database (meta_event at2 "task.accepted" id) ;*
            aret (TaskAccept id)
        end
    end.

(** ** Execution *)

Definition drop_pending (id : string) (i : Inner) : Inner := set_pending (delete id (pending i)) i.

Definition mark_running (r : PendingTask) : PendingTask :=
  mkPendingTask (p_task r) (p_requester r) (lease_expires_at r) true.

(** The first lock section of [execute]: the recorded result. *)
Definition recorded_result (id : string) (signer : NodeId) : node (option SignedExecutionRecord) :=
  let* done_ := locked (λ i, completed i !! id) in
  match done_ with
  | Some c =>
      if negb (bool_decide (c_requester c = signer)) then reject "commit signer is not the requester"
      else aret (Some (c_result c))
  | None => aret None
  end.

(** The second lock section of [execute]: the claim of the reservation. *)
Definition claim (id : string) (signer : NodeId) : node Task :=
  let* accepted := locked (λ i, pending i !! id) in
  match accepted with
  | None => afail UnexpectedResponse
  | Some r =>
      if negb (bool_decide (p_requester r = signer)) then reject "commit signer is not the requester"
      else
        let* at1 := now in
        let* expired := if lease_expires_at r <=? at1 then aret true
          else match deadline (p_task r) with
               | None => aret false
               | Some d => let* at2 := now in aret (d <=? at2)
               end in
        if expired : bool then
          modify (drop_pending id) ;* reject "task lease or deadline expired"
        else if running r then reject "task is already running"
        else
          modify (λ i, set_pending (<[id := mark_running r]> (pending i)) i) ;*
          aret (p_task r)
  end.

Definition append_ledger_event (e : LedgerEvent) : node unit :=
  let* signed := alift NodeLedger (SignedEvent_seal e (identity self)) in
  let* consensus := alift NodeLedger (QuorumConsensus_new "local" {[self_id]} 1) in
  let* l := locked ledger in
  let* at_ := now in
  let* proposal := alift NodeLedger (next_block l [signed] at_ "local") in
  let '(r, block) := finalize consensus proposal [identity self] in
  alift NodeLedger r ;*
  let* appended := files NodeLedger (Ledger_append pid l block consensus) in
  modify (set_ledger appended.2).

(** The computation itself. *)
Definition run_component (task : Task) (component raw : bytes) (limit : Z) : result bytes WasmError :=
  if bool_decide (runtime (requirements task) = "wasmtime-bytes-v1") then
    let? m := PureBytesModule_parse component in
    invoke_bytes_with_limit m "run" raw limit
  else if negb (length raw =? 4)%nat then Err WasmInvalid
  else
    let? m := PureI32Module_parse component in
    let? out := invoke_i32_with_limit m "run" (I32_of_le raw) limit in
    Ok (le_of_I32 out).

Definition execution_record (task : Task) (output : ContentId) (started finished : Z) : ExecutionRecord :=
  mkExecutionRecord (task_id task) self_id (component task) (input task) output
    (ContentId_of (component task ++ input task ++ output)) started finished.

Definition execute_body (id : string) (signer : NodeId) (task : Task) : node Message :=
  let* at1 := now in
  database (meta_task id "running" (Some self_id) at1) ;*
  let* started := now in
  let* component := files NodeStorage (FileCas_get (cas self) (component task)) in
  let* raw := files NodeStorage (FileCas_get (cas self) (input task)) in
  match task_memory_limit task with
  | None => reject "task memory limit is unsafe"
  | Some limit =>
      let* out := alift NodeWasm (run_component task component raw limit) in
      let* output := files NodeStorage (FileCas_put pid (cas self) out) in
      let* finished := now in
      let* r := alift NodeProtocol
        (SignedExecutionRecord_seal (execution_record task output started finished) (identity self)) in
      modify (λ i, set_completed (<[id := mkCompletedTask task signer r]> (completed i)) i) ;*
      append_ledger_event (TaskCompleted (record r)) ;*
      let* at2 := now in
      database (meta_completed_task task signer r at2) ;*
      let* at3 := now in
      database (meta_event at3 "task.completed" id) ;*
      aret (TaskResult r)
  end.

(** The reservation goes away whatever the outcome. *)
Definition execute_end (id : string) (result : result Message NodeError) : node Message := λ s,
  (result, (modify (drop_pending id) s).2).

Definition execute (id : string) (signer : NodeId) : node Message :=
  let* recorded := recorded_result id signer in
  match recorded with
  | Some r => aret (TaskResult r)
  | None =>
      let* task := claim id signer in
      λ s, let '(r, s') := execute_body id signer task s in execute_end id r s'
  end.

Definition cancel (id : string) (signer : NodeId) (p : gmap string PendingTask) :
    Message * gmap string PendingTask :=
  match p !! id with
  | Some r =>
      if bool_decide (p_requester r = signer) then
        if negb (running r) then (TaskError id "cancelled", delete id p)
        else (TaskError id "task is already running", p)
      else (TaskError id "not found or not requester", p)
  | None => (TaskError id "not found or not requester", p)
  end.

(** ** The dispatcher *)

Definition no_task (reason : string) : Message := TaskReject "" reason.

Definition store (b : bytes) (reply : Message) : node Message :=
  files NodeStorage (FileCas_put pid (cas self) b) ;* aret reply.

Definition change_uploads (f : uploads_table → Message * uploads_table) : node Message := λ s,
  let '(m, u) := f (uploads (inner s)) in
  (Ok m, mkNodeState (set_uploads u (inner s)) (world s) (ticks s)).

Definition change_pending (f : gmap string PendingTask → Message * gmap string PendingTask) :
    node Message := λ s,
  let '(m, p) := f (pending (inner s)) in
  (Ok m, mkNodeState (set_pending p (inner s)) (world s) (ticks s)).

Definition respond (signer : NodeId) (message : Message) : node Message :=
  match message with
  | Content id b =>
      if ContentId_verify id b then store b (HasContent id) else aret (no_task "content hash mismatch")
  | ContentStart id size chunk => change_uploads (λ u, content_start u signer id size chunk)
  | ContentChunk id index b h => change_uploads (λ u, content_chunk u signer id index b h)
  | ContentComplete id =>
      let* session := locked (λ i, uploads i !! (signer, id)) in
      modify (λ i, set_uploads (delete (signer, id) (uploads i)) i) ;*
      match content_complete session id with
      | Ok b => store b (HasContent id)
      | Err reason => aret (TaskError "" reason)
      end
  | TaskOffer task requester expires_at => accept_offer task requester expires_at signer
  | TaskCommit id => execute id signer
  | TaskCancel id => change_pending (cancel id signer)
  | GetContent id =>
      let* b := files NodeStorage (FileCas_get (cas self) id) in aret (Content id b)
  | CheckContent id =>
      let* present := files NodeStorage (FileCas_contains (cas self) id) in
      aret (if present : bool then HasContent id else TaskError "" "content not found")
  | GetCapability => let* at_ := now in aret (Capability (public_capability at_))
  | StateSnapshot document snapshot =>
      files NodeStateError (StateStore_merge_snapshot pid (state_store self) document snapshot) ;*
      aret (HasContent (ContentId_of snapshot))
  | LedgerBlock _ => aret (no_task "ledger block requires configured quorum verification")
  | other => aret other
  end.

Definition sealed (m : Message) : node SignedEnvelope :=
  alift NodeProtocol (SignedEnvelope_seal m (identity self)).

(** The clock is read again for the permission check, and only when the policy
    knows the signer. *)
Definition authorised (signer : NodeId) (required : string) (p : MembershipPolicy) : node bool :=
  match permissions p !! signer with
  | Some a => let* at_ := now in aret (allows a required at_)
  | None => aret false
  end.

Definition handle (envelope : SignedEnvelope) : node SignedEnvelope :=
  let* opened := alift NodeProtocol (open_with_signer (A := Message) envelope) in
  let '(message, signer) := opened in
  let* at_ := now in
  let* within := budget signer at_ in
  if negb within then sealed (no_task "request rate limit exceeded")
  else
    let* policy := locked membership in
    let* allowed := match policy with
      | Some p => authorised signer (permission_for message) p
      | None => aret true
      end in
    if negb allowed then
      sealed (no_task ("signer is not authorized for " +:+ permission_for message +:+ " in "
                       +:+ match policy with Some p => policy_network_id p | None => "" end))
    else
      let* response := respond signer message in
      sealed response.

(** [None] is the panic of a node that cannot sign. *)
Definition or_panic (r : result SignedEnvelope ProtocolError) : option SignedEnvelope :=
  match r with Ok e => Some e | Err _ => None end.

Definition handle_or_reject (envelope : SignedEnvelope) (s : NodeState) :
    option SignedEnvelope * NodeState :=
  match handle envelope s with
  | (Ok e, s') => (Some e, s')
  | (Err error, s') =>
      (or_panic (SignedEnvelope_seal (no_task (error_text error)) (identity self)), s')
  end.

Definition transport_matches (peer : bytes) (envelope : SignedEnvelope) : bool :=
  match try_decode_protobuf (env_public_key envelope) with
  | Some public => bool_decide (to_peer_id public = peer)
  | None => false
  end.

Definition handle_p2p_or_reject (peer : bytes) (envelope : SignedEnvelope) (s : NodeState) :
    option SignedEnvelope * NodeState :=
  if transport_matches peer envelope then handle_or_reject envelope s
  else (or_panic (SignedEnvelope_seal (no_task "signed request identity differs from connected peer")
                    (identity self)), s).

End node.

(** ** Opening *)

Section opening.
Context (pid : N) `{Sha256, Hex, Keys, Automerge}.
Context `{Json ExecutionRecord, Json SignedExecutionRecord, Json Task, Json NodeId}.
Context `{Json LedgerEvent, Json SignedEvent, Json Block, Json Proposal, Json MembershipPayload}.
Context `{Json Invitation, Json (list Membership)}.
Context (clock : nat → Z).

Abbreviation node := (act NodeState).

Definition read_bounded_file (p : path) (limit : Z) : node bytes :=
  files (λ k, if decide (k = InvalidData)
              then Rejected ("persisted metadata exceeds " +:+ pretty (Z.to_N limit) +:+ " byte limit")
              else NodeIo k) (read_limited p limit).

(** The recorded results that are still worth something: signed, about their
    task, and with the output in the store. *)
Definition result_valid (cas : path) (task : Task) (r : SignedExecutionRecord) : node bool :=
  match SignedExecutionRecord_verify r with
  | Ok true =>
      if bool_decide (rec_task_id (record r) = task_id task)
         && bool_decide (rec_component (record r) = component task)
         && bool_decide (rec_input (record r) = input task)
      then files NodeStorage (FileCas_contains cas (rec_output (record r)))
      else aret false
  | _ => aret false
  end.

Fixpoint recover_completed (cas : path) (acc : gmap string CompletedTask)
    (rows : list (Task * NodeId * SignedExecutionRecord)) : node (gmap string CompletedTask) :=
  match rows with
  | [] => aret acc
  | (task, requester, r) :: rows =>
      let* valid := result_valid cas task r in
      recover_completed cas
        (if valid : bool then <[task_id task := mkCompletedTask task requester r]> acc else acc) rows
  end.

Fixpoint register_all (self : Config) (ms : list Membership) : node unit :=
  match ms with
  | [] => aret tt
  | m :: ms =>
      let* at_ := now clock in
      register_issued_membership pid self m at_ false ;* register_all self ms
  end.

Definition load_invitation (self : Config) : node unit :=
  let* present := files NodeIo (exists_ (membership_file self)) in
  if present : bool then
    let* b := read_bounded_file (membership_file self) MAX_MEMBERSHIP_FILE_BYTES in
    let* i := alift (λ _, NodeProtocol ProtocolJson) (ok_or (from_slice (A := Invitation) b) tt) in
    let* at_ := now clock in
    activate_invitation self i at_
  else aret tt.

Definition load_issued (self : Config) : node unit :=
  let* present := files NodeIo (exists_ (issued_memberships_file self)) in
  if present : bool then
    let* b := read_bounded_file (issued_memberships_file self) MAX_MEMBERSHIP_FILE_BYTES in
    let* ms := alift (λ _, NodeProtocol ProtocolJson) (ok_or (from_slice (A := list Membership) b) tt) in
    if (MAX_ISSUED_MEMBERSHIPS <? length ms)%nat then reject "issued membership limit exceeded"
    else register_all self ms
  else aret tt.

(** [open], for an identity that was loaded or generated, over the database the
    state holds. *)
Definition PeerlessNode_open (i : NodeIdentity) (data : path) : node Config :=
  let* cas := files NodeStorage (FileCas_open ("cas" :: data)) in
  files (λ _, NodeMetadata Sql) (create_dir_all ("metadata" :: data)) ;*
  let* rows := database meta_completed_tasks in
  let* completed := recover_completed cas ∅ rows in
  let* store := files NodeStateError (StateStore_open ("documents" :: "state" :: data)) in
  let* l := files NodeLedger (Ledger_open ("blocks" :: "ledger" :: data)) in
  let* at_ := now clock in
  modify (λ x, mkInner ∅ completed ∅ l None [] ∅ (mkRequestBudget at_ 0 ∅) ∅ (metadata x)) ;*
  let self := mkConfig i cas store ("known-peers.json" :: "metadata" :: data)
                ("membership-invitation.json" :: "metadata" :: data)
                ("issued-memberships.json" :: "metadata" :: data) in
  load_invitation self ;*
  load_issued self ;*
  refresh_revocations_from_ledger ;*
  aret self.

End opening.

#[global] Arguments Ledger_append : simpl never.
#[global] Arguments FileCas_put : simpl never.
#[global] Arguments FileCas_get : simpl never.
#[global] Arguments FileCas_contains : simpl never.
#[global] Arguments StateStore_merge_snapshot : simpl never.
#[global] Arguments atomic_replace : simpl never.
#[global] Arguments next_block : simpl never.
#[global] Arguments Quorum_finalize : simpl never.
#[global] Arguments SignedEnvelope_seal : simpl never.
#[global] Arguments consume_request_budget : simpl never.

(** ** Frames *)

(** What a computation leaves alone in the shared state. *)
Definition untouched `{Automerge} {X A} (f : Inner → X) (m : act NodeState A) : Prop :=
  ∀ s, f (inner (m s).2) = f (inner s).

Section frames.
Context `{Automerge} {X : Type} (f : Inner → X).

Lemma untouched_ret {A} (a : A) : untouched f (aret a).
Proof. by intros s. Qed.
Lemma untouched_fail {A} (e : NodeError) : untouched f (afail (A := A) e).
Proof. by intros s. Qed.
Lemma untouched_lift {A E} (g : E → NodeError) (r : result A E) : untouched f (alift g r).
Proof. by intros s. Qed.
Lemma untouched_locked {A} (g : Inner → A) : untouched f (locked g).
Proof. by intros s. Qed.
Lemma untouched_now clock : untouched f (now clock).
Proof. by intros s. Qed.
Lemma untouched_host host : untouched f (read_host host).
Proof. by intros s. Qed.
Lemma untouched_files {A E} (g : E → NodeError) (m : io A E) : untouched f (files g m).
Proof. intros s. unfold files. by destruct (m (world s)). Qed.
Lemma untouched_modify g : (∀ i, f (g i) = f i) → untouched f (modify g).
Proof. intros Hg s. apply Hg. Qed.
Lemma untouched_database {A} (q : meta A) :
  (∀ m i, f (set_metadata m i) = f i) → untouched f (database q).
Proof. intros Hf s. unfold database. destruct (q _). apply Hf. Qed.
Lemma untouched_bind {A B} (m : act NodeState A) (k : A → act NodeState B) :
  untouched f m → (∀ a, untouched f (k a)) → untouched f (abind m k).
Proof.
  intros Hm Hk s. unfold abind. specialize (Hm s). destruct (m s) as [[a|e] s']; [|done].
  by rewrite (Hk a s').
Qed.

End frames.

Create HintDb untouched.
#[export] Hint Resolve untouched_ret untouched_fail untouched_lift untouched_locked untouched_now
  untouched_host untouched_files : untouched.

(** Walks through a computation and leaves the parts that need an argument. *)
Ltac solve_untouched :=
  repeat (cbv beta;
  match goal with
  | |- untouched _ (abind _ _) => apply untouched_bind; [|intros ?]
  | |- untouched _ (modify _) => apply untouched_modify; intros ?; try reflexivity
  | |- untouched _ (database _) => apply untouched_database; intros ??; try reflexivity
  | |- untouched _ (reject _) => apply untouched_fail
  | |- untouched _ (match ?x with _ => _ end) => destruct x
  | |- untouched _ (let '_ := ?x in _) => destruct x
  | |- untouched _ _ => solve [auto with untouched]
  end).

(** ** Weakest preconditions *)

Definition wp `{Automerge} {S A} (m : act S A) (Q : result A NodeError → S → Prop) (s : S) : Prop :=
  Q (m s).1 (m s).2.

Section wp.
Context `{Automerge}.

Lemma wp_bind {S A B} (m : act S A) (k : A → act S B) Q s :
  wp m (λ r s', match r with Ok a => wp (k a) Q s' | Err e => Q (Err e) s' end) s → wp (abind m k) Q s.
Proof. unfold wp, abind. by destruct (m s) as [[a|e] s']. Qed.

Lemma wp_mono {S A} (m : act S A) (Q Q' : result A NodeError → S → Prop) s :
  wp m Q s → (∀ r s', Q r s' → Q' r s') → wp m Q' s.
Proof. unfold wp. auto. Qed.

Lemma wp_lift {S A E} (f : E → NodeError) (r : result A E) Q (s : S) :
  (∀ a, r = Ok a → Q (Ok a) s) → (∀ e, r = Err e → Q (Err (f e)) s) → wp (alift f r) Q s.
Proof. unfold wp, alift. destruct r; cbn; eauto. Qed.

Lemma wp_files {A E} (f : E → NodeError) (m : io A E) Q s :
  (∀ r w, m (world s) = (r, w) → Q (rmap_err f r) (mkNodeState (inner s) w (ticks s))) →
  wp (files f m) Q s.
Proof. unfold wp, files. destruct (m (world s)) eqn:Em. eauto. Qed.

Lemma wp_database {A} (q : meta A) Q s :
  (∀ r m, q (metadata (inner s)) = (r, m) →
     Q (rmap_err NodeMetadata r) (mkNodeState (set_metadata m (inner s)) (world s) (ticks s))) →
  wp (database q) Q s.
Proof. unfold wp, database. destruct (q _) eqn:E. eauto. Qed.

(** A computation that leaves [f] alone, in a context where only [f] matters. *)
Lemma wp_untouched {X A} (f : Inner → X) (m : act NodeState A) Q s :
  untouched f m → (∀ r s', f (inner s') = f (inner s) → Q r s') → wp m Q s.
Proof. intros Hm HQ. apply HQ, Hm. Qed.

Lemma wp_untouched' {X A} (f : Inner → X) (m : act NodeState A) Q s :
  wp m Q s → untouched f m → wp m (λ r s', Q r s' ∧ f (inner s') = f (inner s)) s.
Proof. intros Hm Hf. split; [exact Hm|apply Hf]. Qed.

End wp.

(** Steps to the first computation that is not a plain access. *)
Ltac wp_step :=
  match goal with
  | |- wp (abind _ _) _ _ => apply wp_bind
  | |- wp (aret ?a) ?Q ?s => change (Q (Ok a) s); cbv beta iota
  | |- wp (afail ?e) ?Q ?s => change (Q (Err e) s); cbv beta iota
  | |- wp (reject ?r) ?Q ?s => change (Q (Err (Rejected r)) s); cbv beta iota
  | |- wp (locked ?f) ?Q ?s => change (Q (Ok (f (inner s))) s); cbv beta iota
  | |- wp (now ?c) ?Q ?s =>
      change (Q (Ok (c (ticks s))) (mkNodeState (inner s) (world s) (S (ticks s)))); cbv beta iota
  | |- wp (read_host ?h) ?Q ?s =>
      change (Q (Ok (h (ticks s))) (mkNodeState (inner s) (world s) (S (ticks s)))); cbv beta iota
  | |- wp (modify ?f) ?Q ?s =>
      change (Q (Ok tt) (mkNodeState (f (inner s)) (world s) (ticks s))); cbv beta iota
  | |- wp (alift _ _) _ _ => apply wp_lift; intros ??
  | |- wp (files _ _) _ _ => apply wp_files; intros [?|?] ? ?; cbn [rmap_err]
  | |- wp (database _) _ _ => apply wp_database; intros [?|?] ? ?; cbn [rmap_err]
  | |- wp (match ?x with _ => _ end) _ _ => destruct x eqn:?
  | |- wp (let '_ := ?x in _) _ _ => destruct x eqn:?
  end; cbn [inner world ticks].
Ltac wp_auto := repeat wp_step.

Section node_frames.
Context (pid : N) `{Sha256, Hex, Keys, Automerge, Wasmtime}.
Context `{Json Message, Json ExecutionRecord, Json SignedExecutionRecord, Json Task, Json NodeId}.
Context `{Json LedgerEvent, Json SignedEvent, Json Block, Json Proposal, Json MembershipPayload}.
Context (clock : nat → Z) (host : nat → Host) (self : Config).

(** The parts of the state that admission depends on. *)
Definition admission (i : Inner) : option MembershipPolicy * list Membership * gset NodeId :=
  (membership i, issued_memberships i, revoked_members i).

Lemma untouched_event {X} (f : Inner → X) e :
  (∀ l i, f (set_ledger l i) = f i) → untouched f (append_ledger_event pid clock self e).
Proof. intros Hl. unfold append_ledger_event. solve_untouched. apply Hl. Qed.

Lemma untouched_execute {X} (f : Inner → X) id signer :
  (∀ p i, f (set_pending p i) = f i) → (∀ c i, f (set_completed c i) = f i) →
  (∀ r, untouched f (append_ledger_event pid clock self (TaskCompleted r))) →
  (∀ m i, f (set_metadata m i) = f i) → untouched f (execute pid clock self id signer).
Proof.
  intros Hp Hc Hl Hm.
  assert (∀ task, untouched f (execute_body pid clock self id signer task)) as Hb.
  { intros task. unfold execute_body. solve_untouched; by first [apply Hm|apply Hc]. }
  unfold execute. apply untouched_bind.
  - unfold recorded_result. solve_untouched.
  - intros [r|]; [by apply untouched_ret|]. apply untouched_bind.
    { unfold claim. solve_untouched; try by apply Hp. }
    intros task s. specialize (Hb task s).
    destruct (execute_body _ _ _ _ _ _ s) as [r s']. cbn in *. unfold drop_pending. by rewrite Hp.
Qed.

Lemma untouched_offer {X} (f : Inner → X) task requester expires_at signer :
  (∀ p i, f (set_pending p i) = f i) → (∀ m i, f (set_metadata m i) = f i) →
  untouched f (accept_offer clock host self task requester expires_at signer).
Proof.
  intros Hp Hm. unfold accept_offer, structurally_valid, node_capability.
  solve_untouched; by first [apply Hp|apply Hm].
Qed.

End node_frames.

(** ** An executable environment *)

Module Samples.
Import Toy ToyDoc.

#[export] Instance float_eq_dec : EqDecision SpecFloat.spec_float.
Proof. solve_decision. Defined.
#[export] Instance float_countable : Countable SpecFloat.spec_float.
Proof.
  refine (inj_countable'
    (λ f, match f with
          | SpecFloat.S754_zero b => inl (inl b)
          | SpecFloat.S754_infinity b => inl (inr b)
          | SpecFloat.S754_nan => inr (inl tt)
          | SpecFloat.S754_finite b m e => inr (inr (b, m, e))
          end)
    (λ x, match x with
          | inl (inl b) => SpecFloat.S754_zero b
          | inl (inr b) => SpecFloat.S754_infinity b
          | inr (inl _) => SpecFloat.S754_nan
          | inr (inr (b, m, e)) => SpecFloat.S754_finite b m e
          end) _).
  by intros [].
Defined.

Definition requirement_code (n : NetworkRequirement) : Z :=
  match n with NetNone => 0 | NetOptional => 1 | NetRequired => 2 end.
Definition requirement_of (z : Z) : NetworkRequirement :=
  match z with 0 => NetNone | 1 => NetOptional | _ => NetRequired end.
Definition verification_code (v : VerificationPolicy) : unit + Z + Z * Z :=
  match v with TrustExecutor => inl (inl tt) | Replicate n => inl (inr n) | Quorum a b => inr (a, b) end.
Definition verification_of (x : unit + Z + Z * Z) : VerificationPolicy :=
  match x with inl (inl _) => TrustExecutor | inl (inr n) => Replicate n | inr (a, b) => Quorum a b end.
Definition power_code (p : PowerState) : Z := match p with Ac => 0 | Battery => 1 | Unknown => 2 end.
Definition power_of (z : Z) : PowerState := match z with 0 => Ac | 1 => Battery | _ => Unknown end.

#[export] Instance task_countable : Countable Task.
Proof.
  refine (inj_countable'
    (λ t, (((task_id t, component t), (input t, deadline t)),
           (((minimum_memory (requirements t), minimum_storage (requirements t)),
             (runtime (requirements t), estimated_cpu_cost (requirements t))),
            (requirement_code (Core.network (requirements t)), verification_code (verification t)))))
    (λ '(((a, b), (c, l)), (((d, e), (f, g)), (h, v))),
       mkTask a b c (mkRequirements d e f g (requirement_of h)) (verification_of v) l) _).
  by intros [??? [???? []] []].
Defined.

#[export] Instance capability_eq_dec : EqDecision NodeCapability.
Proof. solve_decision. Defined.
#[export] Instance capability_countable : Countable NodeCapability.
Proof.
  refine (inj_countable'
    (λ c, (((cap_node c, cpu_cores c), (available_cpu c, available_memory c)),
           (((available_storage c, runtimes c), (power_code (power c), Core.load c)),
            (task_slots c, cap_expires_at c))))
    (λ '(((a, b), (c, d)), (((e, f), (g, h)), (i, j))), mkNodeCapability a b c d e f (power_of g) h i j) _).
  by intros [?????? []].
Defined.

#[export] Instance signed_record_eq_dec : EqDecision SignedExecutionRecord.
Proof. solve_decision. Defined.
#[export] Instance signed_record_countable : Countable SignedExecutionRecord.
Proof.
  refine (inj_countable' (λ r, ((record r, rec_signer r), (rec_public_key r, rec_signature r)))
            (λ '((a, b), (c, d)), mkSignedExecutionRecord a b c d) _).
  by intros [].
Defined.

#[export] Instance message_eq_dec : EqDecision Message.
Proof. solve_decision. Defined.

(** Messages as a tag with the fields each kind has. *)
Abbreviation message_code :=
  ((NodeCapability + Task * NodeId * Z) + ((Z * string * (string + NodeId)) +
   ((Z * ContentId * Z * Z * bytes * ContentId) + (SignedExecutionRecord + (string * bytes)))))%type.

Definition encode_message (m : Message) : message_code :=
  match m with
  | Capability c => inl (inl c)
  | TaskOffer t r e => inl (inr (t, r, e))
  | GetCapability => inr (inl (0, "", inl ""))
  | TaskAccept t => inr (inl (1, t, inl ""))
  | TaskReject t r => inr (inl (2, t, inl r))
  | TaskCommit t => inr (inl (3, t, inl ""))
  | TaskStarted t n => inr (inl (4, t, inr n))
  | TaskError t r => inr (inl (5, t, inl r))
  | TaskCancel t => inr (inl (6, t, inl ""))
  | HasContent i => inr (inr (inl (0, i, 0, 0, [], [])))
  | CheckContent i => inr (inr (inl (1, i, 0, 0, [], [])))
  | GetContent i => inr (inr (inl (2, i, 0, 0, [], [])))
  | Content i b => inr (inr (inl (3, i, 0, 0, b, [])))
  | ContentStart i t c => inr (inr (inl (4, i, t, c, [], [])))
  | ContentChunk i n b h => inr (inr (inl (5, i, n, 0, b, h)))
  | ContentComplete i => inr (inr (inl (6, i, 0, 0, [], [])))
  | LedgerBlock b => inr (inr (inl (7, [], 0, 0, b, [])))
  | TaskResult r => inr (inr (inr (inl r)))
  | StateSnapshot d b => inr (inr (inr (inr (d, b))))
  end.

Definition decode_message (x : message_code) : Message :=
  match x with
  | inl (inl c) => Capability c
  | inl (inr (t, r, e)) => TaskOffer t r e
  | inr (inl (1, t, _)) => TaskAccept t
  | inr (inl (2, t, inl r)) => TaskReject t r
  | inr (inl (3, t, _)) => TaskCommit t
  | inr (inl (4, t, inr n)) => TaskStarted t n
  | inr (inl (5, t, inl r)) => TaskError t r
  | inr (inl (6, t, _)) => TaskCancel t
  | inr (inl _) => GetCapability
  | inr (inr (inl (0, i, _, _, _, _))) => HasContent i
  | inr (inr (inl (1, i, _, _, _, _))) => CheckContent i
  | inr (inr (inl (2, i, _, _, _, _))) => GetContent i
  | inr (inr (inl (3, i, _, _, b, _))) => Content i b
  | inr (inr (inl (4, i, t, c, _, _))) => ContentStart i t c
  | inr (inr (inl (5, i, n, _, b, h))) => ContentChunk i n b h
  | inr (inr (inl (6, i, _, _, _, _))) => ContentComplete i
  | inr (inr (inl (_, _, _, _, b, _))) => LedgerBlock b
  | inr (inr (inr (inl r))) => TaskResult r
  | inr (inr (inr (inr (d, b)))) => StateSnapshot d b
  end.

#[export] Instance message_countable : Countable Message.
Proof. refine (inj_countable' encode_message decode_message _). by intros []. Defined.

#[export] Instance membership_eq_dec : EqDecision Membership.
Proof. solve_decision. Defined.
#[export] Instance membership_countable : Countable Membership.
Proof.
  refine (inj_countable'
    (λ m, (((ms_network_id m, ms_member m), (ms_issuer m, ms_permissions m)),
           ((ms_expires_at m, ms_issuer_public_key m), ms_signature m)))
    (λ '(((a, b), (c, d)), ((e, f), g)), mkMembership a b c d e f g) _).
  by intros [].
Defined.
#[export] Instance invitation_eq_dec : EqDecision Invitation.
Proof. solve_decision. Defined.
#[export] Instance invitation_countable : Countable Invitation.
Proof.
  refine (inj_countable' (λ i, (inv_version i, inv_membership i, bootstrap i, issued_at i))
            (λ '(a, b, c, d), mkInvitation a b c d) _).
  by intros [].
Defined.

#[export] Instance message_json : Json Message := countable_json.
#[export] Instance message_json_laws : JsonLaws Message := countable_json_laws.

(** A text that is written and never read back. *)
Definition write_only {A} : Json A :=
  {| to_vec _ := Some []; to_vec_pretty _ := Some []; from_slice _ := None |}.
#[export] Instance record_json : Json ExecutionRecord := write_only.
#[export] Instance signed_record_json : Json SignedExecutionRecord := countable_json.
#[export] Instance signed_record_json_laws : JsonLaws SignedExecutionRecord := countable_json_laws.
#[export] Instance task_json_ : Json Task := countable_json.
#[export] Instance task_json_laws : JsonLaws Task := countable_json_laws.
#[export] Instance node_id_json : Json NodeId := countable_json.
#[export] Instance node_id_json_laws : JsonLaws NodeId := countable_json_laws.
#[export] Instance event_json : Json LedgerEvent := write_only.
#[export] Instance signed_event_json : Json SignedEvent := write_only.
#[export] Instance block_json : Json Block := countable_json.
#[export] Instance block_json_laws : JsonLaws Block := countable_json_laws.
#[export] Instance proposal_json : Json Proposal := write_only.
#[export] Instance payload_json : Json MembershipPayload := write_only.
#[export] Instance invitation_json : Json Invitation := countable_json.
#[export] Instance memberships_json : Json (list Membership) := countable_json.

(** A runtime whose guests echo a byte buffer and double an integer. *)
#[export] Instance toy_wasmtime : Wasmtime :=
  {| WasmModule := bytes; WasmComponent := Empty_set; WasmInstance := bytes;
     module_new b := Some b; component_new _ := None;
     instantiate m _ := Some (zeros 64); instantiate_component c _ := match c with end;
     has_memory _ := true; memory_data i := i; has_export _ _ := true; set_memory _ m := m;
     call_i64 i _ _ n := Some (n, i); has_i32_export _ _ := true; call_i32 _ _ z := Some (2 * z) |}.

Definition self0 : Config :=
  mkConfig (identity_of ([x01] : Keypair)) ["cas"] (mkStateStore ["state"] [".persistence.lock"; "state"])
    ["known-peers.json"; "metadata"] ["membership-invitation.json"; "metadata"]
    ["issued-memberships.json"; "metadata"].
Definition inner0 : Inner :=
  mkInner ∅ ∅ ∅ (mkLedger ["blocks"] []) None [] ∅ (mkRequestBudget 0 0 ∅) ∅ Metadata_empty.
Definition state0 : NodeState := mkNodeState inner0 (mkWorld ∅ 0 [] []) 0.
Definition clock0 (n : nat) : Z := 100 + Z.of_nat n.
Definition host0 (n : nat) : Host := mkHost (f_of_Z 50) 4 (4 * 1024 * 1024 * 1024) [1000000].

(** Another node, and a request of it. *)
Definition peer0 : NodeIdentity := identity_of ([x02] : Keypair).
Definition dummy_envelope : SignedEnvelope := mkSignedEnvelope 0 [] [] [] [].
Definition from_peer (m : Message) : SignedEnvelope :=
  match SignedEnvelope_seal m peer0 with Ok e => e | Err _ => dummy_envelope end.

End Samples.
