(* ===== verification/NodeAccess.v ===== *)
(** Who may use a node and how often: the request budget, the permission check
    of the dispatcher, and revocation (crates/peerless-node/src/lib.rs). *)

From S2P Require Import Network Prelude External Core Protocol FileSystem Storage.
From S2P Require Import Merkle Consensus Ledger Compute State Metadata Node.
From Stdlib Require Import Strings.Byte.
#[local] Open Scope Z_scope.
#[local] Open Scope result_scope.

(** ** The request budget *)

(** The requests, with their arrival times, that a budget lets through. *)
Fixpoint budget_run (b : RequestBudget) (reqs : list (NodeId * Z)) :
    list (NodeId * Z) * RequestBudget :=
  match reqs with
  | [] => ([], b)
  | (signer, at_) :: reqs =>
      let '(ok, b) := consume_request_budget b signer at_ in
      let '(accepted, b) := budget_run b reqs in
      (if ok : bool then (signer, at_) :: accepted else accepted, b)
  end.

(** The number of requests of one signer. *)
Definition requests_of (n : NodeId) (reqs : list (NodeId * Z)) : nat :=
  length (filter (λ r, r.1 = n) reqs).

(** The specification of one window: a request passes while fewer than the
    global limit have passed, and fewer than the identity's limit of its
    signer's. *)
Fixpoint limited (passed : list (NodeId * Z)) (reqs : list (NodeId * Z)) : list (NodeId * Z) :=
  match reqs with
  | [] => []
  | r :: reqs =>
      if (Z.of_nat (length passed) <? MAX_REQUESTS_GLOBAL_PER_WINDOW)
         && (Z.of_nat (requests_of r.1 passed) <? MAX_REQUESTS_PER_IDENTITY_PER_WINDOW)
      then r :: limited (r :: passed) reqs
      else limited passed reqs
  end.

(** The budget that has counted the requests [passed] since [t]. *)
Definition counts (t : Z) (passed : list (NodeId * Z)) (b : RequestBudget) : Prop :=
  window_started_at b = t ∧ global b = Z.of_nat (length passed) ∧
  ∀ n, default 0 (identities b !! n) = Z.of_nat (requests_of n passed).

Lemma requests_of_cons n r passed :
  requests_of n (r :: passed) = (requests_of n passed + if decide (r.1 = n) then 1 else 0)%nat.
Proof. unfold requests_of. rewrite filter_cons. case_decide; cbn; lia. Qed.

Lemma requests_of_app n l k : requests_of n (l ++ k) = (requests_of n l + requests_of n k)%nat.
Proof. unfold requests_of. by rewrite filter_app, length_app. Qed.

(** One request inside the window. *)
Lemma consume_counts t passed b n τ :
  counts t passed b → τ - t < REQUEST_WINDOW_MILLIS →
  let '(ok, b') := consume_request_budget b n τ in
  ok = (Z.of_nat (length passed) <? MAX_REQUESTS_GLOBAL_PER_WINDOW)
       && (Z.of_nat (requests_of n passed) <? MAX_REQUESTS_PER_IDENTITY_PER_WINDOW) ∧
  counts t (if ok : bool then (n, τ) :: passed else passed) b'.
Proof.
  intros (Ht&Hg&Hi) Hτ. unfold consume_request_budget, saturating_sub.
  unfold REQUEST_WINDOW_MILLIS in *. rewrite Ht.
  destruct (Z.leb_spec 60000 (Z.max 0 (τ - t))); [lia|]. rewrite Hg, Hi.
  destruct (Z.leb_spec MAX_REQUESTS_GLOBAL_PER_WINDOW (Z.of_nat (length passed))) as [Hle|Hlt].
  { rewrite (proj2 (Z.ltb_ge _ _)) by done. done. }
  rewrite (proj2 (Z.ltb_lt _ _) Hlt). cbn [andb].
  destruct (Z.leb_spec MAX_REQUESTS_PER_IDENTITY_PER_WINDOW (Z.of_nat (requests_of n passed))) as [Hle'|Hlt'].
  - rewrite (proj2 (Z.ltb_ge _ _)) by done. split; [done|]. split_and!; [done..|]. cbn. intros k.
    destruct (decide (k = n)) as [->|Hne]; [by rewrite lookup_insert_eq|].
    by rewrite lookup_insert_ne by done.
  - rewrite (proj2 (Z.ltb_lt _ _) Hlt'). split; [done|]. split_and!; [done|cbn; lia|]. intros k.
    rewrite requests_of_cons. cbn [identities fst]. destruct (decide (n = k)) as [->|Hne].
    + rewrite lookup_insert_eq. cbn. lia.
    + rewrite lookup_insert_ne by done. rewrite Hi. lia.
Qed.

Lemma budget_run_limited t passed b reqs :
  counts t passed b → Forall (λ r, r.2 - t < REQUEST_WINDOW_MILLIS) reqs →
  (budget_run b reqs).1 = limited passed reqs.
Proof.
  revert passed b. induction reqs as [|[n τ] reqs IH]; intros passed b Hc Hf; [done|].
  inversion_clear Hf as [|?? Hτ Hf']. cbn [budget_run limited fst snd] in *.
  pose proof (consume_counts _ _ _ n τ Hc Hτ) as Hstep.
  destruct (consume_request_budget b n τ) as [ok b'] eqn:E. destruct Hstep as [Hok Hc'].
  specialize (IH _ _ Hc' Hf'). destruct (budget_run b' reqs) as [acc b''] eqn:Er. cbn [fst] in *.
  rewrite <- Hok. by destruct ok; rewrite IH.
Qed.

(** What a window lets through stays below the limits. *)
Lemma limited_bounds passed reqs n :
  Z.of_nat (length passed + length (limited passed reqs))
    ≤ Z.max (Z.of_nat (length passed)) MAX_REQUESTS_GLOBAL_PER_WINDOW ∧
  Z.of_nat (requests_of n passed + requests_of n (limited passed reqs))
    ≤ Z.max (Z.of_nat (requests_of n passed)) MAX_REQUESTS_PER_IDENTITY_PER_WINDOW.
Proof.
  revert passed. induction reqs as [|r reqs IH]; intros passed; cbn [limited].
  { unfold requests_of. cbn. lia. }
  case_match eqn:E; [|apply IH]. apply andb_prop in E as [E1 E2]. breflect.
  destruct (IH (r :: passed)) as [IH1 IH2]. rewrite requests_of_cons in *. cbn [length] in *.
  destruct (decide (r.1 = n)); subst; lia.
Qed.

(** A list of requests that passed within the limits. *)
Definition within_limits (passed : list (NodeId * Z)) : Prop :=
  Z.of_nat (length passed) ≤ MAX_REQUESTS_GLOBAL_PER_WINDOW ∧
  ∀ n, Z.of_nat (requests_of n passed) ≤ MAX_REQUESTS_PER_IDENTITY_PER_WINDOW.

Definition fresh_budget (t : Z) : RequestBudget := mkRequestBudget t 0 ∅.

Lemma fresh_counts t : counts t [] (fresh_budget t).
Proof. by split_and!. Qed.

Lemma consume_reset b n τ :
  REQUEST_WINDOW_MILLIS ≤ τ - window_started_at b →
  consume_request_budget b n τ = consume_request_budget (fresh_budget τ) n τ.
Proof.
  unfold consume_request_budget, saturating_sub, REQUEST_WINDOW_MILLIS. intros Hτ. cbn [fresh_budget window_started_at].
  rewrite (proj2 (Z.leb_le 60000 (Z.max 0 (τ - window_started_at b)))) by lia.
  by rewrite (proj2 (Z.leb_gt 60000 (Z.max 0 (τ - τ)))) by lia.
Qed.

(** Every reachable budget has counted what passed in its window. *)
Lemma consume_invariant t passed b n τ :
  counts t passed b → within_limits passed →
  ∃ t' passed', counts t' passed' (consume_request_budget b n τ).2 ∧ within_limits passed'.
Proof.
  intros Hc Hl.
  assert (∀ t passed b, counts t passed b → within_limits passed → τ - t < REQUEST_WINDOW_MILLIS →
    ∃ t' passed', counts t' passed' (consume_request_budget b n τ).2 ∧ within_limits passed') as Hin.
  { clear. intros t passed b Hc [Hl1 Hl2] Hτ. pose proof (consume_counts _ _ _ n τ Hc Hτ) as Hstep.
    destruct (consume_request_budget b n τ) as [ok b']. destruct Hstep as [Hok Hc'].
    eexists t, _. split; [exact Hc'|]. destruct ok; [|done].
    symmetry in Hok. apply andb_prop in Hok as [E1 E2]. breflect.
    split; [cbn [length]; lia|]. intros k. rewrite requests_of_cons. specialize (Hl2 k). cbn [fst].
    destruct (decide (n = k)); subst; lia. }
  destruct (Z.lt_ge_cases (τ - t) REQUEST_WINDOW_MILLIS); [by eapply Hin|].
  rewrite consume_reset by (rewrite (proj1 Hc); lia).
  apply (Hin τ []); [apply fresh_counts|by split|unfold REQUEST_WINDOW_MILLIS; lia].
Qed.

Lemma budget_run_invariant t passed b reqs :
  counts t passed b → within_limits passed →
  ∃ t' passed', counts t' passed' (budget_run b reqs).2 ∧ within_limits passed'.
Proof.
  revert t passed b. induction reqs as [|[n τ] reqs IH]; intros t passed b Hc Hl; [by eexists _, _|].
  cbn [budget_run]. destruct (consume_invariant t passed b n τ Hc Hl) as (t'&p'&Hc'&Hl').
  destruct (consume_request_budget b n τ) as [ok b']. specialize (IH _ _ _ Hc' Hl').
  cbn [snd] in IH. destruct (budget_run b' reqs). exact IH.
Qed.

(** The requests of a stretch no longer than a window fall into two windows. *)
Lemma budget_run_two_windows t0 passed b t reqs n :
  counts t0 passed b → within_limits passed →
  Forall (λ r, t ≤ r.2 < t + REQUEST_WINDOW_MILLIS) reqs →
  Z.of_nat (length passed + length (budget_run b reqs).1) ≤ 2 * MAX_REQUESTS_GLOBAL_PER_WINDOW ∧
  Z.of_nat (requests_of n passed + requests_of n (budget_run b reqs).1)
    ≤ 2 * MAX_REQUESTS_PER_IDENTITY_PER_WINDOW.
Proof.
  revert passed b. induction reqs as [|[m τ] reqs IH]; intros passed b Hc Hl Hf.
  { destruct Hl as [Hl1 Hl2]. specialize (Hl2 n). unfold requests_of in *. cbn [budget_run fst length]. cbn. lia. }
  inversion Hf as [|?? Hτ Hf']; subst. cbn [snd] in Hτ.
  destruct (Z.lt_ge_cases (τ - t0) REQUEST_WINDOW_MILLIS) as [Hin|Hreset].
  - cbn [budget_run]. pose proof (consume_counts _ _ _ m τ Hc Hin) as Hstep.
    destruct (consume_request_budget b m τ) as [ok b']. destruct Hstep as [Hok Hc'].
    destruct ok.
    + assert (within_limits ((m, τ) :: passed)) as Hl'.
      { symmetry in Hok. apply andb_prop in Hok as [E1 E2]. breflect. destruct Hl as [Hl1 Hl2].
        split; [cbn [length]; lia|]. intros k. rewrite requests_of_cons. specialize (Hl2 k). cbn [fst].
        destruct (decide (m = k)); subst; lia. }
      specialize (IH _ _ Hc' Hl' Hf'). destruct (budget_run b' reqs) as [acc b'']. cbn [fst length] in *.
      rewrite requests_of_cons in *. lia.
    + specialize (IH _ _ Hc' Hl Hf'). destruct (budget_run b' reqs). exact IH.
  - assert (budget_run b ((m, τ) :: reqs) = budget_run (fresh_budget τ) ((m, τ) :: reqs)) as ->.
    { cbn [budget_run]. rewrite consume_reset; [done|]. rewrite (proj1 Hc). lia. }
    rewrite (budget_run_limited τ []); [|apply fresh_counts|].
    + destruct (limited_bounds [] ((m, τ) :: reqs) n) as [H1 H2]. destruct Hl as [Hl1 Hl2].
      specialize (Hl2 n). change (length (@nil (NodeId * Z))) with 0%nat in H1.
      change (requests_of n []) with 0%nat in H2.
      unfold MAX_REQUESTS_GLOBAL_PER_WINDOW, MAX_REQUESTS_PER_IDENTITY_PER_WINDOW in *. lia.
    + eapply Forall_impl; [exact Hf|]. intros r Hr. cbv beta in Hr. lia.
Qed.

(** ** Admission *)

Section access.
Context (pid : N) `{Sha256, Hex, Keys, Automerge, Wasmtime}.
Context `{Json Message, Json ExecutionRecord, Json SignedExecutionRecord, Json Task, Json NodeId}.
Context `{Json LedgerEvent, Json SignedEvent, Json Block, Json Proposal, Json MembershipPayload}.
Context `{Json (list Membership)}.
Context (clock : nat → Z) (host : nat → Host) (self : Config).

Abbreviation handle := (handle pid clock host self).

(** The state after [n] more readings, with a new budget. *)
Definition charged (b : RequestBudget) (n : nat) (s : NodeState) : NodeState :=
  mkNodeState (set_request_budget b (inner s)) (world s) (n + ticks s).

Lemma handle_open_error e s x :
  open_with_signer (A := Message) e = Err x → handle e s = (Err (NodeProtocol x), s).
Proof. unfold Node.handle, abind, alift. by intros ->. Qed.

(** A request that opens is counted, then refused or answered. *)
Lemma handle_opened e s message signer :
  open_with_signer e = Ok (message, signer) →
  let '(within, b) := consume_request_budget (request_budget (inner s)) signer (clock (ticks s)) in
  let granted := match membership (inner s) with
                 | None => true
                 | Some p => policy_allows p signer (permission_for message) (clock (S (ticks s)))
                 end in
  ∃ n, (1 ≤ n ≤ 2)%nat ∧
    if within && granted
    then handle e s = abind (respond pid clock host self signer message) (sealed self) (charged b n s)
    else ∃ reason, handle e s = sealed self (TaskReject "" reason) (charged b n s).
Proof.
  intros Ho. unfold Node.handle, abind, alift, budget, now, locked, aget. rewrite Ho. cbn [rmap_err].
  cbn [inner]. destruct (consume_request_budget _ _ _) as [within b]. cbn [andb].
  destruct within; cbn [negb]; [|exists 1%nat; split; [lia|]; by eexists].
  cbn [inner world ticks membership set_request_budget]. destruct (membership (inner s)) as [p|]; cycle 1.
  { exists 1%nat. split; [lia|]. done. }
  unfold authorised, policy_allows. destruct (permissions p !! signer) as [a|]; cycle 1.
  { exists 1%nat. split; [lia|]. by eexists. }
  unfold abind, now, aret. cbn [ticks inner world]. exists 2%nat.
  destruct (allows a _ _); (split; [lia|]); [done|]. by eexists.
Qed.

Lemma untouched_handle {X} (f : Inner → X) e :
  (∀ b i, f (set_request_budget b i) = f i) → (∀ u i, f (set_uploads u i) = f i) →
  (∀ p i, f (set_pending p i) = f i) → (∀ c i, f (set_completed c i) = f i) →
  (∀ r, untouched f (append_ledger_event pid clock self (TaskCompleted r))) →
  (∀ m i, f (set_metadata m i) = f i) → untouched f (handle e).
Proof.
  intros Hb Hu Hp Hc Hl Hm. unfold Node.handle, sealed. repeat (apply untouched_bind; [|intros ?]).
  - apply untouched_lift.
  - match goal with |- untouched _ (let '_ := ?x in _) => destruct x as [message signer] end.
    apply untouched_bind; [apply untouched_now|intros at_].
    apply untouched_bind; [intros s; unfold budget; destruct (consume_request_budget _ _ _); apply Hb|intros ok].
    destruct ok; [|apply untouched_lift].
    apply untouched_bind; [apply untouched_locked|intros policy].
    apply untouched_bind.
    { unfold authorised. solve_untouched. }
    intros allowed. destruct allowed; [|apply untouched_lift].
    apply untouched_bind; [|intros; apply untouched_lift].
    unfold respond, store. destruct message; solve_untouched; try by apply Hu.
    + by apply untouched_offer.
    + by apply untouched_execute.
    + intros s. unfold change_pending. destruct (cancel _ _ _). apply Hp.
    + intros s. unfold change_uploads. destruct (content_start _ _ _ _ _). apply Hu.
    + intros s. unfold change_uploads. destruct (content_chunk _ _ _ _ _ _). apply Hu.
Qed.

(** ** Revocation *)

(** The revoked members a chain of blocks leaves behind. *)
Definition replay (bs : list Block) : gset NodeId :=
  foldl apply_change ∅ (mjoin (revocation_changes ∘ events <$> bs)).

Lemma replay_snoc bs b : replay (bs ++ [b]) = foldl apply_change (replay bs) (revocation_changes (events b)).
Proof. unfold replay. rewrite fmap_app, join_app, foldl_app. cbn. by rewrite app_nil_r. Qed.

Lemma Ledger_append_blocks {C} `{!ConsensusEngine C} l b (c : C) w h l' w' :
  Ledger_append pid l b c w = (Ok (h, l'), w') → l' = extended l b.
Proof.
  unfold Ledger_append, ibind, ilift, imap_err, iret.
  destruct (check_append l b c); [|done]. destruct (Block_hash b); [|done].
  destruct (create_dir_all _ w) as [[] w1]; [|done]. cbn [rmap_err].
  destruct (to_vec_pretty b); [|done]. cbn [ok_or].
  destruct (_ <? _); [done|]. destruct (atomic_create pid _ _ _ _) as [[] w2]; [|done]. by intros [= _ <- _].
Qed.

Lemma untouched_replay_event r :
  untouched (λ i, (admission i, replay (blocks (ledger i))))
    (append_ledger_event pid clock self (TaskCompleted r)).
Proof.
  intros s. unfold append_ledger_event, abind, alift, locked, aget, now, files, modify.
  destruct (SignedEvent_seal _ _) as [signed|] eqn:Es; [|done]. cbn.
  destruct (QuorumConsensus_new _ _ _) as [q|]; [|done]. cbn.
  destruct (next_block _ _ _ _) as [b0|] eqn:Eb; [|done]. cbn.
  destruct (Quorum_finalize q b0 [identity self]) as [[[]|] b] eqn:Ef; [|done]. cbn.
  destruct (Ledger_append pid _ b q _) as [[[h l']|] w'] eqn:El; [|done]. cbn.
  apply Ledger_append_blocks in El as ->. cbn [extended blocks]. rewrite replay_snoc.
  pose proof (Quorum_finalize_events q b0 [identity self]) as [Hev _]. rewrite Ef in Hev. cbn in Hev.
  unfold next_block in Eb. inv_ok. subst b0. cbn [events] in Hev. rewrite Hev.
  unfold SignedEvent_seal in Es. inv_ok. by subst signed.
Qed.

(** The revoked members are those the ledger says, and none of them holds a
    permission. *)
Definition revocation_inv (i : Inner) : Prop :=
  revoked_members i = replay (blocks (ledger i)) ∧
  ∀ p m, membership i = Some p → m ∈ revoked_members i → permissions p !! m = None.

Lemma apply_revocations_inv changes i :
  foldl apply_change (revoked_members i) changes = replay (blocks (ledger i)) →
  revocation_inv (apply_revocations changes i).
Proof.
  intros Hr. split; [done|]. intros p m Hp Hm. cbn in Hp, Hm. apply fmap_Some in Hp as (p0&_&->). cbn.
  apply map_lookup_filter_None. right. intros a _ Hn. by apply Hn.
Qed.

(** Everything that changes who is admitted while a node runs: requests,
    ledger blocks and new invitations. *)
Inductive member_step : NodeState → NodeState → Prop :=
| step_handle e s : member_step s (handle e s).2
| step_block C (engine : ConsensusEngine C) b (c : C) s :
    member_step s (append_ledger_block pid b c s).2
| step_issue net member perms expires_at boot s :
    member_step s (issue_invitation pid clock self net member perms expires_at boot s).2.

Lemma grant_inv m a p l i :
  revocation_inv i → membership i = Some p → m ∉ revoked_members i →
  revocation_inv (set_issued_memberships l (set_membership (Some (grant m a p)) i)).
Proof.
  intros [Hr Hp] Hi Hn. split; [done|]. intros p' k [= <-] Hk. cbn in *.
  rewrite lookup_insert_ne by (by intros ->). by apply Hp.
Qed.

Lemma register_inv m at_ persist s :
  revocation_inv (inner s) →
  wp (register_issued_membership pid self m at_ persist) (λ _ s', revocation_inv (inner s')) s.
Proof.
  intros Hinv. unfold register_issued_membership.
  wp_auto; try done; apply grant_inv; try done; by eapply bool_decide_eq_false_1.
Qed.

Lemma member_step_inv s s' : member_step s s' → revocation_inv (inner s) → revocation_inv (inner s').
Proof.
  intros [e s0|C engine b c s0|net member perms expires_at boot s0] Hinv.
  - assert (untouched (λ i, (admission i, replay (blocks (ledger i)))) (handle e)) as Hu
      by (apply untouched_handle; [done..| |done]; apply untouched_replay_event).
    specialize (Hu s0). injection Hu as Hm _ Hr Hl. unfold revocation_inv in *. by rewrite Hm, Hr, Hl.
  - change (wp (append_ledger_block pid b c) (λ _ s', revocation_inv (inner s')) s0).
    unfold append_ledger_block. wp_auto; [|done].
    destruct a as [h l']. cbn [snd]. apply apply_revocations_inv. cbn.
    match goal with E : Ledger_append _ _ _ _ _ = _ |- _ => apply Ledger_append_blocks in E as -> end.
    cbn [extended blocks]. rewrite replay_snoc. by destruct Hinv as [-> _].
  - change (wp (issue_invitation pid clock self net member perms expires_at boot)
              (λ _ s', revocation_inv (inner s')) s0).
    unfold issue_invitation, has_membership. wp_auto; try done.
    eapply wp_mono; [by apply register_inv|]. intros [] s1 Hs1; by wp_auto.
Qed.

(** A request whose signer has no permission at all. *)
Lemma handle_unknown_signer e s (message : Message) signer p :
  open_with_signer e = Ok (message, signer) → membership (inner s) = Some p →
  permissions p !! signer = None →
  ∃ b n reason, handle e s = sealed self (TaskReject "" reason) (charged b n s).
Proof.
  intros Ho Hp Hn. pose proof (handle_opened e s message signer Ho) as Hh.
  destruct (consume_request_budget _ _ _) as [within b]. rewrite Hp in Hh.
  unfold policy_allows in Hh. rewrite Hn, andb_false_r in Hh. destruct Hh as (n&_&reason&->). eauto.
Qed.

(** ** Properties *)

(** C28: the request budget: from a fresh window every request is let through
    exactly while fewer than 16384 requests, and fewer than 4096 of the same
    signer, have passed; and whatever requests came before, any stretch of time
    shorter than a window lets at most twice the global limit through, and at
    most twice the limit of each signer. *)
Theorem request_budget_bounded t0 earlier t reqs n :
  Forall (λ r, t ≤ r.2 < t + REQUEST_WINDOW_MILLIS) reqs →
  let b := (budget_run (fresh_budget t0) earlier).2 in
  let accepted := (budget_run b reqs).1 in
  (budget_run (fresh_budget t) reqs).1 = limited [] reqs ∧
  Z.of_nat (length accepted) ≤ 2 * MAX_REQUESTS_GLOBAL_PER_WINDOW ∧
  Z.of_nat (requests_of n accepted) ≤ 2 * MAX_REQUESTS_PER_IDENTITY_PER_WINDOW.
Proof.
  intros Hf b accepted. split.
  { apply (budget_run_limited t); [apply fresh_counts|]. eapply Forall_impl; [exact Hf|].
    intros r Hr. cbv beta in Hr. lia. }
  destruct (budget_run_invariant t0 [] (fresh_budget t0) earlier (fresh_counts t0)) as (t1&passed&Hc&Hl);
    [by split|].
  destruct (budget_run_two_windows t1 passed b t reqs n Hc Hl Hf) as [H1' H2']. unfold accepted. lia.
Qed.

(** C18: revocation is enforced and survives restarts: in every state a node
    reaches after opening, through requests, ledger blocks and new invitations,
    the revoked members are exactly those the blocks of its ledger leave
    revoked, as a restart would find them, and a request signed by one of them,
    under a membership policy, is refused and changes nothing but the request
    budget. *)
Theorem revocation_enforced s0 s :
  revoked_members (inner s0) = ∅ → rtc member_step (refresh_revocations_from_ledger s0).2 s →
  revoked_members (inner s) = replay (blocks (ledger (inner s))) ∧
  ∀ e (message : Message) signer p,
    open_with_signer e = Ok (message, signer) → membership (inner s) = Some p →
    signer ∈ revoked_members (inner s) →
    ∃ b n reason, handle e s = sealed self (TaskReject "" reason) (charged b n s).
Proof.
  intros H0' Hsteps.
  assert (revocation_inv (inner (refresh_revocations_from_ledger s0).2)) as Hinv.
  { apply apply_revocations_inv. by rewrite H0'. }
  assert (revocation_inv (inner s)) as [Hr Hp].
  { induction Hsteps as [|s1 s2 s3 Hstep _ IH]; [done|]. apply IH. by eapply member_step_inv. }
  split; [done|]. intros e message signer p Ho Hm Hs. eapply handle_unknown_signer; eauto.
Qed.

(** An invitation reinstates a revoked issuer: installing an invitation
    grants its issuer every permission whether or not the issuer has been
    revoked, until the next restart takes the permission away again. *)
Theorem revoked_issuer_reinstated `{Json Invitation} i at_ s s' permission t :
  install_invitation pid self i at_ s = (Ok tt, s') →
  ms_issuer (inv_membership i) ∈ revoked_members (inner s) →
  (∀ expiry, ms_expires_at (inv_membership i) = Some expiry → t < expiry) →
  revoked_members (inner s') = revoked_members (inner s) ∧
  ∃ p, membership (inner s') = Some p ∧
    policy_allows p (ms_issuer (inv_membership i)) permission t = true ∧
    (replay (blocks (ledger (inner s'))) = revoked_members (inner s') →
     ∀ p', membership (apply_revocations (mjoin (revocation_changes ∘ events <$> blocks (ledger (inner s'))))
             (set_revoked_members ∅ (inner s'))) = Some p' →
       policy_allows p' (ms_issuer (inv_membership i)) permission t = false).
Proof.
  intros Hi Hrev Ht. set (m := inv_membership i) in *.
  assert (∃ perms w, s' = mkNodeState (set_membership
    (Some (grant (ms_issuer m) (mkMemberAccess {["*"]} (ms_expires_at m)) perms)) (inner s)) w (ticks s)) as (p0&w&->).
  { assert (wp (install_invitation pid self i at_) (λ r s1, r = Ok tt → ∃ perms w,
      s1 = mkNodeState (set_membership (Some (grant (ms_issuer m) (mkMemberAccess {["*"]} (ms_expires_at m)) perms))
             (inner s)) w (ticks s)) s) as Hw; [|unfold wp in Hw; rewrite Hi in Hw; by apply Hw].
    unfold install_invitation, activate_invitation, enforce_membership. fold m.
    wp_auto; try done. intros _. by eexists _, _. }
  cbn. split; [done|]. eexists. split; [done|]. split.
  - unfold policy_allows. cbn. rewrite lookup_insert_eq. unfold allows. cbn.
    rewrite bool_decide_eq_true_2 by set_solver. destruct (ms_expires_at m) as [x|]; [|done].
    rewrite (proj2 (Z.ltb_lt _ _)); [done|]. by apply Ht.
  - intros Hreplay p' [= <-]. unfold policy_allows. cbn.
    rewrite (proj2 (map_lookup_filter_None _ _ _)); [done|]. right. intros a _ Hn. apply Hn.
    cbn. fold (replay (blocks (ledger (inner s)))). by rewrite Hreplay.
Qed.

End access.

(** ** Witnesses *)

Module Samples.
Import Toy ToyDoc Node.Samples.

Lemma request_budget_bounded_witness :
  (budget_run (fresh_budget 10) [([x01], 10); ([x02], 20); ([x01], 30)]).1
  = limited [] [([x01], 10); ([x02], 20); ([x01], 30)].
Proof.
  refine (proj1 (request_budget_bounded 0 [([x01], 5)] 10 [([x01], 10); ([x02], 20); ([x01], 30)] [x01] _)).
  repeat constructor; cbn; lia.
Defined.

(** A ledger with one block, which revokes the other node. *)
Definition revoking : Block :=
  mkBlock 1 None 0 0 [] [mkSignedEvent (NodeRevoked (node_id peer0)) [] [] []] (mkConsensusProof "net" []).
Definition with_ledger (i : Inner) : Inner :=
  set_ledger (mkLedger ["blocks"] [revoking])
    (set_membership (Some (mkMembershipPolicy "net" {[node_id peer0 := mkMemberAccess {["*"]} None]})) i).
Definition opened : NodeState := mkNodeState (with_ledger inner0) (world state0) 0.
Definition refreshed : NodeState := (refresh_revocations_from_ledger opened).2.

Lemma revocation_enforced_witness :
  ∃ b n reason, handle 7 clock0 host0 self0 (from_peer (TaskCancel "t")) refreshed
                = sealed self0 (TaskReject "" reason) (charged b n refreshed).
Proof.
  refine (proj2 (revocation_enforced 7 clock0 host0 self0 opened refreshed _ (rtc_refl _ _))
    (from_peer (TaskCancel "t")) (TaskCancel "t") (node_id peer0)
    (mkMembershipPolicy "net" (permissions (default (mkMembershipPolicy "" ∅) (membership (inner refreshed))))) _ _ _).
  - reflexivity.
  - vm_compute. reflexivity.
  - reflexivity.
  - apply (bool_decide_eq_true_1 _). vm_compute. reflexivity.
Defined.

(** An invitation from the revoked node. *)
Definition invitation0 : Invitation :=
  match Invitation_issue "net" (node_id (identity self0)) ["content"] None [] 0 peer0 with
  | Ok i => i
  | Err _ => mkInvitation 0 (mkMembership "" [] [] [] None [] []) [] 0
  end.
Definition writable : NodeState :=
  mkNodeState (set_revoked_members {[node_id peer0]} inner0) (mkWorld {[["metadata"] := Dir None]} 0 [] []) 0.
Definition installed : NodeState := (install_invitation 7 self0 invitation0 50 writable).2.

Lemma revoked_issuer_reinstated_witness :
  ∃ p, membership (inner installed) = Some p ∧ policy_allows p (node_id peer0) "execute" 60 = true.
Proof.
  refine (match proj2 (revoked_issuer_reinstated 7 self0 invitation0 50 writable installed "execute" 60 _ _ _)
          with ex_intro _ p (conj Hm (conj Hp _)) => ex_intro _ p (conj Hm Hp) end).
  - vm_compute. reflexivity.
  - apply (bool_decide_eq_true_1 _). vm_compute. reflexivity.
  - intros expiry E. exfalso. revert E. vm_compute. discriminate.
Defined.

End Samples.
