(* ===== verification/NodeTasks.v ===== *)
(** The resources a node grants: upload buffers, task reservations and
    executions (crates/peerless-node/src/lib.rs), for requests handled one
    after the other and for handlers that run concurrently. *)

From S2P Require Import Network Prelude External Core Protocol FileSystem Storage.
From S2P Require Import Merkle Consensus Ledger Compute State Metadata Node NodeAccess.
From Stdlib Require Import Strings.Byte.
#[local] Open Scope Z_scope.
#[local] Open Scope result_scope.

(** ** Upload buffers *)

(** The announced sizes of all uploads in progress. *)
Definition total_reserved (u : uploads_table) : Z := map_fold (λ _ s acc, acc + total_size s) 0 u.

(** The bytes that the sessions hold. *)
Definition stored_bytes (s : UploadSession) : Z :=
  foldr (λ c acc, Z.of_nat (length (default [] c)) + acc) 0 (chunks s).
Definition held_bytes (u : uploads_table) : Z := map_fold (λ _ s acc, acc + stored_bytes s) 0 u.

Definition session_wf (s : UploadSession) : Prop :=
  0 ≤ total_size s ∧ chunk_size s = CONTENT_CHUNK_SIZE ∧
  length (chunks s) = Z.to_nat (div_ceil (total_size s) CONTENT_CHUNK_SIZE) ∧
  Forall (λ c, Z.of_nat (length (default [] c)) ≤ CONTENT_CHUNK_SIZE) (chunks s).

Definition uploads_inv (u : uploads_table) : Prop :=
  (size u ≤ MAX_ACTIVE_UPLOADS)%nat ∧ total_reserved u ≤ MAX_IN_FLIGHT_UPLOAD_BYTES ∧
  map_Forall (λ _ s, session_wf s) u.

Lemma sum_insert (g : UploadSession → Z) (u : uploads_table) k s :
  u !! k = None →
  map_fold (λ _ s acc, acc + g s) 0 (<[k := s]> u) = map_fold (λ _ s acc, acc + g s) 0 u + g s.
Proof. intros Hk. rewrite map_fold_insert_L; [done|intros; lia|done]. Qed.

Lemma sum_delete (g : UploadSession → Z) (u : uploads_table) k s :
  u !! k = Some s →
  map_fold (λ _ s acc, acc + g s) 0 (delete k u) = map_fold (λ _ s acc, acc + g s) 0 u - g s.
Proof.
  intros Hk. rewrite <- (insert_delete_id u k s Hk) at 2.
  rewrite sum_insert by apply lookup_delete_eq. lia.
Qed.

Lemma reserved_by_others_spec (u : uploads_table) key :
  reserved_by_others u key = total_reserved (delete key u).
Proof.
  unfold reserved_by_others, total_reserved. induction u as [|k s u Hk IH] using map_ind.
  { rewrite delete_empty. by rewrite !map_fold_empty. }
  rewrite map_fold_insert_L; [|intros; repeat case_bool_decide; lia|done].
  rewrite IH. case_bool_decide as E.
  - subst k. by rewrite delete_insert_eq, delete_id.
  - rewrite delete_insert_ne by done. rewrite sum_insert; [done|]. by rewrite lookup_delete_ne.
Qed.

Lemma stored_bytes_bound s : session_wf s → stored_bytes s ≤ total_size s + CONTENT_CHUNK_SIZE.
Proof.
  intros (Ht&Hc&Hl&Hf).
  assert (stored_bytes s ≤ Z.of_nat (length (chunks s)) * CONTENT_CHUNK_SIZE) as Hb.
  { unfold stored_bytes. clear Hl Hc Ht. induction Hf as [|c l Hc Hf IH]; cbn [foldr length]; [done|].
    unfold CONTENT_CHUNK_SIZE in *. lia. }
  rewrite Hl in Hb. change CONTENT_CHUNK_SIZE with 65536 in *. unfold div_ceil in *.
  assert (0 ≤ total_size s / 65536) by (apply Z.div_pos; lia).
  pose proof (Z.mul_div_le (total_size s) 65536). destruct (_ =? 0); lia.
Qed.

Lemma held_bytes_bound u :
  map_Forall (λ _ s, session_wf s) u →
  held_bytes u ≤ total_reserved u + Z.of_nat (size u) * CONTENT_CHUNK_SIZE.
Proof.
  unfold held_bytes, total_reserved. induction u as [|k s u Hk IH] using map_ind; intros Hf.
  { by rewrite !map_fold_empty. }
  apply map_Forall_insert in Hf as [Hs Hf]; [|done]. rewrite !sum_insert, map_size_insert_None by done.
  specialize (IH Hf). pose proof (stored_bytes_bound s Hs). lia.
Qed.

Lemma total_reserved_nonneg u : map_Forall (λ _ s, session_wf s) u → 0 ≤ total_reserved u.
Proof.
  unfold total_reserved. induction u as [|k s u Hk IH] using map_ind; intros Hf.
  { by rewrite map_fold_empty. }
  apply map_Forall_insert in Hf as [(Hs&_) Hf]; [|done]. rewrite sum_insert by done.
  specialize (IH Hf). lia.
Qed.

Lemma uploads_inv_delete u key : uploads_inv u → uploads_inv (delete key u).
Proof.
  intros (Hs&Ht&Hf). destruct (u !! key) as [s|] eqn:E; [|by rewrite delete_id].
  split_and!.
  - rewrite map_size_delete_Some by done. lia.
  - unfold total_reserved in *. rewrite (sum_delete _ _ _ _ E). pose proof (Hf _ _ E) as [? _]. lia.
  - by apply map_Forall_delete.
Qed.

Section upload_steps.
Context `{Sha256, Hex}.

Lemma content_start_inv u signer id size chunk :
  0 ≤ size → uploads_inv u → uploads_inv (content_start u signer id size chunk).2.
Proof.
  intros Hsize Hu. unfold content_start. cbv zeta. case_match eqn:E; [|done]. cbn [snd].
  apply andb_prop in E as [E E4]. apply andb_prop in E as [E E3]. apply andb_prop in E as [E1 E2].
  destruct (checked_add _ size) as [total|] eqn:Ec; [|done]. apply checked_add_Some in Ec as [-> _].
  rewrite reserved_by_others_spec in E4. breflect. subst chunk.
  assert (uploads_inv (delete (signer, id) u)) as (Hs'&_&Hf') by by apply uploads_inv_delete.
  destruct Hu as (Hs&_&Hf). rewrite <- insert_delete_eq. split_and!.
  - rewrite map_size_insert_None by apply lookup_delete_eq. apply orb_prop in E3 as [E3|E3]; breflect.
    + destruct E3 as [s0 E3]. rewrite map_size_delete_Some by done.
      assert (base.size u ≠ 0%nat); [|lia]. intros H0'. apply map_size_empty_inv in H0'. by subst.
    + destruct (u !! (signer, id)) eqn:El; [rewrite map_size_delete_Some by done|rewrite delete_id by done]; lia.
  - unfold total_reserved in *. rewrite sum_insert by apply lookup_delete_eq. cbn [total_size]. lia.
  - apply map_Forall_insert_2; [|done]. split_and!; cbn; [done|done|by rewrite length_replicate|].
    apply Forall_replicate. cbn. unfold CONTENT_CHUNK_SIZE. lia.
Qed.

Lemma content_chunk_inv u signer id index b h :
  uploads_inv u → uploads_inv (content_chunk u signer id index b h).2.
Proof.
  intros Hu. unfold content_chunk. cbv zeta. destruct (u !! (signer, id)) as [s|] eqn:Es; cycle 1.
  { by apply uploads_inv_delete. }
  case_match eqn:E; [|by apply uploads_inv_delete]. breflect. cbn [snd].
  pose proof Hu as (Hs&Ht&Hf). pose proof (Hf _ _ Es) as (H1'&H2'&H3'&H4').
  destruct (uploads_inv_delete u (signer, id) Hu) as (_&_&Hf').
  split_and!.
  - by rewrite map_size_insert_Some.
  - rewrite <- insert_delete_eq. unfold total_reserved in *.
    rewrite sum_insert by apply lookup_delete_eq. rewrite (sum_delete _ _ _ _ Es). cbn [total_size]. lia.
  - apply map_Forall_insert_2; [|done]. split_and!; cbn; [done|done|by rewrite length_insert|].
    apply Forall_insert; [done|]. cbn. lia.
Qed.

End upload_steps.

Section tasks.
Context (pid : N) `{Sha256, Hex, Keys, Automerge, Wasmtime}.
Context `{Json Message, Json ExecutionRecord, Json SignedExecutionRecord, Json Task, Json NodeId}.
Context `{Json LedgerEvent, Json SignedEvent, Json Block, Json Proposal, Json MembershipPayload}.
Context (clock : nat → Z) (host : nat → Host) (self : Config).

Abbreviation handle := (handle pid clock host self).
Abbreviation respond := (respond pid clock host self).

(** Requests handled one after the other, as [handle_or_reject] does. *)
Definition handle_all (es : list SignedEnvelope) (s : NodeState) : NodeState :=
  foldl (λ s e, (handle e s).2) s es.

(** What the dispatcher does with a property of the state that neither the
    budget nor the clock concerns. *)
Lemma handle_respond (P : NodeState → Prop) e s :
  P s → (∀ b n, P (charged b n s)) →
  (∀ message signer b n, open_with_signer (A := Message) e = Ok (message, signer) →
     P (charged b n s) → P (respond signer message (charged b n s)).2) →
  P (handle e s).2.
Proof.
  intros Hs Hc Hr. destruct (open_with_signer e) as [[message signer]|x] eqn:Ho.
  - pose proof (handle_opened pid clock host self e s message signer Ho) as Hh.
    destruct (consume_request_budget _ _ _) as [within b]. destruct Hh as (n&_&Hh).
    case_match.
    + rewrite Hh. specialize (Hr message signer b n eq_refl (Hc b n)). unfold abind.
      destruct (respond signer message (charged b n s)) as [[m|x] s']; [|done]. exact Hr.
    + destruct Hh as [reason ->]. apply Hc.
  - by rewrite (handle_open_error pid clock host self e s x Ho).
Qed.

Lemma respond_uploads signer message s :
  (∀ id size chunk, message = ContentStart id size chunk → 0 ≤ size) →
  uploads_inv (uploads (inner s)) → uploads_inv (uploads (inner (respond signer message s).2)).
Proof.
  intros Hrange Hu.
  assert (∀ A (m : act NodeState A), untouched uploads m → uploads_inv (uploads (inner (m s).2))) as Hkeep.
  { intros A m Hm. by rewrite (Hm s). }
  destruct message; cbn [Node.respond]; try (apply Hkeep; unfold store; by solve_untouched).
  - apply Hkeep. by apply untouched_offer.
  - apply Hkeep. apply untouched_execute; try done. intros r. by apply untouched_event.
  - apply Hkeep. intros s1. unfold change_pending. by destruct (cancel _ _ _).
  - unfold change_uploads. pose proof (content_start_inv (uploads (inner s)) signer id total_size chunk_size
      ltac:(by eapply Hrange) Hu) as Hi. by destruct (content_start _ _ _ _ _).
  - unfold change_uploads. pose proof (content_chunk_inv (uploads (inner s)) signer id index body chunk_hash Hu) as Hi.
    by destruct (content_chunk _ _ _ _ _ _).
  - change (wp (let* session := locked (λ i, uploads i !! (signer, id)) in
      modify (λ i, set_uploads (delete (signer, id) (uploads i)) i) ;*
      match content_complete session id with
      | Ok b => store pid self b (HasContent id)
      | Err reason => aret (TaskError "" reason)
      end) (λ _ s', uploads_inv (uploads (inner s'))) s).
    unfold store. pose proof (uploads_inv_delete _ (signer, id) Hu). by wp_auto.
Qed.

(** A request whose sizes are unsigned numbers, as the wire type says. *)
Definition unsigned_sizes (e : SignedEnvelope) : Prop :=
  ∀ signer id size chunk, open_with_signer e = Ok (ContentStart id size chunk, signer) → 0 ≤ size.

(** C29: the uploads a node buffers stay bounded: however many identities send
    whatever requests, at most four uploads are in progress, their announced
    sizes add up to at most 512 MiB, and the bytes they hold to at most 256 KiB
    more. *)
Theorem uploads_bounded es s :
  uploads (inner s) = ∅ → Forall unsigned_sizes es →
  let u := uploads (inner (handle_all es s)) in
  (size u ≤ 4)%nat ∧ 0 ≤ total_reserved u ≤ 512 * 1024 * 1024 ∧
  held_bytes u ≤ 512 * 1024 * 1024 + 256 * 1024.
Proof.
  intros Hs Hes u.
  assert (uploads_inv u) as (H1'&H2'&H3').
  { unfold u, handle_all. clear u. assert (uploads_inv (uploads (inner s))) as Hu by (rewrite Hs; split_and!;
      [by rewrite map_size_empty; unfold MAX_ACTIVE_UPLOADS; lia|done|apply map_Forall_empty]).
    clear Hs. revert s Hu. induction Hes as [|e es He Hes IH]; intros s Hu; [done|]. cbn [foldl].
    apply IH. apply (handle_respond (λ s, uploads_inv (uploads (inner s)))); [done|done|].
    intros message signer b n Ho Hc. apply respond_uploads; [|done].
    intros id size chunk ->. by eapply He. }
  pose proof (held_bytes_bound u H3'). pose proof (total_reserved_nonneg u H3').
  unfold MAX_ACTIVE_UPLOADS, MAX_IN_FLIGHT_UPLOAD_BYTES, CONTENT_CHUNK_SIZE in *. split_and!; lia.
Qed.

(** ** Executions, one after the other *)

(** A recorded result stays what it is. *)
Definition keeps_completed (s s' : NodeState) : Prop := completed (inner s) ⊆ completed (inner s').

Lemma untouched_completed_event r : untouched completed (append_ledger_event pid clock self (TaskCompleted r)).
Proof. by apply untouched_event. Qed.

Lemma execute_body_completed id signer task s :
  completed (inner s) !! id = None → keeps_completed s (execute_body pid clock self id signer task s).2.
Proof.
  intros Hid. unfold keeps_completed.
  change (wp (execute_body pid clock self id signer task) (λ _ s', completed (inner s) ⊆ completed (inner s')) s).
  unfold execute_body. wp_auto; try done.
  apply (wp_untouched completed); [apply untouched_completed_event|].
  intros r s1 Hs1. cbn in Hs1. assert (completed (inner s) ⊆ completed (inner s1)) as Hsub.
  { rewrite Hs1. by apply insert_subseteq. }
  destruct r; [|done]. by wp_auto.
Qed.

Lemma execute_completed id signer s : keeps_completed s (execute pid clock self id signer s).2.
Proof.
  unfold keeps_completed.
  change (wp (execute pid clock self id signer) (λ _ s', completed (inner s) ⊆ completed (inner s')) s).
  unfold execute, recorded_result, claim. wp_auto; try done.
  all: match goal with |- wp (λ s1, let '(_, _) := execute_body _ _ _ ?i ?n ?t s1 in _) _ ?s0 =>
         pose proof (execute_body_completed i n t s0) as Hb end.
  all: unfold wp, keeps_completed in *; destruct (execute_body _ _ _ _ _ _ _) as [r s']; cbn in *; by apply Hb.
Qed.

Lemma respond_completed signer message s : keeps_completed s (respond signer message s).2.
Proof.
  assert (∀ A (m : act NodeState A), untouched completed m → keeps_completed s (m s).2) as Hkeep.
  { intros A m Hm. unfold keeps_completed. by rewrite (Hm s). }
  destruct message; cbn [Node.respond]; try (apply Hkeep; unfold store; by solve_untouched).
  - apply Hkeep. by apply untouched_offer.
  - apply execute_completed.
  - apply Hkeep. intros s1. unfold change_pending. by destruct (cancel _ _ _).
  - apply Hkeep. intros s1. unfold change_uploads. by destruct (content_start _ _ _ _ _).
  - apply Hkeep. intros s1. unfold change_uploads. by destruct (content_chunk _ _ _ _ _ _).
Qed.

Lemma handle_all_completed es s : keeps_completed s (handle_all es s).
Proof.
  unfold handle_all. revert s. unfold keeps_completed.
  induction es as [|e es IH]; intros s; [reflexivity|]. cbn [foldl]. etrans; [|apply IH].
  apply (handle_respond (λ s', completed (inner s) ⊆ completed (inner s')));
    [reflexivity|reflexivity|].
  intros message signer b n _ Hc. etrans; [exact Hc|]. apply respond_completed.
Qed.

(** A task runs at most once: once its result is recorded, whatever
    requests follow, every commit by its requester is answered with that very
    result and changes nothing, and a commit by anybody else is refused. *)
Theorem completed_results_stable es s id c signer :
  completed (inner s) !! id = Some c →
  let s' := handle_all es s in
  completed (inner s') !! id = Some c ∧
  respond signer (TaskCommit id) s' =
    (if bool_decide (c_requester c = signer) then Ok (TaskResult (c_result c))
     else Err (Rejected "commit signer is not the requester"), s').
Proof.
  intros Hc s'. assert (completed (inner s') !! id = Some c) as Hc'.
  { by apply (lookup_weaken _ _ _ _ Hc), handle_all_completed. }
  split; [done|]. cbn [Node.respond]. unfold execute, recorded_result, abind, locked, aget. rewrite Hc'.
  by case_bool_decide.
Qed.

(** ** Executions by concurrent handlers *)

Definition with_pending (p : gmap string PendingTask) (s : NodeState) : NodeState :=
  mkNodeState (set_pending p (inner s)) (world s) (ticks s).

(** A commit that removes a reservation whose execution is under way, because
    the lease or the deadline of the task has passed. *)
Definition late (id : string) (s s' : NodeState) : bool :=
  match pending (inner s) !! id with
  | Some r => running r && bool_decide (pending (inner s') !! id = None)
  | None => false
  end.

(** The lock sections on the reservations, interleaved in any order, together
    with the list of executions under way.  The label says whether the step is
    a late commit.  [task_other] covers everything that leaves the reservations
    alone: other requests, looking up a recorded result, the body of an
    execution, and time. *)
Inductive task_step : bool → NodeState * list string → NodeState * list string → Prop :=
| task_other s s' fl :
    pending (inner s') = pending (inner s) → task_step false (s, fl) (s', fl)
| task_prune at_ s fl :
    task_step false (s, fl) (with_pending (prune_reservations at_ (pending (inner s))) s, fl)
| task_reserve task requester expires_at observed_at cap p s fl :
    reserve task requester expires_at observed_at cap (pending (inner s)) = inr p →
    task_step false (s, fl) (with_pending p s, fl)
| task_cancel id signer s fl :
    task_step false (s, fl) (with_pending (cancel id signer (pending (inner s))).2 s, fl)
| task_claim id signer task s s' fl :
    claim clock id signer s = (Ok task, s') → task_step false (s, fl) (s', id :: fl)
| task_refuse id signer s e s' fl :
    claim clock id signer s = (Err e, s') → task_step (late id s s') (s, fl) (s', fl)
| task_finish id s fl1 fl2 :
    task_step false (s, fl1 ++ id :: fl2) (mkNodeState (drop_pending id (inner s)) (world s) (ticks s), fl1 ++ fl2).

Definition task_path : NodeState * list string → NodeState * list string → Prop :=
  rtc (λ x y, ∃ l, task_step l x y).

Lemma path_step l x y z : task_path x y → task_step l y z → task_path x z.
Proof. intros Hp Hs. eapply rtc_r; eauto. Qed.

Lemma path_other x s s' fl :
  task_path x (s, fl) → pending (inner s') = pending (inner s) → task_path x (s', fl).
Proof. intros Hp Hs. eapply path_step; [exact Hp|by apply task_other]. Qed.

Lemma untouched_path {A} (m : act NodeState A) x s fl :
  untouched pending m → task_path x (s, fl) → task_path x ((m s).2, fl).
Proof. intros Hm Hp. by eapply path_other. Qed.

Lemma untouched_body id signer task : untouched pending (execute_body pid clock self id signer task).
Proof. unfold execute_body. solve_untouched. by apply untouched_event. Qed.

Lemma execute_path id signer s fl : task_path (s, fl) ((execute pid clock self id signer s).2, fl).
Proof.
  unfold execute, abind at 1.
  assert (untouched pending (recorded_result id signer)) as Hrec by (unfold recorded_result; solve_untouched).
  apply (untouched_path _ (s, fl) s fl) in Hrec; [|reflexivity].
  destruct (recorded_result id signer s) as [[[c|]|x] s0]; [done| |done]. cbn [snd] in Hrec.
  unfold abind. destruct (claim clock id signer s0) as [[task|x] s1] eqn:E.
  2: { eapply path_step; [exact Hrec|]. by eapply task_refuse. }
  assert (task_path (s, fl) (s1, id :: fl)) as Hc.
  { eapply path_step; [exact Hrec|]. by eapply task_claim. }
  apply (untouched_path _ _ _ _ (untouched_body id signer task)) in Hc.
  destruct (execute_body _ _ _ _ _ _ s1) as [r s2]. eapply path_step; [exact Hc|].
  apply (task_finish id s2 []).
Qed.

Lemma offer_path task requester expires_at signer s fl :
  task_path (s, fl) ((accept_offer clock host self task requester expires_at signer s).2, fl).
Proof.
  change (wp (accept_offer clock host self task requester expires_at signer)
            (λ _ s', task_path (s, fl) (s', fl)) s).
  assert (∀ s', pending (inner s') = pending (inner s) → task_path (s, fl) (s', fl)) as Hsame.
  { intros s' Hs. by eapply path_other. }
  assert (∀ at_ s', pending (inner s') = prune_reservations at_ (pending (inner s)) →
            task_path (s, fl) (s', fl)) as Hprune.
  { intros at_ s' Hs. eapply path_other; [eapply path_step; [reflexivity|apply (task_prune at_)]|done]. }
  assert (∀ at_ observed cap p s', reserve task requester expires_at observed cap
              (prune_reservations at_ (pending (inner s))) = inr p →
            pending (inner s') = p → task_path (s, fl) (s', fl)) as Hres.
  { intros at_ observed cap p s' Hp Hs.
    apply (path_other _ (with_pending p (with_pending (prune_reservations at_ (pending (inner s))) s))); [|done].
    eapply path_step; [eapply path_step; [reflexivity|apply (task_prune at_)]|].
    eapply task_reserve. exact Hp. }
  unfold accept_offer, structurally_valid, node_capability.
  wp_auto; try first [by apply Hsame|by eapply Hprune].
  all: match goal with E : reserve _ _ _ _ _ _ = inr _ |- _ => by eapply (Hres _ _ _ _ _ E) end.
Qed.

(** Handling one request is such a path. *)
Lemma handle_path e s fl : task_path (s, fl) ((handle e s).2, fl).
Proof.
  apply (handle_respond (λ s', task_path (s, fl) (s', fl))); [reflexivity|by intros; eapply path_other|].
  intros message signer b n _ Hc.
  destruct message; cbn [Node.respond]; try (apply (untouched_path _ _ _ _); [unfold store; by solve_untouched|done]).
  - etrans; [exact Hc|apply offer_path].
  - etrans; [exact Hc|apply execute_path].
  - eapply path_step; [exact Hc|]. unfold change_pending.
    pose proof (task_cancel task_id signer (charged b n s) fl) as Ht. by destruct (cancel _ _ _).
  - apply (untouched_path _ _ _ _); [|done]. intros s1. unfold change_uploads. by destruct (content_start _ _ _ _ _).
  - apply (untouched_path _ _ _ _); [|done]. intros s1. unfold change_uploads. by destruct (content_chunk _ _ _ _ _ _).
Qed.

(** ** At most one reservation, at most one execution *)

Lemma claim_pending id signer s :
  let '(r, s') := claim clock id signer s in
  match r with
  | Ok task => ∃ p, pending (inner s) !! id = Some p ∧ running p = false ∧
      pending (inner s') = <[id := mark_running p]> (pending (inner s))
  | Err _ => pending (inner s') = pending (inner s) ∨ pending (inner s') = delete id (pending (inner s))
  end.
Proof.
  assert (wp (claim clock id signer) (λ r s', match r with
  | Ok task => ∃ p, pending (inner s) !! id = Some p ∧ running p = false ∧
      pending (inner s') = <[id := mark_running p]> (pending (inner s))
  | Err _ => pending (inner s') = pending (inner s) ∨ pending (inner s') = delete id (pending (inner s))
  end) s) as Hw; [|unfold wp in Hw; by destruct (claim clock id signer s)].
  unfold claim. wp_auto; eauto 10.
Qed.

(** The executions under way hold running reservations of their own. *)
Definition claims (p : gmap string PendingTask) (fl : list string) : Prop :=
  NoDup fl ∧ ∀ id, id ∈ fl → ∃ r, p !! id = Some r ∧ running r = true.

Lemma reserve_size task requester expires_at observed_at cap p p' :
  reserve task requester expires_at observed_at cap p = inr p' →
  p !! task_id task = None ∧ size p' = 1%nat ∧
  p' = <[task_id task := mkPendingTask task requester expires_at false]> p.
Proof.
  unfold reserve. destruct (p !! task_id task) eqn:E; [done|]. case_match eqn:Eb; [done|].
  intros [= <-]. breflect. unfold MAX_CONCURRENT_TASKS in *. rewrite map_size_insert_None by done.
  split_and!; [done|lia|done].
Qed.

Lemma task_step_size l x y :
  task_step l x y → (size (pending (inner x.1)) ≤ 1)%nat → (size (pending (inner y.1)) ≤ 1)%nat.
Proof.
  assert (∀ (p q : gmap string PendingTask), q ⊆ p → (size p ≤ 1)%nat → (size q ≤ 1)%nat) as Hsub.
  { intros p q Hq Hp. etrans; [by apply map_subseteq_size|done]. }
  intros [s s' fl Heq|at_ s fl|task requester ex ob cap p s fl Hr|id signer s fl|id signer task s s' fl He
         |id signer s e s' fl He|id s fl1 fl2]; cbn [fst]; intros Hle.
  - congruence.
  - eapply Hsub; [|exact Hle]. apply map_filter_subseteq.
  - apply reserve_size in Hr as (_&Hs&_). cbn. lia.
  - eapply Hsub; [|exact Hle]. unfold cancel. cbn. destruct (pending (inner s) !! id) as [r|]; [|done].
    case_bool_decide; [|done]. destruct (running r); [done|]. apply delete_subseteq.
  - pose proof (claim_pending id signer s) as Hb. rewrite He in Hb. destruct Hb as (p&Hp&_&->).
    by rewrite map_size_insert_Some.
  - pose proof (claim_pending id signer s) as Hb. rewrite He in Hb. eapply Hsub; [|exact Hle].
    destruct Hb as [->| ->]; [done|]. apply delete_subseteq.
  - eapply Hsub; [|exact Hle]. apply delete_subseteq.
Qed.

Lemma task_step_claims x y :
  task_step false x y → claims (pending (inner x.1)) x.2 → claims (pending (inner y.1)) y.2.
Proof.
  intros Hstep. remember false as l eqn:El.
  destruct Hstep as [s s' fl Heq|at_ s fl|task requester ex ob cap p s fl Hr|id signer s fl|id signer task s s' fl He
         |id signer s e s' fl He|id s fl1 fl2]; cbn [fst snd]; intros [Hnd Hcl].
  - split; [done|]. by rewrite Heq.
  - split; [done|]. intros k Hk. destruct (Hcl k Hk) as (r&Hr&Hrun). exists r. split; [|done]. cbn.
    apply map_lookup_filter_Some. split; [done|]. cbn. unfold reservation_live. by rewrite Hrun.
  - apply reserve_size in Hr as (Hid&_&->). split; [done|]. intros k Hk.
    destruct (Hcl k Hk) as (r&Hk'&Hrun). exists r. split; [|done]. cbn.
    rewrite lookup_insert_ne; [done|]. intros <-. congruence.
  - split; [done|]. intros k Hk. destruct (Hcl k Hk) as (r&Hr&Hrun). exists r. split; [|done]. cbn.
    unfold cancel. destruct (pending (inner s) !! id) as [q|] eqn:Eq; [|done].
    case_bool_decide; [|done]. destruct (running q) eqn:Erun; [done|]. cbn.
    rewrite lookup_delete_ne; [done|]. intros <-. congruence.
  - pose proof (claim_pending id signer s) as Hb. rewrite He in Hb. destruct Hb as (p&Hp&Hnot&->).
    split.
    + constructor; [|done]. intros Hin. destruct (Hcl id Hin) as (r&Hr&Hrun). congruence.
    + intros k [->|Hk]%elem_of_cons.
      * exists (mark_running p). by rewrite lookup_insert_eq.
      * destruct (Hcl k Hk) as (r&Hr&Hrun). exists r. split; [|done].
        rewrite lookup_insert_ne; [done|]. intros <-. congruence.
  - pose proof (claim_pending id signer s) as Hb. rewrite He in Hb. split; [done|].
    intros k Hk. destruct (Hcl k Hk) as (q&Hq&Hrun). exists q. split; [|done].
    destruct Hb as [E|E]; [by rewrite E|].
    rewrite E. rewrite lookup_delete_ne; [done|]. intros ->. unfold late in El.
    rewrite Hq, Hrun, E, lookup_delete_eq, bool_decide_eq_true_2 in El by done. done.
  - apply NoDup_app in Hnd as (Hnd1&Hd&Hnd2). apply NoDup_cons in Hnd2 as [Hni Hnd2]. split.
    + apply NoDup_app. split_and!; [done| |done]. intros k Hk Hk2. apply (Hd k Hk). set_solver.
    + intros k Hk. destruct (Hcl k) as (r&Hr&Hrun); [set_solver|]. exists r. split; [|done]. cbn.
      rewrite lookup_delete_ne; [done|]. intros <-. apply elem_of_app in Hk as [Hk|Hk]; [|done].
      apply (Hd _ Hk). set_solver.
Qed.

(** C8: a node reserves for one task at a time and runs one at a time: whatever
    the interleaving of the lock sections of its handlers, there is at most one
    reservation; handling requests is such an interleaving; and as long as no
    commit removes the reservation of a running task, which a commit after the
    lease or the deadline of the task does, at most one execution is under way, with the
    one reservation as its own.  (Such a commit breaks the limit:
    [late_commit_overcommits].) *)
Theorem executions_bounded s0 s fl :
  pending (inner s0) = ∅ →
  (∀ es, task_path (s0, []) (handle_all es s0, [])) ∧
  (task_path (s0, []) (s, fl) → (size (pending (inner s)) ≤ MAX_CONCURRENT_TASKS)%nat) ∧
  (rtc (task_step false) (s0, []) (s, fl) →
   (length fl ≤ MAX_CONCURRENT_TASKS)%nat ∧
   ∀ id, id ∈ fl → ∃ r, pending (inner s) = {[id := r]} ∧ running r = true).
Proof.
  intros H0'. unfold MAX_CONCURRENT_TASKS.
  assert (∀ x, task_path (s0, []) x → (size (pending (inner x.1)) ≤ 1)%nat) as Hsize.
  { apply (rtc_ind_r (λ x, (size (pending (inner x.1)) ≤ 1)%nat) (s0, [])).
    - cbn. rewrite H0', map_size_empty. lia.
    - intros y z _ [l Hl] Hy. by eapply task_step_size. }
  split_and!.
  - unfold handle_all. intros es. generalize s0 as s1. induction es as [|e es IH]; intros s1; [reflexivity|].
    cbn [foldl]. etrans; [apply (handle_path e)|apply IH].
  - apply (Hsize (s, fl)).
  - intros Hp.
    assert (claims (pending (inner s)) fl) as [Hnd Hcl].
    { refine (rtc_ind_r (λ x, claims (pending (inner x.1)) x.2) (s0, []) _ _ (s, fl) Hp).
      - split; [constructor|]. set_solver.
      - intros y z _ Hl Hy. by eapply task_step_claims. }
    assert (size (pending (inner s)) ≤ 1)%nat as Hle.
    { apply (Hsize (s, fl)). eapply rtc_subrel; [|exact Hp]. intros x y Hxy. by exists false. }
    assert (∀ id, id ∈ fl → ∃ r, pending (inner s) = {[id := r]} ∧ running r = true) as Hone.
    { intros id Hid. destruct (Hcl id Hid) as (r&Hr&Hrun). exists r. split; [|done].
      rewrite <- (insert_delete_id _ _ _ Hr) in Hle |- *.
      rewrite map_size_insert_None in Hle by apply lookup_delete_eq.
      rewrite (map_size_empty_inv (delete id _)) by lia. done. }
    split; [|done]. destruct fl as [|a [|b fl]]; [cbn; lia..|]. exfalso.
    destruct (Hone a) as (r&Ha&_); [set_solver|]. destruct (Hcl b) as (q&Hb&_); [set_solver|].
    rewrite Ha in Hb. apply lookup_singleton_Some in Hb as [-> _].
    apply NoDup_cons in Hnd as [Hnot _]. set_solver.
Qed.

End tasks.

(** ** Witnesses and counterexamples *)

Module Samples.
Import Toy ToyDoc Node.Samples.

Definition start0 : SignedEnvelope := from_peer (ContentStart (ContentId_of [x07]) 100 65536).
Definition chunk0 : SignedEnvelope :=
  from_peer (ContentChunk (ContentId_of [x07]) 0 [x07] (ContentId_of [x07])).

Lemma uploads_bounded_witness :
  (size (uploads (inner (handle_all 7 clock0 host0 self0 [start0; chunk0] state0))) ≤ 4)%nat.
Proof.
  refine (proj1 (uploads_bounded 7 clock0 host0 self0 [start0; chunk0] state0 _ _)).
  - reflexivity.
  - assert (open_with_signer start0 = Ok (ContentStart (ContentId_of [x07]) 100 65536, node_id peer0)) as E1
      by (vm_compute; reflexivity).
    assert (open_with_signer chunk0
            = Ok (ContentChunk (ContentId_of [x07]) 0 [x07] (ContentId_of [x07]), node_id peer0)) as E2
      by (vm_compute; reflexivity).
    repeat constructor; intros signer id sz chunk; [rewrite E1|rewrite E2]; intros E; [|discriminate E].
    injection E as _ <- _ _. lia.
Defined.

(** Tasks of the other node, and the capability the host reports. *)
Definition task0 (id : string) : Task :=
  mkTask id (ContentId_of [x00]) (ContentId_of [x05])
    (mkRequirements 0 0 "wasmtime-bytes-v1" 0 NetNone) TrustExecutor None.
Definition cap0 : NodeCapability := capability_of self0 100 (host0 0) ∅.
Definition record0 : SignedExecutionRecord :=
  mkSignedExecutionRecord (mkExecutionRecord "a" [] [] [] [] [] 0 0) [] [] [].
Definition completed0 : CompletedTask := mkCompletedTask (task0 "a") (node_id peer0) record0.
Definition with_result : NodeState :=
  mkNodeState (set_completed {["a" := completed0]} inner0) (world state0) 0.

Lemma completed_results_stable_witness :
  completed (inner (handle_all 7 clock0 host0 self0 [start0; chunk0] with_result)) !! "a" = Some completed0.
Proof.
  refine (proj1 (completed_results_stable 7 clock0 host0 self0 [start0; chunk0] with_result "a" completed0
    (node_id peer0) _)).
  reflexivity.
Defined.

(** The states of a run in which task [a] is committed again after its lease. *)
Definition reserved (id : string) (expires_at : Z) (s : NodeState) : NodeState :=
  match reserve (task0 id) (node_id peer0) expires_at 100 cap0 (pending (inner s)) with
  | inr p => with_pending p s
  | inl _ => s
  end.
Lemma reserved_step id expires_at s fl x :
  task_path clock0 x (s, fl) →
  (if reserve (task0 id) (node_id peer0) expires_at 100 cap0 (pending (inner s)) then false else true) = true →
  task_path clock0 x (reserved id expires_at s, fl).
Proof.
  intros Hp Hr. eapply path_step; [exact Hp|]. unfold reserved.
  destruct (reserve _ _ _ _ _ _) eqn:E; [done|]. by eapply task_reserve.
Qed.

Definition committed (id : string) (s : NodeState) : NodeState :=
  (claim clock0 id (node_id peer0) s).2.
Definition later (n : nat) (s : NodeState) : NodeState := mkNodeState (inner s) (world s) n.

Definition run1 : NodeState := reserved "a" 150 state0.
Definition run2 : NodeState := committed "a" run1.
Definition run3 : NodeState := later 100 run2.
Definition run4 : NodeState := committed "a" run3.
Definition run5 : NodeState := reserved "b" 500 run4.
Definition run6 : NodeState := committed "b" run5.

(** A task is reserved and claimed, and while it runs the reservation of another
    one is refused and its claim fails: one execution is under way. *)
Lemma executions_bounded_witness :
  reserve (task0 "b") (node_id peer0) 500 100 cap0 (pending (inner run2))
    = inl (TaskReject "b" "executor has no safe memory or task-slot capacity") ∧
  (∃ r, pending (inner run2) = {["a" := r]} ∧ running r = true) ∧
  (length ["a"] ≤ MAX_CONCURRENT_TASKS)%nat.
Proof.
  split; [vm_compute; reflexivity|].
  destruct (executions_bounded 7 clock0 host0 self0 state0 run2 ["a"] eq_refl) as (_&_&Hb).
  destruct Hb as [Hl Hone].
  - eapply rtc_l; [|eapply rtc_l; [|apply rtc_refl]].
    + apply (task_reserve clock0 (task0 "a") (node_id peer0) 150 100 cap0 (pending (inner run1)) state0 []).
      vm_compute. reflexivity.
    + apply (task_claim clock0 "a" (node_id peer0) (task0 "a") run1). vm_compute. reflexivity.
  - split; [|exact Hl]. apply Hone. apply list_elem_of_singleton. reflexivity.
Defined.

(** A late commit breaks the limit on concurrent executions: when the
    requester commits a running task again after its lease has expired, the
    reservation goes away while the execution goes on, so that another task is
    accepted and two executions are under way. *)
Theorem late_commit_overcommits :
  task_path clock0 (state0, []) (run6, ["b"; "a"]) ∧
  late "a" run3 run4 = true ∧ (length ["b"; "a"] > MAX_CONCURRENT_TASKS)%nat.
Proof.
  split; [|split; [vm_compute; reflexivity|unfold MAX_CONCURRENT_TASKS; cbn; lia]].
  assert (task_path clock0 (state0, []) (run1, [])) as H1.
  { apply reserved_step; [reflexivity|]. vm_compute. reflexivity. }
  assert (task_path clock0 (state0, []) (run2, ["a"])) as H2.
  { eapply path_step; [exact H1|]. apply (task_claim clock0 "a" (node_id peer0) (task0 "a")).
    vm_compute. reflexivity. }
  assert (task_path clock0 (state0, []) (run4, ["a"])) as H4.
  { eapply path_step; [apply (path_other clock0 _ run2 run3 ["a"] H2); reflexivity|].
    apply (task_refuse clock0 "a" (node_id peer0) run3 (Rejected "task lease or deadline expired")).
    vm_compute. reflexivity. }
  assert (task_path clock0 (state0, []) (run5, ["a"])) as H5.
  { apply reserved_step; [exact H4|]. vm_compute. reflexivity. }
  eapply path_step; [exact H5|]. apply (task_claim clock0 "b" (node_id peer0) (task0 "b")).
  vm_compute. reflexivity.
Qed.

End Samples.
