(* ===== verification/NodeReplies.v ===== *)
(** The types of a node's answers (crates/peerless-node/src/lib.rs): which
    messages the dispatcher may answer a request with, and that it never answers
    with another, nor under another name. *)

From S2P Require Import Network Prelude External Core Protocol FileSystem Storage.
From S2P Require Import Merkle Consensus Ledger Compute State Metadata Node NodeAccess NodeTasks.
From Stdlib Require Import Strings.Byte.
#[local] Open Scope Z_scope.
#[local] Open Scope result_scope.

Section replies.
Context (pid : N) `{Sha256, Hex, Keys, Automerge, Wasmtime}.
Context `{JsonLaws Message, Json ExecutionRecord, Json SignedExecutionRecord, Json Task, Json NodeId}.
Context `{Json LedgerEvent, Json SignedEvent, Json Block, Json Proposal, Json MembershipPayload}.
Context (clock : nat → Z) (host : nat → Host) (error_text : NodeError → string) (self : Config).

(** ** The type of an exchange *)

(** A refusal: it names no task. *)
Inductive refusal : Message → Prop :=
| refused reason : refusal (TaskReject "" reason).

(** Messages that are answers themselves. *)
Definition is_answer (m : Message) : bool :=
  match m with
  | Capability _ | HasContent _ | TaskAccept _ | TaskReject _ _ | TaskStarted _ _ | TaskError _ _
  | TaskResult _ => true
  | _ => false
  end.

(** [answers n m r]: [r] is an answer of the type that [m], signed by [n], asks
    for.  A capability shows the node and an expiry and nothing of the host;
    content has the identifier that was asked for; only an offer in the name of
    its signer is accepted; what is an answer itself is sent back. *)
Inductive answers (n : NodeId) : Message → Message → Prop :=
| a_capability at_ : answers n GetCapability (Capability (public_capability self at_))
| a_present id : answers n (CheckContent id) (HasContent id)
| a_absent id : answers n (CheckContent id) (TaskError "" "content not found")
| a_content b : answers n (GetContent (ContentId_of b)) (Content (ContentId_of b) b)
| a_stored b : answers n (Content (ContentId_of b) b) (HasContent (ContentId_of b))
| a_started id size chunk : answers n (ContentStart id size chunk) (HasContent id)
| a_not_started id size chunk reason : answers n (ContentStart id size chunk) (TaskError "" reason)
| a_chunk id index b : answers n (ContentChunk id index b (ContentId_of b)) (HasContent (ContentId_of b))
| a_bad_chunk id index b h reason : answers n (ContentChunk id index b h) (TaskError "" reason)
| a_complete id : answers n (ContentComplete id) (HasContent id)
| a_incomplete id reason : answers n (ContentComplete id) (TaskError "" reason)
| a_accept t expiry : task_id t ≠ "" → answers n (TaskOffer t n expiry) (TaskAccept (task_id t))
| a_reject t requester expiry reason : answers n (TaskOffer t requester expiry) (TaskReject (task_id t) reason)
| a_result id r : answers n (TaskCommit id) (TaskResult r)
| a_cancel id reason : answers n (TaskCancel id) (TaskError id reason)
| a_merged d b : answers n (StateSnapshot d b) (HasContent (ContentId_of b))
| a_echo m : is_answer m = true → answers n m m.

#[local] Hint Constructors refusal answers : core.

(** ** The handlers *)

(** A step whose outcome does not matter. *)
Lemma wp_skip {A B} (m : act NodeState A) (k : A → act NodeState B) Q s :
  (∀ a s', wp (k a) Q s') → (∀ e s', Q (Err e) s') → wp (abind m k) Q s.
Proof. intros Hk He. apply wp_bind. unfold wp at 1. destruct (m s) as [[a|e] s']; [apply Hk|apply He]. Qed.

Lemma structurally_valid_offer t requester expiry signer s :
  wp (structurally_valid clock self t requester expiry signer)
    (λ r _, r = Ok true → requester = signer ∧ task_id t ≠ "") s.
Proof.
  unfold structurally_valid. destruct (negb _ && _) eqn:E; [|done]. breflect. intros _; done.
Qed.

Lemma reserve_answers t n expiry observed cap p m :
  task_id t ≠ "" → reserve t n expiry observed cap p = inl m → answers n (TaskOffer t n expiry) m.
Proof. intros Hid. unfold reserve. repeat case_match; intros [= <-]; auto. Qed.

Lemma accept_offer_answers t requester expiry signer s :
  wp (accept_offer clock host self t requester expiry signer)
    (λ r _, ∀ reply, r = Ok reply → answers signer (TaskOffer t requester expiry) reply) s.
Proof.
  unfold accept_offer. apply wp_bind. eapply wp_mono; [apply structurally_valid_offer|].
  intros [[]|] s1 Hv; [|by intros reply [= <-]|done]. destruct (Hv eq_refl) as [-> Hid]. cbn [negb].
  unfold node_capability. wp_auto; try done; intros reply [= <-]; try case_match; eauto using reserve_answers.
Qed.

Lemma execute_answers id signer s :
  wp (execute pid clock self id signer) (λ r _, ∀ reply, r = Ok reply → answers signer (TaskCommit id) reply) s.
Proof.
  unfold execute. apply wp_skip; [|done]. intros [r|] s0; [by intros ? [= <-]|].
  apply wp_skip; [|done]. intros task s1.
  assert (wp (execute_body pid clock self id signer task)
    (λ r _, ∀ reply, r = Ok reply → answers signer (TaskCommit id) reply) s1) as Hb.
  { unfold execute_body. repeat (apply wp_skip; [intros ? ?|done]). destruct (task_memory_limit task); [|done].
    repeat (apply wp_skip; [intros ? ?|done]). by intros ? [= <-]. }
  unfold wp in *. destruct (execute_body _ _ _ _ _ _ _) as [r s2]. exact Hb.
Qed.

(** The dispatcher answers with the type of the request, or refuses. *)
Lemma respond_answers signer m s :
  wp (respond pid clock host self signer m)
    (λ r _, ∀ reply, r = Ok reply → answers signer m reply ∨ refusal reply) s.
Proof.
  unfold respond, store. destruct m; try (wp_step; intros reply [= <-]; by auto).
  - eapply wp_mono; [apply accept_offer_answers|]. eauto.
  - eapply wp_mono; [apply execute_answers|]. eauto.
  - unfold wp, change_pending, cancel. repeat case_match; simplify_eq; intros reply [= <-]; auto.
  - apply wp_skip; [|done]. intros present s1. wp_step. intros reply [= <-]. destruct present; auto.
  - apply wp_bind, wp_files. intros [b|] w E; [|done]. apply (f_equal fst), FileCas_get_verified in E as ->.
    cbn [rmap_err]. wp_step. intros reply [= <-]. auto.
  - destruct (ContentId_verify id body) eqn:E; [|wp_step; intros reply [= <-]; by auto].
    apply ContentId_verify_spec in E as ->. apply wp_skip; [|done]. intros ? s1. wp_step. intros reply [= <-]. auto.
  - unfold wp, change_uploads, content_start. repeat case_match; simplify_eq; intros reply [= <-]; auto.
  - unfold wp, change_uploads, content_chunk. repeat case_match; simplify_eq; intros reply [= <-]; auto.
    breflect. match goal with E : ContentId_verify _ _ = true |- _ => apply ContentId_verify_spec in E as -> end. auto.
  - apply wp_skip; [|done]. intros u s1. apply wp_skip; [|done]. intros v s2. case_match.
    + apply wp_skip; [|done]. intros ? s3. wp_step. intros reply [= <-]. auto.
    + wp_step. intros reply [= <-]. auto.
  - apply wp_skip; [|done]. intros ? s1. wp_step. intros reply [= <-]. auto.
Qed.

Lemma handle_answers e s r s' :
  identity_wf (identity self) → handle pid clock host self e s = (Ok r, s') →
  ∃ reply, open_with_signer r = Ok (reply, self_id self) ∧
    (refusal reply ∨ ∃ m n, open_with_signer e = Ok (m, n) ∧ answers n m reply).
Proof.
  intros Hi Hh. destruct (open_with_signer (A := Message) e) as [[m n]|x] eqn:Eo; cycle 1.
  { rewrite (handle_open_error pid clock host self e s x Eo) in Hh. done. }
  assert (∀ reply s0, sealed self reply s0 = (Ok r, s') → open_with_signer r = Ok (reply, self_id self)) as Hseal.
  { intros reply s0. unfold sealed, alift. destruct (SignedEnvelope_seal _ _) as [e'|] eqn:Es; [|done].
    intros [= <- _]. by apply sealed_envelope_opens. }
  pose proof (handle_opened pid clock host self e s m n Eo) as Hop. destruct (consume_request_budget _ _ _) as [within b].
  destruct Hop as (k&_&Hop). case_match; rewrite ?Hh in Hop; cycle 1.
  { destruct Hop as [reason Hr]. symmetry in Hr. eexists. split; [by eapply Hseal|by left]. }
  pose proof (respond_answers n m (charged b k s)) as Ha. symmetry in Hop. unfold wp, abind in *.
  destruct (respond _ _ _ _ _ _ _) as [[reply|] s1]; [|done].
  exists reply. split; [by eapply Hseal|]. destruct (Ha reply eq_refl); [right; eauto|by left].
Qed.

(** C19: every answer a node gives, over TCP or over libp2p, whatever the request
    and the state, opens as signed by the node itself, and is either a refusal
    that names no task, or the request opened and the answer has the type the
    request asks for: content is returned under its own identifier, only an
    offer in its signer's own name is accepted, a capability shows nothing of
    the host; over libp2p the request is then also the connected peer's own. *)
Theorem replies_well_typed e peer s :
  identity_wf (identity self) →
  let typed r := ∃ reply, open_with_signer r = Ok (reply, self_id self) ∧
    (refusal reply ∨ ∃ m n, open_with_signer e = Ok (m, n) ∧ answers n m reply) in
  (∀ r, (handle_or_reject pid clock host error_text self e s).1 = Some r → typed r) ∧
  (∀ r, (handle_p2p_or_reject pid clock host error_text self peer e s).1 = Some r →
     typed r ∧ (transport_matches peer e = true ∨ ∃ reply, open_with_signer r = Ok (reply, self_id self) ∧ refusal reply)).
Proof.
  intros Hi typed.
  assert (∀ reason r, or_panic (SignedEnvelope_seal (no_task reason) (identity self)) = Some r →
    open_with_signer r = Ok (no_task reason, self_id self)) as Hno.
  { intros reason r. destruct (SignedEnvelope_seal _ _) as [e'|] eqn:E; [|done]. intros [= <-].
    by apply sealed_envelope_opens. }
  assert (∀ r, (handle_or_reject pid clock host error_text self e s).1 = Some r → typed r) as Hall.
  { intros r. unfold handle_or_reject. destruct (handle pid clock host self e s) as [[r'|x] s'] eqn:E; cbn [fst].
    - intros [= <-]. by eapply handle_answers.
    - intros Hr%Hno. eexists. split; [exact Hr|left; constructor]. }
  split; [exact Hall|]. intros r. unfold handle_p2p_or_reject. destruct (transport_matches peer e); [by eauto|].
  cbn [fst]. intros Hr%Hno. split; [|right]; eexists; (split; [exact Hr|]); [left|]; constructor.
Qed.

End replies.

(** ** Witness *)

Module Samples.
Import Toy ToyDoc Node.Samples.

(** A peer asks for the capability of a node. *)
Lemma identity0_wf : identity_wf (identity self0).
Proof. split; reflexivity. Qed.

Lemma replies_well_typed_witness :
  ∃ r (reply : Message),
    (handle_or_reject 7 clock0 host0 (λ _, "error") self0 (from_peer GetCapability) state0).1 = Some r ∧
    open_with_signer r = Ok (reply, self_id self0) ∧
    (refusal reply ∨ ∃ m n, open_with_signer (from_peer GetCapability) = Ok (m, n) ∧ answers self0 n m reply).
Proof.
  destruct (handle_or_reject 7 clock0 host0 (λ _, "error") self0 (from_peer GetCapability) state0).1 as [r|] eqn:E;
    [|vm_compute in E; discriminate E].
  destruct (proj1 (replies_well_typed 7 clock0 host0 (λ _, "error") self0 (from_peer GetCapability) [] state0 identity0_wf) r E)
    as (reply&Hr&Ha).
  exists r, reply. split_and!; [reflexivity|exact Hr|exact Ha].
Defined.

End Samples.
