(* ===== verification/NodeRestart.v ===== *)
(** Restarting a node ([PeerlessNode::open] in crates/peerless-node/src/lib.rs
    over the database of metadata.rs): which results survive, and which states
    a node writes but cannot open again. *)

From S2P Require Import Network Prelude External Core Protocol FileSystem Storage.
From S2P Require Import Merkle Consensus Ledger Compute State Metadata Node NodeAccess NodeTasks.
From Stdlib Require Import Strings.Byte.
#[local] Open Scope Z_scope.
#[local] Open Scope result_scope.

(** ** Recovered results *)

Section restart.
Context (pid : N) `{Sha256, Hex, Keys, Automerge, Wasmtime}.
Context `{Json ExecutionRecord, JsonLaws SignedExecutionRecord, JsonLaws Task, JsonLaws NodeId}.
Context `{Json LedgerEvent, Json SignedEvent, Json Block, Json Proposal, Json MembershipPayload}.
Context `{Json Invitation, Json (list Membership)}.
Context (clock : nat → Z).

(** A world in which no call fails and a file is in place. *)
Definition holds_file (q : path) (w : World) : Prop :=
  faults w = [] ∧ ∃ m b, fs w !! q = Some (File m b).

Lemma create_dir_all_holds d q w : holds_file q w → holds_file q (create_dir_all d w).2.
Proof.
  intros [Hf (m&b&Hq)]. unfold create_dir_all. rewrite syscall_nofault by done.
  destruct (mkdirs (fs w) d) as [t|] eqn:Em; cbn [ok_or rbind snd fs faults]; (split; [done|]); [|eauto].
  destruct (mkdirs_lookup _ _ _ q Em) as [E|(E&_)]; [exists m, b; cbn [fs]; by rewrite E|congruence].
Qed.

Lemma contains_holds {id root w} :
  holds_file (path_for root id) w →
  (FileCas_contains root id w).1 = Ok true ∧ holds_file (path_for root id) (FileCas_contains root id w).2.
Proof.
  intros [Hf (m&b&Hq)]. unfold FileCas_contains, is_file, ihandle. rewrite syscall_nofault by done.
  rewrite (follow_File _ _ _ _ Hq). cbn. split; [done|]. split; [done|eauto].
Qed.

Lemma contains_other root id q w :
  holds_file q w → (∃ b, (FileCas_contains root id w).1 = Ok b) ∧ holds_file q (FileCas_contains root id w).2.
Proof.
  intros [Hf (m&b&Hq)]. unfold FileCas_contains, is_file, ihandle. rewrite syscall_nofault by done. cbn.
  split; [eauto|]. split; [done|eauto].
Qed.

(** A recorded result that passes the checks of [open]. *)
Definition result_ok (task : Task) (r : SignedExecutionRecord) : Prop :=
  SignedExecutionRecord_verify r = Ok true ∧ rec_task_id (record r) = task_id task ∧
  rec_component (record r) = component task ∧ rec_input (record r) = input task.

Lemma result_valid_ok cas task r s :
  result_ok task r → holds_file (path_for cas (rec_output (record r))) (world s) →
  wp (result_valid cas task r)
    (λ v s', v = Ok true ∧ inner s' = inner s ∧ holds_file (path_for cas (rec_output (record r))) (world s')) s.
Proof.
  intros (Hv&Hi&Hc&Hn) Hh. unfold result_valid. rewrite Hv, !bool_decide_eq_true_2 by done. cbn [andb].
  apply wp_files. intros v w E. pose proof (contains_holds Hh) as [H1' H2']. rewrite E in H1', H2'.
  cbn in H1', H2'. by rewrite H1'.
Qed.

Lemma result_valid_other cas q task r s :
  holds_file q (world s) →
  wp (result_valid cas task r)
    (λ v s', (∃ b, v = Ok b) ∧ inner s' = inner s ∧ holds_file q (world s')) s.
Proof.
  intros Hh. unfold result_valid. repeat case_match; try by split_and!; eauto.
  apply wp_files. intros v w E. pose proof (contains_other cas (rec_output (record r)) q (world s) Hh) as [[b H1'] H2'].
  rewrite E in H1', H2'. cbn in H1', H2'. rewrite H1'. split_and!; eauto.
Qed.

Lemma recover_completed_spec cas rows acc s task requester r :
  result_ok task r → holds_file (path_for cas (rec_output (record r))) (world s) →
  (∀ y, y ∈ rows → task_id y.1.1 = task_id task → y = (task, requester, r)) →
  (task, requester, r) ∈ rows ∨ acc !! task_id task = Some (mkCompletedTask task requester r) →
  wp (recover_completed cas acc rows) (λ res s',
    ∃ m, res = Ok m ∧ m !! task_id task = Some (mkCompletedTask task requester r)) s.
Proof.
  intros Hr. revert acc s. induction rows as [|[[t q] x] rows IH]; intros acc s Hh Huniq Hin.
  { destruct Hin as [Hin|Hin]; [by apply elem_of_nil in Hin|]. by exists acc. }
  cbn [recover_completed]. apply wp_bind.
  assert (∀ y, y ∈ rows → task_id y.1.1 = task_id task → y = (task, requester, r)) as Huniq'.
  { intros y Hy. apply Huniq. by right. }
  destruct (decide (task_id t = task_id task)) as [E|E].
  - assert ((t, q, x) = (task, requester, r)) as [= -> -> ->] by (apply Huniq; [left|done]).
    eapply wp_mono; [by apply result_valid_ok|]. intros v s1 (->&_&Hh1).
    apply IH; [done|done|]. right. by rewrite lookup_insert_eq.
  - eapply wp_mono; [by apply (result_valid_other _ (path_for cas (rec_output (record r))))|].
    intros v s1 ([b ->]&_&Hh1). apply IH; [done|done|].
    destruct Hin as [Hin|Hin].
    + left. apply elem_of_cons in Hin as [[= -> _ _]|Hin]; [done|done].
    + right. destruct b; [|done]. by rewrite lookup_insert_ne.
Qed.

(** Completed rows are filed under the identifier of their task. *)
Definition rows_keyed (rows : gmap string TaskRow) : Prop :=
  ∀ id row raw y, rows !! id = Some row → completed_row row = Some raw → parse_row raw = Ok y →
    task_id y.1.1 = id.

(** The database has a result on record. *)
Definition on_record (rows : gmap string TaskRow) (task : Task) (requester : NodeId)
    (r : SignedExecutionRecord) : Prop :=
  ∃ row raw, rows !! task_id task = Some row ∧ completed_row row = Some raw ∧
    parse_row raw = Ok (task, requester, r).

Lemma completed_tasks_query m rows m' :
  meta_completed_tasks m = (Ok rows, m') →
  collect (parse_row <$> omap completed_row (snd <$> map_to_list (task_rows m))) = Ok rows.
Proof.
  unfold meta_completed_tasks, sql_query. destruct (default false _); [done|]. by intros [= -> _].
Qed.

Lemma untouched_load_invitation self : untouched completed (load_invitation clock self).
Proof. unfold load_invitation, read_bounded_file, activate_invitation, enforce_membership. solve_untouched. Qed.

Lemma untouched_register_all self ms : untouched completed (register_all pid clock self ms).
Proof.
  induction ms as [|m ms IH]; cbn [register_all]; [apply untouched_ret|].
  apply untouched_bind; [apply untouched_now|intros at_].
  apply untouched_bind; [|intros; apply IH]. unfold register_issued_membership. solve_untouched.
Qed.

Lemma untouched_load_issued self : untouched completed (load_issued pid clock self).
Proof.
  unfold load_issued, read_bounded_file. solve_untouched. apply untouched_register_all.
Qed.

Lemma open_recovers i data s task requester r :
  rows_keyed (task_rows (metadata (inner s))) →
  on_record (task_rows (metadata (inner s))) task requester r → result_ok task r →
  holds_file (path_for ("cas" :: data) (rec_output (record r))) (world s) →
  wp (PeerlessNode_open pid clock i data) (λ res s', ∀ self, res = Ok self →
    completed (inner s') !! task_id task = Some (mkCompletedTask task requester r)) s.
Proof.
  intros Hkey (row&raw&Hrow&Hraw&Hy) Hr Hh. unfold PeerlessNode_open.
  set (q := path_for ("cas" :: data) (rec_output (record r))) in *.
  apply wp_bind, wp_files. intros rc w1 E1. unfold FileCas_open, ibind, imap_err, iret in E1.
  pose proof (create_dir_all_holds ("cas" :: data) q (world s) Hh) as Hh1.
  destruct (create_dir_all ("cas" :: data) (world s)) as [[u|k] w1']; [|by injection E1 as <- _].
  injection E1 as <- <-. cbn [snd rmap_err] in *.
  apply wp_bind, wp_files. intros rm w2 E2. cbn [world] in E2.
  pose proof (create_dir_all_holds ("metadata" :: data) q w1' Hh1) as Hh2. rewrite E2 in Hh2. cbn [snd] in Hh2.
  destruct rm as [u'|]; [|done]. cbn [rmap_err].
  apply wp_bind, wp_database. intros rr m E3. cbn [inner] in E3. destruct rr as [rows|]; [|done].
  apply completed_tasks_query in E3. pose proof (completed_tasks_elem _ _ E3) as Hel. cbn [rmap_err].
  apply wp_bind. eapply wp_mono.
  { apply (recover_completed_spec _ rows ∅ _ task requester r); [done|exact Hh2| |].
    - intros y (id&row'&raw'&Hl&Hc&Hp)%Hel E. pose proof (Hkey _ _ _ _ Hl Hc Hp). subst id. rewrite E in Hl.
      congruence.
    - left. apply Hel. eauto 10. }
  intros res s1 (c&->&Hc).
  apply wp_bind, wp_files. intros [st|] w3 _; [|done]. cbn [rmap_err].
  apply wp_bind, wp_files. intros [l|] w4 _; [|done]. cbn [rmap_err].
  apply wp_bind. wp_step. apply wp_bind. wp_step.
  apply wp_bind. apply (wp_untouched completed); [apply untouched_load_invitation|].
  intros [|] s2 Hs2; [|done]. apply wp_bind.
  apply (wp_untouched completed); [apply untouched_load_issued|]. intros [|] s3 Hs3; [|done].
  wp_auto. intros self [= <-]. cbn. rewrite Hs3, Hs2. done.
Qed.

Lemma rows_keyed_insert rows id row :
  rows_keyed rows → (∀ raw y, completed_row row = Some raw → parse_row raw = Ok y → task_id y.1.1 = id) →
  rows_keyed (<[id := row]> rows).
Proof.
  intros Hk Hrow k row' raw y. destruct (decide (k = id)) as [->|Hne].
  - rewrite lookup_insert_eq. intros [= <-]. apply Hrow.
  - rewrite lookup_insert_ne by done. apply Hk.
Qed.

Lemma meta_task_keyed id state executor at_ m u m' :
  state ≠ "completed" → meta_task id state executor at_ m = (Ok u, m') →
  rows_keyed (task_rows m) → rows_keyed (task_rows m').
Proof.
  intros Hst E%sql_execute_Ok Hk. subst m'. apply rows_keyed_insert; [done|].
  intros raw y. unfold completed_row. cbn. by rewrite bool_decide_eq_false_2.
Qed.

Lemma meta_completed_task_record task requester r at_ m u m' :
  meta_completed_task task requester r at_ m = (Ok u, m') → rows_keyed (task_rows m) →
  rows_keyed (task_rows m') ∧ on_record (task_rows m') task requester r.
Proof.
  unfold meta_completed_task. destruct (to_vec requester) as [bq|] eqn:Eq; [|done].
  destruct (to_vec task) as [bt|] eqn:Et; [|done]. destruct (to_vec r) as [br|] eqn:Er; [|done]. cbn [ok_or].
  intros E%sql_execute_Ok Hk. subst m'. cbn [task_rows set_task_rows set_db_faults].
  set (row := mkTaskRow _ _ _ _ _ _).
  assert (completed_row row = Some (bt, bq, br)) as Hrow by done.
  assert (parse_row (bt, bq, br) = Ok (task, requester, r)) as Hparse.
  { cbn [parse_row]. rewrite (json_roundtrip task bt Et), (json_roundtrip requester bq Eq), (json_roundtrip r br Er). done. }
  split.
  - apply rows_keyed_insert; [done|]. intros raw y Hraw Hy. rewrite Hrow in Hraw. injection Hraw as <-.
    rewrite Hparse in Hy. by injection Hy as <-.
  - exists row, (bt, bq, br). by rewrite lookup_insert_eq.
Qed.

Lemma meta_event_rows at_ kind details m u m' :
  meta_event at_ kind details m = (Ok u, m') → task_rows m' = task_rows m.
Proof. intros E%sql_execute_Ok. by subst m'. Qed.

Context (self : Config) (host : nat → Host) `{Json Message}.

(** What a successful execution leaves behind. *)
Lemma execute_body_records id signer task s :
  identity_wf (identity self) → task_id task = id → rows_keyed (task_rows (metadata (inner s))) →
  wp (execute_body pid clock self id signer task) (λ res s1, ∀ r, res = Ok (TaskResult r) →
    rows_keyed (task_rows (metadata (inner s1))) ∧ on_record (task_rows (metadata (inner s1))) task signer r ∧
    result_ok task r ∧ completed (inner s1) !! id = Some (mkCompletedTask task signer r)) s.
Proof.
  intros Hwf Hid Hk. unfold execute_body. wp_auto; try done.
  all: match goal with E : SignedExecutionRecord_seal _ _ = Ok ?x |- _ =>
         pose proof (sealed_record_verify _ _ _ Hwf E) as [Hrec Hver]; rename x into r end.
  all: rewrite bool_decide_eq_true_2 in Hver by done.
  all: match goal with E : meta_task _ _ _ _ _ = _ |- _ => apply meta_task_keyed in E; [|done|exact Hk] end.
  all: match goal with |- wp (append_ledger_event _ _ _ _) _ ?s0 => set (s2 := s0) end.
  all: apply (wp_untouched (λ i, (metadata i, completed i))); [by apply untouched_event|].
  all: intros [|] s3 [= Hm Hc]; [|done].
  all: wp_auto; try done; intros r' [= <-].
  all: match goal with E : meta_event _ _ _ _ = _ |- _ => apply meta_event_rows in E; cbn [inner metadata set_metadata] in E |- * end.
  all: match goal with E : meta_completed_task _ _ _ _ _ = _ |- _ =>
         apply meta_completed_task_record in E as [? ?]; [|cbn; rewrite Hm; done] end.
  all: match goal with E : task_rows _ = task_rows _ |- _ => rewrite E end.
  all: split_and!; [done|done| |cbn; rewrite Hc; by rewrite lookup_insert_eq].
  all: unfold result_ok; rewrite Hrec; by split_and!.
Qed.

(** Reservations are filed under the identifier of their task. *)
Definition pending_keyed (p : gmap string PendingTask) : Prop := map_Forall (λ k r, task_id (p_task r) = k) p.

Lemma execute_records id signer p s r s1 :
  identity_wf (identity self) → rows_keyed (task_rows (metadata (inner s))) → pending_keyed (pending (inner s)) →
  completed (inner s) !! id = None → pending (inner s) !! id = Some p →
  execute pid clock self id signer s = (Ok (TaskResult r), s1) →
  rows_keyed (task_rows (metadata (inner s1))) ∧ on_record (task_rows (metadata (inner s1))) (p_task p) signer r ∧
  result_ok (p_task p) r ∧ completed (inner s1) !! id = Some (mkCompletedTask (p_task p) signer r) ∧
  pending_keyed (pending (inner s1)).
Proof.
  intros Hwf Hk Hpk Hn Hp He. pose proof (Hpk id p Hp) as Hid. cbn beta in Hid.
  assert (wp (execute pid clock self id signer) (λ res s1, ∀ r, res = Ok (TaskResult r) →
    rows_keyed (task_rows (metadata (inner s1))) ∧ on_record (task_rows (metadata (inner s1))) (p_task p) signer r ∧
    result_ok (p_task p) r ∧ completed (inner s1) !! id = Some (mkCompletedTask (p_task p) signer r) ∧
    pending_keyed (pending (inner s1))) s) as Hw; [|unfold wp in Hw; rewrite He in Hw; by apply Hw].
  unfold execute, recorded_result, claim. wp_auto; simplify_eq; try done.
  all: match goal with |- wp (λ s0, let '(_, _) := execute_body _ _ _ ?i ?n ?t s0 in _) _ ?s0 =>
    pose proof (execute_body_records i n t s0 Hwf eq_refl Hk) as Hb;
    assert (pending_keyed (pending (inner s0))) as Hp0 by (apply map_Forall_insert_2; [done|exact Hpk]);
    pose proof (untouched_body pid clock self i n t s0) as Hu end.
  all: unfold wp in *; destruct (execute_body _ _ _ _ _ _ _) as [res s']; cbn [fst snd] in *.
  all: intros r' Hr'; destruct (Hb r' Hr') as (?&?&?&?); split_and!; try done.
  all: cbn; apply map_Forall_delete; by rewrite Hu.
Qed.

(** ** Requests between a commit and a restart *)

(** A statement that leaves a row of the task table alone, and files what it
    completes under the identifier of its task. *)
Definition row_safe (id : string) (m m' : Metadata) : Prop :=
  task_rows m' !! id = task_rows m !! id ∧ (rows_keyed (task_rows m) → rows_keyed (task_rows m')).

Lemma row_safe_refl id m : row_safe id m m.
Proof. by split. Qed.
Lemma row_safe_trans id m1 m2 m3 : row_safe id m1 m2 → row_safe id m2 m3 → row_safe id m1 m3.
Proof. intros [E1 K1] [E2 K2]. split; [congruence|auto]. Qed.

Lemma sql_execute_safe f id m r m' :
  (∀ m, row_safe id m (f m)) → sql_execute f m = (r, m') → row_safe id m m'.
Proof.
  intros Hf. unfold sql_execute. case_match; intros [= _ <-]; [by split|].
  exact (Hf (set_db_faults (tail (db_faults m)) m)).
Qed.

Lemma meta_task_safe id k state executor at_ m r m' :
  k ≠ id → state ≠ "completed" → meta_task k state executor at_ m = (r, m') → row_safe id m m'.
Proof.
  intros Hk Hst. apply sql_execute_safe. clear m. intros m. split; cbn; [by rewrite lookup_insert_ne|].
  intros Hkey. apply rows_keyed_insert; [done|]. intros raw y. unfold completed_row. cbn.
  by rewrite bool_decide_eq_false_2.
Qed.

Lemma meta_completed_task_safe id task requester res at_ m r m' :
  task_id task ≠ id → meta_completed_task task requester res at_ m = (r, m') → row_safe id m m'.
Proof.
  intros Hk. unfold meta_completed_task. destruct (to_vec requester) as [bq|] eqn:Eq; cbn [ok_or];
    [|by intros [= _ <-]; apply row_safe_refl].
  destruct (to_vec task) as [bt|] eqn:Et; cbn [ok_or]; [|by intros [= _ <-]; apply row_safe_refl].
  destruct (to_vec res) as [br|] eqn:Er; cbn [ok_or]; [|by intros [= _ <-]; apply row_safe_refl].
  apply sql_execute_safe. clear m. intros m. split; cbn; [by rewrite lookup_insert_ne|].
  intros Hkey. apply rows_keyed_insert; [done|]. intros raw y [= <-]. cbn [parse_row].
  rewrite (json_roundtrip task bt Et), (json_roundtrip requester bq Eq), (json_roundtrip res br Er).
  by intros [= <-].
Qed.

Lemma meta_event_safe id at_ kind details m r m' : meta_event at_ kind details m = (r, m') → row_safe id m m'.
Proof. apply sql_execute_safe. intros. by split. Qed.

(** A result stays on record: its row is not touched again. *)
Definition row_kept (id : string) (row : option TaskRow) (i : Inner) : Prop :=
  is_Some (completed i !! id) ∧ pending_keyed (pending i) ∧
  task_rows (metadata i) !! id = row ∧ rows_keyed (task_rows (metadata i)).

Lemma row_kept_safe id row i m :
  row_kept id row i → row_safe id (metadata i) m → row_kept id row (set_metadata m i).
Proof. intros (Hc&Hp&Hr&Hk) [E K]. split_and!; cbn; [done|done|congruence|auto]. Qed.

Lemma row_kept_pending id row i p : row_kept id row i → pending_keyed p → row_kept id row (set_pending p i).
Proof. by intros (Hc&Hp&Hr&Hk). Qed.

Lemma row_kept_untouched {A} (m : act NodeState A) id row s :
  untouched (λ i, (completed i, pending i, metadata i)) m → row_kept id row (inner s) → row_kept id row (inner (m s).2).
Proof. intros Hm. unfold row_kept. injection (Hm s) as -> -> ->. done. Qed.

Lemma execute_body_kept id k signer task row s :
  k ≠ id → task_id task = k → row_kept id row (inner s) →
  wp (execute_body pid clock self k signer task) (λ _ s', row_kept id row (inner s')) s.
Proof.
  intros Hk Ht Hi. unfold execute_body. wp_auto; try (eapply row_kept_safe; [exact Hi|by eapply (meta_task_safe id k "running")]).
  match goal with |- wp (append_ledger_event _ _ _ _) _ ?s0 => assert (row_kept id row (inner s0)) as Hi1 end.
  { match goal with E : meta_task _ _ _ _ _ = _ |- _ => apply (meta_task_safe id) in E; [|done..] end.
    destruct (row_kept_safe _ _ _ _ Hi ltac:(eassumption)) as (Hc&Hp&Hr&Hrk).
    split_and!; [|done..]. cbn. by rewrite lookup_insert_ne. }
  apply (wp_untouched (λ i, (completed i, pending i, metadata i))); [by apply untouched_event|].
  intros res s3 [= Hc Hp Hm]. assert (row_kept id row (inner s3)) as Hi3.
  { unfold row_kept in *. by rewrite Hc, Hp, Hm. }
  destruct res; [|done]. wp_auto.
  all: repeat match goal with
    | E : meta_completed_task _ _ _ _ _ = _ |- _ => apply (meta_completed_task_safe id) in E; [|congruence]
    | E : meta_event _ _ _ _ = _ |- _ => apply (meta_event_safe id) in E
    end.
  all: repeat first [exact Hi3 | eapply row_kept_safe; [|eassumption]].
Qed.

Lemma execute_kept id k signer row s :
  row_kept id row (inner s) → row_kept id row (inner (execute pid clock self k signer s).2).
Proof.
  intros Hi. change (wp (execute pid clock self k signer) (λ _ s', row_kept id row (inner s')) s).
  unfold execute, recorded_result, claim. wp_auto; try done.
  all: try (eapply row_kept_pending; [exact Hi|]; apply map_Forall_delete, Hi).
  all: match goal with E : completed _ !! ?j = None, F : pending _ !! ?j = Some ?p |- _ =>
    assert (j ≠ id) as Hj by (intros ->; destruct Hi as [[c Hc] _]; congruence);
    pose proof (proj1 (proj2 Hi) j p F) as Hkey; cbn beta in Hkey end.
  all: match goal with |- wp (λ s1, let '(_, _) := execute_body _ _ _ ?i ?n ?t s1 in _) _ ?s0 =>
    assert (row_kept id row (inner s0)) as Hi0
      by (eapply row_kept_pending; [exact Hi|]; apply map_Forall_insert_2; [done|apply Hi]);
    pose proof (execute_body_kept id i n t row s0 Hj Hkey Hi0) as Hb end.
  all: unfold wp in *; destruct (execute_body _ _ _ _ _ _ _) as [res s']; cbn in *.
  all: eapply row_kept_pending; [exact Hb|]; apply map_Forall_delete, Hb.
Qed.

Lemma accept_offer_kept id row task requester expires_at signer s :
  row_kept id row (inner s) →
  row_kept id row (inner (accept_offer clock host self task requester expires_at signer s).2).
Proof.
  intros Hi.
  change (wp (accept_offer clock host self task requester expires_at signer) (λ _ s', row_kept id row (inner s')) s).
  unfold accept_offer, structurally_valid, node_capability. wp_auto; try done.
  all: try (eapply row_kept_pending; [exact Hi|]; intros k r [Hk _]%map_lookup_filter_Some; by apply Hi).
  all: assert (task_id task ≠ id) as Hne by (intros E; destruct Hi as [[c Hc] _]; congruence).
  all: match goal with E : reserve _ _ _ _ _ _ = inr _ |- _ => apply reserve_size in E as (_&_&->) end.
  all: match goal with E : meta_task _ _ _ _ _ = _ |- _ => apply (meta_task_safe id) in E; [|done|done] end.
  all: try match goal with E : meta_event _ _ _ _ = _ |- _ => apply (meta_event_safe id) in E end.
  all: repeat (eapply row_kept_safe; [|eassumption]).
  all: eapply row_kept_pending; [eapply row_kept_pending; [exact Hi|]|].
  all: try apply map_Forall_insert_2; try done; cbn; intros k r [Hk _]%map_lookup_filter_Some; by apply Hi.
Qed.

(** Whatever is asked of the node, the row of a recorded result stays. *)
Lemma respond_kept id row signer message s :
  row_kept id row (inner s) → row_kept id row (inner (respond pid clock host self signer message s).2).
Proof.
  intros Hi.
  destruct message; cbn [Node.respond]; try (apply row_kept_untouched; [unfold store; by solve_untouched|done]).
  - by apply accept_offer_kept.
  - by apply execute_kept.
  - unfold change_pending, cancel. repeat case_match; simplify_eq; cbn; try done.
    all: eapply row_kept_pending; [exact Hi|]; try apply map_Forall_delete; apply Hi.
  - apply row_kept_untouched; [|done]. intros s1. unfold change_uploads. by destruct (content_start _ _ _ _ _).
  - apply row_kept_untouched; [|done]. intros s1. unfold change_uploads. by destruct (content_chunk _ _ _ _ _ _).
Qed.

Lemma handle_all_kept id row es s :
  row_kept id row (inner s) → row_kept id row (inner (handle_all pid clock host self es s)).
Proof.
  unfold handle_all. revert s. induction es as [|e es IH]; intros s Hi; [done|]. cbn [foldl]. apply IH.
  apply (handle_respond pid clock host self (λ s', row_kept id row (inner s'))); [done|done|].
  intros message signer b n _. apply respond_kept.
Qed.


End restart.

Module Samples.
Import Toy ToyDoc Node.Samples.

(** A node that holds no state yet, over a database and a file system. *)
Definition closed (m : Metadata) (t : tree) (n : nat) : NodeState :=
  mkNodeState (set_metadata m inner0) (mkWorld t 0 [] []) n.
Definition reopen_at (n : nat) (s : NodeState) : result Config NodeError :=
  (PeerlessNode_open 7 clock0 (identity self0) [] (closed (metadata (inner s)) (fs (world s)) n)).1.

Definition first_open : result Config NodeError * NodeState :=
  PeerlessNode_open 7 clock0 (identity self0) [] (closed Metadata_empty {[[] := Dir None]} 0).
Definition config_of (r : result Config NodeError) : Config := match r with Ok c => c | Err _ => self0 end.
Definition config1 : Config := config_of first_open.1.

(** A task that is reserved, executed and asked for again after a restart. *)
Definition task1 : Task :=
  mkTask "t" (ContentId_of [x00]) (ContentId_of [x05])
    (mkRequirements 0 0 "wasmtime-bytes-v1" 0 NetNone) TrustExecutor None.
Definition pending1 : PendingTask := mkPendingTask task1 (node_id peer0) 1000 false.
Definition stored1 : World :=
  (FileCas_put 7 ["cas"] [x05] (FileCas_put 7 ["cas"] [x00] (world first_open.2)).2).2.
Definition reserved1 : NodeState :=
  mkNodeState (set_pending {["t" := pending1]} (inner first_open.2)) stored1 (ticks first_open.2).
Definition executed1 : result Message NodeError * NodeState :=
  execute 7 clock0 config1 "t" (node_id peer0) reserved1.
Definition result_of (m : result Message NodeError) : SignedExecutionRecord :=
  match m with
  | Ok (TaskResult r) => r
  | _ => mkSignedExecutionRecord (mkExecutionRecord "" [] [] [] [] [] 0 0) [] [] []
  end.
Lemma closed_metadata m t n : metadata (inner (closed m t n)) = m.
Proof. reflexivity. Qed.

Definition is_result (m : result Message NodeError) : bool :=
  match m with Ok (TaskResult _) => true | _ => false end.

Lemma result_of_spec (x : result Message NodeError * NodeState) :
  is_result x.1 = true → x = (Ok (TaskResult (result_of x.1)), x.2).
Proof. by destruct x as [[[]|] s]. Qed.
Lemma config_of_spec (x : result Config NodeError * NodeState) :
  is_ok x.1 = true → x = (Ok (config_of x.1), x.2).
Proof. by destruct x as [[|] s]. Qed.

Definition result1 : SignedExecutionRecord := result_of executed1.1.
(** A task of another identifier, which is offered and executed as well. *)
Definition task2 : Task := mkTask "t2" (component task1) (input task1) (requirements task1) TrustExecutor None.
Definition later1 : list SignedEnvelope :=
  [from_peer (TaskOffer task2 (node_id peer0) 2000); from_peer (TaskCommit "t2")].
Definition between1 : NodeState := handle_all 7 clock0 host0 config1 later1 executed1.2.
Definition closed1 : NodeState := closed (metadata (inner between1)) (fs (world between1)) 50.
Definition reopened1 : result Config NodeError * NodeState :=
  PeerlessNode_open 7 clock0 (identity config1) [] closed1.
Definition config2 : Config := config_of reopened1.1.


(** An engine of one member for the shared network, and a block it finalised. *)
Definition shared : QuorumConsensus := mkQuorumConsensus "net" {[node_id (identity self0)]} 1.
Definition shared_block : Block :=
  (Quorum_finalize shared
     match next_block (ledger (inner first_open.2)) [] 100 "net" with
     | Ok b => b
     | Err _ => mkBlock 0 None 0 0 [] [] (mkConsensusProof "" [])
     end [identity self0]).2.
Definition after_block : result unit NodeError * NodeState :=
  append_ledger_block 7 shared_block shared first_open.2.
Definition after_event : result unit NodeError * NodeState :=
  append_ledger_event 7 clock0 config1 (TaskCreated "t") after_block.2.

(** A node that takes part in a shared ledger and then executes a task
    cannot be started again: the event of the execution goes into the same chain
    under the network "local", which appending accepts and opening refuses. *)
Theorem mixed_networks_block_restart :
  is_ok after_block.1 = true ∧ is_ok (reopen_at 10 after_block.2) = true ∧
  is_ok after_event.1 = true ∧ reopen_at 10 after_event.2 = Err (NodeLedger InvalidBlock).
Proof. split_and!; vm_compute; reflexivity. Qed.

(** A node in a network of its own that invites another one until 1000. *)
Definition own_invitation : Invitation :=
  match Invitation_issue "net" (node_id (identity self0)) ["*"] None [] 0 (identity self0) with
  | Ok i => i
  | Err _ => mkInvitation 0 (mkMembership "" [] [] [] None [] []) [] 0
  end.
Definition joined : result unit NodeError * NodeState :=
  install_invitation 7 config1 own_invitation 100 first_open.2.
Definition invited : result Invitation NodeError * NodeState :=
  issue_invitation 7 clock0 config1 "net" (node_id peer0) ["content"] (Some 1000) [] joined.2.

(** An invitation that expires stops its issuer from starting: the node
    opens as long as the membership it issued is valid, and from its expiry on
    refuses to open, because the persisted membership no longer verifies. *)
Theorem expired_invitation_blocks_restart :
  is_ok joined.1 = true ∧ is_ok invited.1 = true ∧
  clock0 10 < 1000 ∧ is_ok (reopen_at 10 invited.2) = true ∧
  1000 ≤ clock0 2000 ∧
  reopen_at 2000 invited.2 = Err (Rejected "issued membership is not a valid local certificate").
Proof. split_and!; vm_compute; first [reflexivity|discriminate]. Qed.

End Samples.
