(* ===== verification/NodeClient.v ===== *)
(** The node (crates/peerless-node/src/lib.rs), client side: exchanges of
    signed messages, content transfer, remote, verified and sharded execution,
    replication, gossip and audit proofs.  Peers are not trusted: an exchange is
    an arbitrary function to a signed answer or an error. *)

From S2P Require Import Network Prelude External Core Protocol FileSystem Storage.
From S2P Require Import Merkle Consensus Ledger Compute State Metadata Node NodeAccess NodeTasks.
From Stdlib Require Import Strings.Byte.
From stdpp Require Import pretty sorting.
#[local] Open Scope Z_scope.
#[local] Open Scope result_scope.

(** [CONTENT_CHUNK_SIZE] as a length. *)
Definition chunk_length : nat := Z.to_nat CONTENT_CHUNK_SIZE.

(** ** Exchanges *)

Section client.
Context `{Sha256, Hex, Keys, Automerge} `{Json Message, Json ExecutionRecord}.
(** The state the exchange works on, the exchange, the clock, and who asks. *)
Context {S : Type} (exchange : SignedEnvelope → act S SignedEnvelope) (now_ : act S Z) (me : NodeIdentity).

Definition ask (m : Message) : act S Message :=
  let* e := alift NodeProtocol (SignedEnvelope_seal m me) in
  let* answer := exchange e in
  alift NodeProtocol (SignedEnvelope_open answer).

(** The loop over the chunks. *)
Fixpoint send_chunks (id : ContentId) (index : Z) (cs : list bytes) : act S unit :=
  match cs with
  | [] => aret tt
  | c :: cs =>
      let chunk_hash := ContentId_of c in
      let* answer := ask (ContentChunk id index c chunk_hash) in
      match answer with
      | HasContent found =>
          if bool_decide (found = chunk_hash) then send_chunks id (index + 1) cs
          else afail UnexpectedResponse
      | TaskError _ reason | TaskReject _ reason => afail (Rejected reason)
      | _ => afail UnexpectedResponse
      end
  end.

(** What the last answer of a transfer must be. *)
Definition confirmed (id : ContentId) (answer : Message) : act S unit :=
  match answer with
  | HasContent found => if bool_decide (found = id) then aret tt else afail UnexpectedResponse
  | TaskError _ reason | TaskReject _ reason => afail (Rejected reason)
  | _ => afail UnexpectedResponse
  end.

Definition transfer_content_via (id : ContentId) (b : bytes) : act S unit :=
  if negb (ContentId_verify id b) then afail (Rejected "local content does not match task ContentId")
  else if Z.of_nat (length b) <=? CONTENT_CHUNK_SIZE then
    let* answer := ask (Content id b) in confirmed id answer
  else
    let* answer := ask (ContentStart id (Z.of_nat (length b)) CONTENT_CHUNK_SIZE) in
    match answer with
    | HasContent found =>
        if bool_decide (found = id) then
          send_chunks id 0 (Prelude.chunks chunk_length b) ;*
          let* answer := ask (ContentComplete id) in confirmed id answer
        else afail UnexpectedResponse
    | _ => afail UnexpectedResponse
    end.

Definition remote_execute_bytes_via (task : Task) (component_bytes input_bytes : bytes) :
    act S (ExecutionRecord * bytes) :=
  transfer_content_via (component task) component_bytes ;*
  transfer_content_via (input task) input_bytes ;*
  let* at_ := now_ in
  let* answer := ask (TaskOffer task (node_id me) (at_ + 30000)) in
  match answer with
  | TaskAccept id => if bool_decide (id = task_id task) then aret tt else afail UnexpectedResponse
  | TaskReject _ reason => afail (Rejected reason)
  | _ => afail UnexpectedResponse
  end ;*
  let* answer := ask (TaskCommit (task_id task)) in
  let* rec := match answer with
    | TaskResult value =>
        let* ok := alift NodeProtocol (SignedExecutionRecord_verify value) in
        if ok && bool_decide (rec_task_id (record value) = task_id task)
           && bool_decide (rec_component (record value) = component task)
           && bool_decide (rec_input (record value) = input task)
        then aret (record value)
        else afail (Rejected "invalid execution record signature")
    | TaskReject _ reason => afail (Rejected reason)
    | _ => afail UnexpectedResponse
    end in
  let* answer := ask (GetContent (rec_output rec)) in
  match answer with
  | Content id b =>
      if bool_decide (id = rec_output rec) && ContentId_verify id b then aret (rec, b)
      else afail UnexpectedResponse
  | _ => afail UnexpectedResponse
  end.

(** [input.to_le_bytes()]. *)
Definition remote_execute_via (task : Task) (component_bytes : bytes) (value : Z) :
    act S (ExecutionRecord * bytes) :=
  remote_execute_bytes_via task component_bytes (le_of_I32 value).

End client.

(** [str::contains]. *)
Definition str_contains (needle hay : string) : bool :=
  match String.index 0 needle hay with Some _ => true | None => false end.

(** ** Peers *)

(** What the node uses of the peer-to-peer endpoint: requests, the connected
    peers, providers and gossip.  An operation may change the node's state, for
    a peer may be the node itself. *)
Record Endpoint `{Automerge} := mkEndpoint {
  ep_request : bytes → SignedEnvelope → act NodeState SignedEnvelope;
  ep_peers : act NodeState (list bytes);
  ep_find_providers : string → act NodeState (list bytes);
  ep_provide : string → act NodeState unit;
  ep_publish : string → bytes → act NodeState unit;
  ep_drain_gossip : act NodeState (list (string * bytes * bytes));
}.
Arguments mkEndpoint {_} _ _ _ _ _ _.

Record ReplicationReport := mkReplicationReport {
  rr_content : ContentId;
  live_replicas : gset bytes;
  repaired : list bytes;
}.

Record VerifiedExecution := mkVerifiedExecution {
  ve_accepted : ExecutionRecord;
  ve_output : bytes;
  executions : list ExecutionRecord;
}.

Record DistributedExecution := mkDistributedExecution {
  shards : list ExecutionRecord;
  outputs : list bytes;
  input_bytes : Z;
  peak_shard_bytes : Z;
}.

Section peers.
Context (pid : N) `{Sha256, Hex, Keys, Automerge, Wasmtime}.
Context `{Json Message, Json ExecutionRecord, Json SignedExecutionRecord, Json Task, Json NodeId}.
Context `{Json LedgerEvent, Json SignedEvent, Json Block, Json Proposal, Json MembershipPayload}.
Context `{Json SignedEnvelope}.
Context (clock : nat → Z) (host : nat → Host) (error_text : NodeError → string) (decode_error : string).
(** [decode_error] is the text of a failed key decoding.  The latency readings, in milliseconds, and the order in which a hash map
    is iterated. *)
Context (elapsed : nat → f64) (hash_order : list (ContentId * nat) → list (ContentId * nat)).
Context (self : Config) (ep : Endpoint).

Abbreviation node := (act NodeState).

Definition ensure_peer_identity (response : SignedEnvelope) (peer : bytes) : result unit NodeError :=
  match try_decode_protobuf (env_public_key response) with
  | None => Err (NodeP2p decode_error)
  | Some public =>
      if negb (bool_decide (to_peer_id public = peer))
      then Err (NodeP2p "signed response identity differs from connected peer")
      else Ok tt
  end.

Definition p2p_exchange (peer : bytes) (e : SignedEnvelope) : node SignedEnvelope :=
  let* response := ep_request ep peer e in
  alift (λ x, x) (ensure_peer_identity response peer) ;* aret response.

Definition send_p2p (peer : bytes) (m : Message) : node Message :=
  ask (p2p_exchange peer) (identity self) m.

Definition remote_execute_bytes_p2p (peer : bytes) (task : Task) (component_bytes input : bytes) :
    node (ExecutionRecord * bytes) :=
  remote_execute_bytes_via (p2p_exchange peer) (now clock) (identity self) task component_bytes input.

Definition private_peer_key (peer : bytes) : NodeId := NodeId_derive peer.

(** The reputation of the peer is updated; a database error replaces the
    outcome. *)
Definition remote_execute_p2p (peer : bytes) (task : Task) (component_bytes : bytes) (value : Z) :
    node (ExecutionRecord * bytes) := λ s,
  let '(result, s) :=
    remote_execute_via (p2p_exchange peer) (now clock) (identity self) task component_bytes value s in
  (database match result with
            | Ok _ => meta_record_success (private_peer_key peer) (elapsed (ticks s))
            | Err e => let text := error_text e in
                       meta_record_failure (private_peer_key peer) (str_contains "invalid" text)
                         (str_contains "timeout" text)
            end ;* λ s, (result, s)) s.

(** *** Placement *)

Definition record_private_assignment (peer : bytes) : node unit :=
  modify (λ i, set_placement_counts
    (<[private_peer_key peer := default 0 (placement_counts i !! private_peer_key peer) + 1]>
       (placement_counts i)) i).

(** Fewest assignments first, then the order of the identifiers. *)
Definition executor_le (assignments : gmap NodeId Z) (l r : bytes) : Prop :=
  let count p := default 0 (assignments !! private_peer_key p) in
  count l < count r ∨ (count l = count r ∧ bytes_le l r).
#[global] Instance executor_le_dec assignments : RelDecision (executor_le assignments).
Proof. intros l r. unfold executor_le. apply _. Defined.

Definition ordered_remote_executors : node (list bytes) :=
  let* assignments := locked placement_counts in
  let* peers := ep_peers ep in
  aret (merge_sort (executor_le assignments) peers).

(** The first peer that succeeds, otherwise the node itself. *)
Fixpoint first_success (run : bytes → node (ExecutionRecord * bytes)) (peers : list bytes)
    (fallback : node (ExecutionRecord * bytes)) : node (ExecutionRecord * bytes) :=
  match peers with
  | [] => fallback
  | peer :: peers => λ s,
      match run peer s with
      | (Ok r, s) => (record_private_assignment peer ;* aret r) s
      | (Err _, s) => first_success run peers fallback s
      end
  end.

Definition handle_self (e : SignedEnvelope) : node SignedEnvelope := handle pid clock host self e.

Definition execute_local_bytes (task : Task) (component_bytes input : bytes) : node (ExecutionRecord * bytes) :=
  remote_execute_bytes_via handle_self (now clock) (identity self) task component_bytes input.
Definition execute_local (task : Task) (component_bytes : bytes) (value : Z) : node (ExecutionRecord * bytes) :=
  remote_execute_via handle_self (now clock) (identity self) task component_bytes value.

Definition execute_best (task : Task) (component_bytes : bytes) (value : Z) : node (ExecutionRecord * bytes) :=
  let* peers := ordered_remote_executors in
  first_success (λ p, remote_execute_p2p p task component_bytes value) peers
    (execute_local task component_bytes value).
Definition execute_best_bytes (task : Task) (component_bytes input : bytes) : node (ExecutionRecord * bytes) :=
  let* peers := ordered_remote_executors in
  first_success (λ p, remote_execute_bytes_p2p p task component_bytes input) peers
    (execute_local_bytes task component_bytes input).


(** *** Verified execution *)

Definition required_executions (v : VerificationPolicy) : Z :=
  match v with TrustExecutor => 1 | Replicate count => count | Quorum n _ => n end.

(** The loop over the peers: at most [required] results, one per executor. *)
Fixpoint collect_results (run : bytes → node (ExecutionRecord * bytes)) (required : Z) (peers : list bytes)
    (seen : gset NodeId) (results : list (ExecutionRecord * bytes)) : node (list (ExecutionRecord * bytes)) :=
  match peers with
  | [] => aret results
  | peer :: peers =>
      if required <=? Z.of_nat (length results) then aret results
      else λ s, match run peer s with
                | (Ok r, s) =>
                    if bool_decide (rec_executor r.1 ∈ seen) then collect_results run required peers seen results s
                    else collect_results run required peers ({[rec_executor r.1]} ∪ seen) (results ++ [r]) s
                | (Err _, s) => collect_results run required peers seen results s
                end
  end.

Definition verification_text (e : VerificationError) : string :=
  match e with
  | InsufficientExecutions => "not enough executions to satisfy verification policy"
  | NoAgreement => "execution outputs did not satisfy verification policy"
  end.

Definition execute_verified_p2p (peers : list bytes) (task : Task) (component_bytes : bytes) (value : Z) :
    node VerifiedExecution :=
  let required := required_executions (verification task) in
  if required =? 0 then reject "verification requires at least one execution"
  else
    let* results := collect_results (λ p, remote_execute_p2p p task component_bytes value) required peers ∅ [] in
    let* accepted_id := alift (λ e, Rejected (verification_text e))
      (verify_outputs hash_order (verification task) ((λ r, rec_output r.1) <$> results)) in
    match list_find (λ r, rec_output r.1 = accepted_id) results with
    | Some (_, (accepted, output)) => aret (mkVerifiedExecution accepted output (fst <$> results))
    | None => afail UnexpectedResponse
    end.

(** *** Sharded execution *)

Definition shard_task (task : Task) (index : nat) (shard : bytes) : Task :=
  mkTask (task_id task +:+ "-shard-" +:+ pretty (N.of_nat index)) (component task) (ContentId_of shard)
    (requirements task) (verification task) (deadline task).

(** [dedup] of a sorted list. *)
Fixpoint dedup (l : list bytes) : list bytes :=
  match l with
  | x :: ((y :: _) as rest) => if bool_decide (x = y) then dedup rest else x :: dedup rest
  | _ => l
  end.

(** One shard on one peer: a failure is an outcome. *)
Definition attempt {A} (m : node A) : node (result A NodeError) := λ s, let '(r, s) := m s in (Ok r, s).

(** The threads of a wave, each with its peer, task and shard. *)
Fixpoint run_wave (component_bytes : bytes) (jobs : list (bytes * Task * bytes)) :
    node (list (bytes * Task * bytes * result (ExecutionRecord * bytes) NodeError)) :=
  match jobs with
  | [] => aret []
  | (peer, t, shard) :: jobs =>
      let* r := attempt (remote_execute_bytes_p2p peer t component_bytes shard) in
      let* rest := run_wave component_bytes jobs in
      aret ((peer, t, shard, r) :: rest)
  end.

(** The other peers are tried in turn. *)
Fixpoint recover (component_bytes : bytes) (initial_peer : bytes) (t : Task) (shard : bytes)
    (peers : list bytes) : node (option (ExecutionRecord * bytes * bytes)) :=
  match peers with
  | [] => aret None
  | peer :: peers =>
      if bool_decide (peer = initial_peer) then recover component_bytes initial_peer t shard peers
      else λ s,
        match remote_execute_bytes_p2p peer t component_bytes shard s with
        | (Ok (r, out), s) => (Ok (Some (r, out, peer)), s)
        | (Err _, s) => recover component_bytes initial_peer t shard peers s
        end
  end.

Fixpoint settle (component_bytes : bytes) (peers : list bytes)
    (outcomes : list (bytes * Task * bytes * result (ExecutionRecord * bytes) NodeError)) :
    node (list (ExecutionRecord * bytes)) :=
  match outcomes with
  | [] => aret []
  | (initial_peer, t, shard, initial) :: outcomes =>
      let* r := match initial with
        | Ok (r, out) => aret (r, out, initial_peer)
        | Err e =>
            let* recovered := recover component_bytes initial_peer t shard peers in
            match recovered with Some r => aret r | None => afail e end
        end in
      record_private_assignment r.2 ;*
      let* rest := settle component_bytes peers outcomes in
      aret (r.1 :: rest)
  end.

(** The jobs of one wave: the peers in order, the index of the shard. *)
Definition wave_jobs (task : Task) (peers : list bytes) (first : nat) (batch : list bytes) :
    list (bytes * Task * bytes) :=
  (λ '(peer, (i, shard)), (peer, shard_task task (first + i) shard, shard)) <$>
    zip (take (length batch) peers) (zip (seq 0 (length batch)) batch).

Fixpoint run_waves (task : Task) (component_bytes : bytes) (peers : list bytes) (wave : nat)
    (batches : list (list bytes)) : node (list (ExecutionRecord * bytes)) :=
  match batches with
  | [] => aret []
  | batch :: batches =>
      let* outcomes := run_wave component_bytes (wave_jobs task peers (wave * length peers) batch) in
      let* results := settle component_bytes peers outcomes in
      let* rest := run_waves task component_bytes peers (S wave) batches in
      aret (results ++ rest)
  end.

Definition shards_of (input : bytes) (shard_bytes : Z) : list bytes :=
  if bool_decide (input = []) then [input] else Prelude.chunks (Z.to_nat shard_bytes) input.

Definition execute_sharded_bytes_p2p (peers : list bytes) (task : Task) (component_bytes input : bytes)
    (shard_bytes : Z) : node DistributedExecution :=
  match task_memory_limit task with
  | None => reject "task memory limit is unsafe"
  | Some memory_limit =>
      if (shard_bytes =? 0) || (memory_limit <? shard_bytes)
      then reject "shard size must be non-zero and fit the per-node task memory limit"
      else if negb (bool_decide (ContentId_of component_bytes = component task))
      then reject "component bytes do not match the task ContentId"
      else
        let peers := dedup (merge_sort bytes_le peers) in
        if bool_decide (peers = []) then reject "distributed execution requires at least one remote peer"
        else
          let cs := shards_of input shard_bytes in
          let* results := run_waves task component_bytes peers 0 (Prelude.chunks (length peers) cs) in
          aret (mkDistributedExecution (fst <$> results) (snd <$> results) (Z.of_nat (length input))
                  (foldr (λ c m, Z.max (Z.of_nat (length c)) m) 0 cs))
  end.

(** *** Replication *)

Definition has_content (id : ContentId) (r : result Message NodeError) : bool :=
  match r with Ok (HasContent found) => bool_decide (found = id) | _ => false end.

(** [usize::from(policy.target_replicas.saturating_sub(1))]. *)
Definition remote_target (p : ReplicationPolicy) : nat := Z.to_nat (saturating_sub (target_replicas p) 1).

Fixpoint replicate_to (target : nat) (id : ContentId) (b : bytes) (peers : list bytes) (replicas : list bytes) :
    node (list bytes) :=
  match peers with
  | [] => aret replicas
  | peer :: peers =>
      if (target <=? length replicas)%nat then aret replicas
      else
        let* r := attempt (send_p2p peer (Content id b)) in
        replicate_to target id b peers (if has_content id r then replicas ++ [peer] else replicas)
  end.

Definition replicate_p2p (peers : list bytes) (id : ContentId) (policy : ReplicationPolicy) : node (list bytes) :=
  if negb (ReplicationPolicy_validate policy) then afail (InsufficientReplicas 0 (minimum_replicas policy))
  else
    let* b := files NodeStorage (FileCas_get (cas self) id) in
    let* replicas := replicate_to (remote_target policy) id b peers [] in
    let actual := Z.of_nat (length replicas) + 1 in
    if actual <? minimum_replicas policy then afail (InsufficientReplicas actual (minimum_replicas policy))
    else aret replicas.

Fixpoint probe (id : ContentId) (peers : list bytes) (live : gset bytes) : node (gset bytes) :=
  match peers with
  | [] => aret live
  | peer :: peers =>
      let* r := attempt (send_p2p peer (CheckContent id)) in
      probe id peers (if has_content id r then {[peer]} ∪ live else live)
  end.

Fixpoint repair (target : nat) (id : ContentId) (b : bytes) (peers : list bytes) (live : gset bytes)
    (repaired : list bytes) : node (gset bytes * list bytes) :=
  match peers with
  | [] => aret (live, repaired)
  | peer :: peers =>
      if (target <=? size live)%nat then aret (live, repaired)
      else if bool_decide (peer ∈ live) then repair target id b peers live repaired
      else
        let* r := attempt (transfer_content_via (p2p_exchange peer) (identity self) id b) in
        match r with
        | Ok _ => repair target id b peers ({[peer]} ∪ live) (repaired ++ [peer])
        | Err _ => repair target id b peers live repaired
        end
  end.

(** The outcome with the new value of [known_replicas], which is assigned even
    when the minimum is not reached; an earlier error leaves it alone. *)
Definition repair_replication_p2p (id : ContentId) (policy : ReplicationPolicy) (known : gset bytes) :
    node (gset bytes * result ReplicationReport NodeError) :=
  if negb (ReplicationPolicy_validate policy) then afail (InsufficientReplicas 0 (minimum_replicas policy))
  else
    let* live := probe id (elements known) ∅ in
    let* b := files NodeStorage (FileCas_get (cas self) id) in
    let* peers := ep_peers ep in
    let* r := repair (remote_target policy) id b peers live [] in
    let actual := Z.of_nat (size r.1) + 1 in
    aret (r.1, if actual <? minimum_replicas policy
               then Err (InsufficientReplicas actual (minimum_replicas policy))
               else Ok (mkReplicationReport id r.1 r.2)).

(** *** Content *)

Definition put_and_provide (b : bytes) : node ContentId :=
  let* id := files NodeStorage (FileCas_put pid (cas self) b) in
  ep_provide ep (ContentId_to_string id) ;* aret id.

Fixpoint fetch_from (id : ContentId) (providers : list bytes) : node bytes :=
  match providers with
  | [] => afail (NodeStorage (CasNotFound id))
  | peer :: providers =>
      let* r := attempt (send_p2p peer (GetContent id)) in
      match r with
      | Ok (Content found b) =>
          if bool_decide (found = id) && ContentId_verify id b
          then files NodeStorage (FileCas_put pid (cas self) b) ;* aret b
          else fetch_from id providers
      | _ => fetch_from id providers
      end
  end.

Definition fetch_p2p (id : ContentId) : node bytes :=
  let* local := attempt (files NodeStorage (FileCas_get (cas self) id)) in
  match local with
  | Ok b => aret b
  | Err _ => let* providers := ep_find_providers ep (ContentId_to_string id) in fetch_from id providers
  end.

(** *** Gossip *)

Definition publish_message (topic : string) (m : Message) : node unit :=
  let* e := alift NodeProtocol (SignedEnvelope_seal m (identity self)) in
  let* b := alift (λ _, NodeProtocol ProtocolJson) (ok_or (to_vec e) tt) in
  ep_publish ep topic b.

(** The document is returned as [save] leaves it. *)
Definition publish_state (name : string) (d : StateDocument) : node StateDocument :=
  let body := snapshot d in
  let* saved := files NodeStateError (StateDocument_save pid d) in
  alift NodeStateError saved.2 ;*
  publish_message "peerless/state/v1" (StateSnapshot name body) ;* aret saved.1.

Definition publish_ledger_block (b : Block) : node unit :=
  let* body := alift (λ _, NodeLedger LedgerJson) (ok_or (to_vec b) tt) in
  publish_message "peerless/ledger/v1" (LedgerBlock body).

(** One gossip message of a topic: ignored ([None]) when its signer lacks the
    permission. *)
Definition gossip_message (permission : string) (b : bytes) : node (option Message) :=
  let* e := alift (λ _, NodeProtocol ProtocolJson) (ok_or (from_slice (A := SignedEnvelope) b) tt) in
  let* opened := alift NodeProtocol (open_with_signer (A := Message) e) in
  let* policy := locked membership in
  let* allowed := match policy with
    | Some p => authorised clock opened.2 permission p
    | None => aret true
    end in
  aret (if allowed : bool then Some opened.1 else None).

Fixpoint merge_state_loop (messages : list (string * bytes * bytes)) (merged : Z) : node Z :=
  match messages with
  | [] => aret merged
  | (topic, _, b) :: messages =>
      if negb (bool_decide (topic = "peerless/state/v1")) then merge_state_loop messages merged
      else
        let* m := gossip_message "state" b in
        match m with
        | Some (StateSnapshot name body) =>
            files NodeStateError (StateStore_merge_snapshot pid (state_store self) name body) ;*
            merge_state_loop messages (merged + 1)
        | _ => merge_state_loop messages merged
        end
  end.
Definition merge_state_gossip : node Z :=
  let* messages := ep_drain_gossip ep in merge_state_loop messages 0.

Fixpoint merge_ledger_loop {C} `{!ConsensusEngine C} (c : C) (messages : list (string * bytes * bytes))
    (appended : Z) : node Z :=
  match messages with
  | [] => aret appended
  | (topic, _, b) :: messages =>
      if negb (bool_decide (topic = "peerless/ledger/v1")) then merge_ledger_loop c messages appended
      else
        let* m := gossip_message "ledger" b in
        match m with
        | Some (LedgerBlock body) =>
            let* block := alift (λ _, NodeLedger LedgerJson) (ok_or (from_slice (A := Block) body) tt) in
            append_ledger_block pid block c ;*
            merge_ledger_loop c messages (appended + 1)
        | _ => merge_ledger_loop c messages appended
        end
  end.
Definition merge_ledger_gossip {C} `{!ConsensusEngine C} (c : C) : node Z :=
  let* messages := ep_drain_gossip ep in merge_ledger_loop c messages 0.

End peers.

(** ** Audit proofs *)

Record AuditProof := mkAuditProof {
  block_height : Z;
  ap_event : SignedEvent;
  ap_root : Hash;
  ap_proof : MerkleProof;
}.

Section audit.
Context `{Sha256, Keys, Json SignedEvent}.

Definition completes (id : string) (e : SignedEvent) : bool :=
  match event e with TaskCompleted r => bool_decide (rec_task_id r = id) | _ => false end.

(** The first event that completes the task; a block whose events cannot be
    hashed ends the search. *)
Fixpoint find_proof (id : string) (bs : list Block) : option AuditProof :=
  match bs with
  | [] => None
  | b :: bs =>
      match list_find (λ e, completes id e = true) (events b) with
      | Some (index, e) =>
          p ← Block_proof b index; Some (mkAuditProof (height b) e (events_root b) p)
      | None => find_proof id bs
      end
  end.

Definition ledger_proof (i : Inner) (id : string) : option AuditProof := find_proof id (blocks (ledger i)).

End audit.
