(* ===== verification/NodeTransfer.v ===== *)
(** Content transfer between two nodes: the client of NodeClient.v against the
    dispatcher of Node.v, and what a client may conclude from the answers of
    peers it does not trust (crates/peerless-node/src/lib.rs). *)

From S2P Require Import Network Prelude External Core Protocol FileSystem Storage.
From S2P Require Import Merkle Consensus Ledger Compute State Metadata Node NodeAccess NodeTasks NodeClient NodeRestart.
From Stdlib Require Import Strings.Byte.
From stdpp Require Import pretty sorting.
#[local] Open Scope Z_scope.
#[local] Open Scope result_scope.

Section transfer.
Context (pid : N) `{Sha256, Hex, Keys, Automerge, Wasmtime}.
Context `{JsonLaws Message, Json ExecutionRecord, Json SignedExecutionRecord, Json Task, Json NodeId}.
Context `{Json LedgerEvent, Json SignedEvent, Json Block, Json Proposal, Json MembershipPayload}.
Context (clock : nat → Z) (host : nat → Host) (error_text : NodeError → string).
(** The serving node, the uploading identity, and the serving node's state
    before the transfer. *)
Context (server : Config) (me : NodeIdentity) (s0 : NodeState).

(** Messages can be written and signed. *)
Context (Hwrite : ∀ m : Message, is_Some (to_vec m)) (Hsign : ∀ kp m, is_Some (keypair_sign kp m)).
Context (Hme : identity_wf me) (Hserver : identity_wf (identity server)).
(** The uploader may store content, and the clock stays in the window. *)
Context (w0 : Z) (Hclock : ∀ n, clock n - w0 < REQUEST_WINDOW_MILLIS).
Context (Hgrant : match membership (inner s0) with
                  | None => True
                  | Some p => ∀ n, policy_allows p (node_id me) "content" (clock n) = true
                  end).

(** A request that the serving node answers. *)
Definition served (e : SignedEnvelope) : act NodeState SignedEnvelope := λ s,
  match handle_or_reject pid clock host error_text server e s with
  | (Some answer, s') => (Ok answer, s')
  | (None, s') => (Err UnexpectedResponse, s')
  end.

(** The states during the transfer: other uploads, another budget, another time. *)
Definition during (u : uploads_table) (b : RequestBudget) (n : nat) : NodeState :=
  mkNodeState (set_uploads u (set_request_budget b (inner s0))) (world s0) n.

(** A budget with room for [k] more requests of the uploader. *)
Definition used (b : RequestBudget) : Z := default 0 (identities b !! node_id me).
Definition room (k : Z) (b : RequestBudget) : Prop :=
  window_started_at b = w0 ∧ global b + k ≤ MAX_REQUESTS_GLOBAL_PER_WINDOW ∧
  used b + k ≤ MAX_REQUESTS_PER_IDENTITY_PER_WINDOW.

Lemma sealed_opens (i : NodeIdentity) (m : Message) :
  identity_wf i → ∃ e, SignedEnvelope_seal m i = Ok e ∧ open_with_signer e = Ok (m, node_id i).
Proof.
  intros Hi. destruct (Hwrite m) as [p Hp]. destruct (Hsign (keypair i) p) as [sg Hs].
  assert (SignedEnvelope_seal m i
    = Ok (mkSignedEnvelope PROTOCOL_VERSION (node_id i) (public_key i) p sg)) as E.
  { unfold SignedEnvelope_seal, identity_sign. rewrite Hp. cbn. by rewrite Hs. }
  eexists. split; [exact E|]. by apply sealed_envelope_opens.
Qed.

(** What the client makes of the dispatcher's answer. *)
Definition answered (r : result Message NodeError * NodeState) : result Message NodeError * NodeState :=
  match r with
  | (Ok m, s) => (Ok m, s)
  | (Err e, s) => (Ok (TaskReject "" (error_text e)), s)
  end.

Lemma sealed_at (m : Message) s :
  ∃ e, sealed server m s = (Ok e, s) ∧ SignedEnvelope_open e = Ok m ∧ SignedEnvelope_seal m (identity server) = Ok e.
Proof.
  destruct (sealed_opens (identity server) m Hserver) as (e&Es&Eo). exists e.
  unfold sealed, alift, SignedEnvelope_open. rewrite Es, Eo. done.
Qed.

(** One request, in terms of the two steps of the dispatcher. *)
Lemma ask_handle m s :
  ∃ e, open_with_signer e = Ok (m, node_id me) ∧
    ask served me m s =
      match handle pid clock host server e s with
      | (Ok answer, s') => (rmap_err NodeProtocol (SignedEnvelope_open answer), s')
      | (Err x, s') => (Ok (TaskReject "" (error_text x)), s')
      end.
Proof.
  destruct (sealed_opens me m Hme) as (e&Es&Eo). exists e. split; [done|].
  unfold ask, abind, alift, served, handle_or_reject. rewrite Es. cbn [rmap_err].
  destruct (handle pid clock host server e s) as [[a|x] s']; [done|].
  destruct (sealed_at (no_task (error_text x)) s') as (e'&_&Eo'&Es'). rewrite Es'. cbn [or_panic].
  by rewrite Eo'.
Qed.

Lemma consume_room k b n :
  0 ≤ k → room (k + 1) b →
  ∃ b', consume_request_budget b (node_id me) (clock n) = (true, b') ∧ room k b' ∧
    used b' = used b + 1.
Proof.
  intros Hk (Hw&Hg&Hi). unfold consume_request_budget, saturating_sub, used in *. rewrite Hw.
  specialize (Hclock n). unfold REQUEST_WINDOW_MILLIS in *.
  rewrite (proj2 (Z.leb_gt 60000 (Z.max 0 (clock n - w0)))) by lia.
  rewrite (proj2 (Z.leb_gt MAX_REQUESTS_GLOBAL_PER_WINDOW (global b))) by lia.
  rewrite (proj2 (Z.leb_gt MAX_REQUESTS_PER_IDENTITY_PER_WINDOW _)) by lia.
  eexists. split; [done|]. unfold room, used. cbn [identities window_started_at global].
  rewrite lookup_insert_eq. cbn. split_and!; done || lia.
Qed.

(** An answer within the budget is what the message's handler says. *)
Lemma ask_served m k u b n :
  permission_for m = "content" → 0 ≤ k → room (k + 1) b →
  ∃ b' n', room k b' ∧ used b' = used b + 1 ∧
    ask served me m (during u b n) = answered (respond pid clock host server (node_id me) m (during u b' n')).
Proof.
  intros Hm Hk Hr. destruct (ask_handle m (during u b n)) as (e&Eo&->).
  pose proof (handle_opened pid clock host server e (during u b n) m (node_id me) Eo) as Hh.
  cbn [during request_budget inner ticks set_uploads set_request_budget membership] in Hh.
  destruct (consume_room k b n Hk Hr) as (b'&Ec&Hb'&Hu'). rewrite Ec in Hh. rewrite Hm in Hh.
  assert (match membership (inner s0) with
          | None => true
          | Some p => policy_allows p (node_id me) "content" (clock (S n))
          end = true) as Hgr by (destruct (membership (inner s0)); [apply Hgrant|done]).
  rewrite Hgr in Hh. destruct Hh as (n'&_&Hh). cbn [andb] in Hh. rewrite Hh.
  exists b', (n' + n)%nat. split; [done|]. split; [done|]. unfold abind, charged. cbn [inner world ticks during].
  change (set_request_budget b' (set_uploads u (set_request_budget b (inner s0))))
    with (set_uploads u (set_request_budget b' (inner s0))).
  fold (during u b' (n' + n)).
  destruct (respond _ _ _ _ _ m (during u b' (n' + n))) as [[reply|x] s']; [|done].
  destruct (sealed_at reply s') as (e'&->&Eo'&_). cbn. by rewrite Eo'.
Qed.

(** An answer beyond the budget is a refusal. *)
Lemma ask_limited m u b n :
  window_started_at b = w0 → MAX_REQUESTS_PER_IDENTITY_PER_WINDOW ≤ used b →
  ∃ b' n', ask served me m (during u b n)
           = (Ok (TaskReject "" "request rate limit exceeded"), during u b' n').
Proof.
  intros Hw Hu. destruct (ask_handle m (during u b n)) as (e&Eo&->).
  assert (∃ b', consume_request_budget b (node_id me) (clock n) = (false, b')) as [b' Ec].
  { unfold consume_request_budget, saturating_sub, used in *. rewrite Hw.
    specialize (Hclock n). unfold REQUEST_WINDOW_MILLIS in *.
    rewrite (proj2 (Z.leb_gt 60000 (Z.max 0 (clock n - w0)))) by lia.
    destruct (_ <=? global b); [by eexists|]. rewrite (proj2 (Z.leb_le _ _) Hu). by eexists. }
  unfold handle, abind, alift, now, budget. rewrite Eo. cbn [rmap_err].
  cbn [during request_budget inner ticks world set_uploads set_request_budget]. rewrite Ec. cbn [negb].
  set (s' := mkNodeState _ _ _).
  destruct (sealed_at (no_task "request rate limit exceeded") s') as (e'&->&Eo'&_). cbn [rmap_err].
  rewrite Eo'. by exists b', (S n).
Qed.

Lemma respond_uploads_during f u b n :
  change_uploads f (during u b n) = (Ok (f u).1, during (f u).2 b n).
Proof. unfold change_uploads. cbn. by destruct (f u). Qed.

(** The session after the chunks [done_] of [size] announced bytes, with [k]
    chunks to come. *)
Definition session (total : Z) (done_ : list bytes) (k : nat) : UploadSession :=
  mkUploadSession total CONTENT_CHUNK_SIZE ((Some <$> done_) ++ replicate k None).

Lemma content_chunk_accepted u id total done_ c k :
  u !! (node_id me, id) = Some (session total done_ (S k)) → Z.of_nat (length c) ≤ CONTENT_CHUNK_SIZE →
  content_chunk u (node_id me) id (Z.of_nat (length done_)) c (ContentId_of c) =
    (HasContent (ContentId_of c), <[(node_id me, id) := session total (done_ ++ [c]) k]> u).
Proof.
  intros Hu Hc. unfold content_chunk. rewrite Hu. cbn [session chunks chunk_size total_size].
  unfold ContentId_verify. rewrite bool_decide_eq_true_2 by done.
  rewrite (proj2 (Z.leb_le _ _)) by done.
  rewrite length_app, length_fmap, length_replicate, (proj2 (Z.ltb_lt _ _)) by lia. cbn [andb].
  rewrite Nat2Z.id. do 2 f_equal. unfold session. f_equal.
  rewrite insert_app_r_alt by (rewrite length_fmap; lia). rewrite length_fmap, Nat.sub_diag. cbn.
  rewrite fmap_app, <- app_assoc. done.
Qed.

Lemma send_chunks_served id total cs done_ u b n k :
  u !! (node_id me, id) = Some (session total done_ (length cs)) →
  Forall (λ c, Z.of_nat (length c) ≤ CONTENT_CHUNK_SIZE) cs → 0 ≤ k → room (k + Z.of_nat (length cs)) b →
  ∃ b' n', room k b' ∧
    send_chunks served me id (Z.of_nat (length done_)) cs (during u b n) =
      (Ok tt, during (<[(node_id me, id) := session total (done_ ++ cs) 0]> u) b' n').
Proof.
  revert done_ u b n. induction cs as [|c cs IH]; intros done_ u b n Hu Hcs Hk Hr; cbn [send_chunks length] in *.
  { exists b, n. rewrite Z.add_0_r in Hr. split; [done|]. rewrite app_nil_r, insert_id by done. done. }
  inversion Hcs as [|?? Hc Hcs']; subst.
  destruct (ask_served (ContentChunk id (Z.of_nat (length done_)) c (ContentId_of c)) (k + Z.of_nat (length cs)) u b n)
    as (b1&n1&Hb1&_&Hask); [done|lia|by replace (k + Z.of_nat (length cs) + 1) with (k + Z.of_nat (S (length cs))) by lia|].
  unfold abind. rewrite Hask. cbn [respond]. rewrite respond_uploads_during.
  rewrite (content_chunk_accepted _ _ _ _ _ _ Hu Hc). cbn [answered fst snd].
  rewrite bool_decide_eq_true_2 by done.
  destruct (IH (done_ ++ [c]) (<[(node_id me, id) := session total (done_ ++ [c]) (length cs)]> u) b1 n1)
    as (b2&n2&Hb2&E2); [by rewrite lookup_insert_eq|done|done|done|].
  exists b2, n2. split; [done|].
  replace (Z.of_nat (length done_) + 1) with (Z.of_nat (length (done_ ++ [c]))) by (rewrite length_app; cbn; lia).
  rewrite E2. by rewrite insert_insert_eq, <- app_assoc.
Qed.

Lemma send_chunks_limited id total cs done_ u b n k :
  u !! (node_id me, id) = Some (session total done_ (length cs)) →
  Forall (λ c, Z.of_nat (length c) ≤ CONTENT_CHUNK_SIZE) cs → 0 ≤ k < Z.of_nat (length cs) →
  room k b → used b + k = MAX_REQUESTS_PER_IDENTITY_PER_WINDOW →
  (send_chunks served me id (Z.of_nat (length done_)) cs (during u b n)).1
    = Err (Rejected "request rate limit exceeded").
Proof.
  revert done_ u b n k. induction cs as [|c cs IH]; intros done_ u b n k Hu Hcs Hk Hr Hx; cbn [send_chunks length] in *.
  { lia. }
  inversion Hcs as [|?? Hc Hcs']; subst. destruct (decide (k = 0)) as [->|Hne].
  - destruct (ask_limited (ContentChunk id (Z.of_nat (length done_)) c (ContentId_of c)) u b n)
      as (b1&n1&Hask); [apply Hr|lia|]. unfold abind. by rewrite Hask.
  - destruct (ask_served (ContentChunk id (Z.of_nat (length done_)) c (ContentId_of c)) (k - 1) u b n)
      as (b1&n1&Hb1&Hu1&Hask); [done|lia|by replace (k - 1 + 1) with k by lia|].
    unfold abind. rewrite Hask. cbn [respond]. rewrite respond_uploads_during.
    rewrite (content_chunk_accepted _ _ _ _ _ _ Hu Hc). cbn [answered fst snd].
    rewrite bool_decide_eq_true_2 by done.
    replace (Z.of_nat (length done_) + 1) with (Z.of_nat (length (done_ ++ [c]))) by (rewrite length_app; cbn; lia).
    apply (IH _ _ _ _ (k - 1)); [by rewrite lookup_insert_eq|done|lia|done|lia].
Qed.

(** ** Whole transfers *)

Lemma start_state : s0 = during (uploads (inner s0)) (request_budget (inner s0)) (ticks s0).
Proof.
  assert (∀ s, s = mkNodeState (set_uploads (uploads (inner s)) (set_request_budget (request_budget (inner s)) (inner s)))
                     (world s) (ticks s)) as Heta by (by intros [[] ? ?]).
  apply Heta.
Qed.

Lemma transfer_start id b :
  transfer_content_via served me id b s0 =
  transfer_content_via served me id b (during (uploads (inner s0)) (request_budget (inner s0)) (ticks s0)).
Proof. by rewrite <- start_state. Qed.

Lemma chunk_length_Z : Z.of_nat chunk_length = CONTENT_CHUNK_SIZE.
Proof. apply Z2Nat.id. unfold CONTENT_CHUNK_SIZE. lia. Qed.
Lemma chunk_length_pos : (0 < chunk_length)%nat.
Proof. pose proof chunk_length_Z. unfold CONTENT_CHUNK_SIZE in *. lia. Qed.

Lemma length_content_chunks (b : bytes) :
  Z.of_nat (length (Prelude.chunks chunk_length b)) = div_ceil (Z.of_nat (length b)) CONTENT_CHUNK_SIZE.
Proof. rewrite length_chunks by apply chunk_length_pos. by rewrite chunk_length_Z. Qed.

Lemma content_chunks_small (b : bytes) :
  Forall (λ c, Z.of_nat (length c) ≤ CONTENT_CHUNK_SIZE) (Prelude.chunks chunk_length b).
Proof.
  revert b. apply (chunks_ind chunk_length); [apply chunk_length_pos|constructor|]. intros l Hl IH.
  rewrite chunks_cons by (done || apply chunk_length_pos).
  constructor; [|done]. rewrite length_take. rewrite <- chunk_length_Z. lia.
Qed.

(** The uploader has a slot, and the announced sizes fit. *)
Definition capacity_for (id : ContentId) (size : Z) : Prop :=
  let u := uploads (inner s0) in
  size ≤ MAX_CONTENT_SIZE ∧
  (is_Some (u !! (node_id me, id)) ∨ (base.size u < MAX_ACTIVE_UPLOADS)%nat) ∧
  reserved_by_others u (node_id me, id) + size ≤ MAX_IN_FLIGHT_UPLOAD_BYTES.

Lemma content_start_accepted id (b : bytes) :
  capacity_for id (Z.of_nat (length b)) →
  content_start (uploads (inner s0)) (node_id me) id (Z.of_nat (length b)) CONTENT_CHUNK_SIZE =
    (HasContent id, <[(node_id me, id) :=
       session (Z.of_nat (length b)) [] (length (Prelude.chunks chunk_length b))]> (uploads (inner s0))).
Proof.
  intros (Hs&Hslot&Hfit). unfold content_start. cbv zeta.
  rewrite (proj2 (Z.leb_le _ _)) by done. rewrite Z.eqb_refl.
  replace (bool_decide (is_Some _) || _) with true; cycle 1.
  { symmetry. apply orb_true_iff. destruct Hslot as [Hslot|Hslot];
      [left; by apply bool_decide_eq_true|right; by apply Nat.ltb_lt]. }
  unfold checked_add. unfold MAX_IN_FLIGHT_UPLOAD_BYTES, U64_MAX in *.
  rewrite (proj2 (Z.leb_le (reserved_by_others _ _ + _) (2 ^ 64 - 1))) by lia.
  rewrite (proj2 (Z.leb_le (reserved_by_others _ _ + _) (512 * 1024 * 1024))) by lia. cbn [andb].
  by rewrite <- length_content_chunks, Nat2Z.id.
Qed.

(** A finished session holds the content. *)
Lemma content_complete_session (b : bytes) id :
  id = ContentId_of b →
  content_complete (Some (session (Z.of_nat (length b)) (Prelude.chunks chunk_length b) 0)) id = Ok b.
Proof.
  intros ->. unfold content_complete. cbn [session chunks total_size replicate]. rewrite app_nil_r.
  replace (forallb _ _) with true; cycle 1.
  { symmetry. apply forallb_forall. intros c (c'&->&_)%list_elem_of_In%list_elem_of_fmap.
    by apply bool_decide_eq_true. }
  assert (∀ l : list bytes, omap (λ c, c) (Some <$> l) = l) as Homap.
  { intros l. induction l as [|c l IH]; [done|]. cbn. by rewrite IH. }
  rewrite Homap, concat_chunks by apply chunk_length_pos. rewrite Z.eqb_refl.
  by rewrite (proj2 (ContentId_verify_spec _ _) eq_refl).
Qed.

(** The last request of a transfer: the content is stored, and the client
    learns whether it was. *)
Lemma store_confirmed id b u bud n s' :
  answered (store pid server b (HasContent id) (during u bud n)) = s' →
  let '(rp, w') := FileCas_put pid (cas server) b (world s0) in
  ∃ reply, s' = (Ok reply, mkNodeState (inner (during u bud n)) w' n) ∧
    ∀ s1, is_ok rp = is_ok (confirmed id reply s1).1 ∧ (confirmed (S := NodeState) id reply s1).2 = s1.
Proof.
  intros <-. unfold store, abind, files. cbn [world during].
  destruct (FileCas_put pid (cas server) b (world s0)) as [[i|x] w']; cbn [rmap_err answered aret].
  - eexists. split; [done|]. intros s1. cbn [confirmed]. by rewrite bool_decide_eq_true_2.
  - eexists. split; [done|]. by intros s1.
Qed.

(** C6: an upload stores the content: between two nodes whose messages can be
    written and signed, an uploader that may store content, has a slot and room
    in its request budget transfers any content up to 512 MiB, in one message or
    in chunks; the serving node ends up exactly as if it had stored the content
    itself, with the upload session gone and only its request budget changed
    otherwise, and the uploader is told success exactly when the store
    succeeded. *)
Theorem upload_stores_content id (b : bytes) :
  id = ContentId_of b → capacity_for id (Z.of_nat (length b)) →
  room (div_ceil (Z.of_nat (length b)) CONTENT_CHUNK_SIZE + 2) (request_budget (inner s0)) →
  let '(r, s') := transfer_content_via served me id b s0 in
  let '(rp, w') := FileCas_put pid (cas server) b (world s0) in
  is_ok r = is_ok rp ∧
  ∃ bud n, s' = mkNodeState (set_uploads
      (if Z.of_nat (length b) <=? CONTENT_CHUNK_SIZE then uploads (inner s0)
       else delete (node_id me, id) (uploads (inner s0)))
      (set_request_budget bud (inner s0))) w' n.
Proof.
  intros Hid Hcap Hroom. rewrite transfer_start. rewrite <- length_content_chunks in Hroom.
  unfold transfer_content_via. rewrite (proj2 (ContentId_verify_spec _ _) Hid). cbn [negb].
  destruct (Z.leb_spec (Z.of_nat (length b)) CONTENT_CHUNK_SIZE) as [Hsmall|Hlarge].
  - unfold abind. destruct (ask_served (Content id b) (Z.of_nat (length (Prelude.chunks chunk_length b)) + 1)
      (uploads (inner s0)) (request_budget (inner s0)) (ticks s0)) as (b1&n1&_&_&Hask); [done|lia| |].
    { by rewrite <- Z.add_assoc. }
    rewrite Hask. cbn [respond]. rewrite (proj2 (ContentId_verify_spec _ _) Hid).
    pose proof (store_confirmed id b (uploads (inner s0)) b1 n1 _ eq_refl) as Hst.
    destruct (FileCas_put pid (cas server) b (world s0)) as [rp w']. destruct Hst as (reply&->&Hc).
    destruct (Hc (mkNodeState (inner (during (uploads (inner s0)) b1 n1)) w' n1)) as [Hok Hsame].
    destruct (confirmed id reply _) as [r s']. cbn [fst snd] in *. subst s'. split; [done|]. by exists b1, n1.
  - set (cs := Prelude.chunks chunk_length b) in *. set (key := (node_id me, id)) in *.
    unfold abind at 1. destruct (ask_served (ContentStart id (Z.of_nat (length b)) CONTENT_CHUNK_SIZE)
      (Z.of_nat (length cs) + 1) (uploads (inner s0)) (request_budget (inner s0)) (ticks s0))
      as (b1&n1&Hb1&_&Hask); [done|lia|by rewrite <- Z.add_assoc|].
    rewrite Hask. cbn [respond]. rewrite respond_uploads_during, content_start_accepted by done.
    fold cs key. cbn [answered fst snd]. rewrite bool_decide_eq_true_2 by done.
    set (u1 := <[key := session (Z.of_nat (length b)) [] (length cs)]> (uploads (inner s0))).
    destruct (send_chunks_served id (Z.of_nat (length b)) cs [] u1 b1 n1 1) as (b2&n2&Hb2&Hsend);
      [by unfold u1; rewrite lookup_insert_eq|apply content_chunks_small|lia|by rewrite Z.add_comm|].
    unfold abind at 1. cbn [length] in Hsend. change (Z.of_nat 0) with 0 in Hsend. rewrite Hsend.
    rewrite app_nil_l. unfold u1. rewrite insert_insert_eq. fold key.
    set (u2 := <[key := session (Z.of_nat (length b)) cs 0]> (uploads (inner s0))).
    unfold abind at 1. destruct (ask_served (ContentComplete id) 0 u2 b2 n2) as (b3&n3&_&_&Hask3); [done|lia|done|].
    rewrite Hask3. cbn [respond]. unfold abind at 1 2, locked, aget, modify. cbn [inner during uploads set_uploads].
    fold key. unfold u2. rewrite lookup_insert_eq, content_complete_session by done.
    rewrite delete_insert_eq.
    pose proof (store_confirmed id b (delete key (uploads (inner s0))) b3 n3 _ eq_refl) as Hst.
    destruct (FileCas_put pid (cas server) b (world s0)) as [rp w']. destruct Hst as (reply&Hst&Hc).
    match goal with |- context [answered ?x] => change (answered x) with
      (answered (store pid server b (HasContent id) (during (delete key (uploads (inner s0))) b3 n3))) end.
    rewrite Hst.
    destruct (Hc (mkNodeState (inner (during (delete key (uploads (inner s0))) b3 n3)) w' n3)) as [Hok Hsame].
    destruct (confirmed id reply _) as [r s']. cbn [fst snd] in *. subst s'. split; [done|]. by exists b3, n3.
Qed.

(** The request budget caps uploads below the announced limit: an identity
    that has used none of its budget cannot upload content of more than 4095
    chunks (under 256 MiB, half of the accepted size) within one window: the
    transfer is refused half-way. *)
Theorem large_upload_rate_limited id (b : bytes) :
  id = ContentId_of b → capacity_for id (Z.of_nat (length b)) →
  4095 * CONTENT_CHUNK_SIZE < Z.of_nat (length b) →
  room MAX_REQUESTS_PER_IDENTITY_PER_WINDOW (request_budget (inner s0)) → used (request_budget (inner s0)) = 0 →
  (transfer_content_via served me id b s0).1 = Err (Rejected "request rate limit exceeded").
Proof.
  intros Hid Hcap Hlen Hroom Hused. rewrite transfer_start.
  assert (4095 < Z.of_nat (length (Prelude.chunks chunk_length b))) as Hcs.
  { rewrite length_content_chunks. apply Z.nle_gt. rewrite div_ceil_le by (unfold CONTENT_CHUNK_SIZE; lia). lia. }
  unfold transfer_content_via. rewrite (proj2 (ContentId_verify_spec _ _) Hid). cbn [negb].
  rewrite (proj2 (Z.leb_gt _ CONTENT_CHUNK_SIZE)) by (unfold CONTENT_CHUNK_SIZE in *; lia).
  set (cs := Prelude.chunks chunk_length b) in *. set (key := (node_id me, id)) in *.
  unfold abind at 1. destruct (ask_served (ContentStart id (Z.of_nat (length b)) CONTENT_CHUNK_SIZE)
    4095 (uploads (inner s0)) (request_budget (inner s0)) (ticks s0)) as (b1&n1&Hb1&Hu1&Hask); [done|lia|done|].
  rewrite Hask. cbn [respond]. rewrite respond_uploads_during, content_start_accepted by done.
  fold cs key. cbn [answered fst snd]. rewrite bool_decide_eq_true_2 by done.
  set (u1 := <[key := session (Z.of_nat (length b)) [] (length cs)]> (uploads (inner s0))).
  pose proof (send_chunks_limited id (Z.of_nat (length b)) cs [] u1 b1 n1 4095) as Hsend.
  cbn [length] in Hsend. change (Z.of_nat 0) with 0 in Hsend. unfold abind at 1.
  destruct (send_chunks served me id 0 cs (during u1 b1 n1)) as [[|] s']; cbn [fst] in *.
  - exfalso. discriminate Hsend; [by unfold u1; rewrite lookup_insert_eq|apply content_chunks_small|lia|done|].
    rewrite Hu1, Hused. done.
  - apply Hsend; [by unfold u1; rewrite lookup_insert_eq|apply content_chunks_small|lia|done|].
    rewrite Hu1, Hused. done.
Qed.

End transfer.

(** ** Answers of peers that are not trusted *)

Section untrusted.
Context `{Sha256, Hex, Keys, Automerge} `{Json Message, Json ExecutionRecord}.

(** A record about a task, signed by its executor, with the bytes of its
    output. *)
Definition vouched (task : Task) (r : ExecutionRecord) (out : bytes) : Prop :=
  rec_task_id r = task_id task ∧ rec_component r = component task ∧ rec_input r = input task ∧
  rec_output r = ContentId_of out ∧
  ∃ pk payload sg, rec_executor r = NodeId_derive pk ∧ to_vec r = Some payload ∧ signed_by pk payload sg.

Section via.
Context {S : Type} (exchange : SignedEnvelope → act S SignedEnvelope) (now_ : act S Z) (me : NodeIdentity).

(** A step whose outcome is not known. *)
Lemma wp_any {A} (m : act S A) (Q : result A NodeError → S → Prop) s :
  (∀ r s', Q r s') → wp m Q s.
Proof. intros HQ. apply HQ. Qed.

Lemma transfer_verifies id b (Q : result unit NodeError → S → Prop) s :
  (∀ s', id = ContentId_of b → Q (Ok tt) s') → (∀ e s', Q (Err e) s') →
  wp (transfer_content_via exchange me id b) Q s.
Proof.
  intros HQ He. unfold transfer_content_via. destruct (ContentId_verify id b) eqn:E; cbn [negb]; [|apply He].
  apply wp_any. intros [[]|e] s'; [|apply He]. apply HQ. by apply ContentId_verify_spec.
Qed.

Lemma remote_execute_vouched task cb ib s :
  wp (remote_execute_bytes_via exchange now_ me task cb ib) (λ res _, ∀ r out, res = Ok (r, out) →
    component task = ContentId_of cb ∧ input task = ContentId_of ib ∧ vouched task r out) s.
Proof.
  unfold remote_execute_bytes_via.
  apply wp_bind, transfer_verifies; [intros s1 Hc|done]. apply wp_bind, transfer_verifies; [intros s2 Hi|done].
  apply wp_bind, wp_any. intros [at_|] s3; [|done]. apply wp_bind, wp_any. intros [answer|] s4; [|done].
  apply wp_bind, wp_any. intros [u|] s5; [|done]. apply wp_bind, wp_any. intros [answer2|] s6; [|done].
  apply wp_bind. destruct answer2; try (by apply wp_any; intros [] ?).
  all: try (match goal with |- wp (afail _) _ _ => done end).
  apply wp_bind, wp_lift; [intros ok Hok|done]. case_match eqn:Eb; [|done].
  apply andb_prop in Eb as [Eb E4]. apply andb_prop in Eb as [Eb E3]. apply andb_prop in Eb as [E1 E2].
  subst ok. breflect. apply SignedExecutionRecord_verify_true in Hok as (Hs&Hx&payload&Hp&Hsig).
  change (wp (let* answer := ask exchange me (GetContent (rec_output (record r))) in
    match answer with
    | Content id b => if bool_decide (id = rec_output (record r)) && ContentId_verify id b
                      then aret (record r, b) else afail UnexpectedResponse
    | _ => afail UnexpectedResponse
    end) (λ res _, ∀ r0 out, res = Ok (r0, out) →
      component task = ContentId_of cb ∧ input task = ContentId_of ib ∧ vouched task r0 out) s6).
  apply wp_bind, wp_any. intros [answer3|] s7; [|done]. destruct answer3; try done.
  case_match eqn:Ec; [|done]. apply andb_prop in Ec as [E5 E6]. breflect.
  intros r0 out [= <- <-]. split_and!; [done|done|]. unfold vouched. split_and!; [done..| |].
  - apply ContentId_verify_spec in E6. congruence.
  - exists (rec_public_key r), payload, (rec_signature r). rewrite Hx. done.
Qed.

End via.

(** *** Sharded execution *)

Section sharded.
Context (clock : nat → Z) (decode_error : string) (self : Config) (ep : Endpoint).

Abbreviation run_on := (remote_execute_bytes_p2p clock decode_error self ep).

Lemma run_on_vouched peer task cb ib s r out s' :
  run_on peer task cb ib s = (Ok (r, out), s') → vouched task r out.
Proof.
  intros E. pose proof (remote_execute_vouched (p2p_exchange decode_error ep peer) (now clock) (identity self)
    task cb ib s) as Hv. unfold wp, remote_execute_bytes_p2p in *. rewrite E in Hv. by apply (Hv r out).
Qed.

(** What a thread of a wave reports about its job. *)
Definition job_outcome (job : bytes * Task * bytes)
    (o : bytes * Task * bytes * result (ExecutionRecord * bytes) NodeError) : Prop :=
  o.1 = job ∧ ∀ r out, o.2 = Ok (r, out) → vouched job.1.2 r out.

Lemma run_wave_outcomes cb jobs s :
  wp (run_wave clock decode_error self ep cb jobs) (λ res _, ∀ os, res = Ok os → Forall2 job_outcome jobs os) s.
Proof.
  revert s. induction jobs as [|[[peer t] shard] jobs IH]; intros s; cbn [run_wave].
  { intros os [= <-]. constructor. }
  apply wp_bind. unfold wp at 1, attempt. destruct (run_on peer t cb shard s) as [o s1] eqn:E. cbn [fst snd].
  apply wp_bind. eapply wp_mono; [apply IH|]. intros [os|] s2 Hos; [|done].
  intros os' [= <-]. constructor; [|by apply Hos]. split; [done|]. cbn. intros r out ->.
  by eapply run_on_vouched.
Qed.

Lemma recover_vouched cb initial t shard peers s :
  wp (recover clock decode_error self ep cb initial t shard peers)
    (λ res _, ∀ r out p, res = Ok (Some (r, out, p)) → vouched t r out) s.
Proof.
  revert s. induction peers as [|peer peers IH]; intros s; cbn [recover]; [by intros r out p [=]|].
  case_bool_decide; [apply IH|]. unfold wp. destruct (run_on peer t cb shard s) as [[[r out]|] s1] eqn:E; [|apply IH].
  intros r' out' p [= <- <- _]. by eapply run_on_vouched.
Qed.

Lemma settle_vouched cb peers jobs os s :
  Forall2 job_outcome jobs os →
  wp (settle clock decode_error self ep cb peers os) (λ res _, ∀ rs, res = Ok rs →
    Forall2 (λ job r, vouched job.1.2 r.1 r.2) jobs rs) s.
Proof.
  intros Hos. revert s. induction Hos as [|job [[[peer t] shard] o] jobs os [<- Ho] Hos IH]; intros s; cbn [settle].
  { intros rs [= <-]. constructor. }
  cbn [fst snd] in *.
  assert (∀ (m : act NodeState (ExecutionRecord * bytes * bytes)) s,
    wp m (λ res _, ∀ r out p, res = Ok (r, out, p) → vouched t r out) s →
    wp (let* r := m in
        record_private_assignment r.2 ;*
        let* rest := settle clock decode_error self ep cb peers os in aret (r.1 :: rest))
      (λ res _, ∀ rs, res = Ok rs → Forall2 (λ job r, vouched job.1.2 r.1 r.2) ((peer, t, shard) :: jobs) rs) s) as Hk.
  { intros m s1 Hm. apply wp_bind. eapply wp_mono; [exact Hm|]. intros [[[r out] p]|] s2 Hr; [|done].
    apply wp_bind, wp_any. intros [u|] s3; [|done]. apply wp_bind. eapply wp_mono; [apply IH|].
    intros [rest|] s4 Hrest; [|done]. intros rs [= <-]. constructor; [|by apply Hrest]. by eapply Hr. }
  apply Hk. destruct o as [[r out]|e].
  - intros r' out' p [= <- <- _]. by apply Ho.
  - apply wp_bind. eapply wp_mono; [apply recover_vouched|]. intros [[[[r out] p]|]|] s1 Hr; [|done..].
    intros r' out' p' [= <- <- <-]. by eapply Hr.
Qed.

(** The shards of a list with their positions, counted from [first]. *)
Definition indexed (first : nat) (cs : list bytes) : list (nat * bytes) := zip (seq first (length cs)) cs.

Lemma indexed_split wave n cs :
  indexed (wave * n) cs = indexed (wave * n) (take n cs) ++ indexed (S wave * n) (drop n cs).
Proof.
  unfold indexed. rewrite <- (take_drop n cs) at 1 2. rewrite length_app, seq_app.
  rewrite zip_with_app by by rewrite length_seq. f_equal.
  destruct (Nat.le_gt_cases (length cs) n) as [Hle|Hgt].
  - by rewrite drop_ge.
  - rewrite length_take, Nat.min_l by lia. do 2 f_equal. lia.
Qed.

Lemma wave_jobs_tasks task peers first batch (rs : list (ExecutionRecord * bytes)) :
  (length batch ≤ length peers)%nat →
  Forall2 (λ job r, vouched job.1.2 r.1 r.2) (wave_jobs task peers first batch) rs →
  Forall2 (λ ic r, vouched (shard_task task ic.1 ic.2) r.1 r.2) (indexed first batch) rs.
Proof.
  intros Hlen. unfold wave_jobs, indexed. rewrite Forall2_fmap_l.
  assert (∀ k batch peers rs, (length batch ≤ length peers)%nat →
    Forall2 (λ (x : bytes * (nat * bytes)) (r : ExecutionRecord * bytes),
        vouched (shard_task task (first + x.2.1) x.2.2) r.1 r.2)
      (zip (take (length batch) peers) (zip (seq k (length batch)) batch)) rs →
    Forall2 (λ ic (r : ExecutionRecord * bytes), vouched (shard_task task ic.1 ic.2) r.1 r.2)
      (zip (seq (first + k) (length batch)) batch) rs) as Hgen.
  { clear. intros k batch. revert k. induction batch as [|c batch IH]; intros k peers rs Hl; cbn.
    - intros Hf. inversion Hf. constructor.
    - destruct peers as [|p peers]; cbn in *; [lia|]. intros Hf. inversion Hf as [|??? rs' Hh Ht]; subst.
      constructor; [exact Hh|]. rewrite <- Nat.add_succ_r. apply (IH _ peers); [lia|exact Ht]. }
  intros Hf. specialize (Hgen 0%nat batch peers rs Hlen). rewrite Nat.add_0_r in Hgen. apply Hgen.
  eapply Forall2_impl; [exact Hf|]. by intros [p [i c]] r.
Qed.

Lemma run_waves_vouched task cb peers cs wave s :
  peers ≠ [] →
  wp (run_waves clock decode_error self ep task cb peers wave (Prelude.chunks (length peers) cs))
    (λ res _, ∀ rs, res = Ok rs →
      Forall2 (λ ic r, vouched (shard_task task ic.1 ic.2) r.1 r.2) (indexed (wave * length peers) cs) rs) s.
Proof.
  intros Hp. assert (0 < length peers)%nat as Hn by (destruct peers; [done|cbn; lia]).
  revert wave s. revert cs.
  refine (chunks_ind (A := bytes) (length peers) _ Hn _ _).
  { intros wave s. unfold wp. cbn. intros rs E. injection E as <-. constructor. }
  intros cs Hcs IH wave s. rewrite chunks_cons by done. cbn [run_waves].
  apply wp_bind. eapply wp_mono; [apply run_wave_outcomes|]. intros [os|] s1 Hos; [|done]. specialize (Hos os eq_refl).
  apply wp_bind. eapply wp_mono; [by apply settle_vouched|]. intros [rs|] s2 Hrs; [|done]. specialize (Hrs rs eq_refl).
  apply wave_jobs_tasks in Hrs; [|rewrite length_take; lia].
  apply wp_bind. eapply wp_mono; [apply (IH (S wave))|]. intros [rest|] s3 Hrest; [|done]. specialize (Hrest rest eq_refl).
  intros all [= <-].
  assert (indexed (wave * length peers) cs = indexed (wave * length peers) (take (length peers) cs)
    ++ indexed (S wave * length peers) (drop (length peers) cs)) as ->; [|by apply Forall2_app].
  apply indexed_split.
Qed.

Lemma shards_of_spec (ib : bytes) n :
  0 < n → concat (shards_of ib n) = ib ∧
  foldr (λ c m, Z.max (Z.of_nat (length c)) m) 0 (shards_of ib n) ≤ n.
Proof.
  intros Hn. unfold shards_of. case_bool_decide as E; [subst; cbn; split; [done|lia]|].
  assert (0 < Z.to_nat n)%nat as Hn' by lia. split; [by apply concat_chunks|].
  refine (chunks_ind (Z.to_nat n) (λ ib : bytes, foldr (λ c m, Z.max (Z.of_nat (length c)) m) 0
    (Prelude.chunks (Z.to_nat n) ib) ≤ n) Hn' _ _ ib); [cbn; lia|]. intros l Hl IH.
  rewrite chunks_cons by done. cbn [foldr]. rewrite length_take.
  lia.
Qed.

(** C27: a sharded execution is the execution of its input piece by piece: for
    any peers, whatever they answer, a distributed execution that succeeds has
    cut the input into shards of the requested size, in order and without loss,
    each of which fits the memory limit of the task, and carries for every
    shard, in the same order, the bytes of an output with a record, signed by
    its executor, of running the component on exactly that shard under the
    shard's own task identifier. *)
Theorem sharded_execution_vouched peers task cb ib n s d s' :
  0 ≤ n → execute_sharded_bytes_p2p clock decode_error self ep peers task cb ib n s = (Ok d, s') →
  let cs := shards_of ib n in
  concat cs = ib ∧ component task = ContentId_of cb ∧
  (∃ limit, task_memory_limit task = Some limit ∧ peak_shard_bytes d ≤ n ≤ limit) ∧
  length (shards d) = length cs ∧ length (outputs d) = length cs ∧
  ∀ i c, cs !! i = Some c → ∃ r out, shards d !! i = Some r ∧ outputs d !! i = Some out ∧
    vouched (shard_task task i c) r out.
Proof.
  intros Hn. unfold execute_sharded_bytes_p2p, reject, afail. destruct (task_memory_limit task) as [limit|] eqn:El; [|done].
  case_match eqn:E1; [done|]. case_match eqn:E2; [done|].
  set (ps := dedup (merge_sort bytes_le peers)).
  destruct (bool_decide (ps = [])) eqn:E3; [done|]. breflect.
  pose proof (run_waves_vouched task cb ps (shards_of ib n) 0 s E3) as Hw. unfold wp, abind in *.
  destruct (run_waves _ _ _ _ _ _ _ _ _ s) as [[rs|] s1]; [|done]. specialize (Hw rs eq_refl).
  intros [= <- _]. cbv zeta. cbn [shards outputs peak_shard_bytes].
  destruct (shards_of_spec ib n) as [Hcat Hpeak]; [lia|]. rewrite !length_fmap.
  pose proof (Forall2_length _ _ _ Hw) as Hlen. unfold indexed in Hw, Hlen.
  rewrite length_zip_with, length_seq, Nat.min_id in Hlen.
  split_and!; [done|done|exists limit; split_and!; [done..|lia]|done|done|]. intros i c Hi.
  destruct (Forall2_lookup_l _ _ _ i (i, c) Hw) as ([r out]&Hr&Hv).
  { apply lookup_zip_with_Some. exists i, c. split; [done|]. split; [|done].
    apply lookup_seq. split; [done|]. by apply lookup_lt_Some in Hi. }
  exists r, out. rewrite !list_lookup_fmap, Hr. done.
Qed.

(** *** Verified execution *)

Context (error_text : NodeError → string) (elapsed : nat → f64).
Context (hash_order : list (ContentId * nat) → list (ContentId * nat)) (Horder : ∀ l, hash_order l ≡ₚ l).

Lemma remote_execute_p2p_vouched peer task cb value s r s' :
  remote_execute_p2p clock error_text decode_error elapsed self ep peer task cb value s = (Ok r, s') →
  vouched task r.1 r.2.
Proof.
  unfold remote_execute_p2p, remote_execute_via.
  pose proof (remote_execute_vouched (p2p_exchange decode_error ep peer) (now clock) (identity self)
    task cb (le_of_I32 value) s) as Hv. unfold wp in Hv.
  destruct (remote_execute_bytes_via _ _ _ _ _ _ s) as [[[x out]|e] s1]; unfold abind; destruct (database _ s1) as [[u|] s2];
    intros [=]; subst. cbn [fst snd]. by apply (Hv x out).
Qed.

(** Results of different executors, each vouched for. *)
Definition independent (task : Task) (seen : gset NodeId) (results : list (ExecutionRecord * bytes)) : Prop :=
  NoDup ((λ r, rec_executor r.1) <$> results) ∧ Forall (λ r, vouched task r.1 r.2) results ∧
  ∀ r, r ∈ results → rec_executor r.1 ∈ seen.

Lemma collect_results_independent task cb value required peers seen results s :
  independent task seen results → Z.of_nat (length results) ≤ required →
  wp (collect_results (λ p, remote_execute_p2p clock error_text decode_error elapsed self ep p task cb value)
        required peers seen results)
    (λ res _, ∀ rs, res = Ok rs → (∃ seen', independent task seen' rs) ∧ Z.of_nat (length rs) ≤ required) s.
Proof.
  revert seen results s. induction peers as [|peer peers IH]; intros seen results s Hi Hl; cbn [collect_results].
  { intros rs [= <-]. eauto. }
  destruct (Z.leb_spec required (Z.of_nat (length results))) as [Hge|Hlt]; [intros rs [= <-]; eauto|].
  unfold wp at 1. destruct (remote_execute_p2p _ _ _ _ _ _ peer task cb value s) as [[r|] s1] eqn:E; [|by apply IH].
  apply remote_execute_p2p_vouched in E. case_bool_decide as Hseen; [by apply IH|].
  apply IH; [|rewrite length_app; cbn; lia]. destruct Hi as (Hnd&Hv&Hs). split_and!.
  - rewrite fmap_app. apply NoDup_app. split_and!; [done| |apply NoDup_singleton].
    intros x (r'&->&Hr')%list_elem_of_fmap Hx. apply list_elem_of_singleton in Hx. apply Hseen. rewrite <- Hx. by apply Hs.
  - apply Forall_app. split; [done|]. by constructor.
  - intros r' [Hr'|Hr']%elem_of_app; [apply Hs in Hr'; set_solver|]. apply list_elem_of_singleton in Hr'. subst. set_solver.
Qed.

(** The counts of a policy are unsigned numbers, as their type says. *)
Definition unsigned_policy (v : VerificationPolicy) : Prop :=
  match v with TrustExecutor => True | Replicate k => 0 ≤ k | Quorum n m => 0 ≤ n ∧ 0 ≤ m end.

Lemma occurrences_replicate n o : occurrences o (replicate n o) = n.
Proof.
  unfold occurrences. induction n as [|n IH]; [done|]. cbn [replicate].
  rewrite filter_cons_True by done. cbn [length]. by rewrite IH.
Qed.

(** A verified execution has the agreement its policy asks for: whatever
    the peers answer, an accepted output comes with records of the task signed
    by pairwise different executors, the accepted one among them with the bytes
    of its output; under replication exactly the required number of them, all
    with that output, and under a quorum the required number of executions, at
    least the required matches of them with that output. *)
Theorem verified_execution_agrees peers task cb value s v s' :
  unsigned_policy (verification task) →
  execute_verified_p2p clock error_text decode_error elapsed hash_order self ep peers task cb value s = (Ok v, s') →
  let agreed := occurrences (rec_output (ve_accepted v)) (rec_output <$> executions v) in
  NoDup (rec_executor <$> executions v) ∧ Forall (λ r, ∃ out, vouched task r out) (executions v) ∧
  ve_accepted v ∈ executions v ∧ vouched task (ve_accepted v) (ve_output v) ∧
  match verification task with
  | TrustExecutor => length (executions v) = 1%nat
  | Replicate k => Z.of_nat (length (executions v)) = k ∧ agreed = length (executions v)
  | Quorum n m => Z.of_nat (length (executions v)) = n ∧ m ≤ Z.of_nat agreed
  end.
Proof.
  intros Hu. unfold execute_verified_p2p, reject, afail.
  destruct (Z.eqb_spec (required_executions (verification task)) 0) as [|Hreq]; [done|].
  assert (0 ≤ required_executions (verification task)) as Hpos by (destruct (verification task); cbn in *; lia).
  pose proof (collect_results_independent task cb value (required_executions (verification task)) peers ∅ [] s) as Hc.
  unfold wp, abind in *. destruct (collect_results _ _ _ _ _ s) as [[rs|] s1]; [|done].
  destruct Hc with (rs := rs) as [(seen&Hnd&Hv&_) Hlen]; [|cbn; lia|done|].
  { split_and!; [constructor|constructor|]. intros r Hr. by apply elem_of_nil in Hr. }
  unfold alift. destruct (verify_outputs _ _ _) as [o|] eqn:Eo; [|done]. cbn [rmap_err].
  destruct (list_find _ rs) as [[i [acc out]]|] eqn:Ef; [|done]. intros [= <- _].
  apply list_find_Some in Ef as (Hi&Hout&_). cbn [fst] in Hout. cbv zeta. cbn [ve_accepted ve_output executions].
  assert ((rec_output <$> (fst <$> rs)) = ((λ r, rec_output r.1) <$> rs)) as Eouts by by rewrite <- list_fmap_compose.
  pose proof (verify_outputs_exact hash_order (verification task) (rec_output <$> (fst <$> rs)) Horder) as Hx.
  rewrite <- Eouts in Eo.
  assert (length (rec_output <$> (fst <$> rs)) = length rs) as Elen by by rewrite !length_fmap.
  pose proof (list_elem_of_lookup_2 _ _ _ Hi) as Hin.
  split_and!.
  - by rewrite <- list_fmap_compose.
  - apply Forall_fmap. eapply Forall_impl; [exact Hv|]. intros r Hr. by exists r.2.
  - apply list_elem_of_fmap. by exists (acc, out).
  - by apply (proj1 (Forall_forall _ _) Hv (acc, out)).
  - rewrite Hout, length_fmap. destruct (verification task) as [|k|n m]; cbn [required_executions] in *.
    + apply lookup_lt_Some in Hi. lia.
    + specialize (Hx Hu). rewrite Eo in Hx. destruct Hx as [Hk Ht]. rewrite Elen in Hk.
      assert (Z.of_nat (length rs) = k) as Hk' by lia. split; [done|].
      rewrite take_ge in Ht by (rewrite Elen; lia). rewrite Ht. rewrite occurrences_replicate. lia.
    + destruct Hu as [Hn Hm]. specialize (Hx Hn Hm). rewrite Eo in Hx. destruct Hx as (?&Hk&Ho&_). rewrite Elen in Hk.
      split; [lia|]. by rewrite take_ge in Ho by (rewrite Elen; lia).
Qed.

End sharded.

End untrusted.

(** ** Audit proofs *)

Section audit_proofs.
Context `{Sha256, Keys} `{Json LedgerEvent, Json SignedEvent, Json Block, Json Proposal}.

Lemma find_proof_spec id bs :
  (∀ b, b ∈ bs → ∃ hs, event_hashes (events b) = Ok hs ∧ events_root b = merkle_root hs) →
  match find_proof id bs with
  | Some ap => completes id (ap_event ap) = true ∧
      ∃ b h, b ∈ bs ∧ height b = block_height ap ∧ events_root b = ap_root ap ∧ ap_event ap ∈ events b ∧
        SignedEvent_hash (ap_event ap) = Ok h ∧ MerkleProof_verify (ap_proof ap) h (ap_root ap) = true
  | None => ∀ b e, b ∈ bs → e ∈ events b → completes id e = false
  end.
Proof.
  induction bs as [|b bs IH]; intros Hroots; cbn [find_proof]; [intros b e Hb; by apply elem_of_nil in Hb|].
  destruct (list_find _ (events b)) as [[index e]|] eqn:Ef.
  - apply list_find_Some in Ef as (He&Hid&_). destruct (Hroots b) as (hs&Hhs&Hroot); [by left|].
    unfold Block_proof. rewrite Hhs.
    assert (∃ h, SignedEvent_hash e = Ok h ∧ hs !! index = Some h) as (h&Hh&Hl).
    { unfold event_hashes in Hhs. rewrite collect_ok in Hhs. apply (f_equal (.!! index)) in Hhs.
      rewrite !list_lookup_fmap, He in Hhs. cbn in Hhs. destruct (hs !! index) as [h|]; [|done].
      injection Hhs as ->. eauto. }
    pose proof (merkle_proof_complete hs index) as Hp. destruct (merkle_proof hs index) as [p|]; cbn; [|congruence].
    destruct Hp as (leaf&Hleaf&_&Hver). split; [done|]. exists b, h. rewrite Hroot.
    split_and!; [by left|done|done|by eapply list_elem_of_lookup_2|done|]. congruence.
  - apply list_find_None in Ef. rewrite Forall_forall in Ef.
    assert (∀ b0, b0 ∈ bs → ∃ hs, event_hashes (events b0) = Ok hs ∧ events_root b0 = merkle_root hs) as Hroots'
      by (intros b0 Hb0; apply Hroots; by right).
    specialize (IH Hroots'). destruct (find_proof id bs) as [ap|].
    + destruct IH as (Hc&b0&h&Hb0&Hrest). split; [done|]. exists b0, h. split; [by right|done].
    + intros b0 e [->|Hb0]%elem_of_cons He; [|by eapply IH]. apply not_true_iff_false. by apply Ef.
Qed.

(** C39: audit proofs are sound and complete: over the chain of an opened
    ledger, the node finds a proof for a task exactly when some block records
    its completion, and the proof it returns is about an event of a block at
    the stated height and verifies, with that event's hash, against the root
    stored in that block. *)
Theorem audit_proof_exact i id :
  chain_ok (blocks (ledger i)) →
  match ledger_proof i id with
  | Some ap => completes id (ap_event ap) = true ∧
      ∃ b h, b ∈ blocks (ledger i) ∧ height b = block_height ap ∧ events_root b = ap_root ap ∧
        ap_event ap ∈ events b ∧ SignedEvent_hash (ap_event ap) = Ok h ∧
        MerkleProof_verify (ap_proof ap) h (ap_root ap) = true
  | None => ∀ b e, b ∈ blocks (ledger i) → e ∈ events b → completes id e = false
  end.
Proof.
  intros Hc. apply find_proof_spec. intros b (pre&post&E)%list_elem_of_split.
  by destruct (chain_linked _ _ _ _ Hc E) as (_&_&_&?&_).
Qed.

End audit_proofs.

(** ** Witnesses *)

Module Samples.
Import Toy ToyDoc Node.Samples NodeRestart.Samples.

Definition still (n : nat) : Z := 100.
Definition text0 (e : NodeError) : string := "error".

Lemma messages_written (m : Message) : is_Some (to_vec m).
Proof. eexists. reflexivity. Qed.
Lemma messages_signed (kp : Keypair) (m : bytes) : is_Some (keypair_sign kp m).
Proof. eexists. reflexivity. Qed.
Lemma still_in_window n : still n - 0 < REQUEST_WINDOW_MILLIS.
Proof. unfold still, REQUEST_WINDOW_MILLIS. lia. Qed.

(** Content of two chunks, and content of more chunks than a window allows. *)
Definition content (n : Z) : bytes := replicate (Z.to_nat n) x07.

Lemma length_content n : 0 ≤ n → Z.of_nat (length (content n)) = n.
Proof. intros Hn. unfold content. rewrite length_replicate. lia. Qed.

Lemma capacity0 n : 0 ≤ n ≤ MAX_CONTENT_SIZE →
  capacity_for peer0 state0 (ContentId_of (content n)) (Z.of_nat (length (content n))).
Proof.
  intros Hn. rewrite length_content by lia. unfold capacity_for. split_and!; [lia| |].
  - right. change (uploads (inner state0)) with (∅ : uploads_table). rewrite map_size_empty.
    unfold MAX_ACTIVE_UPLOADS. lia.
  - unfold reserved_by_others. change (uploads (inner state0)) with (∅ : uploads_table).
    rewrite map_fold_empty. unfold MAX_IN_FLIGHT_UPLOAD_BYTES, MAX_CONTENT_SIZE in *. lia.
Qed.

Lemma room0 (k : Z) :
  k ≤ MAX_REQUESTS_PER_IDENTITY_PER_WINDOW → room peer0 0 k (request_budget (inner state0)).
Proof.
  intros Hk. unfold room, used. change (request_budget (inner state0)) with (mkRequestBudget 0 0 ∅).
  cbn [window_started_at global identities]. rewrite lookup_empty.
  unfold MAX_REQUESTS_GLOBAL_PER_WINDOW, MAX_REQUESTS_PER_IDENTITY_PER_WINDOW in *. cbn. lia.
Qed.

Lemma requests0 : div_ceil (Z.of_nat (length (content 100000))) CONTENT_CHUNK_SIZE + 2 ≤ MAX_REQUESTS_PER_IDENTITY_PER_WINDOW.
Proof. rewrite length_content by lia. vm_compute. discriminate. Qed.
Lemma more_than_allowed : 4095 * CONTENT_CHUNK_SIZE < Z.of_nat (length (content 300000000)).
Proof. rewrite length_content by lia. unfold CONTENT_CHUNK_SIZE. lia. Qed.

#[local] Opaque content.

Lemma upload_stores_content_witness :
  let '(r, s') := transfer_content_via (served 7 still host0 text0 self0) peer0 (ContentId_of (content 100000)) (content 100000) state0 in
  let '(rp, w') := FileCas_put 7 (cas self0) (content 100000) (world state0) in
  is_ok r = is_ok rp ∧
  ∃ bud n, s' = mkNodeState (set_uploads
      (if Z.of_nat (length (content 100000)) <=? CONTENT_CHUNK_SIZE then uploads (inner state0)
       else delete (node_id peer0, ContentId_of (content 100000)) (uploads (inner state0)))
      (set_request_budget bud (inner state0))) w' n.
Proof.
  pose proof (upload_stores_content 7 still host0 text0 self0 peer0 state0 messages_written messages_signed
    eq_refl eq_refl 0 still_in_window I (ContentId_of (content 100000)) (content 100000) eq_refl
    (capacity0 100000 ltac:(unfold MAX_CONTENT_SIZE; lia)) (room0 _ requests0)) as Hup. exact Hup.
Defined.

Lemma large_upload_rate_limited_witness :
  (transfer_content_via (served 7 still host0 text0 self0) peer0 (ContentId_of (content 300000000)) (content 300000000) state0).1 = Err (Rejected "request rate limit exceeded").
Proof.
  pose proof (large_upload_rate_limited 7 still host0 text0 self0 peer0 state0 messages_written messages_signed
    eq_refl eq_refl 0 still_in_window I (ContentId_of (content 300000000)) (content 300000000) eq_refl
    (capacity0 300000000 ltac:(unfold MAX_CONTENT_SIZE; lia)) more_than_allowed
    (room0 _ (Z.le_refl _)) eq_refl) as Hup. exact Hup.
Defined.

(** A node that is its own peer, and tasks for it. *)
Definition self_peer : bytes := [x01].
Definition loopback : Endpoint :=
  mkEndpoint (λ _ e, served 7 clock0 host0 text0 config1 e) (aret [self_peer]) (λ _, aret [])
    (λ _, aret tt) (λ _ _, aret tt) (aret []).
Definition task_for (ib : bytes) (v : VerificationPolicy) : Task :=
  mkTask "t" (ContentId_of [x00]) (ContentId_of ib)
    (mkRequirements 1048576 0 "wasmtime-bytes-v1" 0 NetNone) v None.

Abbreviation sharded1 :=
  (execute_sharded_bytes_p2p clock0 "decode" config1 loopback [self_peer] (task_for [] TrustExecutor)
    [x00] [x05; x06; x07] 2 first_open.2).
Definition distributed_of (r : result DistributedExecution NodeError) : DistributedExecution :=
  match r with Ok d => d | Err _ => mkDistributedExecution [] [] 0 0 end.
Lemma distributed_of_spec (x : result DistributedExecution NodeError * NodeState) :
  is_ok x.1 = true → x = (Ok (distributed_of x.1), x.2).
Proof. by destruct x as [[|] s]. Qed.

Lemma sharded_execution_vouched_witness :
  let d := distributed_of sharded1.1 in
  concat (shards_of [x05; x06; x07] 2) = [x05; x06; x07] ∧ length (outputs d) = 2%nat ∧
  ∀ i c, shards_of [x05; x06; x07] 2 !! i = Some c → ∃ r out, shards d !! i = Some r ∧ outputs d !! i = Some out ∧
    vouched (shard_task (task_for [] TrustExecutor) i c) r out.
Proof.
  destruct (sharded_execution_vouched clock0 "decode" config1 loopback [self_peer] (task_for [] TrustExecutor)
    [x00] [x05; x06; x07] 2 first_open.2 (distributed_of sharded1.1) sharded1.2) as (Hc&_&_&_&Ho&Hv).
  - lia.
  - apply (distributed_of_spec sharded1). vm_compute. reflexivity.
  - split_and!; [exact Hc|exact Ho|exact Hv].
Defined.

Definition quorum_task : Task := task_for (le_of_I32 7) (Quorum 1 1).
Definition steady (n : nat) : f64 := f_of_Z 5.
Definition as_listed (l : list (ContentId * nat)) : list (ContentId * nat) := l.
Lemma as_listed_perm l : as_listed l ≡ₚ l.
Proof. reflexivity. Qed.
Abbreviation verified1 :=
  (execute_verified_p2p clock0 text0 "decode" steady as_listed config1 loopback [self_peer]
    quorum_task [x00] 7 first_open.2).
Definition verified_of (r : result VerifiedExecution NodeError) : VerifiedExecution :=
  match r with
  | Ok v => v
  | Err _ => mkVerifiedExecution (mkExecutionRecord "" [] [] [] [] [] 0 0) [] []
  end.
Lemma verified_of_spec (x : result VerifiedExecution NodeError * NodeState) :
  is_ok x.1 = true → x = (Ok (verified_of x.1), x.2).
Proof. by destruct x as [[|] s]. Qed.

Lemma verified_execution_agrees_witness :
  let v := verified_of verified1.1 in
  Z.of_nat (length (executions v)) = 1 ∧ vouched quorum_task (ve_accepted v) (ve_output v).
Proof.
  destruct (verified_execution_agrees clock0 "decode" config1 loopback text0 steady as_listed as_listed_perm
    [self_peer] quorum_task [x00] 7 first_open.2
    (verified_of verified1.1) verified1.2) as (_&_&_&Hv&Hn&_).
  - cbn. lia.
  - apply (verified_of_spec verified1). vm_compute. reflexivity.
  - split; [exact Hn|exact Hv].
Defined.

(** The ledger of a node that has executed a task. *)
Definition audited : Inner := inner executed1.2.

Lemma audit_proof_exact_witness :
  ∃ ap b h, ledger_proof audited "t" = Some ap ∧ b ∈ blocks (ledger audited) ∧ ap_event ap ∈ events b ∧
    SignedEvent_hash (ap_event ap) = Ok h ∧ MerkleProof_verify (ap_proof ap) h (events_root b) = true.
Proof.
  assert (chain_ok (blocks (ledger audited))) as Hc by (vm_compute; reflexivity).
  pose proof (audit_proof_exact audited "t" Hc) as Hp.
  assert (match ledger_proof audited "t" with Some _ => true | None => false end = true) as Hs by (vm_compute; reflexivity).
  destruct (ledger_proof audited "t") as [ap|]; [|discriminate Hs].
  destruct Hp as (_&b&h&Hb&_&Hr&He&Hh&Hv). exists ap, b, h. rewrite Hr. repeat split; assumption.
Defined.

End Samples.
