(* ===== verification/NodeService.v ===== *)
(** Starting a node and its listeners (crates/peerless-node/src/lib.rs): opening
    with the persistent identity, the builder and the API handles, the RPC and
    peer-to-peer listeners with their admission check, bootstrap addresses,
    capability queries and statistics. *)

From S2P Require Import Network Prelude External Core Protocol FileSystem Storage.
From S2P Require Import Merkle Consensus Ledger Compute State P2p Identity Metadata Node NodeAccess NodeTasks NodeRestart NodeClient.
From Stdlib Require Import Strings.Byte.
#[local] Open Scope Z_scope.
#[local] Open Scope result_scope.

(** ** Statistics of the content store *)

(** The entries of one prefix directory: regular files whose name does not
    start with a dot, with their sizes. *)
Definition hidden (name : string) : bool := String.prefix "." name.

Fixpoint stats_entries (dir : path) (names : list string) (acc : Z * Z) : io (Z * Z) ErrorKind :=
  match names with
  | [] => iret acc
  | name :: names =>
      let! n := symlink_metadata (name :: dir) in
      match n with
      | File _ _ =>
          if hidden name then stats_entries dir names acc
          else
            let! n := symlink_metadata (name :: dir) in
            let size := match n with File _ b => Z.of_nat (length b) | _ => 0 end in
            stats_entries dir names (acc.1 + 1, acc.2 + size)
      | _ => stats_entries dir names acc
      end
  end.

Fixpoint stats_prefixes (root : path) (names : list string) (acc : Z * Z) : io (Z * Z) ErrorKind :=
  match names with
  | [] => iret acc
  | name :: names =>
      let! n := symlink_metadata (name :: root) in
      match n with
      | Dir _ =>
          let! entries := read_dir (name :: root) in
          let! acc := stats_entries (name :: root) entries acc in
          stats_prefixes root names acc
      | _ => stats_prefixes root names acc
      end
  end.

Definition FileCas_stats (root : path) : io (Z * Z) CasError :=
  imap_err CasIo (let! names := read_dir root in stats_prefixes root names (0, 0)).

(** ** Services *)

Definition SocketAddr : Type := string.

(** A listener with the function that answers its requests. *)
Record RpcServer `{Automerge} := mkRpcServer {
  rpc_address : SocketAddr;
  rpc_handler : SignedEnvelope → NodeState → option SignedEnvelope * NodeState;
}.
Arguments mkRpcServer {_} _ _.

Record P2pServer `{Automerge} := mkP2pServer {
  p2p_rpc : P2pRpc;
  p2p_toggles : Toggles;
  p2p_handler : bytes → SignedEnvelope → NodeState → option SignedEnvelope * NodeState;
}.
Arguments mkP2pServer {_} _ _ _.

Section service.
Context (pid : N) `{Sha256, Hex, KeyFiles, Automerge, Wasmtime, AddrText}.
Context `{Json Message, Json ExecutionRecord, Json SignedExecutionRecord, Json Task, Json NodeId}.
Context `{Json LedgerEvent, Json SignedEvent, Json Block, Json Proposal, Json MembershipPayload}.
Context `{Json Invitation, Json (list Membership), Json (list (string * string))}.
(** Besides the readings and [Display]: the text of an endpoint's error, binding
    a TCP listener, exchanging one request over TCP, and the first address the
    swarm reports for a listener. *)
Context (clock : nat → Z) (host : nat → Host) (error_text : NodeError → string).
Context (p2p_text : P2pError → string) (tcp_bind : SocketAddr → result SocketAddr NetworkError).
Context (tcp_request : SocketAddr → SignedEnvelope → act NodeState SignedEnvelope).
Context (ready : Multiaddr → option Multiaddr).

Abbreviation node := (act NodeState).

(** *** Opening *)

(** [PeerlessNode::open], with the key a first start would generate. *)
Definition open_node (data : path) (fresh : Keypair) (nonce : option N) : node Config :=
  let* i := files NodeIdentityError (load_or_generate pid ("identity" :: data) fresh nonce) in
  PeerlessNode_open pid clock i data.

Record PeerlessBuilder := mkPeerlessBuilder { b_storage : path; b_listen : Multiaddr }.
Record Peerless := mkPeerless { pl_node : Config; pl_listen : Multiaddr }.

(** "/ip4/0.0.0.0/udp/0/quic-v1". *)
Definition Peerless_builder : PeerlessBuilder :=
  mkPeerlessBuilder ["peerless-data"] [Ip4 0 0 0 0; OtherProtocol "udp/0"; OtherProtocol "quic-v1"].
Definition builder_storage (b : PeerlessBuilder) (p : path) : PeerlessBuilder :=
  mkPeerlessBuilder p (b_listen b).
Definition builder_listen (b : PeerlessBuilder) (a : Multiaddr) : PeerlessBuilder :=
  mkPeerlessBuilder (b_storage b) a.
Definition builder_build (b : PeerlessBuilder) (fresh : Keypair) (nonce : option N) : node Peerless :=
  let* c := open_node (b_storage b) fresh nonce in aret (mkPeerless c (b_listen b)).

Section self.
Context (self : Config).

(** *** Listeners *)

Definition p2p_error {A} (r : result A P2pError) : node A := alift (λ e, NodeP2p (p2p_text e)) r.

(** The admission check in front of the listeners. *)
Definition admitted {A} (start : node A) : node A :=
  let* member := has_membership clock self in
  if negb member then afail MembershipRequired else start.

Definition serve_unrestricted (bind : SocketAddr) : node RpcServer :=
  let* a := alift NodeNetwork (tcp_bind bind) in
  aret (mkRpcServer a (handle_or_reject pid clock host error_text self)).
Definition serve (bind : SocketAddr) : node RpcServer := admitted (serve_unrestricted bind).

(** The endpoint gets the peers of the cache before it is handed out. *)
Definition with_cache (started : P2pRpc * Toggles) : node P2pServer :=
  let* r := files (λ e, NodeP2p (p2p_text e)) (load_peer_cache started.1 (peer_cache self)) in
  p2p_error r.1 ;*
  aret (mkP2pServer r.2 started.2 (handle_p2p_or_reject pid clock host error_text self)).

Definition self_peer_id : bytes := to_peer_id (public (keypair (identity self))).

Definition serve_p2p_unrestricted (listen : Multiaddr) : node P2pServer :=
  let* started := p2p_error (start_bound (ready listen) self_peer_id listen) in with_cache started.
Definition serve_p2p (listen : Multiaddr) : node P2pServer := admitted (serve_p2p_unrestricted listen).
Definition serve_p2p_relay_private (listen : Multiaddr) : node P2pServer :=
  admitted (let* started := p2p_error (start_relay_private_bound (ready listen) self_peer_id listen) in
            with_cache started).

Definition node_save_peer_cache (order : table → table) (peers : gmap bytes (list Multiaddr)) : node unit :=
  files (λ e, NodeP2p (p2p_text e)) (save_peer_cache pid order peers (peer_cache self)).

(** *** Bootstrap *)

(** [address.pop()]: the last component and the rest. *)
Definition pop (a : Multiaddr) : option AddrProtocol * Multiaddr := (last a, take (length a - 1) a).

(** The loop over the addresses of an invitation; the endpoint keeps the
    peers that were added before an error. *)
Fixpoint bootstrap_loop (rpc : P2pRpc) (added : Z) (values : list string) : result Z NodeError * P2pRpc :=
  match values with
  | [] => (Ok added, rpc)
  | value :: values =>
      match addr_parse value with
      | None => (Err (NodeP2p (p2p_text LibraryError)), rpc)
      | Some a =>
          match pop a with
          | (Some (P2pPeer peer), rest) =>
              match add_peer rpc peer rest with
              | (Ok _, rpc) => bootstrap_loop rpc (added + 1) values
              | (Err e, rpc) => (Err (NodeP2p (p2p_text e)), rpc)
              end
          | _ => (Err (NodeP2p "invitation bootstrap must end in /p2p/PEER_ID"), rpc)
          end
      end
  end.
Definition apply_invitation_bootstrap (rpc : P2pRpc) (i : Invitation) : result Z NodeError * P2pRpc :=
  bootstrap_loop rpc 0 (bootstrap i).

(** *** Queries *)

Definition node_send (address : SocketAddr) (m : Message) : node Message :=
  ask (tcp_request address) (identity self) m.
Definition peer_capability (address : SocketAddr) : node NodeCapability :=
  let* answer := node_send address GetCapability in
  match answer with Capability value => aret value | _ => afail UnexpectedResponse end.

Definition join (l : list string) : string :=
  match l with [] => "" | x :: l => foldl (λ acc y, acc +:+ "," +:+ y) x l end.

(** The addresses the endpoint knows for the peer go into the database. *)
Definition peer_capability_p2p (decode_error : string) (ep : Endpoint) (peers : gmap bytes (list Multiaddr))
    (peer : bytes) : node NodeCapability :=
  let* answer := send_p2p decode_error self ep peer GetCapability in
  match answer with
  | Capability value =>
      let addresses := join (addr_to_string <$> default [] (peers !! peer)) in
      let* at_ := now clock in
      database (meta_peer (peer_to_string peer) (cap_node value) addresses at_) ;* aret value
  | _ => afail UnexpectedResponse
  end.

Definition remote_execute (address : SocketAddr) (task : Task) (component_bytes : bytes) (value : Z) :
    node (ExecutionRecord * bytes) :=
  remote_execute_via (tcp_request address) (now clock) (identity self) task component_bytes value.

(** *** Content, state, ledger, statistics *)

Definition node_put (b : bytes) : node ContentId := files NodeStorage (FileCas_put pid (cas self) b).
Definition node_state (name : string) : node StateDocument :=
  files NodeStateError (StateStore_document (state_store self) name).
Definition merge_state_snapshot (name : string) (body : bytes) : node unit :=
  files NodeStateError (StateStore_merge_snapshot pid (state_store self) name body).
Definition ledger_height : node Z := locked (λ i, Z.of_nat (length (blocks (ledger i)))).
Definition storage_stats : node (Z * Z) := files NodeStorage (FileCas_stats (cas self)).
Definition task_counts : node (Z * Z) :=
  locked (λ i, (Z.of_nat (size (pending i)), Z.of_nat (size (completed i)))).
Definition metadata_counts : node (Z * Z) := database meta_counts.
Definition persisted_peer_count : node Z := database meta_peer_count.
Definition peer_reputation (id : NodeId) : node PeerReputation := database (meta_reputation id).
Definition membership_network_id : node (option string) :=
  locked (λ i, policy_network_id <$> membership i).

End self.

Definition Peerless_start (p : Peerless) : node P2pServer :=
  admitted (pl_node p) (serve_p2p (pl_node p) (pl_listen p)).

(** ** Admission *)

(** A state after one more reading. *)
Definition ticked (s : NodeState) : NodeState := mkNodeState (inner s) (world s) (S (ticks s)).

Lemma admitted_spec {A} self (start : node A) s :
  admitted self start s =
    if has_membership_at self (inner s) (clock (ticks s)) then start (ticked s)
    else (Err MembershipRequired, ticked s).
Proof.
  unfold admitted, has_membership, locked, aget, now, abind. cbn.
  by destruct (has_membership_at self (inner s) (clock (ticks s))).
Qed.

(** Loading a cache into a relay-private endpoint without relays adds nothing. *)
Lemma load_entries_private rpc n entries n' rpc' :
  relay_private rpc = true → privacy_relays rpc = ∅ →
  load_entries rpc n entries = (Ok n', rpc') → entries = [] ∧ rpc' = rpc.
Proof.
  intros Hp Hr. destruct entries as [|[p a] entries]; cbn; [by intros [= _ <-]|].
  destruct (peer_parse p) as [q|], (addr_parse a) as [m|]; [|done..]. unfold add_peer. rewrite Hp. cbn [andb].
  assert (uses_configured_circuit rpc m = false) as ->; [|done].
  unfold uses_configured_circuit, configured. destruct (circuit_relay m); [|done].
  apply bool_decide_eq_false. rewrite Hr. set_solver.
Qed.

Lemma with_cache_private self started s srv s' :
  relay_private started.1 = true → privacy_relays started.1 = ∅ →
  with_cache self started s = (Ok srv, s') →
  srv = mkP2pServer started.1 started.2 (handle_p2p_or_reject pid clock host error_text self).
Proof.
  intros Hp Hr. unfold with_cache, abind, files, p2p_error, alift.
  assert (∀ r w, load_peer_cache started.1 (peer_cache self) (world s) = (r, w) →
    ∀ n rpc', r = Ok (Ok n, rpc') → rpc' = started.1) as Hload.
  { unfold load_peer_cache, ibind. intros r w E n rpc' ->. revert E.
    destruct (exists_ _ (world s)) as [[present|] w1]; [|done]. destruct present; cbn [negb]; [|by intros [= _ <- _]].
    unfold ihandle. destruct (imap_err _ _ w1) as [r1 w2]. destruct (rbind r1 parse_peer_cache) as [es|]; [|done].
    intros [= E <-]. by apply load_entries_private in E as [_ ->]. }
  destruct (load_peer_cache started.1 (peer_cache self) (world s)) as [[[[n|e] rpc']|e] w] eqn:E; [|done..].
  cbn. intros [= <- _]. by rewrite (Hload _ _ eq_refl n rpc' eq_refl).
Qed.

(** A node listens only as a member of its network: without a membership of
    its own that is valid at the time of the call, every listener and the start
    of the node are refused, and nothing changes but the time; with one, the
    relay-private listener, if it comes up at all, is bound to the loopback
    interface, has Identify, AutoNAT and DCUtR off, knows no peer and no relay,
    and answers through the check that binds a request to its connection. *)
Theorem listeners_require_membership self listen bind s :
  let member := has_membership_at self (inner s) (clock (ticks s)) in
  (member = false →
    serve self bind s = (Err MembershipRequired, ticked s) ∧
    serve_p2p self listen s = (Err MembershipRequired, ticked s) ∧
    serve_p2p_relay_private self listen s = (Err MembershipRequired, ticked s) ∧
    Peerless_start (mkPeerless self listen) s = (Err MembershipRequired, ticked s)) ∧
  (∀ srv s', serve_p2p_relay_private self listen s = (Ok srv, s') →
    member = true ∧ is_loopback listen = true ∧ p2p_toggles srv = mkToggles false false false ∧
    relay_private (p2p_rpc srv) = true ∧ privacy_relays (p2p_rpc srv) = ∅ ∧ commands (p2p_rpc srv) = [] ∧
    p2p_handler srv = handle_p2p_or_reject pid clock host error_text self).
Proof.
  intros member. split.
  - intros Hm. unfold serve, serve_p2p, serve_p2p_relay_private, Peerless_start. cbn [pl_node pl_listen].
    rewrite !admitted_spec. fold member. by rewrite Hm.
  - intros srv s'. unfold serve_p2p_relay_private. rewrite admitted_spec. fold member. destruct member; [|done].
    unfold abind at 1, p2p_error at 1, alift, start_relay_private_bound, start_client.
    destruct (is_loopback listen); [|done]. destruct (ready listen) as [a|]; [|done]. cbn [negb rmap_err].
    intros Hsrv%with_cache_private; [|done..]. by subst srv.
Qed.

End service.

(** ** Relay-private starts and the peer cache *)

Section cached.
Context (pid : N) `{Sha256, Hex, KeyFiles, Automerge, Wasmtime, AddrText}.
Context `{Json Message, Json ExecutionRecord, Json SignedExecutionRecord, Json Task, Json NodeId}.
Context `{Json LedgerEvent, Json SignedEvent, Json Block, Json Proposal, Json MembershipPayload}.
Context `{JsonLaws (list (string * string))}.
Context (clock : nat → Z) (host : nat → Host) (error_text : NodeError → string).
Context (p2p_text : P2pError → string) (ready : Multiaddr → option Multiaddr) (self : Config).

Definition no_relay : P2pError :=
  Refused "relay-private mode accepts peer addresses only through configured relays".

Lemma load_pairs_private rpc n (pairs : list (bytes * Multiaddr)) :
  relay_private rpc = true → privacy_relays rpc = ∅ → pairs ≠ [] →
  load_entries rpc n ((λ pa, (peer_to_string pa.1, addr_to_string pa.2)) <$> pairs) = (Err no_relay, rpc).
Proof.
  intros Hp Hr Hne. destruct pairs as [|[p a] pairs]; [done|]. cbn.
  rewrite peer_parse_to_string, addr_parse_to_string. unfold add_peer. rewrite Hp. cbn [andb].
  assert (uses_configured_circuit rpc a = false) as ->; [|done].
  unfold uses_configured_circuit, configured. destruct (circuit_relay a); [|done].
  apply bool_decide_eq_false. rewrite Hr. set_solver.
Qed.

Lemma table_pairs_nonempty (order : table → table) (m : gmap bytes (list Multiaddr)) p a l :
  (∀ l, order l ≡ₚ l) → m !! p = Some (a :: l) → table_pairs (order (map_to_list m)) ≠ [].
Proof.
  intros Hord Hm E. assert ((p, a) ∈ table_pairs (order (map_to_list m))) as Hin; [|rewrite E in Hin; by apply elem_of_nil in Hin].
  unfold table_pairs. apply list_elem_of_In, in_concat. exists ((λ a, (p, a)) <$> (a :: l)).
  split; apply list_elem_of_In; [|by left]. apply list_elem_of_fmap. exists (p, a :: l). split; [done|].
  rewrite Hord. by apply elem_of_map_to_list.
Qed.

(** Known peers keep a node from starting in relay-private mode: after the
    node has saved a peer table with at least one address, every start of the
    relay-private listener that finds this cache fails, because no relay is
    configured yet when the cache is loaded and every cached address is then
    refused. *)
Theorem saved_peers_block_relay_private (order : table → table) (peers : gmap bytes (list Multiaddr)) p a l listen s s1 s2 :
  (∀ l, order l ≡ₚ l) → peers !! p = Some (a :: l) →
  node_save_peer_cache pid p2p_text self order peers s = (Ok tt, s1) →
  fs (world s2) = fs (world s1) → faults (world s2) = [] →
  ∃ e, (serve_p2p_relay_private pid clock host error_text p2p_text ready self listen s2).1 = Err e ∧
    (has_membership_at self (inner s2) (clock (ticks s2)) = true → is_loopback listen = true →
     is_Some (ready listen) → e = NodeP2p (p2p_text no_relay)).
Proof.
  intros Hord Hpeers Hsave Hfs Hfl. unfold node_save_peer_cache, files in Hsave.
  destruct (save_peer_cache _ _ _ _ _) as [[[]|] w1] eqn:E; [|done]. injection Hsave as <-. cbn in Hfs.
  apply save_peer_cache_ok in E as (b&Hb&Hp&Hn&Hsz). rewrite entries_of_pairs in Hb, Hn. rewrite length_fmap in Hn.
  unfold serve_p2p_relay_private. rewrite admitted_spec.
  destruct (has_membership_at _ _ _); [|by eexists]. unfold abind at 1, p2p_error, alift.
  unfold start_relay_private_bound, start_client. destruct (is_loopback listen); [|by eexists].
  destruct (ready listen) as [r|]; [|eexists; split; [done|]; by intros _ _ [? ?]]. cbn [negb rmap_err].
  exists (NodeP2p (p2p_text no_relay)). split; [|done]. unfold with_cache, abind at 1, files. cbn [fst ticked world].
  rewrite <- Hfs in Hp. set (rpc := mkP2pRpc _ _ _ _ _ _ _).
  pose proof (load_peer_cache_nofault rpc (peer_cache self) (world s2) _ b Hfl Hp Hsz) as Hload.
  destruct (load_peer_cache rpc (peer_cache self) (world s2)) as [r1 w2]. cbn [fst] in Hload. rewrite Hload.
  unfold parse_peer_cache. rewrite (json_pretty_roundtrip _ _ Hb). cbn [ok_or rbind].
  rewrite length_fmap, (proj2 (Z.ltb_ge _ _)) by done.
  rewrite load_pairs_private; [done|done|done|]. by eapply table_pairs_nonempty.
Qed.

End cached.

(** ** Witness *)

Module Samples.
Import Toy ToyDoc P2p.Samples Node.Samples NodeRestart.Samples Identity.Samples.

Definition p2p_text0 (e : P2pError) : string := match e with Refused m => m | LibraryError => "library" end.
Definition ready0 (a : Multiaddr) : option Multiaddr := Some a.
Definition unordered (t : table) : table := t.
Lemma unordered_perm t : unordered t ≡ₚ t.
Proof. reflexivity. Qed.

(** A member that has saved one peer. *)
Abbreviation saved1 := (node_save_peer_cache 7 p2p_text0 config1 unordered table0 joined.2).
Lemma saved1_ok : saved1.1 = Ok tt.
Proof. vm_compute. reflexivity. Qed.

Lemma saved_peers_block_relay_private_witness :
  (serve_p2p_relay_private 7 clock0 host0 (λ _, "error") p2p_text0 ready0 config1 [Ip4 127 0 0 1] saved1.2).1
    = Err (NodeP2p (p2p_text0 no_relay)).
Proof.
  assert (saved1 = (Ok tt, saved1.2)) as Hs by (rewrite <- saved1_ok; apply surjective_pairing).
  destruct (saved_peers_block_relay_private 7 clock0 host0 (λ _, "error") p2p_text0 ready0 config1 unordered table0
    relay0 [P2pPeer relay0] [[P2pCircuit]] [Ip4 127 0 0 1] joined.2 saved1.2 saved1.2 unordered_perm eq_refl Hs eq_refl)
    as (e&He&Hx).
  - vm_compute. reflexivity.
  - rewrite He. f_equal. apply Hx; [vm_compute; reflexivity|reflexivity|by eexists].
Defined.

End Samples.
