(* ===== verification/NodeExecution.v ===== *)
(** Executions end to end (crates/peerless-node/src/lib.rs): what a recorded
    result says about the component that ran, and what a client gets from an
    executor that follows the protocol. *)

From S2P Require Import Network Prelude External Core Protocol FileSystem Storage.
From S2P Require Import Merkle Consensus Ledger Compute State Metadata Node NodeAccess NodeTasks NodeRestart NodeClient NodeTransfer.
From Stdlib Require Import Strings.Byte.
#[local] Open Scope Z_scope.
#[local] Open Scope result_scope.

(** ** What storing returns *)

(** Every success of the call returns [a]. *)
Definition yields {A E} (a : A) (m : io A E) : Prop := ∀ w x, (m w).1 = Ok x → x = a.

Section yields.
Context {A B E F : Type} (a : A).

Lemma yields_ret : yields (E := E) a (iret a).
Proof. by intros w x [= ->]. Qed.
Lemma yields_fail (e : E) : yields a (ifail e).
Proof. by intros w x [=]. Qed.
Lemma yields_bind (m : io B E) (k : B → io A E) : (∀ b, yields a (k b)) → yields a (ibind m k).
Proof. intros Hk w x. unfold ibind. destruct (m w) as [[b|e] w']; [apply Hk|done]. Qed.
Lemma yields_handle (m : io B F) (k : result B F → io A E) : (∀ r, yields a (k r)) → yields a (ihandle m k).
Proof. intros Hk w x. unfold ihandle. destruct (m w) as [r w']. apply Hk. Qed.

End yields.

Lemma yields_discard {A E} (a : A) p (e : E) : yields a (discard p e).
Proof. apply yields_handle. intros r. apply yields_fail. Qed.

Ltac solve_yields :=
  repeat (cbv zeta;
  lazymatch goal with
  | |- yields _ (ibind _ _) => apply yields_bind; intros ?
  | |- yields _ (ihandle _ _) => apply yields_handle; intros ?
  | |- yields _ (discard _ _) => apply yields_discard
  | |- yields _ (ifail _) => apply yields_fail
  | |- yields _ (match ?x with _ => _ end) => destruct x
  | |- _ => apply yields_ret
  end).

Lemma FileCas_put_yields `{Sha256, Hex} pid root b : yields (ContentId_of b) (FileCas_put pid root b).
Proof. unfold FileCas_put. solve_yields. Qed.

(** ** Genuine results *)

Section genuine.
Context (pid : N) `{Sha256, Hex, Keys, Automerge, Wasmtime}.
Context `{Json Message, Json ExecutionRecord, Json SignedExecutionRecord, Json Task, Json NodeId}.
Context `{Json LedgerEvent, Json SignedEvent, Json Block, Json Proposal, Json MembershipPayload}.
Context (clock : nat → Z) (host : nat → Host) (self : Config).
Context (Hself : identity_wf (identity self)).

(** A record of a run of the task's component on its input, under the limit of
    the task, by this node. *)
Definition genuine (task : Task) (r : SignedExecutionRecord) : Prop :=
  SignedExecutionRecord_verify r = Ok true ∧ rec_executor (record r) = self_id self ∧
  rec_task_id (record r) = task_id task ∧
  rec_component (record r) = component task ∧ rec_input (record r) = input task ∧
  ∃ cb ib out limit, component task = ContentId_of cb ∧ input task = ContentId_of ib ∧
    task_memory_limit task = Some limit ∧ run_component task cb ib limit = Ok out ∧
    rec_output (record r) = ContentId_of out.

Definition all_genuine (i : Inner) : Prop := map_Forall (λ _ c, genuine (c_task c) (c_result c)) (completed i).

(** Every recorded result is one that was known before or genuine. *)
Context (known : string → CompletedTask → Prop).
Definition accounted (i : Inner) : Prop :=
  map_Forall (λ id c, known id c ∨ genuine (c_task c) (c_result c)) (completed i).

Lemma untouched_genuine {A} (m : act NodeState A) s :
  untouched completed m → accounted (inner s) → accounted (inner (m s).2).
Proof. intros Hm. unfold accounted. by rewrite Hm. Qed.

(** A run of the body that succeeds returns a genuine record; in any case the
    recorded results stay accounted for. *)
Lemma execute_body_genuine id signer task s :
  accounted (inner s) →
  wp (execute_body pid clock self id signer task) (λ res s',
    accounted (inner s') ∧ ∀ m, res = Ok m → ∃ r, m = TaskResult r ∧ genuine task r) s.
Proof.
  intros Hg. unfold execute_body. wp_auto; try (by split).
  match goal with |- wp (append_ledger_event _ _ _ (TaskCompleted (record ?r))) _ _ => set (sr := r) in * end.
  assert (genuine task sr) as Hsr.
  { repeat match goal with
    | Hf : FileCas_get _ _ _ = (Ok _, _) |- _ =>
        apply (f_equal fst), FileCas_get_verified in Hf
    | Hf : FileCas_put _ _ _ _ = (Ok _, _) |- _ =>
        apply (f_equal fst), FileCas_put_yields in Hf
    end. subst.
    match goal with Hs : SignedExecutionRecord_seal _ _ = Ok sr |- _ =>
      destruct (sealed_record_verify _ _ _ Hself Hs) as [Hr Hv] end.
    unfold genuine. rewrite Hv, Hr. cbn. rewrite bool_decide_eq_true_2 by done. split_and!; [done..|]. eauto 10. }
  apply (wp_untouched completed); [by apply untouched_event|]. intros r s1 Hs1. cbn in Hs1.
  assert (accounted (inner s1)) as Hg1.
  { unfold accounted. rewrite Hs1. apply map_Forall_insert_2; [by right|done]. }
  destruct r; [|by split]. wp_auto; (split; [done|]); try done. intros reply [= <-]. eauto.
Qed.

(** The node has the task under its identifier: as a reservation, or with its
    result. *)
Definition holds_task (task : Task) (i : Inner) : Prop :=
  match completed i !! task_id task with
  | Some c => c_task c = task
  | None => ∃ r, pending i !! task_id task = Some r ∧ p_task r = task
  end.

Lemma execute_genuine id signer s :
  accounted (inner s) →
  wp (execute pid clock self id signer) (λ res s', accounted (inner s') ∧
    ∀ m, res = Ok m → ∃ r task, m = TaskResult r ∧
      (genuine task r ∨ ∃ c, known id c ∧ c_task c = task ∧ c_result c = r) ∧
      (∀ t, task_id t = id → holds_task t (inner s) → task = t)) s.
Proof.
  intros Hg. unfold execute, recorded_result, claim.
  assert (∀ task s1, completed (inner s1) = completed (inner s) →
    (∀ t, task_id t = id → holds_task t (inner s) → task = t) →
    wp (λ s1, let '(r, s') := execute_body pid clock self id signer task s1 in execute_end id r s')
      (λ res s', accounted (inner s') ∧ ∀ m, res = Ok m → ∃ r task, m = TaskResult r ∧
        (genuine task r ∨ ∃ c, known id c ∧ c_task c = task ∧ c_result c = r) ∧
        (∀ t, task_id t = id → holds_task t (inner s) → task = t)) s1) as Hbody.
  { intros task s1 Hs1 Ht. assert (accounted (inner s1)) as Hg1 by (unfold accounted; by rewrite Hs1).
    pose proof (execute_body_genuine id signer task s1 Hg1) as Hb. unfold wp in *.
    destruct (execute_body _ _ _ _ _ _ s1) as [res s2]. cbn in *. destruct Hb as [Hg2 Hr]. split; [done|].
    intros m Hm. destruct (Hr m Hm) as (r&->&Hgr). eauto 10. }
  wp_auto; try (by split).
  - split; [done|]. intros m [= <-]. do 2 eexists. split; [done|].
    match goal with Hc : completed _ !! id = Some ?c |- _ => split; [destruct (Hg id c Hc) as [|]; [right; by exists c|by left]|] end.
    intros t <- Ht. unfold holds_task in Ht. case_match; simplify_eq. done.
  - all: apply Hbody; [done|]. intros t <- Ht. unfold holds_task in Ht. case_match; [simplify_eq|].
    destruct Ht as (r&Hr&<-). by simplify_eq.
  - all: apply Hbody; [done|]. intros t <- Ht. unfold holds_task in Ht. case_match; [simplify_eq|].
    destruct Ht as (r&Hr&<-). by simplify_eq.
Qed.

Lemma reserve_holds task requester expires_at observed_at cap p :
  match reserve task requester expires_at observed_at cap p with
  | inl m => ∀ id, m = TaskAccept id → id = task_id task ∧ ∃ r, p !! task_id task = Some r ∧ p_task r = task
  | inr p' => ∃ r, p' !! task_id task = Some r ∧ p_task r = task
  end.
Proof.
  unfold reserve. destruct (p !! task_id task) as [r|] eqn:Er.
  - case_match eqn:Eb; [|by intros id [=]]. apply andb_prop in Eb as [_ Et]. breflect.
    intros id [= <-]. eauto.
  - destruct (_ || _); [by intros id [=]|]. eexists. by rewrite lookup_insert_eq.
Qed.

Lemma accept_offer_holds task requester expires_at signer s :
  wp (accept_offer clock host self task requester expires_at signer) (λ res s',
    ∀ id, res = Ok (TaskAccept id) → id = task_id task ∧ holds_task task (inner s')) s.
Proof.
  unfold accept_offer. apply wp_bind, (wp_untouched completed); [unfold structurally_valid; by solve_untouched|].
  intros [[]|] s1 _; [|done..]. cbn [negb]. wp_step. wp_step. destruct (completed (inner s1) !! task_id task) as [c|] eqn:Ec.
  { unfold wp. cbn. intros id. case_match eqn:Eb; [|done]. apply andb_prop in Eb as [_ Et]. breflect.
    intros [= <-]. unfold holds_task. by rewrite Ec. }
  do 2 wp_step. apply wp_bind, (wp_untouched completed); [unfold node_capability; by solve_untouched|].
  intros [cap|] s2 Hs2; [|done]. cbn in Hs2. rewrite <- Hs2 in Ec. do 2 wp_step.
  match goal with |- wp (match reserve ?t ?q ?x ?o ?c ?p with _ => _ end) _ _ =>
    pose proof (reserve_holds t q x o c p) as Hr; destruct (reserve t q x o c p) as [m|p'] end.
  - intros id [= ->]. destruct (Hr id eq_refl) as [-> Hp]. split; [done|]. unfold holds_task. cbn. by rewrite Ec.
  - wp_auto; try done. intros id [= <-]. split; [done|]. unfold holds_task. cbn. by rewrite Ec.
Qed.

Lemma respond_genuine signer message s :
  accounted (inner s) → accounted (inner (respond pid clock host self signer message s).2).
Proof.
  intros Hg.
  destruct message; cbn [Node.respond]; try (apply untouched_genuine; [unfold store; by solve_untouched|done]).
  - apply untouched_genuine; [by apply untouched_offer|done].
  - apply (execute_genuine _ _ s Hg).
  - apply untouched_genuine; [|done]. intros s1. unfold change_pending. by destruct (cancel _ _ _).
  - apply untouched_genuine; [|done]. intros s1. unfold change_uploads. by destruct (content_start _ _ _ _ _).
  - apply untouched_genuine; [|done]. intros s1. unfold change_uploads. by destruct (content_chunk _ _ _ _ _ _).
Qed.

Lemma handle_genuine e s : accounted (inner s) → accounted (inner (handle pid clock host self e s).2).
Proof.
  intros Hg. apply (handle_respond pid clock host self (λ s, accounted (inner s))); [done|done|].
  intros message signer b n _. apply respond_genuine.
Qed.

Lemma handle_all_genuine es s : accounted (inner s) → accounted (inner (handle_all pid clock host self es s)).
Proof.
  unfold handle_all. revert s. induction es as [|e es IH]; intros s Hg; [done|].
  cbn [foldl]. apply IH. by apply handle_genuine.
Qed.

End genuine.

(** Nothing known before: all results are genuine. *)
Lemma all_genuine_accounted `{Sha256, Keys, Automerge, Wasmtime, Json ExecutionRecord} self i :
  all_genuine self i ↔ accounted self (λ _ _, False) i.
Proof. unfold all_genuine, accounted, map_Forall. naive_solver. Qed.

(** ** Results of a node since it was opened *)

Section opened.
Context (pid : N) `{Sha256, Hex, Keys, Automerge, Wasmtime}.
Context `{Json Message, Json ExecutionRecord, JsonLaws SignedExecutionRecord, JsonLaws Task, JsonLaws NodeId}.
Context `{Json LedgerEvent, Json SignedEvent, Json Block, Json Proposal, Json MembershipPayload}.
Context `{Json Invitation, Json (list Membership)}.
Context (clock : nat → Z) (host : nat → Host).

Definition all_valid (m : gmap string CompletedTask) : Prop :=
  map_Forall (λ _ c, result_ok (c_task c) (c_result c)) m.

(** Opening restores results whose signature verifies and that are about their
    task; it does not ask who executed them. *)
Lemma recover_completed_valid cas rows acc s :
  all_valid acc → wp (recover_completed cas acc rows) (λ res _, ∀ m, res = Ok m → all_valid m) s.
Proof.
  revert acc s. induction rows as [|[[task requester] r] rows IH]; intros acc s Hacc; cbn [recover_completed].
  { by intros m [= <-]. }
  apply wp_bind. unfold wp at 1. destruct (result_valid cas task r s) as [[v|] s1] eqn:E; [|done]. cbn.
  apply IH. destruct v; [|done]. apply map_Forall_insert_2; [|done]. cbn.
  unfold result_valid in E. destruct (SignedExecutionRecord_verify r) as [[]|] eqn:Ev; try done.
  destruct (_ && _ && _) eqn:Eb; [|done]. breflect. by split_and!.
Qed.

Lemma open_valid i data s :
  wp (PeerlessNode_open pid clock i data) (λ res s', ∀ self, res = Ok self →
    identity self = i ∧ all_valid (completed (inner s'))) s.
Proof.
  unfold PeerlessNode_open.
  apply wp_bind, wp_files. intros [cas|] w1 _; [|done]. cbn [rmap_err].
  apply wp_bind, wp_files. intros [u|] w2 _; [|done]. cbn [rmap_err].
  apply wp_bind, wp_database. intros [rows|] m _; [|done]. cbn [rmap_err].
  apply wp_bind. eapply wp_mono; [apply (recover_completed_valid cas rows ∅); by intros ? ? ?%lookup_empty_Some|].
  intros [c|] s1 Hc; [|done]. specialize (Hc c eq_refl).
  apply wp_bind, wp_files. intros [st|] w3 _; [|done]. cbn [rmap_err].
  apply wp_bind, wp_files. intros [l|] w4 _; [|done]. cbn [rmap_err].
  apply wp_bind. wp_step. apply wp_bind. wp_step.
  apply wp_bind. apply (wp_untouched completed); [apply untouched_load_invitation|].
  intros [|] s2 Hs2; [|done]. apply wp_bind.
  apply (wp_untouched completed); [apply untouched_load_issued|]. intros [|] s3 Hs3; [|done].
  wp_auto. intros self [= <-]. split; [done|]. cbn. by rewrite Hs3, Hs2.
Qed.

(** C40: every result a node records is genuine: from the moment a node has
    opened, over whatever database, and whatever requests arrive, each result it
    has on record is either one that opening restored, which is about its task
    and carries a signature that verifies, or it carries a valid signature of
    this node and is about a run of bytes with the task's component identifier
    on bytes with its input identifier, under the task's memory limit, that ended
    with bytes of the recorded output identifier; and a commit is answered with
    a result only if it is restored or genuine in this sense. *)
Theorem results_are_genuine i data s0 self s es signer id :
  identity_wf i → PeerlessNode_open pid clock i data s0 = (Ok self, s) →
  let s' := handle_all pid clock host self es s in
  let restored k c := completed (inner s) !! k = Some c ∧ result_ok (c_task c) (c_result c) in
  (∀ k c, completed (inner s') !! k = Some c → restored k c ∨ genuine self (c_task c) (c_result c)) ∧
  ∀ r, (respond pid clock host self signer (TaskCommit id) s').1 = Ok (TaskResult r) →
    (∃ c, restored id c ∧ r = c_result c) ∨ ∃ task, genuine self task r.
Proof.
  intros Hwf Ho s' restored. pose proof (open_valid i data s0) as Hv. unfold wp in Hv. rewrite Ho in Hv.
  destruct (Hv self eq_refl) as [Hi Hval]. rewrite <- Hi in Hwf.
  assert (accounted self restored (inner s)) as Hg.
  { intros k c Hc. left. split; [done|]. exact (Hval k c Hc). }
  apply (handle_all_genuine pid clock host self Hwf restored es) in Hg. split; [exact Hg|].
  intros r Hr. destruct (execute_genuine pid clock self Hwf restored id signer s' Hg) as [_ Hx].
  destruct (Hx _ Hr) as (r'&task&[= <-]&[Hgr|(c&Hc&_&<-)]&_); eauto.
Qed.

End opened.

(** ** A client and an executor *)

Section honest.
Context (pid : N) `{Sha256, Hex, Keys, Automerge, Wasmtime}.
Context `{JsonLaws Message, Json ExecutionRecord, Json SignedExecutionRecord, Json Task, Json NodeId}.
Context `{Json LedgerEvent, Json SignedEvent, Json Block, Json Proposal, Json MembershipPayload}.
Context (clock : nat → Z) (host : nat → Host) (error_text : NodeError → string).
Context (server : Config) (me : NodeIdentity).
(** Messages can be written and signed. *)
Context (Hwrite : ∀ m : Message, is_Some (to_vec m)) (Hsign : ∀ kp m, is_Some (keypair_sign kp m)).
Context (Hme : identity_wf me) (Hserver : identity_wf (identity server)).

Abbreviation serves := (served pid clock host error_text server).

(** An answer that is not a refusal is what the message's handler said, after
    the budget was charged. *)
Lemma ask_respond m s reply s' :
  ask serves me m s = (Ok reply, s') → (∀ id reason, reply ≠ TaskReject id reason) →
  ∃ b n, respond pid clock host server (node_id me) m (charged b n s) = (Ok reply, s').
Proof.
  intros Hask Hrej. destruct (ask_handle pid clock host error_text server me Hwrite Hsign Hme Hserver m s)
    as (e&Eo&E). rewrite E in Hask. clear E.
  pose proof (handle_opened pid clock host server e s m (node_id me) Eo) as Hh.
  destruct (consume_request_budget _ _ _) as [within b]. destruct Hh as (n&_&Hh). case_match.
  - exists b, n. rewrite Hh in Hask. unfold abind in Hask.
    destruct (respond _ _ _ _ _ m (charged b n s)) as [[r|x] s1]; [|injection Hask as <- _; by destruct (Hrej "" (error_text x))].
    destruct (sealed_at server Hwrite Hsign Hserver r s1) as (e'&Es&Eo'&_). rewrite Es in Hask.
    rewrite Eo' in Hask. by injection Hask as -> ->.
  - destruct Hh as [reason Hh]. rewrite Hh in Hask.
    destruct (sealed_at server Hwrite Hsign Hserver (TaskReject "" reason) (charged b n s)) as (e'&Es&Eo'&_).
    rewrite Es, Eo' in Hask. injection Hask as <- _. by destruct (Hrej "" reason).
Qed.

Lemma ask_genuine m s :
  all_genuine server (inner s) → all_genuine server (inner (ask serves me m s).2).
Proof.
  intros Hg. destruct (ask_handle pid clock host error_text server me Hwrite Hsign Hme Hserver m s) as (e&_&->).
  rewrite all_genuine_accounted in *.
  pose proof (handle_genuine pid clock host server Hserver _ e s Hg) as Hh.
  destruct (handle _ _ _ _ e s) as [[a|x] s']; done.
Qed.

(** What every request keeps, a transfer keeps. *)
Lemma transfer_keeps (I : NodeState → Prop) id b s :
  (∀ m s, I s → I (ask serves me m s).2) → I s → I (transfer_content_via serves me id b s).2.
Proof.
  intros Hask. unfold transfer_content_via. destruct (ContentId_verify id b); [|done]. cbn [negb].
  assert (∀ m s, I s → wp (ask serves me m) (λ _ s', I s') s) as Hask' by auto.
  assert (∀ m s, I s → wp (confirmed id m) (λ _ s', I s') s) as Hconf.
  { intros m s1 Hs. unfold confirmed. destruct m; wp_auto; done. }
  assert (∀ cs i s, I s → wp (send_chunks serves me id i cs) (λ _ s', I s') s) as Hsend.
  { induction cs as [|c cs IH]; intros i s1 Hs; cbn [send_chunks]; [by wp_auto|].
    apply wp_bind. eapply wp_mono; [by apply Hask'|]. intros [m|] s2 Hs2; [|done].
    destruct m; wp_auto; auto. }
  intros Hs. change (wp (if Z.of_nat (length b) <=? CONTENT_CHUNK_SIZE
    then let* answer := ask serves me (Content id b) in confirmed id answer
    else let* answer := ask serves me (ContentStart id (Z.of_nat (length b)) CONTENT_CHUNK_SIZE) in
      match answer with
      | HasContent found =>
          if bool_decide (found = id) then
            send_chunks serves me id 0 (Prelude.chunks chunk_length b) ;*
            let* answer := ask serves me (ContentComplete id) in confirmed id answer
          else afail UnexpectedResponse
      | _ => afail UnexpectedResponse
      end) (λ _ s', I s') s).
  destruct (_ <=? _).
  - apply wp_bind. eapply wp_mono; [by apply Hask'|]. intros [m|] s1 Hs1; [by apply Hconf|done].
  - apply wp_bind. eapply wp_mono; [by apply Hask'|]. intros [m|] s1 Hs1; [|done].
    destruct m; try done. case_bool_decide; [|done].
    apply wp_bind. eapply wp_mono; [by apply Hsend|]. intros [u|] s2 Hs2; [|done].
    apply wp_bind. eapply wp_mono; [by apply Hask'|]. intros [m|] s3 Hs3; [by apply Hconf|done].
Qed.

Lemma transfer_genuine id b s r s' :
  all_genuine server (inner s) → transfer_content_via serves me id b s = (Ok r, s') →
  id = ContentId_of b ∧ all_genuine server (inner s').
Proof.
  intros Hg E. split.
  - pose proof (transfer_verifies serves me id b (λ res _, is_ok res = true → id = ContentId_of b) s) as Hv.
    unfold wp in Hv. rewrite E in Hv. by apply Hv.
  - pose proof (transfer_keeps (λ s, all_genuine server (inner s)) id b s (λ m s, ask_genuine m s) Hg) as Hk.
    by rewrite E in Hk.
Qed.

(** The answer to a commit of a task the executor holds. *)
Lemma commit_genuine task s r s' :
  all_genuine server (inner s) → holds_task task (inner s) →
  ask serves me (TaskCommit (task_id task)) s = (Ok (TaskResult r), s') → genuine server task r.
Proof.
  intros Hg Ht E. apply ask_respond in E as (b&n&E); [|done]. cbn [respond] in E.
  apply all_genuine_accounted in Hg.
  destruct (execute_genuine pid clock server Hserver _ (task_id task) (node_id me) (charged b n s) Hg) as [_ Hx].
  rewrite E in Hx. destruct (Hx _ eq_refl) as (r'&task'&[= <-]&[Hgr|(c&[]&_)]&Hsame).
  by rewrite <- (Hsame task eq_refl Ht).
Qed.

Lemma offer_holds task requester expires_at s id s' :
  ask serves me (TaskOffer task requester expires_at) s = (Ok (TaskAccept id), s') → holds_task task (inner s').
Proof.
  intros E. apply ask_respond in E as (b&n&E); [|done]. cbn [respond] in E.
  pose proof (accept_offer_holds clock host server task requester expires_at (node_id me) (charged b n s)) as Hx.
  unfold wp in Hx. rewrite E in Hx. by destruct (Hx id eq_refl).
Qed.

(** What an execution on the node comes from. *)
Lemma honest_run task cb ib s r out s' :
  all_genuine server (inner s) →
  remote_execute_bytes_via serves (now clock) me task cb ib s = (Ok (r, out), s') →
  rec_executor r = node_id (identity server) ∧
  ∃ cb' ib' out' limit,
    ContentId_of cb' = ContentId_of cb ∧ ContentId_of ib' = ContentId_of ib ∧
    task_memory_limit task = Some limit ∧ run_component task cb' ib' limit = Ok out' ∧
    ContentId_of out' = ContentId_of out.
Proof.
  intros Hg E. unfold remote_execute_bytes_via, abind, now in E.
  destruct (transfer_content_via serves me (component task) cb s) as [[u1|] s1] eqn:E1; [|done].
  apply transfer_genuine in E1 as [Hc Hg1]; [|done].
  destruct (transfer_content_via serves me (input task) ib s1) as [[u2|] s2] eqn:E2; [|done].
  apply transfer_genuine in E2 as [Hi Hg2]; [|done]. cbn [inner world ticks] in E.
  set (s3 := mkNodeState _ _ _) in E. assert (all_genuine server (inner s3)) as Hg3 by done.
  destruct (ask serves me (TaskOffer _ _ _) s3) as [[a1|] s4] eqn:E3; [|done].
  pose proof (ask_genuine (TaskOffer task (node_id me) (clock (ticks s2) + 30000)) s3 Hg3) as Hg4.
  rewrite E3 in Hg4. cbn [snd] in Hg4.
  destruct a1; try done. rename task_id into accepted. case_bool_decide; [|done]. unfold aret at 1 in E.
  apply offer_holds in E3.
  destruct (ask serves me (TaskCommit (task_id task)) s4) as [[a2|] s5] eqn:E4; [|done].
  destruct a2; try done. apply (commit_genuine task) in E4; [|done..].
  unfold alift in E. destruct E4 as (Hv&Hx&Hid&Hrc&Hri&cb'&ib'&out'&limit&Hcb&Hib&Hl&Hrun&Hout).
  rewrite Hv in E. cbn [rmap_err] in E. rewrite !bool_decide_eq_true_2 in E by done. cbn [andb] in E.
  unfold aret at 1 in E. destruct (ask serves me (GetContent _) s5) as [[a3|] s6] eqn:E5; [|done].
  destruct a3; try done.
  match type of E with context [if ?x then _ else _] => destruct x eqn:Eb end; [|done].
  injection E as <- <- <-. apply andb_prop in Eb as [Ea Eb]. breflect. apply ContentId_verify_spec in Eb.
  split; [done|]. exists cb', ib', out', limit. split_and!; [congruence..|done|done|congruence].
Qed.

(** C9: an executor that follows the protocol delivers the run of the
    component: a client whose remote execution on such a node succeeds, over
    whatever faults of the executor's disk and database, has the bytes that
    running the task's component on its input under its memory limit gave, up
    to bytes with the same content identifiers, in a record of that executor. *)
Theorem honest_execution_correct task cb ib s r out s' :
  all_genuine server (inner s) →
  remote_execute_bytes_via serves (now clock) me task cb ib s = (Ok (r, out), s') →
  rec_executor r = node_id (identity server) ∧
  ∃ cb' ib' out' limit,
    ContentId_of cb' = ContentId_of cb ∧ ContentId_of ib' = ContentId_of ib ∧
    task_memory_limit task = Some limit ∧ run_component task cb' ib' limit = Ok out' ∧
    ContentId_of out' = ContentId_of out.
Proof. apply honest_run. Qed.

End honest.

(** ** Witnesses *)

Module Samples.
Import Toy ToyDoc Node.Samples NodeRestart.Samples NodeTransfer.Samples.

Lemma nothing_recorded : all_genuine config1 (inner first_open.2).
Proof. intros id c Hc. vm_compute in Hc. discriminate Hc. Qed.
Lemma config1_identity : identity_wf (identity config1).
Proof. vm_compute. reflexivity. Qed.

(** A node is opened, gets the content and the offer of a task, and runs it: the
    result is on record and genuine. *)
Definition requests1 : list SignedEnvelope :=
  [from_peer (Content (ContentId_of [x00]) [x00]); from_peer (Content (ContentId_of [x05]) [x05]);
   from_peer (TaskOffer task1 (node_id peer0) 2000); from_peer (TaskCommit "t")].
Abbreviation served1 := (handle_all 7 clock0 host0 config1 requests1 first_open.2).

Lemma results_are_genuine_witness :
  ∃ c, completed (inner served1) !! "t" = Some c ∧ genuine config1 (c_task c) (c_result c).
Proof.
  destruct (completed (inner served1) !! "t") as [c|] eqn:Ec; [|vm_compute in Ec; discriminate Ec].
  exists c. split; [reflexivity|].
  destruct (results_are_genuine 7 clock0 host0 (identity self0) [] (closed Metadata_empty {[[] := Dir None]} 0)
    config1 first_open.2 requests1 (node_id peer0) "t") as [Hg _].
  - vm_compute. reflexivity.
  - unfold config1, first_open. apply config_of_spec. vm_compute. reflexivity.
  - destruct (Hg "t" c Ec) as [[Hc _]|Hgen]; [vm_compute in Hc; discriminate Hc|exact Hgen].
Defined.

(** A component that echoes its input, run for another node. *)
Abbreviation remote1 :=
  (remote_execute_bytes_via (served 7 clock0 host0 text0 config1) (now clock0) peer0
     (task_for [x05; x06] TrustExecutor) [x00] [x05; x06] first_open.2).
Definition answer_of (r : result (ExecutionRecord * bytes) NodeError) : ExecutionRecord * bytes :=
  match r with Ok x => x | Err _ => (mkExecutionRecord "" [] [] [] [] [] 0 0, []) end.
Lemma answer_of_spec (x : result (ExecutionRecord * bytes) NodeError * NodeState) :
  is_ok x.1 = true → x = (Ok ((answer_of x.1).1, (answer_of x.1).2), x.2).
Proof. by destruct x as [[[]|] s]. Qed.

Lemma honest_execution_correct_witness :
  (answer_of remote1.1).2 = [x05; x06] ∧ rec_executor (answer_of remote1.1).1 = node_id (identity config1).
Proof.
  split; [vm_compute; reflexivity|].
  refine (proj1 (honest_execution_correct 7 clock0 host0 text0 config1 peer0 messages_written messages_signed
    eq_refl config1_identity (task_for [x05; x06] TrustExecutor) [x00] [x05; x06] first_open.2
    (answer_of remote1.1).1 (answer_of remote1.1).2 remote1.2 nothing_recorded _)).
  apply answer_of_spec. vm_compute. reflexivity.
Defined.

End Samples.
