(* ===== verification/NodeGossip.v ===== *)
(** Gossip and content from the network (crates/peerless-node/src/lib.rs): what
    a node takes over from messages it did not ask for, and from providers it
    does not trust. *)

From S2P Require Import Network Prelude External Core Protocol FileSystem Storage.
From S2P Require Import Merkle Consensus Ledger Compute State Metadata Node NodeAccess NodeTasks NodeRestart NodeClient NodeTransfer.
From Stdlib Require Import Strings.Byte.
#[local] Open Scope Z_scope.
#[local] Open Scope result_scope.

Section gossip.
Context (pid : N) `{Sha256, Hex, Keys, Automerge, Wasmtime}.
Context `{Json Message, Json ExecutionRecord, Json SignedExecutionRecord, Json Task, Json NodeId}.
Context `{Json LedgerEvent, Json SignedEvent, Json Block, Json Proposal, Json MembershipPayload}.
Context `{Json SignedEnvelope}.
Context (clock : nat → Z) (self : Config) (ep : Endpoint).
Context {C : Type} `{!ConsensusEngine C} (c : C).

(** The second ledger is the first with blocks that passed every check of
    [append], one after the other. *)
Inductive extends : Ledger → list Block → Ledger → Prop :=
| extends_nil l : extends l [] l
| extends_cons l b bs l' :
    check_append l b c = Ok tt → extends (extended l b) bs l' → extends l (b :: bs) l'.

Lemma extends_blocks l bs l' : extends l bs l' → blocks l' = blocks l ++ bs ∧ ledger_root l' = ledger_root l.
Proof.
  induction 1 as [l|l b bs l' _ _ [IH1 IH2]]; [by rewrite app_nil_r|].
  rewrite IH1, IH2. cbn. by rewrite <- app_assoc.
Qed.

Lemma Ledger_append_Ok l b w h l' w' :
  Ledger_append pid l b c w = (Ok (h, l'), w') → check_append l b c = Ok tt ∧ l' = extended l b.
Proof.
  unfold Ledger_append, ibind, ilift. destruct (check_append l b c) as [[]|]; [|done].
  destruct (Block_hash b) as [h0|]; [|done]. destruct (imap_err _ _ w) as [[]]; [|done].
  destruct (ok_or _ _) as [v|]; [|done]. destruct (_ <? _); [done|].
  destruct (imap_err _ (atomic_create _ _ _ _) _) as [[]]; [|done]. by intros [= <- <- _].
Qed.

(** A policy that grants at most what another one grants. *)
Definition policy_within (p' p : option MembershipPolicy) : Prop :=
  match p', p with
  | None, None => True
  | Some p', Some p => policy_network_id p' = policy_network_id p ∧ permissions p' ⊆ permissions p
  | _, _ => False
  end.

Lemma policy_within_refl p : policy_within p p.
Proof. by destruct p. Qed.
Lemma policy_within_trans p1 p2 p3 : policy_within p1 p2 → policy_within p2 p3 → policy_within p1 p3.
Proof.
  destruct p1, p2, p3; try done. intros [E1 S1] [E2 S2]. split; [congruence|by etrans].
Qed.
Lemma apply_revocations_within changes i : policy_within (membership (apply_revocations changes i)) (membership i).
Proof.
  unfold apply_revocations. cbn. destruct (membership i) as [p|]; [|done]. split; [done|]. apply map_filter_subseteq.
Qed.

Lemma policy_within_allows p' p signer permission at_ :
  permissions p' ⊆ permissions p → policy_allows p' signer permission at_ = true →
  policy_allows p signer permission at_ = true.
Proof.
  intros Hs. unfold policy_allows. destruct (permissions p' !! signer) as [a|] eqn:E; [|done].
  by rewrite (lookup_weaken _ _ _ _ E Hs).
Qed.

(** A block that a member with the permission published under the ledger's topic. *)
Definition published (p : option MembershipPolicy) (messages : list (string * bytes * bytes)) (b : Block) : Prop :=
  ∃ peer raw e body signer, ("peerless/ledger/v1", peer, raw) ∈ messages ∧
    from_slice (A := SignedEnvelope) raw = Some e ∧ open_with_signer e = Ok (LedgerBlock body, signer) ∧
    from_slice (A := Block) body = Some b ∧
    match p with None => True | Some p => ∃ n, policy_allows p signer "ledger" (clock n) = true end.

Lemma published_weaken p' p m messages b :
  policy_within p' p → published p' messages b → published p (m :: messages) b.
Proof.
  intros Hp (peer&raw&e&body&signer&Hin&He&Ho&Hb&Ha). exists peer, raw, e, body, signer.
  split_and!; [by right|done..|]. destruct p as [p|], p' as [p'|]; try done.
  destruct Hp as [_ Hs], Ha as [n Ha]. exists n. by eapply policy_within_allows.
Qed.

Lemma gossip_message_spec permission raw s :
  wp (gossip_message clock permission raw) (λ res s', inner s' = inner s ∧
    ∀ m, res = Ok (Some m) → ∃ e signer, from_slice (A := SignedEnvelope) raw = Some e ∧
      open_with_signer e = Ok (m, signer) ∧
      match membership (inner s) with
      | None => True
      | Some p => ∃ n, policy_allows p signer permission (clock n) = true
      end) s.
Proof.
  unfold gossip_message. apply wp_bind, wp_lift; [intros e He|by split].
  assert (from_slice raw = Some e) as He' by (destruct (from_slice raw); [by injection He as ->|done]).
  apply wp_bind, wp_lift; [intros [m signer] Ho|by split]. cbn [fst snd]. do 2 wp_step.
  destruct (membership (inner s)) as [p|] eqn:Ep; cycle 1.
  { unfold wp. cbn. split; [done|]. intros m' [= <-]. eauto. }
  unfold authorised, policy_allows. destruct (permissions p !! signer) as [a|] eqn:Ea;
    unfold wp; cbn; (split; [done|]); [|done].
  destruct (allows a permission (clock (ticks s))) eqn:Eal; [|done].
  intros m' [= <-]. exists e, signer. rewrite Ea. eauto.
Qed.

(** What the loop does to the ledger, the revoked members and the policy. *)
Definition merged (s : NodeState) (new : list Block) (s' : NodeState) : Prop :=
  extends (ledger (inner s)) new (ledger (inner s')) ∧
  revoked_members (inner s')
    = foldl apply_change (revoked_members (inner s)) (mjoin (revocation_changes ∘ events <$> new)) ∧
  policy_within (membership (inner s')) (membership (inner s)).

Lemma merged_none s s' : inner s' = inner s → merged s [] s'.
Proof. intros E. unfold merged. rewrite E. split_and!; [constructor|done|apply policy_within_refl]. Qed.

Lemma append_block_merged b s :
  wp (append_ledger_block pid b c) (λ res s', merged s (if is_ok res then [b] else []) s') s.
Proof.
  unfold append_ledger_block. do 3 wp_step. apply wp_files. intros [[h l']|e] w Ew; cbn [rmap_err]; [|by apply merged_none].
  apply Ledger_append_Ok in Ew as [Hc ->]. wp_auto. unfold merged. cbn. split_and!.
  - econstructor; [done|constructor].
  - by rewrite app_nil_r.
  - apply (apply_revocations_within _ (set_ledger (extended (ledger (inner s)) b) (inner s))).
Qed.

Lemma merged_cons s b s1 new s2 :
  merged s [b] s1 → merged s1 new s2 → merged s (b :: new) s2.
Proof.
  intros (He&Hr&Hp) (He'&Hr'&Hp'). inversion He as [|??? l' Hc Hn]; subst. inversion Hn as [l E1 E2 E3|]; subst.
  split_and!.
  - econstructor; [done|]. by rewrite E3.
  - rewrite Hr', Hr. cbn. by rewrite app_nil_r, foldl_app.
  - by eapply policy_within_trans.
Qed.

Lemma merge_loop_spec messages n s :
  wp (merge_ledger_loop pid clock c messages n) (λ res s', ∃ new, merged s new s' ∧
    (∀ k, res = Ok k → k = n + Z.of_nat (length new)) ∧
    Forall (published (membership (inner s)) messages) new) s.
Proof.
  revert n s. induction messages as [|[[topic peer] raw] messages IH]; intros n s; cbn [merge_ledger_loop].
  { exists []. split_and!; [by apply merged_none| |constructor]. intros k [= <-]. cbn. lia. }
  assert (∀ p' new, policy_within p' (membership (inner s)) → Forall (published p' messages) new →
    Forall (published (membership (inner s)) ((topic, peer, raw) :: messages)) new) as Hweaken.
  { intros p' new Hp Hf. eapply Forall_impl; [exact Hf|]. intros b. by apply published_weaken. }
  assert (∀ s1, inner s1 = inner s → wp (merge_ledger_loop pid clock c messages n) (λ res s', ∃ new, merged s new s' ∧
    (∀ k, res = Ok k → k = n + Z.of_nat (length new)) ∧
    Forall (published (membership (inner s)) ((topic, peer, raw) :: messages)) new) s1) as Hskip.
  { intros s1 E. eapply wp_mono; [apply IH|]. intros res s2 (new&Hm&Hk&Hf). exists new. unfold merged in *.
    rewrite E in Hm, Hf. split_and!; [apply Hm..|done|]. eapply Hweaken; [apply policy_within_refl|done]. }
  case_bool_decide as Et; cbn [negb]; [|by apply Hskip]. subst topic.
  apply wp_bind. eapply wp_mono; [apply gossip_message_spec|]. intros [m|e] s1 [E1 Hm]; cycle 1.
  { exists []. split_and!; [by apply merged_none|done|constructor]. }
  destruct m as [m|]; [|by apply Hskip]. destruct m as [| | | | | | | | | | | | | | | | | |body]; try (by apply Hskip).
  destruct (Hm _ eq_refl) as (e&signer&He&Ho&Ha).
  apply wp_bind, wp_lift; [intros b Hb|intros ??; exists []; split_and!; [by apply merged_none|done|constructor]].
  assert (from_slice body = Some b) as Hb' by (destruct (from_slice body); [by injection Hb as ->|done]).
  assert (published (membership (inner s)) (("peerless/ledger/v1", peer, raw) :: messages) b) as Hpub
    by (exists peer, raw, e, body, signer; split_and!; [by left|done..]).
  apply wp_bind. eapply wp_mono; [apply append_block_merged|]. intros [u|x] s2 Hm2; cbn [is_ok] in Hm2; cycle 1.
  { exists []. unfold merged in *. rewrite E1 in Hm2. split_and!; [apply Hm2..|done|constructor]. }
  eapply wp_mono; [apply IH|]. intros res s3 (new&Hm3&Hk&Hf). exists (b :: new).
  assert (merged s [b] s2) as Hm2' by (unfold merged in *; by rewrite E1 in Hm2).
  split_and!.
  - by apply (merged_cons s b s2 new s3).
  - intros k Hres. rewrite (Hk k Hres). cbn [length]. lia.
  - constructor; [done|]. eapply Hweaken; [|exact Hf]. apply Hm2'.
Qed.

(** C12: gossip only ever extends the ledger, and only with checked blocks of
    authorised members: whatever messages were drained and wherever the merge
    stops, the new ledger is the old one followed by blocks each of which passed
    every check of appending under the given consensus engine and was published
    under the ledger's topic, in a valid envelope, by a signer that the policy
    in force at the start allows; the members revoked afterwards are those these
    blocks revoke or leave revoked, the policy grants no more than before, and a
    merge that succeeds reports the number of new blocks. *)
Theorem gossip_extends_ledger s messages s0 r s' :
  ep_drain_gossip ep s = (Ok messages, s0) → inner s0 = inner s →
  merge_ledger_gossip pid clock ep c s = (r, s') →
  ∃ new, merged s new s' ∧ blocks (ledger (inner s')) = blocks (ledger (inner s)) ++ new ∧
    (∀ k, r = Ok k → k = Z.of_nat (length new)) ∧
    Forall (published (membership (inner s)) messages) new.
Proof.
  intros Hd E0 Hm. unfold merge_ledger_gossip, abind in Hm. rewrite Hd in Hm.
  pose proof (merge_loop_spec messages 0 s0) as Hw. unfold wp in Hw. rewrite Hm in Hw. cbn in Hw.
  destruct Hw as (new&Hnew&Hk&Hf). assert (merged s new s') as Hnew' by (unfold merged in *; by rewrite E0 in Hnew).
  rewrite E0 in Hf. exists new. split; [done|]. split; [by apply extends_blocks, Hnew'|done].
Qed.

(** Content that a fetch returns is the content that was asked for, whoever
    provided it. *)
Lemma fetch_p2p_authentic decode_error id s b s' :
  fetch_p2p pid decode_error self ep id s = (Ok b, s') → id = ContentId_of b.
Proof.
  intros E.
  assert (∀ providers s, wp (fetch_from pid decode_error self ep id providers)
    (λ res _, ∀ b, res = Ok b → id = ContentId_of b) s) as Hfrom.
  { induction providers as [|peer providers IH]; intros s1; cbn [fetch_from]; [done|].
    apply wp_bind, wp_any. intros [[m|]|] s2; [|apply IH|done]. destruct m; try apply IH.
    destruct (bool_decide _ && _) eqn:Eb; [|apply IH]. apply andb_prop in Eb as [Ea Eb]. breflect.
    apply wp_bind, wp_any. intros [i|] s3; [|done]. intros b0 [= <-]. by apply ContentId_verify_spec in Eb. }
  revert E. unfold fetch_p2p, abind at 1, attempt, files at 1.
  destruct (FileCas_get (cas self) id (world s)) as [[b0|x] w] eqn:Eg; cbn [rmap_err].
  - intros [= <- _]. apply (f_equal fst) in Eg. by apply FileCas_get_verified in Eg.
  - unfold abind. destruct (ep_find_providers ep _ _) as [[providers|] s1]; [|done].
    intros E. specialize (Hfrom providers s1). unfold wp in Hfrom. rewrite E in Hfrom. by apply Hfrom.
Qed.

End gossip.

(** ** Replication *)

Section replication.
Context (pid : N) `{Sha256, Hex, Keys, Automerge} `{Json Message, Json ExecutionRecord}.
Context (decode_error : string) (self : Config) (ep : Endpoint).

Lemma replicate_to_spec target id b peers replicas s :
  (length replicas ≤ target)%nat →
  wp (replicate_to decode_error self ep target id b peers replicas) (λ res _, ∀ rs, res = Ok rs →
    ∃ new, rs = replicas ++ new ∧ sublist new peers ∧ (length rs ≤ target)%nat) s.
Proof.
  revert replicas s. induction peers as [|p peers IH]; intros replicas s Hl; cbn [replicate_to].
  { intros rs [= <-]. exists []. rewrite app_nil_r. split_and!; [done|constructor|done]. }
  destruct (Nat.leb_spec target (length replicas)) as [Hge|Hlt].
  { intros rs [= <-]. exists []. rewrite app_nil_r. split_and!; [done|apply sublist_nil_l|done]. }
  apply wp_bind, wp_any. intros [r|] s1; [|done]. destruct (has_content id r).
  - eapply wp_mono; [apply IH; rewrite length_app; cbn; lia|]. intros res s2 Hr rs Hrs.
    destruct (Hr rs Hrs) as (new&->&Hs&Hn). exists (p :: new). rewrite <- app_assoc. split_and!; [done| |].
    + by apply sublist_skip.
    + rewrite <- app_assoc in Hn. exact Hn.
  - eapply wp_mono; [by apply IH|]. intros res s2 Hr rs Hrs.
    destruct (Hr rs Hrs) as (new&->&Hs&Hn). exists new. split_and!; [done|by apply sublist_cons|done].
Qed.

Lemma probe_spec id peers live s :
  wp (probe decode_error self ep id peers live) (λ res _, ∀ l, res = Ok l →
    live ⊆ l ∧ l ⊆ live ∪ list_to_set peers) s.
Proof.
  revert live s. induction peers as [|p peers IH]; intros live s; cbn [probe].
  { intros l [= <-]. set_solver. }
  apply wp_bind, wp_any. intros [r|] s1; [|done].
  eapply wp_mono; [apply IH|]. intros res s2 Hr l Hl. destruct (Hr l Hl). destruct (has_content id r); set_solver.
Qed.

Lemma repair_spec target id b peers live done_ s :
  wp (repair decode_error self ep target id b peers live done_) (λ res _, ∀ l ps, res = Ok (l, ps) →
    ∃ new, ps = done_ ++ new ∧ sublist new peers ∧ NoDup new ∧ l = live ∪ list_to_set new ∧
      (∀ p, p ∈ new → p ∉ live) ∧ size l ≤ size live `max` target)%nat s.
Proof.
  revert live done_ s. induction peers as [|p peers IH]; intros live done_ s; cbn [repair].
  { intros l ps [= <- <-]. exists []. rewrite app_nil_r. split_and!; [done|constructor|constructor|set_solver|set_solver|lia]. }
  destruct (Nat.leb_spec target (size live)) as [Hge|Hlt].
  { intros l ps [= <- <-]. exists []. rewrite app_nil_r.
    split_and!; [done|apply sublist_nil_l|constructor|set_solver|set_solver|lia]. }
  assert (∀ s1, wp (repair decode_error self ep target id b peers live done_) (λ res _, ∀ l ps, res = Ok (l, ps) →
    ∃ new, ps = done_ ++ new ∧ sublist new (p :: peers) ∧ NoDup new ∧ l = live ∪ list_to_set new ∧
      (∀ p, p ∈ new → p ∉ live) ∧ size l ≤ size live `max` target)%nat s1) as Hskip.
  { intros s1. eapply wp_mono; [apply IH|]. intros res s2 Hr l ps Hl.
    destruct (Hr l ps Hl) as (new&Hps&Hs&?&?&?&?). exists new. split_and!; try done. by apply sublist_cons. }
  case_bool_decide as Hin; [apply Hskip|]. apply wp_bind, wp_any. intros [[u|]|] s1; [|apply Hskip|done].
  eapply wp_mono; [apply IH|]. intros res s2 Hr l ps Hl.
  destruct (Hr l ps Hl) as (new&->&Hs&Hnd&->&Hnew&Hsz). exists (p :: new). rewrite <- app_assoc. split_and!.
  - done.
  - by apply sublist_skip.
  - constructor; [|done]. intros Hp. apply (Hnew p Hp). set_solver.
  - set_solver.
  - intros q [->|Hq]%elem_of_cons; [done|]. specialize (Hnew q Hq). set_solver.
  - pose proof (size_union {[p]} live ltac:(set_solver)) as Hu. rewrite size_singleton in Hu. lia.
Qed.

(** Replication keeps to its policy: a replication that succeeds has placed
    the content, whose bytes have the right identifier, on distinct places of
    the given list of peers, in its order, with the local copy at least the
    minimum and at most the target of the policy; a repair keeps only known
    replicas and adds only connected peers that were not live, never more than
    the target asks for, and succeeds exactly when the minimum is then met. *)
Theorem replication_within_policy id policy :
  (∀ peers s rs s', replicate_p2p decode_error self ep peers id policy s = (Ok rs, s') →
    sublist rs peers ∧ minimum_replicas policy ≤ Z.of_nat (length rs) + 1 ≤ target_replicas policy ∧
    ∃ b, (FileCas_get (cas self) id (world s)).1 = Ok b ∧ id = ContentId_of b) ∧
  (∀ known s known' res s', repair_replication_p2p decode_error self ep id policy known s = (Ok (known', res), s') →
    ∃ kept new, kept ⊆ known ∧ known' = kept ∪ list_to_set new ∧ NoDup new ∧ (∀ p, p ∈ new → p ∉ kept) ∧
      (size known' ≤ size kept `max` remote_target policy)%nat ∧
      match res with
      | Ok report => report = mkReplicationReport id known' new ∧ minimum_replicas policy ≤ Z.of_nat (size known') + 1
      | Err e => Z.of_nat (size known') + 1 < minimum_replicas policy
      end).
Proof.
  split.
  - intros peers s rs s'. unfold replicate_p2p. destruct (ReplicationPolicy_validate policy) eqn:Ev; cbn [negb]; [|done].
    unfold ReplicationPolicy_validate in Ev. breflect. unfold abind at 1, files. destruct (FileCas_get (cas self) id (world s)) as [[b|] w] eqn:Eg; cbn [rmap_err]; [|done].
    unfold abind. pose proof (replicate_to_spec (remote_target policy) id b peers []) as Hr. unfold wp in Hr.
    specialize (Hr (mkNodeState (inner s) w (ticks s)) ltac:(cbn; lia)).
    destruct (replicate_to _ _ _ _ _ _ _ _ _) as [[rs'|] s1]; [|done].
    destruct (Hr rs' eq_refl) as (new&->&Hs&Hn). cbn [app] in *.
    destruct (Z.ltb_spec (Z.of_nat (length new) + 1) (minimum_replicas policy)); [done|]. intros [= <- _].
    unfold remote_target, saturating_sub in Hn. split_and!; [done|done|lia|]. exists b. split; [done|].
    apply (f_equal fst) in Eg. by apply FileCas_get_verified in Eg.
  - intros known s known' res s'. unfold repair_replication_p2p.
    destruct (ReplicationPolicy_validate policy); cbn [negb]; [|done]. unfold abind.
    pose proof (probe_spec id (elements known) ∅ s) as Hp. unfold wp in Hp.
    destruct (probe _ _ _ _ _ _ s) as [[kept|] s1]; [|done]. destruct (Hp kept eq_refl) as [_ Hk]. cbn [fst snd] in *.
    destruct (files _ _ s1) as [[b|] s2]; [|done]. destruct (ep_peers ep s2) as [[peers|] s3]; [|done].
    pose proof (repair_spec (remote_target policy) id b peers kept [] s3) as Hr. unfold wp in Hr.
    destruct (repair _ _ _ _ _ _ _ _ _ s3) as [[[l ps]|] s4]; [|done].
    destruct (Hr l ps eq_refl) as (new&->&_&Hnd&->&Hnew&Hsz). cbn [fst snd app]. intros [= <- <- _].
    exists kept, new. split_and!; [set_solver|done|done|done|done|].
    by destruct (Z.ltb_spec (Z.of_nat (size (kept ∪ list_to_set new)) + 1) (minimum_replicas policy)).
Qed.

End replication.

(** ** Witness *)

Module Samples.
Import Toy ToyDoc Network.Samples Node.Samples NodeRestart.Samples.

(** The shared block, published by the node itself and heard again. *)
Definition raw_of {A} `{Json A} (a : A) : bytes := default [] (to_vec a).
Definition heard : list (string * bytes * bytes) :=
  [("peerless/state/v1", [x02], [x00]);
   ("peerless/ledger/v1", [x02], raw_of (from_peer (LedgerBlock (raw_of shared_block))))].
Definition gossiping : Endpoint :=
  mkEndpoint (λ _ _, afail UnexpectedResponse) (aret []) (λ _, aret []) (λ _, aret tt) (λ _ _, aret tt) (aret heard).

Abbreviation merged1 := (merge_ledger_gossip 7 clock0 gossiping shared first_open.2).

Lemma gossip_extends_ledger_witness :
  merged1.1 = Ok 1 ∧ ∃ new, Forall (published clock0 (membership (inner first_open.2)) heard) new ∧
    blocks (ledger (inner merged1.2)) = blocks (ledger (inner first_open.2)) ++ new.
Proof.
  split; [vm_compute; reflexivity|].
  destruct (gossip_extends_ledger 7 clock0 gossiping shared first_open.2 heard first_open.2 merged1.1 merged1.2
    eq_refl eq_refl (surjective_pairing merged1)) as (new&_&Hb&_&Hf).
  exists new. split; [exact Hf|exact Hb].
Defined.

End Samples.
