(* ===== verification/FrontEnd.v ===== *)
(** The front ends: the commands of the command line
    (crates/peerless-cli/src/main.rs), each of which is a process that opens the
    node from its data directory, and the browser's bootstrap check
    (crates/peerless-browser/src/lib.rs).  What a command prints is a value of
    [Output]; the layout of the text is left out. *)

From S2P Require Import Network Prelude External Core Protocol FileSystem Storage.
From S2P Require Import Merkle Consensus Ledger Compute State P2p Identity Metadata Node NodeAccess NodeTasks NodeRestart NodeClient NodeTransfer NodeService.
From Stdlib Require Import Strings.Byte.
From stdpp Require Import pretty.
#[local] Open Scope Z_scope.
#[local] Open Scope result_scope.

(** ** The browser's bootstrap list *)

Record BrowserBootstrap := mkBrowserBootstrap {
  webtransport : list string;
  webrtc : list string;
  websocket : list string;
  relay_only : bool;
}.

Section browser.
Context `{AddrText}.

Definition parses (value : string) : bool := bool_decide (is_Some (addr_parse value)).
Definition is_empty {A} (l : list A) : bool := match l with [] => true | _ => false end.

Definition BrowserBootstrap_validate (b : BrowserBootstrap) : bool :=
  let all_valid := forallb parses (webtransport b ++ webrtc b ++ websocket b) in
  if negb all_valid then false
  else if relay_only b then
    is_empty (webtransport b) && is_empty (webrtc b) && negb (is_empty (websocket b))
    && forallb (λ value, match addr_parse value with Some a => has_circuit a | None => false end) (websocket b)
  else negb (is_empty (webtransport b)) || negb (is_empty (webrtc b)) || negb (is_empty (websocket b)).

End browser.

(** ** Files written in place *)

(** [fs::write]: the file is created or truncated, then written; unlike the
    atomic writers of the storage crate this goes through empty and partial
    files. *)
Definition open_truncate (p : path) : io path ErrorKind :=
  syscall no_effect (λ t,
    let? q := ok_or (resolve MAX_SYMLINKS t p) OtherKind in
    match t !! q with
    | Some (File m _) => Ok (q, <[q := File m []]> t)
    | Some _ => Err OtherKind
    | None => if match parent q with Some d => is_dir t d | None => false end
              then Ok (q, <[q := File None []]> t) else Err NotFound
    end).
Definition write (p : path) (b : bytes) : io unit ErrorKind :=
  let! q := open_truncate p in write_all q b.

(** ** Integers in arguments *)

Definition digit (a : Ascii.ascii) : option Z :=
  let n := Z.of_nat (Ascii.nat_of_ascii a) in
  if (48 <=? n) && (n <=? 57) then Some (n - 48) else None.
Fixpoint digits (s : string) (acc : Z) : option Z :=
  match s with
  | String.EmptyString => Some acc
  | String.String a s => d ← digit a; digits s (10 * acc + d)
  end.
Definition unsigned (s : string) : option Z :=
  match s with String.EmptyString => None | _ => digits s 0 end.

(** [str::parse::<i32>]: a sign, then at least one digit. *)
Definition parse_i32 (s : string) : option Z :=
  z ← match s with
      | String.String a rest =>
          if bool_decide (a = Ascii.ascii_of_nat 45) then Z.opp <$> unsigned rest
          else if bool_decide (a = Ascii.ascii_of_nat 43) then unsigned rest
          else unsigned s
      | String.EmptyString => None
      end;
  if (- 2 ^ 31 <=? z) && (z <? 2 ^ 31) then Some z else None.

(** ** Commands *)

Inductive Output :=
| Listening (n : NodeId) (peer : bytes) (listen : Multiaddr)
| Relayed (n : NodeId) (peer : bytes) (reserved : list Multiaddr)
| IdentityOf (n : NodeId)
| Initialised (n : NodeId) (network : string)
| Invited (file : path) (issuer : NodeId) (qr : string)
| Joined (n : NodeId) (network : string) (bootstrapped : Z)
| Qr (qr : string)
| PeerTable (peers : gmap bytes (list Multiaddr))
| Status (n : NodeId) (peers : nat) (tasks storage : Z * Z) (height : Z)
| Tasks (counts : Z * Z)
| StorageOf (stats : Z * Z)
| LedgerHeight (height : Z)
| Ran (r : ExecutionRecord) (output : Z)
| Help.

(** [Box<dyn Error>]: a message of the command itself, or an error of what it
    called. *)
Inductive CliError `{Automerge} :=
| Message_ (text : string)
| OfNode (e : NodeError)
| OfIo (k : ErrorKind)
| OfJson
| OfAddress
| OfNodeId
| OfInteger
| OfEndpoint (e : P2pError)
| OfQr.

Definition cli `{Automerge} (A : Type) : Type := NodeState → result A CliError * NodeState.

Section cli_monad.
Context `{Automerge}.

Definition cret {A} (a : A) : cli A := λ s, (Ok a, s).
Definition cfail {A} (e : CliError) : cli A := λ s, (Err e, s).
Definition cbind {A B} (m : cli A) (k : A → cli B) : cli B :=
  λ s, match m s with (Ok a, s') => k a s' | (Err e, s') => (Err e, s') end.
Definition clift {A E} (f : E → CliError) (r : result A E) : cli A := λ s, (rmap_err f r, s).
Definition on_node {A} (m : act NodeState A) : cli A := λ s,
  let '(r, s) := m s in (rmap_err OfNode r, s).
Definition on_disk {A} (m : io A ErrorKind) : cli A := λ s,
  let '(r, w) := m (world s) in (rmap_err OfIo r, mkNodeState (inner s) w (ticks s)).

End cli_monad.

Notation "'let+' x := e 'in' k" := (cbind e (fun x => k))
  (at level 10, x binder, e at level 100, k at level 200,
   format "'[v' 'let+'  x  :=  e  'in' '/' k ']'") : result_scope.
Notation "e ';+' k" := (cbind e (fun _ => k))
  (at level 100, k at level 200, right associativity) : result_scope.

Section cli.
Context (pid : N) `{Sha256, Hex, KeyFiles, Automerge, Wasmtime, AddrText}.
Context `{Json Message, Json ExecutionRecord, Json SignedExecutionRecord, Json Task, Json NodeId}.
Context `{Json LedgerEvent, Json SignedEvent, Json Block, Json Proposal, Json MembershipPayload}.
Context `{Json Invitation, Json (list Membership), Json (list (string * string)), Json SignedEnvelope}.
Context (clock : nat → Z) (host : nat → Host) (error_text : NodeError → string) (decode_error : string).
Context (p2p_text : P2pError → string) (ready : Multiaddr → option Multiaddr) (elapsed : nat → f64).
(** The key and the nonce of a first start. *)
Context (fresh : Keypair) (nonce : option N).
(** How the system resolves a path argument; rendering a QR code, which fails
    on too many bytes; what a started endpoint reports at each reading (its
    peers, its relay reservations) and is asked through; the number of readings
    a wait takes; the order of a hash map. *)
Context (path_of : string → path) (qr_code : bytes → option string).
Context (peers_at : P2pRpc → nat → gmap bytes (list Multiaddr)) (reservations_at : P2pRpc → nat → Z).
Context (endpoint : P2pRpc → Endpoint) (waits : nat → nat) (order : table → table).

Definition timestamp_now : cli Z := on_node (now clock).
Definition read_peers (rpc : P2pRpc) : cli (gmap bytes (list Multiaddr)) := λ s,
  (Ok (peers_at rpc (ticks s)), ticked s).
Definition read_reservations (rpc : P2pRpc) : cli Z := λ s, (Ok (reservations_at rpc (ticks s)), ticked s).
(** Sleeping, or polling until a deadline: only time passes. *)
Definition wait : cli unit := λ s,
  (Ok tt, mkNodeState (inner s) (world s) (ticks s + waits (ticks s))).

Definition open_at (data : path) : cli Config := on_node (open_node pid clock data fresh nonce).
Definition address (value : string) : cli Multiaddr := clift (λ e, e) (ok_or (addr_parse value) OfAddress).
Definition on_endpoint {A} (x : result A P2pError * P2pRpc) : cli P2pRpc :=
  let '(r, rpc) := x in clift OfEndpoint r ;+ cret rpc.

(** [args.next().ok_or(usage)?] and [args.next().unwrap_or_else(..)]. *)
Definition required (usage : string) (args : list string) : cli (string * list string) :=
  match args with value :: rest => cret (value, rest) | [] => cfail (Message_ usage) end.
Definition optional (fallback : string) (args : list string) : string * list string :=
  match args with value :: rest => (value, rest) | [] => (fallback, []) end.

Definition listen_listener (self : Config) (unsafe_open : bool) (listen : Multiaddr) : cli P2pServer :=
  on_node (if unsafe_open then serve_p2p_unrestricted pid clock host error_text p2p_text ready self listen
           else serve_p2p pid clock host error_text p2p_text ready self listen).
(** "/ip4/0.0.0.0/udp/0/quic-v1". *)
Definition any_quic : Multiaddr := b_listen Peerless_builder.
Definition listen_any (self : Config) : cli P2pServer := listen_listener self false any_quic.

Definition data_dir : string := "peerless-data".
Definition refusing : string :=
  "refusing open-admission listener: join a permissioned network first, or use --unsafe-open only on an isolated test network".

(** One turn of the loop at the end of the two start commands. *)
Definition save_turn (self : Config) (rpc : P2pRpc) : cli unit :=
  wait ;+
  let+ peers := read_peers rpc in
  on_node (node_save_peer_cache pid p2p_text self order peers).

(** *** start *)

Definition start_arguments (args : list string) : bool * string * list string :=
  match args with
  | first :: rest =>
      if bool_decide (first = "--unsafe-open") then let '(data, rest) := optional data_dir rest in (true, data, rest)
      else (false, first, rest)
  | [] => (false, data_dir, [])
  end.

Definition cmd_start (args : list string) : cli (Config * P2pServer * Output) :=
  let '(unsafe_open, data, rest) := start_arguments args in
  let+ listen := address (optional "/ip4/0.0.0.0/udp/9718/quic-v1" rest).1 in
  let+ self := open_at (path_of data) in
  let+ member := on_node (has_membership clock self) in
  if negb member && negb unsafe_open then cfail (Message_ refusing)
  else
    let+ server := listen_listener self unsafe_open listen in
    cret (self, server, Listening (self_id self) (peer_id (p2p_rpc server)) (listen_address (p2p_rpc server))).

(** *** identity and init *)

Definition cmd_identity (args : list string) : cli Output :=
  let+ self := open_at (path_of (optional data_dir args).1) in cret (IdentityOf (self_id self)).

Definition init_node (data : path) (net : string) : cli Config :=
  let+ self := open_at data in
  let+ member := on_node (has_membership clock self) in
  if member : bool then cfail (Message_ "node already belongs to a network")
  else
    let+ i := on_node (issue_invitation pid clock self net (self_id self) ["*"] None []) in
    let+ at_ := timestamp_now in
    on_node (install_invitation pid self i at_) ;+
    cret self.
Definition cmd_init (args : list string) : cli Output :=
  let+ '(data, args) := required "usage: peerless init DATA NETWORK" args in
  let+ '(net, _) := required "missing network id" args in
  let+ self := init_node (path_of data) net in
  cret (Initialised (self_id self) net).

(** *** start-relayed *)

Definition ends_in_peer (a : Multiaddr) : bool :=
  match last a with Some (P2pPeer _) => true | _ => false end.

Fixpoint addresses (values : list string) : cli (list Multiaddr) :=
  match values with
  | [] => cret []
  | value :: values => let+ a := address value in let+ rest := addresses values in cret (a :: rest)
  end.

Fixpoint reserve (rpc : P2pRpc) (reserved : list Multiaddr) (relays : list Multiaddr) :
    cli (P2pRpc * list Multiaddr) :=
  match relays with
  | [] => cret (rpc, reserved)
  | relay :: relays =>
      let+ rpc := on_endpoint (configure_privacy_relay rpc relay) in
      let reservation := relay ++ [P2pCircuit] in
      let+ rpc := on_endpoint (listen_on rpc reservation) in
      reserve rpc (reserved ++ [reservation]) relays
  end.

Definition cmd_start_relayed (args : list string) : cli (Config * P2pRpc * Output) :=
  let+ '(data, args) := required "usage: peerless start-relayed DATA RELAY_MULTIADDR [RELAY_MULTIADDR...]" args in
  let+ relays := addresses args in
  if is_empty relays || existsb (λ a, negb (ends_in_peer a)) relays
  then cfail (Message_ "provide one or more relay multiaddrs ending in /p2p/PEER_ID")
  else
    let+ self := open_at (path_of data) in
    let+ server := on_node (serve_p2p_relay_private pid clock host error_text p2p_text ready self
                              [Ip4 127 0 0 1; OtherProtocol "udp/0"; OtherProtocol "quic-v1"]) in
    let+ '(rpc, reserved) := reserve (p2p_rpc server) [] relays in
    wait ;+
    let+ established := read_reservations rpc in
    if established <? Z.of_nat (length reserved)
    then cfail (Message_ "not every relay reservation was established")
    else cret (self, rpc, Relayed (self_id self) (peer_id rpc) reserved).

(** *** invite, join, qr *)

Definition print_qr (b : bytes) : cli string := clift (λ e, e) (ok_or (qr_code b) OfQr).

Definition cmd_invite (args : list string) : cli Output :=
  let+ '(data, args) := required "usage: peerless invite DATA NETWORK MEMBER OUTPUT [BOOTSTRAP...]" args in
  let+ '(net, args) := required "missing network id" args in
  let+ '(member, args) := required "missing member NodeId" args in
  let+ member := clift (λ _, OfNodeId) (NodeId_from_str member) in
  let+ '(output, args) := required "missing output file" args in
  let+ issuer := open_at (path_of data) in
  let+ active := on_node membership_network_id in
  if negb (bool_decide (active = Some net))
  then cfail (Message_ "issuer must be an initialised member of the same network")
  else
    let+ i := on_node (issue_invitation pid clock issuer net member ["*"] None args) in
    let+ b := clift (λ e, e) (ok_or (to_vec_pretty i) OfJson) in
    on_disk (write (path_of output) b) ;+
    let+ qr := print_qr b in
    cret (Invited (path_of output) (self_id issuer) qr).

Definition cmd_join (args : list string) : cli Output :=
  let+ '(data, args) := required "usage: peerless join DATA INVITATION" args in
  let+ '(file, _) := required "missing invitation file" args in
  let+ b := on_disk (read (path_of file)) in
  let+ i := clift (λ e, e) (ok_or (from_slice (A := Invitation) b) OfJson) in
  let+ self := open_at (path_of data) in
  let+ at_ := timestamp_now in
  on_node (install_invitation pid self i at_) ;+
  let+ server := listen_any self in
  let '(count, rpc) := apply_invitation_bootstrap p2p_text (p2p_rpc server) i in
  let+ count := clift OfNode count in
  let+ peers := read_peers rpc in
  on_node (node_save_peer_cache pid p2p_text self order peers) ;+
  cret (Joined (self_id self) (ms_network_id (inv_membership i)) count).

Definition cmd_qr (args : list string) : cli Output :=
  let+ '(file, _) := required "usage: peerless qr INVITATION" args in
  let+ b := on_disk (read (path_of file)) in
  let+ qr := print_qr b in cret (Qr qr).

(** *** peers, status, inspect *)

Definition cmd_peers (args : list string) : cli Output :=
  let+ self := open_at (path_of (optional data_dir args).1) in
  let+ server := listen_any self in
  wait ;+
  let+ peers := read_peers (p2p_rpc server) in cret (PeerTable peers).

Definition cmd_status (args : list string) : cli Output :=
  let+ self := open_at (path_of (optional data_dir args).1) in
  let+ server := listen_any self in
  wait ;+
  let+ tasks := on_node task_counts in
  let+ stats := on_node (storage_stats self) in
  let+ peers := read_peers (p2p_rpc server) in
  let+ h := on_node ledger_height in
  cret (Status (self_id self) (size peers) tasks stats h).

Definition cmd_inspect (args : list string) : cli Output :=
  let+ '(subject, args) := required "usage: peerless inspect peers|tasks|storage|ledger [DATA]" args in
  let+ self := open_at (path_of (optional data_dir args).1) in
  if bool_decide (subject = "tasks") then let+ tasks := on_node task_counts in cret (Tasks tasks)
  else if bool_decide (subject = "storage") then
    let+ stats := on_node (storage_stats self) in cret (StorageOf stats)
  else if bool_decide (subject = "ledger") then let+ h := on_node ledger_height in cret (LedgerHeight h)
  else if bool_decide (subject = "peers") then
    let+ server := listen_any self in
    wait ;+
    let+ peers := read_peers (p2p_rpc server) in cret (PeerTable peers)
  else cfail (Message_ "inspect subject must be peers, tasks, storage, or ledger").

(** *** run *)

Definition cli_add_peer (rpc : P2pRpc) (value : string) : cli P2pRpc :=
  let+ a := address value in
  match pop a with
  | (Some (P2pPeer peer), rest) =>
      let+ rpc := on_endpoint (add_peer rpc peer rest) in
      on_endpoint (dial rpc (rest ++ [P2pPeer peer]))
  | _ => cfail (Message_ "bootstrap address must end in /p2p/PEER_ID")
  end.
Fixpoint add_peers (rpc : P2pRpc) (values : list string) : cli P2pRpc :=
  match values with
  | [] => cret rpc
  | value :: values => let+ rpc := cli_add_peer rpc value in add_peers rpc values
  end.

Definition run_task_of (self : Config) (at_ : Z) (component : bytes) (value : Z) : Task :=
  mkTask (NodeId_to_string (self_id self) +:+ "-" +:+ pretty (Z.to_N at_)) (ContentId_of component)
    (ContentId_of (le_of_I32 value)) (mkRequirements 0 0 "wasmtime-component-v1" 1 NetNone) TrustExecutor None.

Definition run_task (args : list string) : cli Output :=
  let '(unsafe_open, args) :=
    match args with
    | value :: rest => if bool_decide (value = "--unsafe-open") then (true, rest) else (false, args)
    | [] => (false, args)
    end in
  match args with
  | data :: wasm :: value :: boot =>
      let+ self := open_at (path_of data) in
      let+ component := on_disk (read (path_of wasm)) in
      let+ value := clift (λ e, e) (ok_or (parse_i32 value) OfInteger) in
      let+ server := listen_listener self unsafe_open any_quic in
      let+ rpc := add_peers (p2p_rpc server) boot in
      let+ at_ := timestamp_now in
      wait ;+
      let+ peers := read_peers rpc in
      if bool_decide (peers = ∅) then cfail (Message_ "no connected peer became available before the deadline")
      else
        let+ '(record, b) := on_node (execute_best pid clock host error_text decode_error elapsed self (endpoint rpc)
                                       (run_task_of self at_ component value) component value) in
        if (length b =? 4)%nat then cret (Ran record (I32_of_le b)) else cfail (Message_ "invalid result")
  | _ => cfail (Message_ "usage: peerless run [--unsafe-open] DATA WASM INTEGER [MULTIADDR...]")
  end.

(** *** Dispatch *)

(** The process of a start command is killed after some turns of its loop. *)
Fixpoint save_turns (turns : nat) (self : Config) (rpc : P2pRpc) : cli unit :=
  match turns with
  | O => cret tt
  | S turns => save_turn self rpc ;+ save_turns turns self rpc
  end.

(** [None] for the two demonstrations. *)
Definition run (turns : nat) (args : list string) : option (cli Output) :=
  let '(command, args) := optional "help" args in
  if bool_decide (command = "start") then Some (
    let+ '(self, server, out) := cmd_start args in save_turns turns self (p2p_rpc server) ;+ cret out)
  else if bool_decide (command = "identity") then Some (cmd_identity args)
  else if bool_decide (command = "init") then Some (cmd_init args)
  else if bool_decide (command = "start-relayed") then Some (
    let+ '(self, rpc, out) := cmd_start_relayed args in save_turns turns self rpc ;+ cret out)
  else if bool_decide (command = "invite") then Some (cmd_invite args)
  else if bool_decide (command = "join") then Some (cmd_join args)
  else if bool_decide (command = "qr") then Some (cmd_qr args)
  else if bool_decide (command = "peers") then Some (cmd_peers args)
  else if bool_decide (command = "status") then Some (cmd_status args)
  else if bool_decide (command = "inspect") then Some (cmd_inspect args)
  else if bool_decide (command = "run") then Some (run_task args)
  else if bool_decide (command = "e2e-features") then None
  else if bool_decide (command = "demo-images") then None
  else Some (cret Help).

End cli.

(** ** Programs that keep a file *)

(** A file with its content in a world without faults; its mode may change. *)
Definition has_bytes (q : path) (b : bytes) (w : World) : Prop :=
  faults w = [] ∧ ∃ m, fs w !! q = Some (File m b).

Section keeps.
Context (q : path) (b : bytes).

Class Keeps {A E} (m : io A E) : Prop := keeps w : has_bytes q b w → has_bytes q b (m w).2.

#[export] Instance keeps_ret {A E} (a : A) : Keeps (E := E) (iret a).
Proof. by intros w Hw. Qed.
#[export] Instance keeps_fail {A E} (e : E) : Keeps (A := A) (ifail e).
Proof. by intros w Hw. Qed.
#[export] Instance keeps_lift {A E} (r : result A E) : Keeps (ilift r).
Proof. by intros w Hw. Qed.
#[export] Instance keeps_handle {A B E F} (m : io A E) (k : result A E → io B F) :
  Keeps m → (∀ r, Keeps (k r)) → Keeps (ihandle m k).
Proof. intros Hm Hk w Hw. unfold ihandle. specialize (Hm w Hw). destruct (m w) as [r w']. by apply Hk. Qed.
#[export] Instance keeps_bind {A B E} (m : io A E) (k : A → io B E) :
  Keeps m → (∀ a, Keeps (k a)) → Keeps (ibind m k).
Proof.
  intros Hm Hk w Hw. unfold ibind. specialize (Hm w Hw). destruct (m w) as [[a|e] w']; [|done]. by apply Hk.
Qed.
#[export] Instance keeps_map_err {A E F} (f : E → F) (m : io A E) : Keeps m → Keeps (imap_err f m).
Proof. intros Hm w Hw. unfold imap_err. specialize (Hm w Hw). by destruct (m w). Qed.

Lemma keeps_syscall {A : Type} part (call : tree → result (A * tree) ErrorKind) :
  (∀ t m a t', t !! q = Some (File m b) → call t = Ok (a, t') → ∃ m', t' !! q = Some (File m' b)) →
  Keeps (syscall part call).
Proof.
  intros Hc w [Hf [m Hq]]. rewrite syscall_nofault by done.
  destruct (call (fs w)) as [[a t]|k] eqn:E; [|split; [done|by exists m]].
  split; [done|]. by eapply Hc.
Qed.

#[export] Instance keeps_create_dir_all d : Keeps (create_dir_all d).
Proof.
  apply keeps_syscall. intros t m a t' Hq Hc. apply rbind_ok in Hc as (t1&Ht1&Hc). injection Hc as _ <-.
  destruct (mkdirs t d) as [t2|] eqn:E; [|done]. injection Ht1 as <-.
  destruct (mkdirs_lookup _ _ _ q E) as [->|(Hn&_)]; [by exists m|congruence].
Qed.

#[export] Instance keeps_set_permissions p mode : Keeps (set_permissions p mode).
Proof.
  apply keeps_syscall. intros t m a t' Hq Hc. apply rbind_ok in Hc as (r&Hr&Hc). apply rbind_ok in Hc as (n&Hn&Hc).
  injection Hc as _ <-. destruct (t !! r) as [n'|] eqn:E; [|done]. injection Hn as ->.
  destruct (decide (r = q)) as [->|Hne].
  - rewrite lookup_insert_eq. assert (n = File m b) as -> by congruence. by eexists.
  - rewrite lookup_insert_ne by done. by exists m.
Qed.

#[export] Instance keeps_create_new mode p : Keeps (create_new mode p).
Proof.
  apply keeps_syscall. intros t m a t' Hq Hc. destruct (t !! p) eqn:E; [done|].
  destruct (match parent p with Some _ => _ | None => _ end); [|done]. injection Hc as _ <-.
  rewrite lookup_insert_ne by congruence. by exists m.
Qed.

#[export] Instance keeps_hard_link x y : Keeps (hard_link x y).
Proof.
  apply keeps_syscall. intros t m a t' Hq Hc. repeat case_match; try done; injection Hc as _ <-;
    rewrite lookup_insert_ne by congruence; by exists m.
Qed.

Lemma keeps_write_all p c : p ≠ q → Keeps (write_all p c).
Proof.
  intros Hne. apply keeps_syscall. intros t m a t' Hq [= _ <-]. unfold write_content.
  repeat case_match; rewrite ?lookup_insert_ne by done; by exists m.
Qed.
Lemma keeps_remove_file p : p ≠ q → Keeps (remove_file p).
Proof.
  intros Hne. apply keeps_syscall. intros t m a t' Hq Hc. repeat case_match; try done; injection Hc as _ <-;
    rewrite lookup_delete_ne by done; by exists m.
Qed.

(** Calls that only look. *)
Lemma keeps_query {A : Type} (f : tree → result (A * tree) ErrorKind) :
  (∀ t a t', f t = Ok (a, t') → t' = t) → Keeps (syscall no_effect f).
Proof. intros Hf. apply keeps_syscall. intros t m a t' Hq Hc. rewrite (Hf _ _ _ Hc). by exists m. Qed.

Ltac query := apply keeps_query; intros t a t' Hc; unfold rbind, ok_or in Hc; repeat case_match; naive_solver.
#[export] Instance keeps_symlink_metadata p : Keeps (symlink_metadata p).
Proof. query. Qed.
#[export] Instance keeps_read p : Keeps (read p).
Proof. query. Qed.
#[export] Instance keeps_open_file p : Keeps (open_file p).
Proof. query. Qed.
#[export] Instance keeps_read_take p l : Keeps (read_take p l).
Proof. query. Qed.
#[export] Instance keeps_read_dir p : Keeps (read_dir p).
Proof. query. Qed.
#[export] Instance keeps_sync_all : Keeps sync_all.
Proof. query. Qed.
#[export] Instance keeps_exists {E} p : Keeps (exists_ (E := E) p).
Proof. apply keeps_handle; [query|apply _]. Qed.
#[export] Instance keeps_is_file {E} p : Keeps (is_file (E := E) p).
Proof. apply keeps_handle; [query|apply _]. Qed.

#[export] Instance keeps_traverse {A B E} (f : A → io B E) l : (∀ x, Keeps (f x)) → Keeps (itraverse f l).
Proof. intros Hf. induction l; cbn; apply _. Qed.

End keeps.

(** ** Membership across processes *)

Section enrolment.
Context (pid : N) `{Sha256, Hex, KeyFiles, Automerge, Wasmtime, AddrText}.
Context `{Json Message, Json ExecutionRecord, Json SignedExecutionRecord, Json Task, Json NodeId}.
Context `{Json LedgerEvent, Json SignedEvent, Json Block, Json Proposal, Json MembershipPayload}.
Context `{JsonLaws Invitation, Json (list Membership), Json (list (string * string)), Json SignedEnvelope}.
Context (clock : nat → Z) (host : nat → Host) (error_text : NodeError → string).
Context (p2p_text : P2pError → string) (ready : Multiaddr → option Multiaddr).
Context (path_of : string → path) (peers_at : P2pRpc → nat → gmap bytes (list Multiaddr)) (order : table → table).

(** The file the invitation is kept in. *)
Definition invitation_path (data : path) : path := "membership-invitation.json" :: "metadata" :: data.

(** *** Opening keeps the file *)

Lemma keeps_load_key q b p : Keeps q b (load_key p).
Proof. unfold load_key, secure_key_metadata, on_disk_error. apply keeps_bind; [|apply _].
  apply keeps_bind; [apply _|]. intros []; apply _. Qed.

Lemma keeps_load_or_generate data b fresh nonce :
  Keeps (invitation_path data) b (load_or_generate pid ("identity" :: data) fresh nonce).
Proof.
  unfold load_or_generate, on_disk_error. apply keeps_bind; [apply _|intros _]. apply keeps_bind; [apply _|].
  intros [| |]; [apply _| |apply _]. apply keeps_bind; [apply _|intros _]. apply keeps_bind; [apply _|intros present].
  apply keeps_bind; [|apply _]. destruct present; [apply keeps_load_key|].
  unfold generate_key_file, on_disk_error. apply keeps_bind; [apply _|intros e]. apply keeps_bind; [apply _|intros n].
  assert (key_temporary pid ("identity" :: data) n ≠ invitation_path data) as Hne by done.
  apply keeps_bind; [apply _|intros _]. apply keeps_bind; [by apply keeps_map_err, keeps_write_all|intros _].
  apply keeps_bind; [apply _|intros _]. apply keeps_handle; [apply _|].
  pose proof (keeps_remove_file (invitation_path data) b _ Hne) as Hrm. pose proof (keeps_load_key (invitation_path data) b).
  intros [u|[]]; unfold discard; apply _.
Qed.

Lemma keeps_Ledger_open q b root : Keeps q b (Ledger_open root).
Proof.
  unfold Ledger_open. apply keeps_bind; [apply _|intros _]. apply keeps_bind; [apply _|intros names].
  apply keeps_bind; [|apply _]. apply keeps_traverse. intros name. unfold read_block, read_limited.
  apply keeps_bind.
  - apply keeps_map_err, keeps_bind; [apply _|intros _]. apply keeps_bind; [apply _|intros x]. case_match; apply _.
  - intros x. apply keeps_bind; [apply _|intros y]. apply keeps_bind; [apply _|intros h]. case_match; apply _.
Qed.

Lemma recover_completed_keeps q b cas rows acc s :
  has_bytes q b (world s) → wp (recover_completed cas acc rows) (λ _ s', has_bytes q b (world s')) s.
Proof.
  revert acc s. induction rows as [|[[task requester] r] rows IH]; intros acc s Hw; cbn [recover_completed]; [done|].
  apply wp_bind. eapply (wp_mono _ (λ _ s', has_bytes q b (world s'))); [|intros [v|] s' Hs'; [by apply IH|done]].
  unfold result_valid. repeat case_match; try done. apply wp_files. intros v w E. cbn.
  assert (Keeps q b (FileCas_contains cas (rec_output (record r)))) as Hk by (unfold FileCas_contains; apply _).
  specialize (Hk _ Hw). by rewrite E in Hk.
Qed.

(** *** The invitation is read back *)

(** What the stored invitation gives the node: a policy for its network with an
    entry for the node that ends with the invitation, unless a membership the
    node issued for itself ends at another time. *)
Definition enrolled_as (self : Config) (net : string) (expiry : option Z) (i : Inner) : Prop :=
  ∃ p, membership i = Some p ∧ policy_network_id p = net ∧
    ((∃ a, permissions p !! self_id self = Some a ∧ access_expires_at a = expiry) ∨
     ∃ m, m ∈ issued_memberships i ∧ ms_member m = self_id self ∧ ms_expires_at m ≠ expiry).

Lemma activate_enrolls self i at_ s :
  wp (activate_invitation self i at_) (λ r s', r = Ok tt →
    enrolled_as self (ms_network_id (inv_membership i)) (ms_expires_at (inv_membership i)) (inner s') ∧
    ms_member (inv_membership i) = self_id self) s.
Proof.
  unfold activate_invitation, enforce_membership. apply wp_bind, wp_lift; [|done]. intros ok Hv.
  destruct ok; [|done]. cbn [negb]. set (m := inv_membership i) in *.
  unfold Invitation_verify_for in Hv. case_match eqn:E; [|done]. breflect. fold m in Hv.
  apply wp_bind, wp_bind, wp_lift; [|done]. intros perms Hp. cbn [accept_certificates] in Hp.
  rewrite bool_decide_eq_true_2, Hv in Hp by done. cbn [rbind] in Hp. injection Hp as <-.
  wp_auto. intros _. split; [|done]. eexists. split_and!; [reflexivity|reflexivity|]. left. cbn.
  assert (ms_member m = self_id self) as <- by done.
  destruct (decide (ms_issuer m = ms_member m)) as [->|Hne].
  - rewrite lookup_insert_eq. by eexists.
  - rewrite lookup_insert_ne, lookup_insert_eq by done. by eexists.
Qed.

Lemma load_invitation_enrolls self i b s :
  to_vec_pretty i = Some b → Z.of_nat (length b) ≤ MAX_MEMBERSHIP_FILE_BYTES →
  has_bytes (membership_file self) b (world s) →
  wp (load_invitation clock self) (λ r s', r = Ok tt →
    enrolled_as self (ms_network_id (inv_membership i)) (ms_expires_at (inv_membership i)) (inner s') ∧
    ms_member (inv_membership i) = self_id self) s.
Proof.
  intros Hb Hlen Hw. unfold load_invitation. apply wp_bind, wp_files. intros r w E. pose proof Hw as [Hf [m Hq]].
  pose proof (keeps_exists _ _ (membership_file self) _ Hw : has_bytes _ _ (exists_ (E := ErrorKind) _ _).2) as Hw1.
  rewrite E in Hw1. cbn [snd] in Hw1. unfold exists_, ihandle in E. rewrite syscall_nofault in E by done.
  rewrite (follow_File _ _ _ _ Hq), bool_decide_eq_true_2 in E by by eexists. injection E as <- _. cbn [rmap_err].
  apply wp_bind. unfold read_bounded_file. apply wp_files. intros r w2 E2. destruct Hw1 as [Hf1 [m1 Hq1]].
  pose proof (read_limited_nofault _ MAX_MEMBERSHIP_FILE_BYTES _ _ _ Hf1 Hq1) as Hr. cbn [world] in E2. rewrite E2 in Hr.
  cbn [fst] in Hr. rewrite Hr by (done || by vm_compute). cbn [rmap_err].
  rewrite (json_pretty_roundtrip _ _ Hb). cbn [ok_or]. apply wp_bind. apply wp_lift; [|done]. intros i' [= <-].
  apply wp_bind. wp_step. apply activate_enrolls.
Qed.

Lemma replace_member_elem m l l' x :
  replace_member m l = Some l' → m ∈ l' ∧ (x ∈ l → ms_member x ≠ ms_member m → x ∈ l').
Proof.
  revert l'. induction l as [|y l IH]; intros l' Hr; cbn in Hr; [done|]. case_bool_decide as Hy.
  - injection Hr as <-. split; [left|]. intros [->|Hx]%elem_of_cons Hne; [done|by right].
  - destruct (replace_member m l) as [l1|]; [|done]. injection Hr as <-. destruct (IH _ eq_refl) as [Hm Hl].
    split; [by right|]. intros [->|Hx]%elem_of_cons Hne; [left|right; by apply Hl].
Qed.

Lemma register_enrolled self net expiry m at_ s :
  enrolled_as self net expiry (inner s) →
  wp (register_issued_membership pid self m at_ false) (λ r s', r = Ok tt → enrolled_as self net expiry (inner s')) s.
Proof.
  intros (p&Hp&Hnet&Ha). unfold register_issued_membership.
  assert (∀ l, m ∈ l → (∀ x, x ∈ issued_memberships (inner s) → ms_member x ≠ ms_member m → x ∈ l) →
    enrolled_as self net expiry (set_issued_memberships l
      (set_membership (Some (grant (ms_member m) (access_of m) p)) (inner s)))) as Hgrant.
  { intros l Hm Hl. eexists. split_and!; [reflexivity|done|]. cbn.
    destruct (decide (ms_member m = self_id self)) as [E|E].
    - rewrite E, lookup_insert_eq. destruct (decide (ms_expires_at m = expiry)); [left; by eexists|right; by exists m].
    - rewrite lookup_insert_ne by done. destruct Ha as [Ha|(x&Hx&Hs&He)]; [by left|]. right. exists x.
      split_and!; [|done..]. apply Hl; [done|congruence]. }
  wp_auto; try done; intros _; simplify_eq.
  - lazymatch goal with E : replace_member _ _ = Some _ |- _ => apply Hgrant;
      [exact (proj1 (replace_member_elem _ _ _ m E))|intros x; exact (proj2 (replace_member_elem _ _ _ x E))] end.
  - apply Hgrant; intros; apply elem_of_app; [right; apply list_elem_of_singleton|left]; done.
Qed.

Lemma register_all_enrolled self net expiry ms s :
  enrolled_as self net expiry (inner s) →
  wp (register_all pid clock self ms) (λ r s', r = Ok tt → enrolled_as self net expiry (inner s')) s.
Proof.
  revert s. induction ms as [|m ms IH]; intros s He; cbn [register_all]; [by intros _|].
  apply wp_bind. wp_step. apply wp_bind. eapply wp_mono; [by apply (register_enrolled self net expiry)|].
  intros [[]|] s1 Hs1; [|done]. by apply IH, Hs1.
Qed.

Lemma load_issued_enrolled self net expiry s :
  enrolled_as self net expiry (inner s) →
  wp (load_issued pid clock self) (λ r s', r = Ok tt → enrolled_as self net expiry (inner s')) s.
Proof.
  intros He. unfold load_issued, read_bounded_file. wp_auto; try done. by apply register_all_enrolled.
Qed.

(** The conclusion for a node that was opened: it is a member until the expiry. *)
Definition member_until (self : Config) (net : string) (expiry : option Z) (s : NodeState) : Prop :=
  membership_network_id s = (Ok (Some net), s) ∧
  (self_id self ∉ revoked_members (inner s) →
   (∀ m, m ∈ issued_memberships (inner s) → ms_member m = self_id self → ms_expires_at m = expiry) →
   ∀ t, has_membership_at self (inner s) t = match expiry with None => true | Some e => t <? e end).

Lemma open_enrolls data fresh nonce i b s self s' :
  to_vec_pretty i = Some b → Z.of_nat (length b) ≤ MAX_MEMBERSHIP_FILE_BYTES →
  has_bytes (invitation_path data) b (world s) →
  open_node pid clock data fresh nonce s = (Ok self, s') →
  member_until self (ms_network_id (inv_membership i)) (ms_expires_at (inv_membership i)) s' ∧
  ms_member (inv_membership i) = self_id self ∧ membership_file self = invitation_path data ∧
  peer_cache self ≠ invitation_path data.
Proof.
  intros Hb Hlen Hw Hopen.
  assert (wp (open_node pid clock data fresh nonce) (λ r s', ∀ self, r = Ok self →
    member_until self (ms_network_id (inv_membership i)) (ms_expires_at (inv_membership i)) s' ∧
    ms_member (inv_membership i) = self_id self ∧ membership_file self = invitation_path data ∧
    peer_cache self ≠ invitation_path data) s) as Hwp; [|unfold wp in Hwp; rewrite Hopen in Hwp; by apply Hwp].
  unfold open_node. apply wp_bind, wp_files. intros r w E. pose proof (keeps_load_or_generate _ _ fresh nonce _ Hw) as Hw1.
  rewrite E in Hw1. cbn [snd] in Hw1. destruct r as [id|]; [|done]. cbn [rmap_err]. unfold PeerlessNode_open.
  apply wp_bind, wp_files. intros rc w1 E1. assert (Keeps (invitation_path data) b (FileCas_open ("cas" :: data))) as Hk1
    by (unfold FileCas_open; apply _). specialize (Hk1 _ Hw1). cbn [world] in E1. rewrite E1 in Hk1. cbn [snd] in Hk1.
  destruct rc as [c|]; [|done]. cbn [rmap_err].
  apply wp_bind, wp_files. intros rm w2 E2. cbn [world] in E2.
  pose proof (keeps_create_dir_all _ _ ("metadata" :: data) _ Hk1) as Hk2. rewrite E2 in Hk2. cbn [snd] in Hk2.
  destruct rm as [u|]; [|done]. cbn [rmap_err]. apply wp_bind, wp_database. intros [rows|] md E3; [|done]. cbn [rmap_err].
  apply wp_bind. eapply wp_mono; [by apply recover_completed_keeps|]. intros [done_|] s1 Hs1; [|done].
  apply wp_bind, wp_files. intros rs w3 E4. assert (Keeps (invitation_path data) b (StateStore_open ("documents" :: "state" :: data))) as Hk3
    by (unfold StateStore_open; apply _). specialize (Hk3 _ Hs1). rewrite E4 in Hk3. cbn [snd] in Hk3. destruct rs as [st|]; [|done]. cbn [rmap_err].
  apply wp_bind, wp_files. intros rl w4 E5. cbn [world] in E5.
  pose proof (keeps_Ledger_open _ _ ("blocks" :: "ledger" :: data) _ Hk3) as Hk4. rewrite E5 in Hk4. cbn [snd] in Hk4.
  destruct rl as [l|]; [|done]. cbn [rmap_err]. apply wp_bind. wp_step. apply wp_bind. wp_step.
  set (self0 := mkConfig _ _ _ _ _ _). apply wp_bind.
  eapply wp_mono; [by apply (load_invitation_enrolls self0 i b)|]. intros [[]|] s2 Hs2; [|done].
  destruct (Hs2 eq_refl) as [He Hm]. apply wp_bind.
  eapply wp_mono; [by apply (load_issued_enrolled self0)|]. intros [[]|] s3 Hs3; [|done]. specialize (Hs3 eq_refl).
  apply wp_bind. unfold refresh_revocations_from_ledger. wp_auto. intros self' [= <-]. split; [|done].
  destruct Hs3 as (p&Hp&Hnet&Ha). unfold apply_revocations.
  split; [unfold membership_network_id, locked, aget; cbn; rewrite Hp; cbn; by rewrite Hnet|].
  cbn [revoked_members issued_memberships set_membership set_revoked_members inner].
  intros Hrev Hiss t. unfold has_membership_at. cbn. rewrite Hp. cbn.
  destruct Ha as [(a&Ha&Hx)|(m&Hin&Hm'&Hx)]; [|by destruct Hx; apply Hiss].
  rewrite (map_lookup_filter_Some_2 _ _ _ a Ha) by done. by rewrite Hx.
Qed.

(** *** The invitation is written *)

Lemma open_paths data fresh nonce s self s' :
  open_node pid clock data fresh nonce s = (Ok self, s') →
  membership_file self = invitation_path data ∧ peer_cache self ≠ invitation_path data.
Proof.
  assert (wp (open_node pid clock data fresh nonce) (λ r _, ∀ self, r = Ok self →
    membership_file self = invitation_path data ∧ peer_cache self ≠ invitation_path data) s) as Hwp;
    [|intros Ho; unfold wp in Hwp; rewrite Ho in Hwp; by apply Hwp].
  unfold open_node, PeerlessNode_open.
  repeat (apply wp_bind, wp_any; intros [?|?] ?; [|done]).
  by intros self' [= <-].
Qed.

(** The invitation is on disk as it was installed, and names the node. *)
Definition installed (self : Config) (i : Invitation) (s : NodeState) : Prop :=
  ms_member (inv_membership i) = self_id self ∧
  ∃ b m, to_vec_pretty i = Some b ∧ Z.of_nat (length b) ≤ MAX_MEMBERSHIP_FILE_BYTES ∧
    fs (world s) !! membership_file self = Some (File m b).

Lemma install_installs self i at_ s s' :
  install_invitation pid self i at_ s = (Ok tt, s') → installed self i s'.
Proof.
  assert (wp (install_invitation pid self i at_) (λ r s', r = Ok tt → installed self i s') s) as Hwp;
    [|intros Ho; unfold wp in Hwp; rewrite Ho in Hwp; by apply Hwp].
  unfold install_invitation. apply wp_bind, wp_lift; [|done]. intros ok Hv. destruct ok; [|done]. cbn [negb].
  unfold Invitation_verify_for in Hv. case_match eqn:E; [|done]. breflect.
  apply wp_bind, wp_lift; [|done]. intros b Hb. case_match eqn:Hl; [done|].
  apply wp_bind, wp_files. intros [[]|] w Er; [|done]. cbn [rmap_err].
  apply atomic_replace_ok in Er as [Hp _]. unfold activate_invitation, enforce_membership.
  destruct (to_vec_pretty i) as [b'|] eqn:Hb'; [|done]. injection Hb as ->.
  assert (∀ s1, fs (world s1) = fs w → installed self i s1) as Hdone.
  { intros s1 Hs1. split; [done|]. exists b, (Some 0x180). split_and!; [done|by apply Z.ltb_ge|by rewrite Hs1]. }
  wp_auto; try done; intros _; by apply Hdone.
Qed.

Lemma issue_invitation_names self net member perms expiry boot s i s' :
  issue_invitation pid clock self net member perms expiry boot s = (Ok i, s') →
  ms_network_id (inv_membership i) = net ∧ ms_expires_at (inv_membership i) = expiry.
Proof.
  assert (wp (issue_invitation pid clock self net member perms expiry boot) (λ r _, ∀ i, r = Ok i →
    ms_network_id (inv_membership i) = net ∧ ms_expires_at (inv_membership i) = expiry) s) as Hwp;
    [|intros Ho; unfold wp in Hwp; rewrite Ho in Hwp; by apply Hwp].
  unfold issue_invitation. apply wp_bind. wp_step. apply wp_bind, wp_lift; [|done]. intros x Hx.
  assert (ms_network_id (inv_membership x) = net ∧ ms_expires_at (inv_membership x) = expiry) as Hnames.
  { unfold Invitation_issue, Membership_issue in Hx. apply rbind_ok in Hx as (m&Hm&Hx). injection Hx as <-.
    apply rbind_ok in Hm as (pl&_&Hm). apply rbind_ok in Hm as (sg&_&Hm). by injection Hm as <-. }
  unfold has_membership. wp_auto; try by intros ? [= <-].
  apply (wp_mono _ (λ _ _, True)); [done|]. intros [] s1 _; [|done]. by intros ? [= <-].
Qed.

(** *** Commands that enrol a node *)

(** [enrols data net expiry n s]: a command that made node [n] of [data] a
    member of [net] until [expiry] has returned and left the state [s]. *)
Inductive enrols (data : path) : string → option Z → NodeId → NodeState → Prop :=
| by_init fresh nonce net s self s' :
    init_node pid clock fresh nonce data net s = (Ok self, s') → enrols data net None (self_id self) s'
| by_join fresh nonce dir file s b i n net count s' :
    path_of dir = data → (on_disk (read (path_of file)) s).1 = Ok b → from_slice b = Some i →
    cmd_join pid clock host error_text p2p_text ready fresh nonce path_of peers_at order [dir; file] s
      = (Ok (Joined n net count), s') →
    enrols data net (ms_expires_at (inv_membership i)) n s'.

Lemma cbind_ok {A B} (m : cli A) (k : A → cli B) s c s' :
  cbind m k s = (Ok c, s') → ∃ a s1, m s = (Ok a, s1) ∧ k a s1 = (Ok c, s').
Proof. unfold cbind. destruct (m s) as [[a|] s1]; [eauto|done]. Qed.
Lemma on_node_ok {A} (m : act NodeState A) s a s' : on_node m s = (Ok a, s') → m s = (Ok a, s').
Proof. unfold on_node. destruct (m s) as [[x|] s1]; [|done]. by intros [= -> ->]. Qed.

(** Files other than the peer cache survive what [join] does after installing. *)
Lemma load_peer_cache_fs rpc p w : fs (load_peer_cache rpc p w).2 = fs w.
Proof.
  assert (hoare (λ _, True) (λ t, t = fs w) (load_peer_cache rpc p) (λ _ t, t = fs w)) as Hh;
    [|by apply (Hh w eq_refl), Forall_forall].
  unfold load_peer_cache, exists_. apply (hoare_bind _ _ _ _ (λ _ t, t = fs w)); [..|done].
  - apply (hoare_handle _ _ _ _ (λ _ t, t = fs w)); [|intros r; by apply hoare_ret].
    apply hoare_syscall; unfold no_effect; [done|]. by intros t ->.
  - intros present. destruct present; cbn [negb]; [|by apply hoare_ret].
    apply (hoare_handle _ _ _ _ (λ _ t, t = fs w)).
    + apply hoare_map_err. eapply hoare_conseq; [by apply (read_limited_hoare (λ _, True) _ _ (fs w))|done|]. by intros r t [-> _].
    + intros r. destruct (rbind r parse_peer_cache); by apply hoare_ret.
Qed.

Lemma save_peer_cache_other (m : gmap PeerId (list Multiaddr)) p q md b w w' :
  save_peer_cache pid order m p w = (Ok tt, w') → q ≠ p →
  fs w !! q = Some (File md b) → fs w' !! q = Some (File md b).
Proof.
  unfold save_peer_cache. cbv zeta. intros Hs Hne Hq. unfold ibind at 1 in Hs.
  set (mk := match parent p with Some _ => _ | None => _ end) in Hs.
  assert (hoare (λ _, True) (λ t, t !! q = Some (File md b)) mk (λ _ t, t !! q = Some (File md b))) as Hmk.
  { subst mk. destruct (parent p) as [d|]; [|by apply hoare_ret]. apply hoare_map_err, hoare_syscall; unfold no_effect; [done|].
    intros t Ht. destruct (mkdirs t d) as [t'|] eqn:E; cbn; [|done]. split; [done|].
    destruct (mkdirs_lookup _ _ _ q E) as [->|(Hn&_)]; [done|congruence]. }
  destruct (Hmk w Hq) as [Hq1 _]; [by apply Forall_forall|]. destruct (mk w) as [[u|e] w1]; [|done]. cbn in Hq1.
  destruct (MAX_PEER_CACHE_ENTRIES <? _); [done|]. unfold ibind, ilift in Hs. destruct (to_vec_pretty _) as [c|]; [|done].
  cbn in Hs. destruct (MAX_PEER_CACHE_BYTES <? _); [done|]. unfold imap_err in Hs.
  destruct (atomic_replace pid p c (Some 384) w1) as [r w2] eqn:Er. destruct r as [[]|]; [|done]. injection Hs as <-.
  by apply (proj2 (atomic_replace_ok pid p c (Some 384) _ _ Er)).
Qed.

Lemma listen_any_fs self s server s' :
  listen_any pid clock host error_text p2p_text ready self s = (Ok server, s') → fs (world s') = fs (world s).
Proof.
  unfold listen_any, listen_listener, serve_p2p. intros Hs%on_node_ok. rewrite admitted_spec in Hs.
  destruct (has_membership_at _ _ _); [|done]. revert Hs. unfold serve_p2p_unrestricted, abind at 1, p2p_error, alift.
  destruct (start_bound _ _ _) as [started|]; [|done]. cbn [rmap_err]. unfold with_cache, abind at 1, files.
  pose proof (load_peer_cache_fs started.1 (peer_cache self) (world (ticked s))) as Hfs.
  destruct (load_peer_cache _ _ _) as [[r|] w]; [|done]. cbn [rmap_err snd] in *.
  unfold abind, p2p_error, alift. destruct r.1; [|done]. cbn. intros [= _ <-]. exact Hfs.
Qed.

(** Whoever is enrolled has the invitation on disk. *)
Lemma enrols_installed data net expiry n s :
  enrols data net expiry n s →
  ∃ i b m, ms_network_id (inv_membership i) = net ∧ ms_expires_at (inv_membership i) = expiry ∧
    ms_member (inv_membership i) = n ∧ to_vec_pretty i = Some b ∧
    Z.of_nat (length b) ≤ MAX_MEMBERSHIP_FILE_BYTES ∧ fs (world s) !! invitation_path data = Some (File m b).
Proof.
  intros [fresh nonce net' s0 self s1 Hi|fresh nonce dir file s0 b i n' net' count s1 Hdata Hread Hparse Hj].
  - unfold init_node in Hi. apply cbind_ok in Hi as (self'&s2&Ho%on_node_ok&Hi).
    apply cbind_ok in Hi as (member&s3&_&Hi). destruct member; [done|].
    apply cbind_ok in Hi as (i&s4&Hiss%on_node_ok&Hi). apply cbind_ok in Hi as (at_&s5&_&Hi).
    apply cbind_ok in Hi as ([]&s6&Hin%on_node_ok&Hi). injection Hi as <- <-.
    apply issue_invitation_names in Hiss as [Hn He]. apply install_installs in Hin as (Hm&b&m&Hb&Hl&Hf).
    apply open_paths in Ho as [Hp _]. rewrite Hp in Hf. exists i, b, m. by split_and!.
  - unfold cmd_join in Hj. apply cbind_ok in Hj as ([d1 a1]&s2&E&Hj). injection E as <- <- <-.
    apply cbind_ok in Hj as ([f1 a2]&s2&E&Hj). injection E as <- <- <-.
    apply cbind_ok in Hj as (b'&s2&E&Hj). rewrite E in Hread. injection Hread as ->.
    apply cbind_ok in Hj as (i'&s3&E2&Hj). rewrite Hparse in E2. injection E2 as <- <-.
    apply cbind_ok in Hj as (self&s4&Ho%on_node_ok&Hj). apply cbind_ok in Hj as (at_&s5&_&Hj).
    apply cbind_ok in Hj as ([]&s6&Hin%on_node_ok&Hj). apply cbind_ok in Hj as (server&s7&Hl%listen_any_fs&Hj).
    destruct (apply_invitation_bootstrap _ _ _) as [c rpc]. apply cbind_ok in Hj as (c'&s8&Ec&Hj).
    apply cbind_ok in Hj as (peers&s9&Ep&Hj). apply cbind_ok in Hj as ([]&s10&Hs%on_node_ok&Hj).
    injection Hj as <- <- _ <-. apply install_installs in Hin as (Hm&b'&m&Hb&Hlen&Hf).
    apply open_paths in Ho as [Hp Hc]. rewrite Hp in Hf. rewrite Hdata in *.
    unfold clift in Ec. injection Ec as _ <-. unfold read_peers in Ep. injection Ep as _ <-.
    unfold node_save_peer_cache, files in Hs. destruct (save_peer_cache _ _ _ _ _) as [[[]|] w] eqn:Es; [|done].
    injection Hs as <-. exists i, b', m. split_and!; try done. cbn [world].
    eapply save_peer_cache_other; [exact Es|done|]. cbn [world ticked]. by rewrite Hl.
Qed.

(** C13: a node that [init] or [join] made a member is one again when it
    restarts on the invitation it stored: in every later process that opens it
    while the invitation file is as it was left and no call of the file system
    fails, it is the node the invitation names and belongs to that network, and,
    unless its ledger has revoked it or it issued itself a
    membership with another end, it is a member exactly until the invitation
    expires; until then a second [init] is refused, and the listener passes its
    admission check. *)
Theorem enrolment_survives_restart data net expiry n s1 fresh nonce s2 self s3 :
  enrols data net expiry n s1 →
  fs (world s2) !! invitation_path data = fs (world s1) !! invitation_path data → faults (world s2) = [] →
  open_node pid clock data fresh nonce s2 = (Ok self, s3) →
  self_id self = n ∧ membership_network_id s3 = (Ok (Some net), s3) ∧
  (self_id self ∉ revoked_members (inner s3) →
   (∀ m, m ∈ issued_memberships (inner s3) → ms_member m = self_id self → ms_expires_at m = expiry) →
   let valid t := match expiry with None => true | Some e => t <? e end in
   (∀ t, has_membership_at self (inner s3) t = valid t) ∧
   (valid (clock (ticks s3)) = true →
    (∀ net', init_node pid clock fresh nonce data net' s2
               = (Err (Message_ "node already belongs to a network"), ticked s3)) ∧
    ∀ listen, serve_p2p pid clock host error_text p2p_text ready self listen s3
            = serve_p2p_unrestricted pid clock host error_text p2p_text ready self listen (ticked s3))).
Proof.
  intros (i&b&m&Hnet&Hexp&Hmem&Hb&Hlen&Hf)%enrols_installed Hfs Hfl Hopen.
  destruct (open_enrolls data fresh nonce i b s2 self s3 Hb Hlen) as ([Hid Hall]&Hself&_); [|exact Hopen|].
  { split; [done|]. exists m. by rewrite Hfs. }
  rewrite Hnet, Hexp in *. split_and!; [by rewrite <- Hmem|done|]. intros Hrev Hiss valid.
  pose proof (Hall Hrev Hiss) as Hval. split; [exact Hval|]. unfold valid. intros Hv. split.
  - intros net'. unfold init_node, cbind at 1, open_at, on_node at 1. rewrite Hopen. cbn [rmap_err].
    unfold cbind at 1, on_node at 1, has_membership, abind, now, locked, aget. cbn. by rewrite Hval, Hv.
  - intros listen. unfold serve_p2p. by rewrite admitted_spec, Hval, Hv.
Qed.

End enrolment.

(** ** Witness *)

Module Samples.
Import Toy ToyDoc P2p.Samples Node.Samples NodeRestart.Samples Identity.Samples NodeService.Samples.

#[export] Instance invitation_json_laws : JsonLaws Invitation := countable_json_laws.

(** A node that is initialised in an empty directory and opened again. *)
Definition key1 : Keypair := [x01].
Abbreviation inited1 :=
  (init_node 7 clock0 key1 (Some 1%N) [] "net" (closed Metadata_empty {[[] := Dir None]} 0)).
Abbreviation closed2 := (closed (metadata (inner inited1.2)) (fs (world inited1.2)) 50).
Abbreviation opened2 := (open_node 7 clock0 [] key1 (Some 2%N) closed2).

Definition owner_of {E} (r : result Config E) : Config := match r with Ok c => c | Err _ => self0 end.
Lemma owner_of_spec {E} (x : result Config E * NodeState) : is_ok x.1 = true → x = (Ok (owner_of x.1), x.2).
Proof. by destruct x as [[|] s]. Qed.

Lemma closed_fs m t n : fs (world (closed m t n)) = t.
Proof. reflexivity. Qed.
Lemma closed_faults m t n : faults (world (closed m t n)) = [].
Proof. reflexivity. Qed.
Lemma revoked2 : self_id (owner_of opened2.1) ∉ revoked_members (inner opened2.2).
Proof. apply (bool_decide_eq_false_1 _). vm_compute. reflexivity. Qed.
Lemma issued2 : issued_memberships (inner opened2.2) = [].
Proof. vm_compute. reflexivity. Qed.

Lemma inited1_ok : is_ok inited1.1 = true.
Proof. vm_compute. reflexivity. Qed.
Lemma opened2_ok : is_ok opened2.1 = true.
Proof. vm_compute. reflexivity. Qed.

Lemma enrolment_survives_restart_witness :
  membership_network_id opened2.2 = (Ok (Some "net"), opened2.2) ∧
  has_membership_at (owner_of opened2.1) (inner opened2.2) 1000000 = true.
Proof.
  destruct (enrolment_survives_restart 7 clock0 host0 (λ _, "error") p2p_text0 ready0 (λ x, [x]) (λ _ _, ∅) unordered
    [] "net" None (self_id (owner_of inited1.1)) inited1.2 key1 (Some 2%N) closed2 (owner_of opened2.1) opened2.2)
    as (_&Hnet&Hrest).
  - eapply by_init. apply owner_of_spec. exact inited1_ok.
  - by rewrite closed_fs.
  - apply closed_faults.
  - apply owner_of_spec. exact opened2_ok.
  - split; [exact Hnet|]. refine (proj1 (Hrest _ _) 1000000).
    + exact revoked2.
    + rewrite issued2. intros m Hm _. exact (False_ind _ (not_elem_of_nil m Hm)).
Defined.

(** The node of [closed2], in a process whose query for the invitation fails. *)
Definition unlucky : NodeState :=
  mkNodeState (inner closed2)
    (mkWorld (fs (world closed2)) 0 (replicate 12 None ++ [Some (mkFault OtherKind 0)]) []) 50.
Definition hijacked : result Config CliError * NodeState :=
  init_node 7 clock0 key1 (Some 2%N) [] "other" unlucky.
Definition reopened3 : result Config NodeError * NodeState :=
  open_node 7 clock0 [] key1 (Some 3%N) (closed (metadata (inner hijacked.2)) (fs (world hijacked.2)) 80).

(** [open] takes a failed query for the invitation for its absence: the node
    opens without its membership, a second [init] for another network succeeds
    and replaces the invitation, and later processes belong to that network. *)
Theorem failed_query_forgets_membership :
  (membership_network_id (open_node 7 clock0 [] key1 (Some 2%N) unlucky).2).1 = Ok None ∧
  is_ok hijacked.1 = true ∧ is_ok reopened3.1 = true ∧
  (membership_network_id reopened3.2).1 = Ok (Some "other").
Proof. vm_compute. auto. Qed.

End Samples.
