(* ===== verification/ImageDemo.v ===== *)
(** The image demonstration of the command line
    (crates/peerless-cli/src/main.rs): the component it embeds, which halves a
    64 by 64 image, the files it writes, and the loop that has every image
    processed, checked and counted. *)

From S2P Require Import Network Prelude External Core Protocol FileSystem Storage.
From S2P Require Import Merkle Consensus Ledger Compute Wasm State P2p Identity Metadata Node NodeAccess NodeTasks NodeRestart NodeClient NodeTransfer NodeService NodeExecution FrontEnd.
From Stdlib Require Import Strings.Byte.
From stdpp Require Import pretty.
#[local] Open Scope Z_scope.
#[local] Open Scope result_scope.

(** ** The component *)

Fixpoint ops (l : list instr) (rest : code) : code :=
  match l with [] => rest | i :: l => Op i (ops l rest) end.

(** Locals: [$ptr], [$len], [$x], [$y]. *)
Definition cols : code :=
  ops [LocalGet 2; I32Const 32; I32GeU] (BrIf 1 (
  ops [I32Const 8192;
       LocalGet 3; I32Const 32; I32Mul; I32Add;
       LocalGet 2; I32Add;
       LocalGet 0;
       LocalGet 3; I32Const 128; I32Mul; I32Add;
       LocalGet 2; I32Const 2; I32Mul; I32Add;
       I32Load8U;
       I32Store8;
       LocalGet 2; I32Const 1; I32Add; LocalSet 2] (Br 0))).

Definition rows : code :=
  ops [LocalGet 3; I32Const 32; I32GeU] (BrIf 1 (
  ops [I32Const 0; LocalSet 2] (
  CBlock (CLoop cols Done) (
  ops [LocalGet 3; I32Const 1; I32Add; LocalSet 3] (Br 0))))).

Definition resize_module : wasm_module :=
  mkModule 1 "run" [VI32 0; VI32 0] (CBlock (CLoop rows Done) (Op (I64Const 35184372089856) Done)).

(** ** What it computes *)

(** Where the component puts its output, and the size of its input. *)
Definition OUTPUT : nat := Z.to_nat 8192.
Definition IMAGE : nat := Z.to_nat (64 * 64).

(** The pixel [q] of the result, in the order of rows, is every other pixel of
    every other row. *)
Definition source_pixel (q : nat) : nat := 128 * (q / 32) + 2 * (q mod 32).
Definition nearest (img : bytes) : bytes := (λ q, byte_at (source_pixel q) img) <$> seq 0 1024.

Lemma length_nearest img : length (nearest img) = 1024%nat.
Proof. unfold nearest. by rewrite length_fmap, length_seq. Qed.

Lemma source_pixel_at x y : (x < 32)%nat → source_pixel (32 * y + x) = (128 * y + 2 * x)%nat.
Proof.
  intros Hx. unfold source_pixel.
  rewrite <- (Nat.div_unique (32 * y + x) 32 y x), <- (Nat.mod_unique (32 * y + x) 32 y x) by lia. done.
Qed.

Lemma source_pixel_lt q : (q < 1024)%nat → (source_pixel q < IMAGE)%nat.
Proof.
  intros Hq. unfold source_pixel, IMAGE. pose proof (Nat.mod_upper_bound q 32).
  pose proof (Nat.Div0.div_lt_upper_bound q 32 32). lia.
Qed.

Lemma lookup_nearest_pixel img q :
  length img = IMAGE → (q < 1024)%nat → nearest img !! q = img !! source_pixel q.
Proof.
  intros Himg Hq. unfold nearest. rewrite list_lookup_fmap, lookup_seq_lt by done.
  change (Some (byte_at (source_pixel q) img) = img !! source_pixel q). unfold byte_at.
  destruct (lookup_lt_is_Some_2 img (source_pixel q)) as [b ->]; [|done]. rewrite Himg. by apply source_pixel_lt.
Qed.

Lemma lookup_nearest img x y :
  length img = IMAGE → (x < 32)%nat → (y < 32)%nat →
  nearest img !! (32 * y + x)%nat = img !! (64 * (2 * y) + 2 * x)%nat.
Proof.
  intros Himg Hx Hy. rewrite lookup_nearest_pixel, source_pixel_at by lia. f_equal. lia.
Qed.

Lemma nearest_uniform v : nearest (replicate IMAGE v) = replicate 1024 v.
Proof.
  apply list_eq. intros q. destruct (decide (q < 1024)%nat) as [Hq|Hq].
  - rewrite lookup_nearest_pixel; [|by rewrite length_replicate|done].
    rewrite !lookup_replicate_2; [done|done|by apply source_pixel_lt].
  - rewrite !lookup_ge_None_2; [done|rewrite length_replicate; lia|rewrite length_nearest; lia].
Qed.

Section resize.
Context (img : bytes) (Himg : length img = IMAGE).

(** After [p] pixels: the image is still in place and so are the pixels. *)
Record progress (p : nat) (m : bytes) : Prop := {
  progress_length : length m = PAGE;
  progress_image i : (i < IMAGE)%nat → m !! i = img !! i;
  progress_pixels q : (q < p)%nat → m !! (OUTPUT + q)%nat = img !! source_pixel q;
}.

Definition at_pixel (len : value) (x y : nat) (m : bytes) (g : Z) : frame :=
  mkFrame [VI32 0; len; VI32 (Z.of_nat x); VI32 (Z.of_nat y)] m g.

Lemma wrap32_small z : 0 ≤ z < 2 ^ 32 → wrap32 z = z.
Proof. apply Z.mod_small. Qed.

Lemma exec_op t i rest st l m g st' f' :
  0 < g → step i st (mkFrame l m (g - 1)) = Some (st', f') →
  exec t (Op i rest) st (mkFrame l m g) = exec t rest st' f'.
Proof. intros Hg Hs. rewrite exec_unfold. unfold charge. cbn [gas locals mem]. rewrite (proj2 (Z.ltb_lt _ _)) by done. by rewrite Hs. Qed.
Lemma exec_brif t k rest b st l m g :
  0 < g → exec t (BrIf k rest) (VI32 b :: st) (mkFrame l m g) =
    if b =? 0 then exec t rest st (mkFrame l m (g - 1)) else Branch k (mkFrame l m (g - 1)).
Proof. intros Hg. rewrite exec_unfold. unfold charge. cbn [gas locals mem]. by rewrite (proj2 (Z.ltb_lt _ _)). Qed.
Lemma exec_br t k st l m g :
  0 < g → exec t (Br k) st (mkFrame l m g) = Branch k (mkFrame l m (g - 1)).
Proof. intros Hg. rewrite exec_unfold. unfold charge. cbn [gas locals mem]. by rewrite (proj2 (Z.ltb_lt _ _)). Qed.

#[local] Arguments wrap32 : simpl never.
#[local] Arguments Z.add : simpl never.
#[local] Arguments Z.sub : simpl never.
#[local] Arguments Z.mul : simpl never.
#[local] Arguments Z.leb : simpl never.
#[local] Arguments Z.of_nat : simpl never.

(** Arithmetic on the addresses. *)
Ltac addr := unfold OUTPUT, IMAGE, PAGE in *; lia.

(** Runs one instruction without control flow. *)
Ltac op := erewrite exec_op; [|lia|cbn; unfold set_locals; cbn; reflexivity]; rewrite ?wrap32_small by lia.

Lemma step_load l m g a st b :
  m !! Z.to_nat a = Some b →
  step I32Load8U (VI32 a :: st) (mkFrame l m g) = Some (VI32 (byte_to_Z b) :: st, mkFrame l m g).
Proof. intros Hb. cbn. unfold load8. by rewrite Hb. Qed.
Lemma step_store l m g a v st :
  a < Z.of_nat (length m) →
  step I32Store8 (VI32 v :: VI32 a :: st) (mkFrame l m g)
    = Some (st, mkFrame l (<[Z.to_nat a := byte_of_Z v]> m) g).
Proof. intros Ha. cbn. unfold store8. by rewrite (proj2 (Z.ltb_lt _ _)). Qed.

Lemma col_turn t len x y m g b :
  (x < 32)%nat → (y < 32)%nat → 27 ≤ g → length m = PAGE → m !! (128 * y + 2 * x)%nat = Some b →
  exec t cols [] (at_pixel len x y m g) =
    Branch 0 (at_pixel len (S x) y (<[(OUTPUT + (32 * y + x))%nat := b]> m) (g - 27)).
Proof.
  intros Hx Hy Hg Hm Hb. unfold cols, at_pixel. cbn [ops]. do 3 op.
  rewrite exec_brif by lia. rewrite (proj2 (Z.leb_gt _ _)) by lia. cbn [Z.eqb].
  do 16 op.
  erewrite exec_op; [|lia|apply step_load].
  2: { replace (Z.to_nat _) with (128 * y + 2 * x)%nat by lia. exact Hb. }
  erewrite exec_op; [|lia|apply step_store; rewrite Hm; addr]. rewrite byte_of_to_Z.
  do 4 op. rewrite exec_br by lia. do 2 f_equal.
  - do 3 f_equal. f_equal. lia.
  - f_equal. addr.
  - lia.
Qed.

Lemma cols_exit t len y m g :
  4 ≤ g → exec t cols [] (at_pixel len 32 y m g) = Branch 1 (at_pixel len 32 y m (g - 4)).
Proof.
  intros Hg. unfold cols, at_pixel. cbn [ops]. do 3 op. rewrite exec_brif by lia. cbn. do 2 f_equal. lia.
Qed.

(** One pixel further. *)
Lemma progress_step x y m b :
  (x < 32)%nat → (y < 32)%nat → progress (32 * y + x) m → img !! source_pixel (32 * y + x) = Some b →
  progress (S (32 * y + x)) (<[(OUTPUT + (32 * y + x))%nat := b]> m).
Proof.
  intros Hx Hy [Hl Hi Hp] Hb. split.
  - by rewrite length_insert.
  - intros i Hlt. rewrite list_lookup_insert_ne by addr. by apply Hi.
  - intros q Hq. destruct (decide (q = 32 * y + x)%nat) as [->|Hne].
    + rewrite list_lookup_insert_eq; [done|]. rewrite Hl. addr.
    + rewrite list_lookup_insert_ne by lia. apply Hp. lia.
Qed.

(** The inner loop finishes a row. *)
Lemma cols_loop k : ∀ t len x y m g,
  (x + k = 32)%nat → (y < 32)%nat → (k ≤ t)%nat → 27 * Z.of_nat k + 4 ≤ g → progress (32 * y + x) m →
  ∃ m', progress (32 * S y) m' ∧
    exec t (CLoop cols Done) [] (at_pixel len x y m g)
      = Branch 0 (at_pixel len 32 y m' (g - (27 * Z.of_nat k + 4))).
Proof.
  induction k as [|k IH]; intros t len x y m g Hk Hy Ht Hg Hp; rewrite exec_unfold.
  - assert (x = 32%nat) as -> by lia. exists m. split; [by replace (32 * S y)%nat with (32 * y + 32)%nat by lia|].
    rewrite cols_exit by lia. do 2 f_equal.
  - destruct (lookup_lt_is_Some_2 img (128 * y + 2 * x)) as [b Hb]; [rewrite Himg; addr|].
    rewrite (col_turn t len x y m g b); [|lia..|by destruct Hp|].
    2: { destruct Hp as [_ Hi _]. rewrite Hi by addr. exact Hb. }
    destruct t as [|t]; [lia|].
    destruct (IH t len (S x) y (<[(OUTPUT + (32 * y + x))%nat := b]> m) (g - 27)) as (m'&Hp'&E); [lia..| |].
    { rewrite Nat.add_succ_r. apply progress_step; try lia; [done|]. by rewrite source_pixel_at by lia. }
    exists m'. split; [done|]. rewrite E. do 2 f_equal. lia.
Qed.

Definition row_cost : Z := 6 + (27 * 32 + 4) + 5.

Lemma row_turn t len x y m g :
  (y < 32)%nat → (32 ≤ t)%nat → row_cost ≤ g → progress (32 * y) m →
  ∃ m', progress (32 * S y) m' ∧
    exec t rows [] (at_pixel len x y m g) = Branch 0 (at_pixel len 32 (S y) m' (g - row_cost)).
Proof.
  intros Hy Ht Hg Hp. unfold row_cost in *. unfold rows, at_pixel at 1. cbn [ops]. do 3 op.
  rewrite exec_brif by lia. rewrite (proj2 (Z.leb_gt _ _)) by lia. cbn [Z.eqb]. do 2 op.
  destruct (cols_loop 32 t len 0 y m (g - 6)) as (m'&Hp'&E); [lia..|by rewrite Nat.add_0_r|].
  exists m'. split; [done|]. rewrite exec_unfold. unfold at_pixel in E. change (Z.of_nat 0) with 0 in E.
  replace (g - 1 - 1 - 1 - 1 - 1 - 1) with (g - 6) by lia. rewrite E. cbn [ops]. do 4 op. rewrite exec_br by lia.
  unfold at_pixel. do 2 f_equal; [|lia]. do 4 f_equal. f_equal. lia.
Qed.

Lemma rows_exit t len x m g :
  4 ≤ g → exec t rows [] (at_pixel len x 32 m g) = Branch 1 (at_pixel len x 32 m (g - 4)).
Proof.
  intros Hg. unfold rows, at_pixel. cbn [ops]. do 3 op. rewrite exec_brif by lia. cbn. do 2 f_equal. lia.
Qed.

(** The outer loop finishes the image. *)
Lemma rows_loop k : ∀ t len x y m g,
  (y + k = 32)%nat → (k + 32 ≤ t)%nat → row_cost * Z.of_nat k + 4 ≤ g → progress (32 * y) m →
  ∃ x' m', progress 1024 m' ∧
    exec t (CLoop rows Done) [] (at_pixel len x y m g)
      = Branch 0 (at_pixel len x' 32 m' (g - (row_cost * Z.of_nat k + 4))).
Proof.
  induction k as [|k IH]; intros t len x y m g Hk Ht Hg Hp; rewrite exec_unfold.
  - assert (y = 32%nat) as -> by lia. exists x, m. split; [exact Hp|].
    rewrite rows_exit by (unfold row_cost in *; lia). do 2 f_equal.
  - destruct (row_turn t len x y m g) as (m1&Hp1&E); [lia|lia|unfold row_cost in *; lia|done|]. rewrite E.
    destruct t as [|t]; [lia|].
    destruct (IH t len 32%nat (S y) m1 (g - row_cost)) as (x'&m'&Hp'&E'); [lia|lia|unfold row_cost in *; lia|done|].
    exists x', m'. split; [done|]. rewrite E'. do 2 f_equal. unfold row_cost. lia.
Qed.

Definition resize_cost : Z := row_cost * 32 + 4 + 1.

(** One call, on memory that starts with the image. *)
Lemma resize_call m len g :
  resize_cost ≤ g → length m = PAGE → take IMAGE m = img →
  ∃ m', length m' = PAGE ∧ slice OUTPUT (OUTPUT + 1024) m' = nearest img ∧
    call resize_module m g 0 len = Some (35184372089856, m', g - resize_cost).
Proof.
  intros Hg Hm Htake. unfold call. cbn [body resize_module extra_locals].
  destruct (rows_loop 32 (Z.to_nat g) (VI32 (wrap32 len)) 0 0 m g) as (x'&m'&Hp&E);
    [lia|unfold resize_cost, row_cost in *; lia|unfold resize_cost, row_cost in *; lia| |].
  { split; [done| |lia]. intros i Hi. by rewrite <- Htake, lookup_take_lt by done. }
  exists m'. destruct Hp as [Hl Hi Hp]. split_and!; [done| |].
  - apply list_eq. intros q. rewrite lookup_slice. case_decide as Hq.
    + by rewrite Hp, lookup_nearest_pixel by (done || lia).
    + rewrite lookup_ge_None_2; [done|]. rewrite length_nearest. lia.
  - rewrite exec_unfold. unfold at_pixel in E. change (wrap32 0) with 0. change (Z.of_nat 0) with 0 in E. rewrite E.
    erewrite exec_op; [|unfold resize_cost, row_cost in *; lia|reflexivity].
    rewrite exec_unfold. cbn [mem gas]. do 2 f_equal. unfold resize_cost, row_cost. lia.
Qed.

End resize.

(** ** The component on a node *)

Section component.
Context (component : bytes) `{Wasmtime} `{!Runs resize_module component}.

Lemma packed_range :
  Z.shiftr (35184372089856 mod 2 ^ 64) 32 = 8192 ∧ Z.land (35184372089856 mod 2 ^ 64) U32_MAX = 1024.
Proof. by vm_compute. Qed.

Lemma invoke_resize img limit :
  length img = IMAGE → Z.of_nat PAGE ≤ limit →
  rbind (PureBytesModule_parse component) (λ m, invoke_bytes_with_limit m "run" img limit) = Ok (nearest img).
Proof.
  intros Himg Hlimit. unfold PureBytesModule_parse. rewrite runs_new. cbn [ok_or rbind].
  assert (Z.of_nat IMAGE = 4096 ∧ Z.of_nat PAGE = 65536) as [HI HP] by by vm_compute.
  unfold invoke_bytes_with_limit. rewrite Himg, HI, (proj2 (Z.ltb_ge _ _)) by lia.
  rewrite runs_instantiate by (cbn [pages resize_module limited_store memory_size]; lia).
  cbn [ok_or rbind]. rewrite runs_memory, runs_data, runs_set. cbn [negb].
  assert (length (initial_memory resize_module) = PAGE) as Hlen.
  { unfold initial_memory, zeros. rewrite length_replicate. cbn [pages resize_module]. lia. }
  rewrite Hlen, HP. change (65536 <? 4096) with false. change "run" with (export resize_module). rewrite runs_export. cbn [negb].
  change (I32_MAX <? 4096) with false.
  destruct (resize_call img Himg (copy_at 0 img (initial_memory resize_module)) 4096 DEFAULT_TASK_FUEL)
    as (m'&Hl&Hs&E).
  - by vm_compute.
  - rewrite length_copy_at; [done|]. rewrite Himg, Hlen. lia.
  - unfold copy_at. rewrite take_0, app_nil_l, <- Himg. apply take_app_length.
  - rewrite runs_call. cbn [limited_store fuel]. rewrite E. cbn [fmap option_fmap option_map ok_or rbind fst snd].
    destruct packed_range as [-> ->]. unfold checked_add. change (8192 + 1024 <=? U64_MAX) with true. cbn [ok_or rbind].
    rewrite runs_data. unfold get_range. rewrite Hl, HP.
    change (8192 <=? 8192 + 1024) with true. change (8192 + 1024 <=? 65536) with true. cbn [andb ok_or].
    replace (Z.to_nat (8192 + 1024)) with (OUTPUT + 1024)%nat by (unfold OUTPUT; lia).
    by change (Z.to_nat 8192) with OUTPUT; rewrite Hs.
Qed.

(** C10: the component of the image demonstration does what it announces: on
    every node whose runtime follows the WebAssembly semantics, a task that runs
    it on a 64 by 64 image, under whatever memory limit the task may ask for,
    neither traps nor runs out of its fuel, and returns the 32 by 32 image whose
    pixel in column [x] of row [y] is the one in column [2 * x] of row [2 * y];
    in particular an image of one intensity stays one. *)
Theorem resize_component_correct task limit img :
  runtime (requirements task) = "wasmtime-bytes-v1" → task_memory_limit task = Some limit → length img = IMAGE →
  ∃ out, run_component task component img limit = Ok out ∧ length out = 1024%nat ∧
    (∀ x y, (x < 32)%nat → (y < 32)%nat → out !! (32 * y + x)%nat = img !! (64 * (2 * y) + 2 * x)%nat) ∧
    (∀ v, img = replicate IMAGE v → out = replicate 1024 v).
Proof.
  intros Hrt Hlimit Himg. exists (nearest img). unfold run_component. rewrite bool_decide_eq_true_2 by done.
  rewrite invoke_resize; [|done|].
  2: { apply task_memory_limit_bounds in Hlimit. transitivity DEFAULT_TASK_MEMORY_LIMIT; [by vm_compute|lia]. }
  split_and!; [done|apply length_nearest|intros x y Hx Hy; by apply lookup_nearest|].
  intros v ->. apply nearest_uniform.
Qed.

(** The memory is the smallest a task can get, and the fuel is used up to less
    than a three-hundredth. *)
Lemma resize_cost_bound : resize_cost = 28133 ∧ 300 * resize_cost < DEFAULT_TASK_FUEL.
Proof. by vm_compute. Qed.

End component.

(** ** The demonstration *)

Definition newline : string := String.String (Ascii.ascii_of_nat 10) String.EmptyString.

(** [None] is the panic of the assertion. *)
Definition pgm_with_pixels (pixels : bytes) (width height : nat) : option bytes :=
  if (length pixels =? width * height)%nat then
    Some (str_bytes ("P5" +:+ newline +:+ pretty width +:+ " " +:+ pretty height +:+ newline +:+ "255" +:+ newline)
          ++ pixels)
  else None.

(** [{index:03}]. *)
Definition pad3 (n : nat) : string :=
  let s := pretty n in
  match String.length s with 1%nat => "00" +:+ s | 2%nat => "0" +:+ s | _ => s end.
Definition image_file (index : nat) : string := "image-" +:+ pad3 index +:+ ".pgm".

Definition sum_list_Z (l : list Z) : Z := foldr Z.add 0 l.

Section demo.
Context (pid : N) `{Sha256, Hex, Keys, Automerge, Wasmtime}.
Context `{Json Message, Json ExecutionRecord, Json SignedExecutionRecord, Json Task, Json NodeId}.
Context `{Json LedgerEvent, Json SignedEvent, Json Block, Json Proposal, Json MembershipPayload}.
Context `{Json SignedEnvelope}.
Context (clock : nat → Z) (host : nat → Host) (decode_error : string).
(** The bytes of the embedded component; the coordinator with its endpoint; the
    executors in the order they were started. *)
Context (component : bytes) (self : Config) (ep : Endpoint) (executors : list NodeId).

Definition demo_task (run_id : Z) (index : nat) (raw : bytes) : Task :=
  mkTask ("demo-" +:+ pretty (Z.to_N run_id) +:+ "-image-" +:+ pad3 index) (ContentId_of component)
    (ContentId_of raw) (mkRequirements 0 0 "wasmtime-bytes-v1" 1 NetNone) TrustExecutor None.

Definition intensity (index : nat) : byte := byte_of_Z (Z.of_nat index mod 256).

(** The check of one output. *)
Definition output_ok (v : byte) (b : bytes) : bool :=
  (length b =? 32 * 32)%nat && forallb (λ pixel, bool_decide (pixel = v)) b.

Definition or_panic_pgm (o : option bytes) : cli bytes :=
  clift (λ e, e) (ok_or o (Message_ "assertion failed")).

(** Who did it: the coordinator is 0, the executors follow. *)
Definition selected (executor : NodeId) : option nat :=
  if bool_decide (executor = self_id self) then Some 0%nat
  else S <$> (fst <$> list_find (λ e, executor = e) executors).

Definition process_image (data : path) (run_id : Z) (index : nat) : cli nat :=
  let v := intensity index in
  let raw := replicate IMAGE v in
  let+ picture := or_panic_pgm (pgm_with_pixels raw 64 64) in
  on_disk (write (image_file index :: "input" :: data) picture) ;+
  let+ '(record, b) := on_node (execute_best_bytes pid clock host decode_error self ep
                                  (demo_task run_id index raw) component raw) in
  if negb (output_ok v b) then cfail (Message_ ("image " +:+ pretty index +:+ " verification failed"))
  else
    let+ picture := or_panic_pgm (pgm_with_pixels b 32 32) in
    on_disk (write (image_file index :: "output" :: data) picture) ;+
    clift (λ e, e) (ok_or (selected (rec_executor record)) (Message_ "selected executor disappeared")).

(** The loop over the images, with the count of every participant. *)
Fixpoint process_images (data : path) (run_id : Z) (indices : list nat) (distribution : list Z) : cli (list Z) :=
  match indices with
  | [] => cret distribution
  | index :: indices =>
      let+ who := process_image data run_id index in
      process_images data run_id indices (alter (λ n, n + 1) who distribution)
  end.

(** From the first check to the totals; starting the nodes is left out. *)
Definition image_demo (data : path) (count : nat) : cli (list Z) :=
  if (count =? 0)%nat then cfail (Message_ "image count must be positive")
  else
    on_disk (create_dir_all ("input" :: data)) ;+
    on_disk (create_dir_all ("output" :: data)) ;+
    on_disk (write ("resize.wasm" :: data) component) ;+
    let+ run_id := on_node (now clock) in
    process_images data run_id (seq 0 count) [0; 0; 0].

Lemma output_ok_spec v b : output_ok v b = true ↔ b = replicate 1024 v.
Proof.
  unfold output_ok. rewrite andb_true_iff, Nat.eqb_eq. split.
  - intros [Hl Hf]. change (32 * 32)%nat with 1024%nat in Hl. rewrite <- Hl. apply list_eq. intros i.
    destruct (b !! i) as [x|] eqn:E; [|symmetry; apply lookup_ge_None_2; rewrite length_replicate; by apply lookup_ge_None_1].
    rewrite lookup_replicate_2 by by eapply lookup_lt_Some. f_equal.
    rewrite forallb_forall in Hf. apply list_elem_of_lookup_2, list_elem_of_In, Hf in E.
    by apply bool_decide_eq_true_1 in E.
  - intros ->. split; [by rewrite length_replicate|]. apply forallb_forall. intros x Hx%list_elem_of_In.
    apply elem_of_replicate in Hx as [-> _]. by apply bool_decide_eq_true_2.
Qed.

Lemma process_image_participant data run_id index s who s' :
  process_image data run_id index s = (Ok who, s') → (who ≤ length executors)%nat.
Proof.
  unfold process_image. intros E. apply cbind_ok in E as (pic&s1&_&E). apply cbind_ok in E as (u&s2&_&E).
  apply cbind_ok in E as ([r b]&s3&_&E). destruct (output_ok _ b); [|done].
  apply cbind_ok in E as (pic2&s4&_&E). apply cbind_ok in E as (u2&s5&_&E). unfold clift in E.
  destruct (selected (rec_executor r)) as [k|] eqn:Hk; [|done]. injection E as <- _.
  unfold selected in Hk. case_bool_decide; [injection Hk as <-; lia|].
  destruct (list_find _ _) as [[i e]|] eqn:Hf; [|done]. injection Hk as <-.
  apply list_find_Some in Hf as [Hi _]. apply lookup_lt_Some in Hi. cbn. lia.
Qed.

Lemma sum_alter (d : list Z) k : (k < length d)%nat → sum_list_Z (alter (λ n, n + 1) k d) = sum_list_Z d + 1.
Proof.
  revert k. induction d as [|x d IH]; intros [|k] Hk; cbn in *; try lia.
  unfold sum_list_Z in *. cbn. rewrite IH by lia. lia.
Qed.

(** Every image counts once: whatever the peers answer, a demonstration that
    returns has had every image processed to the uniform small image, and the
    counts add up to the number of images. *)
Theorem demo_counts_every_image data count s d s' :
  length executors = 2%nat → image_demo data count s = (Ok d, s') →
  (0 < count)%nat ∧ length d = 3%nat ∧ sum_list_Z d = Z.of_nat count.
Proof.
  intros Hex. unfold image_demo. destruct (Nat.eqb_spec count 0) as [->|Hc]; [done|]. intros E.
  apply cbind_ok in E as (u1&s1&_&E). apply cbind_ok in E as (u2&s2&_&E). apply cbind_ok in E as (u3&s3&_&E).
  apply cbind_ok in E as (run_id&s4&_&E). split; [lia|].
  assert (∀ l d0 s0, length d0 = 3%nat → process_images data run_id l d0 s0 = (Ok d, s') →
    length d = 3%nat ∧ sum_list_Z d = sum_list_Z d0 + Z.of_nat (length l)) as Hloop.
  { induction l as [|i l IH]; intros d0 s0 Hl Hp; cbn [process_images] in Hp.
    - injection Hp as <- _. cbn. split; [done|lia].
    - apply cbind_ok in Hp as (who&s5&Hw%process_image_participant&Hp).
      apply IH in Hp as [Hd Hs]; [|by rewrite length_alter]. split; [done|].
      rewrite Hs, sum_alter by lia. cbn [length]. lia. }
  apply Hloop in E as [Hd Hs]; [|done]. split; [done|]. rewrite Hs, length_seq. by cbn.
Qed.

End demo.

(** *** Executors that follow the protocol *)

Section honest.
Context (pid : N) `{Sha256, Hex, Keys, Automerge, Wasmtime}.
Context `{JsonLaws Message, Json ExecutionRecord, Json SignedExecutionRecord, Json Task, Json NodeId}.
Context `{Json LedgerEvent, Json SignedEvent, Json Block, Json Proposal, Json MembershipPayload}.
Context (clock : nat → Z) (host : nat → Host) (error_text : NodeError → string).
Context (server : Config) (me : NodeIdentity).
Context (Hwrite : ∀ m : Message, is_Some (to_vec m)) (Hsign : ∀ kp m, is_Some (keypair_sign kp m)).
Context (Hme : identity_wf me) (Hserver : identity_wf (identity server)).
Context (component : bytes) `{!Runs resize_module component}.

(** An image processed by a node that follows the protocol passes the check of
    the demonstration, unless other bytes have the content identifier of the
    component, of the image or of the output. *)
Theorem honest_image_accepted run_id index s r out s' :
  all_genuine server (inner s) →
  let raw := replicate IMAGE (intensity index) in
  remote_execute_bytes_via (served pid clock host error_text server) (now clock) me
    (demo_task component run_id index raw) component raw s = (Ok (r, out), s') →
  (∃ b, collision b component ∨ collision b raw ∨ collision b out) ∨ output_ok (intensity index) out = true.
Proof.
  intros Hg raw E. apply honest_run in E as (_&cb&ib&out'&limit&Hc&Hi&Hl&Hrun&Ho); [|done..].
  destruct (decide (cb = component)) as [->|Hne]; [|left; exists cb; by left].
  destruct (decide (ib = raw)) as [->|Hne]; [|left; exists ib; by right; left].
  destruct (decide (out' = out)) as [->|Hne]; [|left; exists out'; by right; right]. right. apply output_ok_spec.
  unfold run_component in Hrun. rewrite bool_decide_eq_true_2 in Hrun by done.
  rewrite (invoke_resize component) in Hrun; [| |].
  - injection Hrun as <-. apply nearest_uniform.
  - apply length_replicate.
  - apply task_memory_limit_bounds in Hl. transitivity DEFAULT_TASK_MEMORY_LIMIT; [by vm_compute|lia].
Qed.

End honest.

(** ** Witness *)

Module Samples.

(** A runtime that follows the semantics, for the one module. *)
Definition component0 : bytes := [x00; x61; x73; x6d].

#[export] Instance spec_wasmtime : Wasmtime :=
  {| WasmModule := unit; WasmComponent := Empty_set; WasmInstance := bytes * Z;
     module_new b := if bool_decide (b = component0) then Some tt else None;
     component_new _ := None;
     instantiate _ s := if Z.of_nat PAGE <=? memory_size s
                        then Some (initial_memory resize_module, fuel s) else None;
     instantiate_component c _ := match c with end;
     has_memory _ := true; memory_data i := i.1; has_export _ e := bool_decide (e = "run");
     set_memory i m := (m, i.2);
     call_i64 i _ a b := (λ r : Z * bytes * Z, (r.1.1, (r.1.2, r.2))) <$> call resize_module i.1 i.2 a b;
     has_i32_export _ _ := false; call_i32 _ _ _ := None |}.

#[export] Instance runs0 : Runs resize_module component0.
Proof.
  refine {| compiled := tt : @WasmModule spec_wasmtime; instance_of m g := (m, g) : @WasmInstance spec_wasmtime |}; try done.
  intros s Hs. cbn. cbn [pages resize_module] in Hs. rewrite (proj2 (Z.leb_le _ _)) by lia. done.
Defined.

Definition white : bytes := replicate IMAGE xff.
Definition task0 : Task :=
  mkTask "t" [] [] (mkRequirements 0 0 "wasmtime-bytes-v1" 1 NetNone) TrustExecutor None.

Lemma resize_component_correct_witness :
  run_component task0 component0 white DEFAULT_TASK_MEMORY_LIMIT = Ok (replicate 1024 xff).
Proof.
  destruct (resize_component_correct component0 task0 DEFAULT_TASK_MEMORY_LIMIT white) as (out&E&_&_&Hu).
  - reflexivity.
  - vm_compute. reflexivity.
  - apply length_replicate.
  - rewrite E. f_equal. apply Hu. reflexivity.
Defined.

End Samples.
